(* ===== verification/_CoqProject ===== *)
-Q . S2P
Prelude.v
Text.v
Float32.v
Bencode.v
BencodeSpec.v
Wire.v
Bitfield.v
Sha1.v
Sha1Spec.v
Hash.v
Descriptor.v
Pieces.v
Peer.v
Torrent.v
Message.v
Socket.v
Downloader.v
DownloaderSpec.v
DownloaderRuns.v
Queue.v
SharedQueue.v
Io.v
Task.v
Furrent.v
System.v
Session.v
Files.v
Swarm.v
FurrentSpec.v
Group.v
Pool.v
Scores.v
Removal.v
Shutdown.v
Liveness.v
Seeding.v
Gui.v
App.v
