(* ===== verification/Prelude.v ===== *)
(** * Furrent, a BitTorrent client: verification development

    The program (C++, src/src) reads a .torrent file, asks the tracker for
    peers, cuts the torrent into pieces, and lets a pool of worker threads
    download the pieces from the peers, verify them and write them to disk.

    ** The parts of the program and the files that model them

    - [Prelude]: this header; outcomes of C++ code ([cxx]: a value, an exception,
      undefined behaviour, or a budget that ran out), code that updates a state
      ([st]), [util::Result] (util/result.hpp), machine integers, vectors,
      automation.
    - [Text]: character classes, decimal printing and [std::stol], as the parser
      uses them.
    - [Bencode], [BencodeSpec]: bencode/bencode_value.cpp and bencode_parser.cpp.
      The parser works on the tokens and the index the code keeps; the grammar
      is an inductive relation, stated without the functions of the parser.
    - [Wire]: download/util.cpp, 32-bit integers in network order.
    - [Bitfield]: download/bitfield.cpp, over the bytes of its storage.
    - [Sha1], [Sha1Spec]: third_party/smallsha1/sha1.cpp, and SHA-1 as FIPS
      180-4 defines it, stated without the functions of the code ([Sha1Spec.Fips]).
      The library is vendored, but the integrity of downloads rests on it and it is
      small enough to verify.
    - [Hash]: hash.cpp. [Descriptor]: File and TorrentFile of torrent.cpp.
      [Pieces]: Torrent::pieces. [Torrent]: the rest of class Torrent.
    - [Peer]: peer.cpp, addresses and announces to the tracker.
    - [Message]: download/message.cpp, the messages of the peer protocol.
    - [Socket]: download/socket.cpp. [Downloader], [DownloaderSpec],
      [DownloaderRuns]: download/downloader.cpp.
    - [Queue]: policy/policy.inl and queue.inl; the interface of policies is the
      class [IPolicy] and what the queue needs of them is [PolicyOk].
      [SharedQueue]: mt/sharing_queue.inl.
    - [Io]: platform/io.cpp. [Task]: PieceTask of furrent.cpp.
    - [Furrent], [FurrentSpec]: class Furrent of furrent.cpp.
    - [System]: the client together with its worker threads, Furrent::thread_main.
      [Session], [Files], [Swarm]: what its runs achieve, for torrents of one file
      and of several; what a session needs of the files on disk is the class
      [KeepsFiles], with an instance for each.
    - [Group]: mt/group.inl and group.cpp, groups of threads. [Pool]: the system
      with the control flow around it, from the launch of the workers in the
      constructor of Furrent over their waits in [SharedQueue] to the destructor
      that joins them. [Shutdown]: what the pool guarantees.
    - [Scores]: the peer scores over the runs of the system, the draws of the
      workers, the statistics they print and how they can fail. [Removal]: the runs
      after a torrent is removed. [Liveness]: all schedules of the pool. [Seeding]:
      several torrents at once.
    - [Gui]: gui/gui.cpp, the window; a frame is a program that stops at each
      callback. [Float32]: its [float]s. [App]: main.cpp, the window over the
      client, beside the workers.

    Definitions keep the names of the code. Where a name would clash, the class
    or an abbreviation of it is put in front ([bf_get] for Bitfield::get,
    [msg_decode] for Message::decode, [q_extract] for Queue::extract,
    [TorrentFile_new] for a constructor).

    ** How the parts interact

    [add_torrent] loads a file ([Io]), parses it ([Bencode]), builds the
    descriptor ([Descriptor], with the info hash of [Hash]), creates the files
    ([Io]), announces ([Peer]) and registers a [Torrent], and appends a [PieceTask]
    for each of its [Pieces] to the queue. A worker extracts a task ([Queue]),
    draws a peer by its score ([Torrent]), and processes the task ([Task]): a
    [Downloader] talks to the peer in [Message]s over a [Socket], checks the hash
    of the piece ([Hash]), and the content is written with [Io]. The worker then
    updates the score, counts the piece, and sets the state when the last piece
    is counted. The window ([Gui]) reads the torrents it shows in every frame with
    [get_gui_data] and calls [add_torrent] and [remove_torrent]; [App] wires its
    callbacks to the client. Three layers of steps build on each other: [System] has
    the steps on the state of the client, [Pool] adds the threads, [App] the
    main thread, and each is shown to do only what the layer below allows.

    ** The environment

    Nothing is assumed of the network: a [Socket.net] holds the completions of the
    asynchronous operations to come, any list of them, and records the operations
    that the program starts. The HTTP client of announces is an argument. The file
    system is a map from path strings to contents, with the refusals of the
    operating system as a function of paths. The draws of the random peer
    distribution are any index of positive weight, as
    std::discrete_distribution documents (and zero when there is no weight). The
    hardware concurrency is any number that is not negative. What the drawing library
    reports to the window is an input of each frame; its test of file extensions is a parameter.

    ** What is proved

    - The whole client. [Session.completed_file_verified]: after adding a torrent
      of one file, in every interleaving of workers and removals, with any peers,
      if the torrent is reported as completed then the file on disk has its length
      and every piece the right digest; no task known at the time of the add may write
      the same path. [Files.completed_files_verified] is the same for several files,
      which may be longer than they should be, and without the pieces that start in a
      file that another piece runs into: [Files.completed_files_wrong] shows why. If
      no piece spans two files there are no such pieces.
      [Seeding.completed_stay_verified]: this stays so while other torrents are added
      and removed, unless an add that fails removes files, which
      [FurrentSpec.completed_files_removed] shows to be possible. These theorems are
      about torrents with plain file names and lengths that fit their pieces.
      [System.pieces_accounted] and [System.completed_means_done]: no piece is lost
      or done twice, and completed means that all are done. [Swarm.swarm_completes]:
      with a seeding peer a worker can complete the torrent, and the file is then its
      content.
      [Removal.removal_is_final]: a removed torrent is not taken up again.
      [Scores.draws_in_bounds]: the scores follow the pieces, and every draw of a
      worker finds a peer.
    - The threads. [Shutdown.pool_refines_system]: the pool is a refinement of the
      system, its counters are right and no worker sleeps on work;
      [Shutdown.shutdown_ends] and [Shutdown.shutdown_hangs]: the destructor waits
      only for workers that are trying peers, and for those possibly forever;
      [Shutdown.launch_workers]: how many workers there are.
      [Seeding.every_schedule_completes]: with peers that may answer, every schedule
      of the threads completes all torrents that are not removed. It is stated with
      [inevitably]: after any number of failed attempts and spurious wake-ups a step
      is due, and every chain of due steps is finite; the measure counts the steps
      left of each piece and of each worker's way to its next wait. The client of
      these theorems is [serving] a registry of torrents: it starts without work, and
      torrents are added and removed at any time. [Seeding.dead_peers_starve]: if
      the peers of one torrent do not answer, the others can wait for ever.
      [Scores.only_attempts_fail]: a worker fails only inside a download attempt; a
      position of a worker in the loop of thread_main carries the peers and weights
      it looked up, which the statistics use again.
    - The program. [App.window_asks_known]: the window never asks the client for a
      torrent it does not have, and a removed row does not come back;
      [App.progress_bounds]: the progress it draws; [Gui.scrolling_exact]: where it
      draws the rows, and which; [App.zero_pieces_crash]: a frame with a torrent without
      pieces ends the program; [App.hostile_peer_ends_program]: what a peer can do
      to the program.
    - The downloader. Soundness of what it returns, its invariant, the protocol
      it follows, the window of its requests, its progress with a cooperative
      peer, and what a hostile peer can do.
    - Formats. The parser accepts exactly the bencode grammar with leading zeros and
      repeated keys, terminates and is safe; standard texts are those that the
      encoder gives back ([BencodeSpec.decode_canonical]); .torrent files, messages,
      integers and addresses round trip; the C++ SHA-1 is SHA-1.
    - Data structures. The bitfield refines a list of booleans; the pieces are
      the intersections of ranges with files; queue policies; signals of the
      shared queue; scores of peers.
    - Corner cases where the code does not do what it means to: those theorems
      are of kind "error" and state the exact conditions.

    ** Budgets

    Loops that are not structural take a budget, and [NoFuel] is the outcome when
    it runs out. The parser's is the length of its input and one more, and
    [BencodeSpec.decode_safe] shows it is enough. The walk over files
    has the number of files and two more ([Pieces.pieces_terminates]). The
    receiving loops of the downloader have the number of completions that are
    left and one more; every iteration uses one, so they stop by themselves, and
    [NoFuel] arises only when the environment never answers an operation
    ([DownloaderRuns.loops_budget]).

    ** What is not modelled, and why

    Logging and the measuring of times have no effect on the state; of what is
    logged only the statistics of peers are modelled, because they index vectors. Of
    the GUI the constant decoration (logo, title, fonts, style) is left out, and the
    value of the scroll bar is an input of a frame, as the drawing library computes
    it; of its file dialog the flags are modelled, and the list and the text boxes are
    inputs. The singleton and the type aliases hold no logic. In [System] the operation
    [add_torrent] is one step: its second half holds the lock that every worker needs
    before it looks up a torrent, and what a worker writes while the files are
    prepared it could write before or after as well, unless it is the file of a
    torrent whose folder is being reused or removed. Writing to
    a file that was opened succeeds: a disk that fills up later is not modelled. In
    [Pool] nobody waits for the queue to be empty, as in the program; that wait is in [SharedQueue]. In [System] and [Pool] a worker whose code throws
    or has undefined behaviour has no step; in [App] it ends the program. Memory
    exhaustion is not modelled, and paths are compared as strings. *)
From Stdlib Require Export ZArith Lia Strings.Byte String Sorting.Sorted.
From stdpp Require Export base tactics list option numbers.
From stdpp Require Export gmap.

#[export] Set Warnings "-notation-overridden,-clear-no-such-hyp,-register-all".

(** Names of the C++ types the sources use everywhere. *)
Abbreviation byte := Init.Byte.byte.
Abbreviation bytes := (list byte).

Declare Scope furrent_scope.
Delimit Scope furrent_scope with fur.
Create HintDb furrent.
Create HintDb no_opt.
Create Rewrite HintDb furrent.

(** ** Bytes: [uint8_t], and [char] under -funsigned-char *)

(** The unsigned value of a byte. *)
Definition b2z (b : byte) : Z := Z.of_N (Byte.to_N b).

(** Conversion of an integer to [uint8_t]: reduction modulo 256. *)
Definition u8 (z : Z) : byte := default x00 (Byte.of_N (Z.to_N (z mod 256))).

(** A string literal as the bytes of a [std::string]. *)
Definition str (s : string) : bytes := list_byte_of_string s.

Lemma b2z_range b : (0 <= b2z b < 256)%Z.
Proof. unfold b2z. pose proof (Byte.to_N_bounded b). lia. Qed.

Lemma b2z_inj a b : b2z a = b2z b -> a = b.
Proof.
  unfold b2z. intros H. apply N2Z.inj in H.
  pose proof (Byte.of_to_N a) as Ha. rewrite H, Byte.of_to_N in Ha. congruence.
Qed.

Lemma b2z_u8 z : b2z (u8 z) = (z mod 256)%Z.
Proof.
  unfold u8, b2z. pose proof (Z.mod_pos_bound z 256 eq_refl) as Hz.
  destruct (Byte.of_N (Z.to_N (z mod 256))) as [b|] eqn:E; simpl.
  - apply Byte.to_of_N in E. rewrite E. lia.
  - apply Byte.of_N_None_iff in E. lia.
Qed.

Lemma u8_b2z b : u8 (b2z b) = b.
Proof.
  apply b2z_inj. rewrite b2z_u8. apply Z.mod_small. apply b2z_range.
Qed.

Lemma b2z_u8_small z : (0 <= z < 256)%Z -> b2z (u8 z) = z.
Proof. intros. rewrite b2z_u8. by apply Z.mod_small. Qed.

#[export] Instance byte_eq_dec : EqDecision byte.
Proof.
  refine (fun a b => match decide (b2z a = b2z b) with
                     | left H => left (b2z_inj a b H)
                     | right H => right (fun E => H (f_equal b2z E))
                     end).
Defined.

#[export] Program Instance byte_countable : Countable byte :=
  inj_countable' Byte.to_N (fun n => default x00 (Byte.of_N n)) _.
Next Obligation. intros b. simpl. by rewrite Byte.of_to_N. Qed.

(** ** Undefined behaviour, exceptions and values of a C++ evaluation *)

(** The exceptions of the standard library the sources throw or let escape,
    with the message given to their constructor. *)
Inductive exn : Type :=
| invalid_argument (what : string)
| out_of_range (what : string)
| logic_error (what : string)
| length_error (what : string)
| bad_cast
| bad_variant_access
| bad_optional_access
| system_error (what : string).

(** Why an evaluation has undefined behaviour. *)
Inductive ub : Type :=
| OutOfBounds
| SignedOverflow
| DivisionByZero
| ShiftOverflow
| EmptyOptional.

(** What running a piece of C++ code produces: a value, an exception that
    escapes, undefined behaviour, or (for a loop run with a step budget) the
    end of the budget. *)
Inductive cxx (A : Type) : Type :=
| Ret (a : A)
| Throw (e : exn)
| Undef (u : ub)
| NoFuel.
Arguments Ret {A} a.
Arguments Throw {A} e.
Arguments Undef {A} u.
Arguments NoFuel {A}.

#[export] Instance cxx_ret : MRet cxx := fun A a => Ret a.
#[export] Instance cxx_bind : MBind cxx := fun A B f m =>
  match m with
  | Ret a => f a
  | Throw e => Throw e
  | Undef u => Undef u
  | NoFuel => NoFuel
  end.
#[export] Instance cxx_fmap : FMap cxx := fun A B f m =>
  match m with
  | Ret a => Ret (f a)
  | Throw e => Throw e
  | Undef u => Undef u
  | NoFuel => NoFuel
  end.

Lemma bind_ret {A B} (m : cxx A) (f : A -> cxx B) b :
  (x ← m; f x) = Ret b <-> exists a, m = Ret a /\ f a = Ret b.
Proof. destruct m; cbn; naive_solver. Qed.

Lemma bind_assoc {A B C} (m : cxx A) (f : A -> cxx B) (g : B -> cxx C) :
  (y ← (x ← m; f x); g y) = (x ← m; y ← f x; g y).
Proof. by destruct m. Qed.

Lemma fmap_ret {A B} (m : cxx A) (f : A -> B) b :
  (f <$> m) = Ret b <-> exists a, m = Ret a /\ f a = b.
Proof. destruct m; cbn; naive_solver. Qed.

Lemma bind_nofuel {A B} (m : cxx A) (f : A -> cxx B) :
  m <> NoFuel -> (forall a, m = Ret a -> f a <> NoFuel) -> (x ← m; f x) <> NoFuel.
Proof. destruct m; cbn; naive_solver. Qed.

(** No undefined behaviour and no exhausted budget: the evaluation either
    returns or throws. *)
Definition defined {A} (m : cxx A) : Prop :=
  match m with Ret _ | Throw _ => True | _ => False end.

Lemma Ret_inj {A} (a b : A) : Ret a = Ret b -> a = b.
Proof. by intros [= ->]. Qed.

(** Case analysis on the binds of a hypothesis [_ = Ret _]. *)
Ltac inv_ret :=
  repeat match goal with
  | H : (_ ≫= _) = Ret _ |- _ =>
      let x := fresh "x" in let Hx := fresh "Hx" in
      apply bind_ret in H; destruct H as (x & Hx & H)
  | H : (_ <$> _) = Ret _ |- _ =>
      let x := fresh "x" in let Hx := fresh "Hx" in
      apply fmap_ret in H; destruct H as (x & Hx & H)
  | H : Ret _ = Ret _ |- _ => apply Ret_inj in H; try subst
  | H : Throw _ = Ret _ |- _ => discriminate H
  | H : Undef _ = Ret _ |- _ => discriminate H
  | H : NoFuel = Ret _ |- _ => discriminate H
  end.

(** Runs the binds of the goal whose first part is known. *)
Ltac run_bind := cbn [mbind cxx_bind fst snd].

(** ** Stateful evaluations *)

(** Code that updates a state [S]: the state is lost when an exception escapes. *)
Definition st (S A : Type) : Type := S -> cxx (A * S).
#[export] Typeclasses Opaque st.

#[export] Instance st_ret S : MRet (st S) := fun A a s => Ret (a, s).
#[export] Instance st_bind S : MBind (st S) := fun A B f m s =>
  match m s with
  | Ret (a, s) => f a s
  | Throw e => Throw e
  | Undef u => Undef u
  | NoFuel => NoFuel
  end.

Definition get {S} : st S S := fun s => Ret (s, s).
Definition modify {S} (f : S -> S) : st S unit := fun s => Ret (tt, f s).
Definition lift {S A} (m : cxx A) : st S A := fun s => a ← m; Ret (a, s).

Lemma st_bind_ret {S A B} (m : st S A) (f : A -> st S B) s b s' :
  (x ← m; f x) s = Ret (b, s') <-> exists a s1, m s = Ret (a, s1) /\ f a s1 = Ret (b, s').
Proof.
  unfold mbind, st_bind. destruct (m s) as [[a s1]| | |]; naive_solver.
Qed.

(** ** [util::Result] *)

(** [util::Result<R, E>]: a variant that holds a result or an error. *)
Inductive Result (R E : Type) : Type :=
| OK (r : R)
| ERROR (e : E).
Arguments OK {R E} r.
Arguments ERROR {R E} e.

(** [Result::valid]. *)
Definition valid {R E} (r : Result R E) : bool :=
  match r with OK _ => true | ERROR _ => false end.

(** [Result::operator*]: [std::get] throws when the error is held. *)
Definition deref {R E} (r : Result R E) : cxx R :=
  match r with OK a => Ret a | ERROR _ => Throw bad_variant_access end.

(** [Result::error]. *)
Definition error {R E} (r : Result R E) : cxx E :=
  match r with OK _ => Throw bad_variant_access | ERROR e => Ret e end.

(** [util::Outcome]. *)
Abbreviation Outcome E := (Result unit E).

(** ** Machine integers *)

Definition int64_max : Z := 2 ^ 63 - 1.
Definition int64_min : Z := - 2 ^ 63.
Definition int32_max : Z := 2 ^ 31 - 1.
Definition uint32_max : Z := 2 ^ 32 - 1.

Definition in_i64 (z : Z) : bool := bool_decide (int64_min <= z <= int64_max)%Z.

(** Signed 64-bit arithmetic: overflow is undefined behaviour. *)
Definition i64 (z : Z) : cxx Z := if in_i64 z then Ret z else Undef SignedOverflow.

(** [a / b] on [int64_t]: truncating, undefined for a zero divisor and for an
    unrepresentable quotient. *)
Definition i64_div (a b : Z) : cxx Z :=
  if bool_decide (b = 0)%Z then Undef DivisionByZero else i64 (Z.quot a b).

(** [static_cast<int>]: reduction modulo 2^32 into the signed range. *)
Definition to_int (z : Z) : Z := ((z + 2 ^ 31) mod 2 ^ 32 - 2 ^ 31)%Z.

(** [uint32_t] arithmetic wraps. *)
Definition u32 (z : Z) : Z := (z mod 2 ^ 32)%Z.

Lemma in_i64_spec z : in_i64 z = true <-> (- 2 ^ 63 <= z <= 2 ^ 63 - 1)%Z.
Proof. unfold in_i64, int64_min, int64_max. by rewrite bool_decide_eq_true. Qed.

Lemma i64_ok z : (- 2 ^ 63 <= z <= 2 ^ 63 - 1)%Z -> i64 z = Ret z.
Proof. intros H. unfold i64. by rewrite (proj2 (in_i64_spec z) H). Qed.

Lemma i64_ret z z' : i64 z = Ret z' -> z' = z /\ (- 2 ^ 63 <= z <= 2 ^ 63 - 1)%Z.
Proof.
  unfold i64. destruct (in_i64 z) eqn:E; [|discriminate].
  apply in_i64_spec in E. intros [= <-]. auto.
Qed.

Lemma to_int_small z : (- 2 ^ 31 <= z < 2 ^ 31)%Z -> to_int z = z.
Proof. intros H. unfold to_int. rewrite Z.mod_small; lia. Qed.

Lemma to_int_range z : (- 2 ^ 31 <= to_int z < 2 ^ 31)%Z.
Proof. unfold to_int. pose proof (Z.mod_pos_bound (z + 2 ^ 31) (2 ^ 32)). lia. Qed.

(** ** Vectors *)

(** [size()] as a mathematical integer. *)
Definition zlen {A} (l : list A) : Z := Z.of_nat (length l).

(** [v[i]] of a [std::vector]: unchecked. *)
Definition vget {A} (l : list A) (i : Z) : cxx A :=
  if bool_decide (0 <= i)%Z then
    match l !! Z.to_nat i with Some x => Ret x | None => Undef OutOfBounds end
  else Undef OutOfBounds.

(** [v[i] = x] of a [std::vector]: unchecked. *)
Definition vset {A} (l : list A) (i : Z) (x : A) : cxx (list A) :=
  if bool_decide (0 <= i < zlen l)%Z then Ret (<[Z.to_nat i := x]> l)
  else Undef OutOfBounds.

Lemma zlen_nonneg {A} (l : list A) : (0 <= zlen l)%Z.
Proof. unfold zlen. lia. Qed.

Lemma zlen_nil {A} : zlen (@nil A) = 0%Z.
Proof. done. Qed.

Lemma zlen_cons {A} (x : A) l : zlen (x :: l) = (1 + zlen l)%Z.
Proof. unfold zlen. simpl. lia. Qed.

Lemma zlen_app {A} (l1 l2 : list A) : zlen (l1 ++ l2) = (zlen l1 + zlen l2)%Z.
Proof. unfold zlen. rewrite length_app. lia. Qed.

Lemma zlen_replicate {A} n (x : A) : zlen (replicate n x) = Z.of_nat n.
Proof. unfold zlen. by rewrite length_replicate. Qed.

Lemma zlen_drop {A} n (l : list A) : zlen (drop n l) = Z.max 0 (zlen l - Z.of_nat n).
Proof. unfold zlen. rewrite length_drop. lia. Qed.

Lemma zlen_take {A} n (l : list A) : zlen (take n l) = Z.min (Z.of_nat n) (zlen l).
Proof. unfold zlen. rewrite length_take. lia. Qed.

Lemma zlen_map {A B} (f : A -> B) l : zlen (map f l) = zlen l.
Proof. unfold zlen. by rewrite length_map. Qed.

Lemma zlen_0_nil {A} (l : list A) : zlen l = 0%Z -> l = [].
Proof. destruct l; [done|]. rewrite zlen_cons. pose proof (zlen_nonneg l). lia. Qed.

#[export] Hint Rewrite @zlen_nil @zlen_cons @zlen_app @zlen_replicate @zlen_drop
  @zlen_take @zlen_map : furrent.

Lemma vget_lookup {A} (l : list A) i x :
  vget l i = Ret x <-> (0 <= i)%Z /\ l !! Z.to_nat i = Some x.
Proof.
  unfold vget. case_bool_decide; [|naive_solver].
  destruct (l !! Z.to_nat i); naive_solver.
Qed.

Lemma vget_oob {A} (l : list A) i :
  vget l i = Undef OutOfBounds <-> ~ (0 <= i < zlen l)%Z.
Proof.
  unfold vget. case_bool_decide; [|split; [lia|done]].
  unfold zlen. destruct (l !! Z.to_nat i) eqn:E.
  - apply lookup_lt_Some in E. split; [done|lia].
  - apply lookup_ge_None in E. split; [lia|done].
Qed.

Lemma vget_total {A} (l : list A) i :
  (0 <= i < zlen l)%Z -> exists x, vget l i = Ret x /\ l !! Z.to_nat i = Some x.
Proof.
  intros Hi. destruct (l !! Z.to_nat i) as [x|] eqn:E.
  - exists x. split; [|done]. apply vget_lookup. split; [lia|done].
  - apply lookup_ge_None in E. unfold zlen in Hi. lia.
Qed.

Lemma vset_ret {A} (l : list A) i x l' :
  vset l i x = Ret l' <-> (0 <= i < zlen l)%Z /\ l' = <[Z.to_nat i := x]> l.
Proof. unfold vset. case_bool_decide; naive_solver. Qed.

Lemma zlen_insert {A} (l : list A) i x : zlen (<[i := x]> l) = zlen l.
Proof. unfold zlen. by rewrite length_insert. Qed.

Lemma i64_nofuel z : i64 z <> NoFuel.
Proof. unfold i64. by destruct (in_i64 z). Qed.

Lemma vget_nofuel {A} (l : list A) i : vget l i <> NoFuel.
Proof. unfold vget. case_bool_decide; [|done]. by destruct (l !! _). Qed.

#[export] Hint Resolve i64_nofuel vget_nofuel : furrent.

(** Goes through the binds of a goal [_ <> NoFuel] whose parts the hints cover. *)
Ltac no_fuel :=
  repeat (apply bind_nofuel; [solve [auto with furrent]|intros ? ?]).

(** Sum of a list of integers. *)
Definition zsum (l : list Z) : Z := foldr Z.add 0%Z l.

Lemma zsum_app l1 l2 : zsum (l1 ++ l2) = (zsum l1 + zsum l2)%Z.
Proof. induction l1; simpl; lia. Qed.

Lemma zsum_nonneg l : Forall (fun z => 0 <= z)%Z l -> (0 <= zsum l)%Z.
Proof. induction 1; simpl; lia. Qed.

(** A lookup splits a list around its element. *)
Lemma zsum_insert (l : list Z) i x y :
  l !! i = Some x -> zsum (<[i := y]> l) = (zsum l - x + y)%Z.
Proof.
  intros Hi. rewrite <- (take_drop_middle l i x Hi) at 2. rewrite insert_take_drop by (by eapply lookup_lt_Some).
  rewrite !zsum_app. unfold zsum. cbn [foldr]. lia.
Qed.

Lemma zsum_map_insert {A} (g : A -> Z) l i x y :
  l !! i = Some x -> zsum (map g (<[i := y]> l)) = (zsum (map g l) - g x + g y)%Z.
Proof.
  intros Hi. rewrite list_fmap_insert. apply zsum_insert. change (map g l) with (g <$> l).
  by rewrite list_lookup_fmap, Hi.
Qed.

Lemma zsum_replicate n x : zsum (replicate n x) = (Z.of_nat n * x)%Z.
Proof. induction n as [|n IH]; [done|]. unfold zsum in *. cbn [replicate foldr]. lia. Qed.

(** An element of a list of numbers that are at least [m]. *)
Lemma zsum_elem (l : list Z) m x :
  Forall (fun z => m <= z)%Z l -> x ∈ l -> (x + m * (zlen l - 1) <= zsum l)%Z.
Proof.
  assert (H0 : forall k, Forall (fun z => m <= z)%Z k -> (m * zlen k <= zsum k)%Z).
  { induction 1 as [|y k Hy Hk IH]; [rewrite zlen_nil; cbn; lia|]. unfold zsum in *. cbn [foldr]. rewrite zlen_cons. lia. }
  induction 1 as [|y k Hy Hk IH]; intros Hx; [by apply not_elem_of_nil in Hx|].
  pose proof (H0 _ Hk). rewrite zlen_cons. unfold zsum in *. cbn [foldr].
  apply elem_of_cons in Hx as [->|Hx]; [lia|]. specialize (IH Hx). lia.
Qed.

(** Changing one list of a concatenation. *)
Lemma concat_map_insert {A B} (g : A -> list B) (l : list A) i x y :
  l !! i = Some x -> concat (map g (<[i := y]> l)) ++ g x ≡ₚ concat (map g l) ++ g y.
Proof.
  revert i. induction l as [|z l IH]; intros [|i] Hi; try done; simpl in *.
  - injection Hi as ->. rewrite (Permutation_app_comm (g y)), (Permutation_app_comm (g x)).
    rewrite <- !app_assoc. apply Permutation_app_head, Permutation_app_comm.
  - rewrite <- !app_assoc. apply Permutation_app_head. by apply IH.
Qed.

Lemma drop_lookup_cons {A} (l : list A) n x :
  l !! n = Some x -> drop n l = x :: drop (S n) l.
Proof. apply drop_S. Qed.

Lemma drop_length_app {A} (l1 l2 : list A) n :
  n = length l1 -> drop n (l1 ++ l2) = l2.
Proof. intros ->. apply drop_app_length. Qed.

Lemma zlen_to_nat {A} (l : list A) : Z.to_nat (zlen l) = length l.
Proof. unfold zlen. lia. Qed.

Lemma take_zlen_app {A} (l1 l2 : list A) : take (Z.to_nat (zlen l1)) (l1 ++ l2) = l1.
Proof. rewrite zlen_to_nat. apply take_app_length. Qed.

Lemma drop_zlen_app {A} (l1 l2 : list A) : drop (Z.to_nat (zlen l1)) (l1 ++ l2) = l2.
Proof. rewrite zlen_to_nat. apply drop_app_length. Qed.

(** Lengths are not negative. *)
Ltac zlen_pos :=
  repeat match goal with
  | |- context [zlen ?l] =>
      lazymatch goal with
      | _ : (0 <= zlen l)%Z |- _ => fail
      | _ => pose proof (zlen_nonneg l)
      end
  | H : context [zlen ?l] |- _ =>
      lazymatch goal with
      | _ : (0 <= zlen l)%Z |- _ => fail
      | _ => pose proof (zlen_nonneg l)
      end
  end.

(** [lia] after pushing [zlen] through the list constructors. *)
Ltac zlen_lia := autorewrite with furrent in *; zlen_pos; lia.
