(* ===== verification/Text.v ===== *)
(** * Text: the parts of [std::string] the parsers use

    Lexicographic comparison, decimal printing ([std::to_string]) and reading
    ([std::stol], [std::stoi]), the regular expressions of the bencode parser,
    and [std::map] with string keys as a sorted association list. *)
From S2P Require Import Prelude.
Local Open Scope Z_scope.

(** ** Character classes *)

(** [\d]. *)
Definition isdigit (c : byte) : bool := (48 <=? b2z c) && (b2z c <=? 57).

(** [\s], and what [strtol] skips. *)
Definition isspace (c : byte) : bool :=
  ((9 <=? b2z c) && (b2z c <=? 13)) || (b2z c =? 32).

Definition digit_val (c : byte) : Z := b2z c - 48.

(** The regular expression [^\d+$], matched against the whole string. *)
Definition regex_digits (s : bytes) : bool :=
  match s with [] => false | _ => forallb isdigit s end.

(** The regular expression [^-?\d+$], matched against the whole string. *)
Definition regex_int (s : bytes) : bool :=
  match s with
  | c :: s' => if decide (c = "-"%byte) then regex_digits s' else regex_digits s
  | [] => false
  end.

(** ** Reading integers *)

(** Value of a string of digits, most significant first. *)
Definition digits_val (s : bytes) : Z :=
  fold_left (fun acc c => acc * 10 + digit_val c) s 0.

Fixpoint skip_spaces (s : bytes) : bytes :=
  match s with
  | c :: s' => if isspace c then skip_spaces s' else s
  | [] => []
  end.

Fixpoint take_digits (s : bytes) : bytes :=
  match s with
  | c :: s' => if isdigit c then c :: take_digits s' else []
  | [] => []
  end.

(** The subject sequence of [strtol] in base 10: blanks, an optional sign and
    the longest run of digits. [None] when no conversion can be performed. *)
Definition strtol (s : bytes) : option Z :=
  let s := skip_spaces s in
  let '(neg, s) :=
    match s with
    | c :: s' =>
        if decide (c = "-"%byte) then (true, s')
        else if decide (c = "+"%byte) then (false, s') else (false, s)
    | [] => (false, [])
    end in
  match take_digits s with
  | [] => None
  | ds => Some (if (neg : bool) then - digits_val ds else digits_val ds)
  end.

(** [std::stol]: [long] has 64 bits on the platforms the build accepts. *)
Definition stol (s : bytes) : cxx Z :=
  match strtol s with
  | None => Throw (invalid_argument "stol")
  | Some z => if in_i64 z then Ret z else Throw (out_of_range "stol")
  end.

(** [std::stoi]. *)
Definition stoi (s : bytes) : cxx Z :=
  match strtol s with
  | None => Throw (invalid_argument "stoi")
  | Some z => if bool_decide (- 2 ^ 31 <= z < 2 ^ 31) then Ret z
              else Throw (out_of_range "stoi")
  end.

(** ** Printing integers *)

Definition digit_char (d : Z) : byte := u8 (48 + d).

(** Digits of [n], least significant first, at most [fuel] of them. *)
Fixpoint digits_rev (fuel : nat) (n : Z) : bytes :=
  match fuel with
  | O => []
  | S fuel => if n <? 10 then [digit_char n]
              else digit_char (n mod 10) :: digits_rev fuel (n / 10)
  end.

(** Digits of a non-negative integer; [log2 n + 1] bounds their number. *)
Definition digits (n : Z) : bytes := rev (digits_rev (S (Z.to_nat (Z.log2 n))) n).

(** [std::to_string] of an integer. *)
Definition to_string (z : Z) : bytes :=
  if z <? 0 then "-"%byte :: digits (- z) else digits z.

(** ** Lemmas on digits *)

Lemma isdigit_range c : isdigit c = true <-> 48 <= b2z c <= 57.
Proof. unfold isdigit. rewrite andb_true_iff, !Z.leb_le. done. Qed.

Lemma isdigit_char d : 0 <= d < 10 -> isdigit (digit_char d) = true.
Proof.
  intros. apply isdigit_range. unfold digit_char. rewrite b2z_u8_small; lia.
Qed.

Lemma digit_val_char d : 0 <= d < 10 -> digit_val (digit_char d) = d.
Proof. intros. unfold digit_val, digit_char. rewrite b2z_u8_small; lia. Qed.

Lemma digits_val_snoc s c : digits_val (s ++ [c]) = digits_val s * 10 + digit_val c.
Proof. unfold digits_val. by rewrite fold_left_app. Qed.

Lemma digits_val_nonneg s : forallb isdigit s = true -> 0 <= digits_val s.
Proof.
  induction s as [|c s IH] using rev_ind; [done|].
  rewrite forallb_app, andb_true_iff. simpl. intros [H Hc].
  rewrite digits_val_snoc. rewrite andb_true_r in Hc.
  apply isdigit_range in Hc. specialize (IH H). unfold digit_val. lia.
Qed.

Lemma digits_rev_spec fuel n :
  0 <= n < 10 ^ Z.of_nat fuel -> (0 < fuel)%nat ->
  digits_val (rev (digits_rev fuel n)) = n /\
  forallb isdigit (rev (digits_rev fuel n)) = true /\
  digits_rev fuel n <> [].
Proof.
  revert n. induction fuel as [|fuel IH]; intros n Hn Hf; [lia|]. simpl.
  destruct (Z.ltb_spec n 10) as [Hlt|Hge].
  - simpl. unfold digits_val. simpl. rewrite digit_val_char, isdigit_char by lia.
    split_and!; [lia|done|done].
  - assert (Hp : 0 <= n / 10 < 10 ^ Z.of_nat fuel).
    { rewrite Nat2Z.inj_succ, Z.pow_succ_r in Hn by lia.
      split; [apply Z.div_pos; lia|]. apply Z.div_lt_upper_bound; lia. }
    assert (Hf' : (0 < fuel)%nat).
    { destruct fuel; [|lia]. simpl in Hn. lia. }
    destruct (IH (n / 10) Hp Hf') as (Hv & Hd & Hne).
    pose proof (Z.mod_pos_bound n 10 eq_refl) as Hm.
    simpl. rewrite digits_val_snoc, Hv, forallb_app, Hd. simpl.
    rewrite digit_val_char, isdigit_char by lia.
    split_and!; [|done|done]. pose proof (Z.div_mod n 10). lia.
Qed.

Lemma digits_spec n :
  0 <= n ->
  digits_val (digits n) = n /\ forallb isdigit (digits n) = true /\ digits n <> [].
Proof.
  intros Hn. unfold digits.
  destruct (digits_rev_spec (S (Z.to_nat (Z.log2 n))) n) as (Hv & Hd & Hne).
  - split; [done|]. destruct (decide (n = 0)) as [->|Hz]; [done|].
    pose proof (Z.log2_spec n ltac:(lia)) as [_ Hl].
    pose proof (Z.log2_nonneg n).
    rewrite Nat2Z.inj_succ, Z2Nat.id by done.
    eapply Z.lt_le_trans; [exact Hl|]. apply Z.pow_le_mono_l. lia.
  - lia.
  - split_and!; [done|done|]. intros H. apply Hne.
    apply (f_equal (@rev byte)) in H. by rewrite rev_involutive in H.
Qed.

Lemma regex_digits_digits n : 0 <= n -> regex_digits (digits n) = true.
Proof.
  intros Hn. destruct (digits_spec n Hn) as (_ & Hd & Hne). unfold regex_digits.
  by destruct (digits n).
Qed.

Lemma regex_digits_forallb s : regex_digits s = true <-> forallb isdigit s = true /\ s <> [].
Proof. unfold regex_digits. destruct s; naive_solver. Qed.

Lemma take_digits_all s : forallb isdigit s = true -> take_digits s = s.
Proof.
  induction s as [|c s IH]; [done|]. simpl. rewrite andb_true_iff. intros [Hc Hs].
  by rewrite Hc, IH.
Qed.

Lemma isdigit_not c d : isdigit c = true -> isdigit d = false -> c <> d.
Proof. congruence. Qed.

Lemma isdigit_not_space c : isdigit c = true -> isspace c = false.
Proof.
  rewrite isdigit_range. intros H. unfold isspace.
  destruct (Z.leb_spec 9 (b2z c)), (Z.leb_spec (b2z c) 13), (Z.eqb_spec (b2z c) 32);
    simpl; lia.
Qed.

(** [stol] on the strings the parser has checked against its expressions. *)
Lemma strtol_digits s : regex_digits s = true -> strtol s = Some (digits_val s).
Proof.
  rewrite regex_digits_forallb. intros [Hs Hne]. destruct s as [|c s]; [done|].
  simpl in Hs. apply andb_true_iff in Hs as [Hc Hs].
  unfold strtol. simpl. rewrite isdigit_not_space by done.
  rewrite !decide_False by (intros ->; discriminate Hc).
  simpl. rewrite Hc, take_digits_all by done. done.
Qed.

Lemma strtol_neg s :
  regex_digits s = true -> strtol ("-"%byte :: s) = Some (- digits_val s).
Proof.
  rewrite regex_digits_forallb. intros [Hs Hne]. unfold strtol. simpl.
  rewrite take_digits_all by done. by destruct s.
Qed.

(** The value an accepted integer string denotes. *)
Definition int_val (s : bytes) : Z :=
  match s with
  | c :: s' => if decide (c = "-"%byte) then - digits_val s' else digits_val s
  | [] => 0
  end.

Lemma stol_int s :
  regex_int s = true ->
  stol s = if in_i64 (int_val s) then Ret (int_val s) else Throw (out_of_range "stol").
Proof.
  unfold stol, regex_int, int_val. destruct s as [|c s]; [done|].
  destruct (decide (c = "-"%byte)) as [->|Hc]; intros Hr.
  - by rewrite strtol_neg.
  - by rewrite strtol_digits.
Qed.

Lemma stol_digits s :
  regex_digits s = true ->
  stol s = if in_i64 (digits_val s) then Ret (digits_val s) else Throw (out_of_range "stol").
Proof. intros Hr. unfold stol. by rewrite strtol_digits. Qed.

Lemma regex_int_to_string z : regex_int (to_string z) = true.
Proof.
  unfold to_string. destruct (Z.ltb_spec z 0).
  - simpl. by apply regex_digits_digits; lia.
  - pose proof (regex_digits_digits z ltac:(lia)) as Hd. unfold regex_int.
    destruct (digits z) as [|c s] eqn:E; [done|].
    rewrite decide_False; [done|]. intros ->. discriminate Hd.
Qed.

Lemma int_val_to_string z : int_val (to_string z) = z.
Proof.
  unfold to_string. destruct (Z.ltb_spec z 0).
  - simpl. destruct (digits_spec (- z)) as (Hv & _); lia.
  - destruct (digits_spec z) as (Hv & Hd & Hne); [lia|]. unfold int_val.
    destruct (digits z) as [|c s] eqn:E; [done|].
    rewrite decide_False; [done|]. intros ->. discriminate Hd.
Qed.

Lemma to_string_nonneg z : 0 <= z -> to_string z = digits z.
Proof. intros. unfold to_string. destruct (Z.ltb_spec z 0); [lia|done]. Qed.

(** Printing never produces the rejected literal "-0". *)
Lemma to_string_not_minus_zero z : to_string z <> str "-0".
Proof.
  intros H. pose proof (int_val_to_string z) as Hz. rewrite H in Hz.
  cbv in Hz. subst z. vm_compute in H. discriminate H.
Qed.

(** ** Numerals without leading zeros *)

(** A string of digits that starts with a zero only if it is the zero. *)
Definition no_leading_zero (s : bytes) : Prop := s = str "0" \/ forall s', s <> "0"%byte :: s'.

(** The same for an integer, and no minus before a zero. *)
Definition plain_int (s : bytes) : Prop :=
  match s with
  | c :: s' => if decide (c = "-"%byte) then forall s'', s' <> "0"%byte :: s'' else no_leading_zero s
  | [] => True
  end.

Lemma digit_val_zero c : isdigit c = true -> digit_val c = 0 -> c = "0"%byte.
Proof. unfold digit_val. intros _ H. apply b2z_inj. change (b2z "0"%byte) with 48. lia. Qed.

Lemma digits_val_pos c s :
  forallb isdigit (c :: s) = true -> c <> "0"%byte -> 0 < digits_val (c :: s).
Proof.
  induction s as [|x s IH] using rev_ind; intros Hd Hc.
  - cbn in Hd. rewrite andb_true_r in Hd. pose proof (digit_val_zero c Hd) as Hz.
    apply isdigit_range in Hd. change (digits_val [c]) with (digit_val c). unfold digit_val in *.
    destruct (decide (b2z c - 48 = 0)); [tauto|lia].
  - rewrite app_comm_cons, digits_val_snoc. rewrite app_comm_cons, forallb_app, andb_true_iff in Hd.
    destruct Hd as [Hd Hx]. specialize (IH Hd Hc). cbn in Hx. rewrite andb_true_r in Hx.
    apply isdigit_range in Hx. unfold digit_val. lia.
Qed.

(** Such a string is determined by its value. *)
Lemma digits_val_inj s t :
  forallb isdigit s = true -> forallb isdigit t = true ->
  (forall s', s <> "0"%byte :: s') -> (forall t', t <> "0"%byte :: t') ->
  digits_val s = digits_val t -> s = t.
Proof.
  assert (Hpos : forall u, forallb isdigit u = true -> (forall u', u <> "0"%byte :: u') -> u <> [] -> 0 < digits_val u).
  { intros [|c u] Hd Hz Hne; [done|]. apply digits_val_pos; [done|]. intros ->. by apply (Hz u). }
  revert t. induction s as [|c s IH] using rev_ind; intros t Hs Ht Hzs Hzt E.
  { destruct t; [done|]. pose proof (Hpos _ Ht Hzt ltac:(done)) as H. change (digits_val []) with 0 in E. lia. }
  destruct t as [|c' t _] using rev_ind.
  { pose proof (Hpos _ Hs Hzs ltac:(by destruct s)) as H. change (digits_val []) with 0 in E. lia. }
  rewrite !digits_val_snoc in E. rewrite forallb_app, andb_true_iff in Hs, Ht. cbn in Hs, Ht.
  rewrite andb_true_r in Hs, Ht. destruct Hs as [Hs Hc], Ht as [Ht Hc']. apply isdigit_range in Hc, Hc'.
  unfold digit_val in E. assert (Ec : b2z c = b2z c') by lia. apply b2z_inj in Ec as ->. f_equal.
  apply IH; [done|done| | |lia].
  - intros s' ->. by apply (Hzs (s' ++ [c'])).
  - intros t' ->. by apply (Hzt (t' ++ [c'])).
Qed.

Lemma digits_rev_plain fuel n :
  0 < n < 10 ^ Z.of_nat fuel -> exists c s, rev (digits_rev fuel n) = c :: s /\ c <> "0"%byte.
Proof.
  revert n. induction fuel as [|fuel IH]; intros n Hn; [cbn in Hn; lia|]. cbn [digits_rev].
  destruct (Z.ltb_spec n 10).
  - exists (digit_char n), []. split; [done|]. intros E. pose proof (digit_val_char n ltac:(lia)) as H'.
    rewrite E in H'. change (digit_val "0"%byte) with 0 in H'. lia.
  - destruct (IH (n / 10)) as (c & s & E & Hc).
    + rewrite Nat2Z.inj_succ, Z.pow_succ_r in Hn by lia. split; [apply Z.div_str_pos; lia|].
      apply Z.div_lt_upper_bound; lia.
    + cbn [rev]. rewrite E. by eexists _, _.
Qed.

Lemma digits_plain n : 0 < n -> forall s, digits n <> "0"%byte :: s.
Proof.
  intros Hn s E. destruct (digits_rev_plain (S (Z.to_nat (Z.log2 n))) n) as (c & s' & E' & Hc).
  - split; [done|]. pose proof (Z.log2_spec n ltac:(lia)) as [_ Hl]. pose proof (Z.log2_nonneg n).
    rewrite Nat2Z.inj_succ, Z2Nat.id by done. eapply Z.lt_le_trans; [exact Hl|]. apply Z.pow_le_mono_l. lia.
  - unfold digits in E. rewrite E' in E. congruence.
Qed.

(** The numerals are those that are printed. *)
Lemma digits_canonical s : regex_digits s = true -> (no_leading_zero s <-> s = digits (digits_val s)).
Proof.
  intros [Hd Hne]%regex_digits_forallb. pose proof (digits_val_nonneg s Hd) as H0. split.
  - intros [->|Hz]; [done|]. destruct s as [|c s]; [done|].
    pose proof (digits_val_pos c s Hd ltac:(intros ->; by apply (Hz s))) as Hp.
    destruct (digits_spec (digits_val (c :: s)) H0) as (Hv & Hd' & _).
    apply digits_val_inj; try done. by apply digits_plain.
  - intros E. destruct (decide (digits_val s = 0)) as [Ez|Ez]; [left; by rewrite E, Ez|].
    right. rewrite E. apply digits_plain. lia.
Qed.

Lemma int_canonical s : regex_int s = true -> (plain_int s <-> s = to_string (int_val s)).
Proof.
  unfold regex_int, plain_int, int_val. destruct s as [|c s]; [done|].
  destruct (decide (c = "-"%byte)) as [->|Hc]; intros Hr.
  - pose proof (digits_canonical s Hr) as Hcan. pose proof Hr as [Hd Hne]%regex_digits_forallb.
    pose proof (digits_val_nonneg s Hd) as H0. unfold to_string. split.
    + intros Hz. destruct s as [|c s]; [done|].
      pose proof (digits_val_pos c s Hd ltac:(intros ->; by apply (Hz s))) as Hp.
      destruct (Z.ltb_spec (- digits_val (c :: s)) 0); [|lia]. rewrite Z.opp_involutive. f_equal.
      apply Hcan. by right.
    + intros E. destruct (Z.ltb_spec (- digits_val s) 0) as [Hlt|Hge].
      * rewrite Z.opp_involutive in E. injection E as E. rewrite E. apply digits_plain. lia.
      * assert (Ez : digits_val s = 0) by lia. rewrite Ez in E. done.
  - rewrite (digits_canonical (c :: s) Hr). pose proof Hr as [Hd _]%regex_digits_forallb.
    by rewrite to_string_nonneg by (by apply digits_val_nonneg).
Qed.

(** ** Order of strings *)

(** [std::string::compare]: lexicographic on unsigned characters. *)
Fixpoint bytes_compare (a b : bytes) : comparison :=
  match a, b with
  | [], [] => Eq
  | [], _ => Lt
  | _, [] => Gt
  | x :: a, y :: b =>
      match b2z x ?= b2z y with
      | Eq => bytes_compare a b
      | c => c
      end
  end.

(** [a < b] and [a > b] of [std::string]. *)
Definition str_lt (a b : bytes) : Prop := bytes_compare a b = Lt.
Definition str_gtb (a b : bytes) : bool :=
  match bytes_compare a b with Gt => true | _ => false end.

#[export] Instance str_lt_dec a b : Decision (str_lt a b).
Proof. unfold str_lt. apply _. Defined.

Lemma bytes_compare_eq a b : bytes_compare a b = Eq <-> a = b.
Proof.
  revert b. induction a as [|x a IH]; intros [|y b]; simpl; try done.
  destruct (Z.compare_spec (b2z x) (b2z y)) as [E|E|E].
  - apply b2z_inj in E as ->. rewrite IH. naive_solver.
  - split; [done|]. intros [= -> ->]. lia.
  - split; [done|]. intros [= -> ->]. lia.
Qed.

Lemma bytes_compare_antisym a b : bytes_compare b a = CompOpp (bytes_compare a b).
Proof.
  revert b. induction a as [|x a IH]; intros [|y b]; simpl; try done.
  rewrite (Z.compare_antisym (b2z x)). destruct (b2z x ?= b2z y); simpl; auto.
Qed.

Lemma str_lt_trans a b c : str_lt a b -> str_lt b c -> str_lt a c.
Proof.
  unfold str_lt. revert b c.
  induction a as [|x a IH]; intros [|y b] [|z c]; simpl; try done.
  destruct (Z.compare_spec (b2z x) (b2z y)) as [E1|E1|E1]; try done;
    destruct (Z.compare_spec (b2z y) (b2z z)) as [E2|E2|E2]; try done; intros H1 H2;
    destruct (Z.compare_spec (b2z x) (b2z z)); try lia; try done.
  eauto.
Qed.

#[export] Instance str_lt_strict : StrictOrder str_lt.
Proof.
  split.
  - intros a H. unfold str_lt in H. by rewrite (proj2 (bytes_compare_eq a a) eq_refl) in H.
  - intros a b c. apply str_lt_trans.
Qed.

Lemma str_gtb_spec a b : str_gtb a b = true <-> str_lt b a.
Proof.
  unfold str_gtb, str_lt. rewrite (bytes_compare_antisym a b).
  destruct (bytes_compare a b); simpl; split; congruence.
Qed.

Lemma str_lt_total a b : str_lt a b \/ a = b \/ str_lt b a.
Proof.
  unfold str_lt. destruct (bytes_compare a b) eqn:E; [|auto|].
  - apply bytes_compare_eq in E. auto.
  - right. right. by rewrite bytes_compare_antisym, E.
Qed.

(** ** [std::map<std::string, V>] *)

Section StringMap.
Context {V : Type}.
Implicit Types m : list (bytes * V).

(** [insert]: keeps the element already stored under an equal key. *)
Fixpoint map_insert (k : bytes) (v : V) m : list (bytes * V) :=
match m with
| [] => [(k, v)]
| (k', v') :: m' =>
    match bytes_compare k k' with
    | Lt => (k, v) :: m
    | Eq => m
    | Gt => (k', v') :: map_insert k v m'
    end
end.

(** [find]. *)
Fixpoint map_find (k : bytes) m : option V :=
match m with
| [] => None
| (k', v') :: m' => if decide (k = k') then Some v' else map_find k m'
end.

(** [at]: throws on a missing key. *)
Definition map_at (k : bytes) m : cxx V :=
match map_find k m with
| Some v => Ret v
| None => Throw (out_of_range "map::at")
end.

(** Inserting a list of pairs one after the other. *)
Definition map_inserts (kvs : list (bytes * V)) m : list (bytes * V) :=
fold_left (fun m kv => map_insert kv.1 kv.2 m) kvs m.

(** The representation invariant of the ordered map. *)
Definition keys_sorted m : Prop := StronglySorted str_lt (map fst m).

Lemma map_insert_keys k v m x :
x ∈ map fst (map_insert k v m) -> x = k \/ x ∈ map fst m.
Proof.
induction m as [|[k' v'] m IH]; simpl; [set_solver|].
destruct (bytes_compare k k'); simpl; set_solver.
Qed.

Lemma map_insert_sorted k v m : keys_sorted m -> keys_sorted (map_insert k v m).
Proof.
unfold keys_sorted. induction m as [|[k' v'] m IH]; simpl; intros Hs.
{ repeat constructor. }
inversion_clear Hs as [|? ? Hs' Hall].
destruct (bytes_compare k k') eqn:E; simpl.
- by constructor.
- constructor; [by constructor|]. constructor; [done|].
  eapply Forall_impl; [exact Hall|]. intros x. by apply str_lt_trans.
- constructor; [auto|]. apply Forall_forall. intros x Hx.
  apply map_insert_keys in Hx as [->|Hx].
  + unfold str_lt. by rewrite bytes_compare_antisym, E.
  + rewrite Forall_forall in Hall. auto.
Qed.

Lemma map_inserts_sorted kvs m : keys_sorted m -> keys_sorted (map_inserts kvs m).
Proof.
revert m. induction kvs as [|[k v] kvs IH]; intros m Hm; simpl; [done|].
apply IH. by apply map_insert_sorted.
Qed.

Lemma map_find_insert k v m k' :
keys_sorted m ->
map_find k' (map_insert k v m) =
match map_find k' m with
| Some v' => Some v'
| None => if decide (k' = k) then Some v else None
end.
Proof.
unfold keys_sorted. induction m as [|[x w] m IH]; simpl; intros Hs; [done|].
inversion_clear Hs as [|? ? Hs' Hall].
destruct (bytes_compare k x) eqn:E; simpl.
- apply bytes_compare_eq in E as ->.
  destruct (decide (k' = x)); [done|]. by destruct (map_find k' m).
- destruct (decide (k' = k)) as [->|]; [|by destruct (decide (k' = x)), (map_find k' m)].
  rewrite decide_False.
  2:{ intros ->. by rewrite (proj2 (bytes_compare_eq x x) eq_refl) in E. }
  destruct (map_find k m) eqn:F; [|done]. exfalso. clear IH Hs'.
  induction m as [|[y u] m IH]; simpl in *; [done|].
  inversion_clear Hall as [|? ? Hy Hall'].
  destruct (decide (k = y)) as [->|]; [|auto].
  exact (irreflexivity str_lt y (transitivity E Hy)).
- destruct (decide (k' = x)); [done|]. auto.
Qed.

Lemma map_insert_last k v m :
Forall (fun k' => str_lt k' k) (map fst m) -> map_insert k v m = m ++ [(k, v)].
Proof.
induction m as [|[x w] m IH]; simpl; intros Hall; [done|].
inversion_clear Hall as [|? ? Hx Hall'].
unfold str_lt in Hx. rewrite bytes_compare_antisym, Hx. simpl. by rewrite IH.
Qed.

(** Rebuilding a map from its own elements in order gives it back. *)
Lemma map_inserts_sorted_id m m0 :
keys_sorted (m0 ++ m) -> map_inserts m m0 = m0 ++ m.
Proof.
revert m0. induction m as [|[k v] m IH]; intros m0 Hs; simpl.
{ by rewrite app_nil_r. }
rewrite map_insert_last.
- rewrite IH; rewrite <- app_assoc; done.
- unfold keys_sorted in Hs. rewrite map_app in Hs. simpl in Hs.
  clear IH. induction m0 as [|[x w] m0 IH]; simpl in *; constructor.
  + inversion_clear Hs as [|? ? _ Hall]. rewrite Forall_app in Hall.
    destruct Hall as [_ Hall]. by inversion_clear Hall.
  + apply IH. by inversion_clear Hs.
Qed.

End StringMap.
