(* ===== verification/Float32.v ===== *)
(** * Float32: single precision numbers

    The [float]s of the window, as binary32 numbers of IEEE 754 with rounding to
    nearest even ([SpecFloat] of the Standard Library with a precision of 24 bits).
    Integers below 2^24 are represented exactly, and what the window computes with
    them is exact. *)
From S2P Require Import Prelude.
From Stdlib Require Import SpecFloat.
Local Open Scope Z_scope.

(** ** Operations *)

Abbreviation f32 := spec_float.

Definition f32_of_Z (z : Z) : f32 := binary_normalize 24 128 z 0 false.
Definition f32_add (x y : f32) : f32 := SFadd 24 128 x y.
Definition f32_mul (x y : f32) : f32 := SFmul 24 128 x y.
Definition f32_abs (x : f32) : f32 := SFabs x.
Definition f32_lt (x y : f32) : bool := SFltb x y.
Definition f32_eq (x y : f32) : bool := SFeqb x y.

(** [static_cast<int64_t>]: truncation, undefined if the result does not fit. *)
Definition f32_to_i64 (x : f32) : cxx Z :=
  match x with
  | S754_zero _ => Ret 0
  | S754_finite s m e =>
      let a := if 0 <=? e then Zpos m * 2 ^ e else Zpos m / 2 ^ (- e) in
      i64 (if s then - a else a)
  | _ => Undef SignedOverflow
  end.

(** ** Representation of integers *)

(** The number [z], with a mantissa of 24 bits. *)
Definition canon (s : bool) (z : Z) : f32 :=
  S754_finite s (Z.to_pos (z * 2 ^ (23 - Z.log2 z))) (Z.log2 z - 23).

Lemma digits2_log2 p : Zpos (digits2_pos p) = Z.log2 (Zpos p) + 1.
Proof.
  induction p as [p IH|p IH|]; cbn [digits2_pos]; [| |done]; rewrite Pos2Z.inj_succ, IH.
  - rewrite Pos2Z.inj_xI, Z.log2_succ_double by lia. lia.
  - rewrite Pos2Z.inj_xO, Z.log2_double by lia. lia.
Qed.

Lemma iter_xO p d : Zpos (Pos.iter xO p d) = Zpos p * 2 ^ Zpos d.
Proof.
  revert p. induction d as [|d IH] using Pos.peano_ind; intros p; [cbn; lia|].
  rewrite Pos.iter_succ, Pos2Z.inj_xO, IH, Pos2Z.inj_succ, Z.pow_succ_r by lia. lia.
Qed.

Lemma iter_pos_comm {A} (f : A -> A) p x : iter_pos f p (f x) = f (iter_pos f p x).
Proof. revert x. induction p as [p IH|p IH|]; intros x; cbn [iter_pos]; rewrite ?IH; done. Qed.

Lemma iter_pos_succ {A} (f : A -> A) p x : iter_pos f (Pos.succ p) x = iter_pos f p (f x).
Proof.
  revert x. induction p as [p IH|p IH|]; intros x; simpl; [|done|done].
  rewrite IH, IH. f_equal. symmetry. apply iter_pos_comm.
Qed.

(** Shifting out zeros is exact. *)
Lemma shr_exact p a :
  0 < a -> iter_pos shr_1 p (Build_shr_record (a * 2 ^ Zpos p) false false) = Build_shr_record a false false.
Proof.
  intros Ha. induction p as [|p IH] using Pos.peano_ind.
  - cbn [iter_pos]. change (2 ^ 1) with 2. destruct a as [|a|]; try lia. rewrite Z.mul_comm. done.
  - rewrite iter_pos_succ, <- IH. f_equal. rewrite Pos2Z.inj_succ, Z.pow_succ_r by lia.
    replace (a * (2 * 2 ^ Zpos p)) with (2 * (a * 2 ^ Zpos p)) by lia.
    assert (H : 0 < a * 2 ^ Zpos p) by (apply Z.mul_pos_pos; [done|apply Z.pow_pos_nonneg; lia]).
    by destruct (a * 2 ^ Zpos p).
Qed.

Lemma shl_align_exact m e e' : e' <= e -> Zpos (fst (shl_align m e e')) = Zpos m * 2 ^ (e - e').
Proof.
  intros H. unfold shl_align. destruct (e' - e) as [|d|d] eqn:E; [|lia|]; cbn [fst].
  - replace (e - e') with 0 by lia. lia.
  - rewrite iter_xO. do 2 f_equal. lia.
Qed.

Lemma log2_small z : 0 < z < 2 ^ 24 -> 0 <= Z.log2 z <= 23.
Proof. intros [H1 H2]. pose proof (Z.log2_lt_pow2 z 24 H1). pose proof (Z.log2_nonneg z). lia. Qed.

Lemma canon_mantissa z : 0 < z < 2 ^ 24 -> 0 < z * 2 ^ (23 - Z.log2 z).
Proof. intros H. pose proof (log2_small z H). apply Z.mul_pos_pos; [lia|]. apply Z.pow_pos_nonneg; lia. Qed.

(** Rounding [z * 2^k * 2^-k]. *)
Lemma round_aux_exact s z k :
  0 < z < 2 ^ 24 -> 23 - Z.log2 z <= k ->
  binary_round_aux 24 128 s (z * 2 ^ k) (- k) loc_Exact = canon s z.
Proof.
  intros Hz Hk. pose proof (log2_small z Hz) as HL. pose proof (canon_mantissa z Hz) as HM.
  set (L := Z.log2 z) in *. set (M := z * 2 ^ (23 - L)) in *.
  assert (Hd : forall j, 0 <= j -> Zdigits2 (z * 2 ^ j) = L + 1 + j).
  { intros j Hj. assert (0 < z * 2 ^ j) by (apply Z.mul_pos_pos; [lia|apply Z.pow_pos_nonneg; lia]).
    assert (E : Z.log2 (z * 2 ^ j) = L + j) by (rewrite Z.log2_mul_pow2 by lia; unfold L; lia).
    destruct (z * 2 ^ j) as [|p|] eqn:Ep; [lia| |lia]. cbn [Zdigits2]. rewrite digits2_log2, E. lia. }
  assert (Hf : fexp 24 128 (L + 1) = L - 23) by (unfold fexp, emin; lia).
  assert (H1 : shr_fexp 24 128 (z * 2 ^ k) (- k) loc_Exact = (Build_shr_record M false false, L - 23)).
  { unfold shr_fexp. rewrite Hd by lia. replace (L + 1 + k + - k) with (L + 1) by lia. rewrite Hf.
    unfold shr. cbn [shr_record_of_loc]. destruct (L - 23 - - k) as [|p|p] eqn:E; [| |lia].
    - replace k with (23 - L) by lia. do 2 f_equal. lia.
    - f_equal; [|lia]. replace (z * 2 ^ k) with (M * 2 ^ Zpos p); [by apply shr_exact|].
      unfold M. rewrite <- Z.mul_assoc, <- Z.pow_add_r by lia. do 2 f_equal. lia. }
  unfold binary_round_aux. rewrite H1. cbn [loc_of_shr_record round_nearest_even shr_m].
  assert (H2 : shr_fexp 24 128 M (L - 23) loc_Exact = (Build_shr_record M false false, L - 23)).
  { unfold shr_fexp, M. rewrite Hd by lia. replace (L + 1 + (23 - L) + (L - 23)) with (L + 1) by lia. rewrite Hf.
    unfold shr. replace (L - 23 - (L - 23)) with 0 by lia. done. }
  rewrite H2. cbn [shr_m]. unfold canon. fold L M. destruct M as [|m|m]; [lia| |lia]. cbn [Z.to_pos].
  destruct (Z.leb_spec (L - 23) (128 - 24)); [done|lia].
Qed.

Lemma round_f32_exact s m z k :
  0 < z < 2 ^ 24 -> 0 <= k -> Zpos m = z * 2 ^ k -> binary_round 24 128 s m (- k) = canon s z.
Proof.
  intros Hz Hk Hm. pose proof (log2_small z Hz) as HL. unfold binary_round.
  assert (Ed : Zpos (digits2_pos m) = Z.log2 z + 1 + k).
  { rewrite digits2_log2, Hm, Z.log2_mul_pow2 by lia. lia. }
  rewrite Ed. assert (Hf : fexp 24 128 (Z.log2 z + 1 + k + - k) = Z.log2 z - 23) by (unfold fexp, emin; lia).
  rewrite Hf. destruct (Z.le_gt_cases (23 - Z.log2 z) k) as [Hle|Hgt].
  - assert (E : shl_align m (- k) (Z.log2 z - 23) = (m, - k)).
    { unfold shl_align. destruct (Z.log2 z - 23 - - k) eqn:E; [done|done|lia]. }
    rewrite E, Hm. by apply round_aux_exact.
  - pose proof (shl_align_exact m (- k) (Z.log2 z - 23) ltac:(lia)) as E.
    assert (E2 : snd (shl_align m (- k) (Z.log2 z - 23)) = - (23 - Z.log2 z)).
    { unfold shl_align. destruct (Z.log2 z - 23 - - k) eqn:E3; [lia|lia|]. cbn. lia. }
    destruct (shl_align m (- k) (Z.log2 z - 23)) as [mz ez]. cbn [fst snd] in *. subst ez.
    rewrite E, Hm, <- Z.mul_assoc, <- Z.pow_add_r by lia.
    replace (k + (- k - (Z.log2 z - 23))) with (23 - Z.log2 z) by lia. apply round_aux_exact; [done|lia].
Qed.

Lemma normalize_exact z k :
  Z.abs z < 2 ^ 24 -> 0 <= k -> binary_normalize 24 128 (z * 2 ^ k) (- k) false = f32_of_Z z.
Proof.
  intros Hz Hk. unfold f32_of_Z. destruct z as [|p|p]; [done|..]; cbn [binary_normalize].
  - assert (H : 0 < Zpos p * 2 ^ k) by (apply Z.mul_pos_pos; [lia|apply Z.pow_pos_nonneg; lia]).
    destruct (Zpos p * 2 ^ k) as [|m|] eqn:E; [lia| |lia]. cbn [binary_normalize].
    rewrite (round_f32_exact _ m (Zpos p) k) by (done || lia).
    change 0 with (- 0). rewrite (round_f32_exact _ p (Zpos p) 0) by (lia || (cbn; lia)). done.
  - assert (H : 0 < Zpos p * 2 ^ k) by (apply Z.mul_pos_pos; [lia|apply Z.pow_pos_nonneg; lia]).
    assert (E : Zneg p * 2 ^ k = - (Zpos p * 2 ^ k)) by lia. rewrite E.
    destruct (Zpos p * 2 ^ k) as [|m|] eqn:Em; [lia| |lia]. change (- Zpos m) with (Zneg m). cbn [binary_normalize].
    rewrite (round_f32_exact _ m (Zpos p) k) by (done || lia).
    change 0 with (- 0). rewrite (round_f32_exact _ p (Zpos p) 0) by (lia || (cbn; lia)). done.
Qed.

(** The representation of an integer. *)
Lemma f32_of_Z_canon z :
  Z.abs z < 2 ^ 24 -> f32_of_Z z = if z =? 0 then S754_zero false else canon (z <? 0) (Z.abs z).
Proof.
  intros Hz. unfold f32_of_Z. destruct z as [|p|p]; [done|..]; cbn [binary_normalize Z.eqb Z.ltb Z.abs].
  all: change 0 with (- 0) at 1; rewrite (round_f32_exact _ p (Zpos p) 0) by (lia || (cbn; lia)); done.
Qed.

(** ** Exact operations *)

(** The mantissa of an integer, aligned to an exponent. *)
Lemma canon_align s z e :
  0 < z < 2 ^ 24 -> e <= Z.log2 z - 23 ->
  Zpos (fst (shl_align (Z.to_pos (z * 2 ^ (23 - Z.log2 z))) (Z.log2 z - 23) e)) = z * 2 ^ (- e) /\
  cond_Zopp s (z * 2 ^ (- e)) = (if s then - z else z) * 2 ^ (- e).
Proof.
  intros Hz He. pose proof (canon_mantissa z Hz). pose proof (log2_small z Hz). split; [|destruct s; cbn; lia].
  rewrite shl_align_exact, Z2Pos.id, <- Z.mul_assoc, <- Z.pow_add_r by lia. do 2 f_equal. lia.
Qed.

Lemma f32_add_exact a b :
  Z.abs a < 2 ^ 24 -> Z.abs b < 2 ^ 24 -> Z.abs (a + b) < 2 ^ 24 ->
  f32_add (f32_of_Z a) (f32_of_Z b) = f32_of_Z (a + b).
Proof.
  intros Ha Hb Hab. rewrite (f32_of_Z_canon a), (f32_of_Z_canon b) by done.
  destruct (Z.eqb_spec a 0) as [->|Ha0], (Z.eqb_spec b 0) as [->|Hb0].
  - done.
  - rewrite Z.add_0_l, f32_of_Z_canon by done. destruct (Z.eqb_spec b 0); [done|]. done.
  - rewrite Z.add_0_r, f32_of_Z_canon by done. destruct (Z.eqb_spec a 0); [done|]. done.
  - unfold f32_add, canon, SFadd. set (e := Z.min (Z.log2 (Z.abs a) - 23) (Z.log2 (Z.abs b) - 23)).
    destruct (canon_align (a <? 0) (Z.abs a) e ltac:(lia) ltac:(lia)) as [-> ->].
    destruct (canon_align (b <? 0) (Z.abs b) e ltac:(lia) ltac:(lia)) as [-> ->].
    assert (Hs : forall z, (if z <? 0 then - Z.abs z else Z.abs z) = z).
    { intros z. destruct (Z.ltb_spec z 0); lia. }
    rewrite !Hs, <- Z.mul_add_distr_r. pose proof (log2_small (Z.abs a) ltac:(lia)).
    rewrite <- (normalize_exact (a + b) (- e)) by (done || lia). by rewrite Z.opp_involutive.
Qed.

Lemma f32_abs_exact a : Z.abs a < 2 ^ 24 -> f32_abs (f32_of_Z a) = f32_of_Z (Z.abs a).
Proof.
  intros Ha. rewrite !f32_of_Z_canon by lia. destruct (Z.eqb_spec a 0) as [->|H]; [done|].
  destruct (Z.eqb_spec (Z.abs a) 0); [lia|]. destruct (Z.ltb_spec (Z.abs a) 0); [lia|].
  rewrite Z.abs_eq with (n := Z.abs a) by lia. done.
Qed.

Lemma f32_lt_exact a b :
  0 <= a < 2 ^ 24 -> 0 <= b < 2 ^ 24 -> f32_lt (f32_of_Z a) (f32_of_Z b) = (a <? b).
Proof.
  intros Ha Hb. rewrite !f32_of_Z_canon by lia. rewrite !Z.abs_eq by lia.
  destruct (Z.ltb_spec a 0); [lia|]. destruct (Z.ltb_spec b 0); [lia|].
  destruct (Z.eqb_spec a 0) as [->|Ha0], (Z.eqb_spec b 0) as [->|Hb0]; unfold f32_lt, SFltb; cbn [SFcompare canon].
  - done.
  - symmetry. apply Z.ltb_lt. lia.
  - symmetry. apply Z.ltb_ge. lia.
  - pose proof (canon_mantissa a ltac:(lia)). pose proof (canon_mantissa b ltac:(lia)).
    destruct (Z.compare_spec (Z.log2 a - 23) (Z.log2 b - 23)) as [E|Hlt|Hgt].
    + assert (E' : Z.log2 a = Z.log2 b) by lia. rewrite E' in *. pose proof (log2_small b ltac:(lia)).
      change (Pos.compare_cont Eq) with Pos.compare. rewrite <- Z2Pos.inj_compare by lia.
      rewrite <- Zmult_compare_compat_r by (apply Z.lt_gt, Z.pow_pos_nonneg; lia).
      unfold Z.ltb. by destruct (a ?= b).
    + symmetry. apply Z.ltb_lt. apply Z.log2_lt_cancel. lia.
    + symmetry. apply Z.ltb_ge. apply Z.lt_le_incl, Z.log2_lt_cancel. lia.
Qed.

Lemma f32_to_i64_exact a : Z.abs a < 2 ^ 24 -> f32_to_i64 (f32_of_Z a) = Ret a.
Proof.
  intros Ha. rewrite f32_of_Z_canon by done. destruct (Z.eqb_spec a 0) as [->|H]; [done|].
  pose proof (log2_small (Z.abs a) ltac:(lia)) as HL. pose proof (canon_mantissa (Z.abs a) ltac:(lia)).
  unfold canon, f32_to_i64. cbv zeta.
  assert (E : (if 0 <=? Z.log2 (Z.abs a) - 23
    then Zpos (Z.to_pos (Z.abs a * 2 ^ (23 - Z.log2 (Z.abs a)))) * 2 ^ (Z.log2 (Z.abs a) - 23)
    else Zpos (Z.to_pos (Z.abs a * 2 ^ (23 - Z.log2 (Z.abs a)))) / 2 ^ (- (Z.log2 (Z.abs a) - 23))) = Z.abs a).
  { rewrite Z2Pos.id by lia. replace (- (Z.log2 (Z.abs a) - 23)) with (23 - Z.log2 (Z.abs a)) by lia.
    destruct (Z.leb_spec 0 (Z.log2 (Z.abs a) - 23)).
    - assert (Z.log2 (Z.abs a) = 23) as -> by lia. change (23 - 23) with 0. lia.
    - apply Z.div_mul. apply Z.pow_nonzero; lia. }
  rewrite E. rewrite i64_ok; [f_equal; destruct (Z.ltb_spec a 0); lia|]. destruct (Z.ltb_spec a 0); lia.
Qed.
