(* ===== verification/Bencode.v ===== *)
(** * Bencode: values, encoder and parser (src/bencode/)

    [BencodeValue] is the class hierarchy of bencode_value.hpp, [bto_string] its
    virtual [to_string], and the [decode_*] functions are the methods of
    [BencodeParser]. The parser's private [_index] is passed and returned
    explicitly; [_tokens] is the argument [tokens].

    The grammar [benc] describes the accepted texts without any parser state;
    the parser is shown sound and complete for it. *)
From S2P Require Import Prelude Text.
Local Open Scope Z_scope.

(** ** Values *)

(** The subclasses of [BencodeValue]. A [std::map] is a list of pairs sorted by
    key. *)
Inductive BencodeValue : Type :=
| BencodeInt (val : Z)
| BencodeString (val : bytes)
| BencodeList (val : list BencodeValue)
| BencodeDict (val : list (bytes * BencodeValue)).

Inductive BencodeType : Type := TInteger | TString | TList | TDict.

(** [get_type]. *)
Definition get_type (v : BencodeValue) : BencodeType :=
  match v with
  | BencodeInt _ => TInteger
  | BencodeString _ => TString
  | BencodeList _ => TList
  | BencodeDict _ => TDict
  end.

#[export] Instance BencodeType_eq_dec : EqDecision BencodeType.
Proof. solve_decision. Defined.

(** The [value()] accessors behind a [dynamic_cast] to the subclass, which
    throws [std::bad_cast] on another subclass. *)
Definition as_int (v : BencodeValue) : cxx Z :=
  match v with BencodeInt z => Ret z | _ => Throw bad_cast end.
Definition as_string (v : BencodeValue) : cxx bytes :=
  match v with BencodeString s => Ret s | _ => Throw bad_cast end.
Definition as_list (v : BencodeValue) : cxx (list BencodeValue) :=
  match v with BencodeList l => Ret l | _ => Throw bad_cast end.
Definition as_dict (v : BencodeValue) : cxx (list (bytes * BencodeValue)) :=
  match v with BencodeDict d => Ret d | _ => Throw bad_cast end.

(** [to_string]: the encoding of each subclass. *)
Fixpoint bto_string (v : BencodeValue) : bytes :=
  match v with
  | BencodeInt z => str "i" ++ to_string z ++ str "e"
  | BencodeString s => to_string (zlen s) ++ str ":" ++ s
  | BencodeList l => str "l" ++ concat (map bto_string l) ++ str "e"
  | BencodeDict d =>
      str "d" ++
      concat (map (fun kv => (to_string (zlen kv.1) ++ str ":" ++ kv.1) ++ bto_string kv.2) d)
      ++ str "e"
  end.

(** [BencodeParser::encode]. *)
Definition encode (v : BencodeValue) : bytes := bto_string v.

(** ** Parser *)

Inductive BencodeParserError : Type :=
| InvalidString
| IntFormat
| IntValue
| StringFormat
| ListFormat
| DictFormat
| DictKey
| DictKeyOrder.

(** [error_to_string]. *)
Definition error_to_string (e : BencodeParserError) : string :=
  match e with
  | InvalidString => "InvalidString"
  | IntFormat => "IntFormat"
  | IntValue => "IntValue"
  | StringFormat => "StringFormat"
  | ListFormat => "ListFormat"
  | DictFormat => "DictFormat"
  | DictKey => "DictKey"
  | DictKeyOrder => "DictKeyOrder"
  end.

Abbreviation BencodeResult := (Result BencodeValue BencodeParserError).

(** [_tokens[i]] of a [std::string]: the terminating NUL at [size()], undefined
    beyond it. *)
Definition string_at (tokens : bytes) (i : Z) : cxx byte :=
  if bool_decide (i = zlen tokens) then Ret x00 else vget tokens i.

(** The scanning loops of the parser: append characters until [stop] or the end
    of the input. [rest] is the input from [index] on. *)
Fixpoint take_until (stop : byte) (rest : bytes) (index : Z) : bytes * Z :=
  match rest with
  | [] => ([], index)
  | c :: rest' =>
      if decide (c = stop) then ([], index)
      else let '(s, index') := take_until stop rest' (index + 1) in (c :: s, index')
  end.

(** The copying loop of [decode_string]: at most [n] characters. *)
Fixpoint take_chars (n : Z) (rest : bytes) (index : Z) : bytes * Z :=
  match rest with
  | [] => ([], index)
  | c :: rest' =>
      if 0 <? n then
        let '(s, index') := take_chars (n - 1) rest' (index + 1) in (c :: s, index')
      else ([], index)
  end.

(** The input from [index] on. *)
Definition from (tokens : bytes) (index : Z) : bytes := drop (Z.to_nat index) tokens.

(** [BencodeParser::decode_int]. *)
Definition decode_int (tokens : bytes) (index : Z) : cxx (BencodeResult * Z) :=
  if zlen tokens - index <? 3 then Ret (ERROR IntFormat, index)
  else
    let index := index + 1 in
    let '(integer, index) := take_until "e"%byte (from tokens index) index in
    if index =? zlen tokens then Ret (ERROR IntFormat, index)
    else
      c ← string_at tokens index;
      if decide (c <> "e"%byte) then Ret (ERROR IntFormat, index)
      else if decide (integer = str "-0") then Ret (ERROR IntValue, index)
      else if negb (regex_int integer) then Ret (ERROR IntValue, index)
      else
        let index := index + 1 in
        z ← stol integer;
        Ret (OK (BencodeInt z), index).

(** [BencodeParser::decode_string]. *)
Definition decode_string (tokens : bytes) (index : Z) : cxx (BencodeResult * Z) :=
  if zlen tokens - index <? 3 then Ret (ERROR StringFormat, index)
  else
    let '(len, index) := take_until ":"%byte (from tokens index) index in
    if negb (regex_digits len) then Ret (ERROR InvalidString, index)
    else
      let index := index + 1 in
      length_str ← stol len;
      let '(s, index) := take_chars length_str (from tokens index) index in
      if (int64_max <? zlen s) || negb (zlen s =? length_str)
      then Ret (ERROR InvalidString, index)
      else Ret (OK (BencodeString s), index).

(** The order check of [decode_dict]: [keys[i] > keys[i + 1]] for some [i]. *)
Fixpoint keys_unordered (keys : list bytes) : bool :=
  match keys with
  | k :: (k' :: _) as keys' => str_gtb k k' || keys_unordered keys'
  | _ => false
  end.

(** [BencodeParser::decode] (the recursive one), [decode_list], [decode_dict] and
    their loops, with a budget of nested calls and iterations. *)
Fixpoint decode_value (fuel : nat) (tokens : bytes) (index : Z) {struct fuel}
  : cxx (BencodeResult * Z) :=
  match fuel with
  | O => NoFuel
  | S fuel =>
      match tokens with
      | [] => Ret (ERROR InvalidString, index)
      | _ =>
          token ← string_at tokens index;
          if decide (token = "i"%byte) then decode_int tokens index
          else if isdigit token then decode_string tokens index
          else if decide (token = "l"%byte) then decode_list fuel tokens index
          else if decide (token = "d"%byte) then decode_dict fuel tokens index
          else Ret (ERROR InvalidString, index)
      end
  end

with decode_list (fuel : nat) (tokens : bytes) (index : Z) {struct fuel}
  : cxx (BencodeResult * Z) :=
  match fuel with
  | O => NoFuel
  | S fuel =>
      if zlen tokens - index <? 2 then Ret (ERROR ListFormat, index)
      else
        '(r, index) ← list_loop fuel tokens (index + 1) [];
        match r with
        | ERROR e => Ret (ERROR e, index)
        | OK ptr =>
            if zlen tokens <=? index then Ret (ERROR ListFormat, index)
            else
              c ← string_at tokens index;
              if decide (c <> "e"%byte) then Ret (ERROR ListFormat, index)
              else Ret (OK (BencodeList ptr), index + 1)
        end
  end

with list_loop (fuel : nat) (tokens : bytes) (index : Z) (ptr : list BencodeValue)
  {struct fuel} : cxx (Result (list BencodeValue) BencodeParserError * Z) :=
  match fuel with
  | O => NoFuel
  | S fuel =>
      if index <? zlen tokens then
        c ← string_at tokens index;
        if decide (c = "e"%byte) then Ret (OK ptr, index)
        else
          '(r, index) ← decode_value fuel tokens index;
          match r with
          | ERROR e => Ret (ERROR e, index)
          | OK v => list_loop fuel tokens index (ptr ++ [v])
          end
      else Ret (OK ptr, index)
  end

with decode_dict (fuel : nat) (tokens : bytes) (index : Z) {struct fuel}
  : cxx (BencodeResult * Z) :=
  match fuel with
  | O => NoFuel
  | S fuel =>
      if zlen tokens - index <? 2 then Ret (ERROR DictFormat, index)
      else
        '(r, index) ← dict_loop fuel tokens (index + 1) [] [];
        match r with
        | ERROR e => Ret (ERROR e, index)
        | OK (ptr, keys) =>
            if zlen tokens <=? index then Ret (ERROR DictFormat, index)
            else
              c ← string_at tokens index;
              if decide (c <> "e"%byte) then Ret (ERROR DictFormat, index)
              else if keys_unordered keys then Ret (ERROR DictKeyOrder, index)
              else Ret (OK (BencodeDict ptr), index + 1)
        end
  end

with dict_loop (fuel : nat) (tokens : bytes) (index : Z)
  (ptr : list (bytes * BencodeValue)) (keys : list bytes) {struct fuel}
  : cxx (Result (list (bytes * BencodeValue) * list bytes) BencodeParserError * Z) :=
  match fuel with
  | O => NoFuel
  | S fuel =>
      if index <? zlen tokens then
        c ← string_at tokens index;
        if decide (c = "e"%byte) then Ret (OK (ptr, keys), index)
        else
          '(r_key, index) ← decode_value fuel tokens index;
          match r_key with
          | ERROR e => Ret (ERROR e, index)
          | OK key =>
              if decide (get_type key <> TString) then Ret (ERROR DictKey, index)
              else
                '(r_value, index) ← decode_value fuel tokens index;
                match r_value with
                | ERROR e => Ret (ERROR e, index)
                | OK value =>
                    key_str ← as_string key;
                    dict_loop fuel tokens index (map_insert key_str value ptr)
                      (keys ++ [key_str])
                end
          end
      else Ret (OK (ptr, keys), index)
  end.

(** Budget that is enough for any input: a nested value costs at most three
    calls per character. *)
Definition decode_fuel (tokens : bytes) : nat := S (3 * length tokens).

(** [BencodeParser::decode(const std::string&)]. *)
Definition decode (decoded : bytes) : cxx BencodeResult :=
  if int64_max <? zlen decoded then Throw (invalid_argument "string to decode is too large")
  else
    '(r, index) ← decode_value (decode_fuel decoded) decoded 0;
    if valid r && negb (index =? zlen decoded) then Ret (ERROR InvalidString)
    else Ret r.

Example decode_ex1 :
  decode (str "d3:bar4:spam3:fooi42ee") =
  Ret (OK (BencodeDict [(str "bar", BencodeString (str "spam")); (str "foo", BencodeInt 42)])).
Proof. vm_compute. reflexivity. Qed.

(** Reading one past the terminating NUL: a dictionary whose last key is an
    unterminated run of zeros. *)
Example decode_ex2 : decode (str "d000") = Undef OutOfBounds.
Proof. vm_compute. reflexivity. Qed.

Example decode_ex3 : decode (str "0:") = Ret (ERROR StringFormat).
Proof. vm_compute. reflexivity. Qed.
