(* ===== verification/BencodeSpec.v ===== *)
(** * BencodeSpec: the grammar of bencoded texts and the parser's correctness *)
From S2P Require Import Prelude Text Bencode.
Local Open Scope Z_scope.

(** ** The accepted language *)

(** The lexicographic order of byte strings. *)
Inductive lex_le : bytes -> bytes -> Prop :=
| lex_nil s : lex_le [] s
| lex_less a b s t : b2z a < b2z b -> lex_le (a :: s) (b :: t)
| lex_same a s t : lex_le s t -> lex_le (a :: s) (a :: t).
Definition lex_lt (s t : bytes) : Prop := lex_le s t /\ s <> t.

(** The entries of a dictionary whose keys are not decreasing: the first of each run
    of equal keys; [last] is the key before. *)
Fixpoint first_entries (last : option bytes) (kvs : list (bytes * BencodeValue)) : list (bytes * BencodeValue) :=
  match kvs with
  | [] => []
  | (k, v) :: kvs =>
      if decide (last = Some k) then first_entries last kvs
      else (k, v) :: first_entries (Some k) kvs
  end.

(** [benc v s]: the text [s] denotes the value [v]. Numbers may have leading zeros
    and a key may be repeated, unlike in the standard ([bep3] below). *)
Inductive benc : BencodeValue -> bytes -> Prop :=
| benc_int s :
    regex_int s = true -> s <> str "-0" -> in_i64 (int_val s) = true ->
    benc (BencodeInt (int_val s)) ("i"%byte :: s ++ ["e"%byte])
| benc_string len s :
    regex_digits len = true -> digits_val len = zlen s -> in_i64 (zlen s) = true ->
    benc (BencodeString s) (len ++ ":"%byte :: s)
| benc_list vs s :
    benc_seq vs s -> benc (BencodeList vs) ("l"%byte :: s ++ ["e"%byte])
| benc_dict kvs s :
    benc_pairs kvs s -> Sorted lex_le (map fst kvs) ->
    benc (BencodeDict (first_entries None kvs)) ("d"%byte :: s ++ ["e"%byte])

with benc_seq : list BencodeValue -> bytes -> Prop :=
| benc_seq_nil : benc_seq [] []
| benc_seq_cons v vs s1 s2 :
    benc v s1 -> benc_seq vs s2 -> benc_seq (v :: vs) (s1 ++ s2)

with benc_pairs : list (bytes * BencodeValue) -> bytes -> Prop :=
| benc_pairs_nil : benc_pairs [] []
| benc_pairs_cons k v kvs s1 s2 s3 :
    benc (BencodeString k) s1 -> benc v s2 -> benc_pairs kvs s3 ->
    benc_pairs ((k, v) :: kvs) (s1 ++ s2 ++ s3).

Scheme benc_mut := Induction for benc Sort Prop
  with benc_seq_mut := Induction for benc_seq Sort Prop
  with benc_pairs_mut := Induction for benc_pairs Sort Prop.
Combined Scheme benc_ind3 from benc_mut, benc_seq_mut, benc_pairs_mut.

#[export] Hint Constructors benc benc_seq benc_pairs : furrent.

(** ** Order of keys *)

Lemma lex_le_refl s : lex_le s s.
Proof. induction s; by constructor. Qed.

(** The comparison of [std::string] is the lexicographic one. *)
Lemma compare_lex a b : bytes_compare a b <> Gt <-> lex_le a b.
Proof.
  revert b. induction a as [|x a IH]; intros [|y b]; cbn [bytes_compare].
  - split; [constructor|done].
  - split; [constructor|done].
  - split; [done|]. inversion 1.
  - destruct (Z.compare_spec (b2z x) (b2z y)) as [E|Hlt|Hgt].
    + apply b2z_inj in E as ->. rewrite IH. split; [by constructor|].
      inversion 1; [lia|done].
    + split; [by constructor|done].
    + split; [done|]. inversion 1; subst; lia.
Qed.

Lemma str_gtb_lex a b : str_gtb a b = false <-> lex_le a b.
Proof. rewrite <- compare_lex. unfold str_gtb. by destruct (bytes_compare a b). Qed.

Lemma str_lt_lex a b : str_lt a b <-> lex_lt a b.
Proof.
  unfold str_lt, lex_lt. rewrite <- compare_lex. pose proof (bytes_compare_eq a b) as He.
  destruct (bytes_compare a b); naive_solver.
Qed.

(** The order check of the parser. *)
Lemma keys_unordered_spec keys : keys_unordered keys = false <-> Sorted lex_le keys.
Proof.
  induction keys as [|k keys IH]; [split; [constructor|done]|]. destruct keys as [|k' keys].
  { split; [by repeat constructor|done]. }
  change (keys_unordered (k :: k' :: keys)) with (str_gtb k k' || keys_unordered (k' :: keys)).
  rewrite orb_false_iff, str_gtb_lex, IH. split.
  - intros [H1 H2]. constructor; [done|by constructor].
  - intros H. inversion_clear H as [|? ? Hs Hh]. by inversion_clear Hh.
Qed.

Lemma map_insert_found {V} k (v w : V) m :
  Forall (fun k' => str_lt k' k) (map fst m) -> map_insert k v (m ++ [(k, w)]) = m ++ [(k, w)].
Proof.
  induction m as [|[x u] m IH]; simpl; intros Hall.
  { by rewrite (proj2 (bytes_compare_eq k k) eq_refl). }
  inversion_clear Hall as [|? ? Hx Hall']. unfold str_lt in Hx.
  rewrite bytes_compare_antisym, Hx. simpl. by rewrite IH.
Qed.

(** What the insertions into the map leave. *)
Lemma map_inserts_first kvs m x w :
  Forall (fun k => str_lt k x) (map fst m) -> Sorted lex_le (x :: map fst kvs) ->
  map_inserts kvs (m ++ [(x, w)]) = m ++ [(x, w)] ++ first_entries (Some x) kvs.
Proof.
  revert m x w. induction kvs as [|[k v] kvs IH]; intros m x w Hm Hs; [done|].
  cbn [first_entries map_inserts fold_left fst snd]. inversion_clear Hs as [|? ? Hs' Hh].
  inversion_clear Hh as [|? ? Hle]. destruct (decide (Some x = Some k)) as [[= ->]|Hne].
  - rewrite map_insert_found by done. by apply IH.
  - assert (Hlt : str_lt x k) by (apply str_lt_lex; split; [done|congruence]).
    assert (Hall : Forall (fun k' => str_lt k' k) (map fst (m ++ [(x, w)]))).
    { rewrite map_app. apply Forall_app. split; [|by repeat constructor].
      eapply Forall_impl; [exact Hm|]. intros y Hy. by transitivity x. }
    rewrite map_insert_last by done. change (fold_left _ kvs ?z) with (map_inserts kvs z).
    rewrite IH by done. by rewrite <- !app_assoc.
Qed.

Lemma map_inserts_entries kvs :
  Sorted lex_le (map fst kvs) -> map_inserts kvs [] = first_entries None kvs.
Proof.
  destruct kvs as [|[k v] kvs]; [done|]. intros Hs. by apply (map_inserts_first kvs [] k v).
Qed.

(** ** Scanning lemmas *)

Lemma take_chars_spec n rest index :
  take_chars n rest index = (take (Z.to_nat n) rest, index + zlen (take (Z.to_nat n) rest)).
Proof.
  revert n index. induction rest as [|c rest IH]; intros n index; simpl.
  { by rewrite take_nil, zlen_nil, Z.add_0_r. }
  destruct (Z.ltb_spec 0 n).
  - rewrite IH. replace (Z.to_nat n) with (S (Z.to_nat (n - 1))) by lia. simpl.
    rewrite zlen_cons. f_equal. lia.
  - replace (Z.to_nat n) with O by lia. simpl. by rewrite zlen_nil, Z.add_0_r.
Qed.

Lemma take_until_stop stop s rest index :
  stop ∉ s -> take_until stop (s ++ stop :: rest) index = (s, index + zlen s).
Proof.
  revert index. induction s as [|c s IH]; intros index Hs; simpl.
  - rewrite decide_True by done. by rewrite zlen_nil, Z.add_0_r.
  - rewrite decide_False by set_solver. rewrite IH by set_solver.
    rewrite zlen_cons. f_equal. lia.
Qed.

Lemma take_until_inv stop rest index s index' :
  take_until stop rest index = (s, index') ->
  index' = index + zlen s /\
  ((exists rest', rest = s ++ stop :: rest') \/ rest = s).
Proof.
  revert index s. induction rest as [|c rest IH]; intros index s; simpl.
  { intros [= <- <-]. rewrite zlen_nil. split; [lia|auto]. }
  destruct (decide (c = stop)) as [->|Hc].
  { intros [= <- <-]. rewrite zlen_nil. split; [lia|eauto]. }
  destruct (take_until stop rest (index + 1)) as [s1 i1] eqn:E. intros [= <- <-].
  destruct (IH _ _ E) as [-> H]. rewrite zlen_cons.
  split; [lia|]. destruct H as [[rest' ->]| ->]; eauto.
Qed.

Lemma digits_not_in s c : isdigit c = false -> forallb isdigit s = true -> c ∉ s.
Proof.
  intros Hc Hs Hin. rewrite forallb_forall in Hs.
  rewrite list_elem_of_In in Hin. apply Hs in Hin. congruence.
Qed.

Lemma regex_int_no_e s : regex_int s = true -> "e"%byte ∉ s.
Proof.
  unfold regex_int. destruct s as [|c s]; [done|].
  destruct (decide (c = "-"%byte)) as [->|]; rewrite regex_digits_forallb; intros [H _].
  - apply (digits_not_in _ "e"%byte) in H; [|done]. set_solver.
  - by apply digits_not_in.
Qed.

Lemma from_app pre rest : from (pre ++ rest) (zlen pre) = rest.
Proof. apply drop_zlen_app. Qed.

Lemma from_app_1 pre c rest : from (pre ++ c :: rest) (zlen pre + 1) = rest.
Proof.
  replace (pre ++ c :: rest) with ((pre ++ [c]) ++ rest) by (by rewrite <- app_assoc).
  replace (zlen pre + 1) with (zlen (pre ++ [c])) by zlen_lia.
  apply from_app.
Qed.

Lemma string_at_app pre c rest : string_at (pre ++ c :: rest) (zlen pre) = Ret c.
Proof.
  unfold string_at. rewrite bool_decide_false.
  2:{ rewrite zlen_app, zlen_cons. pose proof (zlen_nonneg rest). lia. }
  apply vget_lookup. split; [apply zlen_nonneg|].
  unfold zlen. rewrite Nat2Z.id. by apply list_lookup_middle.
Qed.

Lemma string_at_app_n pre s c rest n :
  n = zlen pre + zlen s -> string_at (pre ++ s ++ c :: rest) n = Ret c.
Proof.
  intros ->. rewrite app_assoc, <- zlen_app. apply string_at_app.
Qed.

(** Any position of the input splits it. *)
Lemma split_at (tokens : bytes) index :
  0 <= index <= zlen tokens ->
  exists pre rest, tokens = pre ++ rest /\ index = zlen pre.
Proof.
  intros H. exists (take (Z.to_nat index) tokens), (drop (Z.to_nat index) tokens).
  rewrite take_drop. split; [done|]. rewrite zlen_take. lia.
Qed.

(** ** Completeness: every text of the grammar is parsed to its value *)

Lemma decode_int_complete pre s rest :
  regex_int s = true -> s <> str "-0" -> in_i64 (int_val s) = true ->
  decode_int (pre ++ "i"%byte :: s ++ "e"%byte :: rest) (zlen pre) =
  Ret (OK (BencodeInt (int_val s)), zlen pre + (zlen s + 2)).
Proof.
  intros Hr Hne Hin. unfold decode_int.
  assert (Hs : 1 <= zlen s).
  { destruct s; [done|]. rewrite zlen_cons. pose proof (zlen_nonneg s). lia. }
  pose proof (zlen_nonneg rest).
  destruct (Z.ltb_spec (zlen (pre ++ "i"%byte :: s ++ "e"%byte :: rest) - zlen pre) 3).
  { zlen_lia. }
  rewrite from_app_1, take_until_stop by (by apply regex_int_no_e).
  destruct (Z.eqb_spec (zlen pre + 1 + zlen s) (zlen (pre ++ "i"%byte :: s ++ "e"%byte :: rest))).
  { zlen_lia. }
  rewrite app_comm_cons, string_at_app_n by zlen_lia. cbn.
  rewrite decide_False by tauto. rewrite decide_False by exact Hne. rewrite Hr, stol_int, Hin by done. simpl.
  do 2 f_equal. lia.
Qed.

Lemma decode_string_complete pre len s rest :
  regex_digits len = true -> digits_val len = zlen s -> in_i64 (zlen s) = true ->
  3 <= zlen (len ++ ":"%byte :: s ++ rest) ->
  decode_string (pre ++ len ++ ":"%byte :: s ++ rest) (zlen pre) =
  Ret (OK (BencodeString s), zlen pre + zlen (len ++ ":"%byte :: s)).
Proof.
  intros Hr Hv Hin H3. unfold decode_string.
  destruct (Z.ltb_spec (zlen (pre ++ len ++ ":"%byte :: s ++ rest) - zlen pre) 3).
  { zlen_lia. }
  pose proof (proj1 (proj1 (regex_digits_forallb len) Hr)) as Hd.
  rewrite from_app, take_until_stop by (by apply digits_not_in).
  rewrite Hr, stol_digits, Hv, Hin by done. cbn.
  rewrite take_chars_spec.
  replace (zlen pre + zlen len + 1) with (zlen (pre ++ len) + 1) by zlen_lia.
  rewrite app_assoc, from_app_1.
  rewrite take_zlen_app.
  apply in_i64_spec in Hin. unfold int64_max.
  destruct (Z.ltb_spec (2 ^ 63 - 1) (zlen s)); [lia|].
  rewrite Z.eqb_refl. simpl. do 2 f_equal. zlen_lia.
Qed.

(** First characters of the texts of the grammar. *)
Lemma benc_nonempty v s : benc v s -> 2 <= zlen s.
Proof.
  destruct 1 as [s Hr|len s Hr|vs s|kvs s]; autorewrite with furrent.
  1, 3, 4: pose proof (zlen_nonneg s); lia.
  apply regex_digits_forallb in Hr as [_ Hne].
  destruct len; [done|]. rewrite zlen_cons.
  pose proof (zlen_nonneg len). pose proof (zlen_nonneg s). lia.
Qed.

Lemma benc_head v s : benc v s -> exists c s', s = c :: s' /\ c <> "e"%byte.
Proof.
  destruct 1 as [s Hr|len s Hr|vs s|kvs s]; eauto.
  apply regex_digits_forallb in Hr as [Hd Hne]. destruct len as [|c len]; [done|].
  simpl in *. apply andb_true_iff in Hd as [Hc _].
  exists c, (len ++ ":"%byte :: s). split; [done|]. intros ->. discriminate Hc.
Qed.

(** The budget [fuel] is enough to parse [n] characters with [k] calls to spare. *)
Definition enough (fuel : nat) (n k : Z) : Prop := 3 * n + k <= Z.of_nat fuel.

Lemma enough_S fuel n k : 0 <= n -> 1 <= k -> enough fuel n k ->
  exists fuel', fuel = S fuel' /\ enough fuel' n (k - 1).
Proof.
  unfold enough. intros. destruct fuel as [|f]; [lia|]. exists f. split; [done|lia].
Qed.

(** One call of [decode_value] on a text that starts with [c]. *)
Lemma decode_value_step fuel pre c rest :
  decode_value (S fuel) (pre ++ c :: rest) (zlen pre) =
  if decide (c = "i"%byte) then decode_int (pre ++ c :: rest) (zlen pre)
  else if isdigit c then decode_string (pre ++ c :: rest) (zlen pre)
  else if decide (c = "l"%byte) then decode_list fuel (pre ++ c :: rest) (zlen pre)
  else if decide (c = "d"%byte) then decode_dict fuel (pre ++ c :: rest) (zlen pre)
  else Ret (ERROR InvalidString, zlen pre).
Proof.
  cbn [decode_value]. rewrite string_at_app.
  destruct (pre ++ c :: rest) eqn:E; [by destruct pre|done].
Qed.

Lemma decode_value_digit fuel pre c rest :
  isdigit c = true ->
  decode_value (S fuel) (pre ++ c :: rest) (zlen pre) = decode_string (pre ++ c :: rest) (zlen pre).
Proof. intros Hc. by rewrite decode_value_step, decide_False, Hc by (intros ->; discriminate Hc). Qed.

Lemma decode_value_d fuel pre rest :
  decode_value (S fuel) (pre ++ "d"%byte :: rest) (zlen pre) =
  decode_dict fuel (pre ++ "d"%byte :: rest) (zlen pre).
Proof. by rewrite decode_value_step. Qed.

(** A closed list whose elements [list_loop] has read. *)
Lemma decode_list_close fuel pre s rest vs :
  list_loop fuel ((pre ++ ["l"%byte]) ++ s ++ "e"%byte :: rest) (zlen (pre ++ ["l"%byte])) [] =
  Ret (OK vs, zlen (pre ++ ["l"%byte]) + zlen s) ->
  decode_list (S fuel) (pre ++ "l"%byte :: s ++ "e"%byte :: rest) (zlen pre) =
  Ret (OK (BencodeList vs), zlen pre + (zlen s + 2)).
Proof.
  intros Hloop. replace (pre ++ "l"%byte :: s ++ "e"%byte :: rest)
    with ((pre ++ ["l"%byte]) ++ s ++ "e"%byte :: rest) by (by rewrite <- app_assoc).
  cbn [decode_list].
  destruct (Z.ltb_spec (zlen ((pre ++ ["l"%byte]) ++ s ++ "e"%byte :: rest) - zlen pre) 2);
    [zlen_lia|].
  replace (zlen pre + 1) with (zlen (pre ++ ["l"%byte])) by zlen_lia.
  rewrite Hloop. run_bind.
  destruct (Z.leb_spec (zlen ((pre ++ ["l"%byte]) ++ s ++ "e"%byte :: rest))
              (zlen (pre ++ ["l"%byte]) + zlen s)); [zlen_lia|].
  rewrite string_at_app_n by done. cbn. do 2 f_equal. zlen_lia.
Qed.

(** A closed dictionary whose pairs [dict_loop] has read. *)
Lemma decode_dict_close fuel pre s rest ptr keys :
  dict_loop fuel ((pre ++ ["d"%byte]) ++ s ++ "e"%byte :: rest) (zlen (pre ++ ["d"%byte])) [] [] =
  Ret (OK (ptr, keys), zlen (pre ++ ["d"%byte]) + zlen s) ->
  Sorted lex_le keys ->
  decode_dict (S fuel) (pre ++ "d"%byte :: s ++ "e"%byte :: rest) (zlen pre) =
  Ret (OK (BencodeDict ptr), zlen pre + (zlen s + 2)).
Proof.
  intros Hloop Hord%keys_unordered_spec. replace (pre ++ "d"%byte :: s ++ "e"%byte :: rest)
    with ((pre ++ ["d"%byte]) ++ s ++ "e"%byte :: rest) by (by rewrite <- app_assoc).
  cbn [decode_dict].
  destruct (Z.ltb_spec (zlen ((pre ++ ["d"%byte]) ++ s ++ "e"%byte :: rest) - zlen pre) 2);
    [zlen_lia|].
  replace (zlen pre + 1) with (zlen (pre ++ ["d"%byte])) by zlen_lia.
  rewrite Hloop. run_bind.
  destruct (Z.leb_spec (zlen ((pre ++ ["d"%byte]) ++ s ++ "e"%byte :: rest))
              (zlen (pre ++ ["d"%byte]) + zlen s)); [zlen_lia|].
  rewrite string_at_app_n by done. cbn. rewrite Hord. do 2 f_equal. zlen_lia.
Qed.

(** The loops stop at the closing character and otherwise read one element. *)
Lemma list_loop_stop fuel pre rest ptr :
  list_loop (S fuel) (pre ++ "e"%byte :: rest) (zlen pre) ptr = Ret (OK ptr, zlen pre).
Proof.
  cbn [list_loop]. rewrite string_at_app.
  destruct (Z.ltb_spec (zlen pre) (zlen (pre ++ "e"%byte :: rest))); [done|zlen_lia].
Qed.

Lemma list_loop_more fuel pre v s rest ptr :
  benc v s ->
  decode_value fuel (pre ++ s ++ rest) (zlen pre) = Ret (OK v, zlen (pre ++ s)) ->
  list_loop (S fuel) (pre ++ s ++ rest) (zlen pre) ptr =
  list_loop fuel ((pre ++ s) ++ rest) (zlen (pre ++ s)) (ptr ++ [v]).
Proof.
  intros Hv Hdec. destruct (benc_head _ _ Hv) as (c & s' & -> & Hc).
  cbn [list_loop]. destruct (Z.ltb_spec (zlen pre) (zlen (pre ++ (c :: s') ++ rest))); [|zlen_lia].
  rewrite Hdec. rewrite <- app_comm_cons, string_at_app. run_bind.
  rewrite decide_False by done. by rewrite <- app_assoc.
Qed.

Lemma dict_loop_stop fuel pre rest ptr keys :
  dict_loop (S fuel) (pre ++ "e"%byte :: rest) (zlen pre) ptr keys =
  Ret (OK (ptr, keys), zlen pre).
Proof.
  cbn [dict_loop]. rewrite string_at_app.
  destruct (Z.ltb_spec (zlen pre) (zlen (pre ++ "e"%byte :: rest))); [done|zlen_lia].
Qed.

Lemma dict_loop_key fuel pre c rest ptr keys k i :
  c <> "e"%byte ->
  decode_value fuel (pre ++ c :: rest) (zlen pre) = Ret (OK (BencodeString k), i) ->
  dict_loop (S fuel) (pre ++ c :: rest) (zlen pre) ptr keys =
  '(r_value, index) ← decode_value fuel (pre ++ c :: rest) i;
  match r_value with
  | ERROR e => Ret (ERROR e, index)
  | OK value => dict_loop fuel (pre ++ c :: rest) index (map_insert k value ptr) (keys ++ [k])
  end.
Proof.
  intros Hc Hk. cbn [dict_loop].
  destruct (Z.ltb_spec (zlen pre) (zlen (pre ++ c :: rest))); [|zlen_lia].
  rewrite string_at_app. run_bind. rewrite decide_False by done. rewrite Hk. run_bind.
  cbn [get_type]. by rewrite decide_False by tauto.
Qed.

Lemma dict_loop_more fuel pre k v s1 s2 rest ptr keys :
  benc (BencodeString k) s1 ->
  decode_value fuel (pre ++ s1 ++ s2 ++ rest) (zlen pre) =
    Ret (OK (BencodeString k), zlen (pre ++ s1)) ->
  decode_value fuel ((pre ++ s1) ++ s2 ++ rest) (zlen (pre ++ s1)) =
    Ret (OK v, zlen ((pre ++ s1) ++ s2)) ->
  dict_loop (S fuel) (pre ++ s1 ++ s2 ++ rest) (zlen pre) ptr keys =
  dict_loop fuel (((pre ++ s1) ++ s2) ++ rest) (zlen ((pre ++ s1) ++ s2))
    (map_insert k v ptr) (keys ++ [k]).
Proof.
  intros Hk Hdk Hdv. destruct (benc_head _ _ Hk) as (c & s' & -> & Hc).
  rewrite <- (app_assoc pre) in Hdv. rewrite <- app_comm_cons in *.
  rewrite (dict_loop_key _ _ _ _ _ _ k _ Hc Hdk), Hdv. run_bind.
  by rewrite <- !app_assoc, <- !app_comm_cons.
Qed.

Lemma decode_complete :
  (forall v s, benc v s -> forall fuel pre rest,
     enough fuel (zlen s) 1 -> (zlen rest = 0 -> 3 <= zlen s \/ forall b, v <> BencodeString b) ->
     decode_value fuel (pre ++ s ++ rest) (zlen pre) = Ret (OK v, zlen (pre ++ s))) /\
  (forall vs s, benc_seq vs s -> forall fuel pre rest ptr,
     enough fuel (zlen s) 2 ->
     list_loop fuel (pre ++ s ++ "e"%byte :: rest) (zlen pre) ptr =
     Ret (OK (ptr ++ vs), zlen (pre ++ s))) /\
  (forall kvs s, benc_pairs kvs s -> forall fuel pre rest ptr keys,
     enough fuel (zlen s) 2 ->
     dict_loop fuel (pre ++ s ++ "e"%byte :: rest) (zlen pre) ptr keys =
     Ret (OK (map_inserts kvs ptr, keys ++ map fst kvs), zlen (pre ++ s))).
Proof.
  apply benc_ind3.
  - intros s Hr Hne Hin [|fuel] pre rest Hf _; [unfold enough in Hf; zlen_lia|].
    rewrite <- app_comm_cons, <- app_assoc. simpl (["e"%byte] ++ _).
    rewrite decode_value_step, decide_True, decode_int_complete by done.
    do 2 f_equal. zlen_lia.
  - intros len s Hr Hv Hin [|fuel] pre rest Hf Hrest; [unfold enough in Hf; zlen_lia|].
    pose proof (benc_nonempty _ _ (benc_string len s Hr Hv Hin)) as H2.
    assert (H3 : 3 <= zlen (len ++ ":"%byte :: s ++ rest)).
    { rewrite app_comm_cons, app_assoc, zlen_app. zlen_pos.
      destruct (decide (zlen rest = 0)); [|lia].
      destruct (Hrest ltac:(done)) as [|Hn]; [lia|by destruct (Hn s)]. }
    rewrite <- app_assoc, <- app_comm_cons, zlen_app.
    pose proof (decode_string_complete pre len s rest Hr Hv Hin H3) as Hdec.
    apply regex_digits_forallb in Hr as [Hd Hne]. destruct len as [|c len]; [done|].
    apply andb_true_iff in Hd as [Hc _]. rewrite <- app_comm_cons in *.
    by rewrite decode_value_digit.
  - intros vs s Hseq IH [|[|fuel]] pre rest Hf _; [unfold enough in Hf; zlen_lia..|].
    rewrite <- app_comm_cons, <- app_assoc. simpl (["e"%byte] ++ _).
    rewrite decode_value_step. cbn [decide]. rewrite (decode_list_close _ _ _ _ vs).
    + do 2 f_equal. zlen_lia.
    + rewrite IH, zlen_app; [done|]. unfold enough in *. zlen_lia.
  - intros kvs s Hseq IH Hord [|[|fuel]] pre rest Hf _; [unfold enough in Hf; zlen_lia..|].
    rewrite <- app_comm_cons, <- app_assoc. simpl (["e"%byte] ++ _).
    rewrite <- map_inserts_entries by done.
    rewrite decode_value_d, (decode_dict_close _ _ _ _ (map_inserts kvs []) (map fst kvs)).
    + do 2 f_equal. zlen_lia.
    + rewrite IH, (zlen_app (pre ++ _)); [done|]. unfold enough in *. zlen_lia.
    + done.
  - intros [|fuel] pre rest ptr Hf; [unfold enough in Hf; zlen_lia|].
    by rewrite app_nil_l, list_loop_stop, !app_nil_r.
  - intros v vs s1 s2 Hv IHv Hvs IHvs [|fuel] pre rest ptr Hf; [unfold enough in Hf; zlen_lia|].
    pose proof (benc_nonempty _ _ Hv). rewrite <- app_assoc.
    rewrite (list_loop_more _ _ v); [|done|apply IHv; unfold enough in *; zlen_lia].
    rewrite IHvs by (unfold enough in *; zlen_lia). by rewrite <- !app_assoc.
  - intros [|fuel] pre rest ptr keys Hf; [unfold enough in Hf; zlen_lia|].
    by rewrite app_nil_l, dict_loop_stop, !app_nil_r.
  - intros k v kvs s1 s2 s3 Hk IHk Hv IHv Hkvs IHkvs [|fuel] pre rest ptr keys Hf;
      [unfold enough in Hf; zlen_lia|].
    pose proof (benc_nonempty _ _ Hk). pose proof (benc_nonempty _ _ Hv).
    rewrite <- !(app_assoc _ _ ("e"%byte :: rest)).
    rewrite (dict_loop_more _ _ k v);
      [|done|apply IHk; unfold enough in *; zlen_lia|apply IHv; unfold enough in *; zlen_lia].
    rewrite IHkvs by (unfold enough in *; zlen_lia). by rewrite <- !app_assoc.
Qed.

(** ** Soundness: whatever the parser accepts is a text of the grammar *)

(** The last character of the input is a digit. *)
Definition ends_in_digit (tokens : bytes) : bool :=
  from_option isdigit false (last tokens).

Lemma ends_in_digit_app pre ds : regex_digits ds = true -> ends_in_digit (pre ++ ds) = true.
Proof.
  rewrite regex_digits_forallb. intros [Hd Hne]. unfold ends_in_digit.
  destruct ds as [|c ds _] using rev_ind; [done|].
  rewrite app_assoc, last_snoc. simpl. rewrite forallb_app in Hd. simpl in Hd.
  apply andb_true_iff in Hd as [_ Hd]. by rewrite andb_true_r in Hd.
Qed.

(** [v] was read from the characters between [index] and [index'], or the
    scan of a length ran over the end of the input. *)
Definition parsed (tokens : bytes) (index : Z) (v : BencodeValue) (index' : Z) : Prop :=
  (exists pre s rest, tokens = pre ++ s ++ rest /\ index = zlen pre /\
     index' = zlen (pre ++ s) /\ benc v s) \/
  (index' = zlen tokens + 1 /\ ends_in_digit tokens = true).

Lemma decode_int_sound pre rest v index' :
  decode_int (pre ++ "i"%byte :: rest) (zlen pre) = Ret (OK v, index') ->
  parsed (pre ++ "i"%byte :: rest) (zlen pre) v index'.
Proof.
  unfold decode_int. destruct (_ <? 3); [naive_solver|]. rewrite from_app_1.
  destruct (take_until _ _ _) as [s i1] eqn:E. apply take_until_inv in E as [-> Hrest].
  destruct (Z.eqb_spec (zlen pre + 1 + zlen s) (zlen (pre ++ "i"%byte :: rest))); [naive_solver|].
  destruct Hrest as [[rest' ->]| ->]; [|zlen_lia].
  intros H. inv_ret. destruct (decide (x <> "e"%byte)); [naive_solver|].
  destruct (decide (s = str "-0")); [naive_solver|].
  destruct (regex_int s) eqn:Hr; [|naive_solver]. cbn [negb] in H. inv_ret.
  rewrite stol_int in Hx0 by done. destruct (in_i64 (int_val s)) eqn:Hin; inv_ret.
  injection H as <- <-. left. exists pre, ("i"%byte :: s ++ ["e"%byte]), rest'.
  split_and!; [|done|zlen_lia|by constructor].
  by rewrite <- app_comm_cons, <- app_assoc.
Qed.

Lemma decode_string_sound pre rest v index' :
  decode_string (pre ++ rest) (zlen pre) = Ret (OK v, index') ->
  parsed (pre ++ rest) (zlen pre) v index'.
Proof.
  unfold decode_string. destruct (_ <? 3); [naive_solver|]. rewrite from_app.
  destruct (take_until _ _ _) as [len i1] eqn:E. apply take_until_inv in E as [-> Hrest].
  destruct (regex_digits len) eqn:Hr; [|naive_solver]. cbn [negb]. intros H. inv_ret.
  rewrite stol_digits in Hx by done.
  destruct (in_i64 (digits_val len)) eqn:Hin; inv_ret. rewrite take_chars_spec in H.
  destruct Hrest as [[rest' ->]| ->].
  - replace (zlen pre + zlen len + 1) with (zlen (pre ++ len) + 1) in H by zlen_lia.
    rewrite app_assoc, from_app_1 in H. set (s := take _ rest') in H.
    destruct (int64_max <? zlen s); [naive_solver|].
    destruct (Z.eqb_spec (zlen s) (digits_val len)) as [Hs|]; [|naive_solver].
    injection H as <- <-. left.
    exists pre, (len ++ ":"%byte :: s), (drop (Z.to_nat (digits_val len)) rest').
    split_and!; [|done|zlen_lia|].
    + rewrite <- app_assoc, <- app_comm_cons. unfold s. by rewrite take_drop.
    + constructor; [done|done|]. by rewrite Hs.
  - replace (from (pre ++ len) (zlen pre + zlen len + 1)) with (@nil byte) in H.
    2:{ symmetry. apply drop_ge. unfold zlen. rewrite length_app. lia. }
    rewrite take_nil in H. destruct (_ || _); [naive_solver|]. injection H as <- <-.
    right. split; [zlen_lia|by apply ends_in_digit_app].
Qed.

Lemma string_at_ret tokens index c :
  0 <= index -> string_at tokens index = Ret c ->
  (index = zlen tokens /\ c = x00) \/
  (exists pre rest, tokens = pre ++ c :: rest /\ index = zlen pre).
Proof.
  intros Hi. unfold string_at. case_bool_decide as Hz; [naive_solver|].
  intros [_ Hc]%vget_lookup. right.
  exists (take (Z.to_nat index) tokens), (drop (S (Z.to_nat index)) tokens).
  rewrite <- (drop_lookup_cons _ _ _ Hc), take_drop. split; [done|].
  apply lookup_lt_Some in Hc. rewrite zlen_take. unfold zlen. lia.
Qed.

(** The three recursive soundness statements for a given budget. *)
Definition value_sound (fuel : nat) : Prop := forall tokens index v index',
  0 <= index -> decode_value fuel tokens index = Ret (OK v, index') ->
  parsed tokens index v index'.
Definition list_sound (fuel : nat) : Prop := forall tokens index ptr vs index',
  0 <= index -> list_loop fuel tokens index ptr = Ret (OK vs, index') ->
  index' < zlen tokens ->
  exists pre s rest vs', tokens = pre ++ s ++ rest /\ index = zlen pre /\
    index' = zlen (pre ++ s) /\ benc_seq vs' s /\ vs = ptr ++ vs'.
Definition dict_sound (fuel : nat) : Prop := forall tokens index ptr keys m keys' index',
  0 <= index -> dict_loop fuel tokens index ptr keys = Ret (OK (m, keys'), index') ->
  index' < zlen tokens ->
  exists pre s rest kvs, tokens = pre ++ s ++ rest /\ index = zlen pre /\
    index' = zlen (pre ++ s) /\ benc_pairs kvs s /\
    m = map_inserts kvs ptr /\ keys' = keys ++ map fst kvs.

(** Two splits of the same input at the same position agree. *)
Lemma split_eq (a b c d : bytes) : a ++ b = c ++ d -> zlen a = zlen c -> a = c /\ b = d.
Proof. intros H Hl. apply app_inj_1; [|done]. unfold zlen in Hl. lia. Qed.

Lemma list_loop_sound fuel : value_sound fuel -> list_sound fuel -> list_sound (S fuel).
Proof.
  intros IHv IHl tokens index ptr vs index' Hi H Hlt. cbn [list_loop] in H.
  destruct (Z.ltb_spec index (zlen tokens)); [|inv_ret; naive_solver lia].
  apply bind_ret in H as (c & Hc & H). destruct (decide (c = "e"%byte)) as [->|Hce].
  { injection H as <- <-. destruct (split_at tokens index) as (pre & rest & -> & ->); [lia|].
    exists pre, [], rest, []. rewrite !app_nil_r. split_and!; auto with furrent. }
  apply bind_ret in H as ([[v|] i1] & Hv & H); [|naive_solver].
  destruct (IHv _ _ _ _ Hi Hv) as [(pre & s & rest & -> & -> & -> & Hb)|[-> _]].
  - destruct (IHl _ _ _ _ _ (zlen_nonneg _) H Hlt)
      as (pre' & s' & rest' & vs' & Heq & Hp & -> & Hs & ->).
    rewrite (app_assoc pre) in Heq. destruct (split_eq _ _ _ _ Heq Hp) as [<- ->].
    exists pre, (s ++ s'), rest', (v :: vs'). rewrite <- !app_assoc.
    split_and!; auto with furrent.
  - destruct fuel; [done|]. cbn [list_loop] in H.
    destruct (Z.ltb_spec (zlen tokens + 1) (zlen tokens)); [lia|]. naive_solver lia.
Qed.

Lemma decode_value_over fuel tokens :
  tokens <> [] -> decode_value (S fuel) tokens (zlen tokens + 1) = Undef OutOfBounds.
Proof.
  intros Hne. cbn [decode_value]. destruct tokens; [done|].
  unfold string_at. rewrite bool_decide_false by lia.
  rewrite (proj2 (vget_oob _ _)); [done|zlen_lia].
Qed.

Lemma dict_loop_sound fuel : value_sound fuel -> dict_sound fuel -> dict_sound (S fuel).
Proof.
  intros IHv IHd tokens index ptr keys m keys' index' Hi H Hlt. cbn [dict_loop] in H.
  destruct (Z.ltb_spec index (zlen tokens)); [|inv_ret; naive_solver lia].
  apply bind_ret in H as (c & Hc & H). destruct (decide (c = "e"%byte)) as [->|Hce].
  { injection H as <- <- <-. destruct (split_at tokens index) as (pre & rest & -> & ->); [lia|].
    exists pre, [], rest, []. rewrite !app_nil_r. split_and!; auto with furrent. }
  apply bind_ret in H as ([[k|] i1] & Hk & H); [|naive_solver].
  destruct k as [|k| |]; cbn [get_type] in H; try (rewrite decide_True in H by done; naive_solver).
  rewrite decide_False in H by tauto. apply bind_ret in H as ([[v|] i2] & Hv & H); [|naive_solver].
  cbn [as_string mbind cxx_bind] in H.
  destruct (IHv _ _ _ _ Hi Hk) as [(pre & s & rest & -> & -> & -> & Hb)|[-> _]].
  2:{ destruct fuel; [done|]. rewrite decode_value_over in Hv; [done|].
      intros ->. rewrite zlen_nil in *. lia. }
  destruct (IHv _ _ _ _ (zlen_nonneg _) Hv) as [(pre' & s' & rest' & Heq & Hp & -> & Hb')|[-> _]].
  2:{ destruct fuel; [done|]. cbn [dict_loop] in H.
      destruct (Z.ltb_spec (zlen (pre ++ s ++ rest) + 1) (zlen (pre ++ s ++ rest))); [lia|].
      naive_solver lia. }
  rewrite (app_assoc pre) in Heq. destruct (split_eq _ _ _ _ Heq Hp) as [<- ->].
  destruct (IHd _ _ _ _ _ _ _ (zlen_nonneg _) H Hlt)
    as (pre'' & s'' & rest'' & kvs & Heq' & Hp' & -> & Hs & -> & ->).
  rewrite !(app_assoc pre), (app_assoc (pre ++ s)) in Heq'.
  destruct (split_eq _ _ _ _ Heq' Hp') as [<- ->].
  exists pre, (s ++ s' ++ s''), rest'', ((k, v) :: kvs). rewrite <- !app_assoc.
  split_and!; auto with furrent.
Qed.

Lemma decode_list_sound fuel pre rest v index' :
  (forall f, fuel = S f -> list_sound f) ->
  decode_list fuel (pre ++ "l"%byte :: rest) (zlen pre) = Ret (OK v, index') ->
  parsed (pre ++ "l"%byte :: rest) (zlen pre) v index'.
Proof.
  intros IH H. destruct fuel as [|fuel]; [done|]. pose proof (IH _ eq_refl) as IHl.
  cbn [decode_list] in H. destruct (_ <? 2); [naive_solver|].
  apply bind_ret in H as ([[vs|] i1] & Hl & H); [|naive_solver].
  destruct (Z.leb_spec (zlen (pre ++ "l"%byte :: rest)) i1); [naive_solver|].
  apply bind_ret in H as (c & Hc & H). destruct (decide (c <> "e"%byte)) as [|Hce]; [naive_solver|].
  injection H as <- <-. apply dec_stable in Hce as ->.
  assert (H1 : 0 <= zlen pre + 1) by zlen_lia.
  destruct (IHl _ _ _ _ _ H1 Hl ltac:(lia))
    as (pre' & s & rest' & vs' & Heq & Hp & -> & Hs & ->).
  rewrite (cons_middle _ pre rest), app_assoc in Heq.
  assert (Hp' : zlen (pre ++ ["l"%byte]) = zlen pre') by zlen_lia.
  destruct (split_eq _ _ _ _ Heq Hp') as [<- ->].
  destruct (string_at_ret _ _ _ (zlen_nonneg _) Hc) as [[Hz _]|(p2 & r2 & Heq2 & Hp2)]; [lia|].
  rewrite (cons_middle _ pre), !app_assoc in Heq2. rewrite <- (app_assoc _ _ rest') in Heq2.
  rewrite app_assoc in Heq2. destruct (split_eq _ _ _ _ Heq2 Hp2) as [<- ->].
  left. exists pre, ("l"%byte :: s ++ ["e"%byte]), r2.
  split_and!; [|done|zlen_lia|by constructor].
  by rewrite <- app_comm_cons, <- app_assoc.
Qed.

Lemma decode_dict_sound fuel pre rest v index' :
  (forall f, fuel = S f -> dict_sound f) ->
  decode_dict fuel (pre ++ "d"%byte :: rest) (zlen pre) = Ret (OK v, index') ->
  parsed (pre ++ "d"%byte :: rest) (zlen pre) v index'.
Proof.
  intros IH H. destruct fuel as [|fuel]; [done|]. pose proof (IH _ eq_refl) as IHl.
  cbn [decode_dict] in H. destruct (_ <? 2); [naive_solver|].
  apply bind_ret in H as ([[[m keys]|] i1] & Hl & H); [|naive_solver].
  destruct (Z.leb_spec (zlen (pre ++ "d"%byte :: rest)) i1); [naive_solver|].
  apply bind_ret in H as (c & Hc & H). destruct (decide (c <> "e"%byte)) as [|Hce]; [naive_solver|].
  destruct (keys_unordered keys) eqn:Hord; [naive_solver|].
  injection H as <- <-. apply dec_stable in Hce as ->.
  assert (H1 : 0 <= zlen pre + 1) by zlen_lia.
  destruct (IHl _ _ _ _ _ _ _ H1 Hl ltac:(lia))
    as (pre' & s & rest' & kvs & Heq & Hp & -> & Hs & -> & ->).
  rewrite (cons_middle _ pre rest), app_assoc in Heq.
  assert (Hp' : zlen (pre ++ ["d"%byte]) = zlen pre') by zlen_lia.
  destruct (split_eq _ _ _ _ Heq Hp') as [<- ->].
  destruct (string_at_ret _ _ _ (zlen_nonneg _) Hc) as [[Hz _]|(p2 & r2 & Heq2 & Hp2)]; [lia|].
  rewrite (cons_middle _ pre), !app_assoc in Heq2. rewrite <- (app_assoc _ _ rest') in Heq2.
  rewrite app_assoc in Heq2. destruct (split_eq _ _ _ _ Heq2 Hp2) as [<- ->].
  apply keys_unordered_spec in Hord. rewrite map_inserts_entries by done.
  left. exists pre, ("d"%byte :: s ++ ["e"%byte]), r2.
  split_and!; [|done|zlen_lia|by constructor].
  by rewrite <- app_comm_cons, <- app_assoc.
Qed.

Lemma decode_value_sound fuel :
  (forall f, fuel = S f -> list_sound f) -> (forall f, fuel = S f -> dict_sound f) ->
  value_sound (S fuel).
Proof.
  intros IHl IHd tokens index v index' Hi H. cbn [decode_value] in H.
  destruct tokens as [|c0 tokens0] eqn:Et; [naive_solver|]. rewrite <- Et in H |- *. clear Et.
  apply bind_ret in H as (c & Hc & H).
  destruct (string_at_ret _ _ _ Hi Hc) as [[_ ->]|(pre & rest & -> & ->)]; [by cbn in H|].
  destruct (decide (c = "i"%byte)) as [->|]; [by apply decode_int_sound|].
  destruct (isdigit c) eqn:Hd; [by apply decode_string_sound|].
  destruct (decide (c = "l"%byte)) as [->|]; [by eapply decode_list_sound|].
  destruct (decide (c = "d"%byte)) as [->|]; [by eapply decode_dict_sound|naive_solver].
Qed.

Lemma decode_sound fuel : value_sound fuel /\ list_sound fuel /\ dict_sound fuel.
Proof.
  induction fuel as [fuel IH] using (well_founded_induction Nat.lt_wf_0).
  destruct fuel as [|fuel].
  { split_and!; intro; intros; discriminate. }
  destruct (IH fuel ltac:(lia)) as (IHv & IHl & IHd).
  split_and!; [|by apply list_loop_sound|by apply dict_loop_sound].
  apply decode_value_sound; intros f ->; apply IH; lia.
Qed.

(** A value is never read from beyond the end of the input. *)
Lemma decode_value_inside fuel tokens index v index' :
  0 <= index -> decode_value fuel tokens index = Ret (OK v, index') -> index <= zlen tokens.
Proof.
  intros Hi H. destruct fuel; [done|]. cbn [decode_value] in H.
  destruct tokens; [naive_solver|]. apply bind_ret in H as (c & Hc & _).
  apply string_at_ret in Hc as [[-> _]|(p & r & -> & ->)]; [lia|zlen_lia|done].
Qed.

(** ** The parser never exhausts its budget *)

Lemma decode_int_nofuel tokens index : decode_int tokens index <> NoFuel.
Proof.
  unfold decode_int. destruct (_ <? 3); [done|].
  destruct (take_until _ _ _) as [s i1]. destruct (_ =? _); [done|].
  apply bind_nofuel.
  { unfold string_at, vget. repeat case_bool_decide; try done. by destruct (_ !! _). }
  intros c _. repeat (destruct (decide _); [done|]). destruct (negb _); [done|].
  apply bind_nofuel; [|done]. unfold stol. destruct (strtol s); [|done]. by destruct (in_i64 _).
Qed.

Lemma decode_string_nofuel tokens index : decode_string tokens index <> NoFuel.
Proof.
  unfold decode_string. destruct (_ <? 3); [done|].
  destruct (take_until _ _ _) as [s i1]. destruct (negb _); [done|].
  apply bind_nofuel.
  { unfold stol. destruct (strtol s); [|done]. by destruct (in_i64 _). }
  intros n _. destruct (take_chars _ _ _). by destruct (_ || _).
Qed.

Lemma string_at_nofuel tokens index : string_at tokens index <> NoFuel.
Proof.
  unfold string_at, vget. repeat case_bool_decide; try done. by destruct (_ !! _).
Qed.

(** A parsed value takes at least one character. *)
Lemma parsed_progress tokens index v index' :
  0 <= index <= zlen tokens -> parsed tokens index v index' -> index < index'.
Proof.
  intros Hi [(pre & s & rest & -> & -> & -> & Hb)|[-> _]]; [|lia].
  apply benc_nonempty in Hb. zlen_lia.
Qed.

(** Characters left from [index] on. *)
Definition left_of (tokens : bytes) (index : Z) : Z := Z.max 0 (zlen tokens - index).

Lemma decode_terminates fuel :
  (forall tokens index, 0 <= index -> enough fuel (left_of tokens index) 1 ->
     decode_value fuel tokens index <> NoFuel) /\
  (forall tokens index, 0 <= index < zlen tokens -> enough fuel (left_of tokens index) 0 ->
     decode_list fuel tokens index <> NoFuel /\ decode_dict fuel tokens index <> NoFuel) /\
  (forall tokens index, 0 <= index -> enough fuel (left_of tokens index) 2 ->
     (forall ptr, list_loop fuel tokens index ptr <> NoFuel) /\
     (forall ptr keys, dict_loop fuel tokens index ptr keys <> NoFuel)).
Proof.
  induction fuel as [|fuel (IHv & IHc & IHl)];
    [unfold enough, left_of; split_and!; intros; lia|].
  unfold enough, left_of in *. split_and!.
  - intros tokens index Hi Hf. cbn [decode_value].
    destruct tokens as [|c0 tokens0] eqn:Et; [done|]. rewrite <- Et in *. clear Et.
    apply bind_nofuel; [apply string_at_nofuel|]. intros c Hc.
    destruct (string_at_ret _ _ _ Hi Hc) as [[_ ->]|(pre & rest & -> & ->)]; [done|].
    destruct (decide (c = "i"%byte)); [apply decode_int_nofuel|].
    destruct (isdigit c); [apply decode_string_nofuel|].
    repeat (destruct (decide _); [apply IHc; zlen_lia|]). done.
  - intros tokens index Hi Hf. cbn [decode_list decode_dict].
    destruct (_ <? 2); [done|]. specialize (IHl tokens (index + 1) ltac:(lia) ltac:(lia)).
    split; (apply bind_nofuel; [apply IHl|]); intros [r i1] _; destruct r as [r|]; try done.
    + destruct (_ <=? _); [done|]. apply bind_nofuel; [apply string_at_nofuel|].
      intros c _. by destruct (decide _).
    + destruct r. destruct (_ <=? _); [done|]. apply bind_nofuel; [apply string_at_nofuel|].
      intros c _. destruct (decide _); [done|]. by destruct (keys_unordered _).
  - intros tokens index Hi Hf. cbn [list_loop dict_loop].
    destruct (Z.ltb_spec index (zlen tokens)); [|done].
    assert (Hnext : forall v i i', 0 <= i ->
              decode_value fuel tokens i = Ret (OK v, i') -> i < i').
    { intros v i i' Hi' Hv. pose proof (decode_value_inside _ _ _ _ _ Hi' Hv).
      eapply parsed_progress; [|by eapply decode_sound]. lia. }
    split.
    + intros ptr. apply bind_nofuel; [apply string_at_nofuel|]. intros c _.
      destruct (decide _); [done|]. apply bind_nofuel; [apply IHv; lia|].
      intros [[v|] i1] Hv; [|done]. pose proof (Hnext _ _ _ Hi Hv). apply IHl; lia.
    + intros ptr keys. apply bind_nofuel; [apply string_at_nofuel|]. intros c _.
      destruct (decide _); [done|]. apply bind_nofuel; [apply IHv; lia|].
      intros [[k|] i1] Hk; [|done]. destruct (decide _); [done|].
      pose proof (Hnext _ _ _ Hi Hk). apply bind_nofuel; [apply IHv; lia|].
      intros [[v|] i2] Hv; [|done]. apply bind_nofuel; [by destruct k|]. intros ks _.
      assert (Hi1 : 0 <= i1) by lia. pose proof (Hnext _ _ _ Hi1 Hv). apply IHl; lia.
Qed.

(** ** Without a trailing digit there is no undefined behaviour *)

(** The evaluation has no undefined behaviour, and its only exception is the one
    of a number that does not fit [long]. *)
Definition tame {A} (m : cxx A) : Prop :=
  match m with
  | Ret _ | NoFuel => True
  | Throw e => e = out_of_range "stol"
  | Undef _ => False
  end.

Lemma tame_bind {A B} (m : cxx A) (f : A -> cxx B) :
  tame m -> (forall a, m = Ret a -> tame (f a)) -> tame (x ← m; f x).
Proof. destruct m; cbn; naive_solver. Qed.

Lemma tame_stol s : regex_int s = true \/ regex_digits s = true -> tame (stol s).
Proof.
  intros [H|H]; [rewrite stol_int by done|rewrite stol_digits by done]; by destruct (in_i64 _).
Qed.

Lemma tame_string_at tokens index : 0 <= index <= zlen tokens -> tame (string_at tokens index).
Proof.
  intros H. unfold string_at. case_bool_decide; [done|].
  destruct (vget_total tokens index) as (x & -> & _); [lia|done].
Qed.

Lemma decode_int_tame pre rest : tame (decode_int (pre ++ "i"%byte :: rest) (zlen pre)).
Proof.
  unfold decode_int. destruct (_ <? 3); [done|]. rewrite from_app_1.
  destruct (take_until _ _ _) as [s i1] eqn:E. apply take_until_inv in E as [-> Hrest].
  destruct (_ =? _); [done|]. apply tame_bind.
  { apply tame_string_at. destruct Hrest as [[rest' ->]| ->]; zlen_lia. }
  intros c _. repeat (destruct (decide _); [done|]).
  destruct (regex_int s) eqn:Hr; [|done]. apply tame_bind; [by apply tame_stol; left|done].
Qed.

Lemma decode_string_tame tokens index : tame (decode_string tokens index).
Proof.
  unfold decode_string. destruct (_ <? 3); [done|].
  destruct (take_until _ _ _) as [s i1] eqn:E.
  destruct (regex_digits s) eqn:Hr; [|done]. apply tame_bind; [by apply tame_stol; right|].
  intros n _. destruct (take_chars _ _ _). by destruct (_ || _).
Qed.

Section NoTrailingDigit.
Context (tokens : bytes) (Hlast : ends_in_digit tokens = false).

(** Results stay inside the input. *)
Lemma decode_value_bounds fuel index v index' :
0 <= index -> decode_value fuel tokens index = Ret (OK v, index') ->
0 <= index' <= zlen tokens.
Proof using Hlast.
intros Hi H. apply decode_sound in H as [(pre & s & rest & -> & _ & -> & _)|[_ Hd]];
  [zlen_lia|congruence|done].
Qed.

Lemma decode_tame fuel :
(forall index, 0 <= index <= zlen tokens -> tame (decode_value fuel tokens index)) /\
(forall index, 0 <= index < zlen tokens ->
   tame (decode_list fuel tokens index) /\ tame (decode_dict fuel tokens index)) /\
(forall index, 0 <= index <= zlen tokens ->
   (forall ptr, tame (list_loop fuel tokens index ptr)) /\
   (forall ptr keys, tame (dict_loop fuel tokens index ptr keys))).
Proof using Hlast.
induction fuel as [|fuel (IHv & IHc & IHl)]; [done|]. split_and!.
- intros index Hi. cbn [decode_value]. destruct tokens as [|c0 t0] eqn:Et; [done|].
  rewrite <- Et in *. clear Et. apply tame_bind; [by apply tame_string_at|]. intros c Hc.
  destruct (string_at_ret tokens index c ltac:(lia) Hc) as [[_ ->]|(pre & rest & Ht & Hp)]; [done|].
  destruct (decide (c = "i"%byte)) as [->|].
  { rewrite Ht, Hp. apply decode_int_tame. }
  destruct (isdigit c); [apply decode_string_tame|].
  assert (0 <= index < zlen tokens) by (rewrite Ht, Hp; zlen_lia).
  repeat (destruct (decide _); [by apply IHc|]). done.
- intros index Hi. cbn [decode_list decode_dict]. destruct (_ <? 2); [done|].
  destruct (IHl (index + 1) ltac:(lia)) as [IHl1 IHd1].
  assert (H1 : 0 <= index + 1) by lia.
  split; (apply tame_bind; [auto|]); intros [[r|] i1] Hr; try done.
  + destruct (Z.leb_spec (zlen tokens) i1) as [|Hlt]; [done|].
    destruct (proj1 (proj2 (decode_sound fuel)) _ _ _ _ _ H1 Hr Hlt)
      as (p & s & r' & vs & Ht & _ & Hi1 & _).
    apply tame_bind; [apply tame_string_at; zlen_pos; lia|]. intros c _. by destruct (decide _).
  + destruct r as [m keys]. destruct (Z.leb_spec (zlen tokens) i1) as [|Hlt]; [done|].
    destruct (proj2 (proj2 (decode_sound fuel)) _ _ _ _ _ _ _ H1 Hr Hlt)
      as (p & s & r' & vs & Ht & _ & Hi1 & _).
    apply tame_bind; [apply tame_string_at; zlen_pos; lia|]. intros c _.
    destruct (decide _); [done|]. by destruct (keys_unordered _).
- intros index Hi. cbn [list_loop dict_loop].
  assert (Hnext : forall v i i', 0 <= i ->
            decode_value fuel tokens i = Ret (OK v, i') -> 0 <= i' <= zlen tokens).
  { intros. eapply decode_value_bounds; eauto. }
  destruct (Z.ltb_spec index (zlen tokens)); [|done]. split.
  + intros ptr. apply tame_bind; [by apply tame_string_at|]. intros c _.
    destruct (decide _); [done|]. apply tame_bind; [auto|].
    intros [[v|] i1] Hv; [|done]. apply IHl. eapply Hnext; [|done]. lia.
  + intros ptr keys. apply tame_bind; [by apply tame_string_at|]. intros c _.
    destruct (decide _); [done|]. apply tame_bind; [auto|].
    intros [[k|] i1] Hk; [|done]. apply Hnext in Hk; [|lia].
    destruct (decide (get_type k <> TString)) as [|Hk']; [done|].
    apply tame_bind; [auto|]. intros [[v|] i2] Hv; [|done]. apply Hnext in Hv; [|lia].
    apply dec_stable in Hk'. destruct k; try done. by apply IHl.
Qed.

End NoTrailingDigit.

(** ** Well-formed values *)

(** What every constructed value satisfies: integers fit [int64_t], strings fit
    their length, and a dictionary is sorted by key without duplicates. *)
Inductive wf_value : BencodeValue -> Prop :=
| wf_int z : in_i64 z = true -> wf_value (BencodeInt z)
| wf_string s : in_i64 (zlen s) = true -> wf_value (BencodeString s)
| wf_list l : Forall wf_value l -> wf_value (BencodeList l)
| wf_dict d :
    keys_sorted d -> Forall (fun kv => in_i64 (zlen kv.1) = true /\ wf_value kv.2) d ->
    wf_value (BencodeDict d).

(** Induction over the nested lists of a value. *)
Lemma wf_value_nested (P : BencodeValue -> Prop) :
  (forall z, in_i64 z = true -> P (BencodeInt z)) ->
  (forall s, in_i64 (zlen s) = true -> P (BencodeString s)) ->
  (forall l, Forall P l -> P (BencodeList l)) ->
  (forall d, keys_sorted d -> Forall (fun kv => in_i64 (zlen kv.1) = true /\ P kv.2) d ->
     P (BencodeDict d)) ->
  forall v, wf_value v -> P v.
Proof.
  intros Hi Hs Hl Hd. fix IH 2. intros v [z Hz|s Hz|l Hw|d Hk Hw].
  - by apply Hi.
  - by apply Hs.
  - apply Hl. induction Hw; constructor; auto.
  - apply Hd; [done|]. induction Hw as [|kv d [Hkv Hv] Hw IHd]; constructor; auto.
    apply IHd. unfold keys_sorted in *. by inversion_clear Hk.
Qed.

(** Strictly increasing keys. *)
Lemma keys_sorted_lex keys : StronglySorted str_lt keys <-> Sorted lex_lt keys.
Proof.
  split.
  - intros H%StronglySorted_Sorted. induction H as [|k keys _ IH Hh]; constructor; [done|].
    destruct Hh; constructor. by apply str_lt_lex.
  - intros H. apply Sorted_StronglySorted; [intros a b c; apply str_lt_trans|].
    induction H as [|k keys _ IH Hh]; constructor; [done|]. destruct Hh; constructor. by apply str_lt_lex.
Qed.

Lemma keys_sorted_ordered keys : StronglySorted str_lt keys -> Sorted lex_le keys.
Proof.
  intros H%keys_sorted_lex. induction H as [|k keys _ IH Hh]; constructor; [done|].
  destruct Hh as [|k' keys' [Hk _]]; by constructor.
Qed.

Lemma benc_string_encode s : in_i64 (zlen s) = true -> benc (BencodeString s) (bto_string (BencodeString s)).
Proof.
  intros Hs. cbn [bto_string]. rewrite to_string_nonneg by zlen_lia.
  apply (benc_string (digits (zlen s)) s); [apply regex_digits_digits; zlen_lia| |done].
  apply digits_spec. zlen_lia.
Qed.

Lemma encode_benc v : wf_value v -> benc v (encode v).
Proof.
  unfold encode. intros Hw. induction Hw as [z Hz|s Hs|l Hl|d Hk Hd] using wf_value_nested.
  - cbn [bto_string]. rewrite <- (int_val_to_string z) at 1.
    apply (benc_int (to_string z)); [apply regex_int_to_string|apply to_string_not_minus_zero|].
    by rewrite int_val_to_string.
  - by apply benc_string_encode.
  - cbn [bto_string]. apply (benc_list l).
    induction Hl; simpl; auto with furrent.
  - cbn [bto_string]. rewrite <- (map_inserts_sorted_id d []) at 1 by done.
    rewrite map_inserts_entries by (by apply keys_sorted_ordered).
    apply (benc_dict d); [|by apply keys_sorted_ordered].
    clear Hk. induction Hd as [|[k v] d [Hkz Hv] Hd IH]; simpl; [constructor|].
    rewrite <- app_assoc. constructor; [|done|done]. by apply benc_string_encode.
Qed.

Lemma map_insert_elem {V} k (v : V) m kv :
  kv ∈ map_insert k v m -> kv = (k, v) \/ kv ∈ m.
Proof.
  induction m as [|[k' v'] m IH]; simpl; [set_solver|].
  destruct (bytes_compare k k'); set_solver.
Qed.

Lemma map_inserts_elem {V} kvs (m : list (bytes * V)) kv :
  kv ∈ map_inserts kvs m -> kv ∈ kvs \/ kv ∈ m.
Proof.
  revert m. induction kvs as [|[k v] kvs IH]; intros m; simpl; [auto|].
  intros [H|H]%IH; [set_solver|]. apply map_insert_elem in H. set_solver.
Qed.

Lemma benc_wf :
  (forall v s, benc v s -> wf_value v) /\
  (forall vs s, benc_seq vs s -> Forall wf_value vs) /\
  (forall kvs s, benc_pairs kvs s ->
     Forall (fun kv => in_i64 (zlen kv.1) = true /\ wf_value kv.2) kvs).
Proof.
  apply benc_ind3; try (intros; constructor; done).
  - intros kvs s _ IH Hord. rewrite <- map_inserts_entries by done. constructor.
    + apply map_inserts_sorted. constructor.
    + apply Forall_forall. intros kv Hkv. rewrite Forall_forall in IH.
      apply map_inserts_elem in Hkv as [Hkv|Hkv]; [auto|set_solver].
  - intros k v kvs s1 s2 s3 _ Hk _ Hv _ Hkvs. constructor; [|done].
    split; [|done]. by inversion Hk.
Qed.

(** ** Standard bencode *)

(** The format of BEP 3, within the range of [int64_t]: numerals without leading
    zeros, and the keys of a dictionary strictly increasing. *)
Inductive bep3 : BencodeValue -> bytes -> Prop :=
| bep3_int s :
    regex_int s = true -> plain_int s -> in_i64 (int_val s) = true ->
    bep3 (BencodeInt (int_val s)) ("i"%byte :: s ++ ["e"%byte])
| bep3_string len s :
    regex_digits len = true -> no_leading_zero len -> digits_val len = zlen s -> in_i64 (zlen s) = true ->
    bep3 (BencodeString s) (len ++ ":"%byte :: s)
| bep3_list vs s :
    bep3_seq vs s -> bep3 (BencodeList vs) ("l"%byte :: s ++ ["e"%byte])
| bep3_dict kvs s :
    bep3_pairs kvs s -> Sorted lex_lt (map fst kvs) ->
    bep3 (BencodeDict kvs) ("d"%byte :: s ++ ["e"%byte])

with bep3_seq : list BencodeValue -> bytes -> Prop :=
| bep3_seq_nil : bep3_seq [] []
| bep3_seq_cons v vs s1 s2 :
    bep3 v s1 -> bep3_seq vs s2 -> bep3_seq (v :: vs) (s1 ++ s2)

with bep3_pairs : list (bytes * BencodeValue) -> bytes -> Prop :=
| bep3_pairs_nil : bep3_pairs [] []
| bep3_pairs_cons k v kvs s1 s2 s3 :
    bep3 (BencodeString k) s1 -> bep3 v s2 -> bep3_pairs kvs s3 ->
    bep3_pairs ((k, v) :: kvs) (s1 ++ s2 ++ s3).

Scheme bep3_mut := Induction for bep3 Sort Prop
  with bep3_seq_mut := Induction for bep3_seq Sort Prop
  with bep3_pairs_mut := Induction for bep3_pairs Sort Prop.
Combined Scheme bep3_ind3 from bep3_mut, bep3_seq_mut, bep3_pairs_mut.

(** A standard text is the encoding of its value. *)
Lemma bep3_encode :
  (forall v s, bep3 v s -> wf_value v /\ s = encode v) /\
  (forall vs s, bep3_seq vs s -> Forall wf_value vs /\ s = concat (map bto_string vs)) /\
  (forall kvs s, bep3_pairs kvs s ->
     Forall (fun kv => in_i64 (zlen kv.1) = true /\ wf_value kv.2) kvs /\
     s = concat (map (fun kv => (to_string (zlen kv.1) ++ str ":" ++ kv.1) ++ bto_string kv.2) kvs)).
Proof.
  unfold encode. apply bep3_ind3; cbn [bto_string map concat fst snd].
  - intros s Hr Hp Hz. split; [by constructor|]. by rewrite <- (proj1 (int_canonical s Hr) Hp).
  - intros len s Hr Hp Hv Hz. split; [by constructor|]. rewrite to_string_nonneg, <- Hv by zlen_lia.
    by rewrite <- (proj1 (digits_canonical len Hr) Hp).
  - intros vs s _ [Hw ->]. split; [by constructor|done].
  - intros kvs s _ [Hw ->] Hs. split; [|done]. constructor; [by apply keys_sorted_lex|done].
  - by split; [constructor|].
  - intros v vs s1 s2 _ [Hv ->] _ [Hvs ->]. by split; [constructor|].
  - by split; [constructor|].
  - intros k v kvs s1 s2 s3 _ [Hk ->] _ [Hv ->] _ [Hkvs ->]. inversion_clear Hk.
    split; [by constructor|]. by rewrite <- !app_assoc.
Qed.

Lemma bep3_string_encode s :
  in_i64 (zlen s) = true -> bep3 (BencodeString s) (bto_string (BencodeString s)).
Proof.
  intros Hs. cbn [bto_string]. rewrite to_string_nonneg by zlen_lia.
  pose proof (regex_digits_digits (zlen s) ltac:(zlen_lia)) as Hr.
  destruct (digits_spec (zlen s) ltac:(zlen_lia)) as (Hv & _).
  apply (bep3_string (digits (zlen s)) s); [done| |done|done]. apply digits_canonical; [done|]. by rewrite Hv.
Qed.

Lemma encode_bep3 v : wf_value v -> bep3 v (encode v).
Proof.
  unfold encode. intros Hw. induction Hw as [z Hz|s Hs|l Hl|d Hk Hd] using wf_value_nested; cbn [bto_string].
  - rewrite <- (int_val_to_string z) at 1. pose proof (regex_int_to_string z) as Hr.
    apply (bep3_int (to_string z)); [done| |by rewrite int_val_to_string].
    apply int_canonical; [done|]. by rewrite int_val_to_string.
  - by apply bep3_string_encode.
  - apply (bep3_list l). induction Hl; simpl; by constructor.
  - apply (bep3_dict d); [|by apply keys_sorted_lex]. clear Hk.
    induction Hd as [|[k v] d [Hkz Hv] Hd IH]; simpl; [constructor|].
    rewrite <- app_assoc. constructor; [|done|done]. by apply bep3_string_encode.
Qed.

(** A text denotes at most one value. *)
Lemma benc_functional v1 v2 s : benc v1 s -> benc v2 s -> v1 = v2.
Proof.
  intros H1 H2. set (fuel := S (3 * length s)).
  assert (Hf : enough fuel (zlen s) 1) by (unfold enough, fuel, zlen; lia).
  pose proof (proj1 decode_complete _ _ H1 fuel [] ["e"%byte] Hf ltac:(done)) as E1.
  pose proof (proj1 decode_complete _ _ H2 fuel [] ["e"%byte] Hf ltac:(done)) as E2.
  congruence.
Qed.

(** The only text shorter than the parser's minimum for strings. *)
Lemma benc_short b s : benc (BencodeString b) s -> s <> str "0:" -> 3 <= zlen s.
Proof.
  inversion 1 as [|len b' Hr Hv Hin| |]; subst. intros Hne.
  apply regex_digits_forallb in Hr as [Hd Hl].
  destruct (decide (3 <= zlen (len ++ ":"%byte :: b))) as [|Hlt]; [done|]. exfalso.
  destruct len as [|c len]; [done|]. autorewrite with furrent in Hlt. zlen_pos.
  assert (len = []) as -> by (apply zlen_0_nil; lia).
  assert (b = []) as -> by (apply zlen_0_nil; lia).
  apply Hne. change (b2z c - 48 = 0) in Hv. simpl in Hd. rewrite andb_true_r in Hd. apply isdigit_range in Hd.
  assert (b2z c = 48) as Hc by lia.
  change 48 with (b2z "0"%byte) in Hc. by apply b2z_inj in Hc as ->.
Qed.

Lemma decode_of_benc v s :
  zlen s <= int64_max -> benc v s -> s <> str "0:" -> decode s = Ret (OK v).
Proof.
  intros Hlen Hb Hne. unfold decode. destruct (Z.ltb_spec int64_max (zlen s)); [lia|].
  assert (Hf : enough (decode_fuel s) (zlen s) 1) by (unfold enough, decode_fuel, zlen; lia).
  pose proof (proj1 decode_complete _ _ Hb (decode_fuel s) [] [] Hf) as E.
  rewrite app_nil_l, app_nil_r, zlen_nil in E. rewrite E.
  - run_bind. rewrite app_nil_l, Z.eqb_refl. done.
  - intros _. destruct v as [|b| |]; [right; done| |right; done..]. left. by eapply benc_short.
Qed.

Lemma benc_of_decode v s : decode s = Ret (OK v) -> benc v s /\ s <> str "0:".
Proof.
  unfold decode. destruct (int64_max <? zlen s); [done|]. intros H.
  apply bind_ret in H as ([[v'|] i] & Hv & H); [|naive_solver]. simpl in H.
  destruct (Z.eqb_spec i (zlen s)) as [->|]; [|naive_solver]. simpl in H.
  injection H as ->. split; [|by intros ->].
  apply decode_sound in Hv as [(pre & s' & rest & -> & Hp & Hi & Hb)|[Hi _]]; [|lia|done].
  symmetry in Hp. apply zlen_0_nil in Hp as ->. rewrite app_nil_l in *.
  assert (rest = []) as -> by (apply zlen_0_nil; zlen_lia). by rewrite app_nil_r.
Qed.

Lemma decode_nofuel s : decode s <> NoFuel.
Proof.
  unfold decode. destruct (int64_max <? zlen s); [done|]. apply bind_nofuel.
  - apply decode_terminates; [lia|]. unfold enough, left_of, decode_fuel, zlen. lia.
  - intros [r i] _. by destruct (_ && _).
Qed.

(** Encoding and parsing a well-formed value gives it back. *)
Lemma decode_encode_ok v :
  wf_value v -> v <> BencodeString [] -> zlen (encode v) <= int64_max ->
  decode (encode v) = Ret (OK v).
Proof.
  intros Hw Hne Hlen. apply decode_of_benc; [done|by apply encode_benc|].
  intros E. apply Hne. pose proof (encode_benc _ Hw) as Hb. rewrite E in Hb.
  eapply benc_functional; [exact Hb|]. exact (benc_string_encode [] eq_refl).
Qed.

(** ** Claims *)

(** C19: round trip. Encoding any well-formed value and parsing the text gives
    the value back, for every value except the empty string at top level. *)
Theorem decode_encode v :
  wf_value v -> v <> BencodeString [] -> zlen (encode v) <= int64_max ->
  decode (encode v) = Ret (OK v).
Proof. apply decode_encode_ok. Qed.

(** The nested value the witnesses use. *)
Definition sample : BencodeValue :=
  BencodeDict [(str "a", BencodeList [BencodeInt (-42); BencodeString []]);
               (str "b", BencodeInt 7)].

Lemma sample_wf : wf_value sample.
Proof.
  constructor.
  - repeat constructor.
  - repeat (constructor || split); done.
Qed.

Lemma decode_encode_witness : decode (encode sample) = Ret (OK sample).
Proof.
  apply decode_encode.
  - exact sample_wf.
  - discriminate.
  - vm_compute. discriminate.
Defined.

(** C18: refinement. The parser accepts exactly the texts of the grammar [benc],
    with the value the grammar gives them; the text "0:" is the one exception. The
    grammar has lexicographically ordered keys, admits leading zeros and repeated
    keys, and gives a dictionary the first value of each key. *)
Theorem decode_refines_grammar s v :
  zlen s <= int64_max -> (decode s = Ret (OK v) <-> benc v s /\ s <> str "0:").
Proof.
  intros Hlen. split; [apply benc_of_decode|]. intros [Hb Hne]. by apply decode_of_benc.
Qed.

Lemma decode_refines_grammar_witness :
  decode (str "i-7e") = Ret (OK (BencodeInt (-7))) <->
  benc (BencodeInt (-7)) (str "i-7e") /\ str "i-7e" <> str "0:".
Proof. apply decode_refines_grammar. vm_compute. discriminate. Defined.

(** C20: termination and safety. Whatever the input, the loops and the recursion of
    the parser end; and on an input that does not end in a digit it has no
    undefined behaviour, and the only exception that escapes is the one of
    [std::stol] for a number that does not fit [long]. *)
Theorem decode_safe s :
  decode s <> NoFuel /\
  (zlen s <= int64_max -> ends_in_digit s = false ->
   (exists r, decode s = Ret r) \/ decode s = Throw (out_of_range "stol")).
Proof.
  split; [apply decode_nofuel|]. intros Hlen Hd. unfold decode. destruct (Z.ltb_spec int64_max (zlen s)); [lia|].
  pose proof (proj1 (decode_tame s Hd (decode_fuel s)) 0 ltac:(zlen_lia)) as Ht.
  pose proof (proj1 (decode_terminates (decode_fuel s)) s 0 ltac:(lia)) as Hn.
  specialize (Hn ltac:(unfold enough, left_of, decode_fuel, zlen; lia)).
  destruct (decode_value _ _ _) as [[r i]|e|u|]; simpl in Ht; try done.
  - left. run_bind. destruct (_ && _); eauto.
  - right. cbn. by rewrite Ht.
Qed.

Lemma decode_safe_witness :
  (exists r, decode (str "d3:fooi1e") = Ret r) \/
  decode (str "d3:fooi1e") = Throw (out_of_range "stol").
Proof. apply (proj2 (decode_safe (str "d3:fooi1e"))); [vm_compute; discriminate|reflexivity]. Defined.

(** C21: standard texts. A text is standard bencode for a value exactly when the
    parser reads that value from it and the encoder gives the text back (the empty
    string at top level excepted). So the digest of a re-encoded dictionary is the
    digest of its text if and only if the text is standard; the parser accepts other
    texts too: numbers with leading zeros, and repeated keys, of which it keeps the
    first. *)
Theorem decode_canonical :
  (forall s v, zlen s <= int64_max -> s <> str "0:" ->
     (bep3 v s <-> decode s = Ret (OK v) /\ encode v = s)) /\
  decode (str "i03e") = Ret (OK (BencodeInt 3)) /\
  decode (str "d1:ai1e1:ai2ee") = Ret (OK (BencodeDict [(str "a", BencodeInt 1)])).
Proof.
  split; [|by vm_compute]. intros s v Hlen Hne. split.
  - intros [Hw E]%(proj1 bep3_encode). split; [|done]. apply decode_of_benc; [done| |done].
    rewrite E. by apply encode_benc.
  - intros [[Hb _]%benc_of_decode <-]. apply encode_bep3. by apply (proj1 benc_wf) in Hb.
Qed.

Lemma decode_canonical_witness :
  bep3 (BencodeInt (-42)) (str "i-42e") <->
  decode (str "i-42e") = Ret (OK (BencodeInt (-42))) /\ encode (BencodeInt (-42)) = str "i-42e".
Proof.
  apply (proj1 decode_canonical); [vm_compute; discriminate|discriminate].
Defined.

(** Two well-formed values with the same encoding are equal, so the text
    hashed for the info hash identifies the dictionary. *)
Theorem encode_injective v1 v2 :
  wf_value v1 -> wf_value v2 -> encode v1 = encode v2 -> v1 = v2.
Proof.
  intros H1 H2 E. apply encode_benc in H1, H2. rewrite E in H1.
  by eapply benc_functional.
Qed.

Lemma encode_injective_witness : sample = sample.
Proof. apply encode_injective; [exact sample_wf|exact sample_wf|reflexivity]. Defined.

Lemma take_until_all stop s index :
  stop ∉ s -> take_until stop s index = (s, index + zlen s).
Proof.
  revert index. induction s as [|c s IH]; intros index Hs; simpl.
  - by rewrite zlen_nil, Z.add_0_r.
  - rewrite decide_False by set_solver. rewrite IH by set_solver.
    rewrite zlen_cons. f_equal. lia.
Qed.

Lemma digits_val_zeros n : digits_val (replicate n "0"%byte) = 0.
Proof.
  induction n as [|n IH]; [done|]. by rewrite replicate_S_end, digits_val_snoc, IH.
Qed.

Lemma regex_digits_zeros n : (0 < n)%nat -> regex_digits (replicate n "0"%byte) = true.
Proof.
  intros Hn. apply regex_digits_forallb. split; [|by destruct n; [lia|]].
  clear Hn. by induction n.
Qed.

(** An unterminated length of zeros is read as an empty string that ends beyond
    the input. *)
Lemma decode_string_overrun pre n :
  (3 <= n)%nat ->
  decode_string (pre ++ replicate n "0"%byte) (zlen pre) =
  Ret (OK (BencodeString []), zlen (pre ++ replicate n "0"%byte) + 1).
Proof.
  intros Hn. unfold decode_string.
  destruct (Z.ltb_spec (zlen (pre ++ replicate n "0"%byte) - zlen pre) 3); [zlen_lia|].
  rewrite from_app, take_until_all.
  2:{ intros H'. apply elem_of_replicate in H'. naive_solver. }
  rewrite regex_digits_zeros by lia. cbn [negb].
  rewrite stol_digits, digits_val_zeros by (apply regex_digits_zeros; lia).
  change (in_i64 0) with true. run_bind. rewrite take_chars_spec.
  cbn. do 2 f_equal. zlen_lia.
Qed.

(** A dictionary that ends in an unterminated run of three zeros or more
    makes the parser read past the terminating NUL of the input. *)
Theorem decode_dict_overrun n :
  (3 <= n)%nat -> Z.of_nat n < int64_max ->
  decode (str "d" ++ replicate n "0"%byte) = Undef OutOfBounds.
Proof.
  intros Hn Hmax. change (str "d") with ["d"%byte].
  set (t := ["d"%byte] ++ replicate n "0"%byte).
  assert (Ht : zlen t = Z.of_nat n + 1) by (unfold t; zlen_lia).
  unfold decode. destruct (Z.ltb_spec int64_max (zlen t)); [lia|].
  assert (Hf : exists f, decode_fuel t = S (S (S (S f)))).
  { exists (length t * 3 - 3)%nat. unfold decode_fuel, zlen in *. lia. }
  destruct Hf as [f ->].
  pose proof (decode_value_d (S (S (S f))) [] (replicate n "0"%byte)) as E.
  change ([] ++ "d"%byte :: replicate n "0"%byte) with t in E. rewrite zlen_nil in E. rewrite E.
  cbn [decode_dict]. destruct (Z.ltb_spec (zlen t - 0) 2); [lia|].
  change (0 + 1) with (zlen ["d"%byte]).
  assert (Hk : decode_value (S f) t (zlen ["d"%byte]) = Ret (OK (BencodeString []), zlen t + 1)).
  { unfold t. destruct n as [|n]; [lia|]. cbn [replicate]. rewrite decode_value_digit by done.
    by apply (decode_string_overrun ["d"%byte] (S n)). }
  assert (Ht' : t = ["d"%byte] ++ "0"%byte :: replicate (pred n) "0"%byte).
  { unfold t. by destruct n; [lia|]. }
  clearbody t. rewrite Ht' in *.
  rewrite (dict_loop_key _ _ "0"%byte _ _ _ [] _ ltac:(done) Hk). by rewrite decode_value_over.
Qed.

Lemma decode_dict_overrun_witness : decode (str "d000") = Undef OutOfBounds.
Proof. apply (decode_dict_overrun 3); [lia|vm_compute; reflexivity]. Defined.
