(* ===== verification/Wire.v ===== *)
(** * Wire: 32-bit integers on the wire (src/download/util.cpp)

    Big-endian encoding of the unsigned 32-bit integers of the peer protocol,
    carried by [int64_t] in the program. *)
From S2P Require Import Prelude.
Local Open Scope Z_scope.

(** ** Operations *)

(** The loop of [encode_integer]: bytes [i - 1] down to [0] of the result. *)
Fixpoint encode_integer_loop (i : nat) (encode_me : Z) (result : bytes) : bytes :=
  match i with
  | O => result
  | S i => encode_integer_loop i (Z.shiftr encode_me 8) (<[i := u8 (Z.land encode_me 255)]> result)
  end.

(** [encode_integer]. *)
Definition encode_integer (n : Z) : cxx bytes :=
  if n <? 0 then Throw (invalid_argument "expected positive integer")
  else if uint32_max <? n then Throw (invalid_argument "integer is too big")
  else Ret (encode_integer_loop 4 (u32 n) (replicate 4 x00)).

(** One iteration of [decode_integer]: the shifted byte is converted to
    [uint32_t]. *)
Definition decode_integer_step (buf : bytes) (result : Z) (i : nat) : Z :=
  Z.lor result (u32 (Z.shiftl (b2z (nth i buf x00)) (8 * (3 - Z.of_nat i)))).

(** [decode_integer] on a [std::array<uint8_t, 4>]. *)
Definition decode_integer (buf : bytes) : Z :=
  fold_left (decode_integer_step buf) [0; 1; 2; 3]%nat 0.

(** ** Lemmas *)

Lemma lor_disjoint a b k : 0 <= k -> 0 <= b < 2 ^ k -> Z.lor (a * 2 ^ k) b = a * 2 ^ k + b.
Proof.
  intros Hk Hb. symmetry. apply Z.add_nocarry_lor.
  apply Z.bits_inj'. intros i Hi. rewrite Z.land_spec, Z.bits_0.
  destruct (Z.ltb_spec i k).
  - by rewrite Z.mul_pow2_bits_low.
  - rewrite <- (Z.mod_small b (2 ^ k)) by done.
    rewrite Z.mod_pow2_bits_high by lia. by rewrite andb_false_r.
Qed.

(** The value of four bytes, most significant first. *)
Definition be32 (b0 b1 b2 b3 : byte) : Z :=
  b2z b0 * 2 ^ 24 + b2z b1 * 2 ^ 16 + b2z b2 * 2 ^ 8 + b2z b3.

Lemma be32_range b0 b1 b2 b3 : 0 <= be32 b0 b1 b2 b3 < 2 ^ 32.
Proof.
  unfold be32. pose proof (b2z_range b0). pose proof (b2z_range b1).
  pose proof (b2z_range b2). pose proof (b2z_range b3). lia.
Qed.

Lemma decode_integer_be32 b0 b1 b2 b3 : decode_integer [b0; b1; b2; b3] = be32 b0 b1 b2 b3.
Proof.
  unfold decode_integer, decode_integer_step. cbn [fold_left nth].
  pose proof (b2z_range b0). pose proof (b2z_range b1).
  pose proof (b2z_range b2). pose proof (b2z_range b3).
  change (8 * (3 - Z.of_nat 0)) with 24. change (8 * (3 - Z.of_nat 1)) with 16.
  change (8 * (3 - Z.of_nat 2)) with 8. change (8 * (3 - Z.of_nat 3)) with 0.
  rewrite Z.lor_0_l, Z.shiftl_0_r, !Z.shiftl_mul_pow2 by lia. unfold u32.
  rewrite !(Z.mod_small _ (2 ^ 32)) by lia. rewrite lor_disjoint by lia.
  replace (b2z b0 * 2 ^ 24 + b2z b1 * 2 ^ 16)
    with ((b2z b0 * 2 ^ 8 + b2z b1) * 2 ^ 16) by lia.
  rewrite lor_disjoint by lia.
  replace ((b2z b0 * 2 ^ 8 + b2z b1) * 2 ^ 16 + b2z b2 * 2 ^ 8)
    with (((b2z b0 * 2 ^ 8 + b2z b1) * 2 ^ 8 + b2z b2) * 2 ^ 8) by lia.
  rewrite lor_disjoint by lia. unfold be32. lia.
Qed.

Lemma encode_integer_ok n :
  0 <= n <= uint32_max ->
  encode_integer n = Ret [u8 (n / 2 ^ 24); u8 (n / 2 ^ 16); u8 (n / 2 ^ 8); u8 n].
Proof.
  unfold uint32_max. intros Hn. unfold encode_integer, uint32_max.
  destruct (Z.ltb_spec n 0); [lia|]. destruct (Z.ltb_spec (2 ^ 32 - 1) n); [lia|].
  unfold u32. rewrite Z.mod_small by lia. f_equal. cbn [encode_integer_loop].
  rewrite !Z.shiftr_shiftr by lia. cbn [replicate insert list_insert].
  rewrite !Z.shiftr_div_pow2 by lia.
  assert (Hb : forall z, u8 (Z.land z 255) = u8 z).
  { intros z. apply b2z_inj. rewrite !b2z_u8. change 255 with (Z.ones 8).
    rewrite Z.land_ones by lia. apply Z.mod_mod. lia. }
  by rewrite !Hb.
Qed.

Lemma encode_integer_zlen n bs : encode_integer n = Ret bs -> length bs = 4%nat.
Proof.
  unfold encode_integer. destruct (n <? 0); [done|]. destruct (uint32_max <? n); [done|].
  intros [= <-]. reflexivity.
Qed.

Lemma decode_encode_int n bs : encode_integer n = Ret bs -> decode_integer bs = n.
Proof.
  intros H. destruct (decide (0 <= n <= uint32_max)) as [Hn|Hn].
  - rewrite encode_integer_ok in H by done. injection H as <-.
    rewrite decode_integer_be32. unfold be32. rewrite !b2z_u8. unfold uint32_max in Hn.
    Z.div_mod_to_equations. lia.
  - exfalso. unfold encode_integer in H.
    destruct (Z.ltb_spec n 0); [done|]. destruct (Z.ltb_spec uint32_max n); [done|lia].
Qed.

Lemma encode_decode_int b0 b1 b2 b3 :
  encode_integer (decode_integer [b0; b1; b2; b3]) = Ret [b0; b1; b2; b3].
Proof.
  rewrite decode_integer_be32. pose proof (be32_range b0 b1 b2 b3).
  rewrite encode_integer_ok by (unfold uint32_max; lia).
  assert (Hd : forall x b, u8 (x * 256 + b2z b) = b).
  { intros x b. apply b2z_inj. rewrite b2z_u8, Z.add_comm, Z.mod_add by lia.
    apply Z.mod_small, b2z_range. }
  unfold be32. pose proof (b2z_range b0). pose proof (b2z_range b1).
  pose proof (b2z_range b2). pose proof (b2z_range b3). repeat f_equal.
  - rewrite <- (u8_b2z b0) at 2. f_equal. Z.div_mod_to_equations. lia.
  - rewrite <- (Hd (b2z b0) b1) at 2. f_equal. Z.div_mod_to_equations. lia.
  - rewrite <- (Hd (b2z b0 * 256 + b2z b1) b2) at 2. f_equal. Z.div_mod_to_equations. lia.
  - rewrite <- (Hd ((b2z b0 * 256 + b2z b1) * 256 + b2z b2) b3) at 2. f_equal. lia.
Qed.

(** ** Claims *)

(** The wire integers round trip in both directions: decoding what
    [encode_integer] produced gives the integer, and re-encoding any four
    received bytes gives those bytes. *)
Theorem integer_round_trip :
  (forall n bs, encode_integer n = Ret bs -> length bs = 4%nat /\ decode_integer bs = n) /\
  (forall b0 b1 b2 b3,
     encode_integer (decode_integer [b0; b1; b2; b3]) = Ret [b0; b1; b2; b3]).
Proof.
  split.
  - eauto using encode_integer_zlen, decode_encode_int.
  - intros. apply encode_decode_int.
Qed.

Lemma integer_round_trip_witness : decode_integer [x00; x00; x40; x00] = 16384.
Proof. apply (proj1 integer_round_trip 16384). vm_compute. reflexivity. Defined.

(** Bounds. [encode_integer] succeeds exactly on the 32-bit unsigned range
    and throws [std::invalid_argument] outside it; a decoded integer is always
    in that range, so it fits [int64_t]. *)
Theorem integer_bounds n :
  ((exists bs, encode_integer n = Ret bs) <-> 0 <= n < 2 ^ 32) /\
  (n < 0 -> encode_integer n = Throw (invalid_argument "expected positive integer")) /\
  (2 ^ 32 <= n -> encode_integer n = Throw (invalid_argument "integer is too big")) /\
  (forall b0 b1 b2 b3, 0 <= decode_integer [b0; b1; b2; b3] < 2 ^ 32).
Proof.
  split_and!.
  - split.
    + intros [bs Hbs]. unfold encode_integer, uint32_max in Hbs.
      destruct (Z.ltb_spec n 0); [done|]. destruct (Z.ltb_spec (2 ^ 32 - 1) n); [done|lia].
    + intros Hn. rewrite encode_integer_ok by (unfold uint32_max; lia). eauto.
  - intros Hn. unfold encode_integer. destruct (Z.ltb_spec n 0); [done|lia].
  - intros Hn. unfold encode_integer, uint32_max. destruct (Z.ltb_spec n 0); [lia|].
    destruct (Z.ltb_spec (2 ^ 32 - 1) n); [done|lia].
  - intros. rewrite decode_integer_be32. apply be32_range.
Qed.

Lemma integer_bounds_witness :
  encode_integer (-1) = Throw (invalid_argument "expected positive integer").
Proof. apply (integer_bounds (-1)). lia. Defined.
