(* ===== verification/Bitfield.v ===== *)
(** * Bitfield: the pieces a peer has (src/download/bitfield.hpp, bitfield.cpp)

    A bit array over a byte vector, most significant bit first. [bits] is the
    list of booleans it stands for; [get] and [set] are lookup and update of
    that list. *)
From S2P Require Import Prelude.
Local Open Scope Z_scope.

(** ** Data and operations *)

Record Bitfield : Type := mkBitfield { len : Z; storage : bytes }.

#[export] Instance Bitfield_eq_dec : EqDecision Bitfield.
Proof. solve_decision. Defined.

(** [byte_index], [byte_offset]: C++ division and remainder truncate. *)
Definition byte_index (bit_index : Z) : Z := Z.quot bit_index 8.
Definition byte_offset (bit_index : Z) : Z := Z.rem bit_index 8.

Definition assert_within_bounds (len index : Z) : cxx unit :=
  if index <? 0 then Throw (invalid_argument "index less than zero")
  else if len <=? index then Throw (invalid_argument "index too large for this bitfield")
  else Ret tt.

Definition INDEX_ZERO : Z := Z.lor 0 (Z.shiftl 1 7).

(** [INDEX_ZERO >> byte_offset(index)]. *)
Definition mask (index : Z) : Z := Z.shiftr INDEX_ZERO (byte_offset index).

(** [Bitfield(int64_t len)]. *)
Definition Bitfield_new (len : Z) : cxx Bitfield :=
  if len <? 0 then Throw (invalid_argument "expected positive length")
  else n ← i64 (len + 7); Ret (mkBitfield len (replicate (Z.to_nat (Z.quot n 8)) x00)).

(** [Bitfield(std::vector<uint8_t> storage, int64_t len)]: no check. *)
Definition Bitfield_from (storage : bytes) (len : Z) : Bitfield := mkBitfield len storage.

(** [Bitfield::set(int64_t, bool)]. *)
Definition bf_set (bf : Bitfield) (index : Z) (value : bool) : cxx Bitfield :=
  _ ← assert_within_bounds (len bf) index;
  let _byte_index := byte_index index in
  b ← vget (storage bf) _byte_index;
  let b' := if value then Z.lor (b2z b) (mask index)
            else Z.land (b2z b) (Z.lnot (mask index)) in
  storage' ← vset (storage bf) _byte_index (u8 b');
  Ret (mkBitfield (len bf) storage').

(** [set(int64_t)] and [unset(int64_t)]. *)
Definition bf_set1 (bf : Bitfield) (index : Z) : cxx Bitfield := bf_set bf index true.
Definition bf_unset (bf : Bitfield) (index : Z) : cxx Bitfield := bf_set bf index false.

(** [Bitfield::get]. *)
Definition bf_get (bf : Bitfield) (index : Z) : cxx bool :=
  _ ← assert_within_bounds (len bf) index;
  b ← vget (storage bf) (byte_index index);
  Ret (negb (Z.land (b2z b) (mask index) =? 0)).

(** [Bitfield::get_bytes]. *)
Definition get_bytes (bf : Bitfield) : bytes := storage bf.

(** The loop of [operator<<], from bit [i] on, for the [n] bits left. *)
Fixpoint bf_show_loop (bf : Bitfield) (i : Z) (n : nat) : cxx bytes :=
  match n with
  | O => Ret []
  | S n =>
      b ← bf_get bf i;
      let os := if (b : bool) then str "#" else str "." in
      let os := if (Z.rem (i + 1) 8 =? 0) then os ++ [x0a] else os in
      rest ← bf_show_loop bf (i + 1) n;
      Ret (os ++ rest)
  end.

(** [operator<<]. *)
Definition bf_show (bf : Bitfield) : cxx bytes :=
  os ← bf_show_loop bf 0 (Z.to_nat (len bf)); Ret (os ++ [x0a]).

Example bf_show_ex :
  bf_show (Bitfield_from [x03; x82] 15) =
  Ret (str "......##" ++ [x0a] ++ str "#.....#" ++ [x0a]).
Proof. vm_compute. reflexivity. Qed.

(** ** The abstract bit list *)

(** Bit [i] of the storage, most significant first. *)
Definition bit (storage : bytes) (i : nat) : bool :=
  Z.testbit (b2z (nth (i / 8) storage x00)) (7 - Z.of_nat (i mod 8)).

Definition bits (bf : Bitfield) : list bool :=
  map (bit (storage bf)) (seq 0 (Z.to_nat (len bf))).

(** The storage covers the bits. *)
Definition bf_wf (bf : Bitfield) : Prop :=
  0 <= len bf /\ len bf <= 8 * zlen (storage bf).

(** ** Lemmas *)

Lemma byte_index_nat i : byte_index (Z.of_nat i) = Z.of_nat (i / 8).
Proof. unfold byte_index. rewrite Z.quot_div_nonneg by lia. by rewrite Nat2Z.inj_div. Qed.

Lemma mask_nat i : mask (Z.of_nat i) = 2 ^ (7 - Z.of_nat (i mod 8)).
Proof.
  unfold mask, byte_offset. rewrite Z.rem_mod_nonneg by lia.
  change INDEX_ZERO with (2 ^ 7). rewrite Nat2Z.inj_mod. change (Z.of_nat 8) with 8.
  pose proof (Z.mod_pos_bound (Z.of_nat i) 8 ltac:(lia)).
  rewrite Z.shiftr_div_pow2 by lia. rewrite <- Z.pow_sub_r by lia. done.
Qed.

Lemma land_pow2 z k : 0 <= k -> negb (Z.land z (2 ^ k) =? 0) = Z.testbit z k.
Proof.
  intros Hk. destruct (Z.testbit z k) eqn:E.
  - apply negb_true_iff, Z.eqb_neq. intros H.
    apply (f_equal (fun x => Z.testbit x k)) in H.
    rewrite Z.land_spec, E, Z.pow2_bits_true, Z.bits_0 in H by done. done.
  - apply negb_false_iff, Z.eqb_eq. apply Z.bits_inj'. intros i Hi.
    rewrite Z.land_spec, Z.bits_0. destruct (decide (i = k)) as [->|Hne].
    + by rewrite E.
    + rewrite Z.pow2_bits_false by done. apply andb_false_r.
Qed.

(** Conversion to [uint8_t] keeps the low eight bits. *)
Lemma u8_testbit z k : 0 <= k < 8 -> Z.testbit (b2z (u8 z)) k = Z.testbit z k.
Proof. intros Hk. rewrite b2z_u8. change 256 with (2 ^ 8). by rewrite Z.mod_pow2_bits_low by lia. Qed.

Lemma set_bit_testbit z k (value : bool) j :
  0 <= k -> 0 <= j ->
  Z.testbit (if value then Z.lor z (2 ^ k) else Z.land z (Z.lnot (2 ^ k))) j =
  if decide (j = k) then value else Z.testbit z j.
Proof.
  intros Hk Hj. destruct value.
  - rewrite Z.lor_spec. destruct (decide (j = k)) as [->|].
    + rewrite Z.pow2_bits_true by done. apply orb_true_r.
    + rewrite Z.pow2_bits_false by done. apply orb_false_r.
  - rewrite Z.land_spec, Z.lnot_spec by done. destruct (decide (j = k)) as [->|].
    + rewrite Z.pow2_bits_true by done. apply andb_false_r.
    + rewrite Z.pow2_bits_false by done. apply andb_true_r.
Qed.

Lemma nth_replicate_same {A} n i (x : A) : nth i (replicate n x) x = x.
Proof. revert i. induction n; intros [|i]; simpl; auto. Qed.

Lemma length_bits bf : length (bits bf) = Z.to_nat (len bf).
Proof. unfold bits. by rewrite length_map, length_seq. Qed.

Lemma bits_lookup bf i :
  bits bf !! i = if decide (Z.of_nat i < len bf) then Some (bit (storage bf) i) else None.
Proof.
  unfold bits. destruct (decide (Z.of_nat i < len bf)).
  - rewrite list_lookup_fmap, lookup_seq_lt by lia. done.
  - apply lookup_ge_None_2. rewrite length_map, length_seq. lia.
Qed.

(** The storage byte of a bit in range exists. *)
Lemma bf_byte bf i :
  bf_wf bf -> 0 <= i < len bf ->
  exists b, storage bf !! (Z.to_nat i / 8)%nat = Some b /\ vget (storage bf) (byte_index i) = Ret b.
Proof.
  intros [_ Hw] Hi. 
  replace (byte_index i) with (Z.of_nat (Z.to_nat i / 8))
    by (rewrite <- byte_index_nat; f_equal; lia).
  destruct (vget_total (storage bf) (Z.of_nat (Z.to_nat i / 8))) as (b & Hv & Hl).
  { split; [lia|]. rewrite Nat2Z.inj_div, Z2Nat.id by lia. apply Z.div_lt_upper_bound; lia. }
  exists b. rewrite Nat2Z.id in Hl. done.
Qed.

Lemma bf_get_bit bf i :
  bf_wf bf -> 0 <= i < len bf -> bf_get bf i = Ret (bit (storage bf) (Z.to_nat i)).
Proof.
  intros Hw Hi. unfold bf_get, assert_within_bounds.
  destruct (Z.ltb_spec i 0); [lia|]. destruct (Z.leb_spec (len bf) i); [lia|].
  destruct (bf_byte bf i Hw Hi) as (b & Hl & ->). run_bind. f_equal.
  replace (mask i) with (mask (Z.of_nat (Z.to_nat i))) by (f_equal; lia). rewrite mask_nat.
  pose proof (Nat.mod_upper_bound (Z.to_nat i) 8 ltac:(lia)). rewrite land_pow2 by lia.
  unfold bit. by rewrite (nth_lookup_Some _ _ _ _ Hl).
Qed.

Lemma bf_set_bits bf i value :
  bf_wf bf -> 0 <= i < len bf ->
  exists bf', bf_set bf i value = Ret bf' /\ bf_wf bf' /\ len bf' = len bf /\
    bits bf' = <[Z.to_nat i := value]> (bits bf).
Proof.
  intros Hw Hi. unfold bf_set, assert_within_bounds.
  destruct (Z.ltb_spec i 0); [lia|]. destruct (Z.leb_spec (len bf) i); [lia|].
  destruct (bf_byte bf i Hw Hi) as (b & Hl & ->). run_bind.
  set (n := Z.to_nat i) in *. assert (Hin : i = Z.of_nat n) by lia.
  rewrite Hin, byte_index_nat, mask_nat. pose proof (lookup_lt_Some _ _ _ Hl) as Hlt.
  unfold vset. rewrite bool_decide_true by (unfold zlen; lia). run_bind. rewrite Nat2Z.id.
  eexists. split; [reflexivity|]. destruct Hw as [Hw1 Hw2]. split; [|split].
  { split; [done|]. simpl. by rewrite zlen_insert. }
  { done. }
  apply list_eq. intros j. rewrite list_lookup_insert, !bits_lookup. cbn [len storage].
  rewrite length_bits. unfold bit.
  pose proof (Nat.mod_upper_bound n 8 ltac:(lia)). pose proof (Nat.mod_upper_bound j 8 ltac:(lia)).
  destruct (decide (Z.of_nat j < len bf)) as [Hj|Hj].
  2:{ rewrite decide_False; [done|]. intros [-> ?]. lia. }
  destruct (decide (n / 8 = j / 8)%nat) as [Hq|Hq].
  - erewrite (nth_lookup_Some _ (j / 8)); [|rewrite <- Hq; by apply list_lookup_insert_eq].
    rewrite u8_testbit, set_bit_testbit by lia. rewrite <- Hq, (nth_lookup_Some _ _ _ _ Hl).
    pose proof (Nat.div_mod_eq n 8). pose proof (Nat.div_mod_eq j 8).
    repeat destruct (decide _); try done; exfalso; lia.
  - rewrite (decide_False (P := n = j /\ _)) by (intros [-> _]; done).
    do 2 f_equal. unfold bit. rewrite !nth_lookup. by rewrite list_lookup_insert_ne.
Qed.

(** ** The specification: a list of booleans with checked access *)

Definition spec_get (l : list bool) (i : Z) : cxx bool :=
  if i <? 0 then Throw (invalid_argument "index less than zero")
  else match l !! Z.to_nat i with
       | Some b => Ret b
       | None => Throw (invalid_argument "index too large for this bitfield")
       end.

Definition spec_set (l : list bool) (i : Z) (value : bool) : cxx (list bool) :=
  if i <? 0 then Throw (invalid_argument "index less than zero")
  else if bool_decide (i < zlen l) then Ret (<[Z.to_nat i := value]> l)
  else Throw (invalid_argument "index too large for this bitfield").

(** ** Claims *)

(** C32: refinement. A bitfield whose storage covers its length behaves as the
    list of booleans [bits]: [get] is a checked lookup and [set] a checked update
    that touches no other bit, keeps the length and keeps the storage covering it;
    an index out of range throws. *)
Theorem bitfield_refines_list bf :
  bf_wf bf ->
  (forall i, bf_get bf i = spec_get (bits bf) i) /\
  (forall i value, bits <$> bf_set bf i value = spec_set (bits bf) i value) /\
  (forall i value bf', bf_set bf i value = Ret bf' -> bf_wf bf' /\ len bf' = len bf).
Proof.
  intros Hw. pose proof (proj1 Hw) as Hlen. split_and!.
  - intros i. unfold spec_get. destruct (Z.ltb_spec i 0).
    { unfold bf_get, assert_within_bounds. destruct (Z.ltb_spec i 0); [done|lia]. }
    rewrite bits_lookup, Z2Nat.id by lia. case_decide.
    + rewrite bf_get_bit by done. done.
    + unfold bf_get, assert_within_bounds. destruct (Z.ltb_spec i 0); [lia|].
      destruct (Z.leb_spec (len bf) i); [done|lia].
  - intros i value. unfold spec_set, zlen. rewrite length_bits.
    destruct (decide (0 <= i < len bf)) as [Hi|Hi].
    + destruct (bf_set_bits bf i value Hw Hi) as (bf' & -> & _ & _ & Hb). cbn. rewrite Hb.
      destruct (Z.ltb_spec i 0); [lia|]. by rewrite bool_decide_true by lia.
    + unfold bf_set, assert_within_bounds. destruct (Z.ltb_spec i 0); [done|].
      destruct (Z.leb_spec (len bf) i); [|lia]. by rewrite bool_decide_false by lia.
  - intros i value bf' H. destruct (decide (0 <= i < len bf)) as [Hi|Hi].
    + destruct (bf_set_bits bf i value Hw Hi) as (bf'' & Heq & Hw' & Hl & _).
      rewrite Heq in H. by injection H as <-.
    + unfold bf_set, assert_within_bounds in H. destruct (Z.ltb_spec i 0); [done|].
      destruct (Z.leb_spec (len bf) i); [done|lia].
Qed.

Lemma bitfield_refines_list_witness :
  bf_get (Bitfield_from [x03; x82] 15) 14 = spec_get (bits (Bitfield_from [x03; x82] 15)) 14.
Proof. apply bitfield_refines_list. split; vm_compute; discriminate. Defined.

(** Construction. A new bitfield of a non-negative length has all bits
    clear, uses [ceil(len / 8)] bytes and covers its length; a negative length
    throws. *)
Theorem bitfield_new_spec n :
  n + 7 <= int64_max ->
  (0 <= n -> exists bf, Bitfield_new n = Ret bf /\ bf_wf bf /\ len bf = n /\
     zlen (storage bf) = (n + 7) / 8 /\ bits bf = replicate (Z.to_nat n) false) /\
  (n < 0 -> Bitfield_new n = Throw (invalid_argument "expected positive length")).
Proof.
  unfold int64_max. intros Hmax. unfold Bitfield_new. split; intros Hn.
  - destruct (Z.ltb_spec n 0); [lia|]. rewrite i64_ok by lia. run_bind.
    rewrite Z.quot_div_nonneg by lia. eexists. split; [reflexivity|].
    unfold bf_wf. cbn [len storage]. rewrite zlen_replicate.
    assert (0 <= (n + 7) / 8) by (apply Z.div_pos; lia). rewrite Z2Nat.id by done.
    split_and!; [done|Z.div_mod_to_equations; lia|done|done|].
    apply list_eq. intros i. rewrite bits_lookup. cbn [len storage].
    destruct (decide (Z.of_nat i < n)).
    + rewrite lookup_replicate_2 by lia. unfold bit. by rewrite nth_replicate_same, Z.bits_0.
    + symmetry. apply lookup_ge_None_2. rewrite length_replicate. lia.
  - destruct (Z.ltb_spec n 0); [done|lia].
Qed.

Lemma bitfield_new_spec_witness :
  exists bf, Bitfield_new 10 = Ret bf /\ bf_wf bf /\ len bf = 10 /\
     zlen (storage bf) = (10 + 7) / 8 /\ bits bf = replicate (Z.to_nat 10) false.
Proof. apply (bitfield_new_spec 10); [vm_compute; discriminate|lia]. Defined.

(** Safety. A bitfield built from received bytes is read out of bounds
    exactly when the bytes are too few for the requested bit: the length passes
    the check of [get] but not the storage. *)
Theorem bitfield_short_storage st n i :
  0 <= i < n -> (bf_get (Bitfield_from st n) i = Undef OutOfBounds <-> 8 * zlen st <= i).
Proof.
  intros Hi. unfold bf_get, assert_within_bounds. cbn [len storage Bitfield_from].
  destruct (Z.ltb_spec i 0); [lia|]. destruct (Z.leb_spec n i); [lia|]. run_bind.
  unfold byte_index. rewrite Z.quot_div_nonneg by lia.
  destruct (decide (i / 8 < zlen st)) as [Hlt|Hge].
  - destruct (vget_total st (i / 8)) as (b & -> & _).
    { split; [apply Z.div_pos; lia|done]. }
    split; [done|]. intros. Z.div_mod_to_equations. lia.
  - rewrite (proj2 (vget_oob st (i / 8))) by lia. split; [|done].
    intros _. Z.div_mod_to_equations. lia.
Qed.

Lemma bitfield_short_storage_witness :
  bf_get (Bitfield_from [xff] 20) 8 = Undef OutOfBounds.
Proof. apply bitfield_short_storage; [lia|vm_compute; discriminate]. Defined.
