(* ===== verification/Sha1.v ===== *)
(** * Sha1: the SHA-1 implementation (third_party/smallsha1/sha1.cpp)

    The digest that identifies torrents and checks pieces. The round buffer [w]
    and the chaining value [result] are passed and returned explicitly. [w] is
    not initialised in the source: [calc] takes its content as an argument. *)
From S2P Require Import Prelude.
Local Open Scope Z_scope.

(** ** Words *)

(** [rol]. *)
Definition rol (value steps : Z) : Z :=
  u32 (Z.lor (Z.shiftl value steps) (Z.shiftr value (32 - steps))).

(** [clearWBuffert]: zero the first 16 words. *)
Definition clearWBuffert (w : list Z) : list Z := replicate 16 0 ++ drop 16 w.

(** ** The compression function *)

(** The working variables of [innerHash]. *)
Record regs : Type := mkRegs { ra : Z; rb : Z; rc : Z; rd : Z; re : Z }.

(** [sha1macro(func, val)]. *)
Definition sha1macro (func : Z -> Z -> Z -> Z) (val wt : Z) (r : regs) : regs :=
  let t := u32 (rol (ra r) 5 + func (rb r) (rc r) (rd r) + re r + val + wt) in
  mkRegs t (ra r) (rol (rb r) 30) (rc r) (rd r).

(** [w[round] = rol(w[round - 3] ^ w[round - 8] ^ w[round - 14] ^ w[round - 16], 1)]. *)
Definition expand (w : list Z) (round : nat) : list Z :=
  <[round := rol (Z.lxor (Z.lxor (Z.lxor (nth (round - 3) w 0) (nth (round - 8) w 0))
                                 (nth (round - 14) w 0)) (nth (round - 16) w 0)) 1]> w.

Definition f_choose (b c d : Z) : Z := Z.lor (Z.land b c) (Z.land (Z.lnot b) d).
Definition f_parity (b c d : Z) : Z := Z.lxor (Z.lxor b c) d.
Definition f_majority (b c d : Z) : Z := Z.lor (Z.lor (Z.land b c) (Z.land b d)) (Z.land c d).

(** One of the [while] loops of [innerHash]: [n] rounds from [round] on, with or
    without the expansion of [w]. *)
Fixpoint rounds (expanding : bool) (func : Z -> Z -> Z -> Z) (val : Z) (n round : nat)
  (st : regs * list Z) : regs * list Z :=
  match n with
  | O => st
  | S n =>
      let '(r, w) := st in
      let w := if expanding then expand w round else w in
      rounds expanding func val n (S round) (sha1macro func val (nth round w 0) r, w)
  end.

(** [innerHash]. *)
Definition innerHash (result w : list Z) : list Z * list Z :=
  match result with
  | [a; b; c; d; e] =>
      let st := (mkRegs a b c d e, w) in
      let st := rounds false f_choose 0x5a827999 16 0 st in
      let st := rounds true f_choose 0x5a827999 4 16 st in
      let st := rounds true f_parity 0x6ed9eba1 20 20 st in
      let st := rounds true f_majority 0x8f1bbcdc 20 40 st in
      let '(r, w) := rounds true f_parity 0xca62c1d6 20 60 st in
      ([u32 (a + ra r); u32 (b + rb r); u32 (c + rc r); u32 (d + rd r); u32 (e + re r)], w)
  | _ => (result, w)
  end.

(** ** The message loop *)

(** The words of a full block: four bytes each, most significant first. *)
Definition load_word (src : bytes) (pos : nat) : Z :=
  Z.lor (Z.lor (Z.lor (b2z (nth (pos + 3) src x00)) (Z.shiftl (b2z (nth (pos + 2) src x00)) 8))
               (Z.shiftl (b2z (nth (pos + 1) src x00)) 16))
        (Z.shiftl (b2z (nth pos src x00)) 24).

Definition load_block (block : bytes) (w : list Z) : list Z :=
  map (fun i => load_word block (4 * i)%nat) (seq 0 16) ++ drop 16 w.

(** The loop over full blocks; [n] bounds the number of blocks left. Returns the
    unread bytes with the state. *)
Fixpoint full_blocks (n : nat) (src : bytes) (result w : list Z) : bytes * list Z * list Z :=
  match n with
  | O => (src, result, w)
  | S n =>
      if bool_decide (64 <= zlen src) then
        let w := load_block (take 64 src) w in
        let '(result, w) := innerHash result w in
        full_blocks n (drop 64 src) result w
      else (src, result, w)
  end.

(** [w[k >> 2] |= b << ((3 - (k & 3)) << 3)] for a byte [b]. *)
Definition or_byte (w : list Z) (k : nat) (b : Z) : list Z :=
  <[(k / 4)%nat := Z.lor (nth (k / 4) w 0) (u32 (Z.shiftl b (8 * (3 - Z.of_nat (k mod 4)))))]> w.

(** The loop over the bytes of the last block. *)
Fixpoint last_bytes (rest : bytes) (k : nat) (w : list Z) : list Z :=
  match rest with
  | [] => w
  | b :: rest => last_bytes rest (S k) (or_byte w k (b2z b))
  end.

(** The bytes of the digest. *)
Definition store_hash (result : list Z) : bytes :=
  map (fun i => u8 (Z.land (Z.shiftr (nth (i / 4) result 0)
                              (8 * (3 - Z.of_nat (i mod 4)))) 255)) (seq 0 20).

(** [calc]. The bit length [bytelength << 3] of an [int] is undefined when it
    does not fit 32 bits. *)
Definition calc (w0 : list Z) (src : bytes) : cxx bytes :=
  let bytelength := zlen src in
  let result := [0x67452301; 0xefcdab89; 0x98badcfe; 0x10325476; 0xc3d2e1f0] in
  let '(rest, result, w) := full_blocks (length src / 64) src result w0 in
  let w := clearWBuffert w in
  let w := last_bytes rest 0 w in
  let w := or_byte w (length rest) 0x80 in
  let '(result, w) :=
    if bool_decide (56 <= zlen rest) then
      let '(result, w) := innerHash result w in (result, clearWBuffert w)
    else (result, w) in
  if 2 ^ 32 <=? bytelength * 8 then Undef ShiftOverflow
  else
    let w := <[15%nat := bytelength * 8]> w in
    let '(result, _) := innerHash result w in
    Ret (store_hash result).

(** [toHexString]: two lower-case digits per byte. *)
Definition hex_digit (d : Z) : byte := nth (Z.to_nat d) (str "0123456789abcdef") x00.
Definition toHexString (hash : bytes) : bytes :=
  concat (map (fun b => [hex_digit (Z.land (Z.shiftr (b2z b) 4) 15);
                         hex_digit (Z.land (b2z b) 15)]) hash).

(** An uninitialised buffer. *)
Definition w_any : list Z := replicate 80 0.

(** The digests of test/hash.cpp and of FIPS 180. *)
Example calc_furrent :
  toHexString <$> calc w_any (str "Furrent is a neat BitTorrent client with fur") =
  Ret (str "3a773b8553a663941552a0df3b5968b4695cb212").
Proof. vm_compute. reflexivity. Qed.

Example calc_abc :
  toHexString <$> calc w_any (str "abc") = Ret (str "a9993e364706816aba3e25717850c26c9cd0d89d").
Proof. vm_compute. reflexivity. Qed.

Example calc_two_blocks :
  toHexString <$> calc w_any (str "abcdbcdecdefdefgefghfghighijhijkijkljklmklmnlmnomnopnopq") =
  Ret (str "84983e441c3bd26ebaae4aa1f95129e5e54670f1").
Proof. vm_compute. reflexivity. Qed.
