(* ===== verification/Sha1Spec.v ===== *)
(** * Sha1Spec: the digest is the one of FIPS 180-4

    SHA-1 as the standard defines it (module [Fips], which uses nothing of the
    implementation), and the proof that the in-place implementation computes it
    for every message whose bit length fits 32 bits, whatever the round buffer held
    before: first the loops without the buffer they share, then the functions of
    the rounds against those of the standard. *)
From S2P Require Import Prelude Wire Sha1.
Local Open Scope Z_scope.

(** ** SHA-1 by FIPS 180-4 *)

Module Fips.

(** Section 2.2.2: rotation, complement and addition of 32-bit words. *)
Definition ROTL (n x : Z) : Z := Z.lor (Z.shiftl x n mod 2 ^ 32) (Z.shiftr x (32 - n)).
Definition complement (x : Z) : Z := Z.lxor x (2 ^ 32 - 1).
Definition add (x y : Z) : Z := (x + y) mod 2 ^ 32.

(** Section 4.1.1: the functions of the rounds. *)
Definition Ch (x y z : Z) : Z := Z.lxor (Z.land x y) (Z.land (complement x) z).
Definition Parity (x y z : Z) : Z := Z.lxor x (Z.lxor y z).
Definition Maj (x y z : Z) : Z := Z.lxor (Z.land x y) (Z.lxor (Z.land x z) (Z.land y z)).
Definition f (t : nat) : Z -> Z -> Z -> Z :=
  if (t <? 20)%nat then Ch else if (t <? 40)%nat then Parity else if (t <? 60)%nat then Maj else Parity.

(** Section 4.2.1: the constants of the rounds. *)
Definition K (t : nat) : Z :=
  if (t <? 20)%nat then 0x5a827999 else if (t <? 40)%nat then 0x6ed9eba1
  else if (t <? 60)%nat then 0x8f1bbcdc else 0xca62c1d6.

(** Section 5.1.1: padding to a multiple of 64 bytes, with the length in bits in the
    last eight. *)
Definition be64 (n : Z) : bytes :=
  map (fun i => u8 (n / 2 ^ (8 * (7 - Z.of_nat i)))) (seq 0 8).
Definition pad (msg : bytes) : bytes :=
  msg ++ [x80] ++ replicate (Z.to_nat ((55 - zlen msg) mod 64)) x00 ++ be64 (8 * zlen msg).

(** Section 5.2.1: blocks of 64 bytes, and their 16 words, most significant byte
    first. *)
Fixpoint chunks (n : nat) (l : bytes) : list bytes :=
  match n with
  | O => []
  | S n => take 64 l :: chunks n (drop 64 l)
  end.
Definition block_words (blk : bytes) : list Z :=
  map (fun i => be32 (nth (4 * i) blk x00) (nth (4 * i + 1) blk x00)
                     (nth (4 * i + 2) blk x00) (nth (4 * i + 3) blk x00)) (seq 0 16).

(** Five words, and section 5.3.1: the initial value. *)
Abbreviation words5 := (Z * Z * Z * Z * Z)%type.
Definition H0 : words5 := (0x67452301, 0xefcdab89, 0x98badcfe, 0x10325476, 0xc3d2e1f0).

(** Section 6.1.2: the message schedule, from the 16 words of the block on. *)
Fixpoint schedule (n : nat) (W : list Z) : list Z :=
  match n with
  | O => W
  | S n =>
      let t := length W in
      schedule n (W ++ [ROTL 1 (Z.lxor (nth (t - 3) W 0) (Z.lxor (nth (t - 8) W 0)
                          (Z.lxor (nth (t - 14) W 0) (nth (t - 16) W 0))))])
  end.

Definition round (W : list Z) (st : words5) (t : nat) : words5 :=
  let '(a, b, c, d, e) := st in
  (add (add (add (add (ROTL 5 a) (f t b c d)) e) (K t)) (nth t W 0), a, ROTL 30 b, c, d).

Definition hash_block (H : words5) (M : list Z) : words5 :=
  let '(h0, h1, h2, h3, h4) := H in
  let '(a, b, c, d, e) := fold_left (round (schedule 64 M)) (seq 0 80) H in
  (add a h0, add b h1, add c h2, add d h3, add e h4).

(** The digest: the bytes of the last value, most significant first. *)
Definition word_bytes (x : Z) : bytes := [u8 (x / 2 ^ 24); u8 (x / 2 ^ 16); u8 (x / 2 ^ 8); u8 x].
Definition digest (H : words5) : bytes :=
  let '(h0, h1, h2, h3, h4) := H in concat (map word_bytes [h0; h1; h2; h3; h4]).

End Fips.
Import Fips(be64, pad, chunks, block_words).

(** The SHA-1 digest of a message. *)
Definition sha1_ref (msg : bytes) : bytes :=
  let padded := pad msg in
  Fips.digest (fold_left Fips.hash_block (map block_words (chunks (length padded / 64) padded)) Fips.H0).

(** Test vectors of the standard. *)
Example sha1_ref_abc : toHexString (sha1_ref (str "abc")) = str "a9993e364706816aba3e25717850c26c9cd0d89d".
Proof. vm_compute. reflexivity. Qed.
Example sha1_ref_empty : toHexString (sha1_ref []) = str "da39a3ee5e6b4b0d3255bfef95601890afd80709".
Proof. vm_compute. reflexivity. Qed.

(** ** The loops without the shared buffer *)

(** [W_t] from the words before it. *)
Definition next_word (W : list Z) : Z :=
  let t := length W in
  rol (Z.lxor (Z.lxor (Z.lxor (nth (t - 3) W 0) (nth (t - 8) W 0)) (nth (t - 14) W 0))
              (nth (t - 16) W 0)) 1.

(** [n] more words of the schedule. *)
Fixpoint extend (n : nat) (W : list Z) : list Z :=
  match n with
  | O => W
  | S n => extend n (W ++ [next_word W])
  end.

(** The function and the constant that the loops of the implementation use in
    round [t]. *)
Definition f_t (t : nat) : Z -> Z -> Z -> Z :=
  if (t <? 20)%nat then f_choose
  else if (t <? 40)%nat then f_parity
  else if (t <? 60)%nat then f_majority else f_parity.
Definition k_t (t : nat) : Z :=
  if (t <? 20)%nat then 0x5a827999
  else if (t <? 40)%nat then 0x6ed9eba1
  else if (t <? 60)%nat then 0x8f1bbcdc else 0xca62c1d6.

Definition round_t (W : list Z) (r : regs) (t : nat) : regs :=
  sha1macro (f_t t) (k_t t) (nth t W 0) r.

(** The chaining value after a block given by its 16 words. *)
Definition compress (H ws : list Z) : list Z :=
  match H with
  | [a; b; c; d; e] =>
      let r := fold_left (round_t (extend 64 ws)) (seq 0 80) (mkRegs a b c d e) in
      [u32 (a + ra r); u32 (b + rb r); u32 (c + rc r); u32 (d + rd r); u32 (e + re r)]
  | _ => H
  end.

Definition H0 : list Z := [0x67452301; 0xefcdab89; 0x98badcfe; 0x10325476; 0xc3d2e1f0].

(** The implementation with one pass over the padded message. *)
Definition sha1_loops (msg : bytes) : bytes :=
  let padded := pad msg in
  store_hash (fold_left compress (map block_words (chunks (length padded / 64) padded)) H0).

(** ** The compression function *)

Lemma length_extend n W : length (extend n W) = (length W + n)%nat.
Proof. revert W. induction n; intros W; simpl; [lia|]. rewrite IHn, length_app. simpl. lia. Qed.

Lemma extend_prefix n W : take (length W) (extend n W) = W.
Proof.
  revert W. induction n as [|n IH]; intros W; simpl; [apply firstn_all|].
  specialize (IH (W ++ [next_word W])). rewrite length_app in IH. simpl in IH.
  apply (f_equal (take (length W))) in IH.
  rewrite take_take, take_app_length in IH. rewrite Nat.min_l in IH by lia. done.
Qed.

(** Words of the schedule beyond the block follow the recurrence. *)
Lemma extend_next n W t :
  (length W <= t < length W + n)%nat ->
  take (S t) (extend n W) = take t (extend n W) ++ [next_word (take t (extend n W))].
Proof.
  revert W. induction n as [|n IH]; intros W Ht; [lia|]. simpl.
  destruct (decide (t = length W)) as [->|Hne].
  - pose proof (extend_prefix n (W ++ [next_word W])) as E.
    rewrite length_app in E. simpl in E. rewrite Nat.add_1_r in E. rewrite E.
    apply (f_equal (take (length W))) in E. rewrite take_take, take_app_length in E.
    rewrite Nat.min_l in E by lia. by rewrite E.
  - apply IH. rewrite length_app. simpl. lia.
Qed.

Lemma nth_take {A} (d : A) n i l : (i < n)%nat -> nth i (take n l) d = nth i l d.
Proof.
  revert n i. induction l as [|x l IH]; intros [|n] [|i] Hi; simpl; try lia; auto.
  apply IH. lia.
Qed.

Lemma nth_take_S {A} (d : A) t l : (t < length l)%nat -> take (S t) l = take t l ++ [nth t l d].
Proof.
  revert t. induction l as [|x l IH]; intros [|t] Ht; simpl in *; try lia; [done|].
  f_equal. apply IH. lia.
Qed.

Lemma take_insert_snoc {A} (l : list A) t x :
  (t < length l)%nat -> take (S t) (<[t := x]> l) = take t l ++ [x].
Proof.
  revert t. induction l as [|y l IH]; intros [|t] Ht; simpl in *; try lia; [done|].
  f_equal. apply IH. lia.
Qed.

Section Rounds.
Context (W : list Z) (HW : length W = 80%nat).
Context (Hnext : forall t, (16 <= t < 80)%nat -> take (S t) W = take t W ++ [next_word (take t W)]).

(** The in-place expansion writes the next word of the schedule. *)
Lemma expand_schedule w t :
(16 <= t < 80)%nat -> length w = 80%nat -> take t w = take t W ->
take (S t) (expand w t) = take (S t) W.
Proof using HW Hnext.
intros Ht Hw Heq. unfold expand. rewrite take_insert_snoc by lia. rewrite Hnext by done.
rewrite Heq. do 2 f_equal. unfold next_word. rewrite length_take, Nat.min_l by lia.
rewrite <- Heq, !nth_take by lia. done.
Qed.

Lemma rounds_expanding func val n t r w :
(16 <= t)%nat -> (t + n <= 80)%nat -> length w = 80%nat -> take t w = take t W ->
exists w', rounds true func val n t (r, w) =
  (fold_left (fun r t => sha1macro func val (nth t W 0) r) (seq t n) r, w') /\
  length w' = 80%nat /\ take (t + n) w' = take (t + n) W.
Proof using HW Hnext.
revert t r w. induction n as [|n IH]; intros t r w H16 H80 Hw Heq; simpl.
{ exists w. by rewrite Nat.add_0_r. }
pose proof (expand_schedule w t ltac:(lia) Hw Heq) as He.
assert (Hn : nth t (expand w t) 0 = nth t W 0).
{ rewrite <- (nth_take 0 (S t) t W), <- He by lia. by rewrite nth_take by lia. }
rewrite Hn. destruct (IH (S t) (sha1macro func val (nth t W 0) r) (expand w t))
  as (w' & -> & Hl & Ht); [lia|lia|unfold expand; by rewrite length_insert|done|].
exists w'. by rewrite Nat.add_succ_r.
Qed.

Lemma rounds_plain func val n t r w :
(t + n <= 16)%nat -> take 16 w = take 16 W ->
rounds false func val n t (r, w) =
(fold_left (fun r t => sha1macro func val (nth t W 0) r) (seq t n) r, w).
Proof using.
revert t r. induction n as [|n IH]; intros t r Ht Heq; simpl; [done|].
rewrite <- (nth_take 0 16 t w), Heq, nth_take by (clear - Ht; lia).
by rewrite IH by (done || (clear - Ht; lia)).
Qed.

(** A phase is a part of the reference rounds when its function and constant are
  those of its round numbers. *)
Lemma fold_phase func val t n r :
(forall i, (t <= i < t + n)%nat -> f_t i = func /\ k_t i = val) ->
fold_left (fun r t => sha1macro func val (nth t W 0) r) (seq t n) r =
fold_left (round_t W) (seq t n) r.
Proof using.
revert t r. induction n as [|n IH]; intros t r H; simpl; [done|].
unfold round_t at 2. destruct (H t ltac:(clear; lia)) as [-> ->].
apply IH. intros i Hi. apply H. clear - Hi. lia.
Qed.

End Rounds.

Lemma f_k_range t lo hi :
  (lo <= t < hi)%nat ->
  ((hi <= 20)%nat -> f_t t = f_choose /\ k_t t = 0x5a827999) /\
  ((20 <= lo)%nat -> (hi <= 40)%nat -> f_t t = f_parity /\ k_t t = 0x6ed9eba1) /\
  ((40 <= lo)%nat -> (hi <= 60)%nat -> f_t t = f_majority /\ k_t t = 0x8f1bbcdc) /\
  ((60 <= lo)%nat -> f_t t = f_parity /\ k_t t = 0xca62c1d6).
Proof.
  intros Ht. unfold f_t, k_t.
  destruct (Nat.ltb_spec t 20), (Nat.ltb_spec t 40), (Nat.ltb_spec t 60);
    split_and!; intros; try done; lia.
Qed.

Lemma innerHash_compress H ws tl :
  length H = 5%nat -> length ws = 16%nat -> length tl = 64%nat ->
  exists w', innerHash H (ws ++ tl) = (compress H ws, w') /\ length w' = 80%nat.
Proof.
  intros HH Hws Htl. destruct H as [|a [|b [|c [|d [|e [|]]]]]]; try done. clear HH.
  set (W := extend 64 ws). assert (HW : length W = 80%nat) by (unfold W; rewrite length_extend; lia).
  assert (Hnext : forall t, (16 <= t < 80)%nat -> take (S t) W = take t W ++ [next_word (take t W)]).
  { intros t Ht. apply extend_next. lia. }
  assert (H16 : take 16 (ws ++ tl) = take 16 W).
  { unfold W. rewrite <- Hws, take_app_length. by rewrite extend_prefix. }
  unfold innerHash. rewrite (rounds_plain W) by (done || lia).
  assert (H80 : length (ws ++ tl) = 80%nat) by (rewrite length_app; lia).
  do 4 match goal with
  | |- context [rounds true ?f ?v ?n ?t (?r, ?w)] =>
      let w' := fresh "w" in
      destruct (rounds_expanding W HW Hnext f v n t r w) as (w' & -> & ? & ?); [lia|lia|done|done|]
  end.
  eexists. split; [|done]. unfold compress. fold W.
  change (seq 0 80) with (seq 0 16 ++ seq 16 4 ++ seq 20 20 ++ seq 40 20 ++ seq 60 20).
  rewrite !fold_left_app.
  rewrite (fold_phase W f_choose _ 0 16) by (intros i Hi; apply (f_k_range i 0 16); lia).
  rewrite (fold_phase W f_choose _ 16 4) by (intros i Hi; apply (f_k_range i 16 20); lia).
  rewrite (fold_phase W f_parity _ 20 20) by (intros i Hi; apply (f_k_range i 20 40); lia).
  rewrite (fold_phase W f_majority _ 40 20) by (intros i Hi; apply (f_k_range i 40 60); lia).
  rewrite (fold_phase W f_parity _ 60 20) by (intros i Hi; apply (f_k_range i 60 80); lia).
  done.
Qed.

Lemma length_compress H ws : length H = 5%nat -> length (compress H ws) = 5%nat.
Proof. intros HH. by destruct H as [|a [|b [|c [|d [|e [|]]]]]]. Qed.

(** ** Blocks *)

Lemma load_word_be32 src pos :
  load_word src pos = be32 (nth pos src x00) (nth (pos + 1) src x00)
                           (nth (pos + 2) src x00) (nth (pos + 3) src x00).
Proof.
  unfold load_word, be32. generalize (nth pos src x00), (nth (pos + 1) src x00),
    (nth (pos + 2) src x00), (nth (pos + 3) src x00). intros b0 b1 b2 b3.
  pose proof (b2z_range b0). pose proof (b2z_range b1).
  pose proof (b2z_range b2). pose proof (b2z_range b3).
  rewrite !Z.shiftl_mul_pow2 by lia.
  rewrite (Z.lor_comm (b2z b3)), lor_disjoint by lia.
  rewrite (Z.lor_comm (b2z b2 * 2 ^ 8 + b2z b3)), lor_disjoint by lia.
  rewrite Z.lor_comm, lor_disjoint by lia. lia.
Qed.

Lemma block_words_load blk :
  block_words blk = map (fun i => load_word blk (4 * i)%nat) (seq 0 16).
Proof. unfold block_words. apply map_ext. intros i. by rewrite load_word_be32. Qed.

Lemma length_block_words blk : length (block_words blk) = 16%nat.
Proof. done. Qed.

Lemma load_block_words blk w : load_block blk w = block_words blk ++ drop 16 w.
Proof. unfold load_block. by rewrite block_words_load. Qed.

Lemma full_blocks_spec n src H w :
  (64 * n <= length src < 64 * n + 64)%nat -> length H = 5%nat -> length w = 80%nat ->
  exists w', full_blocks n src H w =
    (drop (64 * n) src, fold_left compress (map block_words (chunks n src)) H, w') /\
    length w' = 80%nat.
Proof.
  revert src H w. induction n as [|n IH]; intros src H w Hn HH Hw.
  { exists w. by rewrite Nat.mul_0_r. }
  cbn [full_blocks chunks map fold_left].
  rewrite bool_decide_true by (unfold zlen; lia). rewrite load_block_words.
  destruct (innerHash_compress H (block_words (take 64 src)) (drop 16 w)) as (w1 & -> & Hw1);
    [done|done|rewrite length_drop; lia|].
  destruct (IH (drop 64 src) (compress H (block_words (take 64 src))) w1) as (w2 & -> & Hw2);
    [rewrite length_drop; lia|by apply length_compress|done|].
  exists w2. rewrite drop_drop. split; [|done]. do 3 f_equal. lia.
Qed.

(** ** The last block *)

Section StoreByte.
Context (blk : bytes) (k : nat) (b : byte) (Hk : blk !! k = Some x00).

Lemma nth_store j : nth j (<[k:=b]> blk) x00 = if decide (j = k) then b else nth j blk x00.
Proof using Hk.
case_decide as Hj.
- subst j. apply nth_lookup_Some. apply list_lookup_insert_eq. by eapply lookup_lt_Some.
- rewrite !nth_lookup. by rewrite list_lookup_insert_ne.
Qed.

(** Or-ing a byte into a zero position of its word stores it. *)
Lemma load_word_store :
load_word (<[k:=b]> blk) (4 * (k / 4)) =
Z.lor (load_word blk (4 * (k / 4))) (u32 (Z.shiftl (b2z b) (8 * (3 - Z.of_nat (k mod 4))))).
Proof using Hk.
pose proof (Nat.div_mod_eq k 4). pose proof (Nat.mod_upper_bound k 4 ltac:(lia)).
pose proof (b2z_range b). assert (Hz : nth k blk x00 = x00) by (by apply nth_lookup_Some).
set (q := (4 * (k / 4))%nat) in *. unfold load_word. rewrite !nth_store.
assert (Hc : k = q \/ k = (q + 1)%nat \/ k = (q + 2)%nat \/ k = (q + 3)%nat) by lia.
destruct Hc as [Hc|[Hc|[Hc|Hc]]]; rewrite <- Hc;
  repeat case_decide; try lia; rewrite Hz.
- replace (k mod 4)%nat with 0%nat by lia. change (8 * (3 - Z.of_nat 0)) with 24.
  rewrite Z.shiftl_0_l, Z.lor_0_r. unfold u32.
  rewrite (Z.shiftl_mul_pow2 (b2z b)), Z.mod_small by lia. done.
- replace (k mod 4)%nat with 1%nat by lia. change (8 * (3 - Z.of_nat 1)) with 16.
  rewrite Z.shiftl_0_l, Z.lor_0_r. unfold u32.
  rewrite (Z.shiftl_mul_pow2 (b2z b)), Z.mod_small by lia.
  rewrite <- !Z.lor_assoc. do 2 f_equal. apply Z.lor_comm.
- replace (k mod 4)%nat with 2%nat by lia. change (8 * (3 - Z.of_nat 2)) with 8.
  rewrite Z.shiftl_0_l, Z.lor_0_r. unfold u32.
  rewrite (Z.shiftl_mul_pow2 (b2z b)), Z.mod_small by lia.
  rewrite <- !Z.lor_assoc. f_equal. rewrite Z.lor_comm, <- Z.lor_assoc. done.
- replace (k mod 4)%nat with 3%nat by lia. change (8 * (3 - Z.of_nat 3)) with 0.
  rewrite Z.shiftl_0_r. unfold u32. rewrite Z.mod_small by lia.
  change (b2z x00) with 0. rewrite Z.lor_0_l, (Z.lor_comm _ (b2z b)), !Z.lor_assoc. done.
Qed.

Lemma load_word_other q :
q <> (k / 4)%nat -> load_word (<[k:=b]> blk) (4 * q) = load_word blk (4 * q).
Proof using Hk.
intros Hq. pose proof (Nat.div_mod_eq k 4). pose proof (Nat.mod_upper_bound k 4 ltac:(lia)).
unfold load_word. rewrite !nth_store, !decide_False by lia. done.
Qed.

Lemma or_byte_words tl :
length blk = 64%nat ->
or_byte (block_words blk ++ tl) k (b2z b) = block_words (<[k := b]> blk) ++ tl.
Proof using Hk.
intros Hl. pose proof (lookup_lt_Some _ _ _ Hk) as Hlt.
assert (Hq : (k / 4 < 16)%nat) by (apply Nat.Div0.div_lt_upper_bound; lia).
unfold or_byte. rewrite insert_app_l by done. f_equal.
rewrite app_nth1 by done. rewrite !block_words_load.
assert (Hw : forall bk i, (i < 16)%nat ->
          map (fun i => load_word bk (4 * i)%nat) (seq 0 16) !! i = Some (load_word bk (4 * i)%nat)).
{ intros bk i Hi. by rewrite list_lookup_fmap, lookup_seq_lt by lia. }
rewrite (nth_lookup_Some _ _ _ _ (Hw blk _ Hq)), <- load_word_store.
apply list_eq. intros i. rewrite list_lookup_insert, length_map, length_seq.
destruct (decide (i < 16)%nat) as [Hi|Hi].
- rewrite !Hw by done. case_decide as Hc; [by destruct Hc as [<- _]|].
  f_equal. symmetry. apply load_word_other. lia.
- rewrite decide_False by lia. by rewrite !lookup_ge_None_2 by (rewrite length_map, length_seq; lia).
Qed.
End StoreByte.

(** A block that starts with [pre] and is zero from there on. *)
Definition zero_filled (pre : bytes) : bytes := pre ++ replicate (64 - length pre) x00.

Lemma zero_filled_step pre b :
  (length pre < 64)%nat ->
  zero_filled pre !! length pre = Some x00 /\
  <[length pre := b]> (zero_filled pre) = zero_filled (pre ++ [b]).
Proof.
  intros Hl. unfold zero_filled. rewrite length_app. simpl.
  replace (64 - length pre)%nat with (S (64 - (length pre + 1))) by lia. cbn [replicate].
  split; [by rewrite list_lookup_middle|].
  rewrite <- app_assoc, <- (Nat.add_0_r (length pre)), insert_app_r. simpl.
  by replace (length pre + 0)%nat with (length pre) by lia.
Qed.

Lemma length_zero_filled pre : (length pre <= 64)%nat -> length (zero_filled pre) = 64%nat.
Proof. intros. unfold zero_filled. rewrite length_app, length_replicate. lia. Qed.

Lemma last_bytes_words rest pre tl :
  (length pre + length rest <= 64)%nat ->
  last_bytes rest (length pre) (block_words (zero_filled pre) ++ tl) =
  block_words (zero_filled (pre ++ rest)) ++ tl.
Proof.
  revert pre. induction rest as [|b rest IH]; intros pre Hl; cbn [last_bytes length] in *.
  { by rewrite app_nil_r. }
  destruct (zero_filled_step pre b) as [Hz Hs]; [lia|].
  rewrite or_byte_words, Hs by (done || apply length_zero_filled; lia).
  replace (S (length pre)) with (length (pre ++ [b])) by (rewrite length_app; simpl; lia).
  rewrite IH by (rewrite length_app; simpl; lia). by rewrite <- app_assoc.
Qed.

(** The words of a block given as 56 bytes and a tail of eight. *)
Lemma block_words_split p q0 q1 q2 q3 q4 q5 q6 q7 :
  length p = 56%nat ->
  block_words (p ++ [q0; q1; q2; q3; q4; q5; q6; q7]) =
  take 14 (block_words p) ++ [be32 q0 q1 q2 q3; be32 q4 q5 q6 q7].
Proof.
  intros Hp. unfold block_words. change (seq 0 16) with (seq 0 14 ++ [14; 15]%nat).
  rewrite !map_app. rewrite take_app_le by (rewrite length_map, length_seq; lia).
  rewrite firstn_all2 by (rewrite length_map, length_seq; lia). f_equal.
  - apply map_ext_in. intros i Hi. apply in_seq in Hi.
    rewrite !app_nth1 by lia. done.
  - cbn [map]. rewrite !app_nth2 by lia. rewrite Hp. done.
Qed.

Lemma be64_small n :
  0 <= n < 2 ^ 32 ->
  be64 n = [x00; x00; x00; x00; u8 (n / 2 ^ 24); u8 (n / 2 ^ 16); u8 (n / 2 ^ 8); u8 n].
Proof.
  intros Hn. unfold be64. cbn [seq map].
  change (8 * (7 - Z.of_nat 0)) with 56. change (8 * (7 - Z.of_nat 1)) with 48.
  change (8 * (7 - Z.of_nat 2)) with 40. change (8 * (7 - Z.of_nat 3)) with 32.
  change (8 * (7 - Z.of_nat 4)) with 24. change (8 * (7 - Z.of_nat 5)) with 16.
  change (8 * (7 - Z.of_nat 6)) with 8. change (8 * (7 - Z.of_nat 7)) with 0.
  rewrite !(Z.div_small n (2 ^ 56)), !(Z.div_small n (2 ^ 48)), !(Z.div_small n (2 ^ 40)),
    !(Z.div_small n (2 ^ 32)) by lia.
  by rewrite Z.pow_0_r, Z.div_1_r.
Qed.

Lemma be32_bytes n :
  0 <= n < 2 ^ 32 -> be32 (u8 (n / 2 ^ 24)) (u8 (n / 2 ^ 16)) (u8 (n / 2 ^ 8)) (u8 n) = n.
Proof.
  intros Hn. rewrite <- decode_integer_be32. apply decode_encode_int.
  apply encode_integer_ok. unfold uint32_max. lia.
Qed.

(** Writing the bit length into the last word completes the padding. *)
Lemma length_word pre n tl :
  (length pre <= 56)%nat -> 0 <= n < 2 ^ 32 ->
  <[15%nat := n]> (block_words (zero_filled pre) ++ tl) =
  block_words (pre ++ replicate (56 - length pre) x00 ++ be64 n) ++ tl.
Proof.
  intros Hl Hn. rewrite insert_app_l by (rewrite length_block_words; lia). f_equal.
  rewrite be64_small by done. rewrite app_assoc.
  set (p := pre ++ replicate (56 - length pre) x00).
  assert (Hp : length p = 56%nat) by (unfold p; rewrite length_app, length_replicate; lia).
  assert (Hz : zero_filled pre = p ++ [x00; x00; x00; x00; x00; x00; x00; x00]).
  { unfold zero_filled, p. replace (64 - length pre)%nat with ((56 - length pre) + 8)%nat by lia.
    by rewrite replicate_add, app_assoc. }
  rewrite Hz, !block_words_split by done. rewrite be32_bytes by done.
  assert (H14 : length (take 14 (block_words p)) = 14%nat) by done.
  rewrite insert_app_r_alt by lia. by rewrite H14.
Qed.

Lemma chunks_app n a b :
  (64 * n <= length a)%nat -> chunks n (a ++ b) = chunks n a.
Proof.
  revert a. induction n as [|n IH]; intros a Ha; simpl; [done|].
  rewrite take_app_le, drop_app_le by lia. rewrite IH by (rewrite length_drop; lia). done.
Qed.

Lemma chunks_add n m a b :
  length a = (64 * n)%nat -> chunks (n + m) (a ++ b) = chunks n a ++ chunks m b.
Proof.
  revert a. induction n as [|n IH]; intros a Ha; simpl.
  { by destruct a. }
  rewrite take_app_le, drop_app_le by lia. rewrite IH by (rewrite length_drop; lia). done.
Qed.

(** The padded message, when its unread bytes leave room for the length. *)
Lemma pad_one n a r :
  length a = (64 * n)%nat -> (length r < 56)%nat ->
  let msg := a ++ r in
  let last := (r ++ [x80]) ++ replicate (56 - length (r ++ [x80])) x00 ++ be64 (8 * zlen msg) in
  chunks (length (pad msg) / 64) (pad msg) = chunks n a ++ [last].
Proof.
  intros Ha Hr msg last. assert (Hpad : pad msg = a ++ last).
  { unfold pad, last. replace (Z.to_nat ((55 - zlen msg) mod 64)) with (56 - length (r ++ [x80]))%nat.
    - unfold msg. by rewrite <- !app_assoc.
    - unfold msg, zlen. rewrite !length_app, Ha. simpl length.
      replace (55 - Z.of_nat (64 * n + length r))
        with (55 - Z.of_nat (length r) + (- Z.of_nat n) * 64) by lia.
      rewrite Z.mod_add, Z.mod_small by lia. lia. }
  assert (Hlast : length last = 64%nat).
  { unfold last. rewrite !length_app, length_replicate. simpl length. lia. }
  rewrite Hpad, length_app, Ha, Hlast.
  replace ((64 * n + 64) / 64)%nat with (n + 1)%nat by (apply Nat.div_unique with 0%nat; lia).
  rewrite chunks_add by done. simpl. by rewrite firstn_all2 by lia.
Qed.

(** The padded message, when the length needs another block. *)
Lemma pad_two n a r :
  length a = (64 * n)%nat -> (56 <= length r < 64)%nat ->
  let msg := a ++ r in
  chunks (length (pad msg) / 64) (pad msg) =
  chunks n a ++ [zero_filled (r ++ [x80]); replicate 56 x00 ++ be64 (8 * zlen msg)].
Proof.
  intros Ha Hr msg.
  assert (Hz : length (zero_filled (r ++ [x80])) = 64%nat).
  { apply length_zero_filled. rewrite length_app. simpl. lia. }
  assert (Hpad : pad msg = a ++ zero_filled (r ++ [x80]) ++ replicate 56 x00 ++ be64 (8 * zlen msg)).
  { unfold pad, zero_filled.
    replace (Z.to_nat ((55 - zlen msg) mod 64)) with ((64 - length (r ++ [x80])) + 56)%nat.
    - rewrite replicate_add. unfold msg. by rewrite <- !app_assoc.
    - unfold msg, zlen. rewrite !length_app, Ha. simpl length.
      replace (55 - Z.of_nat (64 * n + length r))
        with (119 - Z.of_nat (length r) + (- Z.of_nat n - 1) * 64) by lia.
      rewrite Z.mod_add, Z.mod_small by lia. lia. }
  rewrite Hpad, !length_app, Ha, Hz, length_replicate. simpl (length (be64 _)).
  replace ((64 * n + (64 + (56 + 8))) / 64)%nat with (n + 2)%nat
    by (apply Nat.div_unique with 0%nat; lia).
  rewrite chunks_add by done. do 2 f_equal. change 2%nat with (1 + 1)%nat.
  rewrite chunks_add by lia. cbn [chunks app]. by rewrite !firstn_all2 by (rewrite ?Hz; simpl; lia).
Qed.

Lemma length_fold_compress l H : length H = 5%nat -> length (fold_left compress l H) = 5%nat.
Proof. revert H. induction l; intros H HH; simpl; auto using length_compress. Qed.

Lemma clear_words w : length w = 80%nat ->
  clearWBuffert w = block_words (zero_filled []) ++ drop 16 w /\ length (drop 16 w) = 64%nat.
Proof. intros Hw. split; [done|]. rewrite length_drop. lia. Qed.

Lemma calc_loops w0 msg :
  length w0 = 80%nat -> 8 * zlen msg < 2 ^ 32 -> calc w0 msg = Ret (sha1_loops msg).
Proof.
  intros Hw0 Hmax. unfold calc, sha1_loops. set (n := (length msg / 64)%nat).
  pose proof (Nat.div_mod_eq (length msg) 64). pose proof (Nat.mod_upper_bound (length msg) 64 ltac:(lia)).
  set (a := take (64 * n) msg). set (r := drop (64 * n) msg).
  assert (Hmsg : msg = a ++ r) by (unfold a, r; by rewrite take_drop).
  assert (Ha : length a = (64 * n)%nat) by (unfold a; rewrite length_take; lia).
  assert (Hr : (length r < 64)%nat) by (unfold r; rewrite length_drop; lia).
  destruct (full_blocks_spec n msg H0 w0) as (w1 & Hfull & Hw1); [lia|done|done|].
  assert (Hch : chunks n msg = chunks n a) by (rewrite Hmsg; apply chunks_app; lia).
  rewrite Hch in Hfull. unfold H0 in Hfull at 1. rewrite Hfull. fold r.
  set (Hc0 := fold_left compress (map block_words (chunks n a)) H0) in *.
  assert (HH : length Hc0 = 5%nat) by (by apply length_fold_compress).
  destruct (clear_words w1 Hw1) as [-> Htl]. set (tl := drop 16 w1) in *.
  pose proof (last_bytes_words r [] tl) as Elast. change (length []) with 0%nat in Elast.
  rewrite Elast, app_nil_l by lia. clear Elast.
  destruct (zero_filled_step r x80 Hr) as [Hz Hs].
  change 0x80 with (b2z x80). rewrite or_byte_words, Hs by (done || apply length_zero_filled; lia).
  destruct (Z.leb_spec (2 ^ 32) (zlen msg * 8)) as [|Hlt]; [lia|].
  assert (Hn : 0 <= zlen msg * 8 < 2 ^ 32) by zlen_lia.
  case_bool_decide as Hc; unfold zlen in Hc.
  - destruct (innerHash_compress Hc0 (block_words (zero_filled (r ++ [x80]))) tl) as (w2 & -> & Hw2);
      [done|done|done|].
    destruct (clear_words w2 Hw2) as [-> Htl2]. rewrite length_word by (simpl; done || lia).
    match goal with |- context [innerHash ?H (?ws ++ ?tl)] =>
      destruct (innerHash_compress H ws tl) as (w3 & -> & _) end;
      [by apply length_compress|done|done|].
    f_equal. rewrite Hmsg, (pad_two n) by (done || lia). rewrite <- Hmsg, map_app, fold_left_app.
    cbn [map fold_left app]. by rewrite (Z.mul_comm 8).
  - rewrite length_word by (rewrite ?length_app; simpl; done || lia).
    match goal with |- context [innerHash ?H (?ws ++ ?tl)] =>
      destruct (innerHash_compress H ws tl) as (w3 & -> & _) end; [done|done|done|].
    f_equal. rewrite Hmsg, (pad_one n) by (done || lia). rewrite <- Hmsg, map_app, fold_left_app.
    cbn [map fold_left app]. by rewrite (Z.mul_comm 8).
Qed.

(** ** The loops compute the functions of the standard *)

(** A 32-bit word. *)
Definition word (x : Z) : Prop := 0 <= x < 2 ^ 32.

Lemma word_bit x i : word x -> 32 <= i -> Z.testbit x i = false.
Proof.
  intros [H0 H1] Hi. rewrite <- (Z.mod_small x (2 ^ 32)) by done. by apply Z.mod_pow2_bits_high.
Qed.

Lemma word_mod x : word (x mod 2 ^ 32).
Proof. apply Z.mod_pos_bound. done. Qed.

Lemma word_lxor x y : word x -> word y -> word (Z.lxor x y).
Proof.
  intros Hx Hy. assert (E : Z.lxor x y mod 2 ^ 32 = Z.lxor x y); [|rewrite <- E; apply word_mod].
  apply Z.bits_inj'. intros i Hi. destruct (decide (i < 32)) as [Hlt|Hge].
  - by apply Z.mod_pow2_bits_low.
  - rewrite Z.mod_pow2_bits_high, Z.lxor_spec, !word_bit by (done || lia). done.
Qed.

Lemma word_nth W t : Forall word W -> word (nth t W 0).
Proof.
  intros H. destruct (nth_in_or_default t W 0) as [Hi| ->]; [|done].
  rewrite Forall_forall in H. apply H. by apply list_elem_of_In.
Qed.

Lemma rol_ROTL x n : word x -> 0 <= n <= 32 -> rol x n = Fips.ROTL n x.
Proof.
  intros Hx Hn. unfold rol, Fips.ROTL, u32.
  rewrite <- !Z.land_ones, Z.land_lor_distr_l by lia. f_equal.
  rewrite Z.land_ones by lia. apply Z.mod_small. rewrite Z.shiftr_div_pow2 by lia. destruct Hx as [Hx1 Hx2].
  pose proof (Z.pow_pos_nonneg 2 (32 - n) ltac:(lia) ltac:(lia)).
  split; [apply Z.div_pos; lia|]. apply Z.div_lt_upper_bound; nia.
Qed.

Lemma word_rol x n : word (rol x n).
Proof. apply word_mod. Qed.

Lemma choose_Ch b c d : word d -> f_choose b c d = Fips.Ch b c d.
Proof.
  intros Hd. unfold f_choose, Fips.Ch, Fips.complement. apply Z.bits_inj'. intros i Hi.
  change (2 ^ 32 - 1) with (Z.ones 32).
  rewrite Z.lor_spec, Z.lxor_spec, !Z.land_spec, Z.lnot_spec, Z.lxor_spec by done.
  destruct (decide (i < 32)) as [Hlt|Hge].
  - rewrite Z.ones_spec_low by lia. by destruct (Z.testbit b i), (Z.testbit c i), (Z.testbit d i).
  - rewrite (word_bit d i) by (done || lia). rewrite !andb_false_r. by destruct (_ && _).
Qed.

Lemma parity_Parity b c d : f_parity b c d = Fips.Parity b c d.
Proof. apply Z.lxor_assoc. Qed.

Lemma majority_Maj b c d : f_majority b c d = Fips.Maj b c d.
Proof.
  unfold f_majority, Fips.Maj. apply Z.bits_inj'. intros i _.
  rewrite !Z.lor_spec, !Z.lxor_spec, !Z.land_spec.
  by destruct (Z.testbit b i), (Z.testbit c i), (Z.testbit d i).
Qed.

Lemma f_t_f t b c d : word d -> f_t t b c d = Fips.f t b c d /\ k_t t = Fips.K t.
Proof.
  intros Hd. unfold f_t, Fips.f, k_t, Fips.K. destruct (_ <? _)%nat; [by rewrite choose_Ch|].
  destruct (_ <? _)%nat; [by rewrite parity_Parity|].
  destruct (_ <? _)%nat; [by rewrite majority_Maj|by rewrite parity_Parity].
Qed.

(** A sum reduced at the end or after every addition. *)
Lemma add_five a b c d e :
  Fips.add (Fips.add (Fips.add (Fips.add a b) c) d) e = u32 (a + b + c + d + e).
Proof.
  unfold Fips.add, u32.
  by rewrite (Zplus_mod_idemp_l (a + b) c), (Zplus_mod_idemp_l (a + b + c) d), Zplus_mod_idemp_l.
Qed.

(** The registers as five words. *)
Definition regs_of (st : Fips.words5) : regs := let '(a, b, c, d, e) := st in mkRegs a b c d e.
Definition list_of (st : Fips.words5) : list Z := let '(a, b, c, d, e) := st in [a; b; c; d; e].
Definition all_words (st : Fips.words5) : Prop := Forall word (list_of st).

Lemma round_exact W st t :
  Forall word W -> all_words st ->
  round_t W (regs_of st) t = regs_of (Fips.round W st t) /\ all_words (Fips.round W st t).
Proof.
  intros HW Hst. destruct st as [[[[a b] c] d] e].
  unfold all_words, list_of in *. rewrite !Forall_cons in Hst. destruct Hst as (Ha & Hb & Hc & Hd & He & _).
  pose proof (word_rol b 30) as Hb'. unfold round_t, sha1macro, regs_of, Fips.round. cbn [ra rb rc rd re].
  destruct (f_t_f t b c d Hd) as [-> ->]. rewrite rol_ROTL in Hb' by (done || lia).
  rewrite !rol_ROTL by (done || lia). split.
  - by rewrite add_five.
  - rewrite !Forall_cons. split_and!; try done. apply word_mod.
Qed.

Lemma rounds_exact W ts st :
  Forall word W -> all_words st ->
  fold_left (round_t W) ts (regs_of st) = regs_of (fold_left (Fips.round W) ts st) /\
  all_words (fold_left (Fips.round W) ts st).
Proof.
  intros HW. revert st. induction ts as [|t ts IH]; intros st Hst; [done|]. cbn [fold_left].
  destruct (round_exact W st t HW Hst) as [-> Hst']. by apply IH.
Qed.

Lemma schedule_exact n W : Forall word W -> extend n W = Fips.schedule n W /\ Forall word (extend n W).
Proof.
  revert W. induction n as [|n IH]; intros W HW; [done|]. cbn [extend Fips.schedule].
  assert (E : next_word W = Fips.ROTL 1 (Z.lxor (nth (length W - 3) W 0) (Z.lxor (nth (length W - 8) W 0)
    (Z.lxor (nth (length W - 14) W 0) (nth (length W - 16) W 0))))).
  { unfold next_word. rewrite !Z.lxor_assoc. apply rol_ROTL; [|lia]. repeat apply word_lxor; by apply word_nth. }
  rewrite <- E. apply IH. apply Forall_app. split; [done|]. constructor; [|done]. apply word_rol.
Qed.

Lemma compress_exact H ws :
  all_words H -> Forall word ws ->
  compress (list_of H) ws = list_of (Fips.hash_block H ws) /\ all_words (Fips.hash_block H ws).
Proof.
  intros HH Hws. destruct (schedule_exact 64 ws Hws) as [E HW].
  destruct (rounds_exact (extend 64 ws) (seq 0 80) H HW HH) as [Er _].
  destruct H as [[[[h0 h1] h2] h3] h4]. unfold Fips.hash_block, compress, list_of at 1. cbn [regs_of] in Er.
  rewrite Er, <- E.
  destruct (fold_left (Fips.round (extend 64 ws)) (seq 0 80) (h0, h1, h2, h3, h4)) as [[[[a b] c] d] e]. cbn [regs_of ra rb rc rd re]. split.
  - unfold list_of, u32, Fips.add. by rewrite !(Z.add_comm _ a), !(Z.add_comm _ b), !(Z.add_comm _ c),
      !(Z.add_comm _ d), !(Z.add_comm _ e).
  - unfold all_words, list_of. rewrite !Forall_cons. split_and!; try apply word_mod. done.
Qed.

Lemma blocks_exact Ms H :
  all_words H -> Forall (Forall word) Ms ->
  fold_left compress Ms (list_of H) = list_of (fold_left Fips.hash_block Ms H).
Proof.
  intros HH HM. revert H HH. induction HM as [|M Ms HM _ IH]; intros H HH; [done|]. cbn [fold_left].
  destruct (compress_exact H M HH HM) as [-> HH']. by apply IH.
Qed.

Lemma word_block blk : Forall word (block_words blk).
Proof. apply Forall_forall. intros x (i & -> & _)%list_elem_of_fmap. apply be32_range. Qed.

Lemma u8_land x : u8 (Z.land x 255) = u8 x.
Proof. change 255 with (Z.ones 8). rewrite Z.land_ones by lia. unfold u8. by rewrite Z.mod_mod. Qed.

Lemma store_digest H : store_hash (list_of H) = Fips.digest H.
Proof.
  destruct H as [[[[h0 h1] h2] h3] h4]. unfold store_hash. cbn [seq map]. rewrite !u8_land.
  unfold Fips.digest, Fips.word_bytes, list_of. cbn [concat map app].
  repeat match goal with |- context [Z.shiftr ?a ?n] =>
    rewrite (Z.shiftr_div_pow2 a n) by (vm_compute; discriminate) end.
  repeat f_equal; cbn; by rewrite ?Z.div_1_r.
Qed.

Lemma calc_sha1_ref w0 msg :
  length w0 = 80%nat -> 8 * zlen msg < 2 ^ 32 -> calc w0 msg = Ret (sha1_ref msg).
Proof.
  intros Hw Hm. rewrite calc_loops by done. f_equal. unfold sha1_loops, sha1_ref.
  change H0 with (list_of Fips.H0). rewrite blocks_exact, store_digest; [done|..].
  - unfold all_words, list_of, Fips.H0, word. repeat constructor; lia.
  - apply Forall_forall. intros M (blk & -> & _)%list_elem_of_fmap. apply word_block.
Qed.

(** ** Claims *)

(** C28: equivalence. For a message shorter than 2^29 bytes the implementation
    returns the SHA-1 digest of FIPS 180-4, whatever its uninitialised round
    buffer contains. *)
Theorem calc_is_sha1 w0 msg :
  length w0 = 80%nat -> 8 * zlen msg < 2 ^ 32 -> calc w0 msg = Ret (sha1_ref msg).
Proof. apply calc_sha1_ref. Qed.

Lemma calc_is_sha1_witness : calc w_any (str "abc") = Ret (sha1_ref (str "abc")).
Proof. apply calc_is_sha1; [reflexivity|vm_compute; reflexivity]. Defined.
