(* ===== verification/Hash.v ===== *)
(** * Hash: SHA-1 hashes of torrents and pieces (src/hash.hpp, src/hash.cpp) *)
From S2P Require Import Prelude Wire Sha1 Sha1Spec.
Local Open Scope Z_scope.

(** ** Operations *)

(** [hash_t] is [std::array<uint8_t, 20>]: a list of 20 bytes. *)
Abbreviation hash_t := (list byte).
Definition hash_ok (h : hash_t) : Prop := length h = 20%nat.

Inductive HashError : Type :=
| MalformedPieceHashesString
| PieceHashesStringTooLarge.

(** [error_to_string]. *)
Definition hash_error_to_string (error : HashError) : string :=
  match error with
  | MalformedPieceHashesString => "malformed piece hashes string"
  | PieceHashesStringTooLarge => "piece hashes string is too large"
  end.

(** [hash_to_str]. *)
Definition hash_to_str (hash : hash_t) : bytes := hash.

(** [hash_to_hex]: the first 40 characters of the buffer. *)
Definition hash_to_hex (hash : hash_t) : bytes := take 40 (toHexString hash).

(** [compute_info_hash]. *)
Definition compute_info_hash (bencoded_info_dict : bytes) : cxx hash_t :=
  if int32_max <? zlen bencoded_info_dict
  then Throw (invalid_argument "input info dict is too large")
  else calc w_any bencoded_info_dict.

(** [this_hash]: 20 zeros overwritten by at most 20 characters from [i] on. *)
Definition copy_hash (s : bytes) (i : Z) : hash_t :=
  let chars := take 20 (drop (Z.to_nat i) s) in
  chars ++ drop (length chars) (replicate 20 x00).

(** The loop of [split_piece_hashes], with a budget of iterations. *)
Fixpoint split_loop (fuel : nat) (s : bytes) (i : Z) : cxx (list hash_t) :=
  match fuel with
  | O => NoFuel
  | S fuel =>
      if i <? zlen s then
        rest ← split_loop fuel s (i + 20);
        Ret (copy_hash s i :: rest)
      else Ret []
  end.

(** [split_piece_hashes]. *)
Definition split_piece_hashes (piece_hashes_str : bytes) : cxx (Result (list hash_t) HashError) :=
  if int64_max <? zlen piece_hashes_str then Ret (ERROR PieceHashesStringTooLarge)
  else if 0 <? zlen piece_hashes_str mod 20 then Ret (ERROR MalformedPieceHashesString)
  else
    result ← split_loop (S (length piece_hashes_str)) piece_hashes_str 0;
    Ret (OK result).

(** [verify_piece]. *)
Definition verify_piece (piece : bytes) (hash : hash_t) : cxx bool :=
  if int32_max <? zlen piece then Throw (invalid_argument "piece is too big")
  else buffer ← calc w_any piece; Ret (bool_decide (buffer = hash)).

Example hash_to_hex_ex :
  hash_to_hex [x00; x00; x00; x00; x00; x00; x00; x00; xaa; x00; x00; x00; xff; x00;
               x00; x00; x00; xcc; x00; x00] = str "0000000000000000aa000000ff00000000cc0000".
Proof. vm_compute. reflexivity. Qed.

(** ** Lemmas *)

Lemma length_store_hash l : length (store_hash l) = 20%nat.
Proof. unfold store_hash. by rewrite length_map, length_seq. Qed.

Lemma calc_length w src h : calc w src = Ret h -> length h = 20%nat.
Proof.
  unfold calc. destruct (full_blocks _ _ _ _) as [[rest result] w1].
  destruct (if bool_decide _ then _ else _) as [result2 w2]. destruct (_ <=? _); [done|].
  destruct (innerHash _ _) as [result3 w3]. intros [= <-]. apply length_store_hash.
Qed.

Lemma calc_sha1 msg : 8 * zlen msg < 2 ^ 32 -> calc w_any msg = Ret (sha1_ref msg).
Proof. apply calc_sha1_ref. done. Qed.

Lemma copy_hash_full s i :
  0 <= i -> i + 20 <= zlen s -> copy_hash s i = take 20 (drop (Z.to_nat i) s).
Proof.
  intros H0 Hi. unfold copy_hash. unfold zlen in Hi.
  rewrite length_take, length_drop, Nat.min_l by lia. by rewrite app_nil_r.
Qed.

(** With the whole string in pieces of 20 left, the loop cuts them off in order. *)
Lemma split_loop_spec n fuel s i :
  0 <= i -> zlen s = i + 20 * Z.of_nat n -> (n < fuel)%nat ->
  exists hs, split_loop fuel s i = Ret hs /\ length hs = n /\
    Forall hash_ok hs /\ concat hs = drop (Z.to_nat i) s.
Proof.
  revert fuel i. induction n as [|n IH]; intros [|fuel] i Hi Hs Hf; try lia; cbn [split_loop].
  - destruct (Z.ltb_spec i (zlen s)); [lia|]. exists []. split_and!; [done..|].
    symmetry. apply drop_ge. unfold zlen in Hs. lia.
  - destruct (Z.ltb_spec i (zlen s)); [|lia].
    destruct (IH fuel (i + 20)) as (hs & -> & Hl & Hok & Hc); [lia..|].
    eexists. split; [reflexivity|]. rewrite copy_hash_full by lia. unfold zlen in Hs.
    split_and!.
    + simpl. lia.
    + constructor; [|done]. unfold hash_ok. rewrite length_take, length_drop. lia.
    + simpl. rewrite Hc. replace (Z.to_nat (i + 20)) with (Z.to_nat i + 20)%nat by lia.
      by rewrite <- drop_drop, take_drop.
Qed.

Lemma split_piece_hashes_ok s :
  zlen s <= int64_max -> zlen s mod 20 = 0 ->
  exists hs, split_piece_hashes s = Ret (OK hs) /\ concat hs = s /\
    Forall hash_ok hs /\ zlen hs = zlen s / 20.
Proof.
  intros Hmax Hmod. unfold split_piece_hashes.
  destruct (Z.ltb_spec int64_max (zlen s)); [lia|]. rewrite Hmod. cbn [Z.ltb Z.compare].
  pose proof (Z.div_mod (zlen s) 20 ltac:(lia)).
  assert (0 <= zlen s / 20) by (apply Z.div_pos; zlen_lia).
  destruct (split_loop_spec (Z.to_nat (zlen s / 20)) (S (length s)) s 0) as (hs & -> & Hl & Hok & Hc);
    [lia|lia|unfold zlen in *; lia|].
  exists hs. split_and!; [done|by rewrite Hc|done|]. unfold zlen at 1. lia.
Qed.

Lemma split_piece_hashes_inv s r :
  split_piece_hashes s = Ret r ->
  match r with
  | OK hs => concat hs = s /\ Forall hash_ok hs /\ zlen hs = zlen s / 20 /\ zlen s mod 20 = 0
  | ERROR MalformedPieceHashesString => zlen s mod 20 <> 0
  | ERROR PieceHashesStringTooLarge => int64_max < zlen s
  end.
Proof.
  intros H. destruct (Z.ltb_spec int64_max (zlen s)) as [Hmax|Hmax].
  { unfold split_piece_hashes in H. destruct (Z.ltb_spec int64_max (zlen s)); [|lia].
    by injection H as <-. }
  pose proof (Z.mod_pos_bound (zlen s) 20 ltac:(lia)).
  destruct (decide (zlen s mod 20 = 0)) as [Hmod|Hmod].
  - destruct (split_piece_hashes_ok s Hmax Hmod) as (hs & E & Hc & Hok & Hl).
    rewrite E in H. injection H as <-. done.
  - unfold split_piece_hashes in H. destruct (Z.ltb_spec int64_max (zlen s)); [lia|].
    destruct (Z.ltb_spec 0 (zlen s mod 20)); [|lia]. by injection H as <-.
Qed.

(** The value of a hexadecimal digit. *)
Definition hex_val (c : byte) : Z := if b2z c <? 58 then b2z c - 48 else b2z c - 87.

Lemma hex_val_digit d : 0 <= d < 16 -> hex_val (hex_digit d) = d.
Proof.
  intros Hd. assert (Hc : d = Z.of_nat (Z.to_nat d)) by lia. rewrite Hc.
  assert (Hn : (Z.to_nat d < 16)%nat) by lia. generalize dependent (Z.to_nat d).
  intros n _ Hn. do 16 (destruct n as [|n]; [reflexivity|]). lia.
Qed.

Lemma toHexString_inj a b : toHexString a = toHexString b -> a = b.
Proof.
  revert b. induction a as [|x a IH]; intros [|y b] H; simpl in H; try done.
  injection H as H1 H2 H3. f_equal; [|by apply IH]. apply b2z_inj.
  pose proof (b2z_range x). pose proof (b2z_range y).
  apply (f_equal hex_val) in H1, H2.
  rewrite !hex_val_digit in H1, H2; change 15 with (Z.ones 4) in *;
    rewrite ?Z.land_ones in * by lia; try (apply Z.mod_pos_bound; lia).
  rewrite !Z.shiftr_div_pow2 in H1 by lia. change (2 ^ 4) with 16 in *.
  Z.div_mod_to_equations. lia.
Qed.

Lemma length_toHexString h : length (toHexString h) = (2 * length h)%nat.
Proof.
  unfold toHexString. induction h as [|x h IH]; [done|].
  cbn [map concat]. rewrite length_app, IH. cbn [length]. lia.
Qed.

(** ** Claims *)

(** [split_piece_hashes] cuts a string whose length is a multiple of 20
    into its consecutive 20-byte hashes (their concatenation is the string),
    reports a malformed string otherwise, and always returns. *)
Theorem split_piece_hashes_spec s :
  zlen s <= int64_max ->
  (zlen s mod 20 = 0 -> exists hs, split_piece_hashes s = Ret (OK hs) /\ concat hs = s /\
     Forall hash_ok hs /\ zlen hs = zlen s / 20) /\
  (zlen s mod 20 <> 0 -> split_piece_hashes s = Ret (ERROR MalformedPieceHashesString)).
Proof.
  intros Hmax. split; [by apply split_piece_hashes_ok|]. intros Hmod.
  pose proof (Z.mod_pos_bound (zlen s) 20 ltac:(lia)).
  unfold split_piece_hashes. destruct (Z.ltb_spec int64_max (zlen s)); [lia|].
  destruct (Z.ltb_spec 0 (zlen s mod 20)); [done|lia].
Qed.

Lemma split_piece_hashes_spec_witness :
  split_piece_hashes (str "abc") = Ret (ERROR MalformedPieceHashesString).
Proof. apply split_piece_hashes_spec; vm_compute; discriminate. Defined.

(** [verify_piece] accepts a piece exactly when its SHA-1 digest is the
    expected hash, for pieces shorter than 2^29 bytes. *)
Theorem verify_piece_correct piece h :
  8 * zlen piece < 2 ^ 32 ->
  verify_piece piece h = Ret (bool_decide (sha1_ref piece = h)).
Proof.
  intros Hlen. unfold verify_piece, int32_max.
  destruct (Z.ltb_spec (2 ^ 31 - 1) (zlen piece)); [lia|]. by rewrite calc_sha1 by done.
Qed.

Lemma verify_piece_correct_witness :
  verify_piece (str "abc") (str "abc") = Ret (bool_decide (sha1_ref (str "abc") = str "abc")).
Proof. apply verify_piece_correct. vm_compute. reflexivity. Defined.

(** [hash_to_hex] prints 40 characters that determine the hash. *)
Theorem hash_to_hex_injective h1 h2 :
  hash_ok h1 -> hash_ok h2 ->
  length (hash_to_hex h1) = 40%nat /\ (hash_to_hex h1 = hash_to_hex h2 -> h1 = h2).
Proof.
  unfold hash_ok, hash_to_hex. intros H1 H2.
  rewrite !firstn_all2 by (rewrite length_toHexString; lia).
  split; [rewrite length_toHexString; lia|apply toHexString_inj].
Qed.

Lemma hash_to_hex_injective_witness :
  length (hash_to_hex (replicate 20 xab)) = 40%nat /\
  (hash_to_hex (replicate 20 xab) = hash_to_hex (replicate 20 xab) ->
   replicate 20 xab = replicate 20 xab).
Proof. apply hash_to_hex_injective; reflexivity. Defined.
