(* ===== verification/Descriptor.v ===== *)
(** * Descriptor: the parsed .torrent file (src/torrent.hpp, src/torrent.cpp)

    [File], [TorrentFile] and the constructor that reads a bencode tree. A
    failed [at] or [dynamic_cast] is an exception; the [int64_t] additions of
    the constructor and its division are checked. Logging is left out. *)
From S2P Require Import Prelude Text Bencode BencodeSpec Sha1 Sha1Spec Hash.
Local Open Scope Z_scope.

(** ** Data *)

Record File : Type := mkFile { filepath : list bytes; flength : Z }.

Record TorrentFile : Type := mkTorrentFile {
  announce_url : bytes;
  info_hash : hash_t;
  piece_hashes : list hash_t;
  piece_length : Z;
  tlength : Z;
  pieces_count : Z;
  name : bytes;
  folder_name : bytes;
  files : list File;
}.

(** [TorrentFile()]. *)
Definition TorrentFile_empty : TorrentFile :=
  mkTorrentFile [] (replicate 20 x00) [] 0 0 0 [] [] [].

(** ** Operations *)

(** The loop of [File::filename]: a slash after every section but the last. *)
Fixpoint filename_loop (size i : Z) (sections : list bytes) : bytes :=
  match sections with
  | [] => []
  | section :: sections =>
      section ++ (if i =? size - 1 then [] else str "/") ++ filename_loop size (i + 1) sections
  end.

(** [File::filename]. *)
Definition filename (f : File) : cxx bytes :=
  if int64_max <? zlen (filepath f) then Throw (invalid_argument "file's path is too long")
  else Ret (filename_loop (zlen (filepath f)) 0 (filepath f)).

(** The loop over the path of a file. *)
Fixpoint read_path (nodes : list BencodeValue) : cxx (list bytes) :=
  match nodes with
  | [] => Ret []
  | path_node :: nodes =>
      segment ← as_string path_node;
      rest ← read_path nodes;
      Ret (segment :: rest)
  end.

(** The loop over the "files" list, with the total length so far. *)
Fixpoint read_files (nodes : list BencodeValue) (length : Z) : cxx (Z * list File) :=
  match nodes with
  | [] => Ret (length, [])
  | file_node :: nodes =>
      file_dict ← as_dict file_node;
      len_node ← map_at (str "length") file_dict;
      len ← as_int len_node;
      length ← i64 (length + len);
      path_node ← map_at (str "path") file_dict;
      path_list ← as_list path_node;
      path ← read_path path_list;
      rest ← read_files nodes length;
      Ret (rest.1, mkFile path len :: rest.2)
  end.

(** The length and the files of the info dictionary, by the presence of "files". *)
Definition read_layout (info_dict : list (bytes * BencodeValue)) (name : bytes)
  : cxx (Z * list File) :=
  match map_find (str "files") info_dict with
  | Some _ =>
      files_node ← map_at (str "files") info_dict;
      files_list ← as_list files_node;
      read_files files_list 0
  | None =>
      len_node ← map_at (str "length") info_dict;
      len ← as_int len_node;
      Ret (len, [mkFile [name] len])
  end.

(** [TorrentFile(const BencodeValue&)]. *)
Definition TorrentFile_new (tree : BencodeValue) : cxx TorrentFile :=
  dict ← as_dict tree;
  announce_node ← map_at (str "announce") dict;
  announce_url ← as_string announce_node;
  bencode_info_dict ← map_at (str "info") dict;
  info_dict ← as_dict bencode_info_dict;
  let encoded_info_dict := encode bencode_info_dict in
  info_hash ← compute_info_hash encoded_info_dict;
  name_node ← map_at (str "name") info_dict;
  name ← as_string name_node;
  layout ← read_layout info_dict name;
  let '(length, files) := layout in
  plen_node ← map_at (str "piece length") info_dict;
  plen ← as_int plen_node;
  let piece_length := to_int plen in
  pieces_node ← map_at (str "pieces") info_dict;
  pieces ← as_string pieces_node;
  r_hashes ← split_piece_hashes pieces;
  match r_hashes with
  | ERROR _ => Throw (invalid_argument "Malformed piece hashes string")
  | OK piece_hashes =>
      if int64_max <? zlen piece_hashes then Throw (out_of_range "number of pieces is too high")
      else
        n ← i64 (length + piece_length);
        n ← i64 (n - 1);
        pieces_count ← i64_div n piece_length;
        if negb (pieces_count =? zlen piece_hashes) then
          Throw (logic_error "number of piece hashes does not match with length/pieceLength")
        else
          Ret (mkTorrentFile announce_url info_hash piece_hashes piece_length length
                 pieces_count name [] files)
  end.

(** ** What a .torrent file says *)

(** The tree of a .torrent file: the announce URL and an info dictionary with
    the layout of the files, the name, the piece length and the hashes. *)
Definition info_node (layout : bytes * BencodeValue) (nm : bytes) (plen : Z)
  (hashes : list hash_t) : BencodeValue :=
  BencodeDict [layout; (str "name", BencodeString nm); (str "piece length", BencodeInt plen);
               (str "pieces", BencodeString (concat hashes))].
Definition metainfo (url : bytes) (layout : bytes * BencodeValue) (nm : bytes) (plen : Z)
  (hashes : list hash_t) : BencodeValue :=
  BencodeDict [(str "announce", BencodeString url); (str "info", info_node layout nm plen hashes)].

(** The layout of a multi-file torrent. *)
Definition file_node (f : File) : BencodeValue :=
  BencodeDict [(str "length", BencodeInt (flength f));
               (str "path", BencodeList (map BencodeString (filepath f)))].
Definition multi_layout (fs : list File) : bytes * BencodeValue :=
  (str "files", BencodeList (map file_node fs)).

(** The layout of a single-file torrent. *)
Definition single_layout (n : Z) : bytes * BencodeValue := (str "length", BencodeInt n).

(** The info dictionary of a tree. *)
Definition info_of (tree : BencodeValue) : option BencodeValue :=
  match tree with BencodeDict d => map_find (str "info") d | _ => None end.

(** What the constructor guarantees of the descriptor it builds. *)
Record descriptor_ok (tf : TorrentFile) : Prop := {
  dok_length : tlength tf = zsum (map flength (files tf));
  dok_count : pieces_count tf = zlen (piece_hashes tf);
  dok_hashes : Forall hash_ok (piece_hashes tf);
  dok_plen : piece_length tf <> 0 /\ - 2 ^ 31 <= piece_length tf < 2 ^ 31;
  dok_ceil : pieces_count tf = Z.quot (tlength tf + piece_length tf - 1) (piece_length tf);
  dok_info : hash_ok (info_hash tf);
}.

(** ** Lemmas *)

(** The sections of a path with slashes between them. *)
Fixpoint join_path (sections : list bytes) : bytes :=
  match sections with
  | [] => []
  | [section] => section
  | section :: sections => section ++ str "/" ++ join_path sections
  end.

Lemma filename_loop_join sections size i :
  size = i + zlen sections -> filename_loop size i sections = join_path sections.
Proof.
  revert i. induction sections as [|a l IH]; intros i Hs; [done|].
  cbn [filename_loop]. rewrite IH by zlen_lia.
  destruct l as [|b l]; autorewrite with furrent in Hs.
  - destruct (Z.eqb_spec i (size - 1)); [|lia]. simpl. by rewrite app_nil_r.
  - destruct (Z.eqb_spec i (size - 1)); [zlen_lia|done].
Qed.

Lemma filename_join f :
  zlen (filepath f) <= int64_max -> filename f = Ret (join_path (filepath f)).
Proof.
  intros H. unfold filename. destruct (Z.ltb_spec int64_max (zlen (filepath f))); [lia|].
  by rewrite filename_loop_join by lia.
Qed.

(** A digest is returned only for an input of fewer than 2^29 bytes. *)
Lemma calc_ret w src h : calc w src = Ret h -> 8 * zlen src < 2 ^ 32.
Proof.
  unfold calc. destruct (full_blocks _ _ _ _) as [[rest result] w1].
  destruct (if bool_decide _ then _ else _) as [result2 w2].
  destruct (Z.leb_spec (2 ^ 32) (zlen src * 8)); [done|lia].
Qed.

Lemma compute_info_hash_ret s h : compute_info_hash s = Ret h -> h = sha1_ref s /\ hash_ok h.
Proof.
  unfold compute_info_hash. destruct (_ <? _); [done|]. intros H.
  pose proof (calc_length _ _ _ H). split; [|done].
  pose proof (calc_ret _ _ _ H). rewrite calc_sha1 in H by done. congruence.
Qed.

Lemma compute_info_hash_ok s : 8 * zlen s < 2 ^ 32 -> compute_info_hash s = Ret (sha1_ref s).
Proof.
  intros H. unfold compute_info_hash, int32_max.
  destruct (Z.ltb_spec (2 ^ 31 - 1) (zlen s)); [lia|]. by apply calc_sha1.
Qed.

Lemma read_path_strings p : read_path (map BencodeString p) = Ret p.
Proof. induction p as [|s p IH]; simpl; [done|]. by rewrite IH. Qed.

Lemma map_at_here {V} k (v : V) m : map_at k ((k, v) :: m) = Ret v.
Proof. unfold map_at. simpl. by rewrite decide_True. Qed.

Lemma map_at_skip {V} k k' (v : V) m : k <> k' -> map_at k ((k', v) :: m) = map_at k m.
Proof. intros H. unfold map_at. simpl. by rewrite decide_False. Qed.

(** Runs the reading of a tree with literal keys. *)
Ltac read_key :=
  repeat first [progress cbn [mbind cxx_bind fst snd as_dict as_int as_string as_list]
               |rewrite map_at_here
               |rewrite map_at_skip by (vm_compute; discriminate)].

Lemma read_files_nodes fs n :
  0 <= n -> Forall (fun f => 0 <= flength f) fs -> n + zsum (map flength fs) <= int64_max ->
  read_files (map file_node fs) n = Ret (n + zsum (map flength fs), fs).
Proof.
  intros Hn Hfs Hmax. revert n Hn Hmax. induction Hfs as [|f fs Hf Hfs IH]; intros n Hn Hmax.
  { simpl. by rewrite Z.add_0_r. }
  cbn [map read_files zsum foldr] in *. fold (zsum (map flength fs)) in *.
  assert (Hs : 0 <= zsum (map flength fs)) by (apply zsum_nonneg, Forall_map; done).
  change (as_dict (file_node f)) with
    (Ret [(str "length", BencodeInt (flength f));
          (str "path", BencodeList (map BencodeString (filepath f)))]).
  read_key. unfold int64_max in Hmax. rewrite i64_ok by lia. read_key.
  rewrite read_path_strings. run_bind. rewrite IH by (unfold int64_max; lia). run_bind.
  destruct f. do 2 f_equal. simpl. lia.
Qed.

Lemma read_files_inv nodes n r :
  read_files nodes n = Ret r -> r.1 = n + zsum (map flength r.2).
Proof.
  revert n r. induction nodes as [|node nodes IH]; intros n r H; cbn [read_files] in H.
  - inv_ret. simpl. lia.
  - inv_ret. simpl in *. apply IH in Hx6. apply i64_ret in Hx2 as [-> _].
    lia.
Qed.

Lemma read_layout_inv info nm r :
  read_layout info nm = Ret r -> r.1 = zsum (map flength r.2).
Proof.
  unfold read_layout. destruct (map_find _ info); intros H; inv_ret.
  - by apply read_files_inv in H.
  - simpl. lia.
Qed.

(** What the constructor returns satisfies [descriptor_ok], and the info hash is
    the SHA-1 digest of the encoded info dictionary. *)
Lemma TorrentFile_new_ok tree tf :
  TorrentFile_new tree = Ret tf ->
  descriptor_ok tf /\
  exists info, info_of tree = Some info /\ info_hash tf = sha1_ref (encode info).
Proof.
  unfold TorrentFile_new. intros H. inv_ret.
  match goal with H : read_layout _ _ = Ret ?l |- _ => destruct l as [length files];
    apply read_layout_inv in H as Hlen end.
  inv_ret. match goal with H : split_piece_hashes _ = Ret ?r |- _ =>
    destruct r as [hashes|]; [|done]; apply split_piece_hashes_inv in H as (_ & Hhs & _) end.
  destruct (Z.ltb_spec int64_max (zlen hashes)); [done|]. inv_ret.
  unfold i64_div in *. case_bool_decide as Hz; [done|].
  repeat match goal with H : i64 _ = Ret _ |- _ => apply i64_ret in H as [-> _] end.
  match goal with H : (if negb (?a =? ?b) then _ else _) = _ |- _ =>
    destruct (Z.eqb_spec a b) as [Hc|]; [|done] end.
  cbn [negb] in H. inv_ret.
  match goal with H : compute_info_hash _ = Ret _ |- _ =>
    apply compute_info_hash_ret in H as [Hh Hok] end.
  split; [split; simpl; try done; split; [done|apply to_int_range]|].
  match goal with H : map_at (str "info") _ = Ret ?i |- _ => exists i; split; [|done];
    rename H into Hinfo end.
  destruct tree; try done. simpl in *. inv_ret.
  unfold map_at in Hinfo. destruct (map_find _ _); [congruence|done].
Qed.

Lemma concat_hashes_zlen hs : Forall hash_ok hs -> zlen (concat hs) = 20 * zlen hs.
Proof.
  induction 1 as [|h hs Hh Hhs IH]; [done|]. cbn [concat].
  rewrite zlen_app, IH, zlen_cons. unfold zlen at 1. unfold hash_ok in Hh. lia.
Qed.

(** A list of hashes is determined by its concatenation. *)
Lemma concat_hashes_inj hs hs' :
  Forall hash_ok hs -> Forall hash_ok hs' -> concat hs = concat hs' -> hs = hs'.
Proof.
  intros Hhs. revert hs'. induction Hhs as [|h hs Hh Hhs IH]; intros hs' Hhs' E.
  - destruct Hhs' as [|h' hs' Hh' Hhs']; [done|]. by destruct h'.
  - destruct Hhs' as [|h' hs' Hh' Hhs']; [by destruct h|]. cbn [concat] in E.
    unfold hash_ok in *. apply app_inj_1 in E as [-> E]; [|congruence]. f_equal. by apply IH.
Qed.

Lemma split_concat hs :
  Forall hash_ok hs -> 20 * zlen hs <= int64_max -> split_piece_hashes (concat hs) = Ret (OK hs).
Proof.
  intros Hhs Hmax. pose proof (concat_hashes_zlen hs Hhs) as Hl.
  destruct (split_piece_hashes_ok (concat hs)) as (hs' & -> & E & Hhs' & _).
  - lia.
  - rewrite Hl, Z.mul_comm. apply Z_mod_mult.
  - do 2 f_equal. by apply concat_hashes_inj.
Qed.

(** What the constructor does once the tree is read. *)
Definition checked (tf : TorrentFile) : cxx TorrentFile :=
  if bool_decide (piece_length tf = 0) then Undef DivisionByZero
  else if bool_decide (Z.quot (tlength tf + piece_length tf - 1) (piece_length tf) =
                       zlen (piece_hashes tf)) then Ret tf
  else Throw (logic_error "number of piece hashes does not match with length/pieceLength").

(** The descriptor of a .torrent file with the given fields. *)
Definition described (url : bytes) (layout : bytes * BencodeValue) (nm : bytes) (plen : Z)
  (hs : list hash_t) (len : Z) (fs : list File) : TorrentFile :=
  mkTorrentFile url (sha1_ref (encode (info_node layout nm plen hs))) hs (to_int plen) len
    (zlen hs) nm [] fs.

(** The layout entry [layout] gives the files [fs] of total length [len]. *)
Definition layout_of (layout : bytes * BencodeValue) (nm : bytes) (len : Z) (fs : list File)
  : Prop :=
  (layout = multi_layout fs /\ len = zsum (map flength fs) /\
     Forall (fun f => 0 <= flength f) fs) \/
  (layout = single_layout len /\ fs = [mkFile [nm] len]).

Lemma read_layout_of layout nm plen hs len fs :
  layout_of layout nm len fs -> len <= int64_max ->
  exists info_dict, info_node layout nm plen hs = BencodeDict info_dict /\
    read_layout info_dict nm = Ret (len, fs).
Proof.
  intros Hl Hmax. eexists. split; [reflexivity|]. unfold read_layout.
  destruct Hl as [(-> & Hlen & Hpos)|[-> ->]]; unfold multi_layout, single_layout.
  - cbn [map_find]. rewrite decide_True by done. read_key.
    rewrite read_files_nodes; [|lia|done|lia]. by rewrite Hlen.
  - cbn [map_find]. rewrite !decide_False by (vm_compute; discriminate). by read_key.
Qed.

(** The constructor on the tree of a .torrent file. *)
Lemma TorrentFile_new_metainfo url layout nm plen hs len fs :
  layout_of layout nm len fs -> 0 <= len <= int64_max - 2 ^ 31 -> Forall hash_ok hs ->
  8 * zlen (encode (info_node layout nm plen hs)) < 2 ^ 32 -> 20 * zlen hs <= int64_max ->
  TorrentFile_new (metainfo url layout nm plen hs) = checked (described url layout nm plen hs len fs).
Proof.
  intros Hl Hlen Hhs Hi Hmax.
  destruct (read_layout_of layout nm plen hs len fs Hl ltac:(lia)) as (d & Hd & Hr).
  unfold TorrentFile_new, metainfo. read_key. rewrite compute_info_hash_ok by done.
  rewrite Hd at 1. read_key. injection Hd as <-.
  assert (Hk : layout.1 = str "files" \/ layout.1 = str "length").
  { destruct Hl as [(-> & _)|(-> & _)]; auto. }
  destruct layout as [k v]; simpl in Hk.
  assert (Hskip : forall k' m, k' <> str "files" -> k' <> str "length" ->
            map_at k' ((k, v) :: m) = map_at k' m).
  { intros k' m H1 H2. apply map_at_skip. destruct Hk; congruence. }
  rewrite !Hskip by (vm_compute; discriminate). read_key. rewrite Hr. read_key.
  rewrite split_concat by done. run_bind.
  destruct (Z.ltb_spec int64_max (zlen hs)); [zlen_lia|].
  pose proof (to_int_range plen). unfold int64_max in *.
  rewrite i64_ok by lia. run_bind. rewrite i64_ok by lia. run_bind.
  unfold checked, i64_div, described; cbn [piece_length tlength piece_hashes]. case_bool_decide as Hz; [done|].
  rewrite i64_ok.
  2:{ pose proof (Z.quot_abs (len + to_int plen - 1) (to_int plen) Hz).
      pose proof (Z.abs_nonneg (len + to_int plen - 1)).
      assert (Z.abs (len + to_int plen - 1) ÷ Z.abs (to_int plen) <= Z.abs (len + to_int plen - 1)).
      { apply Z.quot_le_upper_bound; nia. }
      lia. }
  run_bind. destruct (Z.eqb_spec (Z.quot (len + to_int plen - 1) (to_int plen)) (zlen hs)) as [E|E];
    cbn [negb]; [rewrite bool_decide_true by done|rewrite bool_decide_false by done]; [|done].
  by rewrite E.
Qed.

(** A ceiling division by a positive length. *)
Lemma quot_ceil n p :
  0 <= n -> 0 < p ->
  (Z.quot (n + p - 1) p - 1) * p < n <= Z.quot (n + p - 1) p * p \/
  (n = 0 /\ Z.quot (n + p - 1) p = 0).
Proof.
  intros Hn Hp. rewrite Z.quot_div_nonneg by lia.
  pose proof (Z.div_mod (n + p - 1) p ltac:(lia)). pose proof (Z.mod_pos_bound (n + p - 1) p Hp).
  destruct (decide (n = 0)) as [->|]; [|left; nia].
  right. split; [done|]. apply Z.div_small. lia.
Qed.

(** ** Claims *)

(** C26: invariant. A descriptor the constructor returns has the total length
    of its files, one 20-byte hash per piece, a piece length in the range of
    [int] and not zero, a number of pieces that is the length divided by the
    piece length rounded up, and the SHA-1 digest of the encoded info
    dictionary as its info hash. *)
Theorem TorrentFile_invariant tree tf :
  TorrentFile_new tree = Ret tf ->
  descriptor_ok tf /\
  (exists info, info_of tree = Some info /\ info_hash tf = sha1_ref (encode info)) /\
  (0 < piece_length tf -> 0 < tlength tf ->
   (pieces_count tf - 1) * piece_length tf < tlength tf <= pieces_count tf * piece_length tf).
Proof.
  intros H. apply TorrentFile_new_ok in H as [Hok Hi]. split_and!; [done..|].
  intros Hp Hl. rewrite (dok_ceil _ Hok). 
  destruct (quot_ceil (tlength tf) (piece_length tf)) as [|[? ?]]; lia.
Qed.

(** A two-file torrent of two pieces. *)
Definition sample_files : list File :=
  [mkFile [str "a"] 10; mkFile [str "d"; str "b"] 30].
Definition sample_hashes : list hash_t := [replicate 20 x01; replicate 20 x02].
Definition sample_torrent : TorrentFile :=
  described (str "http://t") (multi_layout sample_files) (str "n") 32 sample_hashes 40 sample_files.
Definition sample_tree : BencodeValue :=
  metainfo (str "http://t") (multi_layout sample_files) (str "n") 32 sample_hashes.

Lemma TorrentFile_invariant_witness :
  TorrentFile_new sample_tree = Ret sample_torrent /\ descriptor_ok sample_torrent.
Proof.
  assert (H : TorrentFile_new sample_tree = Ret sample_torrent) by (vm_compute; reflexivity).
  split; [exact H|]. exact (proj1 (TorrentFile_invariant sample_tree sample_torrent H)).
Defined.

(** C27: round trip. The text of a .torrent file, for one file or several, is
    parsed and read back to the descriptor of its fields. *)
Theorem metainfo_round_trip url layout nm plen hs len fs :
  let tree := metainfo url layout nm plen hs in
  wf_value tree -> zlen (encode tree) <= int64_max ->
  layout_of layout nm len fs -> 0 <= len <= int64_max - 2 ^ 31 -> Forall hash_ok hs ->
  8 * zlen (encode (info_node layout nm plen hs)) < 2 ^ 32 -> 20 * zlen hs <= int64_max ->
  0 < plen < 2 ^ 31 -> (zlen hs - 1) * plen < len <= zlen hs * plen ->
  (r ← decode (encode tree); t ← deref r; TorrentFile_new t) =
  Ret (mkTorrentFile url (sha1_ref (encode (info_node layout nm plen hs))) hs plen len
         (zlen hs) nm [] fs).
Proof.
  intros tree Hwf Henc Hl Hlen Hhs Hi Hmax Hp Hc.
  rewrite decode_encode_ok by done. run_bind. cbn [deref]. run_bind.
  unfold tree. rewrite (TorrentFile_new_metainfo _ _ _ _ _ len fs) by done.
  unfold checked, described; cbn [piece_length tlength piece_hashes]. rewrite to_int_small by lia.
  rewrite bool_decide_false by lia. rewrite bool_decide_true; [done|].
  destruct (quot_ceil len plen) as [|[? ->]]; [lia|lia|nia|nia].
Qed.

Lemma metainfo_round_trip_witness :
  (r ← decode (encode sample_tree); t ← deref r; TorrentFile_new t) = Ret sample_torrent.
Proof.
  apply (metainfo_round_trip (str "http://t") (multi_layout sample_files) (str "n") 32
           sample_hashes 40 sample_files).
  all: vm_compute; repeat (split || constructor); discriminate || reflexivity.
Defined.

(** Errors. On a well-shaped tree whose number of hashes is not the number
    of pieces the constructor throws; a piece length that is zero modulo 2^32
    makes it divide by zero. *)
Theorem metainfo_rejected url layout nm plen hs len fs :
  layout_of layout nm len fs -> 0 <= len <= int64_max - 2 ^ 31 -> Forall hash_ok hs ->
  8 * zlen (encode (info_node layout nm plen hs)) < 2 ^ 32 -> 20 * zlen hs <= int64_max ->
  let result := TorrentFile_new (metainfo url layout nm plen hs) in
  (plen mod 2 ^ 32 = 0 -> result = Undef DivisionByZero) /\
  (0 < plen < 2 ^ 31 -> 0 < len -> ~ (zlen hs - 1) * plen < len <= zlen hs * plen ->
   result = Throw (logic_error "number of piece hashes does not match with length/pieceLength")).
Proof.
  intros Hl Hlen Hhs Hi Hmax result. unfold result.
  rewrite (TorrentFile_new_metainfo _ _ _ _ _ len fs) by done.
  unfold checked, described; cbn [piece_length tlength piece_hashes]. split.
  - intros Hz. rewrite bool_decide_true; [done|]. unfold to_int.
    rewrite Z.add_mod, Hz by lia. done.
  - intros Hp H0 Hc. rewrite to_int_small by lia. rewrite !bool_decide_false; [done| |lia].
    intros Hq. rewrite <- Hq in Hc. destruct (quot_ceil len plen) as [|[? ?]]; lia.
Qed.

Lemma metainfo_rejected_witness :
  TorrentFile_new (metainfo (str "u") (single_layout 5) (str "n") (2 ^ 32) [replicate 20 x01]) =
  Undef DivisionByZero.
Proof.
  apply (metainfo_rejected (str "u") (single_layout 5) (str "n") (2 ^ 32) [replicate 20 x01] 5
           [mkFile [str "n"] 5]).
  - right. done.
  - vm_compute. split; discriminate.
  - repeat constructor.
  - vm_compute. reflexivity.
  - vm_compute. discriminate.
  - reflexivity.
Defined.
