(* ===== verification/Pieces.v ===== *)
(** * Pieces: cutting a torrent into pieces (Torrent::pieces of src/torrent.cpp)

    A piece is a range of the concatenated files; the code walks the files with
    a cursor and gives every piece the list of file ranges it is stored in.
    [cover] is the reference: the intersections of the range with the files. *)
From S2P Require Import Prelude Hash Descriptor.
Local Open Scope Z_scope.

(** ** Data and operations *)

Record Subpiece : Type := mkSubpiece { sp_filepath : bytes; file_offset : Z; sp_len : Z }.
Record Piece : Type := mkPiece { index : Z; subpieces : list Subpiece }.

(** The local variables that walk the files. *)
Record cursor : Type := mkCursor {
  cur_file : Z;
  cur_file_tot_size : Z;
  cur_file_rem_size : Z;
}.

(** The inner [while] loop: subpieces until the piece is full. Every iteration
    but the last moves to the next file. *)
Fixpoint fill_loop (fuel : nat) (files : list File) (c : cursor) (piece_rem_len : Z)
  : cxx (list Subpiece * cursor) :=
  match fuel with
  | O => NoFuel
  | S fuel =>
      if 0 <? piece_rem_len then
        if cur_file_rem_size c <=? piece_rem_len then
          offset ← i64 (cur_file_tot_size c - cur_file_rem_size c);
          f ← vget files (cur_file c);
          piece_filename ← filename f;
          piece_rem_len ← i64 (piece_rem_len - cur_file_rem_size c);
          next ← vget files (cur_file c + 1);
          rest ← fill_loop fuel files (mkCursor (cur_file c + 1) (flength next) (flength next))
                   piece_rem_len;
          Ret (mkSubpiece piece_filename offset (cur_file_rem_size c) :: rest.1, rest.2)
        else
          offset ← i64 (cur_file_tot_size c - cur_file_rem_size c);
          f ← vget files (cur_file c);
          piece_filename ← filename f;
          rem ← i64 (cur_file_rem_size c - piece_rem_len);
          rest ← fill_loop fuel files (mkCursor (cur_file c) (cur_file_tot_size c) rem) 0;
          Ret (mkSubpiece piece_filename offset piece_rem_len :: rest.1, rest.2)
      else Ret ([], c)
  end.

(** The length of a piece: the last one has what is left. *)
Definition this_piece_length (d : TorrentFile) (idx : Z) : cxx Z :=
  if idx =? pieces_count d - 1 then
    before_this_piece ← i64 ((pieces_count d - 1) * piece_length d);
    i64 (tlength d - before_this_piece)
  else Ret (piece_length d).

(** The body of the loop over pieces. *)
Definition one_piece (d : TorrentFile) (idx : Z) (c : cursor) : cxx (Piece * cursor) :=
  plen ← this_piece_length d idx;
  if cur_file_rem_size c <? plen then
    r ← fill_loop (S (S (length (files d)))) (files d) c plen;
    Ret (mkPiece idx r.1, r.2)
  else
    offset ← i64 (cur_file_tot_size c - cur_file_rem_size c);
    f ← vget (files d) (cur_file c);
    piece_filename ← filename f;
    rem ← i64 (cur_file_rem_size c - plen);
    Ret (mkPiece idx [mkSubpiece piece_filename offset plen],
         mkCursor (cur_file c) (cur_file_tot_size c) rem).

(** The loop over pieces, for the [n] pieces from [idx] on. *)
Fixpoint pieces_loop (n : nat) (d : TorrentFile) (idx : Z) (c : cursor) : cxx (list Piece) :=
  match n with
  | O => Ret []
  | S n =>
      p ← one_piece d idx c;
      rest ← pieces_loop n d (idx + 1) p.2;
      Ret (p.1 :: rest)
  end.

(** [std::vector<Piece>::max_size()] on a 64-bit platform. *)
Definition pieces_max_size : Z := int64_max / 32.

(** [Torrent::pieces]. [reserve] takes the count as an unsigned size. *)
Definition pieces (d : TorrentFile) : cxx (list Piece) :=
  if (pieces_count d <? 0) || (pieces_max_size <? pieces_count d)
  then Throw (length_error "vector::reserve")
  else
    first ← vget (files d) 0;
    pieces_loop (Z.to_nat (pieces_count d)) d 0 (mkCursor 0 (flength first) (flength first)).

(** ** The reference: ranges clipped to files *)

(** The intersections of the range [s, e) with the files, the first of which
    starts at [a]. *)
Fixpoint cover (fs : list File) (a s e : Z) : list Subpiece :=
  match fs with
  | [] => []
  | f :: fs =>
      let b := a + flength f in
      let lo := Z.max a s in
      let hi := Z.min b e in
      (if lo <? hi then [mkSubpiece (join_path (filepath f)) (lo - a) (hi - lo)] else []) ++
      cover fs b s e
  end.

(** The subpieces that hold bytes. *)
Definition nonempty (sps : list Subpiece) : list Subpiece :=
  List.filter (fun sp => 0 <? sp_len sp) sps.

Definition total (fs : list File) : Z := zsum (map flength fs).

(** The subpieces the walk adds to those of the reference: empty ones, at the end of
    a file that ends at [s], where the piece starts, or of an empty file. *)
Definition idle (fs : list File) (s : Z) (sp : Subpiece) : Prop :=
  sp_len sp = 0 /\ exists pre f suf, fs = pre ++ f :: suf /\ sp_filepath sp = join_path (filepath f) /\
    file_offset sp = flength f /\ (flength f = 0 \/ total pre + flength f = s).

(** Descriptors of real torrents: at least one file, no negative length, a
    positive piece length and the number of pieces that holds the files. *)
Record layout_wf (d : TorrentFile) : Prop := {
  lw_files : files d <> [];
  lw_nonneg : Forall (fun f => 0 <= flength f) (files d);
  lw_paths : Forall (fun f => zlen (filepath f) <= int64_max) (files d);
  lw_length : tlength d = total (files d);
  lw_bound : tlength d <= int64_max;
  lw_plen : 0 < piece_length d < 2 ^ 31;
  lw_count : 0 <= pieces_count d <= pieces_max_size;
  lw_ceil : (pieces_count d - 1) * piece_length d < tlength d <= pieces_count d * piece_length d \/
            (tlength d = 0 /\ pieces_count d = 0);
}.

(** End of the range of a piece. *)
Definition piece_end (d : TorrentFile) (idx : Z) : Z :=
  Z.min (tlength d) ((idx + 1) * piece_length d).

Definition last_file_length (d : TorrentFile) : Z := default 0 (last (map flength (files d))).
Definition last_piece_length (d : TorrentFile) : Z :=
  tlength d - (pieces_count d - 1) * piece_length d.

(** On the two-file sample: the first piece spans both files. *)
Example pieces_sample :
  pieces sample_torrent =
  Ret [mkPiece 0 [mkSubpiece (str "a") 0 10; mkSubpiece (str "d/b") 0 22];
       mkPiece 1 [mkSubpiece (str "d/b") 22 8]].
Proof. vm_compute. reflexivity. Qed.

(** ** Lemmas on [cover] *)

Lemma total_app l1 l2 : total (l1 ++ l2) = total l1 + total l2.
Proof. unfold total. by rewrite map_app, zsum_app. Qed.

Lemma total_cons f l : total (f :: l) = flength f + total l.
Proof. done. Qed.

Lemma total_nonneg fs : Forall (fun f => 0 <= flength f) fs -> 0 <= total fs.
Proof. intros H. apply zsum_nonneg, Forall_map. done. Qed.

Lemma cover_app l1 l2 a s e : cover (l1 ++ l2) a s e = cover l1 a s e ++ cover l2 (a + total l1) s e.
Proof.
  revert a. induction l1 as [|f l1 IH]; intros a; cbn [cover app].
  - by rewrite Z.add_0_r.
  - rewrite IH, total_cons, <- app_assoc. do 3 f_equal. lia.
Qed.

Lemma cover_before fs a s e :
  Forall (fun f => 0 <= flength f) fs -> a + total fs <= s -> cover fs a s e = [].
Proof.
  intros H. revert a. induction H as [|f fs Hf Hfs IH]; intros a Hs; cbn [cover]; [done|].
  rewrite total_cons in Hs. pose proof (total_nonneg fs Hfs).
  rewrite IH by lia. destruct (Z.ltb_spec (Z.max a s) (Z.min (a + flength f) e)); [lia|done].
Qed.

Lemma cover_after fs a s e :
  Forall (fun f => 0 <= flength f) fs -> e <= a -> cover fs a s e = [].
Proof.
  intros H. revert a. induction H as [|f fs Hf Hfs IH]; intros a Hs; cbn [cover]; [done|].
  rewrite IH by lia. destruct (Z.ltb_spec (Z.max a s) (Z.min (a + flength f) e)); [lia|done].
Qed.

(** A start before the first file makes no difference. *)
Lemma cover_start fs a s s' e :
  Forall (fun f => 0 <= flength f) fs -> s <= a -> s' <= a -> cover fs a s e = cover fs a s' e.
Proof.
  intros H. revert a. induction H as [|f fs Hf Hfs IH]; intros a Hs Hs'; cbn [cover]; [done|].
  rewrite IH by lia. by rewrite !Z.max_l by lia.
Qed.

(** The cover of a range inside the files has the length of the range. *)
Lemma cover_length fs a s e :
  Forall (fun f => 0 <= flength f) fs -> a <= s <= e -> e <= a + total fs ->
  zsum (map sp_len (cover fs a s e)) = e - s.
Proof.
  intros H. revert a s. induction H as [|f fs Hf Hfs IH]; intros a s Hs He.
  { cbn in *. lia. }
  rewrite total_cons in He. cbn [cover]. rewrite map_app, zsum_app.
  destruct (Z.le_gt_cases s (a + flength f)) as [Hin|Hout].
  - destruct (Z.le_gt_cases e (a + flength f)).
    + rewrite cover_after by (done || lia).
      destruct (Z.ltb_spec (Z.max a s) (Z.min (a + flength f) e)); cbn; lia.
    + rewrite (cover_start _ _ s (a + flength f)), IH by (done || lia).
      destruct (Z.ltb_spec (Z.max a s) (Z.min (a + flength f) e)); cbn; lia.
  - rewrite IH by lia. destruct (Z.ltb_spec (Z.max a s) (Z.min (a + flength f) e)); cbn; lia.
Qed.

(** ** The cursor *)

(** The cursor is in file [f], between [pre] and [suf]. *)
Record at_file (fs : list File) (c : cursor) (pre : list File) (f : File) (suf : list File)
  : Prop := {
  af_split : fs = pre ++ f :: suf;
  af_file : cur_file c = zlen pre;
  af_tot : cur_file_tot_size c = flength f;
  af_rem : 0 <= cur_file_rem_size c <= flength f;
}.

(** Bytes before the cursor. *)
Definition position (pre : list File) (c : cursor) : Z :=
  total pre + cur_file_tot_size c - cur_file_rem_size c.

(** What filling [n] bytes needs of the files. *)
Record files_wf (fs : list File) : Prop := {
  fw_nonneg : Forall (fun f => 0 <= flength f) fs;
  fw_paths : Forall (fun f => zlen (filepath f) <= int64_max) fs;
  fw_total : total fs <= int64_max;
}.

Lemma vget_mid {A} (pre : list A) f suf : vget (pre ++ f :: suf) (zlen pre) = Ret f.
Proof.
  apply vget_lookup. split; [zlen_lia|]. rewrite zlen_to_nat. by apply list_lookup_middle.
Qed.

Lemma vget_next {A} (pre : list A) f g suf :
  vget (pre ++ f :: g :: suf) (zlen pre + 1) = Ret g.
Proof.
  replace (zlen pre + 1) with (zlen (pre ++ [f])) by zlen_lia.
  rewrite <- (vget_mid (pre ++ [f]) g suf). by rewrite <- app_assoc.
Qed.

Lemma vget_end {A} (pre : list A) f : vget (pre ++ [f]) (zlen pre + 1) = Undef OutOfBounds.
Proof. apply vget_oob. zlen_lia. Qed.

Section walk.
Context (fs : list File) (Hwf : files_wf fs).

(** The pieces of [fs] around the cursor, with their bounds. *)
Lemma at_file_bounds c pre f suf :
at_file fs c pre f suf ->
0 <= total pre /\ 0 <= total suf /\ total fs = total pre + flength f + total suf /\
Forall (fun f => 0 <= flength f) pre /\ Forall (fun f => 0 <= flength f) suf /\
filename f = Ret (join_path (filepath f)).
Proof.
intros [Hs _ _ _]. destruct Hwf as [Hn Hp _]. rewrite Hs in Hn, Hp |- *.
rewrite total_app, total_cons. apply Forall_app in Hn as [H1 H2], Hp as [_ Hp].
inversion_clear H2. inversion_clear Hp. pose proof (total_nonneg pre H1).
pose proof (total_nonneg suf ltac:(done)). split_and!; try done; try lia.
by apply filename_join.
Qed.

(** The cover of the [n] bytes after the cursor starts in its file. *)
Lemma cover_cursor c pre f suf n :
at_file fs c pre f suf ->
cover fs 0 (position pre c) (position pre c + n) =
(if 0 <? Z.min (cur_file_rem_size c) n
 then [mkSubpiece (join_path (filepath f)) (cur_file_tot_size c - cur_file_rem_size c)
         (Z.min (cur_file_rem_size c) n)] else []) ++
cover suf (total pre + flength f) (position pre c) (position pre c + n).
Proof.
intros Ha. destruct (at_file_bounds _ _ _ _ Ha) as (H1 & H2 & Ht & Hp & Hsf & _).
destruct Ha as [Hs Hf Htot Hrem]. unfold position in *. rewrite Hs at 1.
rewrite cover_app, cover_before by (done || lia). cbn [cover app]. rewrite Htot.
destruct (Z.ltb_spec 0 (Z.min (cur_file_rem_size c) n)) as [Hlt|Hge];
  destruct (Z.ltb_spec (Z.max (0 + total pre) (total pre + flength f - cur_file_rem_size c))
    (Z.min (0 + total pre + flength f) (total pre + flength f - cur_file_rem_size c + n)));
  try lia.
- cbn [app]. do 2 f_equal; lia.
- cbn [app]. done.
Qed.

(** The last file of the rest still has bytes. *)
Definition last_rem (c : cursor) (suf : list File) : Z :=
default 0 (last (cur_file_rem_size c :: map flength suf)).

(** The loop runs over the end of the files exactly when it fills them all and
  the last one is not empty. *)
Definition overruns (c : cursor) (pre suf : list File) (n : Z) : Prop :=
0 < n /\ position pre c + n = total fs /\ 0 < last_rem c suf.

Definition fill_ok (start : Z) (r : cxx (list Subpiece * cursor)) (s n : Z) : Prop :=
exists sps c' pre' f' suf', r = Ret (sps, c') /\ nonempty sps = cover fs 0 s (s + n) /\
  Forall (fun sp => 0 < sp_len sp \/ idle fs start sp) sps /\
  at_file fs c' pre' f' suf' /\ position pre' c' = s + n.

Lemma last_zero (l : list File) :
Forall (fun f => 0 <= flength f) l -> total l = 0 -> default 0 (last (map flength l)) = 0.
Proof.
induction 1 as [|f l Hf Hl IH]; [done|]. rewrite total_cons. pose proof (total_nonneg l Hl).
intros Ht. destruct l as [|g l]; [cbn in *; lia|]. apply IH. lia.
Qed.

Lemma fill_loop_step_fill fuel c pre f suf n :
at_file fs c pre f suf -> 0 < n -> cur_file_rem_size c <= n -> n <= int64_max ->
fill_loop (S fuel) fs c n =
match suf with
| [] => Undef OutOfBounds
| g :: _ =>
    rest ← fill_loop fuel fs (mkCursor (zlen pre + 1) (flength g) (flength g))
             (n - cur_file_rem_size c);
    Ret (mkSubpiece (join_path (filepath f)) (cur_file_tot_size c - cur_file_rem_size c)
           (cur_file_rem_size c) :: rest.1, rest.2)
end.
Proof.
intros Ha Hn Hr Hmax. destruct (at_file_bounds _ _ _ _ Ha) as (H1 & H2 & Ht & _ & _ & Hname).
destruct Ha as [Hs Hf Htot Hrem]. pose proof (fw_total _ Hwf) as Hb. unfold int64_max in *.
cbn [fill_loop]. destruct (Z.ltb_spec 0 n); [|lia].
destruct (Z.leb_spec (cur_file_rem_size c) n); [|lia].
rewrite i64_ok by lia. run_bind. rewrite Hf.
replace (vget fs (zlen pre)) with (Ret f) by (by rewrite Hs, vget_mid). run_bind.
rewrite Hname. run_bind. rewrite i64_ok by lia. run_bind.
destruct suf as [|g suf].
- replace (vget fs (zlen pre + 1)) with (@Undef File OutOfBounds) by (by rewrite Hs, vget_end).
  done.
- replace (vget fs (zlen pre + 1)) with (Ret g) by (by rewrite Hs, vget_next). done.
Qed.

Lemma fill_loop_step_part fuel c pre f suf n :
at_file fs c pre f suf -> 0 < n < cur_file_rem_size c ->
fill_loop (S (S fuel)) fs c n =
Ret ([mkSubpiece (join_path (filepath f)) (cur_file_tot_size c - cur_file_rem_size c) n],
     mkCursor (cur_file c) (cur_file_tot_size c) (cur_file_rem_size c - n)).
Proof.
intros Ha Hn. destruct (at_file_bounds _ _ _ _ Ha) as (H1 & H2 & Ht & _ & _ & Hname).
destruct Ha as [Hs Hf Htot Hrem]. pose proof (fw_total _ Hwf) as Hb. unfold int64_max in *.
cbn [fill_loop]. destruct (Z.ltb_spec 0 n); [|lia].
destruct (Z.leb_spec (cur_file_rem_size c) n); [lia|].
rewrite !(i64_ok (cur_file_tot_size c - _)), !(i64_ok (cur_file_rem_size c - _)) by lia.
run_bind. rewrite Hf.
replace (vget fs (zlen pre)) with (Ret f) by (by rewrite Hs, vget_mid). run_bind.
by rewrite Hname.
Qed.

Lemma fill_loop_zero fuel c : fill_loop (S fuel) fs c 0 = Ret ([], c).
Proof. done. Qed.

(** Taking [n] bytes that fit the current file. *)
Lemma take_in_file c pre f suf n :
at_file fs c pre f suf -> 0 <= n <= cur_file_rem_size c ->
let c' := mkCursor (cur_file c) (cur_file_tot_size c) (cur_file_rem_size c - n) in
let sp := mkSubpiece (join_path (filepath f))
            (cur_file_tot_size c - cur_file_rem_size c) n in
nonempty [sp] = cover fs 0 (position pre c) (position pre c + n) /\
at_file fs c' pre f suf /\ position pre c' = position pre c + n.
Proof.
intros Ha Hn c' sp. destruct (at_file_bounds _ _ _ _ Ha) as (H1 & H2 & Ht & Hp & Hsf & _).
rewrite (cover_cursor _ _ _ _ _ Ha). destruct Ha as [Hs Hf Htot Hrem].
rewrite cover_after by (done || unfold position; lia). rewrite Z.min_r, app_nil_r by lia.
split_and!; [done| |unfold position, c'; simpl; lia]. unfold c'. split; simpl; lia || done.
Qed.

(** Filling the current file and moving to the next one. *)
Lemma next_file c pre f g suf :
at_file fs c pre f (g :: suf) ->
let c' := mkCursor (zlen pre + 1) (flength g) (flength g) in
at_file fs c' (pre ++ [f]) g suf /\
position (pre ++ [f]) c' = position pre c + cur_file_rem_size c.
Proof.
intros Ha c'. destruct (at_file_bounds _ _ _ _ Ha) as (H1 & H2 & Ht & Hp & Hsf & _).
destruct Ha as [Hs Hf Htot Hrem]. inversion_clear Hsf. split.
- split; simpl; [|zlen_lia|done|lia]. by rewrite Hs, <- app_assoc.
- unfold position, c'. rewrite total_app, total_cons. cbn. lia.
Qed.

(** Filling the current file leaves the cover of the rest. *)
Lemma cover_fill c pre f suf n :
at_file fs c pre f suf -> cur_file_rem_size c <= n ->
cover fs 0 (position pre c) (position pre c + n) =
nonempty [mkSubpiece (join_path (filepath f)) (cur_file_tot_size c - cur_file_rem_size c)
            (cur_file_rem_size c)] ++
cover fs 0 (position pre c + cur_file_rem_size c) (position pre c + n).
Proof.
intros Ha Hn. destruct (at_file_bounds _ _ _ _ Ha) as (H1 & H2 & Ht & Hp & Hsf & _).
rewrite (cover_cursor _ _ _ _ _ Ha), Z.min_l by lia. destruct Ha as [Hs Hf Htot Hrem].
f_equal. unfold position. rewrite Hs. change (f :: suf) with ([f] ++ suf).
assert (Forall (fun f => 0 <= flength f) (pre ++ [f])).
{ apply Forall_app. split; [done|]. repeat constructor. lia. }
assert (total (pre ++ [f]) = total pre + flength f) as Hpf.
{ rewrite total_app, total_cons. cbn. lia. }
rewrite app_assoc, cover_app, (cover_before (pre ++ [f])), Hpf by (done || lia).
apply cover_start; [done|lia|lia].
Qed.

Lemma fill_loop_spec start fuel c pre f suf n :
at_file fs c pre f suf -> 0 <= n -> position pre c + n <= total fs ->
(S (length suf) < fuel)%nat -> position pre c = start \/ cur_file_rem_size c = flength f ->
(overruns c pre suf n -> fill_loop fuel fs c n = Undef OutOfBounds) /\
(~ overruns c pre suf n -> fill_ok start (fill_loop fuel fs c n) (position pre c) n).
Proof.
revert c pre f suf n. induction fuel as [|fuel IH]; intros c pre f suf n Ha Hn Hmax Hfuel Hst; [lia|].
destruct (at_file_bounds _ _ _ _ Ha) as (H1 & H2 & Ht & Hp & Hsf & Hname).
pose proof (fw_total _ Hwf) as Hb. unfold position in Hmax.
pose proof (af_tot _ _ _ _ _ Ha) as Htot. pose proof (af_rem _ _ _ _ _ Ha) as Hrem.
destruct (decide (n = 0)) as [->|Hn0].
{ rewrite fill_loop_zero. split; [intros (? & _); lia|]. intros _.
  destruct (take_in_file _ _ _ _ 0 Ha ltac:(lia)) as (Hc & _ & _).
  exists [], c, pre, f, suf. split_and!; [done|by rewrite <- Hc|done|done|lia]. }
destruct (Z.le_gt_cases (cur_file_rem_size c) n) as [Hle|Hgt].
- rewrite (fill_loop_step_fill _ _ _ _ _ _ Ha) by lia. destruct suf as [|g suf].
  { split; [done|]. intros Hno. destruct Hno. unfold overruns, position, last_rem.
    change (total []) with 0 in *. cbn. lia. }
  destruct (next_file _ _ _ _ _ Ha) as [Ha' Hpos'].
  set (c' := mkCursor _ _ _) in *. simpl in Hfuel.
  destruct (IH c' (pre ++ [f]) g suf (n - cur_file_rem_size c)) as [IH1 IH2];
    [done|lia|unfold position in *; lia|lia|by right|].
  assert (Hover : overruns c pre (g :: suf) n <->
                  overruns c' (pre ++ [f]) suf (n - cur_file_rem_size c)).
  { unfold overruns. rewrite Hpos'. unfold last_rem. cbn [map cur_file_rem_size c'].
    rewrite last_cons_cons. split; intros (Ho1 & Ho2 & Ho3); split_and!; try done; try lia.
    destruct (decide (n - cur_file_rem_size c = 0)) as [Hz|]; [|lia]. exfalso.
    pose proof (last_zero (g :: suf) Hsf) as Hl. cbn [map] in Hl. rewrite Hl in Ho3; [lia|].
    unfold position in *. lia. }
  split; [intros Ho; by rewrite IH1 by tauto|]. intros Ho.
  destruct IH2 as (sps & c2 & pre2 & f2 & suf2 & -> & Hsps & Hpos & Ha2 & Hp2); [tauto|].
  run_bind. eexists _, c2, pre2, f2, suf2. split_and!; [reflexivity| | |done|lia].
  + rewrite (cover_fill _ _ _ _ _ Ha) by lia. cbn [nonempty List.filter sp_len].
    fold (nonempty sps). rewrite Hsps, Hpos'.
    replace (_ + _ + (n - _)) with (position pre c + n) by lia.
    by destruct (0 <? cur_file_rem_size c).
  + constructor; [|done]. destruct (decide (cur_file_rem_size c = 0)) as [Hz|]; [right|left; simpl; lia].
    split; [done|]. exists pre, f, (g :: suf). split_and!; [by apply Ha|done|simpl; lia|].
    unfold position in Hst. lia.
- destruct fuel as [|fuel]; [lia|].
  destruct (take_in_file _ _ _ _ n Ha ltac:(lia)) as (Hc & Ha' & Hp').
  rewrite (fill_loop_step_part _ _ _ _ _ _ Ha) by lia. split.
  + intros (_ & Ho & _). unfold position in *. lia.
  + intros _. eexists _, _, pre, f, suf. split_and!; [reflexivity| |repeat constructor; simpl; lia|done|done].
    by rewrite <- Hc.
Qed.
End walk.

(** ** Pieces *)

Lemma layout_files_wf d : layout_wf d -> files_wf (files d).
Proof. intros []. split; [done..|]. congruence. Qed.

(** What a piece must be. *)
Definition piece_ok (d : TorrentFile) (idx : Z) (p : Piece) : Prop :=
  index p = idx /\
  Forall (fun sp => 0 < sp_len sp \/ idle (files d) (idx * piece_length d) sp) (subpieces p) /\
  nonempty (subpieces p) = cover (files d) 0 (idx * piece_length d) (piece_end d idx).

(** The cursor at the start of a piece. *)
Definition at_piece (d : TorrentFile) (c : cursor) (pos : Z) (pre : list File) (f : File)
  (suf : list File) : Prop :=
  at_file (files d) c pre f suf /\ position pre c = pos.

Section torrent.
Context (d : TorrentFile) (Hd : layout_wf d).

Lemma piece_range idx :
0 <= idx < pieces_count d ->
0 <= idx * piece_length d < piece_end d idx /\ piece_end d idx <= tlength d /\
(idx < pieces_count d - 1 -> piece_end d idx = (idx + 1) * piece_length d /\ piece_end d idx < tlength d) /\
(idx = pieces_count d - 1 -> piece_end d idx = tlength d).
Proof.
intros Hi. destruct Hd as [_ _ _ _ _ Hp Hc Hceil]. unfold piece_end.
assert (idx * piece_length d <= (pieces_count d - 1) * piece_length d) by nia.
assert (idx < pieces_count d - 1 ->
        (idx + 1) * piece_length d <= (pieces_count d - 1) * piece_length d) by nia.
split_and!; try nia; intros ->; nia.
Qed.

Lemma this_piece_length_ok idx :
0 <= idx < pieces_count d ->
this_piece_length d idx = Ret (piece_end d idx - idx * piece_length d).
Proof.
intros Hi. destruct (piece_range idx Hi) as (H1 & H2 & H3 & H4).
pose proof (lw_bound _ Hd) as Hb. unfold int64_max in Hb. unfold this_piece_length.
destruct (Z.eqb_spec idx (pieces_count d - 1)) as [->|].
- rewrite i64_ok by lia. run_bind. rewrite i64_ok by lia. f_equal. lia.
- destruct H3 as [-> _]; [lia|]. f_equal. lia.
Qed.

Lemma last_rem_suffix c pre f suf :
at_file (files d) c pre f suf -> suf <> [] -> last_rem c suf = last_file_length d.
Proof.
intros [Hs _ _ _] Hne. unfold last_rem, last_file_length. rewrite Hs.
destruct suf as [|g suf]; [done|]. rewrite map_app. cbn [map].
by rewrite last_cons_cons, last_app_cons, last_cons_cons.
Qed.

(** One iteration: undefined exactly in the last piece when it starts before a
  last file with bytes. *)
Lemma one_piece_spec idx c pre f suf :
0 <= idx < pieces_count d -> at_piece d c (idx * piece_length d) pre f suf ->
let over := idx = pieces_count d - 1 /\ suf <> [] /\ 0 < last_file_length d in
(over -> one_piece d idx c = Undef OutOfBounds) /\
(~ over -> exists p c' pre' f' suf', one_piece d idx c = Ret (p, c') /\ piece_ok d idx p /\
   at_piece d c' (piece_end d idx) pre' f' suf').
Proof.
intros Hi [Ha Hpos] over. destruct (piece_range idx Hi) as (H1 & H2 & H3 & H4).
pose proof (layout_files_wf d Hd) as Hwf. pose proof (lw_length _ Hd) as Hlen.
pose proof (lw_bound _ Hd) as Hb.
destruct (at_file_bounds _ Hwf _ _ _ _ Ha) as (B1 & B2 & Ht & _ & _ & Hname).
pose proof (af_rem _ _ _ _ _ Ha) as Hrem. pose proof (af_tot _ _ _ _ _ Ha) as Htot.
unfold one_piece. rewrite this_piece_length_ok by done. run_bind.
set (n := piece_end d idx - idx * piece_length d).
destruct (Z.ltb_spec (cur_file_rem_size c) n) as [Hlt|Hge].
- destruct (fill_loop_spec _ Hwf (idx * piece_length d) (S (S (length (files d)))) c pre f suf n Ha) as [Hu Hok];
    [lia|lia|rewrite (af_split _ _ _ _ _ Ha), length_app; simpl; lia|by left|].
  assert (Hne : suf <> []).
  { intros ->. unfold position, n in *. change (total []) with 0 in *. lia. }
  assert (Hov : over <-> overruns (files d) c pre suf n).
  { unfold over, overruns. rewrite (last_rem_suffix _ _ _ _ Ha Hne), Hpos. unfold n.
    split; [intros (He & _ & Hl); split_and!; lia|]. intros (Hn & He & Hl).
    split_and!; try done. destruct (decide (idx = pieces_count d - 1)); lia. }
  split; [intros Ho; by rewrite Hu by tauto|]. intros Ho.
  destruct Hok as (sps & c' & pre' & f' & suf' & -> & Hn & Hp & Ha' & Hp'); [tauto|].
  run_bind. eexists _, c', pre', f', suf'. rewrite Hpos in Hn, Hp'.
  replace (idx * piece_length d + n) with (piece_end d idx) in * by (unfold n; lia). done.
- destruct (take_in_file _ Hwf _ _ _ _ n Ha) as (Hc & Ha' & Hp'); [lia|].
  rewrite Hpos in Hc, Hp'.
  replace (idx * piece_length d + n) with (piece_end d idx) in * by (unfold n; lia).
  split.
  + intros (He & Hne & Hl). exfalso. destruct suf as [|g suf]; [done|].
    assert (Hz : default 0 (last (map flength (g :: suf))) = 0).
    { apply last_zero; [|unfold position, n in *; lia].
      pose proof (fw_nonneg _ Hwf) as Hn. rewrite (af_split _ _ _ _ _ Ha) in Hn.
      apply Forall_app in Hn as [_ Hn]. by inversion_clear Hn. }
    unfold last_file_length in Hl. rewrite (af_split _ _ _ _ _ Ha), map_app in Hl.
    cbn [map] in *. rewrite last_app_cons, last_cons_cons in Hl. lia.
  + intros _. unfold int64_max in Hb. rewrite i64_ok by lia. run_bind.
    assert (Hv : vget (files d) (cur_file c) = Ret f).
    { by rewrite (af_file _ _ _ _ _ Ha), (af_split _ _ _ _ _ Ha), vget_mid. }
    rewrite Hv. run_bind. rewrite Hname. run_bind. rewrite i64_ok by lia. run_bind.
    eexists _, _, pre, f, suf. split_and!; [reflexivity| |done].
    split; [done|]. split; [repeat constructor; simpl; lia|done].
Qed.

(** The last file has bytes and lies in the last piece, strictly or not. *)
Definition last_file_inside : Prop :=
2 <= zlen (files d) /\ 0 < last_file_length d < last_piece_length d.
Definition last_file_fits : Prop :=
2 <= zlen (files d) /\ 0 < last_file_length d <= last_piece_length d.

Lemma last_file_suffix c pre f suf :
at_piece d c ((pieces_count d - 1) * piece_length d) pre f suf ->
(suf = [] -> last_piece_length d <= last_file_length d) /\
(suf <> [] -> 2 <= zlen (files d) /\ last_file_length d <= last_piece_length d).
Proof.
intros [Ha Hpos]. pose proof (layout_files_wf d Hd) as Hwf.
destruct (at_file_bounds _ Hwf _ _ _ _ Ha) as (B1 & B2 & Ht & _ & Hsf & _).
destruct Ha as [Hs _ Htot Hrem]. unfold last_piece_length.
rewrite (lw_length _ Hd), <- Hpos. unfold position, last_file_length. rewrite Hs, map_app.
destruct suf as [|g suf _] using rev_ind; split; intros Hsuf; try done.
- cbn [map]. rewrite last_snoc. cbn. change (total []) with 0 in *. rewrite <- Hs. lia.
- by destruct suf.
- rewrite <- Hs. cbn [map]. rewrite map_app, app_comm_cons, app_assoc. cbn [map].
  rewrite last_snoc. cbn. rewrite total_app, total_cons in Ht. change (total []) with 0 in Ht.
  apply Forall_app in Hsf as [Hsf _]. pose proof (total_nonneg suf Hsf).
  split; [rewrite Hs; zlen_lia|lia].
Qed.

Lemma pieces_loop_spec n idx c :
0 <= idx -> idx + Z.of_nat n = pieces_count d ->
((0 < n)%nat -> exists pre f suf, at_piece d c (idx * piece_length d) pre f suf) ->
(exists ps, pieces_loop n d idx c = Ret ps /\ length ps = n /\
   (forall i p, ps !! i = Some p -> piece_ok d (idx + Z.of_nat i) p) /\
   ((0 < n)%nat -> ~ last_file_inside)) \/
(pieces_loop n d idx c = Undef OutOfBounds /\ last_file_fits).
Proof.
revert idx c. induction n as [|n IH]; intros idx c Hi Hn Hat; cbn [pieces_loop].
{ left. exists []. split_and!; [done|done|by intros [|?]|lia]. }
destruct (Hat ltac:(lia)) as (pre & f & suf & Hp).
destruct (one_piece_spec idx c pre f suf ltac:(lia) Hp) as [Hover Hok].
destruct (decide (idx = pieces_count d - 1)) as [Hlast|Hnot].
- rewrite Hlast in Hp. destruct (last_file_suffix _ _ _ _ Hp) as [Hnil Hcons].
  destruct (decide (0 < last_file_length d)), (decide (suf = [])) as [Hs|Hs]; cycle 1.
  { right. rewrite Hover by done. unfold last_file_fits. split; [done|]. destruct (Hcons Hs). lia. }
  all: destruct Hok as (p & c' & pre' & f' & suf' & -> & Hpok & Hp'); [naive_solver|];
    run_bind; assert (n = O) as -> by lia; cbn [pieces_loop]; run_bind; left; exists [p];
    (split_and!; [done|done| |unfold last_file_inside; naive_solver lia]);
    intros [|i] q Hq; [|by destruct i]; injection Hq as <-;
    by rewrite Z.add_0_r.
- destruct Hok as (p & c' & pre' & f' & suf' & -> & Hpok & Hp'); [naive_solver|].
  run_bind. destruct (piece_range idx ltac:(lia)) as (_ & _ & Hend & _).
  rewrite (proj1 (Hend ltac:(lia))) in Hp'.
  destruct (IH (idx + 1) c') as [(ps & -> & Hl & Hps & Hns)|[-> Hf]]; [lia|lia|eauto| |].
  + run_bind. left. exists (p :: ps). split_and!; [done|simpl; lia| |intros _; apply Hns; lia].
    intros [|i] q Hq; [injection Hq as <-; by rewrite Z.add_0_r|].
    replace (idx + Z.of_nat (S i)) with (idx + 1 + Z.of_nat i) by lia. by apply Hps.
  + by right.
Qed.

Lemma pieces_spec :
(exists ps, pieces d = Ret ps /\ zlen ps = pieces_count d /\
   (forall i p, ps !! i = Some p -> piece_ok d (Z.of_nat i) p) /\
   (0 < pieces_count d -> ~ last_file_inside)) \/
(pieces d = Undef OutOfBounds /\ last_file_fits).
Proof.
unfold pieces. pose proof (lw_count _ Hd) as Hc.
destruct (Z.ltb_spec (pieces_count d) 0); [lia|].
destruct (Z.ltb_spec pieces_max_size (pieces_count d)); [lia|]. cbn [orb].
pose proof (lw_files _ Hd) as Hne. pose proof (lw_nonneg _ Hd) as Hnn.
destruct (files d) as [|f suf] eqn:Hf; [done|]. change (vget (f :: suf) 0) with (Ret f).
run_bind. inversion_clear Hnn.
destruct (pieces_loop_spec (Z.to_nat (pieces_count d)) 0
            (mkCursor 0 (flength f) (flength f))) as [(ps & -> & Hl & Hps & Hns)|Hu]; [lia|lia| | |].
- intros _. exists [], f, suf. split; [split; simpl; done || lia|].
  unfold position. cbn. lia.
- left. exists ps. split_and!; [done|unfold zlen; lia|done|]. intros Hpos. apply Hns. lia.
- by right.
Qed.
End torrent.

Lemma nonempty_sum sps :
  Forall (fun sp => 0 <= sp_len sp) sps ->
  zsum (map sp_len (nonempty sps)) = zsum (map sp_len sps).
Proof.
  unfold nonempty. induction 1 as [|sp sps Hsp Hsps IH]; [done|]. cbn [List.filter].
  destruct (Z.ltb_spec 0 (sp_len sp)); cbn [map zsum foldr]; fold (zsum (map sp_len sps)).
  - unfold zsum in IH at 1. rewrite IH. lia.
  - rewrite IH. lia.
Qed.

Lemma piece_ok_length d idx p :
  layout_wf d -> 0 <= idx < pieces_count d -> piece_ok d idx p ->
  zsum (map sp_len (subpieces p)) = piece_end d idx - idx * piece_length d.
Proof.
  intros Hd Hi (_ & Hn & Hc). destruct (piece_range d Hd idx Hi) as (H1 & H2 & _).
  assert (Forall (fun sp => 0 <= sp_len sp) (subpieces p)).
  { apply (Forall_impl _ _ _ Hn). intros sp [Hsp|[Hsp _]]; lia. }
  rewrite <- nonempty_sum, Hc by done. apply cover_length; [apply Hd|lia|].
  rewrite <- (lw_length _ Hd). lia.
Qed.

(** ** Termination *)

Lemma filename_fuel f : filename f <> NoFuel.
Proof. unfold filename. by destruct (_ <? _). Qed.

#[export] Hint Resolve filename_fuel : furrent.

(** [vget] in range gives the bound the walk needs. *)
Lemma vget_bound {A} (l : list A) i x : vget l i = Ret x -> 0 <= i < zlen l.
Proof.
  intros [Hi H]%vget_lookup. apply lookup_lt_Some in H. unfold zlen. lia.
Qed.

(** With a negative or empty rest the loop stops; otherwise it moves forward in
    the files and cannot move past their end. *)
Lemma fill_loop_terminates fuel fs c n :
  (0 < fuel)%nat -> (n <= 0 \/ (2 <= fuel)%nat /\ zlen fs < cur_file c + Z.of_nat fuel) ->
  fill_loop fuel fs c n <> NoFuel.
Proof.
  revert c n. induction fuel as [|fuel IH]; intros c n Hf Hn; [lia|]. cbn [fill_loop].
  destruct (Z.ltb_spec 0 n) as [Hpos|]; [|done]. destruct Hn as [|[Hf2 Hz]]; [lia|].
  destruct (_ <=? _); no_fuel.
  - apply bind_nofuel; [|done]. match goal with H : vget fs (cur_file c + 1) = _ |- _ =>
      apply vget_bound in H end. apply IH; [lia|right; simpl; lia].
  - apply bind_nofuel; [|done]. apply IH; lia.
Qed.

(** The cursor only moves forward. *)
Lemma fill_loop_forward fuel fs c n r :
  fill_loop fuel fs c n = Ret r -> cur_file c <= cur_file r.2.
Proof.
  revert c n r. induction fuel as [|fuel IH]; intros c n r H; [done|]. cbn [fill_loop] in H.
  destruct (0 <? n); [|by inv_ret]. destruct (_ <=? _); inv_ret; cbn [snd];
    match goal with H : fill_loop _ _ _ _ = _ |- _ => apply IH in H; simpl in H; lia end.
Qed.

Lemma one_piece_forward d idx c r : one_piece d idx c = Ret r -> cur_file c <= cur_file r.2.
Proof.
  unfold one_piece. intros H. apply bind_ret in H as (n & _ & H).
  destruct (_ <? _); inv_ret; cbn [snd]; [by eapply fill_loop_forward|simpl; lia].
Qed.

Lemma pieces_loop_terminates n d idx c : 0 <= cur_file c -> pieces_loop n d idx c <> NoFuel.
Proof.
  revert idx c. induction n as [|n IH]; intros idx c Hc; cbn [pieces_loop]; [done|].
  apply bind_nofuel.
  - unfold one_piece, this_piece_length. apply bind_nofuel.
    { destruct (_ =? _); [|done]. by apply bind_nofuel; auto with furrent. }
    intros m _. destruct (_ <? _).
    + apply bind_nofuel; [|done]. apply fill_loop_terminates; [lia|]. right. unfold zlen. lia.
    + by no_fuel.
  - intros [p c'] H%one_piece_forward. simpl in *. apply bind_nofuel; [|done]. apply IH. lia.
Qed.

(** A torrent of several files whose last file has bytes and is shorter than
    the last piece makes the computation of its pieces read past the files. *)
Lemma pieces_overrun d :
  layout_wf d -> last_file_inside d -> pieces d = Undef OutOfBounds.
Proof.
  intros Hd Hin. destruct (pieces_spec d Hd) as [(ps & _ & _ & _ & Hno)|[? _]]; [|done].
  destruct (decide (0 < pieces_count d)); [by destruct Hno|].
  destruct Hin as (_ & H1 & _). unfold last_file_length in H1.
  rewrite last_zero in H1; [lia|apply Hd|]. pose proof (total_nonneg _ (lw_nonneg _ Hd)).
  pose proof (lw_count _ Hd). assert (pieces_count d = 0) as Hz by lia.
  pose proof (lw_ceil _ Hd) as Hc. rewrite Hz, (lw_length _ Hd) in Hc. lia.
Qed.

(** ** Claims *)

(** C22: equivalence with the reference. On a well-formed descriptor every piece
    is stored in exactly the file ranges its byte range intersects, in order,
    and the ranges of a piece have its length; the only other subpieces are empty,
    at the end of the file before the piece or of an empty file; the exception, undefined
    behaviour, needs a torrent of several files whose last file has bytes and
    is no longer than the last piece, and is certain when it is shorter. *)
Theorem pieces_correct d :
  layout_wf d ->
  ((exists ps, pieces d = Ret ps /\ zlen ps = pieces_count d /\
     forall i p, ps !! i = Some p ->
       piece_ok d (Z.of_nat i) p /\
       zsum (map sp_len (subpieces p)) = piece_end d (Z.of_nat i) - Z.of_nat i * piece_length d) \/
  (pieces d = Undef OutOfBounds /\ last_file_fits d)) /\
  (last_file_inside d -> pieces d = Undef OutOfBounds).
Proof.
  intros Hd. split; [|by apply pieces_overrun]. destruct (pieces_spec d Hd) as [(ps & -> & Hl & Hps & _)|]; [left|by right].
  exists ps. split_and!; [done..|]. intros i p Hp. pose proof (Hps i p Hp) as Hok.
  split; [done|]. apply lookup_lt_Some in Hp. unfold zlen in Hl.
  apply piece_ok_length; [done|lia|done].
Qed.

Lemma sample_torrent_wf : layout_wf sample_torrent.
Proof.
  split; done || (repeat constructor; vm_compute; discriminate).
Qed.

Lemma pieces_correct_witness :
  (exists ps, pieces sample_torrent = Ret ps /\ zlen ps = 2) \/ last_file_fits sample_torrent.
Proof.
  destruct (pieces_correct sample_torrent sample_torrent_wf) as [[(ps & H & Hl & _)|[_ H]] _].
  - left. exists ps. split; [exact H|exact Hl].
  - right. exact H.
Defined.

(** A torrent of one piece that holds two files. *)
Definition overrun_torrent : TorrentFile :=
  described (str "u") (multi_layout [mkFile [str "a"] 10; mkFile [str "b"] 6]) (str "n") 16
    [replicate 20 x01] 16 [mkFile [str "a"] 10; mkFile [str "b"] 6].

Example overrun_pieces : pieces overrun_torrent = Undef OutOfBounds.
Proof.
  apply pieces_overrun.
  - split; done || (repeat constructor; vm_compute; discriminate).
  - split; [vm_compute; discriminate|split; vm_compute; reflexivity].
Qed.

(** The constructor accepts an empty list of files; computing its pieces reads
    the first file. *)
Example pieces_no_files :
  (tf ← TorrentFile_new (metainfo (str "u") (multi_layout []) (str "n") 16 []); pieces tf) =
  Undef OutOfBounds.
Proof. vm_compute. reflexivity. Qed.

(** Termination. The walk over the files ends for every descriptor, with
    lengths of any sign. *)
Theorem pieces_terminates d : pieces d <> NoFuel.
Proof.
  unfold pieces. destruct (_ || _); [done|]. apply bind_nofuel; [auto with furrent|].
  intros f _. by apply pieces_loop_terminates.
Qed.
