(* ===== verification/Peer.v ===== *)
(** * Peer: peers and the tracker (src/peer.hpp, src/peer.cpp)

    The HTTP request to the tracker is an argument of [announce]. Positions in
    the "peers" string stand for its iterators: reading a position outside the
    string is undefined, moving past its end is not counted as an error. *)
From S2P Require Import Prelude Text Bencode BencodeSpec Wire Hash Descriptor.
Local Open Scope Z_scope.

(** ** Data *)

Record Peer : Type := mkPeer { ip : Z; port : Z }.

#[export] Instance Peer_eq_dec : EqDecision Peer.
Proof. solve_decision. Defined.

Record Announce : Type := mkAnnounce { interval : Z; peers : list Peer }.

Inductive PeerError : Type := ParserError | AnnounceError.

Abbreviation PeerResult := (Result Announce PeerError).

(** ** Operations *)

(** [Peer()]. *)
Definition Peer_empty : Peer := mkPeer 0 0.

(** [(ip >> n) & 0xFF]. *)
Definition octet (ip n : Z) : Z := Z.land (Z.shiftr ip n) 255.

(** [Peer::address]. *)
Definition address (p : Peer) : bytes :=
  to_string (octet (ip p) 24) ++ str "." ++ to_string (octet (ip p) 16) ++ str "." ++
  to_string (octet (ip p) 8) ++ str "." ++ to_string (octet (ip p) 0) ++ str ":" ++
  to_string (port p).

(** A group of digits at the start of a string, and what follows it. *)
Definition match_digits (s : bytes) : option (bytes * bytes) :=
  match take_digits s with
  | [] => None
  | ds => Some (ds, drop (length ds) s)
  end.

(** A dot and what follows it. *)
Definition match_dot (s : bytes) : option bytes :=
  match s with
  | c :: s => if decide (c = "."%byte) then Some s else None
  | [] => None
  end.

(** The regular expression [\s*(\d+)\.(\d+)\.(\d+)\.(\d+)\s*] matched against the
    whole string: its four groups. Digits, dots and blanks do not overlap, so the
    match is unique. *)
Definition ip_regex (s : bytes) : option (list bytes) :=
  '(d1, s) ← match_digits (skip_spaces s);
  s ← match_dot s;
  '(d2, s) ← match_digits s;
  s ← match_dot s;
  '(d3, s) ← match_digits s;
  s ← match_dot s;
  '(d4, s) ← match_digits s;
  match skip_spaces s with [] => Some [d1; d2; d3; d4] | _ => None end.

(** The loop over the groups, from group [i] on. *)
Fixpoint read_octets (i : Z) (groups : list bytes) (ip : Z) : cxx Z :=
  match groups with
  | [] => Ret ip
  | g :: groups =>
      n ← stoi g;
      read_octets (i + 1) groups (Z.lor ip (u32 (Z.shiftl (u32 n) (8 * (4 - i)))))
  end.

(** [Peer(const std::string&, uint16_t)]. *)
Definition Peer_from_string (ip_s : bytes) (port : Z) : cxx Peer :=
  match ip_regex ip_s with
  | None => Throw (invalid_argument "not a valid ip")
  | Some groups => ip ← read_octets 1 groups 0; Ret (mkPeer ip port)
  end.

(** [ip |= *(it++) << n] on [uint32_t], [port |= *(it++) << n] on [uint16_t]. *)
Definition or_shifted (width acc : Z) (b : byte) (n : Z) : Z :=
  Z.lor acc (Z.shiftl (b2z b) n mod 2 ^ width).

(** The loop over the "peers" string from position [it] on: six reads that each
    advance the iterator, and the step of the [for] that advances it by six. *)
Fixpoint peers_loop (fuel : nat) (s : bytes) (it : Z) : cxx (list Peer) :=
  match fuel with
  | O => NoFuel
  | S fuel =>
      if it <? zlen s then
        b0 ← vget s it;
        b1 ← vget s (it + 1);
        b2 ← vget s (it + 2);
        b3 ← vget s (it + 3);
        let ip := or_shifted 32 (or_shifted 32 (or_shifted 32 (or_shifted 32 0 b0 24) b1 16) b2 8) b3 0 in
        b4 ← vget s (it + 4);
        b5 ← vget s (it + 5);
        let port := or_shifted 16 (or_shifted 16 0 b4 8) b5 0 in
        rest ← peers_loop fuel s (it + 6 + 6);
        Ret (mkPeer ip port :: rest)
      else Ret []
  end.

(** [parse_tracker_response]. *)
Definition parse_tracker_response (text : bytes) : cxx PeerResult :=
  tree ← decode text;
  match tree with
  | ERROR _ => Ret (ERROR ParserError)
  | OK tree =>
      dict ← as_dict tree;
      interval_node ← map_at (str "interval") dict;
      interval ← as_int interval_node;
      peers_node ← map_at (str "peers") dict;
      peers_str ← as_string peers_node;
      peers ← peers_loop (S (length peers_str)) peers_str 0;
      Ret (OK (mkAnnounce interval peers))
  end.

(** The response of an HTTP request: status code and text. *)
Record http_response : Type := mkResponse { status_code : Z; res_text : bytes }.

(** The query parameters of an announce. *)
Definition announce_parameters (torrent_f : TorrentFile) : list (bytes * bytes) :=
  [(str "info_hash", hash_to_str (info_hash torrent_f));
   (str "peer_id", str "FUR-----------------");
   (str "port", str "6881");
   (str "uploaded", str "0");
   (str "downloaded", str "0");
   (str "compact", str "0");
   (str "left", to_string (tlength torrent_f))].

(** [announce], for an HTTP client [get]. *)
Definition announce (get : bytes -> list (bytes * bytes) -> http_response)
  (torrent_f : TorrentFile) : cxx PeerResult :=
  let res := get (announce_url torrent_f) (announce_parameters torrent_f) in
  if (status_code res =? 0) || (400 <=? status_code res) then Ret (ERROR AnnounceError)
  else parse_tracker_response (res_text res).

Example Peer_from_string_ex :
  Peer_from_string (str " 127.0.0.1 ") 80 = Ret (mkPeer 0x7f000001 80).
Proof. vm_compute. reflexivity. Qed.

(** Octets above 255 are not rejected. *)
Example Peer_from_string_wide :
  Peer_from_string (str "1.0.0.256") 80 = Ret (mkPeer 0x01000100 80).
Proof. vm_compute. reflexivity. Qed.

(** Of two peers the second is skipped; three bytes are read past the end. *)
Example parse_two_peers :
  parse_tracker_response (str "d8:intervali60e5:peers12:ABCDEFGHIJKLe") =
  Ret (OK (mkAnnounce 60 [mkPeer 0x41424344 0x4546])).
Proof. vm_compute. reflexivity. Qed.

Example parse_short_peers :
  parse_tracker_response (str "d8:intervali60e5:peers3:ABCe") = Undef OutOfBounds.
Proof. vm_compute. reflexivity. Qed.

(** ** Lemmas *)

Definition peer_ok (p : Peer) : Prop := 0 <= ip p < 2 ^ 32 /\ 0 <= port p < 2 ^ 16.

(** The host part of an address. *)
Definition dotted (ip : Z) : bytes :=
  to_string (octet ip 24) ++ str "." ++ to_string (octet ip 16) ++ str "." ++
  to_string (octet ip 8) ++ str "." ++ to_string (octet ip 0).

Lemma octet_byte a n : 0 <= n -> octet a n = b2z (u8 (a / 2 ^ n)).
Proof.
  intros Hn. unfold octet. rewrite b2z_u8. change 255 with (Z.ones 8).
  by rewrite Z.land_ones, Z.shiftr_div_pow2 by lia.
Qed.

Lemma take_digits_stop ds rest :
  forallb isdigit ds = true -> match rest with c :: _ => isdigit c = false | [] => True end ->
  take_digits (ds ++ rest) = ds.
Proof.
  intros Hd Hr. induction ds as [|c ds IH]; simpl in *.
  - destruct rest; [done|]. simpl. by rewrite Hr.
  - apply andb_true_iff in Hd as [-> Hd]. by rewrite IH.
Qed.

(** A printed number is matched as a group. *)
Lemma match_digits_to_string n rest :
  0 <= n -> match rest with c :: _ => isdigit c = false | [] => True end ->
  match_digits (to_string n ++ rest) = Some (to_string n, rest).
Proof.
  intros Hn Hr. unfold match_digits. rewrite to_string_nonneg by done.
  destruct (digits_spec n Hn) as (_ & Hd & Hne). rewrite take_digits_stop by done.
  destruct (digits n) as [|c ds] eqn:E; [done|]. by rewrite drop_app_length.
Qed.

Lemma skip_spaces_to_string n rest : 0 <= n -> skip_spaces (to_string n ++ rest) = to_string n ++ rest.
Proof.
  intros Hn. rewrite to_string_nonneg by done. destruct (digits_spec n Hn) as (_ & Hd & Hne).
  destruct (digits n) as [|c ds]; [done|]. simpl in *. apply andb_true_iff in Hd as [Hc _].
  by rewrite (isdigit_not_space c Hc).
Qed.

Lemma ip_regex_dotted a :
  ip_regex (dotted a) =
  Some [to_string (octet a 24); to_string (octet a 16); to_string (octet a 8); to_string (octet a 0)].
Proof.
  unfold ip_regex, dotted. rewrite !octet_byte by lia.
  set (o1 := u8 _). set (o2 := u8 _). set (o3 := u8 _). set (o4 := u8 _).
  pose proof (b2z_range o1). pose proof (b2z_range o2).
  pose proof (b2z_range o3). pose proof (b2z_range o4).
  rewrite skip_spaces_to_string, match_digits_to_string by (lia || done). cbn [mbind option_bind].
  change (match_dot (str "." ++ ?s)) with (Some s). cbn [mbind option_bind].
  rewrite match_digits_to_string by (lia || done). cbn [mbind option_bind].
  change (match_dot (str "." ++ ?s)) with (Some s). cbn [mbind option_bind].
  rewrite match_digits_to_string by (lia || done). cbn [mbind option_bind].
  change (match_dot (str "." ++ ?s)) with (Some s). cbn [mbind option_bind].
  rewrite <- (app_nil_r (to_string (b2z o4))), match_digits_to_string by (lia || done).
  cbn. by rewrite !app_nil_r.
Qed.

Lemma stoi_to_string n : 0 <= n < 2 ^ 31 -> stoi (to_string n) = Ret n.
Proof.
  intros Hn. unfold stoi. rewrite to_string_nonneg, strtol_digits by (lia || by apply regex_digits_digits; lia).
  destruct (digits_spec n) as (-> & _); [lia|]. by rewrite bool_decide_true by lia.
Qed.

Lemma dotted_peer a p : 0 <= a < 2 ^ 32 -> Peer_from_string (dotted a) p = Ret (mkPeer a p).
Proof.
  intros Ha. unfold Peer_from_string. rewrite ip_regex_dotted. cbn [read_octets].
  rewrite !octet_byte by lia.
  rewrite !stoi_to_string by (match goal with |- context [b2z ?b] => pose proof (b2z_range b) end; lia).
  run_bind. unfold u32.
  repeat match goal with |- context [b2z ?b mod 2 ^ 32] =>
    rewrite (Z.mod_small (b2z b) (2 ^ 32)) by (pose proof (b2z_range b); lia) end.
  f_equal. f_equal. change (2 ^ 0) with 1. rewrite Z.div_1_r.
  pose proof (encode_integer_ok a ltac:(unfold uint32_max; lia)) as E. apply decode_encode_int in E.
  exact E.
Qed.

(** The six bytes of a peer in a compact response. *)
Definition compact (p : Peer) : bytes :=
  [u8 (ip p / 2 ^ 24); u8 (ip p / 2 ^ 16); u8 (ip p / 2 ^ 8); u8 (ip p);
   u8 (port p / 2 ^ 8); u8 (port p)].

(** The peers at even positions. *)
Fixpoint every_other {A} (l : list A) : list A :=
  match l with
  | x :: _ :: l => x :: every_other l
  | _ => l
  end.

Lemma or_shifted_ip b0 b1 b2 b3 :
  or_shifted 32 (or_shifted 32 (or_shifted 32 (or_shifted 32 0 b0 24) b1 16) b2 8) b3 0 =
  decode_integer [b0; b1; b2; b3].
Proof. reflexivity. Qed.

Lemma or_shifted_port b4 b5 :
  or_shifted 16 (or_shifted 16 0 b4 8) b5 0 = b2z b4 * 2 ^ 8 + b2z b5.
Proof.
  unfold or_shifted. pose proof (b2z_range b4). pose proof (b2z_range b5).
  rewrite Z.lor_0_l, Z.shiftl_0_r, Z.shiftl_mul_pow2, !Z.mod_small by lia.
  apply lor_disjoint; lia.
Qed.

Lemma vget_shift {A} (pre l : list A) i : 0 <= i -> vget (pre ++ l) (zlen pre + i) = vget l i.
Proof.
  intros Hi. unfold vget. rewrite !bool_decide_true by zlen_lia.
  rewrite lookup_app_r by (unfold zlen; lia).
  by replace (Z.to_nat (zlen pre + i) - length pre)%nat with (Z.to_nat i) by (unfold zlen; lia).
Qed.

(** One iteration reads the six bytes at the iterator. *)
Lemma peers_loop_peer fuel pre p rest :
  peer_ok p ->
  peers_loop (S fuel) (pre ++ compact p ++ rest) (zlen pre) =
  (ps ← peers_loop fuel (pre ++ compact p ++ rest) (zlen pre + 12); Ret (p :: ps)).
Proof.
  intros [Hip Hport]. cbn [peers_loop].
  destruct (Z.ltb_spec (zlen pre) (zlen (pre ++ compact p ++ rest))) as [_|H].
  2:{ unfold compact in H. zlen_lia. }
  replace (vget (pre ++ compact p ++ rest) (zlen pre)) with (vget (compact p ++ rest) 0)
    by (rewrite <- (vget_shift pre) by lia; by rewrite Z.add_0_r).
  rewrite !vget_shift by lia.
  change (vget (compact p ++ rest) 0) with (Ret (u8 (ip p / 2 ^ 24))).
  change (vget (compact p ++ rest) 1) with (Ret (u8 (ip p / 2 ^ 16))).
  change (vget (compact p ++ rest) 2) with (Ret (u8 (ip p / 2 ^ 8))).
  change (vget (compact p ++ rest) 3) with (Ret (u8 (ip p))).
  change (vget (compact p ++ rest) 4) with (Ret (u8 (port p / 2 ^ 8))).
  change (vget (compact p ++ rest) 5) with (Ret (u8 (port p))). run_bind.
  rewrite or_shifted_ip, or_shifted_port.
  rewrite (decode_encode_int (ip p)) by (apply encode_integer_ok; unfold uint32_max; lia).
  assert (b2z (u8 (port p / 2 ^ 8)) * 2 ^ 8 + b2z (u8 (port p)) = port p) as ->.
  { rewrite !b2z_u8. Z.div_mod_to_equations. lia. }
  replace (zlen pre + 6 + 6) with (zlen pre + 12) by lia. by destruct p.
Qed.

Lemma zlen_compact p : zlen (compact p) = 6.
Proof. done. Qed.

Lemma peers_loop_end fuel s it : zlen s <= it -> peers_loop (S fuel) s it = Ret [].
Proof. intros H. cbn [peers_loop]. destruct (Z.ltb_spec it (zlen s)); [lia|done]. Qed.

(** Every second peer of a compact list is read. *)
Lemma peers_loop_compact n ps fuel pre :
  (length ps <= n)%nat -> Forall peer_ok ps -> (n < fuel)%nat ->
  peers_loop fuel (pre ++ concat (map compact ps)) (zlen pre) = Ret (every_other ps).
Proof.
  revert ps fuel pre. induction n as [|n IH]; intros ps fuel pre Hl Hps Hf;
    (destruct fuel as [|fuel]; [lia|]).
  - destruct ps; [|simpl in Hl; lia]. apply peers_loop_end. cbn. rewrite app_nil_r. lia.
  - destruct ps as [|p ps]; [apply peers_loop_end; cbn; rewrite app_nil_r; lia|].
    inversion_clear Hps as [|? ? Hp Hps']. cbn [map concat]. rewrite peers_loop_peer by done.
    destruct ps as [|q ps].
    + destruct fuel as [|fuel]; [lia|]. rewrite peers_loop_end; [done|].
      cbn [map concat]. rewrite app_nil_r, zlen_app, zlen_compact. lia.
    + inversion_clear Hps' as [|? ? Hq Hps]. cbn [map concat] in *.
      replace (pre ++ compact p ++ compact q ++ concat (map compact ps))
        with ((pre ++ compact p ++ compact q) ++ concat (map compact ps))
        by (by rewrite <- !app_assoc).
      replace (zlen pre + 12) with (zlen (pre ++ compact p ++ compact q))
        by (rewrite !zlen_app, !zlen_compact; lia).
      simpl in Hl. by rewrite IH by (done || lia).
Qed.

(** Fewer than six bytes left are read past. *)
Lemma peers_loop_overrun k r fuel s it :
  0 <= it -> zlen s = it + 12 * Z.of_nat k + r -> 1 <= r <= 5 -> (k < fuel)%nat ->
  peers_loop fuel s it = Undef OutOfBounds.
Proof.
  revert fuel it. induction k as [|k IH]; intros [|fuel] it Hit Hs Hr Hf; try lia; cbn [peers_loop];
    (destruct (Z.ltb_spec it (zlen s)); [|lia]).
  - destruct (decide (r = 5)) as [->|]; [|destruct (decide (r = 4)) as [->|];
      [|destruct (decide (r = 3)) as [->|]; [|destruct (decide (r = 2)) as [->|]]]];
    repeat first [
      match goal with |- context [vget s ?i] => 
        rewrite (proj2 (vget_oob s i)) by lia; reflexivity end
     |match goal with |- context [vget s ?i] => 
        let x := fresh in let E := fresh in
        destruct (vget_total s i) as (x & E & _); [lia|rewrite E; run_bind] end].
  - repeat match goal with |- context [vget s ?i] =>
        let x := fresh in let E := fresh in
        destruct (vget_total s i) as (x & E & _); [lia|rewrite E; run_bind] end.
    by rewrite (IH fuel (it + 6 + 6)) by lia.
Qed.

Lemma peers_loop_terminates fuel s it :
  zlen s <= it + 12 * Z.of_nat fuel -> peers_loop (S fuel) s it <> NoFuel.
Proof.
  revert it. induction fuel as [|fuel IH]; intros it Hf.
  - by rewrite peers_loop_end by lia.
  - cbn [peers_loop]. destruct (Z.ltb_spec it (zlen s)); [|done]. no_fuel.
    apply bind_nofuel; [|done]. apply IH. lia.
Qed.

(** A tracker response with a compact list of peers. *)
Definition tracker_response (n : Z) (peers_str : bytes) : BencodeValue :=
  BencodeDict [(str "interval", BencodeInt n); (str "peers", BencodeString peers_str)].

Lemma tracker_response_size n peers_str :
  zlen (encode (tracker_response n peers_str)) <= int64_max -> in_i64 (zlen peers_str) = true.
Proof.
  intros Hl. apply in_i64_spec. unfold tracker_response, encode in Hl.
  cbn [bto_string map concat fst snd] in Hl. unfold int64_max in Hl. rewrite !zlen_app in Hl.
  zlen_pos. lia.
Qed.

Lemma parse_tracker_response_text n peers_str :
  in_i64 n = true -> zlen (encode (tracker_response n peers_str)) <= int64_max ->
  parse_tracker_response (encode (tracker_response n peers_str)) =
  (ps ← peers_loop (S (length peers_str)) peers_str 0; Ret (OK (mkAnnounce n ps))).
Proof.
  intros Hn Hl. pose proof (tracker_response_size _ _ Hl) as Hp.
  unfold parse_tracker_response. rewrite decode_encode_ok; [|..|done|done].
  - run_bind. unfold tracker_response. by read_key.
  - constructor; [repeat constructor|]. by repeat (constructor || split).
Qed.

Lemma concat_compact_length ps : zlen (concat (map compact ps)) = 6 * zlen ps.
Proof.
  induction ps as [|p ps IH]; [done|]. cbn [map concat].
  rewrite zlen_app, zlen_compact, zlen_cons, IH. lia.
Qed.

(** ** Claims *)

(** Round trip. The host part of a printed address is read back to the same
    peer. *)
Theorem address_round_trip p :
  0 <= ip p < 2 ^ 32 ->
  exists host, address p = host ++ str ":" ++ to_string (port p) /\
    Peer_from_string host (port p) = Ret p.
Proof.
  intros Hp. exists (dotted (ip p)). split.
  - unfold address, dotted. by rewrite <- !app_assoc.
  - rewrite dotted_peer by done. by destruct p.
Qed.

Lemma address_round_trip_witness :
  exists host, address (mkPeer 0xc0a80001 6881) = host ++ str ":" ++ to_string 6881 /\
    Peer_from_string host 6881 = Ret (mkPeer 0xc0a80001 6881).
Proof. apply (address_round_trip (mkPeer 0xc0a80001 6881)). simpl. lia. Defined.

(** C33: of the compact peers in a tracker response the announce keeps the first,
    the third, the fifth and so on: the iterator moves by twelve bytes per peer
    of six. *)
Theorem tracker_peers n ps :
  in_i64 n = true -> Forall peer_ok ps ->
  zlen (encode (tracker_response n (concat (map compact ps)))) <= int64_max ->
  parse_tracker_response (encode (tracker_response n (concat (map compact ps)))) =
  Ret (OK (mkAnnounce n (every_other ps))).
Proof.
  intros Hn Hps Hl. rewrite parse_tracker_response_text by done.
  pose proof (peers_loop_compact (length ps) ps (S (length (concat (map compact ps)))) []) as E.
    rewrite app_nil_l, zlen_nil in E. rewrite E; [done|done|done|].
    pose proof (concat_compact_length ps). unfold zlen in *. lia.
Qed.

Lemma tracker_peers_witness :
  parse_tracker_response
    (encode (tracker_response 60 (concat (map compact [mkPeer 1 2; mkPeer 3 4; mkPeer 5 6])))) =
  Ret (OK (mkAnnounce 60 [mkPeer 1 2; mkPeer 5 6])).
Proof.
  apply (tracker_peers 60 [mkPeer 1 2; mkPeer 3 4; mkPeer 5 6]).
  - reflexivity.
  - repeat constructor; simpl; lia.
  - vm_compute. discriminate.
Defined.

(** A "peers" string that leaves one to five bytes after a multiple of
    twelve is read past its end. *)
Theorem tracker_peers_overrun n peers_str :
  in_i64 n = true -> zlen (encode (tracker_response n peers_str)) <= int64_max ->
  1 <= zlen peers_str mod 12 <= 5 ->
  parse_tracker_response (encode (tracker_response n peers_str)) = Undef OutOfBounds.
Proof.
  intros Hn Hl Hmod. rewrite parse_tracker_response_text by done.
  pose proof (Z.div_mod (zlen peers_str) 12 ltac:(lia)).
    assert (0 <= zlen peers_str / 12) by (apply Z.div_pos; zlen_lia).
    rewrite (peers_loop_overrun (Z.to_nat (zlen peers_str / 12)) (zlen peers_str mod 12));
      [done|lia|lia|done|]. unfold zlen in *. lia.
Qed.

Lemma tracker_peers_overrun_witness :
  parse_tracker_response (encode (tracker_response 60 (str "ABC"))) = Undef OutOfBounds.
Proof.
  apply tracker_peers_overrun.
  - reflexivity.
  - vm_compute. discriminate.
  - vm_compute. split; discriminate.
Defined.

(** Errors. Whatever the HTTP client answers, an announce ends; a failed
    request and an unparsable response are reported as values. *)
Theorem announce_errors get torrent_f :
  let res := get (announce_url torrent_f) (announce_parameters torrent_f) in
  announce get torrent_f <> NoFuel /\
  (status_code res = 0 \/ 400 <= status_code res ->
   announce get torrent_f = Ret (ERROR AnnounceError)) /\
  (0 < status_code res < 400 -> forall e, decode (res_text res) = Ret (ERROR e) ->
   announce get torrent_f = Ret (ERROR ParserError)).
Proof.
  intros res. unfold announce. fold res. split_and!.
  - destruct (_ || _); [done|]. unfold parse_tracker_response.
    apply bind_nofuel; [apply decode_nofuel|]. intros [tree|] _; [|done].
    destruct tree as [| | |d]; try done. unfold as_dict. run_bind.
    assert (forall k, map_at k d <> NoFuel) by (intros k; unfold map_at; by destruct (map_find k d)).
    assert (forall v, as_int v <> NoFuel) by (by intros []).
    assert (forall v, as_string v <> NoFuel) by (by intros []). no_fuel.
    apply bind_nofuel; [|done]. apply peers_loop_terminates. unfold zlen. lia.
  - intros [->|Hs]; [done|]. destruct (Z.leb_spec 400 (status_code res)); [|lia].
    by rewrite orb_true_r.
  - intros Hs e He. destruct (Z.eqb_spec (status_code res) 0); [lia|].
    destruct (Z.leb_spec 400 (status_code res)); [lia|]. cbn [orb].
    unfold parse_tracker_response. by rewrite He.
Qed.

Lemma announce_errors_witness :
  announce (fun _ _ => mkResponse 200 (str "x")) TorrentFile_empty = Ret (ERROR ParserError).
Proof.
  apply (announce_errors (fun _ _ => mkResponse 200 (str "x")) TorrentFile_empty)
    with InvalidString; [simpl; lia|vm_compute; reflexivity].
Defined.
