(* ===== verification/Torrent.v ===== *)
(** * Torrent: the torrent objects of the client (Torrent of src/torrent.hpp, torrent.cpp)

    The tracker is reached through [Peer.announce], whose HTTP client is an
    argument. The peer scores and the counters are atomic: every update is one
    step. *)
From S2P Require Import Prelude Hash Descriptor Pieces Peer.
Local Open Scope Z_scope.

(** ** Data and operations *)

Inductive TorrentState : Type := Loading | Downloading | Paused | Completed | Stopped | Error.

#[export] Instance TorrentState_eq_dec : EqDecision TorrentState.
Proof. solve_decision. Defined.

Record Torrent : Type := mkTorrent {
  t_tid : Z;
  t_descriptor : TorrentFile;
  t_peers : list Peer;
  t_peers_score : list Z;
  t_update_interval : Z;
  t_state : TorrentState;
  t_pieces_processed : Z;
}.

(** [Torrent()]. *)
Definition Torrent_empty : Torrent := mkTorrent 0 TorrentFile_empty [] [] 0 Error 0.

Definition set_state (s : TorrentState) (t : Torrent) : Torrent :=
  mkTorrent (t_tid t) (t_descriptor t) (t_peers t) (t_peers_score t) (t_update_interval t) s
    (t_pieces_processed t).

(** [Torrent::announce]. *)
Definition torrent_announce (http : bytes -> list (bytes * bytes) -> http_response) (t : Torrent)
  : cxx Torrent :=
  response ← announce http (t_descriptor t);
  match response with
  | ERROR _ => Ret t
  | OK r =>
      if int64_max <? zlen (peers r) then Throw (out_of_range "too many peers")
      else Ret (mkTorrent (t_tid t) (t_descriptor t) (peers r) (replicate (length (peers r)) 1)
                  (interval r) (t_state t) (t_pieces_processed t))
  end.

(** [Torrent(TorrentID, const TorrentFile&)]. *)
Definition Torrent_new (http : bytes -> list (bytes * bytes) -> http_response) (tid : Z)
  (descriptor : TorrentFile) : cxx Torrent :=
  torrent_announce http (mkTorrent tid descriptor [] [] 0 Loading 0).

(** [fetch_add] on [std::atomic_int64_t]: wraps around. *)
Definition wrap64 (z : Z) : Z := (z + 2 ^ 63) mod 2 ^ 64 - 2 ^ 63.

(** [Torrent::atomic_add_peer_score]. *)
Definition atomic_add_peer_score (peer_index : Z) (t : Torrent) : cxx Torrent :=
  if peer_index <? zlen (t_peers_score t) then
    score ← vget (t_peers_score t) peer_index;
    scores ← vset (t_peers_score t) peer_index (wrap64 (score + 1));
    Ret (mkTorrent (t_tid t) (t_descriptor t) (t_peers t) scores (t_update_interval t) (t_state t)
           (t_pieces_processed t))
  else Ret t.

(** [Torrent::distribution]: the weights of the discrete distribution. *)
Definition distribution (t : Torrent) : list Z := t_peers_score t.

(** [Torrent::pieces]. *)
Definition torrent_pieces (t : Torrent) : cxx (list Piece) := pieces (t_descriptor t).

(** ** Lemmas *)

(** A score per peer, all positive. *)
Definition scores_ok (t : Torrent) : Prop :=
  zlen (t_peers_score t) = zlen (t_peers t) /\ Forall (fun s => 1 <= s) (t_peers_score t).

Lemma scores_ok_new http tid descriptor t :
  Torrent_new http tid descriptor = Ret t ->
  scores_ok t /\ t_tid t = tid /\ t_descriptor t = descriptor /\ t_state t = Loading /\
  t_pieces_processed t = 0 /\ Forall (fun s => s = 1) (t_peers_score t).
Proof.
  unfold Torrent_new, torrent_announce. intros H. inv_ret. destruct x as [r|e]; inv_ret.
  - destruct (_ <? _); [done|]. inv_ret. unfold scores_ok; simpl. rewrite zlen_replicate.
    split_and!; [done| |done..|]; apply Forall_forall; intros s Hs%elem_of_replicate; lia.
  - by repeat (split || constructor).
Qed.

Lemma wrap64_small z : - 2 ^ 63 <= z < 2 ^ 63 -> wrap64 z = z.
Proof. intros H. unfold wrap64. rewrite Z.mod_small; lia. Qed.
