(* ===== verification/Message.v ===== *)
(** * Message: the messages of the peer protocol (src/download/message.hpp, message.cpp)

    A message on the wire is a 4-byte length, an id and a payload; the
    keep-alive message is the length zero alone. *)
From S2P Require Import Prelude Wire Bitfield Descriptor.
Local Open Scope Z_scope.

(** ** Data *)

(** [MessageKind]. *)
Inductive MessageKind : Type :=
| KeepAlive | Choke | Unchoke | Interested | NotInterested | Have | KBitfield | Request | KPiece.

Inductive DecodeError : Type :=
| UnexpectedPayload
| InvalidHeader
| UnknownMessageID
| InvalidPayloadLength.

#[export] Instance DecodeError_eq_dec : EqDecision DecodeError.
Proof. solve_decision. Defined.

(** [Message] and its subclasses. *)
Inductive Message : Type :=
| KeepAliveMessage
| ChokeMessage
| UnchokeMessage
| InterestedMessage
| NotInterestedMessage
| HaveMessage (index : Z)
| BitfieldMessage (bitfield : Bitfield)
| RequestMessage (index begin length : Z)
| PieceMessage (index begin : Z) (block : bytes).

#[export] Instance Message_eq_dec : EqDecision Message.
Proof. solve_decision. Defined.

(** [kind]. *)
Definition kind (m : Message) : MessageKind :=
  match m with
  | KeepAliveMessage => KeepAlive
  | ChokeMessage => Choke
  | UnchokeMessage => Unchoke
  | InterestedMessage => Interested
  | NotInterestedMessage => NotInterested
  | HaveMessage _ => Have
  | BitfieldMessage _ => KBitfield
  | RequestMessage _ _ _ => Request
  | PieceMessage _ _ _ => KPiece
  end.

(** [display_decode_error]. *)
Definition display_decode_error (err : DecodeError) : string :=
  match err with
  | UnexpectedPayload => "UnexpectedPayload"
  | InvalidHeader => "InvalidHeader"
  | UnknownMessageID => "UnknownMessageID"
  | InvalidPayloadLength => "InvalidPayloadLength"
  end.

(** ** Encoding *)

(** [message_id]. *)
Definition message_id (m : Message) : Z :=
  match m with
  | KeepAliveMessage => 0
  | ChokeMessage => 0
  | UnchokeMessage => 1
  | InterestedMessage => 2
  | NotInterestedMessage => 3
  | HaveMessage _ => 4
  | BitfieldMessage _ => 5
  | RequestMessage _ _ _ => 6
  | PieceMessage _ _ _ => 7
  end.

(** [HaveMessage::encode_payload]. *)
Definition HaveMessage_encode_payload (index : Z) : cxx bytes := encode_integer index.

(** [BitfieldMessage::encode_payload]. *)
Definition BitfieldMessage_encode_payload (bitfield : Bitfield) : cxx bytes :=
  Ret (get_bytes bitfield).

(** [RequestMessage::encode_payload]. *)
Definition RequestMessage_encode_payload (index begin length : Z) : cxx bytes :=
  index_encoded ← encode_integer index;
  begin_encoded ← encode_integer begin;
  length_encoded ← encode_integer length;
  Ret (index_encoded ++ begin_encoded ++ length_encoded).

(** [PieceMessage::encode_payload]. *)
Definition PieceMessage_encode_payload (index begin : Z) (block : bytes) : cxx bytes :=
  index_encoded ← encode_integer index;
  begin_encoded ← encode_integer begin;
  Ret (index_encoded ++ begin_encoded ++ block).

(** [encode_payload] of each subclass. *)
Definition encode_payload (m : Message) : cxx bytes :=
  match m with
  | HaveMessage index => HaveMessage_encode_payload index
  | BitfieldMessage bitfield => BitfieldMessage_encode_payload bitfield
  | RequestMessage index begin length => RequestMessage_encode_payload index begin length
  | PieceMessage index begin block => PieceMessage_encode_payload index begin block
  | _ => Ret []
  end.

(** [Message::encode], overridden by [KeepAliveMessage]. *)
Definition msg_encode (m : Message) : cxx bytes :=
  match m with
  | KeepAliveMessage => Ret [x00; x00; x00; x00]
  | _ =>
      payload ← encode_payload m;
      if int64_max <? zlen payload then Throw (invalid_argument "payload is too big")
      else
        n ← i64 (1 + zlen payload);
        len ← encode_integer n;
        Ret (len ++ u8 (message_id m) :: payload)
  end.

(** ** Decoding *)

(** [decode_integer] of the four bytes from [k] on. *)
Definition int_at (buf : bytes) (k : nat) : Z := decode_integer (take 4 (drop k buf)).

(** [HaveMessage::decode]. *)
Definition HaveMessage_decode (buf : bytes) : Result Message DecodeError :=
  if negb (zlen buf =? 4) then ERROR InvalidPayloadLength
  else OK (HaveMessage (int_at buf 0)).

(** [BitfieldMessage::decode]. *)
Definition BitfieldMessage_decode (torrent : TorrentFile) (buf : bytes) : Message :=
  BitfieldMessage (Bitfield_from buf (pieces_count torrent)).

(** [RequestMessage::decode]. *)
Definition RequestMessage_decode (buf : bytes) : Result Message DecodeError :=
  if negb (zlen buf =? 3 * 4) then ERROR InvalidPayloadLength
  else OK (RequestMessage (int_at buf 0) (int_at buf 4) (int_at buf 8)).

(** [PieceMessage::decode]. *)
Definition PieceMessage_decode (buf : bytes) : Result Message DecodeError :=
  if zlen buf <? 8 then ERROR InvalidPayloadLength
  else OK (PieceMessage (int_at buf 0) (int_at buf 4) (drop 8 buf)).

(** [Message::decode]. The error built for a payload of a payload-less message
    is not returned, so it has no effect. *)
Definition msg_decode (torrent : TorrentFile) (buf : bytes) : Result Message DecodeError :=
  if decide (buf = [x00; x00; x00; x00]) then OK KeepAliveMessage
  else if zlen buf <? 5 then ERROR InvalidHeader
  else
    let id := b2z (nth 4 buf x00) in
    let payload := drop 5 buf in
    if id <? 4 then
      match id with
      | 0 => OK ChokeMessage
      | 1 => OK UnchokeMessage
      | 2 => OK InterestedMessage
      | _ => OK NotInterestedMessage
      end
    else if id <? 8 then
      match id with
      | 4 => HaveMessage_decode payload
      | 5 => OK (BitfieldMessage_decode torrent payload)
      | 6 => RequestMessage_decode payload
      | _ => PieceMessage_decode payload
      end
    else ERROR UnknownMessageID.

Example msg_request :
  msg_encode (RequestMessage 1 2 16384) =
  Ret [x00; x00; x00; x0d; x06; x00; x00; x00; x01; x00; x00; x00; x02; x00; x00; x40; x00].
Proof. vm_compute. reflexivity. Qed.

Example msg_choke_payload :
  msg_decode TorrentFile_empty [x00; x00; x00; x01; x00; xff] = OK ChokeMessage.
Proof. vm_compute. reflexivity. Qed.

(** ** Lemmas *)

(** What [msg_decode] makes of an id and a payload. *)
Definition decode_body (torrent : TorrentFile) (id : Z) (payload : bytes)
  : Result Message DecodeError :=
  if id <? 4 then
    match id with
    | 0 => OK ChokeMessage
    | 1 => OK UnchokeMessage
    | 2 => OK InterestedMessage
    | _ => OK NotInterestedMessage
    end
  else if id <? 8 then
    match id with
    | 4 => HaveMessage_decode payload
    | 5 => OK (BitfieldMessage_decode torrent payload)
    | 6 => RequestMessage_decode payload
    | _ => PieceMessage_decode payload
    end
  else ERROR UnknownMessageID.

(** The length prefix is not looked at. *)
Lemma msg_decode_body t l b p :
  length l = 4%nat -> msg_decode t (l ++ b :: p) = decode_body t (b2z b) p.
Proof.
  intros Hl. unfold msg_decode. rewrite decide_False.
  2:{ intros E. apply (f_equal length) in E. rewrite length_app, Hl in E. simpl in E. lia. }
  destruct (Z.ltb_spec (zlen (l ++ b :: p)) 5) as [H|_].
  { rewrite zlen_app, zlen_cons in H. unfold zlen in H. lia. }
  do 4 (destruct l as [|? l]; [done|]). destruct l; [|done]. reflexivity.
Qed.

Lemma int_at_app pre a rest n :
  encode_integer n = Ret a -> int_at (pre ++ a ++ rest) (length pre) = n.
Proof.
  intros H. unfold int_at. rewrite drop_app_length.
  rewrite <- (encode_integer_zlen _ _ H), take_app_length. by apply decode_encode_int.
Qed.

(** A four-byte field re-encodes to its bytes. *)
Lemma int_at_encode buf k :
  (k + 4 <= length buf)%nat -> encode_integer (int_at buf k) = Ret (take 4 (drop k buf)).
Proof.
  intros Hk. unfold int_at. set (a := take 4 (drop k buf)).
  assert (Ha : length a = 4%nat) by (unfold a; rewrite length_take, length_drop; lia).
  do 4 (destruct a as [|? a]; [done|]). destruct a; [|done]. apply encode_decode_int.
Qed.

(** Messages that can be sent: fields of 32 bits, a payload that fits the
    length, and a bitfield with a bit per piece. *)
Definition sendable (t : TorrentFile) (m : Message) : Prop :=
  match m with
  | HaveMessage i => 0 <= i < 2 ^ 32
  | BitfieldMessage bf => len bf = pieces_count t /\ zlen (storage bf) < 2 ^ 32 - 1
  | RequestMessage i b l => 0 <= i < 2 ^ 32 /\ 0 <= b < 2 ^ 32 /\ 0 <= l < 2 ^ 32
  | PieceMessage i b bl => 0 <= i < 2 ^ 32 /\ 0 <= b < 2 ^ 32 /\ zlen bl < 2 ^ 32 - 9
  | _ => True
  end.

Lemma encode_integer_total n :
  0 <= n < 2 ^ 32 -> exists a, encode_integer n = Ret a /\ zlen a = 4 /\ length a = 4%nat.
Proof.
  intros Hn. rewrite encode_integer_ok by (unfold uint32_max; lia). eauto.
Qed.

(** Encoding a payload and decoding it under the message's id. *)
Lemma payload_round_trip t m :
  sendable t m -> m <> KeepAliveMessage ->
  exists p, encode_payload m = Ret p /\ zlen p < 2 ^ 32 - 1 /\ decode_body t (message_id m) p = OK m.
Proof.
  intros Hm Hk. destruct m as [| | | | |i|[n st]|i b l|i b bl]; try done;
    simpl in Hm; try (exists []; done).
  - destruct (encode_integer_total i Hm) as (a & Ha & Hz & Hl). exists a.
    split_and!; [done|lia|]. unfold decode_body; simpl. unfold HaveMessage_decode. rewrite Hz. simpl.
    pose proof (int_at_app [] a [] i Ha) as E. rewrite app_nil_l, app_nil_r in E. simpl in E.
    by rewrite E.
  - exists st. destruct Hm as [-> ?]. done.
  - destruct Hm as (Hi & Hb & Hl).
    destruct (encode_integer_total i Hi) as (ai & Hai & Hzi & Hli).
    destruct (encode_integer_total b Hb) as (ab & Hab & Hzb & Hlb).
    destruct (encode_integer_total l Hl) as (al & Hal & Hzl & Hll).
    exists (ai ++ ab ++ al). unfold encode_payload, RequestMessage_encode_payload.
    rewrite Hai, Hab, Hal. split_and!; [done|zlen_lia|].
    unfold decode_body; simpl. unfold RequestMessage_decode.
    destruct (Z.eqb_spec (zlen (ai ++ ab ++ al)) (3 * 4)) as [_|]; [|zlen_lia]. cbn [negb].
    pose proof (int_at_app [] ai (ab ++ al) i Hai) as E1. rewrite app_nil_l in E1.
    pose proof (int_at_app ai ab al b Hab) as E2. rewrite Hli in E2.
    pose proof (int_at_app (ai ++ ab) al [] l Hal) as E3.
    rewrite app_nil_r, length_app, Hli, Hlb, <- app_assoc in E3. simpl in E1, E3.
    by rewrite E1, E2, E3.
  - destruct Hm as (Hi & Hb & Hl).
    destruct (encode_integer_total i Hi) as (ai & Hai & Hzi & Hli).
    destruct (encode_integer_total b Hb) as (ab & Hab & Hzb & Hlb).
    exists (ai ++ ab ++ bl). unfold encode_payload, PieceMessage_encode_payload.
    rewrite Hai, Hab. split_and!; [done|zlen_lia|].
    unfold decode_body; simpl. unfold PieceMessage_decode.
    destruct (Z.ltb_spec (zlen (ai ++ ab ++ bl)) 8); [zlen_lia|].
    pose proof (int_at_app [] ai (ab ++ bl) i Hai) as E1. rewrite app_nil_l in E1. simpl in E1.
    pose proof (int_at_app ai ab bl b Hab) as E2. rewrite Hli in E2. rewrite E1, E2.
    by rewrite app_assoc, drop_length_app by (rewrite length_app; lia).
Qed.

(** [msg_encode] once the payload is known. *)
Lemma msg_encode_ok m p :
  m <> KeepAliveMessage -> encode_payload m = Ret p -> zlen p < 2 ^ 32 - 1 ->
  exists l, encode_integer (1 + zlen p) = Ret l /\ length l = 4%nat /\
    msg_encode m = Ret (l ++ u8 (message_id m) :: p).
Proof.
  intros Hk Hp Hz. destruct (encode_integer_total (1 + zlen p)) as (l & Hl & _ & H4); [zlen_lia|].
  exists l. split_and!; [done..|]. unfold msg_encode, int64_max.
  assert (E : (payload ← encode_payload m;
    if 2 ^ 63 - 1 <? zlen payload then Throw (invalid_argument "payload is too big")
    else n ← i64 (1 + zlen payload); len ← encode_integer n;
         Ret (len ++ u8 (message_id m) :: payload)) = Ret (l ++ u8 (message_id m) :: p)).
  { rewrite Hp. run_bind. destruct (Z.ltb_spec (2 ^ 63 - 1) (zlen p)); [lia|].
    rewrite i64_ok by zlen_lia. run_bind. by rewrite Hl. }
  by destruct m.
Qed.

Lemma message_id_range m : 0 <= message_id m < 8.
Proof. destruct m; simpl; lia. Qed.

Lemma b2z_message_id m : b2z (u8 (message_id m)) = message_id m.
Proof. apply b2z_u8_small. pose proof (message_id_range m). lia. Qed.

(** The payload of a decoded message, dropped for the payload-less ones. *)
Definition simple (m : Message) : bool :=
  match m with
  | ChokeMessage | UnchokeMessage | InterestedMessage | NotInterestedMessage => true
  | _ => false
  end.

(** A payload decoded under an id is the payload of the message. *)
Lemma decode_body_inv t id p m :
  0 <= id -> decode_body t id p = OK m ->
  m <> KeepAliveMessage /\ message_id m = id /\
  encode_payload m = Ret (if simple m then [] else p).
Proof.
  intros Hid. unfold decode_body. destruct (Z.ltb_spec id 4).
  { assert (id = 0 \/ id = 1 \/ id = 2 \/ id = 3) as [->|[->|[->| ->]]] by lia; intros [= <-]; done. }
  destruct (Z.ltb_spec id 8); [|done].
  assert (id = 4 \/ id = 5 \/ id = 6 \/ id = 7) as [->|[->|[->| ->]]] by lia.
  - unfold HaveMessage_decode. destruct (Z.eqb_spec (zlen p) 4) as [Hz|]; [|done].
    intros [= <-]. split_and!; [done..|]. unfold zlen in Hz. simpl.
    unfold HaveMessage_encode_payload. rewrite int_at_encode by lia.
    by rewrite drop_0, firstn_all2 by lia.
  - by intros [= <-].
  - unfold RequestMessage_decode. destruct (Z.eqb_spec (zlen p) (3 * 4)) as [Hz|]; [|done].
    intros [= <-]. split_and!; [done..|]. unfold zlen in Hz. simpl.
    unfold RequestMessage_encode_payload. rewrite !int_at_encode by lia. run_bind. f_equal.
    rewrite drop_0, (firstn_all2 (n:=4) (drop 8 p)) by (rewrite length_drop; lia).
    replace (drop 8 p) with (drop 4 (drop 4 p)) by (by rewrite drop_drop).
    by rewrite !take_drop.
  - unfold PieceMessage_decode. destruct (Z.ltb_spec (zlen p) 8) as [|Hz]; [done|].
    intros [= <-]. split_and!; [done..|]. unfold zlen in Hz. simpl.
    unfold PieceMessage_encode_payload. rewrite !int_at_encode by lia. run_bind. f_equal.
    rewrite drop_0. replace (drop 8 p) with (drop 4 (drop 4 p)) by (by rewrite drop_drop).
    by rewrite !take_drop.
Qed.

(** A buffer of at least five bytes has a prefix, an id and a payload. *)
Lemma split_header (buf : bytes) :
  5 <= zlen buf -> exists l b p, buf = l ++ b :: p /\ length l = 4%nat.
Proof.
  intros H. do 5 (destruct buf as [|? buf]; [zlen_lia|]).
  eexists [_; _; _; _], _, buf. done.
Qed.

(** Encoding and decoding a sendable message. *)
Lemma message_round_trip_ok t m :
  sendable t m ->
  exists buf, msg_encode m = Ret buf /\ msg_decode t buf = OK m /\
    decode_integer (take 4 buf) = zlen buf - 4.
Proof.
  intros Hm. destruct (decide (m = KeepAliveMessage)) as [->|Hk].
  { eexists. split; [reflexivity|]. done. }
  destruct (payload_round_trip t m Hm Hk) as (p & Hp & Hz & Hd).
  destruct (msg_encode_ok m p Hk Hp Hz) as (l & Hl & H4 & ->).
  eexists. split; [reflexivity|]. rewrite msg_decode_body, b2z_message_id by done.
  split; [done|]. rewrite <- H4, take_app_length, (decode_encode_int _ _ Hl).
  rewrite zlen_app, zlen_cons. assert (zlen l = 4) by (unfold zlen; lia). lia.
Qed.

(** A decoded message stands for the bytes received. *)
Lemma message_decode_faithful t buf m :
  zlen buf < 2 ^ 32 -> msg_decode t buf = OK m -> m <> KeepAliveMessage ->
  exists enc, msg_encode m = Ret enc /\ drop 4 enc = (if simple m then take 1 else id) (drop 4 buf).
Proof.
  intros Hz Hd Hk. destruct (decide (zlen buf < 5)) as [Hs|Hs].
  { unfold msg_decode in Hd. destruct (decide (buf = _)); [congruence|].
    destruct (Z.ltb_spec (zlen buf) 5); [done|lia]. }
  destruct (split_header buf) as (l & b & p & -> & H4); [lia|].
  rewrite msg_decode_body in Hd by done. pose proof (b2z_range b).
  apply decode_body_inv in Hd as (_ & Hid & Hp); [|lia].
  rewrite zlen_app, zlen_cons in Hz. unfold zlen at 1 in Hz. rewrite H4 in Hz.
  destruct (msg_encode_ok m _ Hk Hp) as (l' & _ & H4' & ->).
  { destruct (simple m); [done|]. zlen_lia. }
  eexists. split; [reflexivity|]. rewrite Hid, u8_b2z, !drop_length_app by done.
  by destruct (simple m).
Qed.

(** ** Claims *)



(** C30: errors. Decoding fails exactly for a buffer too short for a header, an
    id above 7, or a payload of the wrong size; the error for the payload of a
    payload-less message is never reported. *)
Theorem message_decode_errors t buf :
  (msg_decode t buf = ERROR InvalidHeader <-> zlen buf < 5 /\ buf <> [x00; x00; x00; x00]) /\
  (msg_decode t buf = ERROR UnknownMessageID <-> 5 <= zlen buf /\ 8 <= b2z (nth 4 buf x00)) /\
  (msg_decode t buf = ERROR InvalidPayloadLength <->
     5 <= zlen buf /\
     let n := zlen buf - 5 in
     (b2z (nth 4 buf x00) = 4 /\ n <> 4) \/ (b2z (nth 4 buf x00) = 6 /\ n <> 12) \/
     (b2z (nth 4 buf x00) = 7 /\ n < 8)) /\
  msg_decode t buf <> ERROR UnexpectedPayload.
Proof.
  destruct (decide (zlen buf < 5)) as [Hs|Hs].
  { unfold msg_decode. destruct (decide (buf = _)) as [->|]; [cbn; naive_solver lia|].
    destruct (Z.ltb_spec (zlen buf) 5); [naive_solver lia|lia]. }
  destruct (split_header buf) as (l & b & p & -> & H4); [lia|].
  rewrite msg_decode_body by done. pose proof (b2z_range b) as Hb.
  assert (nth 4 (l ++ b :: p) x00 = b) as -> by (rewrite app_nth2, H4 by lia; done).
  assert (zlen (l ++ b :: p) = zlen p + 5) as ->.
  { rewrite zlen_app, zlen_cons. unfold zlen at 1. lia. }
  assert (l ++ b :: p <> [x00; x00; x00; x00]).
  { intros E. apply (f_equal length) in E. rewrite length_app, H4 in E. simpl in E. lia. }
  cbn zeta. generalize dependent (b2z b). intros id Hid. unfold decode_body. zlen_pos.
  destruct (Z.ltb_spec id 4).
  { assert (id = 0 \/ id = 1 \/ id = 2 \/ id = 3) as [->|[->|[->| ->]]] by lia; naive_solver lia. }
  destruct (Z.ltb_spec id 8); [|naive_solver lia].
  assert (id = 4 \/ id = 5 \/ id = 6 \/ id = 7) as [->|[->|[->| ->]]] by lia; cbn.
  - unfold HaveMessage_decode. destruct (Z.eqb_spec (zlen p) 4); cbn; naive_solver lia.
  - naive_solver lia.
  - unfold RequestMessage_decode. destruct (Z.eqb_spec (zlen p) (3 * 4)); cbn; naive_solver lia.
  - unfold PieceMessage_decode. destruct (Z.ltb_spec (zlen p) 8); cbn; naive_solver lia.
Qed.
