(* ===== verification/Socket.v ===== *)
(** * Socket: blocking sockets with timeouts (src/download/socket.hpp, socket.cpp)

    The socket wraps Asio. What Asio and the network do is not under control of
    the program: it is given as a list of completions, one per asynchronous
    operation, and the theorems are about every such list. The operations the
    program starts are recorded in a trace. A run that needs more completions
    than the list holds is still waiting: [NoFuel]. *)
From S2P Require Import Prelude.
Local Open Scope Z_scope.

Module Socket.

Inductive SocketError : Type := Timeout | Other.

#[export] Instance SocketError_eq_dec : EqDecision SocketError.
Proof. solve_decision. Defined.

(** [asio::error::operation_aborted]. *)
Definition operation_aborted : Z := 125.

(** How an asynchronous operation ends: whether [run_for] ran all handlers before
    the timeout, the error code its handler gets (at the latest in the final
    [run]), the bytes Asio puts into the buffer of a read, whether a connect
    leaves the socket open, and the time the operation took. *)
Record completion : Type := mkCompletion {
  stopped : bool;
  code : Z;
  data : bytes;
  opens : bool;
  elapsed : Z;
}.

(** The operations the program starts, with their timeouts. *)
Inductive action : Type :=
| AConnect (ip port : Z) (timeout : Z)
| AWrite (buf : bytes) (timeout : Z)
| ARead (n : Z) (timeout : Z)
| AClose.

(** The engine of a socket in its environment. *)
Record net : Type := mkNet {
  is_open : bool;
  events : list completion;
  trace : list action;
  close_fails : bool;
}.

Definition set_open (b : bool) (n : net) : net := mkNet b (events n) (trace n) (close_fails n).

(** Start an operation and take its completion. *)
Definition start (a : action) : st net completion := fun n =>
  match events n with
  | [] => NoFuel
  | e :: es => Ret (e, mkNet (is_open n) es (trace n ++ [a]) (close_fails n))
  end.

(** [Socket::run]: an operation that is not finished in time is cancelled by
    closing the socket; exceptions of [shutdown] and [close] are swallowed. *)
Definition run (e : completion) : st net unit :=
  if stopped e then mret tt else modify (set_open false).

(** The error reported for an error code. *)
Definition socket_error (ec : Z) : SocketError :=
  if ec =? operation_aborted then Timeout else Other.

(** [Socket::connect]. *)
Definition connect (ip port timeout : Z) : st net (Outcome SocketError) :=
  e ← start (AConnect ip port timeout);
  _ ← modify (set_open (opens e));
  _ ← run e;
  if negb (code e =? 0) then mret (ERROR (socket_error (code e)))
  else mret (OK tt).

(** [Socket::write]. *)
Definition write (buf : bytes) (timeout : Z) : st net (Outcome SocketError) :=
  e ← start (AWrite buf timeout);
  _ ← run e;
  if negb (code e =? 0) then mret (ERROR (socket_error (code e)))
  else mret (OK tt).

(** What is in a buffer of [n] zeros after Asio put [data] into it. *)
Definition filled (n : nat) (data : bytes) : bytes := take n (data ++ replicate n x00).

(** [Socket::read]; also returns the time it took. *)
Definition read (n timeout : Z) : st net (Result bytes SocketError * Z) :=
  if n <? 0 then lift (Throw (invalid_argument "expected a positive integer"))
  else
    e ← start (ARead n timeout);
    _ ← run e;
    if negb (code e =? 0) then mret (ERROR (socket_error (code e)), elapsed e)
    else mret (OK (filled (Z.to_nat n) (data e)), elapsed e).

(** [Socket::close]: the descriptor is closed even if [close] reports an error. *)
Definition close : st net (Outcome SocketError) :=
  _ ← modify (fun n => mkNet false (events n) (trace n ++ [AClose]) (close_fails n));
  n ← get;
  if close_fails n then mret (ERROR Other) else mret (OK tt).

(** ** Lemmas *)

Lemma length_filled n d : length (filled n d) = n.
Proof. unfold filled. rewrite length_take, length_app, length_replicate. lia. Qed.

Lemma filled_exact d : filled (length d) d = d.
Proof. unfold filled. by rewrite take_app_length. Qed.

(** The operations end, when the environment answers. *)
Lemma start_ret a n r : start a n = Ret r -> exists es,
  events n = r.1 :: es /\ r.2 = mkNet (is_open n) es (trace n ++ [a]) (close_fails n).
Proof. unfold start. destruct (events n) as [|e es]; [done|]. intros [= <-]. eauto. Qed.

End Socket.
