(* ===== verification/Downloader.v ===== *)
(** * Downloader: downloading a piece from a peer (src/download/downloader.hpp, downloader.cpp)

    The state of a [Downloader] is its optional socket, the choked flag and the
    optional bitfield; the environment of the socket comes from [Socket]. The
    receiving loops run for as long as the environment completes operations:
    their budget is the number of completions left, and every iteration uses
    one. *)
From S2P Require Import Prelude Wire Bitfield Hash Descriptor Pieces Peer Message Socket.
Import Socket.
Local Open Scope Z_scope.

(** ** Data *)

(** [Downloaded]. *)
Record Downloaded : Type := mkDownloaded { d_index : Z; d_content : bytes }.

Inductive DownloaderError : Type :=
| DifferentInfoHash
| InvalidMessage
| NoBitfield
| MissingPiece
| CorruptPiece
| SocketTimeout
| SocketOther.

#[export] Instance DownloaderError_eq_dec : EqDecision DownloaderError.
Proof. solve_decision. Defined.

(** The members of [Downloader] that change, and the environment of its socket. *)
Record Downloader : Type := mkDownloader {
  socket : bool;
  engine : net;
  choked : bool;
  bitfield : option Bitfield;
}.

Definition set_socket (b : bool) (d : Downloader) : Downloader :=
  mkDownloader b (engine d) (choked d) (bitfield d).
Definition set_engine (n : net) (d : Downloader) : Downloader :=
  mkDownloader (socket d) n (choked d) (bitfield d).
Definition set_choked (b : bool) (d : Downloader) : Downloader :=
  mkDownloader (socket d) (engine d) b (bitfield d).
Definition set_bitfield (bf : option Bitfield) (d : Downloader) : Downloader :=
  mkDownloader (socket d) (engine d) (choked d) bf.

(** [Downloader::Downloader], in the environment [n]. *)
Definition Downloader_new (n : net) : Downloader := mkDownloader false n true None.

(** [from_socket_error]. *)
Definition from_socket_error (err : SocketError) : DownloaderError :=
  match err with Timeout => SocketTimeout | Other => SocketOther end.

(** Durations are in nanoseconds. *)
Definition seconds (n : Z) : Z := n * 1000000000.
Definition milliseconds (n : Z) : Z := n * 1000000.
Definition UNCHOKE_TIMEOUT : Z := 15.

Definition HANDSHAKE_LENGTH : Z := 1 + 19 + 8 + 20 + 20.
Definition INFO_HASH_OFFSET : Z := 1 + 19 + 8.
Definition BLOCK_SIZE : Z := 16384.
Definition PIPELINE_SIZE_MAX : Z := 5.

(** ** Operations *)

Section downloader.
Context (torrent : TorrentFile) (peer : Peer).

(** [socket->...]: undefined for an empty optional. *)
Definition on_socket {A} (m : st net A) : st Downloader A := fun d =>
if socket d then '(a, n) ← m (engine d); Ret (a, set_engine n d)
else Undef EmptyOptional.

(** [Downloader::destroy_socket]: the result of [close] is ignored. *)
Definition destroy_socket : st Downloader unit :=
_ ← on_socket close;
modify (set_socket false).

(** [Downloader::send_message]. *)
Definition send_message (msg : Message) (timeout : Z) : st Downloader (Outcome DownloaderError) :=
buf ← lift (msg_encode msg);
outcome ← on_socket (write buf timeout);
match outcome with
| OK _ => mret (OK tt)
| ERROR e => _ ← destroy_socket; mret (ERROR (from_socket_error e))
end.

(** [Downloader::recv_message]. *)
Definition recv_message (timeout : Z) : st Downloader (Result Message DownloaderError) :=
r ← on_socket (read 4 timeout);
match r.1 with
| ERROR e => _ ← destroy_socket; mret (ERROR (from_socket_error e))
| OK message_len_bytes =>
    let message_len := decode_integer (take 4 message_len_bytes) in
    let timeout := timeout - r.2 in
    r ← on_socket (read message_len timeout);
    match r.1 with
    | ERROR e => _ ← destroy_socket; mret (ERROR (from_socket_error e))
    | OK rest =>
        match msg_decode torrent (message_len_bytes ++ rest) with
        | ERROR _ => _ ← destroy_socket; mret (ERROR InvalidMessage)
        | OK message => mret (OK message)
        end
    end
end.

(** The handshake message. *)
Definition handshake_message : bytes :=
[x13] ++ str "BitTorrent protocol" ++ replicate 8 x00 ++ info_hash torrent ++
str "FUR-----------------".

(** [Downloader::handshake]. *)
Definition handshake : st Downloader (Outcome DownloaderError) :=
maybe_sent ← on_socket (write handshake_message (seconds 5));
match maybe_sent with
| ERROR e => _ ← destroy_socket; mret (ERROR (from_socket_error e))
| OK _ =>
    r ← on_socket (read HANDSHAKE_LENGTH (seconds 5));
    match r.1 with
    | ERROR e => _ ← destroy_socket; mret (ERROR (from_socket_error e))
    | OK response =>
        let response_info_hash := take 20 (drop (Z.to_nat INFO_HASH_OFFSET) response) in
        if decide (info_hash torrent <> response_info_hash) then
          _ ← destroy_socket; mret (ERROR DifferentInfoHash)
        else mret (OK tt)
    end
end.

(** The loop of [ensure_connected] that waits to be unchoked. *)
Fixpoint unchoke_loop (fuel : nat) : st Downloader (Outcome DownloaderError) :=
match fuel with
| O => lift NoFuel
| S fuel =>
    d ← get;
    if choked d then
      maybe_message ← recv_message (milliseconds 50);
      match maybe_message with
      | ERROR e => mret (ERROR e)
      | OK message =>
          _ ← (match message with
               | UnchokeMessage => modify (set_choked false)
               | _ => mret tt
               end);
          unchoke_loop fuel
      end
    else mret (OK tt)
end.

(** [Downloader::ensure_connected]. *)
Definition ensure_connected : st Downloader (Outcome DownloaderError) :=
d ← get;
if socket d && is_open (engine d) then mret (OK tt)
else
  _ ← modify (set_socket false);
  _ ← modify (set_choked true);
  _ ← modify (fun d => set_engine (set_open false (engine d)) (set_socket true d));
  maybe_connect ← on_socket (connect (ip peer) (port peer) (seconds 5));
  match maybe_connect with
  | ERROR e => _ ← destroy_socket; mret (ERROR (from_socket_error e))
  | OK _ =>
      maybe_handshake ← handshake;
      match maybe_handshake with
      | ERROR e => mret (ERROR e)
      | OK _ =>
          maybe_message ← recv_message (seconds 5);
          match maybe_message with
          | ERROR e => mret (ERROR e)
          | OK (BitfieldMessage bf) =>
              _ ← modify (set_bitfield (Some (Bitfield_from (get_bytes bf) (len bf))));
              maybe_unchoke ← send_message UnchokeMessage (seconds 5);
              match maybe_unchoke with
              | ERROR e => mret (ERROR e)
              | OK _ =>
                  maybe_interested ← send_message InterestedMessage (seconds 5);
                  match maybe_interested with
                  | ERROR e => mret (ERROR e)
                  | OK _ =>
                      _ ← modify (set_choked true);
                      d ← get;
                      unchoke_loop (S (length (events (engine d))))
                  end
              end
          | OK _ => _ ← destroy_socket; mret (ERROR NoBitfield)
          end
      end
  end.

(** The inner loop of [try_download]: requests until five blocks are awaited.
  Returns the number of blocks requested so far. *)
Fixpoint request_loop (fuel : nat) (index piece_length blocks_total blocks_received : Z)
(blocks_requested : Z) : st Downloader (Result Z DownloaderError) :=
match fuel with
| O => lift NoFuel
| S fuel =>
    if (blocks_requested - blocks_received <? PIPELINE_SIZE_MAX) &&
       (blocks_requested <? blocks_total) then
      let offset := blocks_requested * BLOCK_SIZE in
      let length := if blocks_requested =? blocks_total - 1
                    then piece_length - blocks_requested * BLOCK_SIZE else BLOCK_SIZE in
      maybe_sent ← send_message (RequestMessage index offset length) (seconds 5);
      match maybe_sent with
      | ERROR e => mret (ERROR e)
      | OK _ => request_loop fuel index piece_length blocks_total blocks_received
                  (blocks_requested + 1)
      end
    else mret (OK blocks_requested)
end.

(** [std::copy] of a block to the position [begin] of the piece. *)
Definition copy_block (block : bytes) (begin : Z) (piece : bytes) : cxx bytes :=
if zlen piece <? begin + zlen block then Undef OutOfBounds
else Ret (take (Z.to_nat begin) piece ++ block ++ drop (Z.to_nat (begin + zlen block)) piece).

(** [bitfield->]: undefined for an empty optional. *)
Definition the_bitfield : st Downloader Bitfield :=
d ← get; match bitfield d with Some bf => mret bf | None => lift (Undef EmptyOptional) end.

(** The locals of the loop of [try_download] that change. *)
Record progress : Type := mkProgress {
piece : bytes;
blocks_requested : Z;
blocks_received : Z;
timeout : Z;
}.

(** The [switch] on a received message. *)
Definition on_message (message : Message) (p : progress) : st Downloader progress :=
match message with
| ChokeMessage =>
    _ ← modify (set_choked true);
    mret (mkProgress (piece p) (blocks_requested p) (blocks_received p) (seconds UNCHOKE_TIMEOUT))
| UnchokeMessage =>
    _ ← modify (set_choked false);
    mret (mkProgress (piece p) (blocks_requested p) (blocks_received p) (seconds 5))
| HaveMessage new_piece_index =>
    bf ← the_bitfield;
    bf ← lift (bf_set1 bf new_piece_index);
    _ ← modify (set_bitfield (Some bf));
    mret p
| PieceMessage _ begin block =>
    piece' ← lift (copy_block block begin (piece p));
    mret (mkProgress piece' (blocks_requested p) (blocks_received p + 1) (timeout p))
| _ => mret p
end.

(** The loop of [try_download]; returns the piece. *)
Fixpoint download_loop (fuel : nat) (index piece_length blocks_total : Z) (p : progress)
: st Downloader (Result bytes DownloaderError) :=
match fuel with
| O => lift NoFuel
| S fuel =>
    if blocks_received p <? blocks_total then
      d ← get;
      requested ← (if choked d then mret (OK (blocks_requested p))
                   else request_loop (S (Z.to_nat (blocks_total - blocks_requested p))) index
                          piece_length blocks_total (blocks_received p) (blocks_requested p));
      match requested with
      | ERROR e => mret (ERROR e)
      | OK requested =>
          maybe_message ← recv_message (timeout p);
          match maybe_message with
          | ERROR e => mret (ERROR e)
          | OK message =>
              p ← on_message message
                    (mkProgress (piece p) requested (blocks_received p) (timeout p));
              download_loop fuel index piece_length blocks_total p
          end
      end
    else mret (OK (piece p))
end.

(** [Downloader::try_download]. *)
Definition try_download (task : Piece) : st Downloader (Result Downloaded DownloaderError) :=
if pieces_count torrent <=? 0 then
  lift (Throw (invalid_argument "expected torrent to have at least a piece"))
else if (index task <? 0) || (pieces_count torrent <=? index task) then
  lift (Throw (invalid_argument "piece index outside valid range"))
else
  maybe_connected ← ensure_connected;
  match maybe_connected with
  | ERROR e => mret (ERROR e)
  | OK _ =>
      bf ← the_bitfield;
      has ← lift (bf_get bf (index task));
      if negb has then mret (ERROR MissingPiece)
      else
        piece_length ← lift (this_piece_length torrent (index task));
        if piece_length <=? 0 then
          lift (Throw (invalid_argument "expected piece to have at least a byte"))
        else
          n ← lift (i64 (piece_length + BLOCK_SIZE));
          let blocks_total := Z.quot (n - 1) BLOCK_SIZE in
          d ← get;
          result ← download_loop (S (length (events (engine d)))) (index task) piece_length
                     blocks_total
                     (mkProgress (replicate (Z.to_nat piece_length) x00) 0 0 (seconds 5));
          match result with
          | ERROR e => mret (ERROR e)
          | OK piece =>
              hash ← lift (vget (piece_hashes torrent) (index task));
              ok ← lift (verify_piece piece hash);
              if negb ok then mret (ERROR CorruptPiece)
              else mret (OK (mkDownloaded (index task) piece))
          end
  end.

End downloader.
