(* ===== verification/DownloaderSpec.v ===== *)
(** * DownloaderSpec: what a download guarantees

    A small program logic for the stateful code ([holds]) gives the invariants
    that hold against every environment; the runs against a cooperative or a
    hostile peer are computed for whole families of environments. *)
From S2P Require Import Prelude Wire Bitfield Sha1 Sha1Spec Hash Descriptor Pieces Peer Message.
From S2P Require Import Socket Downloader.
Import Socket.
Local Open Scope Z_scope.

(** ** A program logic *)

(** Started in a state that satisfies [P], [m] does not use an empty optional,
    and if it returns, [Q] relates the initial state, the value and the final
    state. *)
Definition holds {S A} (P : S -> Prop) (m : st S A) (Q : S -> A -> S -> Prop) : Prop :=
  forall s, P s ->
  match m s with
  | Ret (a, s') => Q s a s'
  | Undef EmptyOptional => False
  | _ => True
  end.

(** Evaluations that do not use an empty optional. *)
Definition no_optional {A} (m : cxx A) : Prop := m <> Undef EmptyOptional.

Section logic.
Context {S : Type}.

Lemma holds_ret {A} (a : A) (P : S -> Prop) (Q : S -> A -> S -> Prop) :
(forall s, P s -> Q s a s) -> holds P (mret a) Q.
Proof. intros H s Hs. by apply H. Qed.

Lemma holds_bind {A B} (m : st S A) (f : A -> st S B) P R Q :
holds P m R -> (forall s0 a, P s0 -> holds (R s0 a) (f a) (fun _ b s' => Q s0 b s')) ->
holds P (x ← m; f x) Q.
Proof.
intros Hm Hf s Hs. specialize (Hm s Hs). unfold mbind, st_bind.
destruct (m s) as [[a s1]|e|u|]; [|done|by destruct u|done].
specialize (Hf s a Hs s1 Hm). by destruct (f a s1) as [[b s2]|e|u|].
Qed.

Lemma holds_weaken {A} (m : st S A) (P P' : S -> Prop) (Q Q' : S -> A -> S -> Prop) :
holds P m Q -> (forall s, P' s -> P s) -> (forall s a s', P' s -> Q s a s' -> Q' s a s') ->
holds P' m Q'.
Proof.
intros Hm HP HQ s Hs. specialize (Hm s (HP s Hs)).
destruct (m s) as [[a s1]|e|u|]; eauto.
Qed.

Lemma holds_get P (Q : S -> S -> S -> Prop) :
(forall s, P s -> Q s s s) -> holds P get Q.
Proof. intros H s Hs. by apply H. Qed.

Lemma holds_modify P g (Q : S -> unit -> S -> Prop) :
(forall s, P s -> Q s tt (g s)) -> holds P (modify g) Q.
Proof. intros H s Hs. by apply H. Qed.

Lemma holds_lift {A} (m : cxx A) P (Q : S -> A -> S -> Prop) :
no_optional m -> (forall s a, P s -> m = Ret a -> Q s a s) -> holds P (lift m) Q.
Proof.
intros Hm H s Hs. unfold lift. unfold no_optional in Hm.
destruct m as [a|e|u|]; cbn; [by apply H|done| |done]. by destruct u.
Qed.
End logic.

(** ** Evaluations without optionals *)

Lemma no_optional_bind {A B} (m : cxx A) (f : A -> cxx B) :
  no_optional m -> (forall a, no_optional (f a)) -> no_optional (x ← m; f x).
Proof.
  unfold no_optional. intros Hm Hf. destruct m; cbn; [apply Hf|done| |done].
  intros [= ->]. by apply Hm.
Qed.

Lemma no_optional_i64 z : no_optional (i64 z).
Proof. unfold no_optional, i64. by destruct (in_i64 z). Qed.

Lemma no_optional_vget {A} (l : list A) i : no_optional (vget l i).
Proof. unfold no_optional, vget. case_bool_decide; [|done]. by destruct (l !! _). Qed.

Lemma no_optional_encode n : no_optional (encode_integer n).
Proof. unfold no_optional, encode_integer. destruct (_ <? _); [done|]. by destruct (_ <? _). Qed.

Lemma no_optional_bounds n i : no_optional (assert_within_bounds n i).
Proof. unfold no_optional, assert_within_bounds. destruct (_ <? _); [done|]. by destruct (_ <=? _). Qed.

Lemma no_optional_vset {A} (l : list A) i x : no_optional (vset l i x).
Proof. unfold no_optional, vset. by case_bool_decide. Qed.

Lemma no_optional_calc w s : no_optional (calc w s).
Proof.
  unfold no_optional, calc. destruct (full_blocks _ _ _ _) as [[rest result] w1].
  destruct (if bool_decide _ then _ else _) as [result2 w2]. destruct (_ <=? _); [done|].
  by destruct (innerHash _ _).
Qed.

Lemma no_optional_ret {A} (a : A) : no_optional (Ret a).
Proof. done. Qed.

#[export] Hint Resolve no_optional_bind no_optional_i64 no_optional_vget no_optional_encode
  no_optional_bounds no_optional_vset no_optional_calc no_optional_ret : no_opt.

Lemma no_optional_payload m : no_optional (encode_payload m).
Proof.
  destruct m; simpl; unfold HaveMessage_encode_payload, RequestMessage_encode_payload,
    PieceMessage_encode_payload; auto 10 with no_opt; done.
Qed.

Lemma no_optional_msg m : no_optional (msg_encode m).
Proof.
  assert (no_optional (payload ← encode_payload m;
    if int64_max <? zlen payload then Throw (invalid_argument "payload is too big")
    else n ← i64 (1 + zlen payload); len ← encode_integer n;
         Ret (len ++ u8 (message_id m) :: payload))).
  { apply no_optional_bind; [apply no_optional_payload|]. intros p. destruct (_ <? _); [done|].
    auto with no_opt. }
  by destruct m.
Qed.

Lemma no_optional_bf_set bf i b : no_optional (bf_set bf i b).
Proof. unfold bf_set. auto 10 with no_opt. Qed.

Lemma no_optional_bf_get bf i : no_optional (bf_get bf i).
Proof. unfold bf_get. auto 10 with no_opt. Qed.

Lemma no_optional_copy b i p : no_optional (copy_block b i p).
Proof. unfold no_optional, copy_block. by destruct (_ <? _). Qed.

Lemma no_optional_verify p h : no_optional (verify_piece p h).
Proof. unfold verify_piece. destruct (_ <? _); [done|]. auto with no_opt. Qed.

Lemma no_optional_plen d i : no_optional (this_piece_length d i).
Proof. unfold this_piece_length. destruct (_ =? _); auto with no_opt. Qed.

#[export] Hint Resolve no_optional_msg no_optional_bf_set no_optional_bf_get no_optional_copy
  no_optional_verify no_optional_plen : no_opt.

(** ** Invariants of the downloader *)

(** What socket operations leave alone. *)
Definition same (d d' : Downloader) : Prop := choked d' = choked d /\ bitfield d' = bitfield d.

Lemma same_trans d1 d2 d3 : same d1 d2 -> same d2 d3 -> same d1 d3.
Proof. unfold same. intuition congruence. Qed.

Definition alive (d : Downloader) : Prop := socket d = true.

(** An operation that keeps the socket if it succeeds and destroys it otherwise. *)
Definition socket_post {A E} (d : Downloader) (r : Result A E) (d' : Downloader) : Prop :=
  same d d' /\ socket d' = valid r.

Lemma holds_on_socket {A} (m : st net A) :
  (forall n, no_optional (m n)) ->
  holds alive (on_socket m) (fun d _ d' => same d d' /\ socket d' = true).
Proof.
  intros Hm d Hd. unfold on_socket. rewrite Hd. specialize (Hm (engine d)). unfold no_optional in Hm.
  destruct (m (engine d)) as [[a n]|e|u|]; cbn; try done. by destruct u.
Qed.

Lemma no_optional_start a n : no_optional (start a n).
Proof. unfold no_optional, start. by destruct (events n). Qed.

Lemma no_optional_run e n : no_optional (run e n).
Proof. unfold no_optional, run. by destruct (stopped e). Qed.

Lemma no_optional_st {S A B} (m : st S A) (f : A -> st S B) s :
  no_optional (m s) -> (forall a s', no_optional (f a s')) -> no_optional ((x ← m; f x) s).
Proof.
  unfold no_optional, mbind, st_bind. intros Hm Hf. destruct (m s) as [[a s']| | |]; naive_solver.
Qed.

#[export] Hint Resolve no_optional_start no_optional_run : no_opt.

Lemma no_optional_write b t n : no_optional (write b t n).
Proof.
  apply no_optional_st; [auto with no_opt|]. intros e n1. apply no_optional_st; [auto with no_opt|].
  intros _ n2. by destruct (negb _).
Qed.

Lemma no_optional_read k t n : no_optional (read k t n).
Proof.
  unfold read. destruct (_ <? _); [done|]. apply no_optional_st; [auto with no_opt|].
  intros e n1. apply no_optional_st; [auto with no_opt|]. intros _ n2. by destruct (negb _).
Qed.

Lemma no_optional_connect i p t n : no_optional (connect i p t n).
Proof.
  apply no_optional_st; [auto with no_opt|]. intros e n1. apply no_optional_st; [done|].
  intros _ n2. apply no_optional_st; [auto with no_opt|]. intros _ n3. by destruct (negb _).
Qed.

Lemma no_optional_close n : no_optional (close n).
Proof. by destruct n as [o es tr []]. Qed.

#[export] Hint Resolve no_optional_write no_optional_read no_optional_connect
  no_optional_close : no_opt.

Lemma holds_destroy : holds alive destroy_socket (fun d _ d' => same d d' /\ socket d' = false).
Proof.
  eapply holds_bind; [apply holds_on_socket; auto with no_opt|]. intros d n _.
  apply holds_modify. intros d1 [Hs _]. exact (conj Hs eq_refl).
Qed.

(** The same after other operations: the frame accumulates. *)
Lemma holds_after {A} (m : st Downloader A) (b : bool) d :
  holds alive m (fun d1 _ d' => same d1 d' /\ socket d' = b) ->
  holds (fun d1 => same d d1 /\ socket d1 = true) m (fun _ _ d' => same d d' /\ socket d' = b).
Proof.
  intros Hm. eapply holds_weaken; [apply Hm|by intros ? []|].
  intros d1 a d2 [Hs _] [Hs2 Hk]. exact (conj (same_trans _ _ _ Hs Hs2) Hk).
Qed.

Lemma holds_destroy_after d :
  holds (fun d1 => same d d1 /\ socket d1 = true) destroy_socket
    (fun _ _ d' => same d d' /\ socket d' = false).
Proof. apply holds_after, holds_destroy. Qed.

Lemma holds_on_socket_after {A} (m : st net A) d :
  (forall n, no_optional (m n)) ->
  holds (fun d1 => same d d1 /\ socket d1 = true) (on_socket m)
    (fun _ _ d' => same d d' /\ socket d' = true).
Proof. intros Hm. by apply holds_after, holds_on_socket. Qed.

(** The error branches: destroy the socket and return the error. *)
Lemma holds_fail {A E} (e : E) d :
  holds (fun d1 => same d d1 /\ socket d1 = true) (_ ← destroy_socket; mret (ERROR e))
    (fun _ (r : Result A E) d' => socket_post d r d').
Proof.
  eapply holds_bind; [apply holds_destroy_after|]. intros d1 [] _. by apply holds_ret.
Qed.

Section torrent.
Context (torrent : TorrentFile) (peer : Peer).

Lemma holds_send m t : holds alive (send_message m t) socket_post.
Proof.
eapply holds_bind.
- apply (holds_lift _ _ (fun d _ d' => same d d' /\ socket d' = true)); [auto with no_opt|done].
- intros d buf _. eapply holds_bind; [apply holds_on_socket_after; auto with no_opt|].
  intros d1 [[]|e] _; [by apply holds_ret|apply holds_fail].
Qed.

Lemma msg_decode_bitfield t buf bf :
msg_decode t buf = OK (BitfieldMessage bf) -> len bf = pieces_count t.
Proof.
intros H. destruct (decide (zlen buf < 5)) as [Hs|Hs].
{ unfold msg_decode in H. destruct (decide (buf = _)); [done|].
  destruct (Z.ltb_spec (zlen buf) 5); [done|lia]. }
destruct (split_header buf) as (l & b & p & -> & H4); [lia|].
rewrite msg_decode_body in H by done. unfold decode_body in H. pose proof (b2z_range b).
destruct (Z.ltb_spec (b2z b) 4).
{ assert (b2z b = 0 \/ b2z b = 1 \/ b2z b = 2 \/ b2z b = 3) as [E|[E|[E|E]]] by lia;
    by rewrite E in H. }
destruct (Z.ltb_spec (b2z b) 8); [|done].
assert (b2z b = 4 \/ b2z b = 5 \/ b2z b = 6 \/ b2z b = 7) as [E|[E|[E|E]]] by lia; rewrite E in H.
- unfold HaveMessage_decode in H. by destruct (negb _).
- by injection H as <-.
- unfold RequestMessage_decode in H. by destruct (negb _).
- unfold PieceMessage_decode in H. by destruct (_ <? _).
Qed.

(** Fields of a decoded message are not negative. *)
Definition nonneg_begin (m : Message) : Prop :=
match m with PieceMessage _ begin _ => 0 <= begin | _ => True end.

Lemma msg_decode_nonneg t buf m : msg_decode t buf = OK m -> nonneg_begin m.
Proof.
intros H. destruct m as [| | | | | | | |i b bl]; try done. simpl.
destruct (decide (zlen buf < 5)) as [Hs|Hs].
{ unfold msg_decode in H. destruct (decide (buf = _)); [done|].
  destruct (Z.ltb_spec (zlen buf) 5); [done|lia]. }
destruct (split_header buf) as (l & c & p & -> & H4); [lia|].
rewrite msg_decode_body in H by done. pose proof (b2z_range c).
apply decode_body_inv in H as (_ & _ & Hp); [|lia]. cbn in Hp.
unfold PieceMessage_encode_payload in Hp. inv_ret. unfold encode_integer in *.
destruct (Z.ltb_spec b 0); [done|lia].
Qed.
(** A received bitfield has a bit per piece. *)
Definition recv_post (d : Downloader) (r : Result Message DownloaderError) (d' : Downloader) : Prop :=
socket_post d r d' /\
match r with
| OK m => nonneg_begin m /\
    match m with BitfieldMessage bf => len bf = pieces_count torrent | _ => True end
| ERROR _ => True
end.

Lemma holds_recv_fail e d :
holds (fun d1 => same d d1 /\ socket d1 = true) (_ ← destroy_socket; mret (ERROR e))
  (fun _ r d' => recv_post d r d').
Proof.
eapply holds_bind; [apply holds_destroy_after|]. intros d1 [] _. by apply holds_ret.
Qed.

Lemma holds_recv t : holds alive (recv_message torrent t) recv_post.
Proof.
eapply holds_bind; [apply holds_on_socket; auto with no_opt|]. intros d [r el] _. simpl.
destruct r as [b|e]; [|apply holds_recv_fail].
eapply holds_bind; [apply holds_on_socket_after; auto with no_opt|]. intros d1 [r2 el2] _. simpl.
destruct r2 as [rest|e]; [|apply holds_recv_fail].
destruct (msg_decode torrent (b ++ rest)) as [m|e] eqn:E; [|apply holds_recv_fail].
apply holds_ret. intros d2 [Hs Hk]. split; [done|]. split; [by eapply msg_decode_nonneg|].
destruct m; try done. by eapply msg_decode_bitfield.
Qed.

Lemma holds_handshake : holds alive (handshake torrent) socket_post.
Proof.
eapply holds_bind; [apply holds_on_socket; auto with no_opt|]. intros d [[]|e] _; [|apply holds_fail].
eapply holds_bind; [apply holds_on_socket_after; auto with no_opt|]. intros d1 [r el] _. simpl.
destruct r as [resp|e]; [|apply holds_fail]. destruct (decide _); [apply holds_fail|].
by apply holds_ret.
Qed.

Lemma holds_unchoke fuel :
holds alive (unchoke_loop torrent fuel) (fun d r d' =>
  bitfield d' = bitfield d /\ socket d' = valid r /\ (valid r = true -> choked d' = false)).
Proof.
induction fuel as [|fuel IH]; [by intros d _|]. cbn [unchoke_loop].
eapply holds_bind; [by apply (holds_get _ (fun d a d' => a = d /\ d' = d))|].
intros d a Hd. destruct (choked a) eqn:Hc.
- eapply holds_bind with (R := fun _ r d' => bitfield d' = bitfield d /\ socket d' = valid r).
  { eapply holds_weaken; [apply holds_recv|by intros ? [-> ->]|].
    intros d1 r d2 [-> ->] [[[_ Hb] Hk] _]. done. }
  intros d1 [m|e] _; [|apply holds_ret; by intros d2 []].
  eapply holds_bind with (R := fun _ _ d' => bitfield d' = bitfield d /\ socket d' = true).
  { destruct m; (apply holds_modify || apply holds_ret); by intros d2 [Hb Hk]. }
  intros d2 [] _. eapply holds_weaken; [apply IH|by intros ? []|].
  intros d3 r d4 [Hb _] (Hb2 & Hk & Hc2). split_and!; congruence || done.
- apply holds_ret. intros d1 [-> ->]. done.
Qed.

(** A downloader with a socket knows what pieces the peer has. *)
Definition Inv (d : Downloader) : Prop :=
socket d = true -> exists bf, bitfield d = Some bf /\ len bf = pieces_count torrent.

(** What [ensure_connected] does to the downloader. *)
Definition connected_post (d : Downloader) (r : Outcome DownloaderError) (d' : Downloader) : Prop :=
Inv d' /\ socket d' = valid r /\ (valid r = true -> d' = d \/ choked d' = false).

Lemma connected_error d e d' : socket d' = false -> connected_post d (ERROR e) d'.
Proof. intros H. split_and!; [intros H'; congruence|done|done]. Qed.


Lemma holds_connect : holds Inv (ensure_connected torrent peer) connected_post.
Proof.
eapply holds_bind; [by apply (holds_get _ (fun d a d' => a = d /\ d' = d))|].
intros d a Hd. destruct (socket a && is_open (engine a)) eqn:Hc.
{ apply holds_ret. intros d' [-> ->]. apply andb_true_iff in Hc as [Hc _]. split; [done|auto]. }
eapply holds_bind; [by apply (holds_modify _ _ (fun _ _ _ => True))|]. intros _ [] _.
eapply holds_bind; [by apply (holds_modify _ _ (fun _ _ _ => True))|]. intros _ [] _.
eapply holds_bind; [by apply (holds_modify _ _ (fun _ _ d' => alive d'))|]. intros _ [] _.
eapply holds_bind; [apply holds_on_socket; auto with no_opt|]. intros d1 [[]|e] _; cycle 1.
{ eapply holds_bind; [apply holds_destroy_after|]. intros _ [] _.
  apply holds_ret. intros d2 [_ Hk]. by apply connected_error. }
eapply holds_bind; [eapply holds_weaken; [apply holds_handshake|by intros ? []|]|].
{ intros d2 r d3 _ [_ Hk]. exact Hk. }
intros d2 [[]|e] _; [|apply holds_ret; intros; by apply connected_error].
eapply holds_bind; [eapply holds_weaken; [apply holds_recv|done|]|].
{ intros d3 r d4 _ [[_ Hk] Hb]. exact (conj Hk Hb). }
intros d3 [m|e] _; [|apply holds_ret; intros d4 [Hk _]; by apply connected_error].
destruct m as [| | | | | |bf| |].
all: try (eapply holds_bind; [eapply holds_weaken; [apply holds_destroy|by intros ? []|]|];
  [intros ? ? ? _ [_ Hk]; exact Hk|]; intros ? ? _; apply holds_ret; intros; by apply connected_error).
set (has_bf := fun d' => exists bf, bitfield d' = Some bf /\ len bf = pieces_count torrent).
eapply holds_bind with (R := fun _ _ d' => alive d' /\ has_bf d').
{ apply holds_modify. intros d4 [Hk [_ Hb]]. split; [done|]. by eexists. }
intros _ [] _.
eapply holds_bind with (R := fun _ r d' => socket d' = valid r /\ has_bf d').
{ eapply holds_weaken; [apply holds_send|by intros ? []|].
  intros d4 r d5 [_ Hb] [[_ Hs] Hk]. unfold has_bf. by rewrite Hs. }
intros _ [[]|e] _; [|apply holds_ret; intros d5 [Hk _]; by apply connected_error].
eapply holds_bind with (R := fun _ r d' => socket d' = valid r /\ has_bf d').
{ eapply holds_weaken; [apply holds_send|by intros ? []|].
  intros d4 r d5 [_ Hb] [[_ Hs] Hk]. unfold has_bf. by rewrite Hs. }
intros _ [[]|e] _; [|apply holds_ret; intros d5 [Hk _]; by apply connected_error].
eapply holds_bind with (R := fun _ _ d' => alive d' /\ has_bf d').
{ by apply holds_modify. }
intros _ [] _. eapply holds_bind; [by apply (holds_get _ (fun d a d' => alive d' /\ has_bf d'))|].
intros d5 d6 _. eapply holds_weaken; [apply holds_unchoke|by intros ? []|].
intros d7 r d8 [_ Hb] (Hb2 & Hk & Hch). split_and!; [|done|auto].
intros _. destruct Hb as (bf' & ? & ?). exists bf'. by rewrite Hb2.
Qed.

(** States of the download loop: connected, with a bitfield of the right size. *)
Definition ready (d : Downloader) : Prop := alive d /\ Inv d.

(** Keep the downloader ready or destroy its socket. *)
Definition ready_post {A E} (r : Result A E) (d' : Downloader) : Prop :=
Inv d' /\ socket d' = valid r.

Lemma ready_socket_post {A E} d (r : Result A E) d' :
ready d -> socket_post d r d' -> ready_post r d'.
Proof.
intros [Ha Hi] [[_ Hb] Hk]. split; [|done]. intros Hs. rewrite Hb. by apply Hi.
Qed.

Lemma holds_request fuel idx plen total received requested :
holds ready (request_loop fuel idx plen total received requested)
  (fun _ r d' => ready_post r d').
Proof.
revert requested. induction fuel as [|fuel IH]; intros requested; [by intros d _|].
cbn [request_loop]. destruct (_ && _); [|apply holds_ret; by intros d []].
eapply holds_bind.
- eapply holds_weaken; [apply holds_send|by intros ? []|]. intros d r d' Hd Hp.
  exact (ready_socket_post _ _ _ Hd Hp).
- intros d [[]|e] _; [|by apply holds_ret].
  eapply holds_weaken; [apply IH|by intros d1 []|done].
Qed.

Lemma bf_set_len bf i b bf' : bf_set bf i b = Ret bf' -> len bf' = len bf.
Proof. unfold bf_set. intros H. by inv_ret. Qed.

Lemma copy_block_length block begin p p' :
0 <= begin -> copy_block block begin p = Ret p' -> zlen p' = zlen p.
Proof.
intros H0. unfold copy_block. destruct (Z.ltb_spec (zlen p) (begin + zlen block)); [done|].
intros [= <-]. zlen_pos. rewrite !zlen_app, zlen_take, zlen_drop. lia.
Qed.

Lemma holds_the_bitfield :
holds ready the_bitfield (fun d bf d' => d' = d /\ len bf = pieces_count torrent).
Proof.
intros d [Ha Hi]. destruct (Hi Ha) as (bf & Hb & Hl). unfold the_bitfield. cbn.
unfold mbind, st_bind, get. rewrite Hb. done.
Qed.

Lemma classic_begin m : nonneg_begin m \/ ~ nonneg_begin m.
Proof. destruct m; simpl; auto. lia. Qed.

Lemma holds_on_message m p :
nonneg_begin m ->
holds ready (on_message m p) (fun _ p' d' => ready d' /\ zlen (piece p') = zlen (piece p)).
Proof.
intros Hm. destruct m; simpl; try (apply holds_ret; done).
- eapply holds_bind; [by apply (holds_modify _ _ (fun _ _ d' => ready d'))|].
  intros ? [] ?. by apply holds_ret.
- eapply holds_bind; [by apply (holds_modify _ _ (fun _ _ d' => ready d'))|].
  intros ? [] ?. by apply holds_ret.
- eapply holds_bind; [apply holds_the_bitfield|]. intros d bf Hd.
  eapply holds_bind; [apply (holds_lift _ _ (fun _ bf' d' => d' = d /\ len bf' = pieces_count torrent))|].
  { apply no_optional_bf_set. }
  { intros d1 bf' [-> Hl] Hb. apply bf_set_len in Hb. split; congruence. }
  intros d1 bf' _. eapply holds_bind; [apply (holds_modify _ _ (fun _ _ d' => ready d'))|].
  { intros d2 [-> Hl]. destruct Hd as [Ha _]. split; [done|]. intros _. by exists bf'. }
  intros ? [] ?. by apply holds_ret.
- eapply holds_bind; [apply (holds_lift _ _ (fun _ p' d' => ready d' /\ zlen p' = zlen (piece p)))|].
  { auto with no_opt. }
  { intros d p' Hd Hp. split; [done|]. by eapply copy_block_length. }
  intros ? p' ?. by apply holds_ret.
Qed.


(** A finished loop keeps the size of the piece. *)
Definition loop_post (p : progress) (r : Result bytes DownloaderError) (d' : Downloader) : Prop :=
ready_post r d' /\ match r with OK content => zlen content = zlen (piece p) | _ => True end.

Lemma holds_download fuel idx plen total p :
holds ready (download_loop torrent fuel idx plen total p) (fun _ r d' => loop_post p r d').
Proof.
revert p. induction fuel as [|fuel IH]; intros p; [by intros d _|]. cbn [download_loop].
destruct (_ <? _); [|apply holds_ret; intros d [Ha Hi]; by split].
eapply holds_bind; [by apply (holds_get _ (fun d a d' => ready d'))|]. intros d a _.
eapply holds_bind with (R := fun _ r d' => ready_post r d').
{ destruct (choked a); [apply holds_ret; by intros d1 []|].
  eapply holds_weaken; [apply holds_request|done|done]. }
intros d1 [requested|e] _; [|by apply holds_ret].
eapply holds_bind with (R := fun _ r d' => ready_post r d' /\
  match r with OK m => nonneg_begin m | _ => True end).
{ eapply holds_weaken; [apply holds_recv|by intros ? []|]. intros d2 r d3 [Hi Ha] [Hp Hm].
  split; [by eapply ready_socket_post|]. by destruct r; destruct Hm. }
intros d2 [m|e] _; [|apply holds_ret; by intros d3 []].
destruct (classic_begin m) as [Hm|Hm].
- eapply holds_bind.
  { eapply holds_weaken; [by apply holds_on_message|by intros d3 [[] _]|]. intros d3 p' d4 _ H. exact H. }
  intros d3 p' _. eapply holds_weaken; [apply IH|by intros d4 []|].
  intros d4 r d5 [_ Hz] [Hr Hl]. split; [done|]. simpl in Hz. destruct r; [congruence|done].
- intros d3 [_ H]. done.
Qed.

(** What a download guarantees of its result: the requested piece, complete and
  with the SHA-1 digest of the descriptor. *)
Definition sound (task : Piece) (x : Downloaded) : Prop :=
d_index x = index task /\ this_piece_length torrent (index task) = Ret (zlen (d_content x)) /\
exists h, piece_hashes torrent !! Z.to_nat (index task) = Some h /\ sha1_ref (d_content x) = h.

Definition download_post (task : Piece) (r : Result Downloaded DownloaderError) (d' : Downloader)
: Prop :=
Inv d' /\
match r with
| OK x => sound task x /\ socket d' = true
| ERROR e => e = MissingPiece \/ e = CorruptPiece \/ socket d' = false
end.

Lemma verify_piece_true content h : verify_piece content h = Ret true -> sha1_ref content = h.
Proof.
unfold verify_piece. destruct (_ <? _); [done|]. intros H. inv_ret.
match goal with H : calc _ _ = Ret _ |- _ =>
  pose proof (calc_ret _ _ _ H); rewrite calc_sha1 in H by done; apply Ret_inj in H end.
case_bool_decide; congruence.
Qed.

Lemma holds_try_download task :
holds Inv (try_download torrent peer task) (fun _ r d' => download_post task r d').
Proof.
unfold try_download. destruct (_ <=? _); [by intros d _|]. destruct (_ || _); [by intros d _|].
eapply holds_bind; [apply holds_connect|]. intros d0 [[]|e] _; cycle 1.
{ apply holds_ret. intros d (Hi & Hk & _). split; [done|auto]. }
eapply holds_bind with (R := fun _ _ d' => ready d').
{ eapply holds_weaken; [apply holds_the_bitfield|by intros d (Hi & Hk & _)|].
  by intros d bf d' (Hi & Hk & _) [-> _]. }
intros d1 bf _. eapply holds_bind.
{ apply (holds_lift _ _ (fun _ _ d' => ready d')); [auto with no_opt|done]. }
intros d2 has _. destruct (negb has).
{ apply holds_ret. intros d [Ha Hi]. split; [done|auto]. }
eapply holds_bind.
{ apply (holds_lift _ _ (fun _ n d' => ready d' /\ this_piece_length torrent (index task) = Ret n));
    [auto with no_opt|done]. }
intros d3 plen _. destruct (Z.leb_spec plen 0); [by intros d _|].
eapply holds_bind.
{ apply (holds_lift _ _ (fun _ n d' => ready d' /\ this_piece_length torrent (index task) = Ret plen));
    [auto with no_opt|done]. }
intros d4 n _. eapply holds_bind.
{ by apply (holds_get _ (fun _ _ d' => ready d' /\ this_piece_length torrent (index task) = Ret plen)). }
intros d5 d6 _. set (p := mkProgress _ _ _ _).
eapply holds_bind with (R := fun _ r d' => loop_post p r d' /\
  this_piece_length torrent (index task) = Ret plen).
{ eapply holds_weaken; [apply holds_download|by intros d []|]. by intros d r d' [_ Hl] Hp. }
intros d7 [content|e] _; cycle 1.
{ apply holds_ret. intros d [[[Hi Hk] _] _]. split; [done|auto]. }
eapply holds_bind with (R := fun _ h d' => (loop_post p (OK content) d' /\
  this_piece_length torrent (index task) = Ret plen) /\ vget (piece_hashes torrent) (index task) = Ret h).
{ by apply holds_lift; [auto with no_opt|]. }
intros d8 h _. eapply holds_bind with (R := fun _ ok d' => ((loop_post p (OK content) d' /\
  this_piece_length torrent (index task) = Ret plen) /\ vget (piece_hashes torrent) (index task) = Ret h) /\
  verify_piece content h = Ret ok).
{ by apply holds_lift; [auto with no_opt|]. }
intros d9 ok _. destruct ok; apply holds_ret; intros d [[[[[Hi Hk] Hz] Hp] Hh] Hv]; (split; [done|]).
- split; [|done]. apply vget_lookup in Hh as [_ Hh]. split; [done|]. split.
  + rewrite Hp. cbn in Hz |- *. rewrite Hz, zlen_replicate. f_equal. lia.
  + exists h. split; [done|by apply verify_piece_true].
- auto.
Qed.
End torrent.
(** ** The requests that are sent *)

(** The buffers written to the socket. *)
Fixpoint writes (tr : list action) : list bytes :=
  match tr with
  | [] => []
  | AWrite buf _ :: tr => buf :: writes tr
  | _ :: tr => writes tr
  end.

Lemma writes_app t1 t2 : writes (t1 ++ t2) = writes t1 ++ writes t2.
Proof. induction t1 as [|[] t1 IH]; simpl; by rewrite ?IH. Qed.

(** [m] writes the buffers [W] allows for its result, whatever else it does. *)
Definition emits {A} (m : st Downloader A) (W : A -> list bytes -> Prop) : Prop :=
  forall d a d', m d = Ret (a, d') ->
  exists ext, trace (engine d') = trace (engine d) ++ ext /\ W a (writes ext).

Definition silent {A} (_ : A) (ws : list bytes) : Prop := ws = [].

Lemma emits_bind {A B} (m : st Downloader A) (f : A -> st Downloader B) W1 W2 :
  emits m W1 ->
  (forall a, emits (f a) (fun b ws2 => forall ws1, W1 a ws1 -> W2 b (ws1 ++ ws2))) ->
  emits (x ← m; f x) W2.
Proof.
  intros Hm Hf d b d' (a & d1 & H1 & H2)%st_bind_ret.
  apply Hm in H1 as (e1 & E1 & HW1). apply Hf in H2 as (e2 & E2 & HW2).
  exists (e1 ++ e2). split; [by rewrite E2, E1, <- app_assoc|]. rewrite writes_app. auto.
Qed.

(** After a silent part. *)
Lemma emits_silent {A B} (m : st Downloader A) (f : A -> st Downloader B) W :
  emits m silent -> (forall a, emits (f a) W) -> emits (x ← m; f x) W.
Proof.
  intros Hm Hf. eapply emits_bind; [exact Hm|]. intros a d b d' H.
  apply Hf in H as (e & E & HW). exists e. split; [done|]. by intros ws1 ->.
Qed.

Lemma emits_ret {A} (a : A) (W : A -> list bytes -> Prop) : W a [] -> emits (mret a) W.
Proof. intros HW d b d' [= <- <-]. exists []. by rewrite app_nil_r. Qed.

Lemma emits_lift {A} (m : cxx A) (W : A -> list bytes -> Prop) :
  (forall a, m = Ret a -> W a []) -> emits (lift m) W.
Proof.
  intros HW d a d' H. unfold lift in H. inv_ret. injection H as <- <-. exists [].
  rewrite app_nil_r. auto.
Qed.

Lemma emits_get (W : Downloader -> list bytes -> Prop) : (forall d, W d []) -> emits get W.
Proof. intros HW d a d' [= <- <-]. exists []. by rewrite app_nil_r. Qed.

Lemma emits_modify f (W : unit -> list bytes -> Prop) :
  (forall d, trace (engine (f d)) = trace (engine d)) -> W tt [] -> emits (modify f) W.
Proof. intros Hf HW d a d' [= <- <-]. exists []. by rewrite Hf, app_nil_r. Qed.

Lemma emits_on_socket {A} (m : st net A) act (W : A -> list bytes -> Prop) :
  (forall n a n', m n = Ret (a, n') -> trace n' = trace n ++ [act]) ->
  (forall a, W a (writes [act])) -> emits (on_socket m) W.
Proof.
  intros Hm HW d a d' H. unfold on_socket in H. destruct (socket d); [|done].
  destruct (m (engine d)) as [[b n]|e|u|] eqn:E; try done. cbn in H. injection H as <- <-.
  exists [act]. split; [by eapply Hm|done].
Qed.

Lemma run_trace e n r n' : run e n = Ret (r, n') -> trace n' = trace n.
Proof. unfold run. destruct (stopped e); by intros [= <- <-]. Qed.

Lemma write_trace buf t n r n' : write buf t n = Ret (r, n') -> trace n' = trace n ++ [AWrite buf t].
Proof.
  intros (e & n1 & [es [_ E]]%start_ret & H)%st_bind_ret. simpl in E. subst n1.
  apply st_bind_ret in H as ([] & n2 & Hr%run_trace & H).
  destruct (negb _); injection H as <- <-; by rewrite Hr.
Qed.

Lemma read_trace k t n r n' : read k t n = Ret (r, n') -> trace n' = trace n ++ [ARead k t].
Proof.
  unfold read. destruct (_ <? _); [done|].
  intros (e & n1 & [es [_ E]]%start_ret & H)%st_bind_ret. simpl in E. subst n1.
  apply st_bind_ret in H as ([] & n2 & Hr%run_trace & H).
  destruct (negb _); injection H as <- <-; by rewrite Hr.
Qed.

Lemma close_trace n r n' : close n = Ret (r, n') -> trace n' = trace n ++ [AClose].
Proof. destruct n as [o es tr []]; by intros [= <- <-]. Qed.

Lemma emits_destroy : emits destroy_socket silent.
Proof.
  apply emits_silent; [by eapply emits_on_socket; [apply close_trace|]|].
  intros a. by apply emits_modify.
Qed.

(** Error branches write nothing. *)
Lemma emits_fail {A E} (e : E) : emits (_ ← destroy_socket; mret (@ERROR A E e)) silent.
Proof. apply emits_silent; [apply emits_destroy|]. intros _. by apply emits_ret. Qed.

Lemma emits_recv torrent t : emits (recv_message torrent t) silent.
Proof.
  apply emits_silent; [by eapply emits_on_socket; [apply read_trace|]|].
  intros [[b|e] el]; simpl; [|apply emits_fail].
  apply emits_silent; [by eapply emits_on_socket; [apply read_trace|]|].
  intros [[rest|e] el2]; simpl; [|apply emits_fail].
  destruct (msg_decode _ _); [by apply emits_ret|apply emits_fail].
Qed.

(** A message that is sent is written once. *)
Lemma emits_send m t :
  emits (send_message m t) (fun _ ws => exists buf, msg_encode m = Ret buf /\ ws = [buf]).
Proof.
  eapply emits_bind with (W1 := fun buf ws => msg_encode m = Ret buf /\ ws = []).
  { by apply emits_lift. }
  intros buf. eapply emits_bind with (W1 := fun _ ws => ws = [buf]).
  { by eapply emits_on_socket; [apply write_trace|]. }
  intros [[]|e].
  - apply emits_ret. intros ws1 -> ws2 [Hb ->]. by exists buf.
  - intros d r d' H. apply emits_fail in H as (ext & E & Hw). exists ext. split; [done|].
    rewrite Hw. intros ws1 -> ws2 [Hb ->]. by exists buf.
Qed.

(** Length of block [i] of a piece, and the request for it. *)
Definition block_length (plen total i : Z) : Z :=
  if i =? total - 1 then plen - i * BLOCK_SIZE else BLOCK_SIZE.
Definition block_request (idx plen total i : Z) : Message :=
  RequestMessage idx (i * BLOCK_SIZE) (block_length plen total i).

(** The buffers are the requests for the [k] blocks from [from] on. *)
Definition requests (idx plen total from k : Z) (ws : list bytes) : Prop :=
  Forall2 (fun i buf => msg_encode (block_request idx plen total i) = Ret buf) (seqZ from k) ws.

Lemma requests_nil idx plen total from : requests idx plen total from 0 [].
Proof. constructor. Qed.

Lemma requests_cons idx plen total from k buf ws :
  0 <= k -> msg_encode (block_request idx plen total from) = Ret buf ->
  requests idx plen total (from + 1) k ws -> requests idx plen total from (k + 1) (buf :: ws).
Proof.
  intros Hk Hb Hw. unfold requests. rewrite seqZ_cons by lia.
  replace (Z.succ from) with (from + 1) by lia. replace (Z.pred (k + 1)) with k by lia.
  by constructor.
Qed.

Lemma requests_app idx plen total from k1 k2 ws1 ws2 :
  0 <= k1 -> 0 <= k2 -> requests idx plen total from k1 ws1 ->
  requests idx plen total (from + k1) k2 ws2 -> requests idx plen total from (k1 + k2) (ws1 ++ ws2).
Proof.
  intros H1 H2 Hw1 Hw2. unfold requests. rewrite seqZ_app by lia. by apply Forall2_app.
Qed.

(** What the inner loop writes and returns. *)
Definition window_post (idx plen total received requested : Z) (r : Result Z DownloaderError)
  (ws : list bytes) : Prop :=
  exists k, 0 <= k /\ requested + k <= Z.max requested (Z.min total (received + 5)) /\
    requests idx plen total requested k ws /\
    match r with
    | OK q => q = requested + k /\ q = Z.max requested (Z.min total (received + 5))
    | ERROR _ => True
    end.

Lemma emits_request fuel idx plen total received requested :
  emits (request_loop fuel idx plen total received requested)
    (window_post idx plen total received requested).
Proof.
  revert requested. induction fuel as [|fuel IH]; intros requested; [done|]. cbn [request_loop].
  destruct (Z.ltb_spec (requested - received) PIPELINE_SIZE_MAX) as [Hw|Hw];
    destruct (Z.ltb_spec requested total) as [Ht|Ht]; cbn [andb];
    unfold PIPELINE_SIZE_MAX in Hw;
    try (apply emits_ret; exists 0; split_and!; [lia|lia|apply requests_nil|lia|lia]).
  eapply emits_bind; [apply emits_send|]. intros [[]|e].
  - intros d r d' H. apply IH in H as (ext & E & k & Hk & Hm & Hr & Hq). exists ext.
    split; [done|]. intros ws1 (buf & Hb & ->). exists (k + 1).
    split_and!; [lia|lia|by apply requests_cons|]. destruct r; [lia|done].
  - apply emits_ret. intros ws1 (buf & Hb & ->). exists (0 + 1).
    split_and!; [lia|lia| |done]. apply requests_cons; [lia|exact Hb|apply requests_nil].
Qed.

Lemma emits_the_bitfield : emits the_bitfield silent.
Proof.
  apply emits_silent; [by apply emits_get|]. intros d.
  destruct (bitfield d); [by apply emits_ret|by apply emits_lift].
Qed.

Lemma emits_on_message m p :
  emits (on_message m p) (fun p' ws => ws = [] /\ blocks_requested p' = blocks_requested p).
Proof.
  destruct m; simpl; try (by apply emits_ret).
  - apply emits_silent; [by apply emits_modify|]. intros _. by apply emits_ret.
  - apply emits_silent; [by apply emits_modify|]. intros _. by apply emits_ret.
  - apply emits_silent; [apply emits_the_bitfield|]. intros bf.
    apply emits_silent; [by apply emits_lift|]. intros bf'.
    apply emits_silent; [by apply emits_modify|]. intros _. by apply emits_ret.
  - apply emits_silent; [by apply emits_lift|]. intros p'. by apply emits_ret.
Qed.

Lemma emits_weaken {A} (m : st Downloader A) (W W' : A -> list bytes -> Prop) :
  emits m W -> (forall a ws, W a ws -> W' a ws) -> emits m W'.
Proof. intros Hm HW d a d' H. apply Hm in H as (e & E & Hw). eauto. Qed.

(** The loop requests blocks in order, none twice. *)
Lemma emits_download torrent fuel idx plen total p :
  emits (download_loop torrent fuel idx plen total p) (fun _ ws => exists k,
    0 <= k /\ blocks_requested p + k <= Z.max (blocks_requested p) total /\
    requests idx plen total (blocks_requested p) k ws).
Proof.
  revert p. induction fuel as [|fuel IH]; intros p; [done|]. cbn [download_loop].
  assert (H0 : exists k, 0 <= k /\ blocks_requested p + k <= Z.max (blocks_requested p) total /\
            requests idx plen total (blocks_requested p) k []).
  { exists 0. split_and!; [lia|lia|apply requests_nil]. }
  destruct (_ <? _); [|by apply emits_ret]. apply emits_silent; [by apply emits_get|]. intros d.
  eapply emits_bind with (W1 := fun r ws => exists k, 0 <= k /\
    blocks_requested p + k <= Z.max (blocks_requested p) total /\
    requests idx plen total (blocks_requested p) k ws /\
    match r with OK q => q = blocks_requested p + k | ERROR _ => True end).
  { destruct (choked d).
    - apply emits_ret. exists 0. split_and!; [lia|lia|apply requests_nil|lia].
    - eapply emits_weaken; [apply emits_request|]. intros r ws (k & Hk & Hm & Hr & Hq). exists k.
      split_and!; [lia|lia|done|]. by destruct r; destruct Hq. }
  intros [q|e]; [|apply emits_ret; intros ws (k & Hk & Hm & Hr & _); exists k;
    by rewrite app_nil_r].
  apply emits_silent; [apply emits_recv|]. intros [m|e];
    [|apply emits_ret; intros ws (k & Hk & Hm & Hr & _); exists k; by rewrite app_nil_r].
  eapply emits_bind; [apply emits_on_message|]. intros p'. eapply emits_weaken; [apply IH|].
  intros r ws2 (k2 & Hk2 & Hm2 & Hr2) ws1 [-> Hq] ws0 (k1 & Hk1 & Hm1 & Hr1 & ->).
  cbn [blocks_requested] in Hq. rewrite Hq in *. exists (k1 + k2).
  split_and!; [lia|lia|]. rewrite app_nil_l. by apply requests_app.
Qed.

(** What is written to establish a connection. *)
Definition hello (torrent : TorrentFile) : list bytes :=
  [handshake_message torrent; [x00; x00; x00; x01; x01]; [x00; x00; x00; x01; x02]].

Lemma emits_unchoke torrent fuel : emits (unchoke_loop torrent fuel) silent.
Proof.
  induction fuel as [|fuel IH]; [done|]. cbn [unchoke_loop].
  apply emits_silent; [by apply emits_get|]. intros d. destruct (choked d); [|by apply emits_ret].
  apply emits_silent; [apply emits_recv|]. intros [m|e]; [|by apply emits_ret].
  apply emits_silent; [by destruct m; (apply emits_modify || apply emits_ret)|done].
Qed.

Lemma emits_handshake torrent :
  emits (handshake torrent) (fun _ ws => ws = [handshake_message torrent]).
Proof.
  eapply emits_bind with (W1 := fun _ ws => ws = [handshake_message torrent]).
  { by eapply emits_on_socket; [apply write_trace|]. }
  intros [[]|e].
  - apply emits_silent; [by eapply emits_on_socket; [apply read_trace|]|].
    intros [[b|e] el]; simpl; [destruct (decide _); [|apply emits_ret; by intros ws ->]|];
      (eapply emits_weaken; [apply emits_fail|]; by intros ? ? -> ? ->).
  - eapply emits_weaken; [apply emits_fail|]. by intros ? ? -> ? ->.
Qed.

(** What [ensure_connected] writes: nothing, the whole of [hello], or on an error
    some of it. *)
Definition hello_post (torrent : TorrentFile) (r : Outcome DownloaderError) (ws : list bytes) : Prop :=
  ws `prefix_of` hello torrent /\ (valid r = true -> ws = [] \/ ws = hello torrent).

Lemma prefix_hello torrent ws rest : ws ++ rest = hello torrent -> ws `prefix_of` hello torrent.
Proof. intros <-. by apply prefix_app_r. Qed.

Lemma emits_connect torrent peer : emits (ensure_connected torrent peer) (hello_post torrent).
Proof.
  apply emits_silent; [by apply emits_get|]. intros d. destruct (_ && _).
  { apply emits_ret. split; [apply prefix_nil|auto]. }
  do 3 (apply emits_silent; [by apply emits_modify|]; intros _).
  apply emits_silent.
  { eapply emits_on_socket with (act := AConnect (ip peer) (port peer) (seconds 5)); [|done].
    intros n a n' (e & n1 & [es [_ E]]%start_ret & H)%st_bind_ret. simpl in E. subst n1.
    apply st_bind_ret in H as ([] & n2 & [= <-] & H).
    apply st_bind_ret in H as ([] & n3 & Hr%run_trace & H).
    destruct (negb _); injection H as <- <-; by rewrite Hr. }
  intros [[]|e].
  2:{ eapply emits_weaken; [apply emits_fail|]. intros r ws ->. split; [apply prefix_nil|auto]. }
  eapply emits_bind; [apply emits_handshake|].
  assert (Hh : forall r : Outcome DownloaderError, valid r = false -> forall ws,
    ws = [handshake_message torrent] -> hello_post torrent r (ws ++ [])).
  { intros r Hr ws ->. split; [|congruence]. by eapply prefix_hello. }
  intros [[]|e]; [|apply emits_ret; by apply Hh].
  apply emits_silent; [apply emits_recv|]. intros [m|e]; [|apply emits_ret; by apply Hh].
  destruct m as [| | | | | |bf| |].
  all: try (apply emits_silent; [apply emits_destroy|]; intros _; apply emits_ret; by apply Hh).
  apply emits_silent; [by apply emits_modify|]. intros _.
  eapply emits_bind; [apply emits_send|]. intros [[]|e].
  2:{ apply emits_ret. intros ws2 (b & [= <-] & ->) ws ->. split; [|done]. by eapply prefix_hello. }
  eapply emits_bind; [apply emits_send|]. intros [[]|e].
  2:{ apply emits_ret. intros ws3 (b3 & [= <-] & ->) ws2 (b2 & [= <-] & ->) ws ->. split; [|done].
      by eapply prefix_hello with (rest := []). }
  apply emits_silent; [by apply emits_modify|]. intros _.
  apply emits_silent; [by apply emits_get|]. intros d2. eapply emits_weaken; [apply emits_unchoke|].
  intros r ws4 -> ws3 (b3 & [= <-] & ->) ws2 (b2 & [= <-] & ->) ws ->.
  split; [by eapply prefix_hello with (rest := [])|auto].
Qed.

(** Everything a download writes: the connection messages, then the requests for
    the first [k] blocks of the piece. *)
Definition download_writes (torrent : TorrentFile) (task : Piece) (ws : list bytes) : Prop :=
  exists pre reqs plen k,
    ws = pre ++ reqs /\ pre `prefix_of` hello torrent /\
    (reqs <> [] -> pre = [] \/ pre = hello torrent) /\
    (this_piece_length torrent (index task) = Ret plen \/ reqs = []) /\
    0 <= k <= Z.quot (plen + BLOCK_SIZE - 1) BLOCK_SIZE /\
    requests (index task) plen (Z.quot (plen + BLOCK_SIZE - 1) BLOCK_SIZE) 0 k reqs.

Lemma emits_try torrent peer task :
  emits (try_download torrent peer task) (fun _ ws => download_writes torrent task ws).
Proof.
  unfold try_download. destruct (_ <=? _); [by apply emits_lift|].
  destruct (_ || _); [by apply emits_lift|].
  eapply emits_bind; [apply emits_connect|].
  assert (Hno : forall (r : Result Downloaded DownloaderError) c,
    emits (mret r) (fun _ ws2 => forall ws1, hello_post torrent c ws1 ->
      download_writes torrent task (ws1 ++ ws2))).
  { intros r c. apply emits_ret. intros ws1 [Hp _]. exists ws1, [], 0, 0.
    split_and!; [done|done|done|auto|done|done|apply requests_nil]. }
  intros [[]|e]; [|apply Hno]. apply emits_silent; [apply emits_the_bitfield|]. intros bf.
  apply emits_silent; [by apply emits_lift|]. intros has. destruct (negb has); [apply Hno|].
  eapply emits_bind with (W1 := fun n ws => ws = [] /\ this_piece_length torrent (index task) = Ret n).
  { by apply emits_lift. }
  intros plen. destruct (Z.leb_spec plen 0); [by apply emits_lift|].
  eapply emits_bind with (W1 := fun n ws => ws = [] /\ n = plen + BLOCK_SIZE).
  { apply emits_lift. intros n Hn. by apply i64_ret in Hn as [-> _]. }
  intros n. apply emits_silent; [by apply emits_get|]. intros d.
  eapply emits_bind; [apply emits_download|]. intros r.
  apply emits_weaken with (W := silent).
  { destruct r as [content|e]; [|by apply emits_ret].
    apply emits_silent; [by apply emits_lift|]. intros h.
    apply emits_silent; [by apply emits_lift|]. intros ok. by destruct (negb ok); apply emits_ret. }
  intros b ws4 -> reqs (k & Hk & Hm & Hr) ws2 [-> ->] ws1 [-> Hp] ws0 [Hpre Hv].
  cbn [blocks_requested] in *.
  assert (0 <= Z.quot (plen + BLOCK_SIZE - 1) BLOCK_SIZE) by (apply Z.quot_pos; unfold BLOCK_SIZE; lia).
  exists ws0, reqs, plen, k. rewrite !app_nil_r, !app_nil_l. split_and!; auto; lia.
Qed.

(** ** A sample download *)

(** An operation that succeeds with the given bytes. *)
Definition done_with (bs : bytes) : completion := mkCompletion true 0 bs true 0.

(** A torrent of one piece, "hello", and the answers of a peer that has it. *)
Definition hello_torrent : TorrentFile :=
  mkTorrentFile (str "http://t") (replicate 20 x07) [sha1_ref (str "hello")] 16 5 1 (str "n") []
    [mkFile [str "n"] 5].
Definition hello_events : list completion :=
  map done_with
    [[]; []; handshake_message hello_torrent;
     [x00; x00; x00; x02]; [x05; x80]; []; [];
     [x00; x00; x00; x01]; [x01]; [];
     [x00; x00; x00; x0e]; [x07] ++ replicate 8 x00 ++ str "hello"].
Definition hello_start : Downloader := Downloader_new (mkNet false hello_events [] false).
Definition hello_peer : Peer := mkPeer 0x7f000001 6881.
Definition hello_task : Piece := mkPiece 0 [mkSubpiece (str "n") 0 5].

(** The state after the download. *)
Definition hello_end : Downloader :=
  match try_download hello_torrent hello_peer hello_task hello_start with
  | Ret (_, d) => d
  | _ => hello_start
  end.

Example hello_download :
  try_download hello_torrent hello_peer hello_task hello_start =
  Ret (OK (mkDownloaded 0 (str "hello")), hello_end).
Proof. vm_compute. reflexivity. Qed.

(** ** Claims *)

(** The states of a downloader over its life, in any environment. *)
Inductive reachable (torrent : TorrentFile) (peer : Peer) : Downloader -> Prop :=
| reach_new n : reachable torrent peer (Downloader_new n)
| reach_connect d r d' :
    reachable torrent peer d -> ensure_connected torrent peer d = Ret (r, d') ->
    reachable torrent peer d'
| reach_download d task r d' :
    reachable torrent peer d -> try_download torrent peer task d = Ret (r, d') ->
    reachable torrent peer d'.

Lemma reachable_inv torrent peer d : reachable torrent peer d -> Inv torrent d.
Proof.
  induction 1 as [n|d r d' Hd IH H|d task r d' Hd IH H]; [done| |].
  - pose proof (holds_connect torrent peer d IH) as Hp. by rewrite H in Hp; destruct Hp.
  - pose proof (holds_try_download torrent peer task d IH) as Hp. by rewrite H in Hp; destruct Hp.
Qed.

(** C13: a piece that is returned is the requested one, has its full length, and
    its SHA-1 digest is the one of the descriptor, whatever the peer and the
    network did. *)
Theorem download_sound torrent peer task d x d' :
  reachable torrent peer d -> try_download torrent peer task d = Ret (OK x, d') ->
  d_index x = index task /\ this_piece_length torrent (index task) = Ret (zlen (d_content x)) /\
  exists h, piece_hashes torrent !! Z.to_nat (index task) = Some h /\ sha1_ref (d_content x) = h.
Proof.
  intros Hd%reachable_inv H. pose proof (holds_try_download torrent peer task d Hd) as Hp.
  rewrite H in Hp. by destruct Hp as [_ [Hs _]].
Qed.

Lemma download_sound_witness :
  exists h, piece_hashes hello_torrent !! 0%nat = Some h /\ sha1_ref (str "hello") = h.
Proof.
  exact (proj2 (proj2 (download_sound hello_torrent hello_peer hello_task hello_start
    (mkDownloaded 0 (str "hello")) hello_end
    (reach_new hello_torrent hello_peer (mkNet false hello_events [] false)) hello_download))).
Defined.

(** C15: invariant over the life of a downloader. With a socket it has a bitfield
    with a bit per piece; it never uses an absent socket or bitfield; after an
    error other than a missing or corrupt piece the socket is gone, so the next
    download reconnects. *)
Theorem download_invariant torrent peer d :
  reachable torrent peer d ->
  (socket d = true -> exists bf, bitfield d = Some bf /\ len bf = pieces_count torrent) /\
  forall task,
    try_download torrent peer task d <> Undef EmptyOptional /\
    forall e d', try_download torrent peer task d = Ret (ERROR e, d') ->
      e = MissingPiece \/ e = CorruptPiece \/ socket d' = false.
Proof.
  intros Hd%reachable_inv. split; [done|]. intros task.
  pose proof (holds_try_download torrent peer task d Hd) as Hp. split.
  - intros E. by rewrite E in Hp.
  - intros e d' E. rewrite E in Hp. by destruct Hp.
Qed.

Lemma download_invariant_witness :
  exists bf, bitfield hello_end = Some bf /\ len bf = 1.
Proof.
  apply (download_invariant hello_torrent hello_peer hello_end).
  - exact (reach_download _ _ _ _ _ _
      (reach_new hello_torrent hello_peer (mkNet false hello_events [] false)) hello_download).
  - vm_compute. reflexivity.
Defined.



(** The request window. The inner loop requests exactly the blocks up to
    five beyond those received, or up to the last one. *)
Theorem request_window fuel idx plen total received requested d q d' :
  request_loop fuel idx plen total received requested d = Ret (OK q, d') ->
  q = Z.max requested (Z.min total (received + PIPELINE_SIZE_MAX)) /\
  exists ext, trace (engine d') = trace (engine d) ++ ext /\
    requests idx plen total requested (q - requested) (writes ext).
Proof.
  intros H. apply emits_request in H as (ext & E & k & Hk & Hm & Hr & -> & Hq). split; [exact Hq|].
  exists ext. split; [done|]. by replace (requested + k - requested) with k by lia.
Qed.

Lemma request_window_witness :
  exists q, q = Z.max 0 (Z.min 1 (0 + PIPELINE_SIZE_MAX)).
Proof.
  eexists. refine (proj1 (request_window 2 0 5 1 0 0
    (mkDownloader true (mkNet true [done_with []] [] false) false None) _ _ _)).
  vm_compute. reflexivity.
Defined.
