(* ===== verification/DownloaderRuns.v ===== *)
(** * DownloaderRuns: whole downloads against given peers

    A peer that follows the protocol makes a download succeed; the budget of the
    loops never cuts a run short; a block beyond the piece or a piece index
    beyond the bitfield stops the program. *)
From S2P Require Import Prelude Wire Bitfield Sha1 Sha1Spec Hash Descriptor Pieces Peer Message.
From S2P Require Import Socket Downloader DownloaderSpec.
Import Socket.
Local Open Scope Z_scope.

(** ** Successful operations *)

(** Running the first part of a bind. *)
Lemma st_run {S A B} (m : st S A) (f : A -> st S B) s a s' :
  m s = Ret (a, s') -> (x ← m; f x) s = f a s'.
Proof. unfold mbind, st_bind. by intros ->. Qed.

Definition succeeds (e : completion) : Prop := stopped e = true /\ code e = 0.

(** A connected downloader. *)
Definition conn (o : bool) (es : list completion) (tr : list action) (cf ch : bool)
  (bf : option Bitfield) : Downloader := mkDownloader true (mkNet o es tr cf) ch bf.

Lemma send_run m t buf o e es tr cf ch bf :
  msg_encode m = Ret buf -> succeeds e ->
  send_message m t (conn o (e :: es) tr cf ch bf) =
  Ret (OK tt, conn o es (tr ++ [AWrite buf t]) cf ch bf).
Proof.
  destruct e as [s c bs op el]. intros Hm [Hs Hc]. simpl in Hs, Hc. subst s c.
  unfold send_message, mbind, st_bind, lift. by rewrite Hm.
Qed.

Lemma read_run n t o e es tr cf :
  0 <= n -> succeeds e ->
  read n t (mkNet o (e :: es) tr cf) =
  Ret ((OK (filled (Z.to_nat n) (data e)), elapsed e), mkNet o es (tr ++ [ARead n t]) cf).
Proof.
  destruct e as [s c bs op el]. intros Hn [Hs Hc]. simpl in Hs, Hc. subst s c.
  unfold read. by destruct (Z.ltb_spec n 0); [lia|].
Qed.

(** A message whose bytes start with their length, as two completions. *)
Definition framed (t : TorrentFile) (m : Message) (buf : bytes) : Prop :=
  msg_decode t buf = OK m /\ decode_integer (take 4 buf) = zlen buf - 4 /\ 4 <= zlen buf.

Definition delivers (buf : bytes) (e1 e2 : completion) : Prop :=
  succeeds e1 /\ data e1 = take 4 buf /\ succeeds e2 /\ data e2 = drop 4 buf.

Lemma recv_run t timeout m buf o e1 e2 es tr cf ch bf :
  framed t m buf -> delivers buf e1 e2 ->
  recv_message t timeout (conn o (e1 :: e2 :: es) tr cf ch bf) =
  Ret (OK m, conn o es ((tr ++ [ARead 4 timeout]) ++ [ARead (zlen buf - 4) (timeout - elapsed e1)])
               cf ch bf).
Proof.
  intros (Hm & Hl & H4) ([Hs1 Hc1] & Hd1 & [Hs2 Hc2] & Hd2).
  assert (H4' : length (take 4 buf) = 4%nat) by (rewrite length_take; unfold zlen in H4; lia).
  unfold recv_message, mbind, st_bind, on_socket, conn. cbn [socket engine].
  rewrite read_run by done. cbn [mbind cxx_bind fst snd set_engine socket engine choked bitfield].
  assert (Hf : filled (Z.to_nat 4) (take 4 buf) = take 4 buf).
  { replace (Z.to_nat 4) with (length (take 4 buf)) by done. apply filled_exact. }
  rewrite Hd1, Hf.
  replace (take 4 (take 4 buf)) with (take 4 buf) by (by rewrite take_take).
  rewrite Hl, read_run by (done || lia).
  cbn [mbind cxx_bind fst snd set_engine socket engine choked bitfield]. rewrite Hd2.
  replace (Z.to_nat (zlen buf - 4)) with (length (drop 4 buf))
    by (rewrite length_drop; unfold zlen; lia).
  rewrite filled_exact, take_drop, Hm. reflexivity.
Qed.

(** ** A cooperative peer *)

(** The completions that deliver a message. *)
Definition answer (m : Message) : list completion :=
  match msg_encode m with
  | Ret buf => [done_with (take 4 buf); done_with (drop 4 buf)]
  | _ => []
  end.

Lemma answer_run t m timeout o es tr cf ch bf :
  sendable t m -> exists tr',
  recv_message t timeout (conn o (answer m ++ es) tr cf ch bf) = Ret (OK m, conn o es tr' cf ch bf).
Proof.
  intros Hm. destruct (message_round_trip_ok t m Hm) as (buf & Hb & Hd & Hl).
  unfold answer. rewrite Hb. cbn [app]. eexists. apply recv_run.
  - split_and!; [done|done|]. destruct m; simpl in Hb; inv_ret; try (by vm_compute);
      unfold msg_encode in Hb; inv_ret;
      match goal with H : (if ?b then _ else _) = Ret _ |- _ => destruct b; [done|]; inv_ret end;
      match goal with H : encode_integer _ = Ret _ |- _ => apply encode_integer_zlen in H end;
      rewrite zlen_app; zlen_pos; unfold zlen in *; lia.
  - done.
Qed.

Section piece.
Context (t : TorrentFile) (idx : Z) (content : bytes).
Context (Hidx : 0 <= idx < 2 ^ 32) (Hlen : 0 < zlen content < 2 ^ 31).

Definition n_blocks : Z := Z.quot (zlen content + BLOCK_SIZE - 1) BLOCK_SIZE.

(** Block [i] of the piece. *)
Definition block (i : Z) : bytes :=
take (Z.to_nat BLOCK_SIZE) (drop (Z.to_nat (i * BLOCK_SIZE)) content).

(** The piece with the blocks before [i] in place. *)
Definition partial (i : Z) : bytes :=
take (Z.to_nat (i * BLOCK_SIZE)) content ++ replicate (Z.to_nat (zlen content - i * BLOCK_SIZE)) x00.

Lemma n_blocks_bounds :
0 < n_blocks /\ (n_blocks - 1) * BLOCK_SIZE < zlen content <= n_blocks * BLOCK_SIZE.
Proof.
unfold n_blocks. pose proof (quot_ceil (zlen content) BLOCK_SIZE) as H. unfold BLOCK_SIZE in *. lia.
Qed.

Lemma block_zlen i :
0 <= i < n_blocks ->
zlen (block i) = Z.min BLOCK_SIZE (zlen content - i * BLOCK_SIZE) /\
0 < zlen content - i * BLOCK_SIZE.
Proof.
intros Hi. pose proof n_blocks_bounds. unfold block. rewrite zlen_take, zlen_drop.
unfold BLOCK_SIZE in *. lia.
Qed.

Lemma copy_block_partial i :
0 <= i < n_blocks -> copy_block (block i) (i * BLOCK_SIZE) (partial i) = Ret (partial (i + 1)).
Proof.
intros Hi. destruct (block_zlen i Hi) as [Hz Hp]. pose proof n_blocks_bounds.
assert (Hpl : zlen (partial i) = zlen content).
{ unfold partial. rewrite zlen_app, zlen_take, zlen_replicate. unfold BLOCK_SIZE in *. lia. }
unfold copy_block. rewrite Hpl. destruct (Z.ltb_spec (zlen content) (i * BLOCK_SIZE + zlen (block i)));
  [unfold BLOCK_SIZE in *; lia|]. f_equal.
assert (Ht : length (take (Z.to_nat (i * BLOCK_SIZE)) content) = Z.to_nat (i * BLOCK_SIZE)).
{ rewrite length_take. unfold zlen, BLOCK_SIZE in *. lia. }
unfold partial. rewrite take_app_le by lia. rewrite take_take, Nat.min_id.
rewrite drop_app_ge by (rewrite Ht; unfold BLOCK_SIZE in *; lia).
rewrite Ht, drop_replicate, app_assoc. f_equal.
- unfold block. replace (Z.to_nat ((i + 1) * BLOCK_SIZE))
    with (Z.to_nat (i * BLOCK_SIZE) + Z.to_nat BLOCK_SIZE)%nat by (unfold BLOCK_SIZE; lia).
  by rewrite take_take_drop.
- f_equal. unfold BLOCK_SIZE in *. lia.
Qed.

Lemma partial_end : partial n_blocks = content.
Proof.
pose proof n_blocks_bounds. unfold partial.
rewrite firstn_all2 by (unfold zlen, BLOCK_SIZE in *; lia).
replace (Z.to_nat (zlen content - n_blocks * BLOCK_SIZE)) with 0%nat by lia. apply app_nil_r.
Qed.

Lemma partial_start : partial 0 = replicate (Z.to_nat (zlen content)) x00.
Proof. unfold partial. simpl. by rewrite Z.sub_0_r. Qed.

(** Requests for blocks can be sent. *)
Lemma request_encodes i :
0 <= i < n_blocks -> exists buf, msg_encode (block_request idx (zlen content) n_blocks i) = Ret buf.
Proof.
intros Hi. pose proof n_blocks_bounds.
destruct (message_round_trip_ok t (block_request idx (zlen content) n_blocks i)) as (buf & Hb & _);
  [|by exists buf].
simpl. unfold block_length. unfold BLOCK_SIZE in *.
destruct (Z.eqb_spec i (n_blocks - 1)); lia.
Qed.

(** The inner loop with a completion for every request it sends. *)
Lemma request_run n fuel received requested o es tr cf ch bf :
0 <= requested -> (n < fuel)%nat ->
requested + Z.of_nat n = Z.max requested (Z.min n_blocks (received + 5)) ->
exists tr',
request_loop fuel idx (zlen content) n_blocks received requested
  (conn o (replicate n (done_with []) ++ es) tr cf ch bf) =
Ret (OK (requested + Z.of_nat n), conn o es tr' cf ch bf).
Proof.
revert fuel requested tr. induction n as [|n IH]; intros [|fuel] requested tr H0 Hf Hn; try lia;
  cbn [request_loop]; unfold PIPELINE_SIZE_MAX.
- destruct (Z.ltb_spec (requested - received) 5), (Z.ltb_spec requested n_blocks); try lia;
    cbn [andb]; rewrite Z.add_0_r; eexists; reflexivity.
- destruct (Z.ltb_spec (requested - received) 5); [|lia].
  destruct (Z.ltb_spec requested n_blocks); [|lia]. cbn [andb].
  destruct (request_encodes requested) as [buf Hb]; [lia|].
  unfold mbind, st_bind. cbn [replicate app]. fold (block_length (zlen content) n_blocks requested).
  fold (block_request idx (zlen content) n_blocks requested).
  rewrite (send_run _ _ buf) by done. cbn.
  destruct (IH fuel (requested + 1) (tr ++ [AWrite buf (seconds 5)])) as [tr' ->]; [lia|lia|lia|].
  exists tr'. do 3 f_equal. lia.
Qed.

(** What a cooperative peer and network do from a state of the loop on, for the
  [n] blocks still to come: requests are accepted and blocks are sent in
  order. *)
Fixpoint cooperation (n : nat) (received requested : Z) : list completion :=
match n with
| O => []
| S n =>
    let q := Z.max requested (Z.min n_blocks (received + 5)) in
    replicate (Z.to_nat (q - requested)) (done_with []) ++
    answer (PieceMessage idx (received * BLOCK_SIZE) (block received)) ++
    cooperation n (received + 1) q
end.

Lemma download_run n fuel received requested tmo o es tr cf bf :
0 <= received -> 0 <= requested -> received + Z.of_nat n = n_blocks -> (n < fuel)%nat ->
exists tr',
download_loop t fuel idx (zlen content) n_blocks
  (mkProgress (partial received) requested received tmo)
  (conn o (cooperation n received requested ++ es) tr cf false bf) =
Ret (OK content, conn o es tr' cf false bf).
Proof.
revert fuel received requested tr.
induction n as [|n IH]; intros [|fuel] received requested tr H0 H1 Hn Hf; try lia;
  cbn [download_loop blocks_received].
{ destruct (Z.ltb_spec received n_blocks); [lia|].
  replace received with n_blocks by lia. cbn [piece]. rewrite partial_end. by exists tr. }
destruct (Z.ltb_spec received n_blocks); [|lia]. cbn [cooperation].
set (q := Z.max requested (Z.min n_blocks (received + 5))). rewrite <- !app_assoc.
unfold mbind at 1, st_bind at 1, get. cbn [choked conn]. fold (conn o).
set (es' := answer _ ++ cooperation _ _ _ ++ es).
destruct (request_run (Z.to_nat (q - requested))
            (S (Z.to_nat (n_blocks - requested))) received requested o es' tr cf false bf)
  as [tr1 Hr]; [lia|lia|lia|].
unfold mbind at 1, st_bind at 1. cbn [blocks_requested blocks_received].
unfold conn in Hr |- *. rewrite Hr. replace (requested + Z.of_nat (Z.to_nat (q - requested))) with q by lia.
unfold mbind at 1, st_bind at 1. cbn [timeout].
pose proof (block_zlen received ltac:(lia)) as [Hz Hp]. unfold es'.
destruct (answer_run t (PieceMessage idx (received * BLOCK_SIZE) (block received)) tmo o
            (cooperation n (received + 1) q ++ es) tr1 cf false bf) as [tr2 Hm].
{ simpl. unfold BLOCK_SIZE in *. lia. }
unfold conn in Hm. rewrite Hm. unfold mbind at 1, st_bind at 1. cbn [on_message].
unfold mbind at 1, st_bind at 1, lift. cbn [piece]. rewrite copy_block_partial by lia.
run_bind. cbn [mret st_ret blocks_requested blocks_received timeout].
destruct (IH fuel (received + 1) q tr2) as [tr3 E]; [lia|lia|lia|lia|]. by exists tr3.
Qed.

Lemma cooperation_length n received requested :
0 <= received -> received + Z.of_nat n = n_blocks ->
(n <= length (cooperation n received requested))%nat.
Proof.
revert received requested. induction n as [|n IH]; intros received requested H0 Hn; [simpl; lia|].
cbn [cooperation]. rewrite !length_app. pose proof (block_zlen received ltac:(lia)) as [Hz Hp].
specialize (IH (received + 1) (Z.max requested (Z.min n_blocks (received + 5)))
  ltac:(lia) ltac:(lia)).
destruct (message_round_trip_ok t (PieceMessage idx (received * BLOCK_SIZE) (block received)))
  as (buf & Hb & _); [simpl; unfold BLOCK_SIZE in *; lia|].
unfold answer at 1. rewrite Hb. simpl. lia.
Qed.
End piece.

(** How a cooperative peer establishes the connection: it accepts it, answers the
    handshake with [resp], sends its bitfield and unchokes us. *)
Definition welcome (t : TorrentFile) (resp bits : bytes) : list completion :=
  [done_with []; done_with []; done_with resp] ++
  answer (BitfieldMessage (mkBitfield (pieces_count t) bits)) ++
  [done_with []; done_with []] ++ answer UnchokeMessage.

(** A handshake response with the right info hash. *)
Definition good_response (t : TorrentFile) (resp : bytes) : Prop :=
  zlen resp = HANDSHAKE_LENGTH /\ take 20 (drop 28 resp) = info_hash t.

Lemma handshake_run t resp es tr cf ch bf :
  good_response t resp -> exists tr',
  handshake t (conn true (done_with [] :: done_with resp :: es) tr cf ch bf) =
  Ret (OK tt, conn true es tr' cf ch bf).
Proof.
  intros [Hz Hh]. eexists. unfold handshake, mbind, st_bind, on_socket, conn. cbn [socket engine].
  change (write (handshake_message t) (seconds 5) (mkNet true (done_with [] :: done_with resp :: es) tr cf))
    with (Ret (@OK unit SocketError tt, mkNet true (done_with resp :: es)
                (tr ++ [AWrite (handshake_message t) (seconds 5)]) cf)).
  cbn [mbind cxx_bind set_engine socket engine choked bitfield].
  rewrite read_run by done. cbn [mbind cxx_bind set_engine socket engine choked bitfield fst data done_with].
  replace (Z.to_nat HANDSHAKE_LENGTH) with (length resp)
    by (unfold zlen in Hz; rewrite <- Hz; lia).
  rewrite filled_exact. change (Z.to_nat INFO_HASH_OFFSET) with 28%nat. rewrite Hh.
  rewrite decide_False by (by intros []). reflexivity.
Qed.

Lemma unchoke_run t fuel es tr cf bf :
  (2 <= fuel)%nat -> exists tr',
  unchoke_loop t fuel (conn true (answer UnchokeMessage ++ es) tr cf true bf) =
  Ret (OK tt, conn true es tr' cf false bf).
Proof.
  intros Hf. destruct fuel as [|[|fuel]]; [lia|lia|].
  destruct (answer_run t UnchokeMessage (milliseconds 50) true es tr cf true bf I) as [tr' H].
  exists tr'. cbn [unchoke_loop]. unfold mbind, st_bind, get. unfold conn in H |- *. cbn [choked].
  rewrite H. reflexivity.
Qed.

Lemma connect_run t peer resp bits o es tr cf :
  good_response t resp -> zlen bits < 2 ^ 32 - 1 -> exists tr',
  ensure_connected t peer (Downloader_new (mkNet o (welcome t resp bits ++ es) tr cf)) =
  Ret (OK tt, conn true es tr' cf false (Some (mkBitfield (pieces_count t) bits))).
Proof.
  intros Hr Hb. set (bm := BitfieldMessage (mkBitfield (pieces_count t) bits)).
  set (bf := mkBitfield (pieces_count t) bits).
  set (es3 := answer UnchokeMessage ++ es). set (es2 := done_with [] :: done_with [] :: es3).
  set (es1 := done_with [] :: done_with resp :: answer bm ++ es2).
  replace (welcome t resp bits ++ es) with (done_with [] :: es1)
    by (unfold welcome, es1, es2, es3; cbn [app]; by rewrite <- !app_assoc).
  unfold ensure_connected. erewrite st_run by reflexivity. cbn [Downloader_new socket andb].
  do 3 erewrite st_run by reflexivity.
  erewrite st_run by reflexivity. cbv beta iota.
  destruct (handshake_run t resp (answer bm ++ es2)
    (tr ++ [AConnect (ip peer) (port peer) (seconds 5)]) cf true None Hr) as [tr1 H1].
  erewrite st_run by exact H1.
  destruct (answer_run t bm (seconds 5) true es2 tr1 cf true None) as [tr2 H2]; [by split|].
  erewrite st_run by exact H2. unfold bm. cbv beta iota. erewrite st_run by reflexivity.
  cbv beta iota.
  erewrite st_run by (apply (send_run UnchokeMessage _ [x00; x00; x00; x01; x01]); done).
  cbv beta iota.
  erewrite st_run by (apply (send_run InterestedMessage _ [x00; x00; x00; x01; x02]); done).
  cbv beta iota.
  do 2 (erewrite st_run by reflexivity; cbv beta iota).
  match goal with |- exists tr', unchoke_loop t _ (set_choked true (conn true es3 ?trc _ _ _)) = _ =>
    destruct (unchoke_run t (S (length es3)) es trc cf (Some bf)) as [tr3 H3] end.
  { unfold es3. rewrite length_app. simpl. lia. }
  exists tr3. exact H3.
Qed.

(** ** Up to the first message of a download *)

(** What the theorems below assume of the torrent and the peer's bitfield: the
    piece exists, is [content] long, and the peer has it. *)
Record offered (t : TorrentFile) (task : Piece) (bits : bytes) (plen : Z) : Prop := {
  of_index : 0 <= index task < pieces_count t;
  of_small : pieces_count t <= 2 ^ 32;
  of_length : this_piece_length t (index task) = Ret plen;
  of_range : 0 < plen < 2 ^ 31;
  of_bits : zlen bits < 2 ^ 32 - 1;
  of_has : bf_get (mkBitfield (pieces_count t) bits) (index task) = Ret true;
}.

Lemma try_download_run t peer task resp bits plen o es tr cf :
  offered t task bits plen -> good_response t resp -> exists tr',
  try_download t peer task (Downloader_new (mkNet o (welcome t resp bits ++ es) tr cf)) =
  (result ← download_loop t (S (length es)) (index task) plen
              (Z.quot (plen + BLOCK_SIZE - 1) BLOCK_SIZE)
              (mkProgress (replicate (Z.to_nat plen) x00) 0 0 (seconds 5));
   match result with
   | ERROR e => mret (ERROR e)
   | OK piece =>
       hash ← lift (vget (piece_hashes t) (index task));
       ok ← lift (verify_piece piece hash);
       if negb ok then mret (ERROR CorruptPiece)
       else mret (OK (mkDownloaded (index task) piece))
   end) (conn true es tr' cf false (Some (mkBitfield (pieces_count t) bits))).
Proof.
  intros [Hi Hs Hl Hp Hb Hh] Hr. destruct (connect_run t peer resp bits o es tr cf Hr Hb) as [tr' Hc].
  exists tr'. unfold try_download. destruct (Z.leb_spec (pieces_count t) 0); [lia|].
  destruct (Z.ltb_spec (index task) 0); [lia|]. destruct (Z.leb_spec (pieces_count t) (index task)); [lia|].
  cbn [orb]. erewrite st_run by exact Hc. cbv beta iota.
  erewrite st_run by reflexivity. cbv beta iota.
  erewrite st_run by (unfold lift; rewrite Hh; reflexivity). cbn [negb].
  erewrite st_run by (unfold lift; rewrite Hl; reflexivity). cbv beta iota.
  destruct (Z.leb_spec plen 0); [lia|].
  erewrite st_run by (unfold lift; rewrite i64_ok by (unfold BLOCK_SIZE; lia); reflexivity).
  cbv beta iota. by erewrite st_run by reflexivity.
Qed.

(** ** The budget of the loops *)

(** [m] takes at least [k] completions when it returns. *)
Definition uses {A} (k : nat) (m : st Downloader A) : Prop :=
  forall d a d', m d = Ret (a, d') ->
  (length (events (engine d')) + k <= length (events (engine d)))%nat.

Lemma uses_bind {A B} k1 k2 (m : st Downloader A) (f : A -> st Downloader B) :
  uses k1 m -> (forall a, uses k2 (f a)) -> uses (k1 + k2) (x ← m; f x).
Proof.
  intros Hm Hf d b d' (a & d1 & H1%Hm & H2%Hf)%st_bind_ret. lia.
Qed.

Lemma uses_ret {A} (a : A) : uses 0 (mret a).
Proof. intros d b d' [= <- <-]. lia. Qed.

Lemma uses_weaken {A} k k' (m : st Downloader A) : uses k m -> (k' <= k)%nat -> uses k' m.
Proof. intros Hm Hk d a d' H%Hm. lia. Qed.

Lemma uses_lift {A} (m : cxx A) : uses 0 (lift m).
Proof. intros d a d' H. unfold lift in H. inv_ret. injection H as <- <-. lia. Qed.

Lemma uses_modify f : (forall d, events (engine (f d)) = events (engine d)) -> uses 0 (modify f).
Proof. intros Hf d a d' [= <- <-]. rewrite Hf. lia. Qed.

Lemma uses_get : uses 0 get.
Proof. intros d a d' [= <- <-]. lia. Qed.

Lemma uses_on_socket {A} k (m : st net A) :
  (forall n a n', m n = Ret (a, n') -> (length (events n') + k <= length (events n))%nat) ->
  uses k (on_socket m).
Proof.
  intros Hm d a d' H. unfold on_socket in H. destruct (socket d); [|done].
  destruct (m (engine d)) as [[b n]|e|u|] eqn:E; try done. cbn in H. injection H as <- <-.
  by apply Hm in E.
Qed.

Lemma run_events e n r n' : run e n = Ret (r, n') -> events n' = events n.
Proof. unfold run. destruct (stopped e); by intros [= <- <-]. Qed.

Lemma write_uses buf t n r n' :
  write buf t n = Ret (r, n') -> (length (events n') + 1 <= length (events n))%nat.
Proof.
  intros (e & n1 & [es [He E]]%start_ret & H)%st_bind_ret. simpl in E. subst n1.
  apply st_bind_ret in H as ([] & n2 & Hr%run_events & H). rewrite He. simpl in *.
  destruct (negb _); injection H as <- <-; rewrite Hr; lia.
Qed.

Lemma read_uses k t n r n' :
  read k t n = Ret (r, n') -> (length (events n') + 1 <= length (events n))%nat.
Proof.
  unfold read. destruct (_ <? _); [done|].
  intros (e & n1 & [es [He E]]%start_ret & H)%st_bind_ret. simpl in E. subst n1.
  apply st_bind_ret in H as ([] & n2 & Hr%run_events & H). rewrite He. simpl in *.
  destruct (negb _); injection H as <- <-; rewrite Hr; lia.
Qed.

Lemma uses_destroy : uses 0 destroy_socket.
Proof.
  apply (uses_bind 0 0); [|intros; by apply uses_modify]. apply uses_on_socket.
  intros [o es tr []] a n' [= <- <-]; simpl; lia.
Qed.

Lemma uses_fail {A E} (e : E) : uses 0 (_ ← destroy_socket; mret (@ERROR A E e)).
Proof. apply (uses_bind 0 0); [apply uses_destroy|]. intros. apply uses_ret. Qed.

Lemma uses_recv t tmo : uses 1 (recv_message t tmo).
Proof.
  apply (uses_bind 1 0); [apply uses_on_socket, read_uses|]. intros [[b|e] el]; simpl; [|apply uses_fail].
  eapply uses_weaken; [apply (uses_bind 1 0)|lia]; [apply uses_on_socket, read_uses|].
  intros [[rest|e] el2]; simpl; [|apply uses_fail].
  destruct (msg_decode _ _); [apply uses_ret|apply uses_fail].
Qed.

Lemma uses_send m tmo : uses 0 (send_message m tmo).
Proof.
  apply (uses_bind 0 0); [apply uses_lift|]. intros buf.
  eapply uses_weaken; [apply (uses_bind 1 0)|lia]; [apply uses_on_socket, write_uses|].
  intros [[]|e]; [apply uses_ret|apply uses_fail].
Qed.

Lemma uses_request fuel idx plen total received requested :
  uses 0 (request_loop fuel idx plen total received requested).
Proof.
  revert requested. induction fuel as [|fuel IH]; intros requested; [done|]. cbn [request_loop].
  destruct (_ && _); [|apply uses_ret]. apply (uses_bind 0 0); [apply uses_send|].
  intros [[]|e]; [apply IH|apply uses_ret].
Qed.

Lemma uses_on_message m p : uses 0 (on_message m p).
Proof.
  destruct m; simpl; try apply uses_ret.
  - apply (uses_bind 0 0); [by apply uses_modify|intros; apply uses_ret].
  - apply (uses_bind 0 0); [by apply uses_modify|intros; apply uses_ret].
  - apply (uses_bind 0 0).
    { apply (uses_bind 0 0); [apply uses_get|]. intros d.
      destruct (bitfield d); [apply uses_ret|apply uses_lift]. }
    intros bf. apply (uses_bind 0 0); [apply uses_lift|]. intros bf'.
    apply (uses_bind 0 0); [by apply uses_modify|intros; apply uses_ret].
  - apply (uses_bind 0 0); [apply uses_lift|intros; apply uses_ret].
Qed.

(** Two binds with the same first part agree if their continuations do. *)
Lemma st_bind_ext {S A B} (m : st S A) (f g : A -> st S B) s :
  (forall a s', m s = Ret (a, s') -> f a s' = g a s') -> (x ← m; f x) s = (x ← m; g x) s.
Proof. intros H. unfold mbind, st_bind. destruct (m s) as [[a s']|e|u|]; auto. Qed.

Lemma unchoke_budget t f1 f2 d :
  (length (events (engine d)) < f1)%nat -> (length (events (engine d)) < f2)%nat ->
  unchoke_loop t f1 d = unchoke_loop t f2 d.
Proof.
  revert f2 d. induction f1 as [|f1 IH]; intros [|f2] d H1 H2; try lia. cbn [unchoke_loop].
  apply st_bind_ext. intros a d1 [= <- <-]. destruct (choked d); [|done].
  apply st_bind_ext. intros [m|e] d1 Hr%uses_recv; [|done]. apply st_bind_ext. intros [] d2 Hm.
  assert (events (engine d2) = events (engine d1)) as E by (by destruct m; injection Hm as <-).
  apply IH; rewrite E; lia.
Qed.

Lemma download_budget t f1 f2 idx plen total p d :
  (length (events (engine d)) < f1)%nat -> (length (events (engine d)) < f2)%nat ->
  download_loop t f1 idx plen total p d = download_loop t f2 idx plen total p d.
Proof.
  revert f2 p d. induction f1 as [|f1 IH]; intros [|f2] p d H1 H2; try lia. cbn [download_loop].
  destruct (_ <? _); [|done]. apply st_bind_ext. intros a d0 [= <- <-]. apply st_bind_ext.
  intros r d1 Hr. assert (length (events (engine d1)) <= length (events (engine d)))%nat as Hle.
  { destruct (choked d); [injection Hr as <- <-; lia|]. apply uses_request in Hr. lia. }
  destruct r as [q|e]; [|done]. apply st_bind_ext. intros [m|e] d2 Hm%uses_recv; [|done].
  apply st_bind_ext. intros p' d3 Hp%uses_on_message. apply IH; lia.
Qed.

Lemma request_budget f1 f2 idx plen total received requested d :
  (Z.to_nat (total - requested) < f1)%nat -> (Z.to_nat (total - requested) < f2)%nat ->
  request_loop f1 idx plen total received requested d =
  request_loop f2 idx plen total received requested d.
Proof.
  revert f2 requested d. induction f1 as [|f1 IH]; intros [|f2] requested d H1 H2; try lia.
  cbn [request_loop]. destruct (_ <? _); [|done].
  destruct (Z.ltb_spec requested total); [|done]. cbn [andb]. apply st_bind_ext.
  intros [[]|e] d1 _; [|done]. apply IH; lia.
Qed.

Lemma st_throw {S A B} (m : st S A) (f : A -> st S B) s e :
  m s = Throw e -> (x ← m; f x) s = Throw e.
Proof. unfold mbind, st_bind. by intros ->. Qed.

Lemma st_undef {S A B} (m : st S A) (f : A -> st S B) s u :
  m s = Undef u -> (x ← m; f x) s = Undef u.
Proof. unfold mbind, st_bind. by intros ->. Qed.

(** The whole download from a cooperative peer. *)
Lemma cooperative_run t peer task resp bits content o es tr cf :
  offered t task bits (zlen content) -> good_response t resp ->
  8 * zlen content < 2 ^ 32 ->
  piece_hashes t !! Z.to_nat (index task) = Some (sha1_ref content) ->
  exists d', try_download t peer task (Downloader_new (mkNet o
      (welcome t resp bits ++
       cooperation (index task) content (Z.to_nat (n_blocks content)) 0 0 ++ es) tr cf)) =
    Ret (OK (mkDownloaded (index task) content), d') /\
    events (engine d') = es /\ socket d' = true.
Proof.
  intros Ho Hr Hlen Hh. pose proof Ho as [Hi Hs _ Hp _ _].
  pose proof (n_blocks_bounds content Hp) as [Hn _].
  destruct (try_download_run t peer task resp bits (zlen content) o
    (cooperation (index task) content (Z.to_nat (n_blocks content)) 0 0 ++ es) tr cf Ho Hr) as [tr1 ->].
  pose proof (cooperation_length t (index task) content ltac:(lia) Hp
    (Z.to_nat (n_blocks content)) 0 0 ltac:(lia) ltac:(lia)) as Hcl.
  destruct (download_run t (index task) content ltac:(lia) Hp (Z.to_nat (n_blocks content))
    (S (length (cooperation (index task) content (Z.to_nat (n_blocks content)) 0 0 ++ es)))
    0 0 (seconds 5) true es tr1 cf (Some (mkBitfield (pieces_count t) bits))) as [tr2 Hd];
    [lia|lia|lia|rewrite length_app; lia|].
  rewrite partial_start in Hd. erewrite st_run by exact Hd. cbv beta iota.
  erewrite st_run.
  2:{ unfold lift. rewrite (proj2 (vget_lookup _ _ (sha1_ref content))) by (split; [lia|done]).
      reflexivity. }
  erewrite st_run.
  2:{ unfold lift, verify_piece, int32_max. destruct (Z.ltb_spec (2 ^ 31 - 1) (zlen content)); [lia|].
      rewrite calc_sha1 by done. reflexivity. }
  rewrite bool_decide_true by done. cbn [negb]. by eexists.
Qed.

(** ** Claims *)

(** C14: liveness. If the peer answers the handshake with the right info hash, has
    the piece, unchokes us and sends the blocks as they are requested, the
    download returns the piece, whatever the size of the piece and the number
    of blocks. *)
Theorem cooperative_download t peer task resp bits content o es tr cf :
  offered t task bits (zlen content) -> good_response t resp ->
  8 * zlen content < 2 ^ 32 ->
  piece_hashes t !! Z.to_nat (index task) = Some (sha1_ref content) ->
  exists d', try_download t peer task (Downloader_new (mkNet o
      (welcome t resp bits ++
       cooperation (index task) content (Z.to_nat (n_blocks content)) 0 0 ++ es) tr cf)) =
    Ret (OK (mkDownloaded (index task) content), d') /\
    events (engine d') = es /\ socket d' = true.
Proof. apply cooperative_run. Qed.

Lemma hello_offered : offered hello_torrent hello_task [x80] (zlen (str "hello")).
Proof. split; try (vm_compute; done). Qed.

Lemma cooperative_download_witness :
  exists d', try_download hello_torrent hello_peer hello_task (Downloader_new (mkNet false
      (welcome hello_torrent (handshake_message hello_torrent) [x80] ++
       cooperation 0 (str "hello") (Z.to_nat (n_blocks (str "hello"))) 0 0 ++ []) [] false)) =
    Ret (OK (mkDownloaded 0 (str "hello")), d') /\ events (engine d') = [] /\ socket d' = true.
Proof.
  apply (cooperative_download hello_torrent hello_peer hello_task
           (handshake_message hello_torrent) [x80] (str "hello")).
  - exact hello_offered.
  - split; reflexivity.
  - reflexivity.
  - reflexivity.
Defined.

(** The budgets of the loops are enough: with any larger budget they do the same. So
    a run only stops short of a result when the environment has no more
    completions to give, that is, while it waits for the network. *)
Lemma loops_budget t idx plen total received requested p d fuel :
  ((length (events (engine d)) < fuel)%nat ->
   unchoke_loop t fuel d = unchoke_loop t (S (length (events (engine d)))) d /\
   download_loop t fuel idx plen total p d =
   download_loop t (S (length (events (engine d)))) idx plen total p d) /\
  ((Z.to_nat (total - requested) < fuel)%nat ->
   request_loop fuel idx plen total received requested d =
   request_loop (S (Z.to_nat (total - requested))) idx plen total received requested d).
Proof.
  split.
  - intros H. split; [apply unchoke_budget|apply download_budget]; lia.
  - intros H. apply request_budget; lia.
Qed.

Lemma have_throws i p o es tr cf ch n bits :
  0 <= i -> n <= i ->
  on_message (HaveMessage i) p (conn o es tr cf ch (Some (mkBitfield n bits))) =
  Throw (invalid_argument "index too large for this bitfield").
Proof.
  intros H0 Hn. cbn [on_message]. erewrite st_run by reflexivity. cbv beta iota.
  unfold mbind, st_bind, lift, bf_set1, bf_set, assert_within_bounds. cbn [len].
  destruct (Z.ltb_spec i 0); [lia|]. destruct (Z.leb_spec n i); [done|lia].
Qed.

(** A peer can stop the program. If the first message of a download is a
    block that ends beyond the piece, the copy writes out of bounds; if it
    announces a piece beyond the last one, an exception leaves [try_download]. *)
Lemma hostile_message t peer task resp bits plen m o es tr cf :
  offered t task bits plen -> good_response t resp -> sendable t m ->
  let n := Z.to_nat (Z.min (Z.quot (plen + BLOCK_SIZE - 1) BLOCK_SIZE) 5) in
  let result := try_download t peer task (Downloader_new (mkNet o
      (welcome t resp bits ++ replicate n (done_with []) ++ answer m ++ es) tr cf)) in
  (forall i b bl, m = PieceMessage i b bl -> plen < b + zlen bl -> result = Undef OutOfBounds) /\
  (forall i, m = HaveMessage i -> pieces_count t <= i ->
     result = Throw (invalid_argument "index too large for this bitfield")).
Proof.
  intros Ho Hr Hm n result. pose proof Ho as [Hi Hs _ Hp _ _].
  assert (Hc : zlen (replicate (Z.to_nat plen) x00) = plen) by (rewrite zlen_replicate; lia).
  set (content := replicate (Z.to_nat plen) x00) in Hc. unfold result.
  destruct (try_download_run t peer task resp bits plen o (replicate n (done_with []) ++ answer m ++ es)
    tr cf Ho Hr) as [tr1 ->].
  pose proof (n_blocks_bounds content ltac:(lia)) as [Hn _]. unfold n_blocks in Hn. rewrite Hc in Hn.
  destruct (request_run t (index task) content ltac:(lia) ltac:(lia) n
    (S (Z.to_nat (Z.quot (plen + BLOCK_SIZE - 1) BLOCK_SIZE - 0))) 0 0 true (answer m ++ es) tr1 cf false
    (Some (mkBitfield (pieces_count t) bits))) as [tr2 Hq];
    [lia|unfold n; lia|unfold n_blocks; rewrite Hc; unfold n; lia|].
  unfold n_blocks in Hq. rewrite Hc in Hq.
  destruct (answer_run t m (seconds 5) true es tr2 cf false (Some (mkBitfield (pieces_count t) bits)) Hm)
    as [tr3 Ha].
  set (total := Z.quot (plen + BLOCK_SIZE - 1) BLOCK_SIZE) in *.
  set (es0 := replicate n (done_with []) ++ answer m ++ es) in *.
  assert (Hd : download_loop t (S (length es0)) (index task) plen total
      (mkProgress content 0 0 (seconds 5))
      (conn true es0 tr1 cf false (Some (mkBitfield (pieces_count t) bits))) =
    (p ← on_message m (mkProgress content (0 + Z.of_nat n) 0 (seconds 5));
     download_loop t (length es0) (index task) plen total p)
      (conn true es tr3 cf false (Some (mkBitfield (pieces_count t) bits)))).
  { cbn [download_loop blocks_received]. destruct (Z.ltb_spec 0 total); [|lia].
    erewrite st_run by reflexivity. cbn [choked conn blocks_requested].
    unfold conn in Hq, Ha. erewrite st_run by exact Hq. cbv beta iota.
    cbn [timeout]. erewrite st_run by exact Ha. reflexivity. }
  split.
  - intros i b bl -> Hb. apply st_undef. eapply eq_trans; [exact Hd|]. apply st_undef. cbn [on_message piece].
    apply st_undef. unfold lift, copy_block. rewrite Hc.
    destruct (Z.ltb_spec plen (b + zlen bl)); [done|lia].
  - intros i -> Hb. simpl in Hm. apply st_throw. eapply eq_trans; [exact Hd|].
    apply st_throw, have_throws; lia.
Qed.

Example hostile_block :
  try_download hello_torrent hello_peer hello_task (Downloader_new (mkNet false
    (welcome hello_torrent (handshake_message hello_torrent) [x80] ++ replicate 1 (done_with []) ++
     answer (PieceMessage 0 1000 (str "x")) ++ []) [] false)) = Undef OutOfBounds.
Proof.
  apply (proj1 (hostile_message hello_torrent hello_peer hello_task
    (handshake_message hello_torrent) [x80] (zlen (str "hello")) (PieceMessage 0 1000 (str "x"))
    false [] [] false hello_offered (conj eq_refl eq_refl) ltac:(vm_compute; repeat split; discriminate)) 0 1000 (str "x")).
  - reflexivity.
  - reflexivity.
Qed.
