(* ===== verification/Queue.v ===== *)
(** * Queue: work queues (src/policy/policy.hpp, policy.inl, queue.hpp, queue.inl)

    A policy chooses the position of the element to extract; the interface is
    the class [IPolicy], and what the queue relies on is [PolicyOk]. Iterators of
    the list are positions, the end iterator is the size. *)
From S2P Require Import Prelude.
Local Open Scope Z_scope.

(** ** Policies *)

(** [IPolicy::extract(begin, end)] on a list of [n] elements. *)
Class IPolicy (P : Type) : Type := extract_at : P -> nat -> nat.

(** A policy that always finds an element. *)
Class PolicyOk (P : Type) `{IPolicy P} : Prop :=
  extract_at_lt (p : P) (n : nat) : (0 < n)%nat -> (extract_at p n < n)%nat.

(** [LIFOPolicy]: the begin iterator. *)
Inductive LIFOPolicy : Type := mkLIFO.
#[export] Instance LIFO_policy : IPolicy LIFOPolicy := fun _ _ => 0%nat.

(** [FIFOPolicy]: the iterator before the end. *)
Inductive FIFOPolicy : Type := mkFIFO.
#[export] Instance FIFO_policy : IPolicy FIFOPolicy := fun _ n => (n - 1)%nat.

#[export] Instance LIFO_ok : PolicyOk LIFOPolicy.
Proof. intros p n Hn. done. Qed.

#[export] Instance FIFO_ok : PolicyOk FIFOPolicy.
Proof. intros p n Hn. unfold extract_at, FIFO_policy. lia. Qed.

(** ** Queues *)

Inductive QueueError : Type := Empty | PolicyFailure.

Section queue.
Context {T : Type}.

(** [Queue::insert] and [Queue::emplace]. *)
Definition q_insert (item : T) (items : list T) : cxx (list T) :=
if zlen items =? int64_max then Throw (logic_error "queue cannot fit more items")
else Ret (items ++ [item]).

(** [Queue::extract]. *)
Definition q_extract {P} `{IPolicy P} (policy : P) (items : list T)
: Result T QueueError * list T :=
match items with
| [] => (ERROR Empty, items)
| _ =>
    let it := extract_at policy (length items) in
    match items !! it with
    | None => (ERROR PolicyFailure, items)
    | Some x => (OK x, take it items ++ drop (S it) items)
    end
end.

(** [Queue::mutate]: the mutation may change the element it is given, and says
  whether to remove it. *)
Fixpoint q_mutate (mutation : T -> T * bool) (items : list T) : list T :=
match items with
| [] => []
| x :: items =>
    let '(x', remove) := mutation x in
    if (remove : bool) then q_mutate mutation items else x' :: q_mutate mutation items
end.

(** [Queue::size]. *)
Definition q_size (items : list T) : Z := zlen items.

(** Insertions one after the other. *)
Fixpoint q_inserts (xs items : list T) : cxx (list T) :=
match xs with
| [] => Ret items
| x :: xs => items ← q_insert x items; q_inserts xs items
end.

(** Extracting until the queue is empty. *)
Fixpoint drain {P} `{IPolicy P} (fuel : nat) (policy : P) (items : list T) : list T :=
match fuel with
| O => []
| S fuel =>
    match q_extract policy items with
    | (OK x, items) => x :: drain fuel policy items
    | (ERROR _, _) => []
    end
end.

(** ** Lemmas *)

Lemma q_extract_ok {P} `{PolicyOk P} (p : P) items :
items <> [] -> exists x, items !! extract_at p (length items) = Some x /\
  q_extract p items = (OK x, delete (extract_at p (length items)) items).
Proof.
intros Hne. assert (Hl : (0 < length items)%nat) by (destruct items; simpl; [done|lia]).
destruct (lookup_lt_is_Some_2 items (extract_at p (length items))) as [x Hx].
{ by apply extract_at_lt. }
exists x. split; [done|]. unfold q_extract. rewrite <- delete_take_drop, Hx. by destruct items.
Qed.

Lemma q_extract_perm {P} `{PolicyOk P} (p : P) items x items' :
q_extract p items = (OK x, items') -> items ≡ₚ x :: items'.
Proof.
intros E. destruct items as [|y items]; [done|].
destruct (q_extract_ok p (y :: items)) as (z & Hz & E'); [done|].
rewrite E in E'. injection E' as -> ->. by apply delete_Permutation.
Qed.

Lemma drain_perm {P} `{PolicyOk P} fuel (p : P) items :
(length items <= fuel)%nat -> drain fuel p items ≡ₚ items.
Proof.
revert items. induction fuel as [|fuel IH]; intros items Hf; cbn [drain].
{ destruct items; [done|simpl in Hf; lia]. }
destruct items as [|y items]; [done|].
destruct (q_extract_ok p (y :: items)) as (x & Hx & E); [done|]. rewrite E.
apply delete_Permutation in Hx. etransitivity; [|symmetry; exact Hx]. constructor. apply IH.
apply Permutation_length in Hx. simpl in *. lia.
Qed.

Lemma drain_lifo fuel items : (length items <= fuel)%nat -> drain fuel mkLIFO items = items.
Proof.
revert items. induction fuel as [|fuel IH]; intros [|x items] Hf; simpl in *; try done; try lia.
rewrite drop_0, IH by lia. done.
Qed.

Lemma drain_fifo fuel items : (length items <= fuel)%nat -> drain fuel mkFIFO items = rev items.
Proof.
revert items. induction fuel as [|fuel IH]; intros items Hf; cbn [drain].
{ destruct items; [done|simpl in Hf; lia]. }
destruct items as [|x items _] using rev_ind; [done|].
destruct (q_extract_ok mkFIFO (items ++ [x])) as (y & Hy & E); [by destruct items|].
rewrite length_app in Hf, Hy. unfold extract_at, FIFO_policy in Hy. simpl in Hf, Hy.
rewrite list_lookup_middle in Hy by lia. injection Hy as <-.
rewrite E, rev_app_distr. cbn. f_equal.
unfold extract_at, FIFO_policy. rewrite length_app. simpl.
rewrite delete_take_drop, take_app_le, firstn_all2, drop_ge by (rewrite ?length_app; simpl; lia).
rewrite app_nil_r. apply IH. lia.
Qed.

Lemma q_inserts_ok xs items :
zlen items + zlen xs < int64_max -> q_inserts xs items = Ret (items ++ xs).
Proof.
revert items. induction xs as [|x xs IH]; intros items Hl; cbn [q_inserts].
- by rewrite app_nil_r.
- unfold q_insert. destruct (Z.eqb_spec (zlen items) int64_max); [zlen_lia|]. run_bind.
  rewrite IH by zlen_lia. by rewrite <- app_assoc.
Qed.

Lemma q_mutate_length mutation items : zlen (q_mutate mutation items) <= zlen items.
Proof.
induction items as [|x items IH]; [done|]. cbn [q_mutate]. destruct (mutation x) as [x' []]; zlen_lia.
Qed.

Lemma q_mutate_filter (keep : T -> bool) items :
q_mutate (fun x => (x, negb (keep x))) items = List.filter keep items.
Proof. induction items as [|x items IH]; simpl; [done|]. rewrite IH. by destruct (keep x). Qed.

(** ** Claims *)

(** Extraction with a policy that finds an element takes exactly that
  element out of the queue, an empty queue is reported, and draining a queue
  yields all its elements, each once. *)
Theorem queue_extract {P} `{PolicyOk P} (p : P) items :
(items = [] -> q_extract p items = (ERROR Empty, items)) /\
(items <> [] -> exists x items', q_extract p items = (OK x, items') /\ items ≡ₚ x :: items') /\
drain (length items) p items ≡ₚ items.
Proof.
split_and!.
- by intros ->.
- intros Hne. destruct (q_extract_ok p items Hne) as (x & Hx & E). exists x. eexists.
  split; [done|]. by apply delete_Permutation.
- by apply drain_perm.
Qed.

(** The order of the two policies. Elements inserted one after the other
  into an empty queue are extracted oldest first by [LIFOPolicy] and newest
  first by [FIFOPolicy]. *)
Theorem policy_order xs :
zlen xs < int64_max ->
exists items, q_inserts xs [] = Ret items /\
  drain (length items) mkLIFO items = xs /\ drain (length items) mkFIFO items = rev xs.
Proof.
intros Hl. exists xs. split; [apply (q_inserts_ok xs []); zlen_lia|].
split; [by apply drain_lifo|by apply drain_fifo].
Qed.
End queue.

Lemma queue_extract_witness :
  exists x items', q_extract mkLIFO [1; 2; 3] = (OK x, items') /\ [1; 2; 3] ≡ₚ x :: items'.
Proof. apply (queue_extract mkLIFO [1; 2; 3]). discriminate. Defined.

Lemma policy_order_witness :
  exists items, q_inserts [1; 2; 3] [] = Ret items /\
    drain (length items) mkLIFO items = [1; 2; 3] /\ drain (length items) mkFIFO items = [3; 2; 1].
Proof. apply (policy_order [1; 2; 3]). reflexivity. Defined.
