(* ===== verification/SharedQueue.v ===== *)
(** * SharedQueue: the work queue shared by threads (src/mt/sharing_queue.hpp, sharing_queue.inl)

    A state machine with one transition per critical section. An operation that
    signals a condition variable does so after its critical section, as a
    transition of its own, so other threads may run in between. Blocked threads
    can also wake up spuriously. *)
From S2P Require Import Prelude Queue.
Local Open Scope Z_scope.

Section shared.
Context {T P : Type} `{IPolicy P}.

(** ** State *)

(** Where a thread is: outside the queue, blocked on one of the two condition
  variables (and whether it was signalled since), or about to signal one. *)
Inductive status : Type :=
| Outside
| WaitsWork (signalled : bool)
| WaitsEmpty (signalled : bool)
| SignalsWork
| SignalsEmpty.

(** [SharedQueue]: the items, the flag [_skip_waiting], and the threads. *)
Record shared : Type := mkShared {
work : list T;
skip_waiting : bool;
threads : nat -> status;
}.

(** [SharedQueue::SharedQueue]. *)
Definition shared_new : shared := mkShared [] false (fun _ => Outside).

Definition set_thread (i : nat) (x : status) (f : nat -> status) : nat -> status :=
fun j => if decide (j = i) then x else f j.

(** ** Operations *)

(** The critical section of [try_extract]: the result, the queue, and whether
  the dispatch of all work is signalled. *)
Definition try_extract (policy : P) (items : list T) : Result T QueueError * list T * bool :=
let '(result, items) := q_extract policy items in
(result, items, q_size items =? 0).

(** The predicates of the two waits. *)
Definition work_ready (items : list T) (skip : bool) : bool := negb (q_size items =? 0) || skip.
Definition all_dispatched (items : list T) (skip : bool) : bool := (q_size items =? 0) || skip.

(** [notify_all] of a condition variable. *)
Definition notify_work (f : nat -> status) : nat -> status :=
fun j => match f j with WaitsWork _ => WaitsWork true | x => x end.
Definition notify_empty (f : nat -> status) : nat -> status :=
fun j => match f j with WaitsEmpty _ => WaitsEmpty true | x => x end.

(** Transitions of thread [i]. *)
Inductive step : shared -> shared -> Prop :=
| s_insert q i x items :
  threads q i = Outside -> q_insert x (work q) = Ret items ->
  step q (mkShared items (skip_waiting q) (set_thread i SignalsWork (threads q)))
| s_try_extract q i policy r items empty :
  threads q i = Outside -> try_extract policy (work q) = (r, items, empty) ->
  step q (mkShared items (skip_waiting q)
            (set_thread i (if empty then SignalsEmpty else Outside) (threads q)))
| s_mutate q i mutation :
  threads q i = Outside ->
  step q (mkShared (q_mutate mutation (work q)) (skip_waiting q)
            (set_thread i SignalsWork (threads q)))
| s_force_wakeup q i :
  threads q i = Outside ->
  step q (mkShared (work q) (skip_waiting q) (set_thread i SignalsWork (threads q)))
| s_begin_skip_waiting q i :
  threads q i = Outside ->
  step q (mkShared (work q) true (set_thread i SignalsWork (threads q)))
| s_wait_work q i :
  threads q i = Outside ->
  step q (mkShared (work q) (skip_waiting q)
            (set_thread i (if work_ready (work q) (skip_waiting q) then Outside
                           else WaitsWork false) (threads q)))
| s_wait_empty q i :
  threads q i = Outside ->
  step q (mkShared (work q) (skip_waiting q)
            (set_thread i (if all_dispatched (work q) (skip_waiting q) then Outside
                           else WaitsEmpty false) (threads q)))
| s_wake_work q i b :
  threads q i = WaitsWork b ->
  step q (mkShared (work q) (skip_waiting q)
            (set_thread i (if work_ready (work q) (skip_waiting q) then Outside
                           else WaitsWork false) (threads q)))
| s_wake_empty q i b :
  threads q i = WaitsEmpty b ->
  step q (mkShared (work q) (skip_waiting q)
            (set_thread i (if all_dispatched (work q) (skip_waiting q) then Outside
                           else WaitsEmpty false) (threads q)))
| s_signal_work q i :
  threads q i = SignalsWork ->
  step q (mkShared (work q) (skip_waiting q) (set_thread i Outside (notify_work (threads q))))
| s_signal_empty q i :
  threads q i = SignalsEmpty ->
  step q (mkShared (work q) (skip_waiting q) (set_thread i Outside (notify_empty (threads q)))).

Inductive reaches : shared -> Prop :=
| reaches_new : reaches shared_new
| reaches_step q q' : reaches q -> step q q' -> reaches q'.

(** ** Lemmas *)

(** A thread that waits for work unsignalled has none to do, or a signal is on
  its way. *)
Definition no_lost_work (q : shared) : Prop :=
forall i, threads q i = WaitsWork false ->
work_ready (work q) (skip_waiting q) = false \/ exists j, threads q j = SignalsWork.

Lemma set_thread_eq i x f : set_thread i x f i = x.
Proof. unfold set_thread. by rewrite decide_True. Qed.

Lemma set_thread_ne i j x f : j <> i -> set_thread i x f j = f j.
Proof. intros Hne. unfold set_thread. by rewrite decide_False. Qed.

Lemma try_extract_unready policy items skip r items' empty :
try_extract policy items = (r, items', empty) ->
work_ready items skip = false -> work_ready items' skip = false.
Proof.
unfold try_extract, work_ready, q_size. intros E Hr. apply orb_false_iff in Hr as [Hn ->].
apply negb_false_iff, Z.eqb_eq in Hn. apply zlen_0_nil in Hn as ->.
simpl in E. by injection E as <- <- <-.
Qed.

Lemma work_ready_skip items : work_ready items true = true.
Proof. apply orb_true_r. Qed.

(** A thread that moves to a status other than [SignalsWork] keeps the signals of
  the others, when it had none itself. *)
Lemma keep_signal i x f :
f i <> SignalsWork -> (exists j, f j = SignalsWork) -> exists j, set_thread i x f j = SignalsWork.
Proof.
intros Hi [j Hj]. exists j. rewrite set_thread_ne; [done|]. intros ->. congruence.
Qed.

(** The status of thread [i] changes to one that is not an unsignalled wait for
  missing work; the queue stays as good for the others. *)
Lemma no_lost_frame q i x items skip :
no_lost_work q -> threads q i <> SignalsWork ->
(work_ready (work q) (skip_waiting q) = false -> work_ready items skip = false) ->
(x = WaitsWork false -> work_ready items skip = false) ->
no_lost_work (mkShared items skip (set_thread i x (threads q))).
Proof.
intros Hq Hi Hw Hx j. cbn [work skip_waiting threads]. destruct (decide (j = i)) as [->|Hne].
- rewrite set_thread_eq. auto.
- rewrite set_thread_ne by done. intros [Hl|Hl]%Hq; [auto|]. right. by apply keep_signal.
Qed.

(** A thread about to signal makes up for anything. *)
Lemma no_lost_signal i items skip f :
no_lost_work (mkShared items skip (set_thread i SignalsWork f)).
Proof. intros j _. right. exists i. apply set_thread_eq. Qed.

Lemma no_lost_step q q' : no_lost_work q -> step q q' -> no_lost_work q'.
Proof.
intros Hq Hs. destruct Hs as [q i x items Hi E|q i policy r items empty Hi E|q i m Hi|q i Hi|q i Hi
  |q i Hi|q i Hi|q i b Hi|q i b Hi|q i Hi|q i Hi]; try apply no_lost_signal.
all: try (apply no_lost_frame; [done|congruence|done|]; by destruct (all_dispatched _ _)).
all: try (apply no_lost_frame; [done|congruence|done|]; by destruct (work_ready _ _) eqn:E').
- apply no_lost_frame; [done|congruence|by apply (try_extract_unready policy _ _ r _ empty)|].
  by destruct empty.
- intros j. cbn [threads work skip_waiting]. destruct (decide (j = i)) as [->|Hne].
  + by rewrite set_thread_eq.
  + rewrite set_thread_ne by done. unfold notify_work. by destruct (threads q j).
- intros j. cbn [threads work skip_waiting]. destruct (decide (j = i)) as [->|Hne].
  + by rewrite set_thread_eq.
  + rewrite set_thread_ne by done. unfold notify_empty. intros Hj.
    assert (Hj' : threads q j = WaitsWork false) by (by destruct (threads q j)).
    apply Hq in Hj' as [|[k Hk]]; [auto|]. right. exists k.
    rewrite set_thread_ne by congruence. by rewrite Hk.
Qed.

(** ** Claims *)

(** C31: no wake-up for work is lost. In every reachable state a thread blocked
  in [wait_work] without a signal has nothing to wake up for, the queue being
  empty and [begin_skip_waiting] not called, or a thread is about to signal
  it. *)
Theorem work_signals q :
reaches q -> forall i, threads q i = WaitsWork false ->
(work q = [] /\ skip_waiting q = false) \/ exists j, threads q j = SignalsWork.
Proof.
intros Hr. assert (Hq : no_lost_work q).
{ induction Hr as [|q q' _ IH Hs]; [done|]. by eapply no_lost_step. }
intros i [Hw|Hj]%Hq; [left|auto]. unfold work_ready, q_size in Hw.
apply orb_false_iff in Hw as [Hn ->]. apply negb_false_iff, Z.eqb_eq in Hn.
split; [by apply zlen_0_nil|done].
Qed.

(** A wake-up of [wait_empty] can be lost. From any reachable state with a
  thread blocked unsignalled in [wait_empty] and an idle thread,
  [begin_skip_waiting] runs to its end and leaves that thread blocked and
  unsignalled, although its wait should be over. *)
Theorem empty_signal_lost q i j :
reaches q -> threads q i = WaitsEmpty false -> threads q j = Outside ->
exists q', reaches q' /\ threads q' i = WaitsEmpty false /\
  all_dispatched (work q') (skip_waiting q') = true /\
  (forall k, threads q' k = SignalsEmpty -> threads q k = SignalsEmpty).
Proof.
intros Hr Hi Hj. assert (Hij : i <> j) by congruence.
eexists. split_and!.
- eapply reaches_step; [eapply reaches_step; [exact Hr|]|].
  + by apply (s_begin_skip_waiting q j).
  + apply (s_signal_work _ j). cbn. apply set_thread_eq.
- cbn. rewrite set_thread_ne by done. unfold notify_work. by rewrite set_thread_ne, Hi by done.
- apply orb_true_r.
- intros k. cbn. destruct (decide (k = j)) as [->|Hk]; [by rewrite set_thread_eq|].
  rewrite set_thread_ne by done. unfold notify_work. rewrite set_thread_ne by done.
  by destruct (threads q k).
Qed.
End shared.

(** Thread 0 waits for work in an empty queue. *)
Definition waiting : shared :=
  mkShared (T := Z) [] false (set_thread 0 (WaitsWork false) (fun _ => Outside)).

Lemma waiting_reached : reaches (P := LIFOPolicy) waiting.
Proof. eapply reaches_step; [apply reaches_new|]. by apply (s_wait_work shared_new 0). Qed.

Lemma work_signals_witness :
  (work waiting = [] /\ skip_waiting waiting = false) \/
  exists j, threads waiting j = SignalsWork.
Proof. exact (work_signals (P := LIFOPolicy) waiting waiting_reached 0 eq_refl). Defined.

(** Thread 1 has inserted an element, thread 0 waits for the queue to be empty. *)
Definition waiting_empty : shared :=
  mkShared (T := Z) [7] false
    (set_thread 0 (WaitsEmpty false) (set_thread 1 SignalsWork (fun _ => Outside))).

Lemma waiting_empty_reached : reaches (P := LIFOPolicy) waiting_empty.
Proof.
  eapply reaches_step; [eapply reaches_step; [apply reaches_new|]|].
  - by apply (s_insert shared_new 1 7 [7]).
  - by apply (s_wait_empty (mkShared [7] false (set_thread 1 SignalsWork (fun _ => Outside))) 0).
Qed.

Lemma empty_signal_lost_witness :
  exists q', reaches (T := Z) (P := LIFOPolicy) q' /\ threads q' 0%nat = WaitsEmpty false /\
    all_dispatched (work q') (skip_waiting q') = true /\
    (forall k, threads q' k = SignalsEmpty -> threads waiting_empty k = SignalsEmpty).
Proof. exact (empty_signal_lost waiting_empty 0 2 waiting_empty_reached eq_refl eq_refl). Defined.
