(* ===== verification/Io.v ===== *)
(** * Io: files and directories (src/platform/io.hpp, io.cpp)

    The file system is a map from paths to contents and a set of directories;
    paths are compared as strings. The reasons for which the operating system
    refuses an operation (permissions, missing parents, full disk) are a
    function from paths to error numbers. *)
From S2P Require Import Prelude.
Local Open Scope Z_scope.

Module Io.

Inductive IOError : Type :=
| GenericError
| CannotOpenFile
| InvalidPath
| PathDoesNotExists
| FileAlreadyExists
| DirectoryAlreadyExists.

(** The file system. *)
Record disk : Type := mkDisk {
  contents : gmap bytes bytes;
  dirs : gset bytes;
  refuses : bytes -> option Z;
}.

Definition set_contents (m : gmap bytes bytes) (d : disk) : disk := mkDisk m (dirs d) (refuses d).

(** [std::errc::file_exists]. *)
Definition EEXIST : Z := 17.

(** Overwriting [content] with [bs] from [offset] on; a gap is filled with zeros. *)
Definition splice (content : bytes) (offset : Z) (bs : bytes) : bytes :=
  let n := Z.to_nat offset in
  take n (content ++ replicate n x00) ++ bs ++ drop (n + length bs) content.

(** [exists]. *)
Definition exists_ (filename : bytes) (d : disk) : Result bool IOError :=
  match refuses d filename with
  | Some _ => ERROR GenericError
  | None => OK (bool_decide (is_Some (contents d !! filename) \/ filename ∈ dirs d))
  end.

(** [touch]: an empty file, then the character '1' at its last position. *)
Definition touch (filename : bytes) (size : Z) : st disk (Result unit IOError) :=
  d ← get;
  match exists_ filename d with
  | ERROR _ => mret (ERROR GenericError)
  | OK true => mret (ERROR FileAlreadyExists)
  | OK false =>
      _ ← modify (fun d => set_contents (<[filename := []]> (contents d)) d);
      if size =? 0 then lift (Throw (invalid_argument "empty file"))
      else if size <? 0 then mret (ERROR GenericError)
      else
        _ ← modify (fun d => set_contents (<[filename := splice [] (size - 1) (str "1")]> (contents d)) d);
        mret (OK tt)
  end.

(** [path] is inside the directory [dir], or is it. *)
Definition inside (dir path : bytes) : bool :=
  bool_decide (path = dir \/ (dir ++ str "/") `prefix_of` path).

(** [remove]. *)
Definition remove (filename : bytes) : st disk (Result unit IOError) :=
  d ← get;
  match refuses d filename with
  | Some _ => mret (ERROR GenericError)
  | None =>
      _ ← modify (fun d => mkDisk (filter (fun kv => inside filename kv.1 = false) (contents d))
                             (filter (fun p => inside filename p = false) (dirs d)) (refuses d));
      mret (OK tt)
  end.

(** [write_bytes]: the file must exist; a negative offset makes the stream fail. *)
Definition write_bytes (filename bs : bytes) (offset : Z) : st disk (Result unit IOError) :=
  d ← get;
  match refuses d filename, contents d !! filename with
  | None, Some content =>
      if int64_max <? zlen bs then lift (Throw (invalid_argument "too many bytes to write"))
      else if offset <? 0 then mret (ERROR GenericError)
      else
        _ ← modify (set_contents (<[filename := splice content offset bs]> (contents d)));
        mret (OK tt)
  | _, _ => mret (ERROR GenericError)
  end.

(** [find_last_of('/')] and [substr(0, ...)]: the path before its last slash. *)
Fixpoint before_last_slash (path : bytes) : option bytes :=
  match path with
  | [] => None
  | c :: path =>
      match before_last_slash path with
      | Some p => Some (c :: p)
      | None => if decide (c = "/"%byte) then Some [] else None
      end
  end.

(** The prefixes of a path that end before a slash, and the path. *)
Fixpoint path_prefixes (done path : bytes) : list bytes :=
  match path with
  | [] => [done]
  | c :: path =>
      if decide (c = "/"%byte) then done :: path_prefixes (done ++ [c]) path
      else path_prefixes (done ++ [c]) path
  end.

(** [create_directories]. *)
Definition create_directories (path : bytes) (skip_last : bool) : st disk (Result bytes IOError) :=
  match (if skip_last then before_last_slash path else Some path) with
  | None => mret (ERROR InvalidPath)
  | Some real_path =>
      d ← get;
      match refuses d real_path with
      | Some errno =>
          mret (ERROR (if errno =? EEXIST then DirectoryAlreadyExists else GenericError))
      | None =>
          if bool_decide (Exists (fun p => is_Some (contents d !! p)) (path_prefixes [] real_path))
          then mret (ERROR GenericError)
          else
            _ ← modify (fun d => mkDisk (contents d)
                   (dirs d ∪ list_to_set (path_prefixes [] real_path)) (refuses d));
            mret (OK real_path)
      end
  end.

(** [load_file_text]. *)
Definition load_file_text (filepath : bytes) (d : disk) : Result bytes IOError :=
  match refuses d filepath, contents d !! filepath with
  | None, Some content => OK content
  | _, _ => ERROR CannotOpenFile
  end.

(** ** Lemmas *)

(** Inside the file, overwriting is replacing a range. *)
Lemma splice_inside content offset bs :
  0 <= offset -> offset + zlen bs <= zlen content ->
  splice content offset bs =
  take (Z.to_nat offset) content ++ bs ++ drop (Z.to_nat (offset + zlen bs)) content.
Proof.
  intros H0 H1. unfold splice. rewrite take_app_le by (unfold zlen in *; lia).
  do 3 f_equal. unfold zlen in *. lia.
Qed.

Lemma zlen_splice content offset bs :
  0 <= offset -> offset + zlen bs <= zlen content -> zlen (splice content offset bs) = zlen content.
Proof.
  intros H0 H1. rewrite splice_inside by done. rewrite !zlen_app, zlen_take, zlen_drop.
  zlen_pos. lia.
Qed.

(** The range that was written, and the rest. *)
Lemma splice_lookup content offset bs (i : nat) :
  0 <= offset -> offset + zlen bs <= zlen content ->
  splice content offset bs !! i =
  if decide (offset <= Z.of_nat i < offset + zlen bs) then bs !! (i - Z.to_nat offset)%nat
  else content !! i.
Proof.
  intros H0 H1. rewrite splice_inside by done. unfold zlen in *.
  destruct (decide _) as [Hi|Hi].
  - rewrite lookup_app_r by (rewrite length_take; lia). rewrite length_take.
    rewrite lookup_app_l by lia. f_equal. lia.
  - destruct (decide (Z.of_nat i < offset)) as [Hlt|Hge].
    + rewrite lookup_app_l by (rewrite length_take; lia). by rewrite lookup_take_lt by lia.
    + rewrite lookup_app_r by (rewrite length_take; lia). rewrite length_take.
      rewrite lookup_app_r by lia. rewrite lookup_drop. f_equal. lia.
Qed.

(** What follows the offset is the bytes written and the old rest. *)
Lemma drop_splice content offset bs :
  drop (Z.to_nat offset) (splice content offset bs) =
  bs ++ drop (Z.to_nat offset + length bs) content.
Proof.
  unfold splice. apply drop_length_app. rewrite length_take, length_app, length_replicate. lia.
Qed.

Lemma write_bytes_run filename bs offset d content :
  refuses d filename = None -> contents d !! filename = Some content ->
  zlen bs <= int64_max -> 0 <= offset ->
  write_bytes filename bs offset d =
  Ret (OK tt, set_contents (<[filename := splice content offset bs]> (contents d)) d).
Proof.
  intros Hr Hc Hz Ho. unfold write_bytes, mbind, st_bind, get. rewrite Hr, Hc.
  destruct (Z.ltb_spec int64_max (zlen bs)); [lia|]. destruct (Z.ltb_spec offset 0); [lia|]. done.
Qed.

Example touch_ex :
  contents <$> (snd <$> touch (str "f") 3 (mkDisk ∅ ∅ (fun _ => None))) =
  Ret {[ str "f" := [x00; x00; "1"%byte] ]}.
Proof. vm_compute. reflexivity. Qed.

End Io.
