(* ===== verification/Task.v ===== *)
(** * Task: processing a piece (PieceTask of src/furrent.hpp, src/furrent.cpp)

    A task downloads its piece from a peer, in the environment of [Socket], and
    writes it to the files its subpieces name, on the disk of [Io]. *)
From S2P Require Import Prelude Hash Descriptor Pieces Peer Message Socket Downloader Io.
Local Open Scope Z_scope.

(** ** Data and operations *)

(** [PieceTask]; [tid] identifies the torrent. *)
Record PieceTask : Type := mkTask {
  task_data : option Downloaded;
  tid : Z;
  task_piece : Piece;
  descriptor : TorrentFile;
}.

(** The two constructors. *)
Definition PieceTask_empty : PieceTask := mkTask None 0 (mkPiece 0 []) TorrentFile_empty.
Definition PieceTask_new (tid : Z) (piece : Piece) (descriptor : TorrentFile) : PieceTask :=
  mkTask None tid piece descriptor.

(** [PieceTask::download]. *)
Definition download (peer : Peer) (task : PieceTask) : st Socket.net (bool * PieceTask) := fun n =>
  '(r, d) ← try_download (descriptor task) peer (task_piece task) (Downloader_new n);
  match r with
  | ERROR _ => Ret ((false, task), engine d)
  | OK downloaded =>
      Ret ((true, mkTask (Some downloaded) (tid task) (task_piece task) (descriptor task)), engine d)
  end.

(** The file of a subpiece. *)
Definition subpiece_path (descriptor : TorrentFile) (sp : Subpiece) : bytes :=
  folder_name descriptor ++ str "/" ++ sp_filepath sp.

(** The loop of [PieceTask::save]: the whole content goes to every file. *)
Fixpoint save_loop (task : PieceTask) (sps : list Subpiece) : st Io.disk bool :=
  match sps with
  | [] => mret true
  | sp :: sps =>
      downloaded ← lift (match task_data task with
                         | Some x => Ret x
                         | None => Throw bad_optional_access
                         end);
      maybe_write ← Io.write_bytes (subpiece_path (descriptor task) sp) (d_content downloaded)
                      (file_offset sp);
      match maybe_write with
      | ERROR _ => _ ← lift (vget (subpieces (task_piece task)) 0); mret false
      | OK _ => save_loop task sps
      end
  end.

(** [PieceTask::save]; the log messages name the first subpiece. *)
Definition save (task : PieceTask) : st Io.disk bool :=
  ok ← save_loop task (subpieces (task_piece task));
  if (ok : bool) then _ ← lift (vget (subpieces (task_piece task)) 0); mret true
  else mret false.

(** [PieceTask::process]. *)
Definition process (peer : Peer) (task : PieceTask) : st (Socket.net * Io.disk) (bool * PieceTask) :=
  fun '(n, d) =>
  '((downloaded, task), n) ← download peer task n;
  if (downloaded : bool) then
    '(saved, d) ← save task d; Ret ((saved, task), (n, d))
  else Ret ((false, task), (n, d)).

(** ** Pieces of a single file *)

Section single.
Context (d : TorrentFile) (f : File) (Hd : layout_wf d) (Hf : files d = [f]).

(** The only subpiece of piece [i]. *)
Definition single_subpiece (i : Z) : Subpiece :=
mkSubpiece (join_path (filepath f)) (i * piece_length d) (piece_end d i - i * piece_length d).
Definition single_piece (i : Z) : Piece := mkPiece i [single_subpiece i].

Lemma single_length : tlength d = flength f.
Proof. rewrite (lw_length _ Hd), Hf. unfold total. simpl. lia. Qed.

Lemma pieces_loop_single n idx :
0 <= idx -> idx + Z.of_nat n = pieces_count d ->
pieces_loop n d idx (mkCursor 0 (flength f) (flength f - idx * piece_length d)) =
Ret (map single_piece (seqZ idx (Z.of_nat n))).
Proof.
revert idx. induction n as [|n IH]; intros idx H0 Hn; [done|]. cbn [pieces_loop].
destruct (piece_range d Hd idx) as (H1 & H2 & H3 & H4); [lia|].
pose proof (lw_bound _ Hd) as Hb. unfold int64_max in Hb. rewrite single_length in H2, Hb.
unfold one_piece. rewrite this_piece_length_ok by (done || lia). run_bind.
cbn [cur_file_rem_size cur_file_tot_size cur_file].
destruct (Z.ltb_spec (flength f - idx * piece_length d)
           (piece_end d idx - idx * piece_length d)); [lia|].
rewrite i64_ok by lia. run_bind. rewrite Hf. change (vget [f] 0) with (Ret f). run_bind.
pose proof (lw_paths _ Hd) as Hp. rewrite Hf in Hp. inversion_clear Hp.
rewrite filename_join by done. run_bind. rewrite i64_ok by lia. run_bind.
rewrite seqZ_cons by lia. cbn [map].
replace (Z.pred (Z.of_nat (S n))) with (Z.of_nat n) by lia. replace (Z.succ idx) with (idx + 1) by lia.
assert (Hsp : mkSubpiece (join_path (filepath f)) (flength f - (flength f - idx * piece_length d))
                (piece_end d idx - idx * piece_length d) = single_subpiece idx).
{ unfold single_subpiece. f_equal. lia. }
rewrite Hsp. destruct n as [|n].
{ done. }
replace (flength f - idx * piece_length d - (piece_end d idx - idx * piece_length d))
  with (flength f - (idx + 1) * piece_length d) by (destruct H3 as [-> _]; lia).
by rewrite IH by lia.
Qed.

Lemma pieces_single : pieces d = Ret (map single_piece (seqZ 0 (pieces_count d))).
Proof.
unfold pieces. pose proof (lw_count _ Hd) as Hc.
destruct (Z.ltb_spec (pieces_count d) 0); [lia|].
destruct (Z.ltb_spec pieces_max_size (pieces_count d)); [lia|]. cbn [orb].
rewrite Hf. change (vget [f] 0) with (Ret f). run_bind.
replace (flength f) with (flength f - 0 * piece_length d) at 2 by lia.
rewrite pieces_loop_single by lia. by rewrite Z2Nat.id by lia.
Qed.
End single.

(** ** Saving *)

(** Bytes [s, e) of a content. *)
Definition slice (whole : bytes) (s e : Z) : bytes :=
  take (Z.to_nat (e - s)) (drop (Z.to_nat s) whole).

Lemma zlen_slice whole s e : 0 <= s <= e -> e <= zlen whole -> zlen (slice whole s e) = e - s.
Proof. intros H1 H2. unfold slice. rewrite zlen_take, zlen_drop. lia. Qed.

Lemma slice_lookup whole s e (i : nat) :
  0 <= s -> s <= Z.of_nat i < e -> slice whole s e !! (i - Z.to_nat s)%nat = whole !! i.
Proof.
  intros H0 Hi. unfold slice. rewrite lookup_take_lt by lia. rewrite lookup_drop. f_equal. lia.
Qed.

(** Tasks saved one after the other, all successfully. *)
Fixpoint save_all (tasks : list PieceTask) : st Io.disk bool :=
  match tasks with
  | [] => mret true
  | task :: tasks => ok ← save task; if (ok : bool) then save_all tasks else mret false
  end.

(** Saving a piece with a single subpiece is one write. *)
Lemma save_single_run task sp x dk content :
  subpieces (task_piece task) = [sp] -> task_data task = Some x ->
  let path := subpiece_path (descriptor task) sp in
  Io.refuses dk path = None -> Io.contents dk !! path = Some content ->
  zlen (d_content x) <= int64_max -> 0 <= file_offset sp ->
  save task dk =
  Ret (true, Io.set_contents (<[path := Io.splice content (file_offset sp) (d_content x)]>
               (Io.contents dk)) dk).
Proof.
  intros Hsp Hx path Hr Hc Hz Ho. unfold save. rewrite Hsp. cbn [save_loop]. rewrite Hx.
  unfold mbind, st_bind, lift. run_bind. fold path. by rewrite (Io.write_bytes_run _ _ _ _ content) by done.
Qed.

Section assemble.
Context (d : TorrentFile) (f : File) (Hd : layout_wf d) (Hf : files d = [f]).
Context (whole : bytes) (Hw : zlen whole = tlength d) (id : Z).

(** The task of piece [i] after a correct download. *)
Definition loaded (i : Z) : PieceTask :=
mkTask (Some (mkDownloaded i (slice whole (i * piece_length d) (piece_end d i)))) id
  (single_piece d f i) d.

Definition file_path : bytes := folder_name d ++ str "/" ++ join_path (filepath f).

(** The bytes of the saved pieces are in place. *)
Definition in_place (saved : list Z) (content : bytes) : Prop :=
zlen content = zlen whole /\
forall i k : nat, Z.of_nat i ∈ saved ->
  Z.of_nat i * piece_length d <= Z.of_nat k < piece_end d (Z.of_nat i) ->
  content !! k = whole !! k.

Lemma save_loaded_run dk content i saved :
0 <= i < pieces_count d -> Io.refuses dk file_path = None ->
Io.contents dk !! file_path = Some content -> in_place saved content ->
exists content',
  save (loaded i) dk = Ret (true, Io.set_contents (<[file_path := content']> (Io.contents dk)) dk) /\
  in_place (i :: saved) content'.
Proof.
intros Hi Hr Hc [Hz Hp]. destruct (piece_range d Hd i Hi) as (H1 & H2 & _).
pose proof (lw_bound _ Hd) as Hb.
assert (Hs : zlen (slice whole (i * piece_length d) (piece_end d i)) =
             piece_end d i - i * piece_length d) by (apply zlen_slice; lia).
eexists. split.
- apply (save_single_run (loaded i) (single_subpiece d f i) 
    (mkDownloaded i (slice whole (i * piece_length d) (piece_end d i))) dk content); try done.
  + simpl. rewrite Hs. lia.
  + simpl. lia.
- cbn [file_offset single_subpiece d_content]. split; [rewrite Io.zlen_splice; lia|].
  intros j k Hj Hk. rewrite Io.splice_lookup by lia. rewrite Hs.
  destruct (decide _) as [Hin|Hout]; [apply slice_lookup; lia|].
  apply elem_of_cons in Hj as [Hj|Hj]; [|by apply (Hp j)]. exfalso. rewrite Hj in Hk. lia.
Qed.

Lemma save_all_run idxs dk content saved :
Forall (fun i => 0 <= i < pieces_count d) idxs -> Io.refuses dk file_path = None ->
Io.contents dk !! file_path = Some content -> in_place saved content ->
exists content' dk', save_all (map loaded idxs) dk = Ret (true, dk') /\
  Io.contents dk' !! file_path = Some content' /\ in_place (rev idxs ++ saved) content'.
Proof.
revert dk content saved. induction idxs as [|i idxs IH]; intros dk content saved His Hr Hc Hp.
{ exists content, dk. done. }
inversion_clear His. destruct (save_loaded_run dk content i saved) as (c1 & E1 & Hp1); [done..|].
destruct (IH (Io.set_contents (<[file_path := c1]> (Io.contents dk)) dk) c1 (i :: saved))
  as (c2 & dk2 & E2 & Hc2 & Hp2); [done|done|by apply lookup_insert_eq|done|].
exists c2, dk2. cbn [map save_all]. unfold mbind, st_bind. rewrite E1, E2.
split_and!; [done|done|]. cbn [rev]. by rewrite <- app_assoc.
Qed.

(** With all pieces in place the content is complete. *)
Lemma in_place_all saved content :
(forall i, 0 <= i < pieces_count d -> i ∈ saved) -> in_place saved content -> content = whole.
Proof.
intros Hs [Hz Hp]. apply list_eq. intros k.
destruct (decide (Z.of_nat k < tlength d)) as [Hk|Hk].
2:{ rewrite !lookup_ge_None_2; [done|unfold zlen in *; lia|unfold zlen in *; lia]. }
pose proof (lw_plen _ Hd) as Hpl. set (i := Z.of_nat k / piece_length d).
assert (Hi : 0 <= i) by (apply Z.div_pos; lia).
pose proof (Z.div_mod (Z.of_nat k) (piece_length d) ltac:(lia)) as Hdm. fold i in Hdm.
pose proof (Z.mod_pos_bound (Z.of_nat k) (piece_length d) ltac:(lia)) as Hmb.
assert (i < pieces_count d) by (pose proof (lw_ceil _ Hd); nia).
apply (Hp (Z.to_nat i)); rewrite Z2Nat.id by lia; [apply Hs; lia|]. unfold piece_end. nia.
Qed.
End assemble.

(** ** Claims *)

(** C23: assembling a single file. Saving the correctly downloaded pieces of a
    torrent of one file, in any order, leaves exactly the content of the torrent
    in the file, whatever the file held before. *)
Theorem save_assembles d f whole id order dk content :
  layout_wf d -> files d = [f] -> zlen whole = tlength d ->
  order ≡ₚ seqZ 0 (pieces_count d) ->
  Io.refuses dk (file_path d f) = None ->
  Io.contents dk !! file_path d f = Some content -> zlen content = tlength d ->
  pieces d = Ret (map (single_piece d f) (seqZ 0 (pieces_count d))) /\
  exists dk', save_all (map (loaded d f whole id) order) dk = Ret (true, dk') /\
    Io.contents dk' !! file_path d f = Some whole.
Proof.
  intros Hd Hf Hw Ho Hr Hc Hz. split; [by apply pieces_single|].
  destruct (save_all_run d f Hd whole Hw id order dk content []) as (c & dk' & E & Hc' & Hp); [|done|done| |].
  - rewrite Ho. apply Forall_forall. intros i Hi%elem_of_seqZ. lia.
  - split; [lia|]. by intros i k Hi%not_elem_of_nil.
  - exists dk'. split; [done|]. rewrite Hc'. f_equal.
    apply (in_place_all d Hd whole Hw (rev order ++ [])); [|done].
    intros i Hi. rewrite app_nil_r. apply list_elem_of_In. rewrite <- in_rev.
    apply list_elem_of_In. rewrite Ho. apply elem_of_seqZ. lia.
Qed.

(** A file of five bytes in three pieces, saved out of order. *)
Definition five : TorrentFile :=
  mkTorrentFile (str "http://t") (replicate 20 x07) (replicate 3 (replicate 20 x00)) 2 5 3 (str "n")
    (str "dl") [mkFile [str "n"] 5].

Lemma save_assembles_witness :
  pieces five = Ret (map (single_piece five (mkFile [str "n"] 5)) (seqZ 0 3)) /\
  exists dk', save_all (map (loaded five (mkFile [str "n"] 5) (str "hello") 7) [1; 0; 2])
      (Io.mkDisk {[ str "dl/n" := str "....1" ]} ∅ (fun _ => None)) = Ret (true, dk') /\
    Io.contents dk' !! str "dl/n" = Some (str "hello").
Proof.
  apply (save_assembles five (mkFile [str "n"] 5) (str "hello") 7 [1; 0; 2] _ (str "....1")).
  - split; done || (repeat constructor; vm_compute; discriminate).
  - reflexivity.
  - reflexivity.
  - apply perm_swap.
  - reflexivity.
  - vm_compute. reflexivity.
  - reflexivity.
Defined.

(** A piece that spans two files is written whole to both: the second file
    gets the first bytes of the piece where the bytes after the first file's
    share belong, and both files can grow beyond their length. *)
Lemma save_spanning_piece task sp1 sp2 x dk c1 c2 :
  let path1 := subpiece_path (descriptor task) sp1 in
  let path2 := subpiece_path (descriptor task) sp2 in
  subpieces (task_piece task) = [sp1; sp2] -> task_data task = Some x -> path1 <> path2 ->
  Io.refuses dk path1 = None -> Io.refuses dk path2 = None ->
  Io.contents dk !! path1 = Some c1 -> Io.contents dk !! path2 = Some c2 ->
  zlen (d_content x) <= int64_max -> 0 <= file_offset sp1 -> 0 <= file_offset sp2 ->
  sp_len sp2 <= zlen (d_content x) ->
  exists dk' c2', save task dk = Ret (true, dk') /\
    Io.contents dk' !! path1 = Some (Io.splice c1 (file_offset sp1) (d_content x)) /\
    Io.contents dk' !! path2 = Some c2' /\
    slice c2' (file_offset sp2) (file_offset sp2 + sp_len sp2) = slice (d_content x) 0 (sp_len sp2).
Proof.
  intros path1 path2 Hsp Hx Hne Hr1 Hr2 Hc1 Hc2 Hz Ho1 Ho2 Hl.
  eexists _, _. split_and!.
  - unfold save. rewrite Hsp. cbn [save_loop]. rewrite Hx. unfold mbind, st_bind, lift. run_bind.
    fold path1 path2. rewrite (Io.write_bytes_run _ _ _ _ c1) by done.
    rewrite (Io.write_bytes_run _ _ _ _ c2); [reflexivity|done| |done|done].
    cbn. by rewrite lookup_insert_ne.
  - cbn. rewrite lookup_insert_ne by done. by rewrite lookup_insert_eq.
  - apply lookup_insert_eq.
  - unfold slice. rewrite Io.drop_splice.
    replace (file_offset sp2 + sp_len sp2 - file_offset sp2) with (sp_len sp2) by lia.
    rewrite Z.sub_0_r. apply take_app_le. simpl. rewrite drop_0. unfold zlen in Hl. lia.
Qed.

(** The first piece of the two-file sample of [Descriptor]. *)
Definition spanning_task : PieceTask :=
  mkTask (Some (mkDownloaded 0 (str "0123456789abcdefghijklmnopqrstuv"))) 0
    (mkPiece 0 [mkSubpiece (str "a") 0 10; mkSubpiece (str "d/b") 0 22]) sample_torrent.

Example spanning_task_saved :
  exists dk' c2', save spanning_task
      (Io.mkDisk (<[str "/a" := replicate 10 x00]> {[ str "/d/b" := replicate 30 x00 ]}) ∅ (fun _ => None))
      = Ret (true, dk') /\
    Io.contents dk' !! str "/a" =
      Some (Io.splice (replicate 10 x00) 0 (str "0123456789abcdefghijklmnopqrstuv")) /\
    Io.contents dk' !! str "/d/b" = Some c2' /\
    slice c2' 0 (0 + 22) = slice (str "0123456789abcdefghijklmnopqrstuv") 0 22.
Proof.
  apply (save_spanning_piece spanning_task (mkSubpiece (str "a") 0 10) (mkSubpiece (str "d/b") 0 22)
    (mkDownloaded 0 (str "0123456789abcdefghijklmnopqrstuv")) _ (replicate 10 x00) (replicate 30 x00));
    try reflexivity; vm_compute; discriminate || reflexivity.
Qed.
