(* ===== verification/Furrent.v ===== *)
(** * Furrent: the client (Furrent of src/furrent.hpp, src/furrent.cpp)

    The state of the client, the operations of its interface, and the parts of
    the worker loop that touch the state. The disk belongs to the state; the HTTP
    client of announces is an argument. Locks are taken around the operations
    as written: the step relation that composes them is in [FurrentSpec]. *)
From S2P Require Import Prelude Bencode Hash Descriptor Pieces Peer Torrent Message Socket.
From S2P Require Import Downloader Queue Io Task.
Local Open Scope Z_scope.

(** ** Data *)

(** [TorrentGuiData]. *)
Record TorrentGuiData : Type := mkGuiData {
  g_tid : Z;
  g_state : TorrentState;
  g_filename : bytes;
  g_pieces_processed : Z;
  g_pieces_count : Z;
}.

(** [Furrent::Error]. *)
Inductive FurrentError : Type := FGenericError | LoadingTorrentFailed.

(** The members of [Furrent] that change, the items of [_tasks], and the disk. *)
Record Furrent : Type := mkFurrent {
  f_tasks : list PieceTask;
  f_torrents : gmap Z Torrent;
  f_next_uid : Z;
  f_download_folder : bytes;
  f_disk : Io.disk;
}.

Definition set_tasks (ts : list PieceTask) (f : Furrent) : Furrent :=
  mkFurrent ts (f_torrents f) (f_next_uid f) (f_download_folder f) (f_disk f).
Definition set_torrents (m : gmap Z Torrent) (f : Furrent) : Furrent :=
  mkFurrent (f_tasks f) m (f_next_uid f) (f_download_folder f) (f_disk f).
Definition set_next_uid (n : Z) (f : Furrent) : Furrent :=
  mkFurrent (f_tasks f) (f_torrents f) n (f_download_folder f) (f_disk f).
Definition set_folder (p : bytes) (f : Furrent) : Furrent :=
  mkFurrent (f_tasks f) (f_torrents f) (f_next_uid f) p (f_disk f).
Definition set_disk (d : Io.disk) (f : Furrent) : Furrent :=
  mkFurrent (f_tasks f) (f_torrents f) (f_next_uid f) (f_download_folder f) d.

(** [Furrent::Furrent]. *)
Definition Furrent_new (d : Io.disk) : Furrent := mkFurrent [] ∅ 0 (str ".") d.

(** The number of worker threads for a given hardware concurrency. *)
Definition workers_count (concurrency : Z) : Z := if 1 <? concurrency then concurrency - 1 else 1.

(** Disk operations as operations of the client. *)
Definition on_disk {A} (m : st Io.disk A) : st Furrent A := fun f =>
  '(a, d) ← m (f_disk f); Ret (a, set_disk d f).

(** ** The interface *)

(** [Furrent::set_download_folder]. *)
Definition set_download_folder (folder : bytes) : st Furrent (Result unit FurrentError) :=
  f ← get;
  match Io.exists_ folder (f_disk f) with
  | ERROR _ => mret (ERROR FGenericError)
  | OK existence =>
      creation ← (if (existence : bool) then mret (OK folder)
                  else on_disk (Io.create_directories folder false));
      match creation with
      | ERROR _ => mret (ERROR FGenericError)
      | OK _ => _ ← modify (set_folder folder); mret (OK tt)
      end
  end.

(** The loop of [prepare_torrent_files] that looks for a free name; [attempts]
    are left. *)
Fixpoint copy_loop (attempts : nat) (path : bytes) (existence : Result bool Io.IOError) (d : Io.disk)
  : bytes :=
  match attempts, existence with
  | S attempts, OK true =>
      let path := path ++ str " COPY" in
      copy_loop attempts path (Io.exists_ path d) d
  | _, _ => path
  end.

(** The loop over the files: [true] if all were created. *)
Fixpoint create_files (folder_name : bytes) (files : list File) : st Io.disk bool :=
  match files with
  | [] => mret true
  | file :: files =>
      fname ← lift (filename file);
      file_dirpath ← Io.create_directories (folder_name ++ str "/" ++ fname) true;
      match file_dirpath with
      | ERROR _ => mret false
      | OK dir =>
          last ← lift (match last (filepath file) with
                       | Some s => Ret s
                       | None => Undef OutOfBounds
                       end);
          creation ← Io.touch (dir ++ str "/" ++ last) (flength file);
          match creation with
          | ERROR _ => mret false
          | OK _ => create_files folder_name files
          end
      end
  end.

Definition MAX_COPY_ATTEMPTS : nat := 10.

(** [Furrent::prepare_torrent_files]: the descriptor gets the folder. The test
    [attempts > MAX_COPY_ATTEMPTS] never holds, the loop stops at the limit. *)
Definition prepare_torrent_files (download_folder : bytes) (descriptor : TorrentFile)
  : st Io.disk (bool * TorrentFile) :=
  d ← get;
  let path := download_folder ++ str "/" ++ name descriptor in
  let path := copy_loop MAX_COPY_ATTEMPTS path (Io.exists_ path d) d in
  torrent_dirpath ← Io.create_directories path false;
  match torrent_dirpath with
  | ERROR _ => mret (false, descriptor)
  | OK dir =>
      let descriptor := mkTorrentFile (announce_url descriptor) (info_hash descriptor)
        (piece_hashes descriptor) (piece_length descriptor) (tlength descriptor)
        (pieces_count descriptor) (name descriptor) dir (files descriptor) in
      created ← create_files dir (files descriptor);
      if (created : bool) then mret (true, descriptor)
      else _ ← Io.remove dir; mret (false, descriptor)
  end.

(** The tasks of a torrent, one per piece, appended to the queue. *)
Definition push_tasks (tid : Z) (ps : list Piece) (descriptor : TorrentFile) : st Furrent unit :=
  f ← get;
  items ← lift (q_inserts (map (fun p => PieceTask_new tid p descriptor) ps) (f_tasks f));
  modify (set_tasks items).

(** [_torrents.try_emplace(tid, tid, descriptor)]: constructs only when absent. *)
Definition try_emplace (http : bytes -> list (bytes * bytes) -> http_response) (tid : Z)
  (descriptor : TorrentFile) (m : gmap Z Torrent) : cxx (gmap Z Torrent) :=
  match m !! tid with
  | Some _ => Ret m
  | None => t ← Torrent_new http tid descriptor; Ret (<[tid := t]> m)
  end.

(** [_torrents[tid]]: a missing torrent is created empty. *)
Definition torrent_at (tid : Z) (m : gmap Z Torrent) : Torrent := default Torrent_empty (m !! tid).

(** The part of [add_torrent] after the descriptor is ready. *)
Definition register_torrent (http : bytes -> list (bytes * bytes) -> http_response) (tid : Z)
  (descriptor : TorrentFile) : st Furrent (Result Z FurrentError) :=
  f ← get;
  m ← lift (try_emplace http tid descriptor (f_torrents f));
  let torrent := torrent_at tid m in
  match t_peers torrent with
  | [] =>
      _ ← modify (set_torrents (<[tid := set_state Error torrent]> m));
      mret (ERROR FGenericError)
  | _ =>
      _ ← modify (set_torrents m);
      ps ← lift (torrent_pieces torrent);
      _ ← push_tasks tid ps (t_descriptor torrent);
      _ ← modify (set_torrents (<[tid := set_state Downloading torrent]> m));
      mret (OK tid)
  end.

(** [Furrent::add_torrent]. *)
Definition add_torrent (http : bytes -> list (bytes * bytes) -> http_response) (filename : bytes)
  : st Furrent (Result Z FurrentError) :=
  f ← get;
  let tid := f_next_uid f in
  next ← lift (i64 (tid + 1));
  _ ← modify (set_next_uid next);
  match Io.load_file_text filename (f_disk f) with
  | ERROR _ => mret (ERROR LoadingTorrentFailed)
  | OK text =>
      btree ← lift (decode text);
      match btree with
      | ERROR _ => mret (ERROR LoadingTorrentFailed)
      | OK tree =>
          descriptor ← lift (TorrentFile_new tree);
          prepared ← on_disk (prepare_torrent_files (f_download_folder f) descriptor);
          if negb (prepared.1 : bool) then mret (ERROR LoadingTorrentFailed)
          else register_torrent http tid prepared.2
      end
  end.

(** The steps of [remove_torrent]: dropping the tasks, loading the state of the
    torrent, and the exchange. Workers may run in between. *)
Definition remove_tasks (tid : Z) : st Furrent unit :=
  modify (fun f => set_tasks (q_mutate (fun t => (t, bool_decide (Task.tid t = tid))) (f_tasks f)) f).

Definition remove_load (tid : Z) : st Furrent TorrentState :=
  f ← get;
  let torrent := torrent_at tid (f_torrents f) in
  _ ← modify (set_torrents (<[tid := torrent]> (f_torrents f)));
  mret (t_state torrent).

Definition remove_stop (tid : Z) (state : TorrentState) : st Furrent unit :=
  f ← get;
  if decide (state <> Completed /\ state <> Error) then
    let torrent := torrent_at tid (f_torrents f) in
    modify (set_torrents (<[tid := set_state Stopped torrent]> (f_torrents f)))
  else mret tt.

(** [Furrent::remove_torrent]. *)
Definition remove_torrent (tid : Z) : st Furrent unit :=
  _ ← remove_tasks tid;
  state ← remove_load tid;
  remove_stop tid state.

(** [Furrent::get_gui_data]. *)
Definition get_gui_data (target_tid : Z) (f : Furrent) : cxx TorrentGuiData :=
  match f_torrents f !! target_tid with
  | Some torrent =>
      let d := t_descriptor torrent in
      Ret (mkGuiData target_tid (t_state torrent) (name d) (t_pieces_processed torrent) (pieces_count d))
  | None => Throw (invalid_argument "asked for a torrent id that doesn't exist")
  end.

(** ** The worker *)

(** Taking a task from the queue. *)
Definition worker_extract (f : Furrent) : Result PieceTask QueueError * Furrent :=
  let '(r, items) := q_extract mkLIFO (f_tasks f) in (r, set_tasks items f).

(** Looking at the torrent of a task: a task of a paused torrent goes back to the
    queue, otherwise the peers and their weights are returned. *)
Definition worker_look (task : PieceTask) : st Furrent (option (list Peer * list Z)) :=
  f ← get;
  let torrent := torrent_at (Task.tid task) (f_torrents f) in
  _ ← modify (set_torrents (<[Task.tid task := torrent]> (f_torrents f)));
  if decide (t_state torrent = Paused) then
    _ ← push_tasks (Task.tid task) [task_piece task] (t_descriptor torrent);
    mret None
  else mret (Some (t_peers torrent, distribution torrent)).

(** The steps that record a processed piece: the score of the peer, the counter
    ([fetch_add] wraps around, the sum that is compared is a signed addition) and
    the state. Other threads may run in between. *)
Definition worker_score (task : PieceTask) (peer_index : Z) : st Furrent unit :=
  f ← get;
  torrent ← lift (atomic_add_peer_score peer_index (torrent_at (Task.tid task) (f_torrents f)));
  modify (set_torrents (<[Task.tid task := torrent]> (f_torrents f))).

Definition worker_count (task : PieceTask) : st Furrent Z :=
  f ← get;
  let torrent := torrent_at (Task.tid task) (f_torrents f) in
  let old := t_pieces_processed torrent in
  let torrent := mkTorrent (t_tid torrent) (t_descriptor torrent) (t_peers torrent)
    (t_peers_score torrent) (t_update_interval torrent) (t_state torrent) (wrap64 (old + 1)) in
  _ ← modify (set_torrents (<[Task.tid task := torrent]> (f_torrents f)));
  lift (i64 (old + 1)).

Definition worker_complete (task : PieceTask) (processed : Z) : st Furrent unit :=
  f ← get;
  let torrent := torrent_at (Task.tid task) (f_torrents f) in
  if processed =? pieces_count (t_descriptor torrent) then
    modify (set_torrents (<[Task.tid task := set_state Completed torrent]> (f_torrents f)))
  else mret tt.

(** The end of the loop over peers after a completed attempt. *)
Definition worker_finish (task : PieceTask) (peer_index : Z) : st Furrent unit :=
  _ ← worker_score task peer_index;
  processed ← worker_count task;
  worker_complete task processed.
