(* ===== verification/System.v ===== *)
(** * System: the client and its worker threads (Furrent::thread_main of src/furrent.cpp)

    A step relation that composes the interface of [Furrent] with its workers.
    The thread that owns the client runs one operation at a time; workers run
    [thread_main]. Every critical section and every atomic access is one step,
    so steps of different threads interleave; [add_torrent] is one step, because
    it holds the lock that every worker needs before it uses a task. The network
    of a download attempt and the answer of the tracker are chosen anew at every
    step. *)
From S2P Require Import Prelude Hash Descriptor Pieces Peer Torrent Socket Downloader Queue Io.
From S2P Require Import Task Furrent.
Local Open Scope Z_scope.

(** ** The system *)

(** The variables [peers] and [peers_distribution] of [thread_main]. *)
Abbreviation locals := (list Peer * list Z)%type.

(** Where a worker is in [thread_main]. *)
Inductive worker : Type :=
| WIdle
| WTook (task : PieceTask)
| WWorks (task : PieceTask) (peers : list Peer) (weights : list Z)
| WSaved (task : PieceTask) (lc : locals) (peer_index : Z)
| WScored (task : PieceTask) (lc : locals)
| WCounted (task : PieceTask) (lc : locals) (processed : Z).

(** Where the owner of the client is in [remove_torrent]. *)
Inductive client : Type :=
| CIdle
| CPurged (tid : Z)
| CLoaded (tid : Z) (state : TorrentState).

(** A piece of a torrent. *)
Abbreviation key := (Z * Z)%type.
Definition key_of (task : PieceTask) : key := (Task.tid task, index (task_piece task)).

(** [finished] and [purged] record the pieces that were counted as processed and
    those whose tasks were dropped. *)
Record sys : Type := mkSys {
  fur : Furrent;
  workers : list worker;
  owner : client;
  finished : list key;
  purged : list key;
}.

Definition sys_new (d : Io.disk) (n : nat) : sys :=
  mkSys (Furrent_new d) (replicate n WIdle) CIdle [] [].

(** ** Steps *)

(** Steps of worker [i]. *)
Inductive worker_step (i : nat) : sys -> sys -> Prop :=
| w_extract s task f' :
    workers s !! i = Some WIdle -> worker_extract (fur s) = (OK task, f') ->
    worker_step i s (mkSys f' (<[i := WTook task]> (workers s)) (owner s) (finished s) (purged s))
| w_look s task f' ps ws :
    workers s !! i = Some (WTook task) -> worker_look task (fur s) = Ret (Some (ps, ws), f') ->
    worker_step i s (mkSys f' (<[i := WWorks task ps ws]> (workers s)) (owner s) (finished s) (purged s))
| w_paused s task f' :
    workers s !! i = Some (WTook task) -> worker_look task (fur s) = Ret (None, f') ->
    worker_step i s (mkSys f' (<[i := WIdle]> (workers s)) (owner s) (finished s) (purged s))
| w_attempt s task ps ws j w peer n ok task' n' d' :
    workers s !! i = Some (WWorks task ps ws) ->
    ws !! j = Some w -> 0 < w -> ps !! j = Some peer ->
    process peer task (n, f_disk (fur s)) = Ret ((ok, task'), (n', d')) ->
    worker_step i s (mkSys (set_disk d' (fur s))
      (<[i := if (ok : bool) then WSaved task' (ps, ws) (Z.of_nat j) else WWorks task' ps ws]> (workers s))
      (owner s) (finished s) (purged s))
| w_score s task lc j f' :
    workers s !! i = Some (WSaved task lc j) -> worker_score task j (fur s) = Ret (tt, f') ->
    worker_step i s (mkSys f' (<[i := WScored task lc]> (workers s)) (owner s) (finished s) (purged s))
| w_count s task lc p f' :
    workers s !! i = Some (WScored task lc) -> worker_count task (fur s) = Ret (p, f') ->
    worker_step i s (mkSys f' (<[i := WCounted task lc p]> (workers s)) (owner s)
      (key_of task :: finished s) (purged s))
| w_complete s task lc p f' :
    workers s !! i = Some (WCounted task lc p) -> worker_complete task p (fur s) = Ret (tt, f') ->
    worker_step i s (mkSys f' (<[i := WIdle]> (workers s)) (owner s) (finished s) (purged s)).

(** Steps of [remove_torrent]. *)
Inductive owner_step : sys -> sys -> Prop :=
| c_purge s tid f' :
    owner s = CIdle -> remove_tasks tid (fur s) = Ret (tt, f') ->
    owner_step s (mkSys f' (workers s) (CPurged tid) (finished s)
      (filter (fun k => k.1 = tid) (map key_of (f_tasks (fur s))) ++ purged s))
| c_load s tid state f' :
    owner s = CPurged tid -> remove_load tid (fur s) = Ret (state, f') ->
    owner_step s (mkSys f' (workers s) (CLoaded tid state) (finished s) (purged s))
| c_stop s tid state f' :
    owner s = CLoaded tid state -> remove_stop tid state (fur s) = Ret (tt, f') ->
    owner_step s (mkSys f' (workers s) CIdle (finished s) (purged s)).

Inductive work_step : sys -> sys -> Prop :=
| ws_worker i s s' : worker_step i s s' -> work_step s s'
| ws_owner s s' : owner_step s s' -> work_step s s'.

(** All steps. *)
Inductive step : sys -> sys -> Prop :=
| s_work s s' : work_step s s' -> step s s'
| s_add s http filename r f' :
    owner s = CIdle -> add_torrent http filename (fur s) = Ret (r, f') ->
    step s (mkSys f' (workers s) CIdle (finished s) (purged s))
| s_folder s folder r f' :
    owner s = CIdle -> set_download_folder folder (fur s) = Ret (r, f') ->
    step s (mkSys f' (workers s) CIdle (finished s) (purged s)).

Inductive reaches : sys -> Prop :=
| reaches_new d n : reaches (sys_new d n)
| reaches_step s s' : reaches s -> step s s' -> reaches s'.

(** ** Accounting of pieces *)

(** The task a worker has in hand and did not count yet. *)
Definition in_hand (w : worker) : list key :=
  match w with
  | WIdle | WCounted _ _ _ => []
  | WTook t | WWorks t _ _ | WSaved t _ _ | WScored t _ => [key_of t]
  end.

Definition queued (s : sys) : list key := map key_of (f_tasks (fur s)).
Definition held (s : sys) : list key := concat (map in_hand (workers s)).
Definition all_keys (s : sys) : list key := queued s ++ held s ++ finished s ++ purged s.

(** The keys of a torrent. *)
Definition of_torrent (tid : Z) (ks : list key) : list key := filter (fun k => k.1 = tid) ks.

#[export] Instance of_torrent_perm tid : Proper ((≡ₚ) ==> (≡ₚ)) (of_torrent tid).
Proof. intros l k H. unfold of_torrent. by rewrite H. Qed.

Lemma of_torrent_app tid l k : of_torrent tid (l ++ k) = of_torrent tid l ++ of_torrent tid k.
Proof. apply filter_app. Qed.

Definition torrent_of (tid : Z) (s : sys) : Torrent := torrent_at tid (f_torrents (fur s)).

(** The pieces a torrent was registered with: all of them, or none when it is
    not registered or the tracker gave no peer. *)
Definition expected (tid : Z) (t : Torrent) : list key :=
  match t_peers t with
  | [] => []
  | _ => map (pair tid) (seqZ 0 (pieces_count (t_descriptor t)))
  end.

(** ** The invariant *)

(** [T] are the torrents, [ks] all keys, [fin] the finished ones. *)
Record accounted (T : Z -> Torrent) (uid : Z) (ks fin : list key) (ws : list worker) : Prop := {
  ac_keys tid : of_torrent tid ks ≡ₚ expected tid (T tid);
  ac_fin : fin ⊆+ ks;
  ac_processed tid : t_pieces_processed (T tid) = zlen (of_torrent tid fin);
  ac_bound tid : t_peers (T tid) <> [] -> 0 <= pieces_count (t_descriptor (T tid)) <= pieces_max_size;
  ac_completed tid : t_state (T tid) = Completed ->
    t_peers (T tid) <> [] /\ t_pieces_processed (T tid) = pieces_count (t_descriptor (T tid));
  ac_paused tid : t_state (T tid) <> Paused;
  ac_fresh tid : uid <= tid -> t_peers (T tid) = [];
  ac_counted i task lc p : ws !! i = Some (WCounted task lc p) ->
    key_of task ∈ fin /\ p <= zlen (of_torrent (Task.tid task) fin);
}.

Definition sys_ok (s : sys) : Prop :=
  accounted (fun tid => torrent_of tid s) (f_next_uid (fur s)) (all_keys s) (finished s) (workers s).

(** A torrent changed in its scores, or stopped. *)
Record similar (t t' : Torrent) : Prop := {
  sm_peers : t_peers t' = t_peers t;
  sm_descriptor : t_descriptor t' = t_descriptor t;
  sm_processed : t_pieces_processed t' = t_pieces_processed t;
  sm_state : t_state t' = t_state t \/ t_state t' = Stopped;
}.

Lemma similar_refl t : similar t t.
Proof. split; auto. Qed.

Lemma torrent_at_insert tid tid' t m :
  torrent_at tid' (<[tid := t]> m) = if decide (tid' = tid) then t else torrent_at tid' m.
Proof.
  unfold torrent_at. destruct (decide (tid' = tid)) as [->|Hne].
  - by rewrite lookup_insert_eq.
  - by rewrite lookup_insert_ne by congruence.
Qed.

(** No worker is newly counted. *)
Definition counted_from (ws ws' : list worker) : Prop :=
  forall i task lc p, ws' !! i = Some (WCounted task lc p) -> ws !! i = Some (WCounted task lc p).

Lemma counted_refl ws : counted_from ws ws.
Proof. by intros i task lc p Hi. Qed.

Lemma counted_insert ws i w :
  (forall task lc p, w <> WCounted task lc p) -> counted_from ws (<[i := w]> ws).
Proof.
  intros Hw j task lc p Hj. apply list_lookup_insert_Some in Hj as [(_ & Hj & _)|[_ Hj]]; [|done].
  by destruct (Hw task lc p).
Qed.

Lemma accounted_frame T T' uid uid' ks ks' fin ws ws' :
  accounted T uid ks fin ws -> (forall tid, similar (T tid) (T' tid)) -> uid <= uid' ->
  ks' ≡ₚ ks -> counted_from ws ws' -> accounted T' uid' ks' fin ws'.
Proof.
  intros [H1 H2 H3 H4 H5 H6 H7 H8] HT Hu Hk Hw. split.
  - intros tid. rewrite Hk. unfold expected.
    rewrite (sm_peers _ _ (HT tid)), (sm_descriptor _ _ (HT tid)). apply H1.
  - by rewrite Hk.
  - intros tid. rewrite (sm_processed _ _ (HT tid)). apply H3.
  - intros tid. rewrite (sm_peers _ _ (HT tid)), (sm_descriptor _ _ (HT tid)). apply H4.
  - intros tid. rewrite (sm_peers _ _ (HT tid)), (sm_descriptor _ _ (HT tid)), (sm_processed _ _ (HT tid)).
    destruct (sm_state _ _ (HT tid)) as [->| ->]; [apply H5|done].
  - intros tid. destruct (sm_state _ _ (HT tid)) as [->| ->]; [apply H6|done].
  - intros tid Ht. rewrite (sm_peers _ _ (HT tid)). apply H7. lia.
  - intros i task lc p Hi. by apply Hw, H8 in Hi.
Qed.

(** A registered torrent has as many keys as pieces. *)
Lemma accounted_total T uid ks fin ws tid :
  accounted T uid ks fin ws -> t_peers (T tid) <> [] ->
  zlen (of_torrent tid ks) = pieces_count (t_descriptor (T tid)).
Proof.
  intros Ha Hp. pose proof (ac_bound _ _ _ _ _ Ha tid Hp) as Hb. unfold zlen.
  rewrite (ac_keys _ _ _ _ _ Ha tid). unfold expected. destruct (t_peers (T tid)); [done|].
  rewrite length_map, length_seqZ. lia.
Qed.

Lemma submseteq_of_torrent tid l k : l ⊆+ k -> of_torrent tid l ⊆+ of_torrent tid k.
Proof.
  intros [k' ->]%submseteq_Permutation. rewrite of_torrent_app.
  by apply submseteq_inserts_r.
Qed.

Lemma zlen_submseteq {A} (l k : list A) : l ⊆+ k -> zlen l <= zlen k.
Proof. intros H%submseteq_length. unfold zlen. lia. Qed.

(** A key belongs to a registered torrent. *)
Lemma accounted_key T uid ks fin ws k :
  accounted T uid ks fin ws -> k ∈ ks ->
  t_peers (T k.1) <> [] /\ 0 <= k.2 < pieces_count (t_descriptor (T k.1)).
Proof.
  intros Ha Hk. assert (Hin : k ∈ of_torrent k.1 ks) by (by apply list_elem_of_filter).
  rewrite (ac_keys _ _ _ _ _ Ha) in Hin. unfold expected in Hin.
  destruct (t_peers (T k.1)); [by apply not_elem_of_nil in Hin|]. split; [done|].
  apply list_elem_of_fmap in Hin as (i & Hki & Hi%elem_of_seqZ).
  destruct k as [t j]. injection Hki as ->. simpl in *. lia.
Qed.

(** ** Workers change one at a time *)

Lemma held_insert ws i w0 w :
  ws !! i = Some w0 ->
  concat (map in_hand (<[i := w]> ws)) ++ in_hand w0 ≡ₚ concat (map in_hand ws) ++ in_hand w.
Proof. apply concat_map_insert. Qed.

(** A worker that keeps what it has in hand. *)
Lemma held_same ws i w0 w :
  ws !! i = Some w0 -> in_hand w = in_hand w0 ->
  concat (map in_hand (<[i := w]> ws)) ≡ₚ concat (map in_hand ws).
Proof.
  intros Hi Hw. pose proof (held_insert ws i w0 w Hi) as H. rewrite Hw in H.
  by apply Permutation_app_inv_r in H.
Qed.

(** A worker that moves on with the same task, the torrents staying similar. *)
Lemma accounted_move s f' i w0 w :
  sys_ok s -> workers s !! i = Some w0 -> in_hand w = in_hand w0 ->
  (forall task lc p, w <> WCounted task lc p) ->
  f_tasks f' = f_tasks (fur s) -> f_next_uid f' = f_next_uid (fur s) ->
  (forall tid, similar (torrent_of tid s) (torrent_at tid (f_torrents f'))) ->
  sys_ok (mkSys f' (<[i := w]> (workers s)) (owner s) (finished s) (purged s)).
Proof.
  intros Hs Hi Hw Hc Ht Hu HT. unfold sys_ok. cbn [fur workers finished].
  eapply accounted_frame; [exact Hs|exact HT|by rewrite Hu| |by apply counted_insert].
  unfold all_keys, queued, held. cbn. rewrite Ht. by rewrite (held_same _ _ _ _ Hi Hw).
Qed.

(** Putting back the torrent of a task, or a similar one. *)
Lemma similar_insert m tid t :
  similar (torrent_at tid m) t -> forall tid', similar (torrent_at tid' m) (torrent_at tid' (<[tid := t]> m)).
Proof.
  intros Ht tid'. rewrite torrent_at_insert. destruct (decide (tid' = tid)) as [->|]; [done|].
  apply similar_refl.
Qed.

Lemma similar_score i t t' : atomic_add_peer_score i t = Ret t' -> similar t t'.
Proof.
  unfold atomic_add_peer_score. destruct (_ <? _); intros H; inv_ret; [|apply similar_refl].
  split; auto.
Qed.

Lemma process_key peer task n d ok task' n' d' :
  process peer task (n, d) = Ret ((ok, task'), (n', d')) -> key_of task' = key_of task.
Proof.
  unfold process, download. intros H. inv_ret.
  repeat match goal with
  | H : context[match ?x with _ => _ end] |- _ => destruct x; inv_ret
  | H : (_, _) = (_, _) |- _ => injection H as ?; subst
  end; done.
Qed.

(** ** Steps of the workers *)

(** Evaluates the operations of the client in a hypothesis. *)
Ltac run_ops H := cbv [mbind st_bind mret st_ret get modify lift] in H; cbn in H.

Lemma look_spec task f r f' :
  (forall tid, t_state (torrent_at tid (f_torrents f)) <> Paused) ->
  worker_look task f = Ret (r, f') ->
  (exists ps ws, r = Some (ps, ws)) /\
  f' = set_torrents (<[Task.tid task := torrent_at (Task.tid task) (f_torrents f)]> (f_torrents f)) f.
Proof.
  intros Hp H. unfold worker_look in H. run_ops H. destruct (decide _) as [Hd|_].
  - by destruct (Hp (Task.tid task)).
  - injection H as <- <-. split; [by eexists _, _|done].
Qed.

(** No torrent is ever paused. *)
Lemma never_paused s task f' : sys_ok s -> worker_look task (fur s) <> Ret (None, f').
Proof. intros Hs H. apply look_spec in H as [(ps & ws & [=]) _]. apply (ac_paused _ _ _ _ _ Hs). Qed.

Lemma look_ret s task ps ws f' :
  sys_ok s -> worker_look task (fur s) = Ret (Some (ps, ws), f') ->
  f' = set_torrents (<[Task.tid task := torrent_of (Task.tid task) s]> (f_torrents (fur s))) (fur s) /\
  ps = t_peers (torrent_of (Task.tid task) s) /\ ws = t_peers_score (torrent_of (Task.tid task) s).
Proof.
  intros Hs H. unfold worker_look in H. run_ops H. destruct (decide _) as [Hd|_].
  - by destruct (ac_paused _ _ _ _ _ Hs (Task.tid task)).
  - by injection H as <- <- <-.
Qed.

(** Case analysis of a step of a worker, of the owner, and of either, from a
    state in order. *)
Ltac cases_worker Hok H :=
  destruct H as [s task f' Hi H|s task f' ps ws Hi H|s task f' Hi H
    |s task ps ws j x peer n ok task' n' d' Hi Hj Hx Hp H|s task lc j f' Hi H|s task lc p f' Hi H|s task lc p f' Hi H];
  [| |exfalso; by apply (never_paused _ _ _ Hok H)|..].
Ltac cases_owner H := destruct H as [s td f' Ho H|s td st f' Ho H|s td st f' Ho H].
Ltac cases_work Hok H := destruct H as [i s s' H|s s' H]; [cases_worker Hok H|cases_owner H].

Lemma score_spec task j f f' :
  worker_score task j f = Ret (tt, f') ->
  exists t, atomic_add_peer_score j (torrent_at (Task.tid task) (f_torrents f)) = Ret t /\
    f' = set_torrents (<[Task.tid task := t]> (f_torrents f)) f.
Proof.
  intros H. unfold worker_score in H. run_ops H. destruct (atomic_add_peer_score _ _); try done.
  injection H as <-. by eexists.
Qed.

Lemma stop_spec tid state f f' :
  remove_stop tid state f = Ret (tt, f') ->
  exists t, similar (torrent_at tid (f_torrents f)) t /\
    f' = (if decide (state <> Completed /\ state <> Error)
          then set_torrents (<[tid := t]> (f_torrents f)) f else f).
Proof.
  intros H. unfold remove_stop in H. run_ops H. exists (set_state Stopped (torrent_at tid (f_torrents f))).
  split; [split; auto|]. destruct (decide _); by injection H as <-.
Qed.

Lemma count_spec task p f f' :
  worker_count task f = Ret (p, f') ->
  let t := torrent_at (Task.tid task) (f_torrents f) in
  p = t_pieces_processed t + 1 /\ p <= int64_max /\
  f' = set_torrents (<[Task.tid task := mkTorrent (t_tid t) (t_descriptor t) (t_peers t)
         (t_peers_score t) (t_update_interval t) (t_state t) (wrap64 p)]> (f_torrents f)) f.
Proof.
  intros H. unfold worker_count in H. run_ops H. destruct (i64 _) eqn:E; try done.
  apply i64_ret in E as [-> E]. injection H as <- <-. split_and!; [done|unfold int64_max; lia|done].
Qed.

Lemma complete_spec task p f f' :
  worker_complete task p f = Ret (tt, f') ->
  let t := torrent_at (Task.tid task) (f_torrents f) in
  f' = (if p =? pieces_count (t_descriptor t)
        then set_torrents (<[Task.tid task := set_state Completed t]> (f_torrents f)) f else f).
Proof.
  intros H. cbv zeta. unfold worker_complete in H. run_ops H. revert H.
  destruct (p =? _); by intros [= <-].
Qed.

Lemma extract_ok s i task f' :
  sys_ok s -> workers s !! i = Some WIdle -> worker_extract (fur s) = (OK task, f') ->
  sys_ok (mkSys f' (<[i := WTook task]> (workers s)) (owner s) (finished s) (purged s)).
Proof.
  intros Hs Hi H. unfold worker_extract in H.
  destruct (q_extract mkLIFO (f_tasks (fur s))) as [r items] eqn:E. injection H as -> <-.
  apply q_extract_perm in E. eapply accounted_frame; [exact Hs|intros tid; apply similar_refl|done| |].
  - unfold all_keys, queued, held. cbn. rewrite E. cbn.
    pose proof (held_insert _ _ _ (WTook task) Hi) as Hh. cbn [in_hand] in Hh. rewrite app_nil_r in Hh.
    rewrite Hh. rewrite <- !app_assoc. cbn. rewrite !(Permutation_middle _ _ (key_of task)). done.
  - by apply counted_insert.
Qed.

Lemma of_torrent_cons t k fin :
  of_torrent t (k :: fin) = (if decide (k.1 = t) then [k] else []) ++ of_torrent t fin.
Proof. unfold of_torrent. rewrite filter_cons. by destruct (decide (k.1 = t)). Qed.

(** One more processed piece of a torrent. *)
Definition processed_to (p : Z) (t : Torrent) : Torrent :=
  mkTorrent (t_tid t) (t_descriptor t) (t_peers t) (t_peers_score t) (t_update_interval t) (t_state t) p.

Lemma accounted_count T uid ks fin ws i task lc :
  let tid := Task.tid task in let p := t_pieces_processed (T tid) + 1 in
  accounted T uid ks fin ws -> key_of task :: fin ⊆+ ks ->
  accounted (fun t => if decide (t = tid) then processed_to p (T t) else T t) uid ks
    (key_of task :: fin) (<[i := WCounted task lc p]> ws).
Proof.
  intros tid p Ha Hk. pose proof Ha as [H1 H2 H3 H4 H5 H6 H7 H8].
  assert (Hlen : forall t, zlen (of_torrent t (key_of task :: fin)) =
    (if decide (t = tid) then 1 else 0) + zlen (of_torrent t fin)).
  { intros t. rewrite of_torrent_cons. cbn. fold tid.
    destruct (decide (tid = t)), (decide (t = tid)); zlen_lia || congruence. }
  assert (Hp : p = 1 + zlen (of_torrent tid fin)) by (unfold p; rewrite H3; lia).
  split; try (intros t; by destruct (decide (t = tid)) as [->|]; auto; first [apply H1|apply H4|apply H6|apply H7]).
  - done.
  - intros t. rewrite Hlen. destruct (decide (t = tid)) as [->|]; [done|]. apply H3.
  - intros t. destruct (decide (t = tid)) as [->|]; [|apply H5]. intros [Hpe Hc]%H5. exfalso.
    pose proof (accounted_total _ _ _ _ _ tid Ha Hpe) as Ht.
    apply (submseteq_of_torrent tid), zlen_submseteq in Hk. rewrite Hlen, decide_True in Hk by done.
    rewrite H3 in Hc. lia.
  - intros j task' lc' q Hj. rewrite Hlen.
    apply list_lookup_insert_Some in Hj as [(_ & [= <- <- <-] & _)|[_ [Hin Hle]%H8]].
    + fold tid. rewrite decide_True by done. split; [by left|lia].
    + split; [by right|]. destruct (decide _); lia.
Qed.

Lemma count_ok s i task lc p f' :
  sys_ok s -> workers s !! i = Some (WScored task lc) -> worker_count task (fur s) = Ret (p, f') ->
  sys_ok (mkSys f' (<[i := WCounted task lc p]> (workers s)) (owner s) (key_of task :: finished s) (purged s)).
Proof.
  intros Hs Hi H. apply count_spec in H as (Hp & Hmax & ->).
  pose proof (ac_processed _ _ _ _ _ Hs (Task.tid task)) as Hpr. cbv beta in Hpr.
  change (torrent_at (Task.tid task) (f_torrents (fur s))) with (torrent_of (Task.tid task) s) in *.
  assert (Hw : wrap64 p = p) by (apply wrap64_small; unfold int64_max in Hmax; zlen_lia).
  pose proof (held_insert _ _ _ (WCounted task lc p) Hi) as Hh. cbn [in_hand] in Hh.
  rewrite app_nil_r in Hh. assert (Hk : all_keys s ≡ₚ queued s ++ concat (map in_hand
    (<[i := WCounted task lc p]> (workers s))) ++ (key_of task :: finished s) ++ purged s).
  { unfold all_keys, held. by rewrite <- Hh, <- !app_assoc. }
  eapply accounted_frame; [apply (accounted_count _ _ _ _ _ i task lc Hs)| |done| |].
  - rewrite Hk. apply submseteq_inserts_l, submseteq_inserts_l, submseteq_inserts_r. done.
  - intros t. unfold torrent_of. cbn [fur f_torrents set_torrents]. rewrite torrent_at_insert, Hw.
    destruct (decide (t = Task.tid task)) as [->|]; [|apply similar_refl].
    rewrite Hp. apply similar_refl.
  - symmetry. exact Hk.
  - rewrite <- Hp. by intros j task' lc' q Hj.
Qed.

Lemma complete_ok s i task lc p f' :
  sys_ok s -> workers s !! i = Some (WCounted task lc p) -> worker_complete task p (fur s) = Ret (tt, f') ->
  sys_ok (mkSys f' (<[i := WIdle]> (workers s)) (owner s) (finished s) (purged s)).
Proof.
  intros Hs Hi H. apply complete_spec in H. cbv zeta in H. subst f'.
  pose proof Hs as [H1 H2 H3 H4 H5 H6 H7 H8]. set (tid := Task.tid task) in *.
  change (torrent_at tid (f_torrents (fur s))) with (torrent_of tid s).
  destruct (H8 _ _ _ _ Hi) as [Hin Hle]. fold tid in Hle.
  destruct (accounted_key _ _ _ _ _ (key_of task) Hs) as [Hpe _]; [by eapply elem_of_submseteq|].
  cbn in Hpe. fold tid in Hpe.
  destruct (Z.eqb_spec p (pieces_count (t_descriptor (torrent_of tid s)))) as [Hc|_].
  2:{ apply accounted_move with (w0 := WCounted task lc p); try done. intros t. apply similar_refl. }
  assert (Hall : t_pieces_processed (torrent_of tid s) = p).
  { pose proof (accounted_total _ _ _ _ _ tid Hs Hpe) as Ht.
    apply (submseteq_of_torrent tid), zlen_submseteq in H2. rewrite H3. cbv beta in *. lia. }
  assert (Ht : forall t, torrent_of t (mkSys (set_torrents (<[tid := set_state Completed (torrent_of tid s)]>
      (f_torrents (fur s))) (fur s)) (<[i := WIdle]> (workers s)) (owner s) (finished s) (purged s)) =
    if decide (t = tid) then set_state Completed (torrent_of tid s) else torrent_of t s).
  { intros t. unfold torrent_of at 1. cbn. apply torrent_at_insert. }
  assert (Hk : forall f, f_tasks f = f_tasks (fur s) -> all_keys (mkSys f (<[i := WIdle]> (workers s)) (owner s) (finished s) (purged s)) ≡ₚ all_keys s).
  { intros f Hf. unfold all_keys, queued, held. cbn. rewrite Hf. by rewrite (held_same _ _ _ WIdle Hi). }
  split.
  - intros t. rewrite Hk, Ht by done. destruct (decide (t = tid)) as [->|]; apply H1.
  - by rewrite Hk.
  - intros t. rewrite Ht. destruct (decide (t = tid)) as [->|]; apply H3.
  - intros t. rewrite Ht. destruct (decide (t = tid)) as [->|]; apply H4.
  - intros t. rewrite Ht. destruct (decide (t = tid)) as [->|]; [|apply H5]. cbn. split; [done|lia].
  - intros t. rewrite Ht. destruct (decide (t = tid)) as [->|]; [done|apply H6].
  - intros t. rewrite Ht. destruct (decide (t = tid)) as [->|]; apply H7.
  - intros j task' lc' q Hj. apply (counted_insert _ i WIdle) in Hj; [|done]. by eapply H8.
Qed.

(** ** Steps of the owner *)

Lemma purge_ok s tid f' :
  sys_ok s -> remove_tasks tid (fur s) = Ret (tt, f') ->
  sys_ok (mkSys f' (workers s) (CPurged tid) (finished s) (of_torrent tid (queued s) ++ purged s)).
Proof.
  intros Hs H. unfold remove_tasks in H. run_ops H. injection H as <-.
  eapply accounted_frame; [exact Hs|intros t; apply similar_refl|done| |apply counted_refl].
  unfold all_keys, queued, held. cbn. set (ts := f_tasks (fur s)).
  assert (Hq : map key_of (q_mutate (fun t => (t, bool_decide (Task.tid t = tid))) ts) ++
               of_torrent tid (map key_of ts) ≡ₚ map key_of ts).
  { induction ts as [|t ts IH]; [done|]. cbn [map q_mutate]. rewrite of_torrent_cons. cbn [key_of fst].
    case_bool_decide as Hd; [rewrite decide_True by done|rewrite decide_False by done]; cbn.
    - by rewrite <- Permutation_middle, IH.
    - by rewrite IH. }
  etransitivity; [|apply Permutation_app_tail; exact Hq]. rewrite <- !app_assoc.
  apply Permutation_app_head. rewrite (Permutation_app_comm (of_torrent _ _) (purged s)).
  rewrite (Permutation_app_comm (of_torrent _ _)). by rewrite <- !app_assoc.
Qed.

Lemma load_ok s tid state f' :
  sys_ok s -> remove_load tid (fur s) = Ret (state, f') ->
  sys_ok (mkSys f' (workers s) (CLoaded tid state) (finished s) (purged s)).
Proof.
  intros Hs H. unfold remove_load in H. run_ops H. injection H as <- <-.
  eapply accounted_frame; [exact Hs| |done|done|apply counted_refl].
  apply similar_insert, similar_refl.
Qed.

Lemma stop_ok s tid state f' :
  sys_ok s -> remove_stop tid state (fur s) = Ret (tt, f') ->
  sys_ok (mkSys f' (workers s) CIdle (finished s) (purged s)).
Proof.
  intros Hs (t & Ht & ->)%stop_spec. destruct (decide _); [|done].
  eapply accounted_frame; [exact Hs| |done|done|apply counted_refl]. by apply similar_insert.
Qed.

Lemma q_inserts_ret {T} (xs items items' : list T) :
  q_inserts xs items = Ret items' -> items' = items ++ xs.
Proof.
  revert items. induction xs as [|x xs IH]; intros items H; cbn in H.
  - injection H as <-. by rewrite app_nil_r.
  - inv_ret. unfold q_insert in Hx. destruct (_ =? _); inv_ret. apply IH in H as ->.
    by rewrite <- app_assoc.
Qed.

Lemma pieces_index n d idx c ps :
  pieces_loop n d idx c = Ret ps -> map index ps = seqZ idx (Z.of_nat n).
Proof.
  revert idx c ps. induction n as [|n IH]; intros idx c ps H; cbn [pieces_loop] in H; inv_ret; [done|].
  rewrite seqZ_cons by lia. cbn [map]. f_equal.
  - unfold one_piece in Hx. inv_ret. destruct (_ <? _); inv_ret; done.
  - apply IH in Hx0 as ->. f_equal; lia.
Qed.

(** The pieces of a descriptor are numbered. *)
Lemma pieces_numbered d ps :
  pieces d = Ret ps ->
  map index ps = seqZ 0 (pieces_count d) /\ 0 <= pieces_count d <= pieces_max_size.
Proof.
  unfold pieces. destruct (orb _ _) eqn:E; [done|]. apply orb_false_iff in E as [E1 E2].
  intros H. inv_ret. apply pieces_index in H as ->. rewrite Z2Nat.id by lia. split; [done|lia].
Qed.

(** A torrent as [register_torrent] finds it. *)
Definition candidate (tid : Z) (d : TorrentFile) (f : Furrent) (t : Torrent) : Prop :=
  f_torrents f !! tid = Some t \/
  (f_torrents f !! tid = None /\ t_state t = Loading /\ t_pieces_processed t = 0 /\ t_descriptor t = d /\
   scores_ok t /\ Forall (fun x => x = 1) (t_peers_score t)).

Lemma register_spec http tid d f r f' :
  register_torrent http tid d f = Ret (r, f') ->
  exists t, candidate tid d f t /\ f_next_uid f' = f_next_uid f /\ f_disk f' = f_disk f /\
  ((t_peers t = [] /\ r = ERROR FGenericError /\ f_tasks f' = f_tasks f /\
    f_torrents f' = <[tid := set_state Error t]> (f_torrents f)) \/
   (t_peers t <> [] /\ r = OK tid /\ exists ps, pieces (t_descriptor t) = Ret ps /\
    f_tasks f' = f_tasks f ++ map (fun p => PieceTask_new tid p (t_descriptor t)) ps /\
    f_torrents f' = <[tid := set_state Downloading t]> (f_torrents f))).
Proof.
  intros H. unfold register_torrent in H. apply st_bind_ret in H as (f0 & f1 & [= <- <-] & H).
  apply st_bind_ret in H as (m & f1 & Hm & H). unfold lift in Hm. inv_ret. injection Hm as <- <-.
  rename x into m.
  assert (Hc : exists t, candidate tid d f t /\ torrent_at tid m = t /\
    forall t', <[tid := t']> m = <[tid := t']> (f_torrents f)).
  { unfold try_emplace in Hx. destruct (f_torrents f !! tid) as [t|] eqn:E; inv_ret.
    - exists t. unfold torrent_at. rewrite E. split; [by left|done].
    - exists x. apply scores_ok_new in Hx0 as (Hsc & _ & Hde & Hst & Hp & Hone). unfold torrent_at.
      rewrite lookup_insert_eq. split; [by right|]. split; [done|]. intros t'. by rewrite insert_insert_eq. }
  destruct Hc as (t & Hcand & Ht & Hins). cbv zeta in H. rewrite Ht in H. exists t. split; [done|].
  destruct (t_peers t) as [|pe pes] eqn:Ep.
  - run_ops H. injection H as <- <-. cbn. rewrite Hins. split_and!; [done..|]. by left.
  - apply st_bind_ret in H as ([] & f1 & [= <-] & H).
    apply st_bind_ret in H as (ps & f2 & Hps & H). unfold lift in Hps. inv_ret. injection Hps as <- <-.
    apply st_bind_ret in H as ([] & f3 & Hpush & H). unfold push_tasks in Hpush.
    apply st_bind_ret in Hpush as (g & g' & [= <- <-] & Hpush).
    apply st_bind_ret in Hpush as (items & g' & Hi & [= <-]). unfold lift in Hi. inv_ret.
    injection Hi as <- <-. apply q_inserts_ret in Hx1 as ->.
    run_ops H. injection H as <- <-. cbn. rewrite Hins. split_and!; [done..|]. right.
    split_and!; [done..|]. exists x. by split_and!.
Qed.

(** Two clients that differ in their disk, their folder and the next identifier. *)
Definition same_work (f g : Furrent) : Prop := f_tasks g = f_tasks f /\ f_torrents g = f_torrents f.

Lemma on_disk_ret {A} (m : st Io.disk A) f a f' :
  on_disk m f = Ret (a, f') ->
  same_work f f' /\ f_next_uid f' = f_next_uid f /\ m (f_disk f) = Ret (a, f_disk f').
Proof. unfold on_disk. intros H. inv_ret. destruct x as [a' d]. by injection H as <- <-. Qed.

Lemma add_spec http filename f r f' :
  add_torrent http filename f = Ret (r, f') ->
  (f_next_uid f' = f_next_uid f + 1 /\ same_work f f' /\ r = ERROR LoadingTorrentFailed) \/
  exists d0 d g, register_torrent http (f_next_uid f) d g = Ret (r, f') /\ same_work f g /\
    f_next_uid g = f_next_uid f + 1 /\
    prepare_torrent_files (f_download_folder f) d0 (f_disk f) = Ret ((true, d), f_disk g).
Proof.
  intros H. unfold add_torrent in H. apply st_bind_ret in H as (f0 & f1 & [= <- <-] & H).
  apply st_bind_ret in H as (next & f1 & Hn & H). unfold lift in Hn. inv_ret. injection Hn as <- <-.
  apply i64_ret in Hx as [-> _]. apply st_bind_ret in H as ([] & f1 & [= <-] & H).
  destruct (Io.load_file_text _ _); [|by injection H as <- <-; left].
  apply st_bind_ret in H as (tree & f1 & Ht & H). unfold lift in Ht. inv_ret. injection Ht as <- <-.
  destruct x as [tree|]; [|by injection H as <- <-; left].
  apply st_bind_ret in H as (d & f1 & Ht & H). unfold lift in Ht. inv_ret. injection Ht as <- <-.
  apply st_bind_ret in H as ([ok d'] & g & Hd & H). apply on_disk_ret in Hd as (Hw & Hu & Hd). cbn in H.
  destruct ok; cbn in H.
  - right. eexists _, d', g. by split_and!.
  - injection H as <- <-. left. by split_and!.
Qed.

Lemma set_download_folder_spec folder f r f' :
  set_download_folder folder f = Ret (r, f') -> same_work f f' /\ f_next_uid f' = f_next_uid f.
Proof.
  intros H. unfold set_download_folder in H. apply st_bind_ret in H as (f0 & f1 & [= <- <-] & H).
  destruct (Io.exists_ _ _) as [e|]; [|by injection H as <- <-].
  apply st_bind_ret in H as (c & g & Hc & H).
  assert (Hg : same_work f g /\ f_next_uid g = f_next_uid f).
  { destruct e; [by injection Hc as <- <-|by apply on_disk_ret in Hc as (? & ? & _)]. }
  destruct c; [|by injection H as <- <-]. run_ops H. by injection H as <- <-.
Qed.

Lemma of_torrent_pairs t tid (js : list Z) :
  of_torrent t (map (pair tid) js) = if decide (t = tid) then map (pair tid) js else [].
Proof.
  induction js as [|i js IH]; [by destruct (decide _)|]. cbn [map]. rewrite of_torrent_cons, IH. cbn.
  destruct (decide (tid = t)), (decide (t = tid)); done || congruence.
Qed.

Lemma of_torrent_expected t tid x :
  of_torrent t (expected tid x) = if decide (t = tid) then expected tid x else [].
Proof.
  unfold expected. destruct (t_peers x); [by destruct (decide _)|]. apply of_torrent_pairs.
Qed.

(** A torrent without peers has no keys. *)
Lemma accounted_none T uid ks fin ws tid :
  accounted T uid ks fin ws -> t_peers (T tid) = [] ->
  of_torrent tid ks = [] /\ t_pieces_processed (T tid) = 0.
Proof.
  intros Ha Hp. pose proof (ac_keys _ _ _ _ _ Ha tid) as Hk. unfold expected in Hk. rewrite Hp in Hk.
  apply Permutation_nil_r in Hk. split; [done|]. rewrite (ac_processed _ _ _ _ _ Ha).
  pose proof (ac_fin _ _ _ _ _ Ha) as Hf. apply (submseteq_of_torrent tid), zlen_submseteq in Hf.
  rewrite Hk in Hf. change (zlen []) with 0 in Hf. zlen_lia.
Qed.

(** A new torrent at the next identifier. *)
Lemma accounted_register T uid ks fin ws t :
  accounted T uid ks fin ws -> t_pieces_processed t = 0 ->
  t_state t <> Completed -> t_state t <> Paused ->
  (t_peers t <> [] -> 0 <= pieces_count (t_descriptor t) <= pieces_max_size) ->
  accounted (fun tid => if decide (tid = uid) then t else T tid) (uid + 1) (expected uid t ++ ks) fin ws.
Proof.
  intros Ha Hp Hc Hpa Hb. pose proof Ha as [H1 H2 H3 H4 H5 H6 H7 H8].
  destruct (accounted_none _ _ _ _ _ uid Ha) as [Hk H0]; [apply H7; lia|].
  split; try done.
  - intros tid. rewrite of_torrent_app, of_torrent_expected.
    destruct (decide (tid = uid)) as [->|]; [by rewrite Hk, app_nil_r|]. apply H1.
  - by apply submseteq_inserts_l.
  - intros tid. destruct (decide (tid = uid)) as [->|]; [|apply H3]. rewrite Hp, <- H3. done.
  - intros tid. destruct (decide (tid = uid)) as [->|]; [done|apply H4].
  - intros tid. destruct (decide (tid = uid)) as [->|]; [done|apply H5].
  - intros tid. destruct (decide (tid = uid)) as [->|]; [done|apply H6].
  - intros tid Ht. rewrite decide_False by lia. apply H7. lia.
Qed.

Lemma add_ok s http filename r f' :
  sys_ok s -> add_torrent http filename (fur s) = Ret (r, f') ->
  sys_ok (mkSys f' (workers s) CIdle (finished s) (purged s)).
Proof.
  intros Hs [(Hu & [Ht Hm] & _)|(d0 & d & g & H & [Ht Hm] & Hu & _)]%add_spec.
  { eapply accounted_frame; [exact Hs| |cbn; rewrite Hu; lia| |apply counted_refl].
    - intros t. unfold torrent_of. cbn. rewrite Hm. apply similar_refl.
    - unfold all_keys, queued, held. cbn. by rewrite Ht. }
  apply register_spec in H as (t & Hc & Hu' & _ & H). set (uid := f_next_uid (fur s)) in *.
  assert (Hp : t_pieces_processed t = 0 /\ (t_peers t <> [] -> f_torrents g !! uid = None)).
  { destruct Hc as [Hc|(Hc & _ & Hc' & _)]; [|done]. rewrite Hm in Hc.
    assert (E : torrent_of uid s = t) by (unfold torrent_of, torrent_at; by rewrite Hc).
    pose proof (ac_fresh _ _ _ _ _ Hs uid ltac:(done)) as Hpe. cbv beta in Hpe.
    destruct (accounted_none _ _ _ _ _ uid Hs Hpe) as [_ H0]. rewrite E in *. done. }
  destruct Hp as [Hp _]. destruct H as [(Hpe & _ & Ht' & Hm')|(Hpe & _ & ps & Hps & Ht' & Hm')].
  - eapply accounted_frame; [apply (accounted_register _ _ _ _ _ (set_state Error t) Hs); try done| | | |apply counted_refl].
    + intros tid. unfold torrent_of. cbn. rewrite Hm', Hm, torrent_at_insert. apply similar_refl.
    + cbn. rewrite Hu', Hu. done.
    + unfold all_keys, queued, held, expected. cbn. by rewrite Ht', Ht, Hpe.
  - apply pieces_numbered in Hps as [Hps Hb].
    eapply accounted_frame; [apply (accounted_register _ _ _ _ _ (set_state Downloading t) Hs); try done| | | |apply counted_refl].
    + intros tid. unfold torrent_of. cbn. rewrite Hm', Hm, torrent_at_insert. apply similar_refl.
    + cbn. rewrite Hu', Hu. done.
    + unfold all_keys, queued, held, expected. cbn. rewrite Ht', Ht. destruct (t_peers t); [done|].
      rewrite map_app, map_map, <- Hps, map_map. rewrite !app_assoc.
      do 3 apply Permutation_app_tail. apply Permutation_app_comm.
Qed.

(** ** Invariance *)

Lemma sys_ok_new d n : sys_ok (sys_new d n).
Proof.
  assert (Hh : held (sys_new d n) = []).
  { unfold held. cbn. by induction n as [|n IH]. }
  assert (Ht : forall tid, torrent_of tid (sys_new d n) = Torrent_empty).
  { intros tid. unfold torrent_of, torrent_at. cbn. by rewrite lookup_empty. }
  split; try (intros tid; rewrite Ht; done).
  - intros tid. rewrite Ht. unfold all_keys. by rewrite Hh.
  - apply submseteq_nil_l.
  - intros i task lc p Hi. cbn in Hi. by apply lookup_replicate in Hi as [? _].
Qed.

Lemma work_step_ok s s' : sys_ok s -> work_step s s' -> sys_ok s'.
Proof.
  intros Hs H. cases_work Hs H.
  - by apply extract_ok.
  - apply (look_ret _ _ _ _ _ Hs) in H as (-> & _).
    eapply accounted_move; try done. apply similar_insert, similar_refl.
  - apply process_key in H. eapply accounted_move; [done|done| | |done|done|].
    + destruct ok; cbn; by rewrite H.
    + by destruct ok.
    + intros tid. apply similar_refl.
  - apply score_spec in H as (t & Ht & ->). eapply accounted_move; try done.
    by apply similar_insert, (similar_score j).
  - by apply count_ok.
  - by eapply complete_ok.
  - by apply purge_ok.
  - by eapply load_ok.
  - by eapply stop_ok.
Qed.

Lemma step_ok s s' : sys_ok s -> step s s' -> sys_ok s'.
Proof.
  intros Hs H. destruct H as [s s' H|s http filename r f' Ho H|s folder r f' Ho H].
  - by eapply work_step_ok.
  - by eapply add_ok.
  - apply set_download_folder_spec in H as [[Ht Hm] Hu].
    eapply accounted_frame; [exact Hs| |cbn; by rewrite Hu| |apply counted_refl].
    + intros t. unfold torrent_of. cbn. rewrite Hm. apply similar_refl.
    + unfold all_keys, queued, held. cbn. by rewrite Ht.
Qed.

Lemma reaches_ok s : reaches s -> sys_ok s.
Proof. induction 1; [apply sys_ok_new|by eapply step_ok]. Qed.

(** All pieces of a completed torrent are finished. *)
Lemma sys_ok_completed s tid t :
  sys_ok s -> f_torrents (fur s) !! tid = Some t -> t_state t = Completed ->
  of_torrent tid (finished s) ≡ₚ map (pair tid) (seqZ 0 (pieces_count (t_descriptor t))) /\
  of_torrent tid (queued s) = [] /\ of_torrent tid (held s) = [].
Proof.
  intros Hs Ht Hc.
  assert (E : torrent_of tid s = t) by (unfold torrent_of, torrent_at; by rewrite Ht).
  pose proof (ac_completed _ _ _ _ _ Hs tid) as H. cbv beta in H. rewrite E in H.
  destruct (H Hc) as [Hp Hn]. pose proof (ac_processed _ _ _ _ _ Hs tid) as Hz. cbv beta in Hz.
  rewrite E, Hn in Hz. pose proof (accounted_total _ _ _ _ _ tid Hs) as Htot. cbv beta in Htot.
  rewrite E in Htot. specialize (Htot Hp). pose proof (ac_keys _ _ _ _ _ Hs tid) as Hk. cbv beta in Hk.
  rewrite E in Hk. unfold expected in Hk. unfold all_keys in Htot, Hk.
  rewrite !of_torrent_app in Htot, Hk. rewrite !zlen_app in Htot.
  assert (Hq : of_torrent tid (queued s) = []) by (apply zlen_0_nil; zlen_pos; lia).
  assert (Hh : of_torrent tid (held s) = []) by (apply zlen_0_nil; zlen_pos; lia).
  assert (Hu : of_torrent tid (purged s) = []) by (apply zlen_0_nil; zlen_pos; lia).
  rewrite Hq, Hh, Hu, app_nil_r in Hk. split_and!; [|done|done].
  destruct (t_peers t); [done|]. exact Hk.
Qed.

(** ** Claims *)

(** C5: no piece is lost or repeated. In every reachable state each piece of a
    registered torrent is in exactly one place, once: in the queue, in the hands
    of one worker, finished, or dropped by [remove_torrent]; the counter of the
    torrent is the number of finished pieces, and no torrent is ever paused. *)
Theorem pieces_accounted s tid t :
  reaches s -> f_torrents (fur s) !! tid = Some t -> t_peers t <> [] ->
  of_torrent tid (queued s ++ held s ++ finished s ++ purged s) ≡ₚ
    map (pair tid) (seqZ 0 (pieces_count (t_descriptor t))) /\
  t_pieces_processed t = zlen (of_torrent tid (finished s)) /\
  t_state t <> Paused.
Proof.
  intros Hs%reaches_ok Ht Hp.
  assert (E : torrent_of tid s = t) by (unfold torrent_of, torrent_at; by rewrite Ht).
  pose proof (ac_keys _ _ _ _ _ Hs tid) as Hk. pose proof (ac_processed _ _ _ _ _ Hs tid) as Hn.
  pose proof (ac_paused _ _ _ _ _ Hs tid) as Hs'. cbv beta in *. rewrite E in *. split_and!; try done.
  rewrite Hk. unfold expected. by destruct (t_peers t).
Qed.

(** C6: a torrent is reported as completed only when every one of its pieces was
    processed, and then none of them is left in the queue or with a worker. *)
Theorem completed_means_done s tid t :
  reaches s -> f_torrents (fur s) !! tid = Some t -> t_state t = Completed ->
  of_torrent tid (finished s) ≡ₚ map (pair tid) (seqZ 0 (pieces_count (t_descriptor t))) /\
  of_torrent tid (queued s) = [] /\ of_torrent tid (held s) = [].
Proof.
  intros Hs%reaches_ok Ht Hc. by apply sys_ok_completed.
Qed.
