(* ===== verification/Session.v ===== *)
(** * Session: what is on disk when a torrent completes

    The system of [System] from the moment a torrent of one file is registered:
    the file of the torrent through all interleavings of the workers, whatever
    the peers send. *)
From S2P Require Import Prelude Bencode Sha1Spec Hash Descriptor Pieces Peer Torrent Socket.
From S2P Require Import Downloader DownloaderSpec Queue Io Task Furrent System.
Local Open Scope Z_scope.

(** ** Saving and the other files *)

Lemma write_bytes_other filename bs offset dk r dk' path :
  Io.write_bytes filename bs offset dk = Ret (r, dk') -> filename <> path ->
  Io.contents dk' !! path = Io.contents dk !! path /\ Io.refuses dk' = Io.refuses dk.
Proof.
  unfold Io.write_bytes. intros H Hne. run_ops H.
  destruct (Io.refuses dk filename), (Io.contents dk !! filename); try by injection H as <- <-.
  destruct (_ <? _); [done|]. destruct (_ <? _); injection H as <- <-; [done|].
  cbn. by rewrite lookup_insert_ne.
Qed.

Lemma save_loop_other task sps dk r dk' path :
  save_loop task sps dk = Ret (r, dk') ->
  Forall (fun sp => subpiece_path (descriptor task) sp <> path) sps ->
  Io.contents dk' !! path = Io.contents dk !! path /\ Io.refuses dk' = Io.refuses dk.
Proof.
  revert dk. induction sps as [|sp sps IH]; intros dk H Hf; cbn [save_loop] in H.
  { by injection H as <- <-. }
  inversion_clear Hf. apply st_bind_ret in H as (x & d1 & Hx & H). unfold lift in Hx. inv_ret.
  injection Hx as <- <-. apply st_bind_ret in H as (w & d1 & Hw & H).
  apply (write_bytes_other _ _ _ _ _ _ path) in Hw as [Hw1 Hw2]; [|done].
  destruct w as [[]|e].
  - rewrite <- Hw1, <- Hw2. by apply IH.
  - apply st_bind_ret in H as (y & d2 & Hy & H). unfold lift in Hy. inv_ret. injection Hy as <- <-.
    by injection H as <- <-.
Qed.

Lemma save_other task dk r dk' path :
  save task dk = Ret (r, dk') ->
  Forall (fun sp => subpiece_path (descriptor task) sp <> path) (subpieces (task_piece task)) ->
  Io.contents dk' !! path = Io.contents dk !! path /\ Io.refuses dk' = Io.refuses dk.
Proof.
  unfold save. intros H Hf. apply st_bind_ret in H as (ok & d1 & Hl & H).
  apply (save_loop_other _ _ _ _ _ path) in Hl as [<- <-]; [|done].
  destruct ok; [|by injection H as <- <-]. apply st_bind_ret in H as (y & d2 & Hy & H).
  unfold lift in Hy. inv_ret. injection Hy as <- <-. by injection H as <- <-.
Qed.

(** What an attempt did. *)
Lemma process_spec peer task n dk ok task' n' dk' :
  process peer task (n, dk) = Ret ((ok, task'), (n', dk')) ->
  Task.tid task' = Task.tid task /\ task_piece task' = task_piece task /\
  descriptor task' = descriptor task /\
  ((ok = false /\ dk' = dk) \/
   exists x, task_data task' = Some x /\ save task' dk = Ret (ok, dk') /\
     this_piece_length (descriptor task) (index (task_piece task)) = Ret (zlen (d_content x)) /\
     exists h, piece_hashes (descriptor task) !! Z.to_nat (index (task_piece task)) = Some h /\
       sha1_ref (d_content x) = h).
Proof.
  unfold process, download. intros H. inv_ret. destruct x as [[got task1] n1].
  destruct x0 as [[x|e] d1]; inv_ret.
  - injection Hx as <- <- <-. inv_ret. destruct x0 as [saved d2]. inv_ret. injection H as <- <- <- <-.
    split_and!; [done..|]. right. exists x. split_and!; [done|done|..];
    pose proof (holds_try_download (descriptor task) peer (task_piece task) (Downloader_new n)
      (reachable_inv _ _ _ (reach_new _ peer n))) as Hp; rewrite Hx0 in Hp; by destruct Hp as [_ [(_ & Hs1 & Hs2) _]].
  - injection Hx as <- <- <-. injection H as <- <- <- <-. split_and!; [done..|]. by left.
Qed.

(** ** Slices of a written file *)

Lemma slice_splice_same content offset bs :
  0 <= offset -> slice (Io.splice content offset bs) offset (offset + zlen bs) = bs.
Proof.
  intros H. unfold slice. rewrite Io.drop_splice. apply take_app_length'. unfold zlen. lia.
Qed.

Lemma slice_splice_other content offset bs s e :
  0 <= offset -> offset + zlen bs <= zlen content -> 0 <= s <= e -> e <= zlen content ->
  e <= offset \/ offset + zlen bs <= s ->
  slice (Io.splice content offset bs) s e = slice content s e.
Proof.
  intros H0 H1 H2 H3 Hd. apply list_eq. intros k.
  destruct (decide (Z.of_nat k < e - s)) as [Hk|Hk].
  - pose proof (slice_lookup (Io.splice content offset bs) s e (k + Z.to_nat s)) as E1.
    pose proof (slice_lookup content s e (k + Z.to_nat s)) as E2.
    replace (k + Z.to_nat s - Z.to_nat s)%nat with k in * by lia.
    rewrite E1, E2, Io.splice_lookup by lia. rewrite decide_False by lia. done.
  - rewrite !lookup_ge_None_2; [done|..]; unfold slice; rewrite length_take; lia.
Qed.

(** ** Sessions *)

(** The tasks a worker has, and their keys once the piece is on disk. *)
Definition worker_tasks (w : worker) : list PieceTask :=
  match w with
  | WIdle => []
  | WTook t | WWorks t _ _ | WSaved t _ _ | WScored t _ | WCounted t _ _ => [t]
  end.
Definition saved_keys (w : worker) : list key :=
  match w with WSaved t _ _ | WScored t _ => [key_of t] | _ => [] end.

(** What a session relies on: which tasks there may be, and what the disk holds
    when the pieces in [saved] are on it. An attempt on such a task leaves such a
    task, and a piece it saves is on the disk. *)
Class KeepsFiles (task_ok : PieceTask -> Prop) (disk_ok : Io.disk -> (key -> Prop) -> Prop)
  : Prop := {
  kf_weaken dk (saved saved' : key -> Prop) :
    disk_ok dk saved -> (forall k, saved' k -> saved k) -> disk_ok dk saved';
  kf_process peer task n dk ok task' n' dk' saved :
    task_ok task -> disk_ok dk saved -> process peer task (n, dk) = Ret ((ok, task'), (n', dk')) ->
    task_ok task' /\ disk_ok dk' (fun k => saved k \/ (ok = true /\ k = key_of task'));
}.

Section session.
Context (task_ok : PieceTask -> Prop) (disk_ok : Io.disk -> (key -> Prop) -> Prop).
Context {HK : KeepsFiles task_ok disk_ok}.

Definition on_file (s : sys) (k : key) : Prop :=
k ∈ finished s \/ exists j w, workers s !! j = Some w /\ k ∈ saved_keys w.

Record session_ok (s : sys) : Prop := {
se_queue : Forall task_ok (f_tasks (fur s));
se_workers j w : workers s !! j = Some w -> Forall task_ok (worker_tasks w);
se_file : disk_ok (f_disk (fur s)) (on_file s);
}.

(** A worker changes to [w], with tasks that are in order; what is on file was so
  before, or [extra] says so. *)
Lemma session_move s f' i w0 w fin pur extra :
session_ok s -> workers s !! i = Some w0 ->
Forall task_ok (f_tasks f') -> Forall task_ok (worker_tasks w) ->
(forall k, k ∈ fin \/ k ∈ saved_keys w -> k ∈ finished s \/ k ∈ saved_keys w0 \/ extra k) ->
disk_ok (f_disk f') (fun k => on_file s k \/ extra k) ->
session_ok (mkSys f' (<[i := w]> (workers s)) (owner s) fin pur).
Proof.
intros [Hq Hw Hk] Hi Hq' Hw' Hs Hk'. split; [done| |].
- cbn. intros j w' [(_ & <- & _)|[_ Hj]]%list_lookup_insert_Some; [done|]. by eapply Hw.
- apply (kf_weaken _ _ _ Hk'). intros k Hj.
  assert (Hcase : (k ∈ fin \/ k ∈ saved_keys w) \/ on_file s k).
  { destruct Hj as [Hj|(i' & w' & [(_ & <- & _)|[_ Hj]]%list_lookup_insert_Some & Hin)]; [auto..|].
    right. right. by exists i', w'. }
  destruct Hcase as [[Hin|[Hin|Hx]]%Hs|Hin]; [left; by left| |by right|by left].
  left. right. by exists i, w0.
Qed.

(** The common case: nothing new is on file. *)
Lemma session_keep s f' i w0 w fin pur :
session_ok s -> workers s !! i = Some w0 ->
Forall task_ok (f_tasks f') -> Forall task_ok (worker_tasks w) ->
(forall k, k ∈ fin \/ k ∈ saved_keys w -> k ∈ finished s \/ k ∈ saved_keys w0) ->
f_disk f' = f_disk (fur s) ->
session_ok (mkSys f' (<[i := w]> (workers s)) (owner s) fin pur).
Proof.
intros Hs Hi Hq Hw Hk Hdk. apply (session_move _ _ _ _ _ _ _ (fun _ => False) Hs Hi Hq Hw).
- intros k [Hin|Hin]%Hk; auto.
- rewrite Hdk. apply (kf_weaken _ _ _ (se_file _ Hs)). intros j [Hj|[]]. done.
Qed.

(** The owner does something else than adding work. *)
Lemma session_owner s f' o pur :
session_ok s -> Forall task_ok (f_tasks f') -> f_disk f' = f_disk (fur s) ->
session_ok (mkSys f' (workers s) o (finished s) pur).
Proof. intros [H1 H2 H3] Hq Hdk. split; [done|done|]. cbn. rewrite Hdk. done. Qed.

Lemma q_mutate_forall (P : PieceTask -> Prop) (drop : PieceTask -> bool) ts :
Forall P ts -> Forall P (q_mutate (fun t => (t, drop t)) ts).
Proof. induction 1; cbn; [done|]. destruct (drop _); [done|]. by constructor. Qed.

Lemma session_attempt s i task ps ws j ok task' n peer n' dk' :
session_ok s -> workers s !! i = Some (WWorks task ps ws) ->
process peer task (n, f_disk (fur s)) = Ret ((ok, task'), (n', dk')) ->
session_ok (mkSys (set_disk dk' (fur s))
  (<[i := if (ok : bool) then WSaved task' (ps, ws) j else WWorks task' ps ws]> (workers s))
  (owner s) (finished s) (purged s)).
Proof.
intros Hs Hi H. pose proof (se_workers _ Hs _ _ Hi) as Ht. inversion_clear Ht.
destruct (kf_process _ _ _ _ _ _ _ _ _ ltac:(done) (se_file _ Hs) H) as [Ht' Hk].
apply (session_move _ _ _ _ _ _ _ (fun k => ok = true /\ k = key_of task') Hs Hi).
- apply Hs.
- destruct ok; by constructor.
- intros k [Hk'|Hk']; [by left|]. right. right. destruct ok; [|by apply not_elem_of_nil in Hk'].
  by apply list_elem_of_singleton in Hk' as ->.
- exact Hk.
Qed.

Lemma session_step s s' : sys_ok s -> session_ok s -> work_step s s' -> session_ok s'.
Proof.
intros Hok Hs H. cases_work Hok H.
all: try pose proof (se_workers _ Hs _ _ Hi) as Ht.
- unfold worker_extract in H. destruct (q_extract mkLIFO (f_tasks (fur s))) as [r items] eqn:E.
  injection H as -> <-. apply q_extract_perm in E. pose proof (se_queue _ Hs) as Hq. rewrite E in Hq.
  inversion_clear Hq. apply (session_keep _ _ _ _ _ _ _ Hs Hi); [done|by constructor|naive_solver|done].
- apply (look_ret _ _ _ _ _ Hok) in H as (-> & _).
  apply (session_keep _ _ _ _ _ _ _ Hs Hi); [apply Hs|done|naive_solver|done].
- by eapply session_attempt.
- apply score_spec in H as (t & _ & ->).
  apply (session_keep _ _ _ _ _ _ _ Hs Hi); [apply Hs|done|naive_solver|done].
- apply count_spec in H as (_ & _ & ->).
  apply (session_keep _ _ _ _ _ _ _ Hs Hi); [apply Hs|done| |done].
  intros k [[->|Hk]%elem_of_cons|Hk]; [right; by left|by left|by apply not_elem_of_nil in Hk].
- apply complete_spec in H. cbv zeta in H.
  apply (session_keep _ _ _ _ _ _ _ Hs Hi); [|done|naive_solver|]; subst f'; destruct (_ =? _); try done; apply Hs.
- unfold remove_tasks in H. run_ops H. injection H as <-.
  apply session_owner; [done| |done]. apply q_mutate_forall, Hs.
- unfold remove_load in H. run_ops H. injection H as <- <-. apply session_owner; [done|apply Hs|done].
- apply stop_spec in H as (t' & _ & ->). apply session_owner; [done|..]; destruct (decide _); try done; apply Hs.
Qed.

(** Runs of the workers and of [remove_torrent]. *)
Definition work_steps : sys -> sys -> Prop := rtc work_step.

Lemma work_steps_reach s s' : reaches s -> work_steps s s' -> reaches s'.
Proof.
intros Hs H. induction H as [s|s s1 s2 Hst _ IH]; [done|]. apply IH.
by eapply reaches_step; [|apply s_work].
Qed.

Lemma session_steps s s' :
sys_ok s -> session_ok s -> work_steps s s' -> sys_ok s' /\ session_ok s'.
Proof.
intros Hok Hs H. induction H as [s|s s1 s2 Hst _ IH]; [done|]. apply IH.
- by eapply work_step_ok.
- by eapply session_step.
Qed.

End session.

(** The descriptor and the peers of a torrent do not change. *)
Lemma work_step_torrent tid s s' t :
sys_ok s -> work_step s s' -> f_torrents (fur s) !! tid = Some t ->
exists t', f_torrents (fur s') !! tid = Some t' /\ t_descriptor t' = t_descriptor t /\
  t_peers t' = t_peers t.
Proof.
intros Hok H Ht.
assert (Hins : forall tid' x, t_descriptor x = t_descriptor (torrent_at tid' (f_torrents (fur s))) ->
  t_peers x = t_peers (torrent_at tid' (f_torrents (fur s))) ->
  exists t', <[tid' := x]> (f_torrents (fur s)) !! tid = Some t' /\ t_descriptor t' = t_descriptor t /\
    t_peers t' = t_peers t).
{ intros tid' x Hx Hpx. destruct (decide (tid' = tid)) as [->|Hne].
  - rewrite lookup_insert_eq. eexists. split; [done|]. rewrite Hx, Hpx. unfold torrent_at. by rewrite Ht.
  - rewrite lookup_insert_ne by done. by exists t. }
cases_work Hok H; cbn.
- unfold worker_extract in H. destruct (q_extract _ _). injection H as _ <-. by exists t.
- apply (look_ret _ _ _ _ _ Hok) in H as (-> & _). by apply Hins.
- by exists t.
- apply score_spec in H as (x & Hx & ->). by apply similar_score in Hx as []; apply Hins.
- apply count_spec in H as (_ & _ & ->). by apply Hins.
- apply complete_spec in H. cbv zeta in H. subst f'. destruct (_ =? _); [by apply Hins|by exists t].
- unfold remove_tasks in H. run_ops H. injection H as <-. by exists t.
- unfold remove_load in H. run_ops H. injection H as <- <-. by apply Hins.
- apply stop_spec in H as (x & [] & ->). destruct (decide _); [by apply Hins|by exists t].
Qed.

Lemma work_steps_descriptor tid s s' t t' :
sys_ok s -> work_steps s s' -> f_torrents (fur s) !! tid = Some t ->
f_torrents (fur s') !! tid = Some t' -> t_descriptor t' = t_descriptor t.
Proof.
intros Hok H. revert t. induction H as [s|s s1 s2 Hst _ IH]; intros t Ht Ht'; [congruence|].
destruct (work_step_torrent _ _ _ _ Hok Hst Ht) as (t1 & Ht1 & <- & _). apply IH; [|done|done].
by eapply work_step_ok.
Qed.

(** A completed torrent has all its pieces on file. *)
Lemma completed_on_file tid s t i :
sys_ok s -> f_torrents (fur s) !! tid = Some t -> t_state t = Completed ->
0 <= i < pieces_count (t_descriptor t) -> on_file s (tid, i).
Proof.
intros Hok Ht Hc Hi. left. destruct (sys_ok_completed _ _ _ Hok Ht Hc) as (Hall & _ & _).
assert (Hin : (tid, i) ∈ of_torrent tid (finished s)).
{ rewrite Hall. apply list_elem_of_fmap. exists i. split; [done|]. apply elem_of_seqZ. lia. }
by apply list_elem_of_filter in Hin as [_ Hin].
Qed.

(** ** Torrents of one file *)

Section single_file.
Context (d : TorrentFile) (f : File) (tid : Z).
Context (Hd : layout_wf d) (Hf : files d = [f]).

(** A task of the torrent, and a task that writes other files. *)
Definition mine (task : PieceTask) : Prop :=
Task.tid task = tid /\ descriptor task = d /\
exists i, 0 <= i < pieces_count d /\ task_piece task = single_piece d f i.
Definition foreign (task : PieceTask) : Prop :=
Task.tid task <> tid /\
Forall (fun sp => subpiece_path (descriptor task) sp <> file_path d f) (subpieces (task_piece task)).
Definition task_ok (task : PieceTask) : Prop := mine task \/ foreign task.

(** The bytes of piece [i] in the file. *)
Definition piece_in (content : bytes) (i : Z) : bytes :=
slice content (i * piece_length d) (piece_end d i).

(** The file is there in its length, and the pieces in [saved] verify. *)
Definition file_ok (dk : Io.disk) (saved : key -> Prop) : Prop :=
Io.refuses dk (file_path d f) = None /\
exists content, Io.contents dk !! file_path d f = Some content /\ zlen content = tlength d /\
  forall i, 0 <= i < pieces_count d -> saved (tid, i) ->
    piece_hashes d !! Z.to_nat i = Some (sha1_ref (piece_in content i)).

Lemma pieces_disjoint i j :
0 <= i < pieces_count d -> 0 <= j < pieces_count d -> i <> j ->
piece_end d i <= j * piece_length d \/ piece_end d j <= i * piece_length d.
Proof. intros Hi Hj Hne. pose proof (lw_plen _ Hd). unfold piece_end. nia. Qed.

(** Saving a verified piece of the torrent. *)
Lemma save_mine task i x dk ok dk' saved :
descriptor task = d -> task_piece task = single_piece d f i -> 0 <= i < pieces_count d ->
task_data task = Some x -> zlen (d_content x) = piece_end d i - i * piece_length d ->
piece_hashes d !! Z.to_nat i = Some (sha1_ref (d_content x)) ->
file_ok dk saved -> save task dk = Ret (ok, dk') ->
ok = true /\ file_ok dk' (fun k => saved k \/ k = (tid, i)).
Proof.
intros Ed Ep Hi Hx Hz Hh (Hr & content & Hc & Hl & Hv) H.
destruct (piece_range d Hd i Hi) as (H1 & H2 & _). pose proof (lw_bound _ Hd) as Hb.
rewrite (save_single_run task (single_subpiece d f i) x dk content) in H; try done;
  try (rewrite Ed; done); [|by rewrite Ep|lia|simpl; lia].
injection H as <- <-. split; [done|]. rewrite Ed. split; [done|].
eexists. cbn. rewrite lookup_insert_eq. split; [done|].
split; [rewrite Io.zlen_splice; lia|]. intros j Hj Hs. unfold piece_in.
destruct (decide (j = i)) as [->|Hne].
- replace (piece_end d i) with (i * piece_length d + zlen (d_content x)) by lia.
  by rewrite slice_splice_same by lia.
- destruct (piece_range d Hd j Hj) as (H1' & H2' & _). destruct (pieces_disjoint i j Hi Hj) as [?|?]; [done|..].
  all: rewrite slice_splice_other by lia; destruct Hs as [Hs|[= ->]]; [by apply Hv|done].
Qed.

(** An attempt on any task. *)
Lemma process_file peer task n dk ok task' n' dk' saved :
task_ok task -> file_ok dk saved -> process peer task (n, dk) = Ret ((ok, task'), (n', dk')) ->
task_ok task' /\
file_ok dk' (fun k => saved k \/ (ok = true /\ k = key_of task')).
Proof.
intros Ht Hk H. apply process_spec in H as (E1 & E2 & E3 & H).
assert (Ht' : task_ok task').
{ unfold task_ok, mine, foreign. rewrite E1, E2, E3. exact Ht. }
split; [done|]. destruct H as [[-> ->]|(x & Hx & Hs & Hl & h & Hh & Hsha)].
{ destruct Hk as (Hr & c & Hc & Hz & Hv). split; [done|]. exists c. split_and!; [done..|].
  intros i Hi [Hi'|[[=] _]]. by apply Hv. }
rewrite <- E2, <- E3 in *. destruct Ht' as [(Et & Ed & i & Hi & Ep)|[Et Hne]].
- rewrite Ed, Ep in *. cbn [index single_piece] in *. rewrite (this_piece_length_ok d Hd i Hi) in Hl.
  injection Hl as Hl. subst h.
  destruct (save_mine task' i x dk ok dk' saved Ed Ep Hi Hx (eq_sym Hl) Hh Hk Hs) as [-> (Hr & c & Hc & Hz & Hv)].
  split; [done|]. exists c. split_and!; [done..|]. intros j Hj [Hj'|[_ Hj']]; apply Hv; auto.
  right. unfold key_of in Hj'. by rewrite Et, Ep in Hj'.
- destruct Hk as (Hr & c & Hc & Hz & Hv).
  destruct (save_other _ _ _ _ (file_path d f) Hs Hne) as [Hc' Hr'].
  split; [by rewrite Hr'|]. exists c. rewrite Hc'. split_and!; [done..|].
  intros j Hj [Hj'|[_ Hj']]; [by apply Hv|]. by injection Hj' as Hj' _; rewrite <- Hj' in Et.
Qed.

Lemma file_ok_weaken dk (saved saved' : key -> Prop) :
file_ok dk saved -> (forall k, saved' k -> saved k) -> file_ok dk saved'.
Proof.
intros (Hr & c & Hc & Hz & Hv) H. split; [done|]. exists c. split_and!; [done..|]. auto.
Qed.

#[export] Instance single_keeps : KeepsFiles task_ok file_ok.
Proof. split; [apply file_ok_weaken|apply process_file]. Qed.

(** The file of a completed torrent. *)
Lemma session_completed s t :
sys_ok s -> session_ok task_ok file_ok s -> f_torrents (fur s) !! tid = Some t -> t_descriptor t = d ->
t_state t = Completed ->
exists content, Io.contents (f_disk (fur s)) !! file_path d f = Some content /\
  zlen content = tlength d /\
  forall i, 0 <= i < pieces_count d ->
    piece_hashes d !! Z.to_nat i = Some (sha1_ref (piece_in content i)).
Proof.
intros Hok Hs Ht Hdt Hc. destruct (se_file _ _ _ Hs) as (_ & content & Hcon & Hz & Hv).
exists content. split_and!; [done..|]. intros i Hi. apply Hv; [done|]. apply (completed_on_file tid _ t); try done.
by rewrite Hdt.
Qed.
End single_file.

(** ** Preparing the files *)

Lemma before_last_slash_none l : "/"%byte ∉ l -> Io.before_last_slash l = None.
Proof.
  induction l as [|c l IH]; intros Hl; [done|]. apply not_elem_of_cons in Hl as [Hc Hl]. cbn.
  rewrite IH by done. by rewrite decide_False by congruence.
Qed.

Lemma before_last_slash_app a l :
  "/"%byte ∉ l -> Io.before_last_slash (a ++ str "/" ++ l) = Some a.
Proof.
  intros Hl. induction a as [|c a IH].
  - change ([] ++ str "/" ++ l) with ("/"%byte :: l). cbn [Io.before_last_slash].
    rewrite before_last_slash_none by done. by rewrite decide_True.
  - cbn [app Io.before_last_slash]. by rewrite IH.
Qed.

(** The directory and the last section of a path. *)
Lemma join_path_last dir sections l :
  last sections = Some l -> exists a, dir ++ str "/" ++ join_path sections = a ++ str "/" ++ l.
Proof.
  revert dir. induction sections as [|x sections IH]; intros dir Hl; [done|].
  destruct sections as [|y sections].
  - injection Hl as ->. by exists dir.
  - destruct (IH (dir ++ str "/" ++ x)) as [a Ha]; [done|]. exists a. rewrite <- Ha.
    cbn [join_path]. by rewrite <- !app_assoc.
Qed.

(** A file whose name has no slash in its last section. *)
Definition plain_name (f : File) : Prop :=
  exists l, last (filepath f) = Some l /\ "/"%byte ∉ l.

Lemma touch_spec path size dk r dk' :
  Io.touch path size dk = Ret (OK r, dk') ->
  Io.refuses dk' path = None /\ exists c, Io.contents dk' !! path = Some c /\ zlen c = size.
Proof.
  unfold Io.touch. intros H. run_ops H. unfold Io.exists_ in H.
  destruct (Io.refuses dk path) eqn:Hr; [done|]. case_bool_decide; [done|].
  destruct (Z.eqb_spec size 0); [done|]. destruct (Z.ltb_spec size 0); [done|].
  injection H as <- <-. cbn. rewrite lookup_insert_eq. split; [done|]. eexists. split; [done|].
  unfold zlen, Io.splice. rewrite !length_app, length_take, length_drop, length_app, length_replicate.
  change (length (str "1")) with 1%nat. simpl length. lia.
Qed.

Lemma create_directories_ok path skip dk dir dk' :
  Io.create_directories path skip dk = Ret (OK dir, dk') ->
  (if skip then Io.before_last_slash path else Some path) = Some dir /\ Io.refuses dk' = Io.refuses dk.
Proof.
  unfold Io.create_directories. intros H. destruct (if skip then _ else _) as [p|]; [|done].
  run_ops H. destruct (Io.refuses dk p); [done|]. case_bool_decide; [done|]. by injection H as <- <-.
Qed.

Lemma touch_new path size dk r dk' :
  Io.touch path size dk = Ret (OK r, dk') ->
  Io.refuses dk path = None /\ Io.contents dk !! path = None /\ Io.refuses dk' = Io.refuses dk /\
  exists c, Io.contents dk' = <[path := c]> (Io.contents dk) /\ zlen c = size.
Proof.
  intros H. pose proof (touch_spec _ _ _ _ _ H) as (_ & c & Hc & Hz). revert H.
  unfold Io.touch. intros H. run_ops H. unfold Io.exists_ in H.
  destruct (Io.refuses dk path) eqn:Hr; [done|]. case_bool_decide as Hex; [done|].
  destruct (Z.eqb_spec size 0); [done|]. destruct (Z.ltb_spec size 0); [done|].
  injection H as <- <-. cbn in Hc |- *. rewrite insert_insert_eq in Hc |- *.
  rewrite lookup_insert_eq in Hc. injection Hc as ->. split_and!; [done| |done|by eexists].
  apply eq_None_not_Some. tauto.
Qed.

Lemma create_directories_same path skip dk r dk' :
  Io.create_directories path skip dk = Ret (r, dk') ->
  Io.contents dk' = Io.contents dk /\ Io.refuses dk' = Io.refuses dk.
Proof.
  unfold Io.create_directories. intros H. destruct (if skip then _ else _) as [p|]; [|by injection H as <- <-].
  run_ops H. destruct (Io.refuses dk p); [by injection H as <- <-|].
  case_bool_decide; by injection H as <- <-.
Qed.

Section prepared.
Context (dir : bytes).
Abbreviation path_of := (fun f => dir ++ str "/" ++ join_path (filepath f)).

(** Creating one file. *)
Lemma create_file f fs dk dk' :
create_files dir (f :: fs) dk = Ret (true, dk') -> plain_name f -> zlen (filepath f) <= int64_max ->
exists c dk1, Io.contents dk !! path_of f = None /\ Io.refuses dk (path_of f) = None /\
  Io.contents dk1 = <[path_of f := c]> (Io.contents dk) /\ Io.refuses dk1 = Io.refuses dk /\
  zlen c = flength f /\ create_files dir fs dk1 = Ret (true, dk').
Proof.
intros H (l & Hl & Hns) Hz. cbn [create_files] in H.
apply st_bind_ret in H as (nm & dk3 & Hn & H). unfold lift in Hn.
rewrite filename_join in Hn by done. inv_ret. injection Hn as <- <-.
apply st_bind_ret in H as (r & dk4 & H3 & H). destruct r as [dir2|]; [|done].
pose proof (create_directories_same _ _ _ _ _ H3) as [Ec Er]. apply create_directories_ok in H3 as [Hdir _].
destruct (join_path_last dir (filepath f) l Hl) as [a Ha]. rewrite Ha, before_last_slash_app in Hdir by done.
injection Hdir as <-. rewrite Hl in H. apply st_bind_ret in H as (l' & dk5 & [= <- <-] & H).
apply st_bind_ret in H as (r & dk6 & H4 & H). rewrite <- Ha in H4.
destruct r as [[]|]; [|done]. apply touch_new in H4 as (H4 & H5 & H6 & c & H7 & H8).
rewrite Er in *. rewrite Ec in *. exists c, dk6. by split_and!.
Qed.

Lemma create_files_spec fs dk dk' :
create_files dir fs dk = Ret (true, dk') -> Forall plain_name fs ->
Forall (fun f => zlen (filepath f) <= int64_max) fs ->
Io.refuses dk' = Io.refuses dk /\
(forall p c, Io.contents dk !! p = Some c -> Io.contents dk' !! p = Some c) /\
NoDup (map (fun f => join_path (filepath f)) fs) /\
forall f, f ∈ fs -> Io.contents dk !! path_of f = None /\ Io.refuses dk (path_of f) = None /\
  exists c, Io.contents dk' !! path_of f = Some c /\ zlen c = flength f.
Proof.
revert dk. induction fs as [|f fs IH]; intros dk H Hn Hz.
{ injection H as <-. split_and!; [done..|constructor|]. intros f Hf. by apply not_elem_of_nil in Hf. }
inversion_clear Hn. inversion_clear Hz.
destruct (create_file f fs dk dk' H) as (c & dk1 & Hno & Hr & Hc & Hr1 & Hlen & Hrest); [done..|].
destruct (IH dk1 Hrest) as (Hr2 & Hkeep & Hnd & Hfs); [done..|].
assert (Hf' : Io.contents dk' !! path_of f = Some c).
{ apply Hkeep. by rewrite Hc, lookup_insert_eq. }
split_and!.
- by rewrite Hr2.
- intros p c' Hp. apply Hkeep. rewrite Hc, lookup_insert_ne; [done|]. intros <-. congruence.
- constructor; [|done]. intros (g & Hg & Hin)%list_elem_of_fmap. destruct (Hfs g Hin) as (Hng & _).
  rewrite <- Hg, Hc, lookup_insert_eq in Hng. done.
- intros g [->|Hin]%elem_of_cons; [split_and!; [done..|by exists c]|].
  destruct (Hfs g Hin) as (Hng & Hrg & Hcg). rewrite Hr1 in Hrg. split_and!; [|done..].
  rewrite Hc in Hng. destruct (decide (path_of f = path_of g)) as [E|Hne].
  + rewrite E, lookup_insert_eq in Hng. done.
  + by rewrite lookup_insert_ne in Hng.
Qed.
End prepared.

(** Preparing succeeds by creating the files in a directory. *)
Lemma prepare_creates folder d0 dk d dk' :
  prepare_torrent_files folder d0 dk = Ret ((true, d), dk') ->
  exists dk1, Io.contents dk1 = Io.contents dk /\ Io.refuses dk1 = Io.refuses dk /\
    create_files (folder_name d) (files d) dk1 = Ret (true, dk').
Proof.
  intros H. unfold prepare_torrent_files in H.
  apply st_bind_ret in H as (d1 & d2 & [= <- <-] & H).
  apply st_bind_ret in H as (r & dk1 & H1 & H). destruct r as [dir|]; [|done].
  apply st_bind_ret in H as (ok & dk2 & H2 & H). destruct ok.
  2:{ apply st_bind_ret in H as (? & ? & _ & H). done. }
  injection H as <- <-. exists dk1. by apply create_directories_same in H1 as [-> ->].
Qed.

Lemma prepare_files folder d0 dk d dk' :
  prepare_torrent_files folder d0 dk = Ret ((true, d), dk') -> Forall plain_name (files d) ->
  Forall (fun f => zlen (filepath f) <= int64_max) (files d) ->
  NoDup (map (fun f => join_path (filepath f)) (files d)) /\
  forall f, f ∈ files d -> Io.refuses dk' (file_path d f) = None /\
    exists c, Io.contents dk' !! file_path d f = Some c /\ zlen c = flength f.
Proof.
  intros (dk1 & _ & _ & H)%prepare_creates Hn Hz.
  destruct (create_files_spec _ _ _ _ H Hn Hz) as (Hr & _ & Hnd & Hfs). split; [done|].
  intros f Hf. destruct (Hfs f Hf) as (_ & Hrf & c & Hc & Hl). rewrite Hr. split; [done|]. by exists c.
Qed.

(** The files are new, and those that exist keep their content. *)
Lemma prepare_keeps folder d0 dk d dk' :
  prepare_torrent_files folder d0 dk = Ret ((true, d), dk') -> Forall plain_name (files d) ->
  Forall (fun f => zlen (filepath f) <= int64_max) (files d) ->
  Io.refuses dk' = Io.refuses dk /\
  (forall p c, Io.contents dk !! p = Some c -> Io.contents dk' !! p = Some c) /\
  forall f, f ∈ files d -> Io.contents dk !! file_path d f = None.
Proof.
  intros (dk1 & <- & <- & H)%prepare_creates Hn Hz.
  destruct (create_files_spec _ _ _ _ H Hn Hz) as (Hr & Hk & _ & Hfs). split_and!; [done..|].
  intros f Hf. by destruct (Hfs f Hf) as (Hno & _).
Qed.

(** ** From the registration on *)

(** The tasks that exist before a torrent is added. *)
Definition known_task (s : sys) (task : PieceTask) : Prop :=
  task ∈ f_tasks (fur s) \/ exists j w, workers s !! j = Some w /\ task ∈ worker_tasks w.

(** They belong to other torrents. *)
Lemma known_task_old s task :
  sys_ok s -> known_task s task -> Task.tid task <> f_next_uid (fur s).
Proof.
  intros Hok Hk E.
  assert (Hin : key_of task ∈ all_keys s).
  { destruct Hk as [Hk|(j & w & Hj & Hk)].
    - apply elem_of_app. left. apply list_elem_of_fmap. by exists task.
    - destruct w as [|t|t ps ws|t lc i|t lc|t lc p]; cbn in Hk; try by apply not_elem_of_nil in Hk.
      all: apply list_elem_of_singleton in Hk as ->.
      5:{ apply (ac_counted _ _ _ _ _ Hok) in Hj as [Hin _]. eapply elem_of_submseteq; [done|].
          apply (ac_fin _ _ _ _ _ Hok). }
      all: apply elem_of_app; right; apply elem_of_app; left; unfold held;
        apply list_elem_of_In, in_concat; exists [key_of t]; split; [|by left];
        apply list_elem_of_In, list_elem_of_fmap; eexists; split; [|by eapply list_elem_of_lookup_2]; done. }
  destruct (accounted_key _ _ _ _ _ _ Hok Hin) as [Hp _]. cbn in Hp. apply Hp.
  apply (ac_fresh _ _ _ _ _ Hok). rewrite E. done.
Qed.

(** No task that exists already writes the file at [path]. *)
Definition unshared (s : sys) (path : bytes) : Prop :=
  forall task, known_task s task ->
    Forall (fun sp => subpiece_path (descriptor task) sp <> path) (subpieces (task_piece task)).

(** A torrent that is added is new. *)
Lemma added_new s http filename tid f' t0 :
  sys_ok s -> add_torrent http filename (fur s) = Ret (OK tid, f') -> f_torrents f' !! tid = Some t0 ->
  tid = f_next_uid (fur s) /\ exists ps d0, pieces (t_descriptor t0) = Ret ps /\
    f_tasks f' = f_tasks (fur s) ++ map (fun p => PieceTask_new tid p (t_descriptor t0)) ps /\
    prepare_torrent_files (f_download_folder (fur s)) d0 (f_disk (fur s)) =
      Ret ((true, t_descriptor t0), f_disk f').
Proof.
  intros Hok [(_ & _ & [=])|(d0 & d & g & H & [Hgt Hgm] & Hu & Hprep)]%add_spec Ht0.
  apply register_spec in H as (t & Hc & _ & Hdk & [(_ & [=] & _)|(Hpe & [= ->] & ps & Hps & Ht & Hm)]).
  rewrite Hm, lookup_insert_eq in Ht0. injection Ht0 as <-. cbn [t_descriptor set_state].
  destruct Hc as [Hc|(_ & _ & _ & <- & _)].
  { exfalso. apply Hpe. rewrite Hgm in Hc. pose proof (ac_fresh _ _ _ _ _ Hok (f_next_uid (fur s)) ltac:(done)) as E.
    cbv beta in E. unfold torrent_of, torrent_at in E. by rewrite Hc in E. }
  split; [done|]. exists ps, d0. by rewrite Hgt, Hdk in *.
Qed.

(** The other torrents stay as they are, and the queue does if nothing is added. *)
Lemma added_others s http filename r f' id :
  add_torrent http filename (fur s) = Ret (r, f') -> id <> f_next_uid (fur s) ->
  f_torrents f' !! id = f_torrents (fur s) !! id.
Proof.
  intros [(_ & [_ Hm] & _)|(d0 & d & g & H & [_ Hgm] & _)]%add_spec Hne; [by rewrite Hm|].
  apply register_spec in H as (t & _ & _ & _ & [(_ & _ & _ & Hm)|(_ & _ & ps & _ & _ & Hm)]).
  all: by rewrite Hm, lookup_insert_ne, Hgm.
Qed.

Lemma added_failed s http filename e f' :
  add_torrent http filename (fur s) = Ret (ERROR e, f') -> f_tasks f' = f_tasks (fur s).
Proof.
  intros [(_ & [Ht _] & _)|(d0 & d & g & H & [Hgt _] & _)]%add_spec; [done|].
  apply register_spec in H as (t & _ & _ & _ & [(_ & _ & Ht & _)|(_ & [=] & _)]). congruence.
Qed.

(** It has peers, and nothing of it was processed. *)
Lemma added_fresh s http filename tid f' t0 :
  sys_ok s -> add_torrent http filename (fur s) = Ret (OK tid, f') -> f_torrents f' !! tid = Some t0 ->
  t_peers t0 <> [] /\ t_pieces_processed t0 = 0.
Proof.
  intros Hok [(_ & _ & [=])|(d0 & d & g & H & [_ Hm] & _)]%add_spec Ht0.
  apply register_spec in H as (t & Hc & _ & _ & [(_ & [=] & _)|(Hpe & [= ->] & ps & _ & _ & Hm')]).
  rewrite Hm', lookup_insert_eq in Ht0. injection Ht0 as <-. split; [done|].
  destruct Hc as [Hc|(_ & _ & Hc & _)]; [|done]. exfalso. apply Hpe. rewrite Hm in Hc.
  pose proof (ac_fresh _ _ _ _ _ Hok (f_next_uid (fur s)) ltac:(done)) as E.
  cbv beta in E. unfold torrent_of, torrent_at in E. by rewrite Hc in E.
Qed.

(** Nothing of a new torrent is on file. *)
Lemma new_not_on_file s f' i :
  sys_ok s -> ~ on_file (mkSys f' (workers s) CIdle (finished s) (purged s)) (f_next_uid (fur s), i).
Proof.
  intros Hok [Hi|(j & w & Hj & Hi)]; cbn in *.
  - assert (Hin : (f_next_uid (fur s), i) ∈ all_keys s).
    { eapply elem_of_submseteq; [done|apply (ac_fin _ _ _ _ _ Hok)]. }
    destruct (accounted_key _ _ _ _ _ _ Hok Hin) as [Hp _]. cbn in Hp. apply Hp.
    by apply (ac_fresh _ _ _ _ _ Hok).
  - destruct w as [|tk|tk pl wl|tk lc k|tk lc|tk lc p]; cbn in Hi; try by apply not_elem_of_nil in Hi.
    all: apply list_elem_of_singleton in Hi; injection Hi as Hi _.
    all: eapply (known_task_old s tk Hok); [|by symmetry]; right; eexists _, _; split; [done|by left].
Qed.

Lemma session_start s http filename tid f' t0 f :
  sys_ok s -> add_torrent http filename (fur s) = Ret (OK tid, f') ->
  f_torrents f' !! tid = Some t0 -> layout_wf (t_descriptor t0) -> files (t_descriptor t0) = [f] ->
  plain_name f -> unshared s (file_path (t_descriptor t0) f) ->
  session_ok (task_ok (t_descriptor t0) f tid) (file_ok (t_descriptor t0) f tid)
    (mkSys f' (workers s) CIdle (finished s) (purged s)).
Proof.
  intros Hok Hadd Ht0 Hd Hf Hn Hun.
  destruct (added_new _ _ _ _ _ _ Hok Hadd Ht0) as (-> & ps & d0 & Hps & Ht & Hprep).
  set (d := t_descriptor t0) in *. pose proof (lw_paths _ Hd) as Hz.
  destruct (prepare_files _ _ _ _ _ Hprep) as [_ Hth]; [by rewrite Hf; constructor|done|].
  destruct (Hth f) as (Hr & c & Hcon & Hlen); [rewrite Hf; by left|].
  assert (Hold : forall task, known_task s task -> foreign d f (f_next_uid (fur s)) task).
  { intros task Hk. split; [by apply known_task_old|by apply Hun]. }
  split; cbn.
  - rewrite Ht. apply Forall_app. split.
    { apply Forall_forall. intros task Hk. right. apply Hold. by left. }
    rewrite (pieces_single _ f Hd Hf) in Hps. injection Hps as <-. rewrite map_map.
    apply Forall_forall. intros task (i & -> & Hi%elem_of_seqZ)%list_elem_of_fmap. left.
    split_and!; [done..|]. exists i. split; [lia|done].
  - intros j w Hj. apply Forall_forall. intros task Hk. right. apply Hold. right. by exists j, w.
  - split; [done|]. exists c. split_and!; [done| |].
    + rewrite Hlen. symmetry. by apply single_length.
    + intros i _ Hi. by apply new_not_on_file in Hi.
Qed.

(** ** Claims *)

(** C1: end to end. Take a torrent of one file, with a plain name and a layout whose
    lengths fit its pieces, that is added while no task in the queue or with a worker
    writes the same path. Then, as long as no other torrent is added, after any
    interleaving of the workers and of removals, with any peers and any network,
    if the torrent is reported as completed then its file is on disk in its full
    length and every piece of it has the SHA-1 digest of the descriptor. *)
Theorem completed_file_verified s http filename tid f' t0 f s' t :
  reaches s -> owner s = CIdle ->
  add_torrent http filename (fur s) = Ret (OK tid, f') ->
  f_torrents f' !! tid = Some t0 -> layout_wf (t_descriptor t0) -> files (t_descriptor t0) = [f] ->
  plain_name f -> unshared s (file_path (t_descriptor t0) f) ->
  work_steps (mkSys f' (workers s) CIdle (finished s) (purged s)) s' ->
  f_torrents (fur s') !! tid = Some t -> t_state t = Completed ->
  let d := t_descriptor t0 in
  exists content, Io.contents (f_disk (fur s')) !! file_path d f = Some content /\
    zlen content = tlength d /\
    forall i, 0 <= i < pieces_count d ->
      piece_hashes d !! Z.to_nat i = Some (sha1_ref (piece_in d content i)).
Proof.
  intros Hr%reaches_ok Ho Hadd Ht0 Hd Hf Hn Hun Hsteps Ht Hc d.
  pose proof (session_start _ _ _ _ _ _ _ Hr Hadd Ht0 Hd Hf Hn Hun) as Hs.
  pose proof (add_ok _ _ _ _ _ Hr Hadd) as Hok.
  pose proof (single_keeps d f tid Hd) as HK.
  destruct (session_steps _ _ _ _ Hok Hs Hsteps) as [Hok' Hs'].
  apply (session_completed d f tid s' t); try done.
  by apply (work_steps_descriptor tid _ _ _ _ Hok Hsteps).
Qed.

(** ** A sample session *)

(** The state after an operation that returns. *)
Definition after {A} (m : cxx (A * Furrent)) (f : Furrent) : Furrent :=
  match m with Ret (_, f') => f' | _ => f end.

Definition hello_text : bytes :=
  encode (metainfo (str "http://t") (single_layout 5) (str "n") 16 [sha1_ref (str "hello")]).
Definition hello_http : bytes -> list (bytes * bytes) -> http_response :=
  fun _ _ => mkResponse 200 (str "d8:intervali9e5:peers6:ABCDEFe").
Definition hello_sys : sys :=
  sys_new (Io.mkDisk {[ str "t.torrent" := hello_text ]} ∅ (fun _ => None)) 1.

Definition hello_f1 : Furrent := after (add_torrent hello_http (str "t.torrent") (fur hello_sys)) (fur hello_sys).
Definition hello_descriptor : TorrentFile := t_descriptor (torrent_at 0 (f_torrents hello_f1)).
Definition hello_piece_task : PieceTask := PieceTask_new 0 (mkPiece 0 [mkSubpiece (str "n") 0 5]) hello_descriptor.
Definition hello_f2 : Furrent := (worker_extract hello_f1).2.
Definition hello_f3 : Furrent := after (worker_look hello_piece_task hello_f2) hello_f2.
Definition hello_net : Socket.net :=
  Socket.mkNet false (map done_with
    [[]; []; handshake_message hello_descriptor;
     [x00; x00; x00; x02]; [x05; x80]; []; [];
     [x00; x00; x00; x01]; [x01]; [];
     [x00; x00; x00; x0e]; [x07] ++ replicate 8 x00 ++ str "hello"]) [] false.
Definition hello_loaded : PieceTask :=
  mkTask (Some (mkDownloaded 0 (str "hello"))) 0 (mkPiece 0 [mkSubpiece (str "n") 0 5]) hello_descriptor.
Definition hello_peers : list Peer := t_peers (torrent_at 0 (f_torrents hello_f2)).
Definition hello_disk : Io.disk :=
  match process (nth 0 hello_peers (mkPeer 0 0)) hello_piece_task (hello_net, f_disk hello_f3) with
  | Ret (_, (_, d)) => d
  | _ => f_disk hello_f3
  end.
Definition hello_f4 : Furrent := set_disk hello_disk hello_f3.
Definition hello_f5 : Furrent := after (worker_score hello_loaded 0 hello_f4) hello_f4.
Definition hello_f6 : Furrent := after (worker_count hello_loaded hello_f5) hello_f5.
Definition hello_f7 : Furrent := after (worker_complete hello_loaded 1 hello_f6) hello_f6.

(** With one worker, in the given state. *)
Definition hello_at (f : Furrent) (w : worker) (fin : list key) : sys := mkSys f [w] CIdle fin [].

Lemma hello_added :
  add_torrent hello_http (str "t.torrent") (fur hello_sys) = Ret (OK 0, hello_f1).
Proof. vm_compute. reflexivity. Qed.

(** The steps of the worker, one by one. *)
Definition hello_after : Socket.net :=
  match process (nth 0 hello_peers (mkPeer 0 0)) hello_piece_task (hello_net, f_disk hello_f3) with
  | Ret (_, (n, _)) => n
  | _ => hello_net
  end.

Lemma hello_extract : worker_extract hello_f1 = (OK hello_piece_task, hello_f2).
Proof. vm_compute. reflexivity. Qed.
Lemma hello_look : worker_look hello_piece_task hello_f2 = Ret (Some (hello_peers, [1]), hello_f3).
Proof. vm_compute. reflexivity. Qed.
Lemma hello_peer_0 : hello_peers !! 0%nat = Some (nth 0 hello_peers (mkPeer 0 0)).
Proof. vm_compute. reflexivity. Qed.
Lemma hello_attempt :
  process (nth 0 hello_peers (mkPeer 0 0)) hello_piece_task (hello_net, f_disk hello_f3) =
  Ret ((true, hello_loaded), (hello_after, hello_disk)).
Proof. vm_compute. reflexivity. Qed.
Lemma hello_score : worker_score hello_loaded 0 hello_f4 = Ret (tt, hello_f5).
Proof. vm_compute. reflexivity. Qed.
Lemma hello_count : worker_count hello_loaded hello_f5 = Ret (1, hello_f6).
Proof. vm_compute. reflexivity. Qed.
Lemma hello_complete : worker_complete hello_loaded 1 hello_f6 = Ret (tt, hello_f7).
Proof. vm_compute. reflexivity. Qed.

Lemma hello_runs : work_steps (hello_at hello_f1 WIdle []) (hello_at hello_f7 WIdle [(0, 0)]).
Proof.
  eapply rtc_l; [exact (ws_worker 0 _ _ (w_extract 0 (hello_at hello_f1 WIdle []) _ _ eq_refl hello_extract))|].
  eapply rtc_l; [exact (ws_worker 0 _ _ (w_look 0 (hello_at hello_f2 (WTook hello_piece_task) []) _ _ _ _
    eq_refl hello_look))|].
  eapply rtc_l; [exact (ws_worker 0 _ _ (w_attempt 0 (hello_at hello_f3 (WWorks hello_piece_task hello_peers [1]) [])
    _ _ _ 0 1 _ _ _ _ _ _ eq_refl eq_refl (eq_refl : 0 < 1) hello_peer_0 hello_attempt))|].
  eapply rtc_l; [exact (ws_worker 0 _ _ (w_score 0 (hello_at hello_f4 (WSaved hello_loaded (hello_peers, [1]) 0) []) _ _ _ _
    eq_refl hello_score))|].
  eapply rtc_l; [exact (ws_worker 0 _ _ (w_count 0 (hello_at hello_f5 (WScored hello_loaded (hello_peers, [1])) []) _ _ _ _
    eq_refl hello_count))|].
  eapply rtc_l; [exact (ws_worker 0 _ _ (w_complete 0 (hello_at hello_f6 (WCounted hello_loaded (hello_peers, [1]) 1) [(0, 0)]) _ _ _ _
    eq_refl hello_complete))|].
  apply rtc_refl.
Qed.

Lemma hello_wf : layout_wf hello_descriptor.
Proof.
  assert (Ef : files hello_descriptor = [mkFile [str "n"] 5]) by (vm_compute; reflexivity).
  assert (Et : tlength hello_descriptor = 5) by (vm_compute; reflexivity).
  assert (Ep : piece_length hello_descriptor = 16) by (vm_compute; reflexivity).
  assert (Ec : pieces_count hello_descriptor = 1) by (vm_compute; reflexivity).
  revert Ef Et Ep Ec. generalize hello_descriptor. intros d Ef Et Ep Ec.
  split; rewrite ?Ef, ?Et, ?Ep, ?Ec; try done.
  - by repeat constructor.
  - by repeat constructor.
  - by left.
Qed.

Lemma hello_unshared path : unshared hello_sys path.
Proof.
  intros task [H|(j & w & Hj & H)]; exfalso.
  - by apply not_elem_of_nil in H.
  - destruct j; [|done]. injection Hj as <-. by apply not_elem_of_nil in H.
Qed.

Lemma hello_t0 : f_torrents hello_f1 !! 0 = Some (torrent_at 0 (f_torrents hello_f1)).
Proof. vm_compute. reflexivity. Qed.
Lemma hello_t1 : f_torrents hello_f7 !! 0 = Some (torrent_at 0 (f_torrents hello_f7)).
Proof. vm_compute. reflexivity. Qed.
Lemma hello_files : files (t_descriptor (torrent_at 0 (f_torrents hello_f1))) = [mkFile [str "n"] 5].
Proof. vm_compute. reflexivity. Qed.
Lemma hello_completed : t_state (torrent_at 0 (f_torrents hello_f7)) = Completed.
Proof. vm_compute. reflexivity. Qed.
Lemma hello_plain : plain_name (mkFile [str "n"] 5).
Proof. exists (str "n"). split; [done|]. by intros [?|?%not_elem_of_nil]%elem_of_cons. Qed.

Lemma completed_file_verified_witness :
  let d := t_descriptor (torrent_at 0 (f_torrents hello_f1)) in
  exists content,
    Io.contents (f_disk hello_f7) !! file_path d (mkFile [str "n"] 5) = Some content /\
    zlen content = tlength d /\
    forall i, 0 <= i < pieces_count d ->
      piece_hashes d !! Z.to_nat i = Some (sha1_ref (piece_in d content i)).
Proof.
  exact (completed_file_verified hello_sys hello_http (str "t.torrent") 0 hello_f1
    (torrent_at 0 (f_torrents hello_f1)) (mkFile [str "n"] 5) (hello_at hello_f7 WIdle [(0, 0)])
    (torrent_at 0 (f_torrents hello_f7)) (reaches_new _ _) eq_refl hello_added hello_t0 hello_wf
    hello_files hello_plain (hello_unshared _) hello_runs hello_t1 hello_completed).
Defined.

(** The sample session, from the start. *)
Lemma hello_start : reaches (hello_at hello_f1 WIdle []).
Proof. eapply reaches_step; [apply reaches_new|]. by apply (s_add hello_sys _ _ _ _ eq_refl hello_added). Qed.
Lemma hello_reached : reaches (hello_at hello_f7 WIdle [(0, 0)]).
Proof. exact (work_steps_reach _ _ hello_start hello_runs). Qed.

Lemma hello_has_peers : t_peers (torrent_at 0 (f_torrents hello_f7)) <> [].
Proof. vm_compute. discriminate. Qed.

Lemma pieces_accounted_witness :
  of_torrent 0 (queued (hello_at hello_f7 WIdle [(0, 0)]) ++ held (hello_at hello_f7 WIdle [(0, 0)]) ++
      [(0, 0)] ++ []) ≡ₚ
    map (pair 0) (seqZ 0 (pieces_count (t_descriptor (torrent_at 0 (f_torrents hello_f7))))).
Proof.
  exact (proj1 (pieces_accounted (hello_at hello_f7 WIdle [(0, 0)]) 0
    (torrent_at 0 (f_torrents hello_f7)) hello_reached hello_t1 hello_has_peers)).
Defined.

Lemma completed_means_done_witness :
  of_torrent 0 [(0, 0)] ≡ₚ
    map (pair 0) (seqZ 0 (pieces_count (t_descriptor (torrent_at 0 (f_torrents hello_f7))))).
Proof.
  exact (proj1 (completed_means_done (hello_at hello_f7 WIdle [(0, 0)]) 0
    (torrent_at 0 (f_torrents hello_f7)) hello_reached hello_t1 hello_completed)).
Defined.

(** The file holds the content of the torrent at the end of the session. *)
Example hello_on_disk : Io.contents (f_disk hello_f7) !! str "./n/n" = Some (str "hello").
Proof. vm_compute. reflexivity. Qed.
