(* ===== verification/Files.v ===== *)
(** * Files: torrents of several files

    [Session] for torrents of several files. A piece that spans two files is
    written whole to both of them ([PieceTask::save]), and a piece that starts at
    the start of a file is also written behind the end of the file before
    ([Torrent::pieces] gives it an empty subpiece there). So the files into which
    no piece runs from the file before hold their content, but can be longer
    than they should be; the others can be wrong. *)
From S2P Require Import Prelude Bencode Sha1Spec Hash Descriptor Pieces Peer Torrent Socket.
From S2P Require Import Downloader DownloaderSpec Queue Io Task Furrent System Session.
Local Open Scope Z_scope.

(** ** Where pieces lie *)

(** No piece spans two files. *)
Definition unsplit (d : TorrentFile) : Prop :=
  forall i, 0 <= i < pieces_count d ->
    exists sp, cover (files d) 0 (i * piece_length d) (piece_end d i) = [sp].

(** No piece runs over the end of the files [pre] into the next one. *)
Definition intact (d : TorrentFile) (pre : list File) : Prop :=
  forall i, 0 <= i < pieces_count d -> i * piece_length d < total pre -> piece_end d i <= total pre.

(** The files and the ranges in them that a piece intersects. *)
Lemma elem_of_cover fs a s e sp :
  sp ∈ cover fs a s e <->
  exists pre f suf, fs = pre ++ f :: suf /\
    let lo := Z.max (a + total pre) s in
    let hi := Z.min (a + total pre + flength f) e in
    lo < hi /\ sp = mkSubpiece (join_path (filepath f)) (lo - (a + total pre)) (hi - lo).
Proof.
  revert a. induction fs as [|f fs IH]; intros a; cbn [cover].
  { split; [by intros ?%not_elem_of_nil|]. by intros ([] & ? & ? & [=] & _). }
  rewrite elem_of_app, IH. split.
  - intros [H|(pre & g & suf & -> & H)].
    + destruct (Z.ltb_spec (Z.max a s) (Z.min (a + flength f) e)); [|by apply not_elem_of_nil in H].
      apply list_elem_of_singleton in H as ->. exists [], f, fs. split; [done|]. cbn. by rewrite Z.add_0_r.
    + exists (f :: pre), g, suf. split; [done|]. by rewrite total_cons, Z.add_assoc.
  - intros ([|f' pre] & g & suf & [= <- ->] & H & ->); cbn [total] in *.
    + left. cbn in H |- *. rewrite Z.add_0_r in *. destruct (Z.ltb_spec (Z.max a s) (Z.min (a + flength f) e)); [|lia].
      by left.
    + right. exists pre, g, suf. split; [done|]. by rewrite total_cons, Z.add_assoc in *.
Qed.

(** One file is not split. *)
Lemma single_unsplit d f : layout_wf d -> files d = [f] -> unsplit d.
Proof.
  intros Hd Hf i Hi. destruct (piece_range d Hd i Hi) as (H1 & H2 & _).
  pose proof (lw_length _ Hd) as Hl. rewrite Hf in *. cbn [cover]. unfold total in Hl. cbn in Hl.
  destruct (Z.ltb_spec (Z.max 0 (i * piece_length d)) (Z.min (0 + flength f) (piece_end d i))); [by eexists|lia].
Qed.

(** The range of a piece in its file, that starts after [pre]. *)
Lemma home_range d i sp :
  layout_wf d -> 0 <= i < pieces_count d ->
  cover (files d) 0 (i * piece_length d) (piece_end d i) = [sp] ->
  exists pre f suf, files d = pre ++ f :: suf /\
    total pre <= i * piece_length d /\ piece_end d i <= total pre + flength f.
Proof.
  intros Hd Hi E. destruct (piece_range d Hd i Hi) as (H1 & H2 & _).
  assert (Hin : sp ∈ cover (files d) 0 (i * piece_length d) (piece_end d i)) by (rewrite E; by left).
  apply elem_of_cover in Hin as (pre & f & suf & Ef & Hlt & Esp).
  pose proof (cover_length (files d) 0 (i * piece_length d) (piece_end d i) (lw_nonneg _ Hd) ltac:(lia)) as Hl.
  rewrite <- (lw_length _ Hd), E in Hl. specialize (Hl ltac:(lia)). subst sp. cbn in Hl, Hlt.
  exists pre, f, suf. split; [done|]. lia.
Qed.

(** The starts of two files. *)
Lemma starts_ordered fs pre f suf pre' f' suf' :
  Forall (fun f => 0 <= flength f) fs -> fs = pre ++ f :: suf -> fs = pre' ++ f' :: suf' ->
  total pre' <= total pre \/ total pre + flength f <= total pre'.
Proof.
  intros Hn E E'. rewrite E in E', Hn. clear E. revert pre' E'. induction pre as [|g pre IH]; intros [|g' pre'] E';
    cbn [app] in *; injection E' as <- E'; rewrite ?total_cons; change (total []) with 0 in *.
  - lia.
  - right. inversion_clear Hn as [|? ? _ Hs]. rewrite E' in Hs. apply Forall_app in Hs as [Hs _].
    pose proof (total_nonneg pre' Hs). lia.
  - left. inversion_clear Hn as [|? ? Hg Hs]. apply Forall_app in Hs as [Hs _].
    pose proof (total_nonneg pre Hs). lia.
  - inversion_clear Hn as [|? ? _ Hs]. destruct (IH Hs pre' E'); lia.
Qed.

(** If no piece spans two files, none runs into one. *)
Lemma unsplit_intact d pre f suf : layout_wf d -> unsplit d -> files d = pre ++ f :: suf -> intact d pre.
Proof.
  intros Hd Hu E i Hi Hlt. destruct (Hu i Hi) as [sp Ei].
  destruct (home_range d i sp Hd Hi Ei) as (pre' & f' & suf' & E' & H1 & H2).
  destruct (starts_ordered _ _ _ _ _ _ _ (lw_nonneg _ Hd) E' E); lia.
Qed.

(** ** Writing into files that grow *)

Lemma splice_in content offset bs :
  0 <= offset <= zlen content ->
  Io.splice content offset bs =
  take (Z.to_nat offset) content ++ bs ++ drop (Z.to_nat offset + length bs) content.
Proof. intros H. unfold Io.splice. rewrite take_app_le by (unfold zlen in *; lia). done. Qed.

Lemma zlen_splice_le content offset bs :
  0 <= offset <= zlen content -> zlen content <= zlen (Io.splice content offset bs).
Proof.
  intros H. rewrite splice_in by done. rewrite !zlen_app, zlen_take, zlen_drop. unfold zlen in *. lia.
Qed.

(** A range that is not written keeps its bytes. *)
Lemma slice_splice_apart content offset bs s e :
  0 <= offset <= zlen content -> 0 <= s <= e -> e <= zlen content ->
  e <= offset \/ offset + zlen bs <= s ->
  slice (Io.splice content offset bs) s e = slice content s e.
Proof.
  intros H0 Hs He Hd. rewrite splice_in by done. unfold slice, zlen in *. destruct Hd as [Hd|Hd].
  - rewrite drop_app_le by (rewrite length_take; lia). rewrite take_app_le by (rewrite length_drop, length_take; lia).
    rewrite <- (take_drop (Z.to_nat offset) content) at 2.
    rewrite drop_app_le by (rewrite length_take; lia).
    rewrite take_app_le by (rewrite length_drop, length_take; lia). done.
  - rewrite drop_app_ge by (rewrite length_take; lia). rewrite length_take.
    rewrite drop_app_ge by lia. rewrite drop_drop. do 2 f_equal. lia.
Qed.

(** ** The disk *)

Section files.
Context (d : TorrentFile) (tid : Z).
Context (Hd : layout_wf d) (Hnd : NoDup (map (fun f => join_path (filepath f)) (files d))).

Abbreviation start_of i := (i * piece_length d).

(** The files are there, at least in their length. *)
Definition files_there (dk : Io.disk) : Prop :=
forall f, f ∈ files d -> Io.refuses dk (file_path d f) = None /\
  exists c, Io.contents dk !! file_path d f = Some c /\ flength f <= zlen c.

(** Piece [i] starts in the file [f] after [pre], and the bytes from there on have
  its digest, also behind the end of the file if it is longer. *)
Definition starts_in (i : Z) (pre : list File) (f : File) : Prop :=
total pre <= start_of i < total pre + flength f.
Definition piece_at (dk : Io.disk) (i : Z) (pre : list File) (f : File) : Prop :=
exists c, Io.contents dk !! file_path d f = Some c /\ piece_end d i - total pre <= zlen c /\
  piece_hashes d !! Z.to_nat i = Some (sha1_ref (slice c (start_of i - total pre) (piece_end d i - total pre))).

(** Piece [i] is on the disk where it should be, unless it starts in a file that
  another piece runs into. *)
Definition piece_there (dk : Io.disk) (i : Z) : Prop :=
forall pre f suf, files d = pre ++ f :: suf -> starts_in i pre f -> intact d pre -> piece_at dk i pre f.

Definition files_ok (dk : Io.disk) (saved : key -> Prop) : Prop :=
files_there dk /\ forall i, 0 <= i < pieces_count d -> saved (tid, i) -> piece_there dk i.

(** Piece [i] lies inside a file, and the bytes there have its digest. *)
Definition piece_verified (dk : Io.disk) (i : Z) : Prop :=
exists pre f suf c, files d = pre ++ f :: suf /\
  total pre <= start_of i /\ piece_end d i <= total pre + flength f /\
  Io.contents dk !! file_path d f = Some c /\ flength f <= zlen c /\
  piece_hashes d !! Z.to_nat i = Some (sha1_ref (slice c (start_of i - total pre) (piece_end d i - total pre))).

(** If no piece spans two files, a piece that is there is verified. *)
Lemma unsplit_verified dk i :
unsplit d -> files_there dk -> 0 <= i < pieces_count d -> piece_there dk i -> piece_verified dk i.
Proof using Hd.
clear Hnd. intros Hu Hth Hi Hp. destruct (Hu i Hi) as [sp E]. destruct (piece_range d Hd i Hi) as (H1 & H2 & _).
destruct (home_range d i sp Hd Hi E) as (pre & f & suf & Ef & H3 & H4).
destruct (Hp pre f suf Ef ltac:(unfold starts_in; lia) (unsplit_intact _ _ _ _ Hd Hu Ef)) as (c & Hc & _ & Hh).
destruct (Hth f) as (_ & c' & Hc' & Hl); [rewrite Ef; set_solver|]. rewrite Hc in Hc'. injection Hc' as <-.
by exists pre, f, suf, c.
Qed.

(** Files with the same path are the same. *)
Lemma same_file pre f suf pre' f' suf' :
files d = pre ++ f :: suf -> files d = pre' ++ f' :: suf' ->
join_path (filepath f) = join_path (filepath f') -> pre = pre' /\ f = f'.
Proof.
intros E E' Hj.
assert (H1 : files d !! length pre = Some f) by (rewrite E; by apply list_lookup_middle).
assert (H2 : files d !! length pre' = Some f') by (rewrite E'; by apply list_lookup_middle).
assert (Hl : length pre = length pre').
{ apply (NoDup_lookup _ _ _ (join_path (filepath f)) Hnd).
  - change (map _ (files d)) with ((fun f => join_path (filepath f)) <$> files d). by rewrite list_lookup_fmap, H1.
  - change (map _ (files d)) with ((fun f => join_path (filepath f)) <$> files d).
    rewrite list_lookup_fmap, H2. cbn. by rewrite Hj. }
split; [|rewrite Hl, H2 in H1; by injection H1].
rewrite E in E'. by apply app_inj_1 in E' as [-> _].
Qed.

(** Where piece [i] writes with the subpiece [sp]: in the file [f] after [pre],
  either behind its end or where the piece or the file starts. *)
Record writes_to (i : Z) (sp : Subpiece) (pre : list File) (f : File) : Prop := {
wt_path : sp_filepath sp = join_path (filepath f);
wt_offset :
  (file_offset sp = flength f /\ (flength f = 0 \/ total pre + flength f = start_of i)) \/
  (start_of i < total pre + flength f /\ total pre < piece_end d i /\
   file_offset sp = Z.max (total pre) (start_of i) - total pre);
}.

(** The subpieces of piece [i]. *)
Definition piece_within (i : Z) (p : Piece) : Prop :=
index p = i /\
(forall sp, sp ∈ subpieces p -> exists pre f suf, files d = pre ++ f :: suf /\ writes_to i sp pre f) /\
forall pre f suf, files d = pre ++ f :: suf -> starts_in i pre f ->
  exists sp, sp ∈ subpieces p /\ sp_filepath sp = join_path (filepath f).

Lemma piece_ok_within i p : 0 <= i < pieces_count d -> piece_ok d i p -> piece_within i p.
Proof.
intros Hi (Ei & Hsp & Hne). split; [done|].
assert (Hin : forall sp, sp ∈ nonempty (subpieces p) <-> sp ∈ subpieces p /\ 0 < sp_len sp).
{ intros sp. unfold nonempty. rewrite !list_elem_of_In, filter_In, Z.ltb_lt. done. }
split.
- intros sp Hs. rewrite Forall_forall in Hsp. destruct (Hsp sp Hs) as [Hl|(_ & pre & f & suf & E & H1 & H2 & H3)].
  + assert (Hc : sp ∈ nonempty (subpieces p)) by (by apply Hin).
    rewrite Hne in Hc. apply elem_of_cover in Hc as (pre & f & suf & E & Hlt & ->). exists pre, f, suf.
    split; [done|]. split; [done|]. right. cbn. lia.
  + exists pre, f, suf. split; [done|]. split; [done|]. by left.
- intros pre f suf E [H1 H2]. destruct (piece_range d Hd i Hi) as (H3 & _).
  set (lo := Z.max (0 + total pre) (start_of i)). set (hi := Z.min (0 + total pre + flength f) (piece_end d i)).
  exists (mkSubpiece (join_path (filepath f)) (lo - (0 + total pre)) (hi - lo)). split; [|done].
  apply Hin. rewrite Hne. apply elem_of_cover. exists pre, f, suf. split; [done|]. split; [|done]. lia.
Qed.

(** The file a subpiece is in. *)
Lemma writes_to_file i sp pre f suf :
0 <= i < pieces_count d -> files d = pre ++ f :: suf -> writes_to i sp pre f ->
f ∈ files d /\ subpiece_path d sp = file_path d f /\ 0 <= file_offset sp <= flength f.
Proof.
intros Hi E [Hp Ho]. destruct (piece_range d Hd i Hi) as (H1 & _).
pose proof (lw_nonneg _ Hd) as Hn. rewrite E in Hn. apply Forall_app in Hn as [Hn1 Hn2]. inversion_clear Hn2.
split; [rewrite E; apply elem_of_app; right; by left|]. split; [unfold subpiece_path, file_path; by rewrite Hp|]. lia.
Qed.

(** The disk after writing [x] where [sp] says. *)
Definition written (sp : Subpiece) (x c : bytes) (dk : Io.disk) : Io.disk :=
Io.set_contents (<[subpiece_path d sp := Io.splice c (file_offset sp) x]> (Io.contents dk)) dk.

Lemma write_there i sp pre f suf x dk :
0 <= i < pieces_count d -> files d = pre ++ f :: suf -> writes_to i sp pre f ->
zlen x <= int64_max -> files_there dk ->
exists c, Io.contents dk !! file_path d f = Some c /\ 0 <= file_offset sp <= zlen c /\
  Io.write_bytes (subpiece_path d sp) x (file_offset sp) dk = Ret (OK tt, written sp x c dk) /\
  files_there (written sp x c dk).
Proof.
intros Hi E Hw Hx Ht. destruct (writes_to_file _ _ _ _ _ Hi E Hw) as (Hf & Hp & Ho).
destruct (Ht f Hf) as (Hr & c & Hc & Hl). exists c. rewrite <- Hp in Hr.
split; [done|]. split; [lia|]. split; [apply Io.write_bytes_run; rewrite ?Hp in *; done || lia|].
intros g Hg. destruct (Ht g Hg) as (Hr' & c' & Hc' & Hl'). split; [done|]. cbn. rewrite Hp.
destruct (decide (file_path d f = file_path d g)) as [E'|Hne].
- rewrite E', lookup_insert_eq. eexists. split; [done|].
  rewrite E', Hc' in Hc. injection Hc as ->. pose proof (zlen_splice_le c (file_offset sp) x). lia.
- rewrite lookup_insert_ne by done. by exists c'.
Qed.

(** Writing piece [i] keeps another piece that starts in a file nobody runs
  into, and puts its own there. *)
Lemma write_piece i sp pre' g suf' x c dk j pre f suf :
0 <= i < pieces_count d -> files d = pre' ++ g :: suf' -> writes_to i sp pre' g ->
zlen x = piece_end d i - start_of i -> piece_hashes d !! Z.to_nat i = Some (sha1_ref x) ->
Io.contents dk !! file_path d g = Some c -> 0 <= file_offset sp <= zlen c ->
0 <= j < pieces_count d -> files d = pre ++ f :: suf -> starts_in j pre f -> intact d pre ->
piece_at dk j pre f \/ (i = j /\ sp_filepath sp = join_path (filepath f)) -> piece_at (written sp x c dk) j pre f.
Proof.
intros Hi E' Hw Hx Hh Hc Ho Hj E Hst Hin Hor. destruct (writes_to_file _ _ _ _ _ Hi E' Hw) as (_ & Hp & _).
destruct (piece_range d Hd i Hi) as (B1 & _). destruct (piece_range d Hd j Hj) as (B2 & _).
destruct Hw as [Hpath Hoff]. unfold starts_in in Hst. specialize (Hin i Hi).
destruct (decide (sp_filepath sp = join_path (filepath f))) as [Ep|Hne].
- destruct (same_file _ _ _ _ _ _ E' E) as [-> ->]; [congruence|].
  exists (Io.splice c (file_offset sp) x). split; [cbn; by rewrite Hp, lookup_insert_eq|].
  assert (Hm : file_offset sp = start_of i - total pre \/ (file_offset sp = flength f /\ start_of i = total pre + flength f)) by lia.
  destruct (decide (i = j)) as [<-|Hij].
  + assert (Heq : file_offset sp = start_of i - total pre) by lia. rewrite <- Heq.
    replace (piece_end d i - total pre) with (file_offset sp + zlen x) by lia.
    rewrite slice_splice_same, Hh by lia. split; [|done].
    rewrite splice_in, !zlen_app, zlen_take, zlen_drop by done. zlen_lia.
  + destruct Hor as [(c' & Hc' & Hl & Hs)|[? _]]; [|done]. rewrite Hc in Hc'. injection Hc' as <-.
    pose proof (zlen_splice_le c (file_offset sp) x Ho). split; [lia|].
    pose proof (pieces_disjoint d Hd i j Hi Hj Hij) as Hdis.
    rewrite slice_splice_apart; [done|lia|lia|lia|]. lia.
- destruct Hor as [(c' & Hc' & Hl & Hs)|[_ ?]]; [|done]. exists c'. split; [|done]. cbn.
  rewrite lookup_insert_ne; [done|]. unfold subpiece_path, file_path. intros ?%app_inv_head%app_inv_head. done.
Qed.

(** ** Saving *)

Lemma save_loop_files task i x sps dk :
descriptor task = d -> task_data task = Some x -> 0 <= i < pieces_count d ->
zlen (d_content x) = piece_end d i - start_of i -> piece_hashes d !! Z.to_nat i = Some (sha1_ref (d_content x)) ->
(forall sp, sp ∈ sps -> exists pre f suf, files d = pre ++ f :: suf /\ writes_to i sp pre f) -> files_there dk ->
exists dk', save_loop task sps dk = Ret (true, dk') /\ files_there dk' /\
  forall j pre f suf, 0 <= j < pieces_count d -> files d = pre ++ f :: suf -> starts_in j pre f -> intact d pre ->
    piece_at dk j pre f \/ (i = j /\ exists sp, sp ∈ sps /\ sp_filepath sp = join_path (filepath f)) ->
    piece_at dk' j pre f.
Proof.
intros Ed Hx Hi Hz Hh. revert dk. induction sps as [|sp sps IH]; intros dk Hsps Ht.
{ exists dk. split_and!; try done. intros j pre f suf _ _ _ _ [?|(_ & sp & Hin & _)]; [done|].
  by apply not_elem_of_nil in Hin. }
destruct (Hsps sp) as (pre' & g & suf' & E' & Hw); [by left|].
assert (Hmax : zlen (d_content x) <= int64_max).
{ pose proof (lw_bound _ Hd). destruct (piece_range d Hd i Hi) as (? & ? & _). lia. }
destruct (write_there i sp pre' g suf' (d_content x) dk Hi E' Hw Hmax Ht) as (c & Hc & Ho & Hwr & Ht1).
destruct (IH _ ltac:(intros; apply Hsps; by right) Ht1) as (dk' & Hrun & Ht' & Hkeep). exists dk'. split_and!; [|done|].
- cbn [save_loop]. rewrite Hx, Ed. cbv [mbind st_bind lift]. cbn [cxx_bind]. rewrite Hwr. exact Hrun.
- intros j pre f suf Hj E Hst Hin Hor. apply (Hkeep j pre f suf); try done.
  assert (Hnow : piece_at dk j pre f \/ (i = j /\ sp_filepath sp = join_path (filepath f)) ->
    piece_at (written sp (d_content x) c dk) j pre f) by (by apply (write_piece i sp pre' g suf' _ _ _ _ _ _ suf)).
  destruct Hor as [Hp|(<- & sp' & [->|Hsp']%elem_of_cons & Hpath)]; [left; auto|left; auto|].
  right. eauto.
Qed.

Definition own_task (task : PieceTask) : Prop :=
Task.tid task = tid /\ descriptor task = d /\
exists i, 0 <= i < pieces_count d /\ piece_within i (task_piece task).
Definition other_task (task : PieceTask) : Prop :=
Task.tid task <> tid /\
forall f, f ∈ files d ->
  Forall (fun sp => subpiece_path (descriptor task) sp <> file_path d f) (subpieces (task_piece task)).
Definition files_task (task : PieceTask) : Prop := own_task task \/ other_task task.

(** A piece starts in a file. *)
Lemma piece_starts i :
0 <= i < pieces_count d -> exists pre f suf, files d = pre ++ f :: suf /\ starts_in i pre f.
Proof.
intros Hi. destruct (piece_range d Hd i Hi) as (H1 & H2 & _). pose proof (lw_length _ Hd) as Hl.
assert (Hgo : forall fs a, a <= start_of i < a + total fs ->
  exists pre f suf, fs = pre ++ f :: suf /\ a + total pre <= start_of i < a + total pre + flength f).
{ induction fs as [|f fs IH]; intros a Ha; [change (total []) with 0 in Ha; lia|]. rewrite total_cons in Ha.
  destruct (Z.lt_ge_cases (start_of i) (a + flength f)).
  - exists [], f, fs. split; [done|]. change (total []) with 0. lia.
  - destruct (IH (a + flength f)) as (pre & g & suf & -> & Hb); [lia|]. exists (f :: pre), g, suf.
    split; [done|]. rewrite total_cons. lia. }
destruct (Hgo (files d) 0) as (pre & f & suf & E & Hs); [lia|]. exists pre, f, suf. split; [done|]. unfold starts_in. lia.
Qed.

Lemma save_own_run task i x dk :
descriptor task = d -> piece_within i (task_piece task) -> 0 <= i < pieces_count d ->
task_data task = Some x -> zlen (d_content x) = piece_end d i - start_of i ->
piece_hashes d !! Z.to_nat i = Some (sha1_ref (d_content x)) -> files_there dk ->
exists dk', save task dk = Ret (true, dk') /\ files_there dk' /\ piece_there dk' i /\
  forall j, 0 <= j < pieces_count d -> piece_there dk j -> piece_there dk' j.
Proof.
intros Ed (_ & Hw & Hho) Hi Hx Hz Hh Ht.
destruct (save_loop_files task i x (subpieces (task_piece task)) dk) as (dk1 & Hrun & Ht1 & Hk); try done.
exists dk1. split_and!; [|done|..].
- unfold save. cbv [mbind st_bind]. rewrite Hrun. cbv [lift mret st_ret].
  destruct (piece_starts i Hi) as (pre & f & suf & E & Hs). destruct (Hho pre f suf E Hs) as (sp & Hsp & _).
  destruct (subpieces (task_piece task)); [by apply not_elem_of_nil in Hsp|]. done.
- intros pre f suf E Hs Hin. apply (Hk i pre f suf); try done. right. split; [done|]. by apply (Hho pre f suf).
- intros j Hj Hp pre f suf E Hs Hin. apply (Hk j pre f suf); try done. left. by apply (Hp pre f suf).
Qed.

Lemma save_foreign task dk ok dk' j :
other_task task -> save task dk = Ret (ok, dk') -> files_there dk ->
files_there dk' /\ (piece_there dk j -> piece_there dk' j).
Proof.
intros [_ Hf] H Ht.
assert (Hsame : forall f, f ∈ files d -> Io.contents dk' !! file_path d f = Io.contents dk !! file_path d f /\
  Io.refuses dk' = Io.refuses dk) by (intros f Hin; by apply (save_other _ _ _ _ _ H), Hf).
split.
- intros f Hin. destruct (Hsame f Hin) as [-> ->]. by apply Ht.
- intros Hp pre f suf E Hs Hin. destruct (Hp pre f suf E Hs Hin) as (c & Hc & Hh). exists c. split; [|done].
  destruct (Hsame f) as [-> _]; [|done]. rewrite E. apply elem_of_app. right. by left.
Qed.

#[export] Instance files_keeps : KeepsFiles files_task files_ok.
Proof.
split.
- intros dk saved saved' [H1 H2] H. split; [done|]. auto.
- intros peer task n dk ok task' n' dk' saved Ht [H1 H2] H.
  apply process_spec in H as (E1 & E2 & E3 & H).
  assert (Ht' : files_task task').
  { unfold files_task, own_task, other_task. rewrite E1, E2, E3. exact Ht. }
  split; [done|]. destruct H as [[-> ->]|(x & Hx & Hs & Hl & h & Hh & Hsha)].
  { split; [done|]. intros i Hi [Hi'|[[=] _]]. by apply H2. }
  rewrite <- E2, <- E3 in *. destruct Ht' as [(Et & Ed & i & Hi & Hp)|Hf].
  + pose proof (proj1 Hp) as Ep. rewrite Ed, Ep in *. rewrite (this_piece_length_ok d Hd i Hi) in Hl.
    injection Hl as Hl. subst h.
    destruct (save_own_run task' i x dk Ed Hp Hi Hx (eq_sym Hl) Hh H1) as (dk1 & Hs1 & Ht1 & Hi1 & Hk).
    rewrite Hs1 in Hs. injection Hs as <- <-.
    split; [done|]. intros j Hj [Hj'|[_ Hj']]; [by apply Hk; [|apply H2]|].
    unfold key_of in Hj'. rewrite Ep in Hj'. by injection Hj' as _ ->.
  + split; [by apply (save_foreign task' dk ok dk' 0 Hf Hs H1)|]. intros j Hj [Hj'|[_ Hj']].
    * by apply (save_foreign task' dk ok dk' j Hf Hs H1), H2.
    * destruct Hf as [Hf _]. by injection Hj' as Hj' _.
Qed.
End files.

(** ** From the registration on *)

(** The pieces of a registered torrent. *)
Lemma pieces_tasks d ps :
  layout_wf d -> pieces d = Ret ps ->
  forall p, p ∈ ps -> exists i, 0 <= i < pieces_count d /\ piece_within d i p.
Proof.
  intros Hd H p Hp.
  destruct (pieces_spec d Hd) as [(ps' & E & Hl & Hps & _)|[E _]]; [|congruence].
  rewrite H in E. injection E as <-. pose proof Hp as [k Hk]%list_elem_of_lookup.
  assert (Hi : 0 <= Z.of_nat k < pieces_count d) by (apply lookup_lt_Some in Hk; unfold zlen in Hl; lia).
  exists (Z.of_nat k). split; [done|]. apply piece_ok_within; [done..|]. by apply Hps.
Qed.

Lemma files_start s http filename tid f' t0 :
  let d := t_descriptor t0 in
  sys_ok s -> add_torrent http filename (fur s) = Ret (OK tid, f') -> f_torrents f' !! tid = Some t0 ->
  layout_wf d -> Forall plain_name (files d) -> (forall f, f ∈ files d -> unshared s (file_path d f)) ->
  NoDup (map (fun f => join_path (filepath f)) (files d)) /\
  session_ok (files_task d tid) (files_ok d tid) (mkSys f' (workers s) CIdle (finished s) (purged s)).
Proof.
  intros d Hok Hadd Ht0 Hd Hn Hun.
  destruct (added_new _ _ _ _ _ _ Hok Hadd Ht0) as (-> & ps & d0 & Hps & Ht & Hprep). fold d in Hps, Ht, Hprep.
  destruct (prepare_files _ _ _ _ _ Hprep Hn (lw_paths _ Hd)) as [Hnd Hth]. split; [done|].
  assert (Hthere : files_there d (f_disk f')).
  { intros f Hf. destruct (Hth f Hf) as (Hr & c & Hc & Hl). split; [done|]. exists c. split; [done|lia]. }
  assert (Hold : forall task, known_task s task -> files_task d (f_next_uid (fur s)) task).
  { intros task Hk. right. split; [by apply known_task_old|]. intros f Hf. by apply Hun. }
  split; cbn.
  - rewrite Ht. apply Forall_app. split.
    { apply Forall_forall. intros task Hk. apply Hold. by left. }
    apply Forall_forall. intros task (p & -> & Hp)%list_elem_of_fmap. left. split_and!; [done..|].
    by apply (pieces_tasks d ps).
  - intros j w Hj. apply Forall_forall. intros task Hk. apply Hold. right. by exists j, w.
  - split; [done|]. intros i _ Hi. by apply new_not_on_file in Hi.
Qed.

(** ** Claims *)

(** C2: end to end for several files. Take a torrent whose files have plain names
    and whose layout fits its pieces, that is added while no task in the queue or with
    a worker writes any of its paths. Then, as long as no other torrent is added,
    after any interleaving of the workers and of removals, with any peers and any
    network, if the torrent is reported as completed then all its files are on
    disk at least in their length. For every piece that starts in a file into which
    no piece runs from the file before, the bytes of that file from the place of
    the piece on have its SHA-1 digest; if the piece spans several files, these bytes
    go on behind the end of the file, which is then too long. If no piece spans two
    files then every piece is such and lies inside its file. *)
Theorem completed_files_verified s http filename tid f' t0 s' t :
  let d := t_descriptor t0 in
  reaches s -> owner s = CIdle ->
  add_torrent http filename (fur s) = Ret (OK tid, f') -> f_torrents f' !! tid = Some t0 ->
  layout_wf d -> Forall plain_name (files d) ->
  (forall f, f ∈ files d -> unshared s (file_path d f)) ->
  work_steps (mkSys f' (workers s) CIdle (finished s) (purged s)) s' ->
  f_torrents (fur s') !! tid = Some t -> t_state t = Completed ->
  let dk := f_disk (fur s') in
  (forall f, f ∈ files d -> exists c, Io.contents dk !! file_path d f = Some c /\ flength f <= zlen c) /\
  (forall i pre f suf, 0 <= i < pieces_count d -> files d = pre ++ f :: suf ->
    total pre <= i * piece_length d < total pre + flength f -> intact d pre ->
    exists c, Io.contents dk !! file_path d f = Some c /\ piece_end d i - total pre <= zlen c /\
      piece_hashes d !! Z.to_nat i =
        Some (sha1_ref (slice c (i * piece_length d - total pre) (piece_end d i - total pre)))) /\
  (unsplit d -> forall i, 0 <= i < pieces_count d -> exists pre f suf,
    files d = pre ++ f :: suf /\ intact d pre /\
    total pre <= i * piece_length d /\ piece_end d i <= total pre + flength f).
Proof.
  intros d Hr%reaches_ok Ho Hadd Ht0 Hd Hn Hun Hsteps Ht Hc dk.
  destruct (files_start _ _ _ _ _ _ Hr Hadd Ht0 Hd Hn Hun) as [Hnd Hs]. fold d in Hnd, Hs.
  pose proof (add_ok _ _ _ _ _ Hr Hadd) as Hok. pose proof (files_keeps d tid Hd Hnd) as HK.
  destruct (session_steps _ _ _ _ Hok Hs Hsteps) as [Hok' Hs'].
  assert (Hdt : t_descriptor t = d) by (by apply (work_steps_descriptor tid _ _ _ _ Hok Hsteps)).
  destruct (se_file _ _ _ Hs') as [Hth Hp]. split_and!.
  - intros f Hf. by destruct (Hth f Hf) as [_ Hcf].
  - intros i pre f suf Hi E Hst Hin. apply (Hp i Hi) with suf; try done.
    apply (completed_on_file tid _ t); try done. by rewrite Hdt.
  - intros Hu i Hi. destruct (Hu i Hi) as [sp E].
    destruct (home_range d i sp Hd Hi E) as (pre & f & suf & Ef & H1 & H2).
    exists pre, f, suf. split_and!; try done. by eapply unsplit_intact.
Qed.

(** ** A sample session with two files *)

(** A worker processes a piece with the first peer, without interruption. *)
Definition round (n : Socket.net) (f : Furrent) : option (Furrent * (Z * Z)) :=
  match worker_extract f with
  | (OK task, f1) =>
      match worker_look task f1 with
      | Ret (Some (peer :: _, w :: _), f2) =>
          if 0 <? w then
            match process peer task (n, f_disk f2) with
            | Ret ((true, task'), (_, dk)) =>
                match worker_score task' 0 (set_disk dk f2) with
                | Ret (_, f3) =>
                    match worker_count task' f3 with
                    | Ret (p, f4) =>
                        match worker_complete task' p f4 with
                        | Ret (_, f5) => Some (f5, key_of task')
                        | _ => None
                        end
                    | _ => None
                    end
                | _ => None
                end
            | _ => None
            end
          else None
      | _ => None
      end
  | _ => None
  end.

Lemma round_steps n f f' k fin :
  round n f = Some (f', k) -> work_steps (hello_at f WIdle fin) (hello_at f' WIdle (k :: fin)).
Proof.
  unfold round. intros H.
  destruct (worker_extract f) as [[task|] f1] eqn:E1; [|done].
  destruct (worker_look task f1) as [[[[[|peer ps] [|w ws]]|] f2]| | |] eqn:E2; try done.
  destruct (Z.ltb_spec 0 w) as [Hw|]; [|done].
  destruct (process peer task (n, f_disk f2)) as [[[[] task'] [n' dk]]| | |] eqn:E3; try done.
  destruct (worker_score task' 0 (set_disk dk f2)) as [[[] f3]| | |] eqn:E4; try done.
  destruct (worker_count task' f3) as [[p f4]| | |] eqn:E5; try done.
  destruct (worker_complete task' p f4) as [[[] f5]| | |] eqn:E6; try done. injection H as <- <-.
  set (lc := (peer :: ps, w :: ws)).
  eapply rtc_l; [exact (ws_worker 0 _ _ (w_extract 0 (hello_at f WIdle fin) _ _ eq_refl E1))|].
  eapply rtc_l; [exact (ws_worker 0 _ _ (w_look 0 (hello_at f1 (WTook task) fin) _ _ _ _ eq_refl E2))|].
  eapply rtc_l; [exact (ws_worker 0 _ _ (w_attempt 0 (hello_at f2 (WWorks task (peer :: ps) (w :: ws)) fin)
    _ _ _ 0 w _ _ _ _ _ _ eq_refl eq_refl Hw eq_refl E3))|].
  eapply rtc_l; [exact (ws_worker 0 _ _ (w_score 0 (hello_at (set_disk dk f2) (WSaved task' lc 0) fin) _ _ _ _ eq_refl E4))|].
  eapply rtc_l; [exact (ws_worker 0 _ _ (w_count 0 (hello_at f3 (WScored task' lc) fin) _ _ _ _ eq_refl E5))|].
  apply rtc_once. exact (ws_worker 0 _ _ (w_complete 0 (hello_at f4 (WCounted task' lc p) (key_of task' :: fin)) _ _ _ _
    eq_refl E6)).
Qed.

(** Files of two and four bytes, in pieces of two. *)
Definition pair_files : list File := [mkFile [str "a"] 2; mkFile [str "b"] 4].
Definition pair_text : bytes :=
  encode (metainfo (str "http://t") (multi_layout pair_files) (str "n") 2
    (map (fun s => sha1_ref (str s)) ["ab"; "cd"; "ef"]%string)).
Definition pair_sys : sys := sys_new (Io.mkDisk {[ str "t.torrent" := pair_text ]} ∅ (fun _ => None)) 1.
Definition pair_f0 : Furrent := after (add_torrent hello_http (str "t.torrent") (fur pair_sys)) (fur pair_sys).
Definition pair_descriptor : TorrentFile := t_descriptor (torrent_at 0 (f_torrents pair_f0)).
Definition pair_net (i : byte) (data : bytes) : Socket.net :=
  Socket.mkNet false (map done_with
    [[]; []; handshake_message pair_descriptor;
     [x00; x00; x00; x02]; [x05; xe0]; []; [];
     [x00; x00; x00; x01]; [x01]; [];
     [x00; x00; x00; x0b]; [x07; x00; x00; x00; i] ++ replicate 4 x00 ++ data]) [] false.
Definition next_round (n : Socket.net) (f : Furrent) : Furrent :=
  match round n f with Some (f', _) => f' | None => f end.
Definition pair_f1 : Furrent := next_round (pair_net x00 (str "ab")) pair_f0.
Definition pair_f2 : Furrent := next_round (pair_net x01 (str "cd")) pair_f1.
Definition pair_f3 : Furrent := next_round (pair_net x02 (str "ef")) pair_f2.

(** The second file is right; the first has the first piece of the second at its end. *)
Example pair_on_disk :
  Io.contents (f_disk pair_f3) !! str "./n/a" = Some (str "abcd") /\
  Io.contents (f_disk pair_f3) !! str "./n/b" = Some (str "cdef").
Proof. vm_compute. split; reflexivity. Qed.

Lemma pair_added : add_torrent hello_http (str "t.torrent") (fur pair_sys) = Ret (OK 0, pair_f0).
Proof. vm_compute. reflexivity. Qed.
Lemma pair_round1 : round (pair_net x00 (str "ab")) pair_f0 = Some (pair_f1, (0, 0)).
Proof. vm_compute. reflexivity. Qed.
Lemma pair_round2 : round (pair_net x01 (str "cd")) pair_f1 = Some (pair_f2, (0, 1)).
Proof. vm_compute. reflexivity. Qed.
Lemma pair_round3 : round (pair_net x02 (str "ef")) pair_f2 = Some (pair_f3, (0, 2)).
Proof. vm_compute. reflexivity. Qed.
Lemma pair_t0 : f_torrents pair_f0 !! 0 = Some (torrent_at 0 (f_torrents pair_f0)).
Proof. vm_compute. reflexivity. Qed.
Lemma pair_t3 : f_torrents pair_f3 !! 0 = Some (torrent_at 0 (f_torrents pair_f3)).
Proof. vm_compute. reflexivity. Qed.
Lemma pair_completed : t_state (torrent_at 0 (f_torrents pair_f3)) = Completed.
Proof. vm_compute. reflexivity. Qed.

Definition pair_end : sys := hello_at pair_f3 WIdle [(0, 2); (0, 1); (0, 0)].

Lemma pair_runs : work_steps (hello_at pair_f0 WIdle []) pair_end.
Proof.
  etransitivity; [exact (round_steps _ _ _ _ _ pair_round1)|].
  etransitivity; [exact (round_steps _ _ _ _ _ pair_round2)|].
  exact (round_steps _ _ _ _ _ pair_round3).
Qed.

(** The layout of the descriptor. *)
Lemma pair_layout :
  files pair_descriptor = pair_files /\ tlength pair_descriptor = 6 /\ piece_length pair_descriptor = 2 /\
  pieces_count pair_descriptor = 3 /\ folder_name pair_descriptor = str "./n".
Proof. vm_compute. split_and!; reflexivity. Qed.

Lemma pair_wf : layout_wf pair_descriptor.
Proof.
  destruct pair_layout as (Ef & Et & Ep & Ec & _). revert Ef Et Ep Ec. generalize pair_descriptor.
  intros d Ef Et Ep Ec. split; rewrite ?Ef, ?Et, ?Ep, ?Ec; try done.
  - by repeat constructor.
  - by repeat constructor.
  - by left.
Qed.

Lemma pair_unsplit : unsplit pair_descriptor.
Proof.
  destruct pair_layout as (Ef & Et & Ep & Ec & _). revert Ef Et Ep Ec. generalize pair_descriptor.
  intros d Ef Et Ep Ec i Hi. unfold piece_end. rewrite Ef, Et, Ep. rewrite Ec in Hi.
  assert (i = 0 \/ i = 1 \/ i = 2) as [-> | [-> | ->]] by lia; eexists; vm_compute; reflexivity.
Qed.

Lemma pair_plain : Forall plain_name (files pair_descriptor).
Proof.
  destruct pair_layout as (-> & _). repeat constructor.
  - exists (str "a"). split; [done|]. by intros [?|?%not_elem_of_nil]%elem_of_cons.
  - exists (str "b"). split; [done|]. by intros [?|?%not_elem_of_nil]%elem_of_cons.
Qed.

Lemma pair_unshared path : unshared pair_sys path.
Proof.
  intros task [H|(j & w & Hj & H)]; exfalso.
  - by apply not_elem_of_nil in H.
  - destruct j; [|done]. injection Hj as <-. by apply not_elem_of_nil in H.
Qed.

Lemma pair_reached : reaches pair_end.
Proof.
  refine (work_steps_reach _ _ _ pair_runs).
  eapply reaches_step; [apply reaches_new|]. by apply (s_add pair_sys _ _ _ _ eq_refl pair_added).
Qed.

Lemma completed_files_verified_witness :
  let d := pair_descriptor in
  let dk := f_disk pair_f3 in
  (forall f, f ∈ files d -> exists c, Io.contents dk !! file_path d f = Some c /\ flength f <= zlen c) /\
  (forall i pre f suf, 0 <= i < pieces_count d -> files d = pre ++ f :: suf ->
    total pre <= i * piece_length d < total pre + flength f -> intact d pre ->
    exists c, Io.contents dk !! file_path d f = Some c /\ piece_end d i - total pre <= zlen c /\
      piece_hashes d !! Z.to_nat i =
        Some (sha1_ref (slice c (i * piece_length d - total pre) (piece_end d i - total pre)))) /\
  (unsplit d -> forall i, 0 <= i < pieces_count d -> exists pre f suf,
    files d = pre ++ f :: suf /\ intact d pre /\
    total pre <= i * piece_length d /\ piece_end d i <= total pre + flength f).
Proof.
  exact (completed_files_verified pair_sys hello_http (str "t.torrent") 0 pair_f0
    (torrent_at 0 (f_torrents pair_f0)) pair_end (torrent_at 0 (f_torrents pair_f3))
    (reaches_new _ _) eq_refl pair_added pair_t0 pair_wf pair_plain
    (fun f _ => pair_unshared _) pair_runs pair_t3 pair_completed).
Defined.

(** ** A sample session with a piece in two files *)

(** Files of one and three bytes, in pieces of two. *)
Definition split_files : list File := [mkFile [str "a"] 1; mkFile [str "b"] 3].
Definition split_text : bytes :=
  encode (metainfo (str "http://t") (multi_layout split_files) (str "n") 2
    (map (fun s => sha1_ref (str s)) ["ab"; "cd"]%string)).
Definition split_sys : sys := sys_new (Io.mkDisk {[ str "t.torrent" := split_text ]} ∅ (fun _ => None)) 1.
Definition split_f0 : Furrent := after (add_torrent hello_http (str "t.torrent") (fur split_sys)) (fur split_sys).
Definition split_descriptor : TorrentFile := t_descriptor (torrent_at 0 (f_torrents split_f0)).
Definition split_net (i : byte) (data : bytes) : Socket.net :=
  Socket.mkNet false (map done_with
    [[]; []; handshake_message split_descriptor;
     [x00; x00; x00; x02]; [x05; xc0]; []; [];
     [x00; x00; x00; x01]; [x01]; [];
     [x00; x00; x00; x0b]; [x07; x00; x00; x00; i] ++ replicate 4 x00 ++ data]) [] false.
Definition split_f1 : Furrent := next_round (split_net x00 (str "ab")) split_f0.
Definition split_f2 : Furrent := next_round (split_net x01 (str "cd")) split_f1.
Definition split_end : sys := hello_at split_f2 WIdle [(0, 1); (0, 0)].

Lemma split_added : add_torrent hello_http (str "t.torrent") (fur split_sys) = Ret (OK 0, split_f0).
Proof. vm_compute. reflexivity. Qed.
Lemma split_round1 : round (split_net x00 (str "ab")) split_f0 = Some (split_f1, (0, 0)).
Proof. vm_compute. reflexivity. Qed.
Lemma split_round2 : round (split_net x01 (str "cd")) split_f1 = Some (split_f2, (0, 1)).
Proof. vm_compute. reflexivity. Qed.
Lemma split_t2 : f_torrents split_f2 !! 0 = Some (torrent_at 0 (f_torrents split_f2)).
Proof. vm_compute. reflexivity. Qed.
Lemma split_completed : t_state (torrent_at 0 (f_torrents split_f2)) = Completed.
Proof. vm_compute. reflexivity. Qed.
Lemma split_on_disk : Io.contents (f_disk split_f2) !! str "./n/b" = Some (str "acd").
Proof. vm_compute. reflexivity. Qed.

Lemma split_reached : reaches split_end.
Proof.
  refine (work_steps_reach (hello_at split_f0 WIdle []) _ _ _).
  - eapply reaches_step; [apply reaches_new|]. by apply (s_add split_sys _ _ _ _ eq_refl split_added).
  - etransitivity; [exact (round_steps _ _ _ _ _ split_round1)|]. exact (round_steps _ _ _ _ _ split_round2).
Qed.

Lemma split_layout :
  files split_descriptor = split_files /\ tlength split_descriptor = 4 /\ piece_length split_descriptor = 2 /\
  pieces_count split_descriptor = 2 /\ folder_name split_descriptor = str "./n" /\
  piece_hashes split_descriptor = map (fun s => sha1_ref (str s)) ["ab"; "cd"]%string.
Proof. vm_compute. split_and!; reflexivity. Qed.

Lemma split_wf : layout_wf split_descriptor.
Proof.
  destruct split_layout as (Ef & Et & Ep & Ec & _). revert Ef Et Ep Ec. generalize split_descriptor.
  intros d Ef Et Ep Ec. split; rewrite ?Ef, ?Et, ?Ep, ?Ec; try done.
  - by repeat constructor.
  - by repeat constructor.
  - by left.
Qed.

(** The digests are those of the content. *)
Definition digests_of (d : TorrentFile) (whole : bytes) : Prop :=
  zlen whole = tlength d /\
  forall i, 0 <= i < pieces_count d -> piece_hashes d !! Z.to_nat i = Some (sha1_ref (piece_in d whole i)).

Lemma split_digests : digests_of split_descriptor (str "abcd").
Proof.
  destruct split_layout as (_ & Et & Ep & Ec & _ & Eh). revert Et Ep Ec Eh. generalize split_descriptor.
  intros d Et Ep Ec Eh. split; [by rewrite Et|]. rewrite Ec. intros i Hi. unfold piece_in, piece_end. rewrite Et, Ep, Eh.
  assert (i = 0 \/ i = 1) as [-> | ->] by lia; vm_compute; reflexivity.
Qed.

(** C25: a completed torrent can have wrong files. There are reachable states in
    which a torrent is reported as completed, every piece checked against the
    digests of a content, and a file on disk has its length and differs from its
    part of that content, because a piece that spans two files was written whole to both;
    or, when no piece spans two files, a file is too long, because a piece that
    starts a file was also written behind the end of the file before. *)
Theorem completed_files_wrong :
  (exists s t whole pre f suf c, reaches s /\ f_torrents (fur s) !! 0 = Some t /\ t_state t = Completed /\
    layout_wf (t_descriptor t) /\ digests_of (t_descriptor t) whole /\
    files (t_descriptor t) = pre ++ f :: suf /\
    Io.contents (f_disk (fur s)) !! file_path (t_descriptor t) f = Some c /\ zlen c = flength f /\
    c <> slice whole (total pre) (total pre + flength f)) /\
  (exists s t f c, reaches s /\ f_torrents (fur s) !! 0 = Some t /\ t_state t = Completed /\
    layout_wf (t_descriptor t) /\ unsplit (t_descriptor t) /\ f ∈ files (t_descriptor t) /\
    Io.contents (f_disk (fur s)) !! file_path (t_descriptor t) f = Some c /\ flength f < zlen c).
Proof.
  split.
  - exists split_end, (torrent_at 0 (f_torrents split_f2)), (str "abcd"), [mkFile [str "a"] 1],
      (mkFile [str "b"] 3), [], (str "acd").
    assert (E : t_descriptor (torrent_at 0 (f_torrents split_f2)) = split_descriptor) by (vm_compute; reflexivity).
    rewrite E. pose proof split_layout as (Ef & _ & _ & _ & Ed & _). split_and!.
    + exact split_reached.
    + exact split_t2.
    + exact split_completed.
    + exact split_wf.
    + exact split_digests.
    + exact Ef.
    + unfold file_path. rewrite Ed. exact split_on_disk.
    + reflexivity.
    + by vm_compute.
  - exists pair_end, (torrent_at 0 (f_torrents pair_f3)), (mkFile [str "a"] 2), (str "abcd").
    assert (E : t_descriptor (torrent_at 0 (f_torrents pair_f3)) = pair_descriptor) by (vm_compute; reflexivity).
    rewrite E. pose proof pair_layout as (Ef & _ & _ & _ & Ed). split_and!.
    + exact pair_reached.
    + exact pair_t3.
    + exact pair_completed.
    + exact pair_wf.
    + exact pair_unsplit.
    + rewrite Ef. by left.
    + unfold file_path. rewrite Ed. apply pair_on_disk.
    + reflexivity.
Qed.
