(* ===== verification/Swarm.v ===== *)
(** * Swarm: a cooperative swarm completes a torrent

    Liveness of the system of [System]: from a registered torrent of one file, if
    the peers cooperate, one worker is enough to bring the torrent to completion
    with the whole content on disk. *)
From S2P Require Import Prelude Bencode Sha1Spec Hash Descriptor Pieces Peer Torrent Message.
From S2P Require Import Socket Downloader DownloaderSpec DownloaderRuns Queue Io Task Furrent.
From S2P Require Import System Session.
Local Open Scope Z_scope.

(** ** The operations of a worker on a known torrent *)

Section runs.
Context (task : PieceTask) (f : Furrent) (t : Torrent).
Context (Ht : f_torrents f !! Task.tid task = Some t).

Lemma look_run :
t_state t <> Paused ->
worker_look task f = Ret (Some (t_peers t, t_peers_score t),
  set_torrents (<[Task.tid task := t]> (f_torrents f)) f).
Proof.
intros Hp. unfold worker_look. cbv [mbind st_bind get modify mret st_ret]. cbn.
unfold torrent_at. rewrite Ht. cbn. by rewrite decide_False.
Qed.

Lemma score_run x ws :
t_peers_score t = x :: ws ->
worker_score task 0 f = Ret (tt, set_torrents (<[Task.tid task :=
  mkTorrent (t_tid t) (t_descriptor t) (t_peers t) (wrap64 (x + 1) :: ws) (t_update_interval t)
    (t_state t) (t_pieces_processed t)]> (f_torrents f)) f).
Proof.
intros Hs. unfold worker_score. cbv [mbind st_bind get modify lift]. cbn.
unfold torrent_at. rewrite Ht. cbn [default from_option id]. unfold atomic_add_peer_score. rewrite Hs.
destruct (Z.ltb_spec 0 (zlen (x :: ws))); [|zlen_lia].
replace (vget (x :: ws) 0) with (Ret x) by (symmetry; apply vget_lookup; split; [zlen_lia|done]).
cbn. unfold vset. rewrite bool_decide_true by zlen_lia. done.
Qed.

Lemma count_run :
let k := t_pieces_processed t + 1 in
- 2 ^ 63 <= k < 2 ^ 63 ->
worker_count task f = Ret (k, set_torrents (<[Task.tid task := processed_to k t]> (f_torrents f)) f).
Proof.
intros k Hk. unfold worker_count. cbv [mbind st_bind get modify lift]. cbn.
unfold torrent_at. rewrite Ht. cbn [default from_option id]. fold k. rewrite wrap64_small by lia.
rewrite i64_ok by lia. done.
Qed.

Lemma complete_run k :
worker_complete task k f = Ret (tt, if k =? pieces_count (t_descriptor t)
  then set_torrents (<[Task.tid task := set_state Completed t]> (f_torrents f)) f else f).
Proof.
unfold worker_complete. cbv [mbind st_bind get modify mret st_ret].
unfold torrent_at. rewrite Ht. cbn [default from_option id]. by destruct (k =? _).
Qed.
End runs.

Section swarm.
Context (d : TorrentFile) (f : File) (id : Z) (whole resp bits : bytes).
Context (Hd : layout_wf d) (Hf : files d = [f]) (Hw : zlen whole = tlength d).
Context (Hresp : good_response d resp).

(** The peer has every piece, and the digests are those of the content. *)
Definition seeds : Prop :=
forall i, 0 <= i < pieces_count d ->
  offered d (single_piece d f i) bits (piece_end d i - i * piece_length d) /\
  8 * (piece_end d i - i * piece_length d) < 2 ^ 32 /\
  piece_hashes d !! Z.to_nat i = Some (sha1_ref (piece_in d whole i)).
Context (Hseeds : seeds).

(** The network of an attempt on piece [i]. *)
Definition seed_net (i : Z) : Socket.net :=
Socket.mkNet false (welcome d resp bits ++
  cooperation i (piece_in d whole i) (Z.to_nat (n_blocks (piece_in d whole i))) 0 0 ++ []) [] false.

Definition fresh_task (i : Z) : PieceTask := PieceTask_new id (single_piece d f i) d.

(** The attempt on piece [i] downloads and saves it. *)
Lemma attempt_run peer i dk content saved :
0 <= i < pieces_count d -> Io.refuses dk (file_path d f) = None ->
Io.contents dk !! file_path d f = Some content -> in_place d whole saved content ->
exists content' n' dk',
  process peer (fresh_task i) (seed_net i, dk) = Ret ((true, loaded d f whole id i), (n', dk')) /\
  dk' = Io.set_contents (<[file_path d f := content']> (Io.contents dk)) dk /\
  in_place d whole (i :: saved) content'.
Proof.
intros Hi Hr Hc Hp. destruct (Hseeds i Hi) as (Ho & Hlen & Hh).
destruct (piece_range d Hd i Hi) as (H1 & H2 & _).
assert (Hz : zlen (piece_in d whole i) = piece_end d i - i * piece_length d).
{ apply zlen_slice; lia. }
destruct (cooperative_run d peer (single_piece d f i) resp bits (piece_in d whole i) false [] [] false)
  as (d' & E & _); [by rewrite Hz|done|by rewrite Hz|done|].
destruct (save_loaded_run d f Hd whole Hw id dk content i saved Hi Hr Hc Hp) as (c' & Es & Hp').
eexists c', _, _. split; [|split; [reflexivity|done]].
unfold process, download. cbn [descriptor fresh_task PieceTask_new task_piece]. unfold seed_net.
cbn [index single_piece] in E. rewrite E. cbn [mbind cxx_bind].
change (mkTask (Some _) _ _ _) with (loaded d f whole id i). rewrite Es. reflexivity.
Qed.

(** The first [k] pieces are done, by one worker that always draws the first
  peer. *)
Definition torrent_ready (k : Z) (t : Torrent) : Prop :=
t_descriptor t = d /\ t_state t <> Paused /\ t_pieces_processed t = k /\
(0 < k -> k = pieces_count d -> t_state t = Completed) /\
exists p ps ws, t_peers t = p :: ps /\ t_peers_score t = (k + 1) :: ws.

Definition disk_ready (k : Z) (dk : Io.disk) : Prop :=
Io.refuses dk (file_path d f) = None /\
exists content saved, Io.contents dk !! file_path d f = Some content /\
  (forall i, 0 <= i < k -> i ∈ saved) /\ in_place d whole saved content.

Record ready (k : Z) (s : sys) : Prop := {
rd_worker : workers s = [WIdle];
rd_queue : f_tasks (fur s) = map fresh_task (seqZ k (pieces_count d - k));
rd_torrent : exists t, f_torrents (fur s) !! id = Some t /\ torrent_ready k t;
rd_disk : disk_ready k (f_disk (fur s));
}.

Lemma piece_runs k s :
0 <= k < pieces_count d -> ready k s -> exists s', work_steps s s' /\ ready (k + 1) s'.
Proof.
intros Hk [Hws Hq (t & Ht & Htd & Hp & Hpr & _ & p & ps & ws & Hpe & Hsc) (Hr & c & saved & Hc & Hsv & Hin)].
destruct s as [[ts m uid fo dk] wks ow fin pur]. cbn in *. subst wks.
destruct (attempt_run p k dk c saved Hk Hr Hc Hin) as (c' & n' & dk' & Ea & -> & Hin').
rewrite seqZ_cons in Hq by lia. cbn [map] in Hq.
pose proof (lw_count _ Hd) as Hcount. change pieces_max_size with 288230376151711743 in Hcount.
set (task := fresh_task k) in *. set (task' := loaded d f whole id k) in *.
set (rest := map fresh_task (seqZ (Z.succ k) (Z.pred (pieces_count d - k)))) in *.
set (dk' := Io.set_contents _ dk) in *.
set (t1 := mkTorrent (t_tid t) (t_descriptor t) (t_peers t) (wrap64 (k + 1 + 1) :: ws) (t_update_interval t)
    (t_state t) (t_pieces_processed t)).
assert (Hwr : wrap64 (k + 1 + 1) = k + 1 + 1) by (apply wrap64_small; lia).
set (t2 := processed_to (k + 1) t1).
set (t3 := if k + 1 =? pieces_count d then set_state Completed t2 else t2).
exists (mkSys (mkFurrent rest (<[id := t3]> m) uid fo dk') [WIdle] ow (key_of task' :: fin) pur). split.
- eapply rtc_l; [apply (ws_worker 0); by apply (w_extract 0 _ task (mkFurrent rest m uid fo dk)); [|rewrite Hq]|].
  cbn. eapply rtc_l; [apply (ws_worker 0), (w_look 0 _ task); [done|]; by apply (look_run task _ t)|].
  cbn. eapply rtc_l.
  { apply (ws_worker 0), (w_attempt 0 _ task (t_peers t) (t_peers_score t) 0 (k + 1) p (seed_net k) true task' n' dk');
      [done|by rewrite Hsc|lia|by rewrite Hpe|exact Ea]. }
  cbn. eapply rtc_l; [apply (ws_worker 0), (w_score 0 _ task' (t_peers t, t_peers_score t) 0); [done|]; apply (score_run task' _ t);
    [apply lookup_insert_eq|exact Hsc]|].
  cbn. eapply rtc_l; [apply (ws_worker 0), (w_count 0 _ task' (t_peers t, t_peers_score t)); [done|]; apply (count_run task' _ t1);
    [apply lookup_insert_eq|cbn; lia]|].
  cbn. eapply rtc_l; [apply (ws_worker 0), (w_complete 0 _ task' (t_peers t, t_peers_score t) (t_pieces_processed t1 + 1)); [done|];
    eapply (complete_run task'); apply lookup_insert_eq|].
  unfold t3, t2, t1, processed_to, set_torrents, set_disk. cbn. rewrite Hpr, Htd.
  destruct (k + 1 =? pieces_count d); cbn; rewrite !insert_insert_eq; apply rtc_refl.
- split; cbn; [done| | |].
  + unfold rest. do 2 f_equal; lia.
  + exists t3. rewrite lookup_insert_eq. split; [done|]. unfold t3.
    destruct (Z.eqb_spec (k + 1) (pieces_count d)); split_and!; try done; try lia.
    all: exists p, ps, ws; cbn; by rewrite Hwr.
  + split; [done|]. exists c', (k :: saved). unfold dk'. cbn. rewrite lookup_insert_eq. split_and!; [done| |done].
    intros i Hi. destruct (decide (i = k)) as [->|]; [by left|]. right. apply Hsv. lia.
Qed.

Lemma swarm_runs n k s :
0 <= k -> Z.of_nat n = pieces_count d - k -> ready k s ->
exists s', work_steps s s' /\ ready (pieces_count d) s'.
Proof.
revert k s. induction n as [|n IH]; intros k s Hk Hn Hs.
{ exists s. split; [apply rtc_refl|]. by replace (pieces_count d) with k by lia. }
destruct (piece_runs k s ltac:(lia) Hs) as (s1 & H1 & Hs1).
destruct (IH (k + 1) s1 ltac:(lia) ltac:(lia) Hs1) as (s2 & H2 & Hs2).
exists s2. split; [by etransitivity|done].
Qed.
End swarm.

(** ** Claims *)

(** Liveness. From a state where a torrent of one file has just been
    registered, with one idle worker and a peer that seeds it (it answers the
    handshake, has every piece and sends the blocks as they are requested), the
    worker can bring the torrent to completion, and then the file is exactly the
    content of the torrent. *)
Lemma swarm_completes d f id whole resp bits s :
  layout_wf d -> files d = [f] -> zlen whole = tlength d -> 0 < pieces_count d ->
  good_response d resp -> seeds d f whole bits -> ready d f id whole 0 s ->
  exists s' t, work_steps s s' /\ f_torrents (fur s') !! id = Some t /\ t_state t = Completed /\
    Io.contents (f_disk (fur s')) !! file_path d f = Some whole.
Proof.
  intros Hd Hf Hw Hc Hr Hs H.
  destruct (swarm_runs d f id whole resp bits Hd Hw Hr Hs (Z.to_nat (pieces_count d)) 0 s)
    as (s' & Hsteps & [_ _ (t & Ht & _ & _ & _ & Hst & _) (_ & c & saved & Hcon & Hall & Hin)]);
    [lia|lia|done|].
  exists s', t. split_and!; [done|done|by apply Hst|]. rewrite Hcon. f_equal.
  by apply (in_place_all d Hd whole Hw saved).
Qed.

Lemma hello_seeds : seeds hello_descriptor (mkFile [str "n"] 5) (str "hello") [x80].
Proof.
  intros i Hi. assert (i = 0) as ->.
  { assert (pieces_count hello_descriptor = 1) by (vm_compute; reflexivity). lia. }
  split; [split|]; [vm_compute..|split]; try (vm_compute; reflexivity).
  all: try (vm_compute; split; (discriminate || reflexivity)). all: vm_compute; discriminate.
Qed.


Lemma hello_ready :
  ready hello_descriptor (mkFile [str "n"] 5) 0 (str "hello") 0 (hello_at hello_f1 WIdle []).
Proof.
  split.
  - done.
  - vm_compute. reflexivity.
  - exists (torrent_at 0 (f_torrents hello_f1)). split; [exact hello_t0|]. split_and!.
    + reflexivity.
    + vm_compute. discriminate.
    + vm_compute. reflexivity.
    + lia.
    + eexists _, _, _. split; vm_compute; reflexivity.
  - split; [vm_compute; reflexivity|]. eexists _, []. split; [vm_compute; reflexivity|].
    split; [lia|]. split; [vm_compute; reflexivity|]. by intros i k Hi%not_elem_of_nil.
Qed.

Lemma hello_good_response : good_response hello_descriptor (handshake_message hello_descriptor).
Proof. split; vm_compute; reflexivity. Qed.
Lemma hello_size : zlen (str "hello") = tlength hello_descriptor.
Proof. vm_compute. reflexivity. Qed.
Lemma hello_count_pos : 0 < pieces_count hello_descriptor.
Proof. vm_compute. reflexivity. Qed.

Example hello_swarm :
  exists s' t, work_steps (hello_at hello_f1 WIdle []) s' /\ f_torrents (fur s') !! 0 = Some t /\
    t_state t = Completed /\
    Io.contents (f_disk (fur s')) !! file_path hello_descriptor (mkFile [str "n"] 5) = Some (str "hello").
Proof.
  exact (swarm_completes hello_descriptor (mkFile [str "n"] 5) 0 (str "hello")
    (handshake_message hello_descriptor) [x80] (hello_at hello_f1 WIdle []) hello_wf hello_files
    hello_size hello_count_pos hello_good_response hello_seeds hello_ready).
Qed.
