(* ===== verification/FurrentSpec.v ===== *)
(** * FurrentSpec: the interface of the client on its corner cases

    Removing an identifier that is not in use, removing a torrent while its last
    piece is counted, and adding a torrent whose name and all its copies are
    taken. *)
From S2P Require Import Prelude Bencode Hash Descriptor Pieces Peer Torrent Queue Io Task Furrent.
From S2P Require Import System Session Files Swarm.
Local Open Scope Z_scope.

(** ** Lemmas *)

(** The name after [n] copies. *)
Fixpoint copies (n : nat) (path : bytes) : bytes :=
  match n with O => path | S n => copies n (path ++ str " COPY") end.

Lemma copy_loop_taken n path dk :
  (forall k, (k < n)%nat -> Io.exists_ (copies k path) dk = OK true) ->
  copy_loop n path (Io.exists_ path dk) dk = copies n path.
Proof.
  revert path. induction n as [|n IH]; intros path H; cbn [copy_loop]; [done|].
  pose proof (H 0%nat ltac:(lia)) as H0. cbn [copies] in H0 |- *. rewrite H0. apply IH. intros k Hk. apply (H (S k)). lia.
Qed.

(** Names that are free of files on the way down. *)
Definition only_dirs (path : bytes) (dk : Io.disk) : Prop :=
  Forall (fun p => Io.contents dk !! p = None) (Io.path_prefixes [] path).

Lemma create_directories_run path (skip : bool) dir dk :
  (if skip then Io.before_last_slash path else Some path) = Some dir ->
  Io.refuses dk dir = None -> only_dirs dir dk ->
  exists dk', Io.create_directories path skip dk = Ret (OK dir, dk') /\
    Io.contents dk' = Io.contents dk /\ Io.refuses dk' = Io.refuses dk.
Proof.
  intros Hp Hr Hd. unfold Io.create_directories. rewrite Hp. cbv [mbind st_bind get modify mret st_ret].
  rewrite Hr, bool_decide_false; [by eexists|]. intros [p [Hin [c Hc]]]%Exists_exists.
  unfold only_dirs in Hd. rewrite Forall_forall in Hd. by rewrite Hd in Hc.
Qed.

Lemma remove_run dir dk path :
  Io.refuses dk dir = None -> Io.inside dir path = true ->
  exists dk', Io.remove dir dk = Ret (OK tt, dk') /\ Io.contents dk' !! path = None.
Proof.
  intros Hr Hi. unfold Io.remove. cbv [mbind st_bind get modify mret st_ret]. rewrite Hr.
  eexists. split; [reflexivity|]. cbn. apply map_lookup_filter_None. right. intros c _ H. cbn in H. congruence.
Qed.

Lemma stop_run tid st f t :
  f_torrents f !! tid = Some t -> st <> Completed -> st <> Error ->
  remove_stop tid st f = Ret (tt, set_torrents (<[tid := set_state Stopped t]> (f_torrents f)) f).
Proof.
  intros Ht Hc He. unfold remove_stop. cbv [mbind st_bind get modify]. rewrite decide_True by done.
  unfold torrent_at. by rewrite Ht.
Qed.

(** ** Claims *)

(** Removing an identifier that no torrent has. [remove_torrent] returns,
    but leaves an empty torrent in state Error under that identifier; if the
    identifier is the next one to be given out, the next [add_torrent] fails. *)
Theorem remove_unknown_blocks tid f :
  f_torrents f !! tid = None ->
  exists f', remove_torrent tid f = Ret (tt, f') /\ f_torrents f' !! tid = Some Torrent_empty /\
    f_next_uid f' = f_next_uid f /\
    forall http filename r f2, tid = f_next_uid f ->
      add_torrent http filename f' = Ret (r, f2) -> valid r = false.
Proof.
  intros Hn. unfold remove_torrent, remove_tasks, remove_load, remove_stop.
  cbv [mbind st_bind get modify mret st_ret]. cbn. unfold torrent_at. rewrite Hn. cbn.
  eexists. split; [reflexivity|]. cbn. rewrite lookup_insert_eq. split_and!; [done..|].
  intros http filename r f2 -> [(_ & _ & ->)|(d0 & d & g & H & [_ Hg] & _)]%add_spec; [done|].
  cbn [f_next_uid set_torrents set_tasks f_torrents] in *.
  apply register_spec in H as (t & [Hc|(Hc & _)] & _ & _ & [(_ & -> & _)|(Hp & _)]); try done.
  all: rewrite Hg, lookup_insert_eq in Hc; first [discriminate Hc|by injection Hc as <-].
Qed.

Lemma remove_unknown_blocks_witness :
  exists f', remove_torrent 0 (fur hello_sys) = Ret (tt, f') /\
    f_torrents f' !! 0 = Some Torrent_empty /\ f_next_uid f' = 0 /\
    forall http filename r f2, 0 = 0 -> add_torrent http filename f' = Ret (r, f2) -> valid r = false.
Proof. exact (remove_unknown_blocks 0 (fur hello_sys) eq_refl). Defined.

(** Adding a torrent whose name and ten copies of it are taken destroys an earlier
    download. [prepare_torrent_files] takes the directory of the tenth
    copy although it exists, finds the first file there, reports failure and
    removes the directory with that file. *)
Lemma copies_exhausted folder d f rest dk :
  let dir := copies MAX_COPY_ATTEMPTS (folder ++ str "/" ++ name d) in
  let path := dir ++ str "/" ++ join_path (filepath f) in
  (forall k, (k < MAX_COPY_ATTEMPTS)%nat -> Io.exists_ (copies k (folder ++ str "/" ++ name d)) dk = OK true) ->
  (forall p, Io.refuses dk p = None) -> files d = f :: rest -> plain_name f ->
  zlen (filepath f) <= int64_max -> only_dirs dir dk ->
  (forall a, Io.before_last_slash path = Some a -> only_dirs a dk) ->
  is_Some (Io.contents dk !! path) ->
  exists d' dk', prepare_torrent_files folder d dk = Ret ((false, d'), dk') /\
    Io.contents dk' !! path = None.
Proof.
  intros dir path Hex Hr Hf (l & Hl & Hns) Hz Ho Ho2 [c Hc]. unfold prepare_torrent_files.
  cbv [mbind st_bind get]. rewrite copy_loop_taken by done. fold dir.
  destruct (create_directories_run dir false dir dk eq_refl (Hr _) Ho) as (dk1 & -> & Hc1 & Hr1).
  cbn [files]. rewrite Hf. cbn [create_files]. cbv [mbind st_bind lift]. rewrite filename_join by done.
  run_bind. fold path.
  destruct (join_path_last dir (filepath f) l Hl) as [a Ha]. fold path in Ha.
  assert (Hb : Io.before_last_slash path = Some a) by (rewrite Ha; by apply before_last_slash_app).
  destruct (create_directories_run path true a dk1 Hb) as (dk2 & -> & Hc2 & Hr2).
  { by rewrite Hr1. } { unfold only_dirs. rewrite Hc1. by apply Ho2. }
  rewrite Hl. run_bind. rewrite <- Ha.
  assert (Ht : Io.touch path (flength f) dk2 = Ret (ERROR Io.FileAlreadyExists, dk2)).
  { unfold Io.touch, Io.exists_. cbv [mbind st_bind get mret st_ret]. rewrite Hr2, Hr1, Hr.
    rewrite bool_decide_true; [done|]. left. rewrite Hc2, Hc1. by exists c. }
  rewrite Ht. cbv [mret st_ret].
  destruct (remove_run dir dk2 path) as (dk3 & -> & Hc3).
  { by rewrite Hr2, Hr1. }
  { unfold Io.inside. apply bool_decide_eq_true. right. unfold path. rewrite app_assoc. by apply prefix_app_r. }
  by eexists _, _.
Qed.

(** A disk with the folder "./n" and nine copies of it. *)
Definition crowded : Io.disk :=
  Io.mkDisk {[ str "t.torrent" := hello_text ]}
    (list_to_set (map (fun k => copies k (str "./n")) (seq 0 10))) (fun _ => None).
Definition crowded_sys : sys := sys_new crowded 1.
Definition crowded_f0 : Furrent :=
  after (add_torrent hello_http (str "t.torrent") (fur crowded_sys)) (fur crowded_sys).
Definition crowded_f1 : Furrent := next_round hello_net crowded_f0.
Definition crowded_f2 : Furrent := after (add_torrent hello_http (str "t.torrent") crowded_f1) crowded_f1.

Lemma crowded_added : add_torrent hello_http (str "t.torrent") (fur crowded_sys) = Ret (OK 0, crowded_f0).
Proof. vm_compute. reflexivity. Qed.
Lemma crowded_round : round hello_net crowded_f0 = Some (crowded_f1, (0, 0)).
Proof. vm_compute. reflexivity. Qed.
Lemma crowded_failed :
  add_torrent hello_http (str "t.torrent") crowded_f1 = Ret (ERROR LoadingTorrentFailed, crowded_f2).
Proof. vm_compute. reflexivity. Qed.
Lemma crowded_kept : f_torrents crowded_f2 = f_torrents crowded_f1.
Proof. vm_compute. reflexivity. Qed.
Lemma crowded_t1 : f_torrents crowded_f1 !! 0 = Some (torrent_at 0 (f_torrents crowded_f1)).
Proof. vm_compute. reflexivity. Qed.
Lemma crowded_done :
  t_state (torrent_at 0 (f_torrents crowded_f1)) = Completed /\
  files (t_descriptor (torrent_at 0 (f_torrents crowded_f1))) = [mkFile [str "n"] 5] /\
  file_path (t_descriptor (torrent_at 0 (f_torrents crowded_f1))) (mkFile [str "n"] 5) =
    copies 10 (str "./n") ++ str "/n".
Proof. vm_compute. split_and!; reflexivity. Qed.
Lemma crowded_on_disk :
  Io.contents (f_disk crowded_f1) !! (copies 10 (str "./n") ++ str "/n") = Some (str "hello") /\
  Io.contents (f_disk crowded_f2) !! (copies 10 (str "./n") ++ str "/n") = None.
Proof. vm_compute. split; reflexivity. Qed.

Lemma crowded_reached : reaches (hello_at crowded_f1 WIdle [(0, 0)]).
Proof.
  refine (work_steps_reach (hello_at crowded_f0 WIdle []) _ _ (round_steps _ _ _ _ _ crowded_round)).
  eapply reaches_step; [apply reaches_new|]. by apply (s_add crowded_sys _ _ _ _ eq_refl crowded_added).
Qed.

(** C34: an add that fails can destroy a completed torrent. There is a reachable
    state with a completed torrent and its file on disk, in which adding a torrent
    with the same name fails, and then the first torrent is still reported as
    completed but its file is gone: with ten copies of the name taken,
    [prepare_torrent_files] takes the folder of the last one although it exists,
    finds a file there, reports failure and removes the folder. *)
Theorem completed_files_removed :
  exists s http filename e f' t f c,
    reaches s /\ owner s = CIdle /\ f_torrents (fur s) !! 0 = Some t /\ t_state t = Completed /\
    f ∈ files (t_descriptor t) /\ Io.contents (f_disk (fur s)) !! file_path (t_descriptor t) f = Some c /\
    zlen c = flength f /\
    add_torrent http filename (fur s) = Ret (ERROR e, f') /\
    f_torrents f' !! 0 = Some t /\ Io.contents (f_disk f') !! file_path (t_descriptor t) f = None.
Proof.
  exists (hello_at crowded_f1 WIdle [(0, 0)]), hello_http, (str "t.torrent"), LoadingTorrentFailed, crowded_f2,
    (torrent_at 0 (f_torrents crowded_f1)), (mkFile [str "n"] 5), (str "hello").
  destruct crowded_done as (H1 & -> & ->). destruct crowded_on_disk as [H3 H4]. split_and!.
  - exact crowded_reached.
  - reflexivity.
  - exact crowded_t1.
  - exact H1.
  - by left.
  - exact H3.
  - reflexivity.
  - exact crowded_failed.
  - rewrite crowded_kept. exact crowded_t1.
  - exact H4.
Qed.

(** C39: removing a torrent races with its completion. When the owner has loaded
    the state of a torrent, and a worker has counted the last piece but not yet
    recorded the completion, the order of their last steps decides: the torrent
    ends as Stopped although all its pieces are processed, or as Completed although
    it was removed. *)
Theorem remove_races_completion s i task lc t st :
  f_torrents (fur s) !! Task.tid task = Some t ->
  workers s !! i = Some (WCounted task lc (pieces_count (t_descriptor t))) ->
  owner s = CLoaded (Task.tid task) st -> st <> Completed -> st <> Error ->
  exists s1 s2, work_steps s s1 /\ work_steps s s2 /\
    workers s1 = workers s2 /\ owner s1 = CIdle /\ owner s2 = CIdle /\
    f_torrents (fur s1) !! Task.tid task = Some (set_state Stopped t) /\
    f_torrents (fur s2) !! Task.tid task = Some (set_state Completed t).
Proof.
  intros Ht Hi Ho Hc He. pose proof (complete_run task (fur s) t Ht (pieces_count (t_descriptor t))) as E.
  rewrite Z.eqb_refl in E. eexists _, _. split_and!.
  - eapply rtc_l; [eapply (ws_worker i), w_complete; [done|exact E]|].
    apply rtc_once, ws_owner. eapply c_stop; [done|]. by apply stop_run; [apply lookup_insert_eq|..].
  - eapply rtc_l; [eapply ws_owner, c_stop; [done|]; by apply (stop_run _ st _ t)|].
    apply rtc_once. eapply (ws_worker i), w_complete; [done|].
    rewrite (complete_run task _ (set_state Stopped t)) by apply lookup_insert_eq.
    cbn [set_state t_descriptor]. rewrite Z.eqb_refl. reflexivity.
  - done.
  - done.
  - done.
  - cbn. apply lookup_insert_eq.
  - cbn. apply lookup_insert_eq.
Qed.

(** The sample session when the owner has begun to remove the torrent. *)
Definition hello_f6_purged : Furrent := after (remove_tasks 0 hello_f6) hello_f6.
Definition hello_f6_loaded : Furrent := after (remove_load 0 hello_f6_purged) hello_f6_purged.
Definition hello_removing : sys :=
  mkSys hello_f6_loaded [WCounted hello_loaded (hello_peers, [1]) 1] (CLoaded 0 Downloading) [(0, 0)] [].

Lemma hello_removing_reached : rtc work_step (hello_at hello_f6 (WCounted hello_loaded (hello_peers, [1]) 1) [(0, 0)]) hello_removing.
Proof.
  assert (E1 : remove_tasks 0 hello_f6 = Ret (tt, hello_f6_purged)) by (vm_compute; reflexivity).
  assert (E2 : remove_load 0 hello_f6_purged = Ret (Downloading, hello_f6_loaded)) by (vm_compute; reflexivity).
  eapply rtc_l; [exact (ws_owner _ _ (c_purge (hello_at hello_f6 (WCounted hello_loaded (hello_peers, [1]) 1) [(0, 0)]) 0 _
    eq_refl E1))|].
  apply rtc_once. refine (ws_owner _ _ (c_load (mkSys hello_f6_purged [WCounted hello_loaded (hello_peers, [1]) 1] (CPurged 0) [(0, 0)] [])
    0 _ _ eq_refl E2)).
Qed.

Lemma hello_removing_torrent :
  f_torrents hello_f6_loaded !! 0 = Some (torrent_at 0 (f_torrents hello_f6_loaded)).
Proof. vm_compute. reflexivity. Qed.
Lemma hello_removing_count : 1 = pieces_count (t_descriptor (torrent_at 0 (f_torrents hello_f6_loaded))).
Proof. vm_compute. reflexivity. Qed.
Lemma hello_removing_worker : workers hello_removing !! 0%nat =
  Some (WCounted hello_loaded (hello_peers, [1]) (pieces_count (t_descriptor (torrent_at 0 (f_torrents hello_f6_loaded))))).
Proof. by rewrite <- hello_removing_count. Qed.

Lemma remove_races_completion_witness :
  rtc work_step (hello_at hello_f6 (WCounted hello_loaded (hello_peers, [1]) 1) [(0, 0)]) hello_removing /\
  exists s1 s2, work_steps hello_removing s1 /\ work_steps hello_removing s2 /\
    workers s1 = workers s2 /\ owner s1 = CIdle /\ owner s2 = CIdle /\
    f_torrents (fur s1) !! 0 = Some (set_state Stopped (torrent_at 0 (f_torrents hello_f6_loaded))) /\
    f_torrents (fur s2) !! 0 = Some (set_state Completed (torrent_at 0 (f_torrents hello_f6_loaded))).
Proof.
  split; [exact hello_removing_reached|].
  exact (remove_races_completion hello_removing 0 hello_loaded _ _ Downloading hello_removing_torrent
    hello_removing_worker eq_refl ltac:(discriminate) ltac:(discriminate)).
Defined.
