(* ===== verification/Group.v ===== *)
(** * Group: groups of threads (src/mt/group.hpp, group.inl, group.cpp)

    A group launches threads that run the same function, each with a state of
    its own, and joins them when it terminates. What the threads do is the
    client's: here a thread is running, finished or joined. *)
From S2P Require Import Prelude.
Local Open Scope Z_scope.

(** ** Data and operations *)

(** A [std::thread] of the group. *)
Inductive thread : Type := Running | Finished | Joined.

#[export] Instance thread_eq_dec : EqDecision thread.
Proof. solve_decision. Defined.

Section group.
Context {S : Type} (default : S).

(** [ThreadGroup]; the function and the mutex do not change. *)
Record ThreadGroup : Type := mkGroup {
g_threads : list thread;
g_states : list S;
g_should_terminate : bool;
}.

(** [ThreadGroup::ThreadGroup]. *)
Definition ThreadGroup_new : ThreadGroup := mkGroup [] [] false.

(** The number of threads [launch] starts. *)
Definition launch_size (concurrency max_worker_threads : Z) : Z :=
if max_worker_threads =? 0 then concurrency else Z.min concurrency max_worker_threads.

(** [ThreadGroup::launch], with [std::thread::hardware_concurrency()]. *)
Definition launch (concurrency max_worker_threads : Z) (g : ThreadGroup) : cxx ThreadGroup :=
if max_worker_threads <? 0 then Throw (invalid_argument "expected positive number of workers")
else
  let size := Z.to_nat (launch_size concurrency max_worker_threads) in
  Ret (mkGroup (g_threads g ++ replicate size Running) (resize size default (g_states g))
         (g_should_terminate g)).

(** [Runner::alive]. *)
Definition alive (g : ThreadGroup) : bool := negb (g_should_terminate g).

(** [ThreadGroup::thread_main] starts by looking up the state of its index. *)
Definition thread_state (index : Z) (g : ThreadGroup) : cxx S :=
match g_states g !! Z.to_nat index with
| Some s => if index <? 0 then Throw (out_of_range "vector::at") else Ret s
| None => Throw (out_of_range "vector::at")
end.

(** The start of [ThreadGroup::terminate]. *)
Definition terminate_flag (g : ThreadGroup) : ThreadGroup :=
mkGroup (g_threads g) (g_states g) true.

(** The loop of [ThreadGroup::terminate]: [None] while it waits for a thread. A
  thread that was joined before cannot be joined again. *)
Fixpoint join_all (ts : list thread) : cxx (option (list thread)) :=
match ts with
| [] => Ret (Some [])
| Running :: _ => Ret None
| Joined :: _ => Throw (system_error "thread is not joinable")
| Finished :: ts =>
    rest ← join_all ts;
    Ret (option_map (cons Joined) rest)
end.

(** The end of [ThreadGroup::terminate], once it does not wait. *)
Definition terminate_join (g : ThreadGroup) : cxx (option ThreadGroup) :=
r ← join_all (g_threads g);
Ret (option_map (fun ts => mkGroup ts (g_states g) (g_should_terminate g)) r).

(** [ThreadGroup::~ThreadGroup]: whether it terminates. *)
Definition group_destroy (g : ThreadGroup) : bool := negb (g_should_terminate g).

(** [ThreadGroup::get_worker_count]. *)
Definition get_worker_count (g : ThreadGroup) : Z := zlen (g_states g).

(** A thread ends. *)
Definition thread_ends (i : nat) (g : ThreadGroup) : ThreadGroup :=
mkGroup (<[i := Finished]> (g_threads g)) (g_states g) (g_should_terminate g).

Definition set_thread_state (i : nat) (s : S) (g : ThreadGroup) : ThreadGroup :=
mkGroup (g_threads g) (<[i := s]> (g_states g)) (g_should_terminate g).

(** ** Lemmas *)

Lemma join_all_finished ts :
Forall (eq Finished) ts -> join_all ts = Ret (Some (replicate (length ts) Joined)).
Proof. induction 1 as [|t ts <- _ IH]; [done|]. cbn [join_all]. rewrite IH. done. Qed.

Lemma join_all_running ts :
Forall (fun t => t <> Joined) ts -> Running ∈ ts -> join_all ts = Ret None.
Proof.
induction 1 as [|t ts Ht Hts IH]; intros Hin; [by apply not_elem_of_nil in Hin|].
destruct t; cbn [join_all]; [done| |done]. apply elem_of_cons in Hin as [?|Hin]; [done|].
by rewrite IH.
Qed.

Lemma launch_new concurrency n :
0 <= concurrency -> 0 <= n ->
let size := Z.to_nat (launch_size concurrency n) in
launch concurrency n ThreadGroup_new = Ret (mkGroup (replicate size Running) (replicate size default) false).
Proof.
intros Hc Hn size. unfold launch. destruct (Z.ltb_spec n 0); [lia|]. fold size. cbn.
by rewrite resize_nil.
Qed.
End group.
Arguments ThreadGroup : clear implicits.
