(* ===== verification/Pool.v ===== *)
(** * Pool: the worker threads from their launch to the shutdown of the client

    The step relation of [System] with the control flow of [Furrent::thread_main]
    around it: the check that the group is alive, the wait for work on the
    condition variable of [SharedQueue], the counters of the workers, and the
    constructor and destructor of [Furrent]. Nobody waits for the queue to be
    empty, so the signals of that condition variable are left out. *)
From S2P Require Import Prelude Descriptor Pieces Peer Torrent Socket Downloader Queue SharedQueue Io Task.
From S2P Require Import Furrent System Group.
Local Open Scope Z_scope.

(** ** State *)

(** Where a worker is in the outer loop of [thread_main]: before the check of
    [runner.alive()], before [try_extract], before [wait_work], blocked in it (and
    whether it was signalled since), processing a task, or returned. *)
Inductive ctl : Type :=
| CHead
| CTry
| CEmpty
| CBlocked (signalled : bool)
| CBusy
| CExit.

(** Where the destructor of the client is: not begun, between the flag of
    [begin_skip_waiting] and its signal, before [terminate], joining, done. *)
Inductive phase : Type := POpen | PSkipping | PWoken | PJoining | PClosed.

#[export] Instance ctl_eq_dec : EqDecision ctl.
Proof. solve_decision. Defined.
#[export] Instance phase_eq_dec : EqDecision phase.
Proof. solve_decision. Defined.

(** [pending]: the owner is about to signal new work. The states of the group
    are the counters [piece_processed]. *)
Record pool : Type := mkPool {
  core : sys;
  ctls : list ctl;
  group : ThreadGroup Z;
  skip : bool;
  pending : bool;
  closing : phase;
}.

(** The constructor: the group launches the workers. *)
Definition pool_new (d : Io.disk) (concurrency : Z) : cxx pool :=
  g ← launch 0 concurrency (workers_count concurrency) ThreadGroup_new;
  let n := length (g_threads g) in
  Ret (mkPool (sys_new d n) (replicate n CHead) g false false POpen).

(** ** Steps *)

(** [notify_all] on the threads that wait for work. *)
Definition wake (c : ctl) : ctl := match c with CBlocked _ => CBlocked true | c => c end.

(** Evaluating the predicate of [wait_work]. *)
Definition wait_work (items : list PieceTask) (skip : bool) : ctl :=
  if work_ready items skip then CHead else CBlocked false.

(** The control state after a step on a task. *)
Definition busy (w : worker) : ctl := match w with WIdle => CHead | _ => CBusy end.

(** [state.piece_processed += 1] when a piece was processed. *)
Definition count_piece (i : nat) (w w' : worker) (g : ThreadGroup Z) : cxx (ThreadGroup Z) :=
  match w, w' with
  | WWorks _ _ _, WSaved _ _ _ =>
      x ← thread_state (Z.of_nat i) g;
      x ← i64 (x + 1);
      Ret (set_thread_state i x g)
  | _, _ => Ret g
  end.

(** A failed attempt: the worker tries again. *)
Definition failed (w w' : worker) : bool :=
  match w, w' with WWorks _ _ _, WWorks _ _ _ => true | _, _ => false end.

(** Who moves: a worker (with a failed attempt, awake without a signal, or
    otherwise) or the owner. *)
Inductive mover : Type := MWorker | MFailed | MSpurious | MOwner.

Inductive pool_step : mover -> pool -> pool -> Prop :=
| p_head p i :
    ctls p !! i = Some CHead ->
    pool_step MWorker p
      (if alive (group p)
       then mkPool (core p) (<[i := CTry]> (ctls p)) (group p) (skip p) (pending p) (closing p)
       else mkPool (core p) (<[i := CExit]> (ctls p)) (thread_ends i (group p)) (skip p) (pending p)
              (closing p))
| p_found p i task f' :
    ctls p !! i = Some CTry -> workers (core p) !! i = Some WIdle ->
    worker_extract (fur (core p)) = (OK task, f') ->
    pool_step MWorker p
      (mkPool (mkSys f' (<[i := WTook task]> (workers (core p))) (owner (core p)) (finished (core p))
                 (purged (core p)))
         (<[i := CBusy]> (ctls p)) (group p) (skip p) (pending p) (closing p))
| p_none p i e f' :
    ctls p !! i = Some CTry -> worker_extract (fur (core p)) = (ERROR e, f') ->
    pool_step MWorker p
      (mkPool (mkSys f' (workers (core p)) (owner (core p)) (finished (core p)) (purged (core p)))
         (<[i := CEmpty]> (ctls p)) (group p) (skip p) (pending p) (closing p))
| p_wait p i :
    ctls p !! i = Some CEmpty ->
    pool_step MWorker p (mkPool (core p)
      (<[i := wait_work (f_tasks (fur (core p))) (skip p)]> (ctls p)) (group p) (skip p) (pending p) (closing p))
| p_wake p i b :
    ctls p !! i = Some (CBlocked b) ->
    pool_step (if b then MWorker else MSpurious) p (mkPool (core p)
      (<[i := wait_work (f_tasks (fur (core p))) (skip p)]> (ctls p)) (group p) (skip p) (pending p) (closing p))
| p_work p i w w' s' g' :
    ctls p !! i = Some CBusy -> workers (core p) !! i = Some w -> w <> WIdle ->
    worker_step i (core p) s' -> workers s' !! i = Some w' -> count_piece i w w' (group p) = Ret g' ->
    pool_step (if failed w w' then MFailed else MWorker) p
      (mkPool s' (<[i := busy w']> (ctls p)) g' (skip p) (pending p) (closing p))
| p_owner p s' :
    pending p = false -> closing p = POpen -> owner_step (core p) s' ->
    pool_step MOwner p (mkPool s' (ctls p) (group p) (skip p)
      (match owner s' with CPurged _ => true | _ => false end) (closing p))
| p_add p http filename r f' :
    pending p = false -> closing p = POpen -> owner (core p) = CIdle ->
    add_torrent http filename (fur (core p)) = Ret (r, f') ->
    pool_step MOwner p
      (mkPool (mkSys f' (workers (core p)) CIdle (finished (core p)) (purged (core p)))
         (ctls p) (group p) (skip p) (valid r) (closing p))
| p_folder p folder r f' :
    pending p = false -> closing p = POpen -> owner (core p) = CIdle ->
    set_download_folder folder (fur (core p)) = Ret (r, f') ->
    pool_step MOwner p
      (mkPool (mkSys f' (workers (core p)) CIdle (finished (core p)) (purged (core p)))
         (ctls p) (group p) (skip p) false (closing p))
| p_notify p :
    pending p = true ->
    pool_step MOwner p (mkPool (core p) (map wake (ctls p)) (group p) (skip p) false (closing p))
| p_skip p :
    pending p = false -> closing p = POpen -> owner (core p) = CIdle ->
    pool_step MOwner p (mkPool (core p) (ctls p) (group p) true false PSkipping)
| p_skip_signal p :
    closing p = PSkipping ->
    pool_step MOwner p (mkPool (core p) (map wake (ctls p)) (group p) (skip p) (pending p) PWoken)
| p_terminate p :
    closing p = PWoken ->
    pool_step MOwner p (mkPool (core p) (ctls p) (terminate_flag (group p)) (skip p) (pending p) PJoining)
| p_join p g' :
    closing p = PJoining -> terminate_join (group p) = Ret (Some g') ->
    pool_step MOwner p (mkPool (core p) (ctls p) g' (skip p) (pending p) PClosed).

(** Case analysis of a step. *)
Ltac cases_pool H :=
  destruct H as [p i Hi|p i task f' Hi Hw H|p i e f' Hi H|p i Hi|p i b Hi
    |p i w w' s' g' Hi Hw Hni Hst Hw' Hg|p s' Hpe Hcl' H|p http fn r f' Hpe Hcl' Ho H
    |p fo r f' Hpe Hcl' Ho H|p Hpe|p Hpe Hcl' Ho|p Hcl'|p Hcl'|p g' Hcl' Hj].

Inductive pool_reaches : pool -> Prop :=
| pr_new d concurrency p :
    0 <= concurrency -> pool_new d concurrency = Ret p -> pool_reaches p
| pr_step m p p' : pool_reaches p -> pool_step m p p' -> pool_reaches p'.

(** ** How a worker moves *)

(** The positions of a worker in the inner part of [thread_main], and by how much
    the number of finished pieces changes. *)
Inductive moves : worker -> worker -> Z -> Prop :=
| mv_take t : moves WIdle (WTook t) 0
| mv_look t ps ws : moves (WTook t) (WWorks t ps ws) 0
| mv_fail t ps ws t' : moves (WWorks t ps ws) (WWorks t' ps ws) 0
| mv_save t ps ws t' (j : nat) : moves (WWorks t ps ws) (WSaved t' (ps, ws) (Z.of_nat j)) 0
| mv_score t lc j : moves (WSaved t lc j) (WScored t lc) 0
| mv_count t lc p : moves (WScored t lc) (WCounted t lc p) 1
| mv_end t lc p : moves (WCounted t lc p) WIdle 0.
#[export] Hint Constructors moves : furrent.

Lemma worker_step_moves i s s' w w' :
  sys_ok s -> worker_step i s s' -> workers s !! i = Some w -> workers s' !! i = Some w' ->
  owner s' = owner s /\ workers s' = <[i := w']> (workers s) /\
  (w = WIdle \/ f_tasks (fur s') = f_tasks (fur s)) /\
  moves w w' (zlen (finished s') - zlen (finished s)).
Proof.
  intros Hok H Hw Hw'. pose proof (lookup_lt_Some _ _ _ Hw) as Hlt.
  cases_worker Hok H.
  all: cbn [workers owner finished fur] in *.
  all: rewrite list_lookup_insert_eq in Hw' by done; injection Hw' as <-; rewrite Hw in Hi; injection Hi as ->.
  - split_and!; [done..|by left|]. rewrite Z.sub_diag. constructor.
  - apply (look_ret _ _ _ _ _ Hok) in H as (-> & _).
    split_and!; [done..|by right|]. rewrite Z.sub_diag. constructor.
  - split_and!; [done..|by right|]. rewrite Z.sub_diag. destruct ok; constructor.
  - apply score_spec in H as (t & _ & ->). split_and!; [done..|by right|]. rewrite Z.sub_diag. constructor.
  - apply count_spec in H as (_ & _ & ->). split_and!; [done..|by right|].
    rewrite zlen_cons. replace (_ - _) with 1 by lia. constructor.
  - apply complete_spec in H. cbv zeta in H. split_and!; [done..| |rewrite Z.sub_diag; constructor].
    right. subst f'. by destruct (_ =? _).
Qed.

(** Whether the piece of a worker is on disk but not counted. *)
Definition uncounted (w : worker) : Z := match w with WSaved _ _ _ | WScored _ _ => 1 | _ => 0 end.

Lemma count_piece_spec i w w' n g g' :
  moves w w' n -> count_piece i w w' g = Ret g' ->
  g_threads g' = g_threads g /\ g_should_terminate g' = g_should_terminate g /\
  length (g_states g') = length (g_states g) /\
  zsum (g_states g') - uncounted w' - n = zsum (g_states g) - uncounted w.
Proof.
  intros Hm H. destruct Hm; cbn in H; inv_ret; try (split_and!; (done || cbn; lia)).
  unfold thread_state in Hx. rewrite Nat2Z.id in Hx. destruct (g_states g !! i) as [y|] eqn:E; [|done].
  destruct (_ <? _); inv_ret. apply i64_ret in Hx0 as [-> _].
  unfold set_thread_state. cbn. rewrite length_insert, (zsum_insert _ _ x) by done. split_and!; [done..|lia].
Qed.

(** ** The invariant *)

Record pool_ok (p : pool) : Prop := {
  po_core : reaches (core p);
  po_ctls : length (ctls p) = length (workers (core p));
  po_threads : length (g_threads (group p)) = length (workers (core p));
  po_states : length (g_states (group p)) = length (workers (core p));
  po_busy i c w : ctls p !! i = Some c -> workers (core p) !! i = Some w -> (c = CBusy <-> w <> WIdle);
  po_thread i c t : ctls p !! i = Some c -> g_threads (group p) !! i = Some t -> closing p <> PClosed ->
    t = if decide (c = CExit) then Finished else Running;
  po_blocked i : ctls p !! i = Some (CBlocked false) ->
    work_ready (f_tasks (fur (core p))) (skip p) = false \/ pending p = true \/ closing p = PSkipping;
  po_skip : skip p = bool_decide (closing p <> POpen);
  po_flag : g_should_terminate (group p) = bool_decide (closing p = PJoining \/ closing p = PClosed);
  po_pending : closing p <> POpen -> pending p = false;
  po_stats : zsum (g_states (group p)) = zlen (finished (core p)) + zsum (map uncounted (workers (core p)));
  po_index i t lc j : workers (core p) !! i = Some (WSaved t lc j) -> 0 <= j;
}.

(** A worker that is not processing a task moves in the outer loop. *)
Lemma pool_ok_ctl p i c c' :
  pool_ok p -> ctls p !! i = Some c -> c <> CBusy -> c <> CExit -> c' <> CBusy -> c' <> CExit ->
  (c' = CBlocked false -> work_ready (f_tasks (fur (core p))) (skip p) = false) ->
  pool_ok (mkPool (core p) (<[i := c']> (ctls p)) (group p) (skip p) (pending p) (closing p)).
Proof.
  intros [H1 H2 H3 H4 H5 H6 H7 H8 H9 H10 H11 H12] Hi Hb He Hb' He' Hbl. split; cbn; try done.
  - by rewrite length_insert.
  - intros j x w [(<- & <- & _)|[_ Hj]]%list_lookup_insert_Some Hw; [|by eapply H5].
    pose proof (H5 _ _ _ Hi Hw). tauto.
  - intros j x t [(<- & <- & _)|[_ Hj]]%list_lookup_insert_Some Ht Hc; [|by eapply H6].
    rewrite (H6 _ _ _ Hi Ht Hc). by rewrite !decide_False.
  - intros j [(<- & E & _)|[_ Hj]]%list_lookup_insert_Some; [|by apply (H7 j)]. left. by apply Hbl.
Qed.

Lemma wait_work_ctl items skip : wait_work items skip <> CBusy /\ wait_work items skip <> CExit /\
  (wait_work items skip = CBlocked false -> work_ready items skip = false).
Proof. unfold wait_work. by destruct (work_ready items skip). Qed.

(** The owner signals. *)
Lemma pool_ok_wake p pd cl :
  pool_ok p -> (closing p = cl /\ pd = false \/ closing p = PSkipping /\ cl = PWoken /\ pd = pending p) ->
  pool_ok (mkPool (core p) (map wake (ctls p)) (group p) (skip p) pd cl).
Proof.
  intros [H1 H2 H3 H4 H5 H6 H7 H8 H9 H10 H11 H12] Hcl.
  assert (Hex : forall x, (wake x = CBusy <-> x = CBusy) /\ (wake x = CExit <-> x = CExit)) by (by intros []).
  assert (Hph : (cl <> POpen <-> closing p <> POpen) /\ (cl <> PClosed -> closing p <> PClosed) /\
    (cl = PJoining \/ cl = PClosed <-> closing p = PJoining \/ closing p = PClosed)).
  { destruct Hcl as [[-> _]|(-> & -> & _)]; [done|]. split_and!; naive_solver. }
  destruct Hph as (Hp1 & Hp2 & Hp3). split; cbn; try done.
  - by rewrite length_map.
  - intros j c w (x & -> & Hx)%list_lookup_fmap_Some Hw. rewrite <- (H5 _ _ _ Hx Hw). apply Hex.
  - intros j c t (x & -> & Hx)%list_lookup_fmap_Some Ht Hc. rewrite (H6 _ _ _ Hx Ht) by auto.
    destruct (Hex x) as [_ E]. destruct (decide (x = CExit)), (decide (wake x = CExit)); tauto.
  - intros j (x & Hx & _)%list_lookup_fmap_Some. by destruct x.
  - rewrite H8. by apply bool_decide_ext.
  - rewrite H9. by apply bool_decide_ext.
  - intros Hc. destruct Hcl as [[_ ->]|(Hc' & _ & ->)]; [done|]. apply H10. by rewrite Hc'.
Qed.

(** The owner changes the client. *)
Lemma pool_ok_core p s' pd :
  pool_ok p -> closing p = POpen -> pending p = false -> reaches s' ->
  workers s' = workers (core p) -> finished s' = finished (core p) ->
  pd = true \/ f_tasks (fur s') = f_tasks (fur (core p)) ->
  pool_ok (mkPool s' (ctls p) (group p) (skip p) pd (closing p)).
Proof.
  intros [H1 H2 H3 H4 H5 H6 H7 H8 H9 H10 H11 H12] Ho Hp Hr Hw Hf Hpd.
  split; cbn; rewrite ?Hw, ?Hf; try done.
  intros i [Hi|[Hi|Hi]]%H7; [|congruence|congruence].
  destruct Hpd as [->|E]; [by right; left|]. left. by rewrite E.
Qed.

Lemma owner_step_spec s s' :
  owner_step s s' -> workers s' = workers s /\ finished s' = finished s /\
  (match owner s' with CPurged _ => true | _ => false end = true \/ f_tasks (fur s') = f_tasks (fur s)).
Proof.
  intros H. destruct H as [s tid f' Ho H|s tid st f' Ho H|s tid st f' Ho H]; cbn; split_and!; try done.
  - by left.
  - unfold remove_load in H. run_ops H. injection H as <- <-. by right.
  - apply stop_spec in H as (t & _ & ->). right. by destruct (decide _).
Qed.

Lemma add_tasks http filename f r f' :
  add_torrent http filename f = Ret (r, f') -> valid r = true \/ f_tasks f' = f_tasks f.
Proof.
  intros [(_ & [Ht _] & _)|(d0 & d & g & H & [Ht _] & _)]%add_spec; [by right|].
  apply register_spec in H as (t & _ & _ & _ & [(_ & _ & E & _)|(_ & -> & _)]); [|by left].
  right. congruence.
Qed.

(** Extraction finds a task exactly when there is one. *)
Lemma worker_extract_cases f :
  (f_tasks f = [] /\ worker_extract f = (ERROR Empty, f)) \/
  exists t ts, f_tasks f = t :: ts /\ worker_extract f = (OK t, set_tasks ts f).
Proof.
  unfold worker_extract. destruct f as [[|t ts] m uid fo dk]; cbn; [by left|].
  right. exists t, ts. by rewrite drop_0.
Qed.

(** A worker makes a step on its task, or takes one. *)
Lemma pool_ok_work p i c w w' s' g' :
  pool_ok p -> ctls p !! i = Some c -> c <> CExit -> workers (core p) !! i = Some w ->
  worker_step i (core p) s' -> workers s' !! i = Some w' -> count_piece i w w' (group p) = Ret g' ->
  (w = WIdle -> work_ready (f_tasks (fur (core p))) (skip p) = true) ->
  pool_ok (mkPool s' (<[i := busy w']> (ctls p)) g' (skip p) (pending p) (closing p)).
Proof.
  intros [H1 H2 H3 H4 H5 H6 H7 H8 H9 H10 H11 H12] Hi Hx Hw Hst Hw' Hg Hrdy.
  destruct (worker_step_moves _ _ _ _ _ (reaches_ok _ H1) Hst Hw Hw') as (Ho & Ews & Ht & Hm).
  destruct (count_piece_spec _ _ _ _ _ _ Hm Hg) as (Eg1 & Eg2 & Eg3 & Eg4).
  assert (Hbe : busy w' <> CExit /\ busy w' <> CBlocked false) by (by destruct w').
  split; cbn; rewrite ?Ews, ?Eg1, ?Eg2, ?Eg3, ?length_insert; try done.
  - eapply reaches_step; [exact H1|]. apply s_work. by eapply ws_worker.
  - intros j x y [(<- & <- & _)|[Hne Hj]]%list_lookup_insert_Some Hy.
    + rewrite list_lookup_insert_eq in Hy by (by eapply lookup_lt_Some). injection Hy as <-. by destruct w'.
    + rewrite list_lookup_insert_ne in Hy by done. by eapply H5.
  - intros j x t [(<- & <- & _)|[Hne Hj]]%list_lookup_insert_Some Hth Hc; [|by eapply H6].
    rewrite (H6 _ _ _ Hi Hth Hc). rewrite !decide_False by tauto. done.
  - intros j [(<- & E & _)|[Hne Hj]]%list_lookup_insert_Some; [tauto|]. destruct (H7 j Hj) as [Hb|]; [|auto].
    destruct Ht as [->|E]; [|rewrite E; auto]. rewrite Hrdy in Hb; done.
  - rewrite (zsum_map_insert _ _ _ w) by done. lia.
  - intros j t lc k [(_ & E & _)|[_ Hj]]%list_lookup_insert_Some; [|by eapply H12].
    destruct Hm; try done. injection E as _ _ <-. lia.
Qed.

(** A worker leaves the loop. *)
Lemma pool_ok_exit p i :
  pool_ok p -> ctls p !! i = Some CHead -> alive (group p) = false ->
  pool_ok (mkPool (core p) (<[i := CExit]> (ctls p)) (thread_ends i (group p)) (skip p) (pending p) (closing p)).
Proof.
  intros [H1 H2 H3 H4 H5 H6 H7 H8 H9 H10 H11 H12] Hi Ha. split; cbn; rewrite ?length_insert; try done.
  - intros j x w [(<- & <- & _)|[_ Hj]]%list_lookup_insert_Some Hw; [|by eapply H5].
    destruct (H5 _ _ _ Hi Hw) as [_ Hb]. split; [done|]. by intros ?%Hb.
  - intros j x t [(<- & <- & _)|[Hne Hj]]%list_lookup_insert_Some Ht Hc.
    + rewrite list_lookup_insert_eq in Ht; [by injection Ht as <-|].
      apply lookup_lt_Some in Hi. lia.
    + rewrite list_lookup_insert_ne in Ht by done. by eapply H6.
  - intros j [(<- & [=] & _)|[_ Hj]]%list_lookup_insert_Some. by apply (H7 j).
Qed.

(** The destructor goes on. *)
Lemma pool_ok_close p g' cl :
  pool_ok p -> pending p = false -> length (g_threads g') = length (g_threads (group p)) ->
  g_states g' = g_states (group p) ->
  (closing p = POpen /\ cl = PSkipping /\ g' = group p) \/
  (closing p = PWoken /\ cl = PJoining /\ g' = terminate_flag (group p)) \/
  (closing p = PJoining /\ cl = PClosed /\ g_should_terminate g' = true) ->
  pool_ok (mkPool (core p) (ctls p) g' true (pending p) cl).
Proof.
  intros [H1 H2 H3 H4 H5 H6 H7 H8 H9 H10 H11 H12] Hp Hl Hg Hcl.
  split; cbn; rewrite ?Hl, ?Hg; try done.
  - intros i c t Hi Ht Hc. destruct Hcl as [(E & -> & ->)|[(E & -> & ->)|(E & -> & _)]]; [| |done].
    all: apply (H6 i c t); rewrite ?E; done.
  - intros i Hi. destruct Hcl as [(_ & -> & _)|Hcl]; [by right; right|]. exfalso.
    assert (E : closing p <> POpen /\ closing p <> PSkipping) by (destruct Hcl as [[E _]|[E _]]; by rewrite E).
    destruct (H7 i Hi) as [Hw|[Hw|Hw]]; [|congruence|tauto].
    rewrite H8, bool_decide_true, work_ready_skip in Hw by tauto. done.
  - destruct Hcl as [(_ & -> & _)|[(_ & -> & _)|(_ & -> & _)]]; done.
  - destruct Hcl as [(E & -> & ->)|[(E & -> & ->)|(E & -> & ->)]].
    + rewrite H9, E. done.
    + done.
    + done.
Qed.

Lemma join_all_length ts ts' : join_all ts = Ret (Some ts') -> length ts' = length ts.
Proof.
  revert ts'. induction ts as [|t ts IH]; intros ts' H; cbn [join_all] in H.
  - by injection H as <-.
  - destruct t; try done. inv_ret. destruct x as [r|]; [|done]. injection H as <-. cbn. by rewrite (IH r).
Qed.

Lemma pool_step_ok m p p' : pool_ok p -> pool_step m p p' -> pool_ok p'.
Proof.
  intros Hp H. cases_pool H.
  - destruct (alive (group p)) eqn:Ha; [|by apply pool_ok_exit].
    by apply (pool_ok_ctl _ _ _ _ Hp Hi).
  - destruct (worker_extract_cases (fur (core p))) as [[_ E]|(t & ts & Et & E)]; [congruence|].
    assert (task = t) as -> by congruence. pose proof (lookup_lt_Some _ _ _ Hw) as Hlt.
    apply (pool_ok_work p i CTry WIdle (WTook t) _ (group p) Hp Hi); [done|done|by constructor| |done|].
    + cbn. by apply list_lookup_insert_eq.
    + intros _. unfold work_ready, q_size. rewrite Et, zlen_cons. destruct (Z.eqb_spec (1 + zlen ts) 0); [zlen_lia|done].
  - destruct (worker_extract_cases (fur (core p))) as [[_ E]|(t & ts & Et & E)]; [|congruence].
    assert (f' = fur (core p)) as -> by congruence.
    assert (E' : mkSys (fur (core p)) (workers (core p)) (owner (core p)) (finished (core p)) (purged (core p)) = core p)
      by (by destruct (core p)). rewrite E'. by apply (pool_ok_ctl _ _ _ _ Hp Hi).
  - pose proof (wait_work_ctl (f_tasks (fur (core p))) (skip p)) as (W1 & W2 & W3).
    by apply (pool_ok_ctl _ _ _ _ Hp Hi).
  - pose proof (wait_work_ctl (f_tasks (fur (core p))) (skip p)) as (W1 & W2 & W3).
    by apply (pool_ok_ctl _ _ _ _ Hp Hi).
  - by apply (pool_ok_work p i CBusy w w' s' g').
  - apply owner_step_spec in H as HH. destruct HH as (E1 & E2 & E3). apply pool_ok_core; try done.
    eapply reaches_step; [apply Hp|]. by apply s_work, ws_owner.
  - pose proof (add_tasks _ _ _ _ _ H). apply pool_ok_core; try done.
    eapply reaches_step; [apply Hp|]. by eapply s_add.
  - pose proof (set_download_folder_spec _ _ _ _ H) as [[Ht _] _].
    apply pool_ok_core; try done; [|by right].
    eapply reaches_step; [apply Hp|]. by eapply s_folder.
  - apply pool_ok_wake; [done|]. by left.
  - rewrite <- Hpe. apply pool_ok_close; try done. by left.
  - apply pool_ok_wake; [done|]. by right.
  - assert (E : skip p = true) by (rewrite (po_skip _ Hp), Hcl'; done). rewrite E.
    apply pool_ok_close; try done; [apply (po_pending _ Hp); by rewrite Hcl'|]. by right; left.
  - assert (E : skip p = true) by (rewrite (po_skip _ Hp), Hcl'; done). rewrite E.
    unfold terminate_join in Hj. inv_ret. destruct x as [ts|]; [|done]. injection Hj as <-.
    apply join_all_length in Hx. apply pool_ok_close; try done; [apply (po_pending _ Hp); by rewrite Hcl'|].
    right. right. split_and!; [done..|]. cbn. rewrite (po_flag _ Hp), Hcl'. done.
Qed.

(** Steps of the workers are steps of the system; they leave the owner alone. *)
Lemma pool_worker_core m p p' :
  pool_ok p -> pool_step m p p' -> m <> MOwner ->
  (core p' = core p \/ exists i, worker_step i (core p) (core p')) /\ owner (core p') = owner (core p) /\
  closing p' = closing p /\ pending p' = pending p.
Proof.
  intros Hp H Hm.
  cases_pool H; try done.
  - destruct (alive _); cbn; auto.
  - cbn. split_and!; [|done..]. right. exists i. by apply w_extract.
  - destruct (worker_extract_cases (fur (core p))) as [[_ E]|(t & ts & _ & E)]; [|congruence].
    assert (f' = fur (core p)) as -> by congruence. cbn. split_and!; [|done..]. left. by destruct (core p).
  - cbn. auto.
  - cbn. auto.
  - cbn. destruct (worker_step_moves _ _ _ _ _ (reaches_ok _ (po_core _ Hp)) Hst Hw Hw') as (Ho & _).
    split_and!; [|done..]. right. by exists i.
Qed.

Lemma pool_ok_new d concurrency p : 0 <= concurrency -> pool_new d concurrency = Ret p -> pool_ok p.
Proof.
  intros Hc H. unfold pool_new in H.
  assert (Hn : 0 <= workers_count concurrency) by (unfold workers_count; destruct (Z.ltb_spec 1 concurrency); lia).
  rewrite launch_new in H by done. set (n := Z.to_nat _) in H. cbn in H. injection H as <-.
  rewrite length_replicate. split; cbn; rewrite ?length_replicate; try done.
  - apply reaches_new.
  - intros i c w [-> _]%lookup_replicate [-> _]%lookup_replicate. done.
  - intros i c t [-> _]%lookup_replicate [-> _]%lookup_replicate _. done.
  - intros i [[=] _]%lookup_replicate.
  - clear. induction n as [|n IH]; [done|]. cbn. exact IH.
  - intros i t lc j [[=] _]%lookup_replicate.
Qed.

Lemma pool_reaches_ok p : pool_reaches p -> pool_ok p.
Proof. induction 1; [by eapply pool_ok_new|by eapply pool_step_ok]. Qed.

(** ** The shutdown *)

(** How many steps a worker can make, failed attempts apart, once the group is
    terminating. *)
Definition steps_left (c : ctl) (w : worker) : Z :=
  match c with
  | CExit => 0
  | CHead => 1
  | CEmpty | CBlocked _ => 2
  | CTry => 7
  | CBusy =>
      match w with
      | WIdle => 1
      | WTook _ => 6
      | WWorks _ _ _ => 5
      | WSaved _ _ _ => 4
      | WScored _ _ => 3
      | WCounted _ _ _ => 2
      end
  end.

Definition pool_left (p : pool) : Z := zsum (zip_with steps_left (ctls p) (workers (core p))).

(** Runs of the workers with [n] steps other than failed attempts. *)
Inductive worker_run : nat -> pool -> pool -> Prop :=
| wr_nil p : worker_run 0 p p
| wr_failed n p p1 p2 : pool_step MFailed p p1 -> worker_run n p1 p2 -> worker_run n p p2
| wr_step m n p p1 p2 : pool_step m p p1 -> m = MWorker \/ m = MSpurious -> worker_run n p1 p2 -> worker_run (S n) p p2.

Lemma zip_with_insert_sum cs ws i c w c' w' :
  cs !! i = Some c -> ws !! i = Some w ->
  zsum (zip_with steps_left (<[i := c']> cs) (<[i := w']> ws)) =
  zsum (zip_with steps_left cs ws) - steps_left c w + steps_left c' w'.
Proof.
  intros Hc Hw. rewrite <- insert_zip_with. apply zsum_insert. by rewrite lookup_zip_with, Hc, Hw.
Qed.

Lemma zip_with_insert_ctl cs ws i c w c' :
  cs !! i = Some c -> ws !! i = Some w ->
  zsum (zip_with steps_left (<[i := c']> cs) ws) =
  zsum (zip_with steps_left cs ws) - steps_left c w + steps_left c' w.
Proof. intros Hc Hw. rewrite <- (list_insert_id ws i w Hw) at 1. by apply zip_with_insert_sum. Qed.

Lemma steps_left_moves w w' n :
  moves w w' n -> w <> WIdle ->
  steps_left (busy w') w' + (if failed w w' then 0 else 1) = steps_left CBusy w.
Proof. by destruct 1. Qed.

(** The worker of a control state. *)
Lemma pool_worker p i c : pool_ok p -> ctls p !! i = Some c -> exists w, workers (core p) !! i = Some w.
Proof.
  intros Hp Hi%lookup_lt_Some. apply lookup_lt_is_Some. by rewrite <- (po_ctls _ Hp).
Qed.

(** Every step of a worker uses one up, failed attempts use none. *)
Lemma worker_run_step m p p' :
  pool_ok p -> closing p = PJoining -> pool_step m p p' -> m <> MOwner ->
  closing p' = PJoining /\ pool_left p' + (match m with MFailed => 0 | _ => 1 end) <= pool_left p.
Proof.
  intros Hp Hcl H Hm. pose proof (po_skip _ Hp) as Hsk. pose proof (po_flag _ Hp) as Hfl.
  rewrite Hcl in Hsk, Hfl. rewrite bool_decide_true in Hsk, Hfl by auto.
  cases_pool H; try done.
  all: unfold pool_left; cbn [core ctls workers closing].
  - unfold alive. rewrite Hfl. cbn [negb core ctls workers closing]. split; [done|]. destruct (pool_worker _ _ _ Hp Hi) as [w Hw].
    rewrite (zip_with_insert_ctl _ _ _ CHead w) by done. cbn [steps_left]. lia.
  - split; [done|]. rewrite (zip_with_insert_sum _ _ _ CTry WIdle) by done. cbn [steps_left]. lia.
  - split; [done|]. destruct (pool_worker _ _ _ Hp Hi) as [w Hw].
    rewrite (zip_with_insert_ctl _ _ _ CTry w) by done. cbn [steps_left]. lia.
  - split; [done|]. destruct (pool_worker _ _ _ Hp Hi) as [w Hw]. unfold wait_work. rewrite Hsk, work_ready_skip.
    rewrite (zip_with_insert_ctl _ _ _ CEmpty w) by done. cbn [steps_left]. lia.
  - split; [done|]. destruct (pool_worker _ _ _ Hp Hi) as [w Hw]. unfold wait_work. rewrite Hsk, work_ready_skip.
    rewrite (zip_with_insert_ctl _ _ _ (CBlocked b) w) by done. cbn [steps_left]. destruct b; lia.
  - split; [done|].
    destruct (worker_step_moves _ _ _ _ _ (reaches_ok _ (po_core _ Hp)) Hst Hw Hw') as (_ & Ews & _ & Hmv).
    rewrite Ews, (zip_with_insert_sum _ _ _ CBusy w) by done.
    pose proof (steps_left_moves _ _ _ Hmv Hni). destruct (failed w w'); lia.
Qed.

Lemma steps_left_range c w : 0 <= steps_left c w <= 7.
Proof. destruct c; cbn; try lia. destruct w; lia. Qed.

Lemma pool_left_bound p : 0 <= pool_left p <= 7 * zlen (ctls p).
Proof.
  unfold pool_left. generalize (workers (core p)). induction (ctls p) as [|c cs IH]; intros ws; [done|].
  destruct ws as [|w ws]; cbn [zip_with].
  - change (zsum []) with 0. zlen_lia.
  - rewrite zlen_cons. specialize (IH ws). pose proof (steps_left_range c w). unfold zsum in *. cbn [foldr]. lia.
Qed.

Lemma worker_run_bound n p p' :
  pool_ok p -> closing p = PJoining -> worker_run n p p' ->
  pool_ok p' /\ closing p' = PJoining /\ pool_left p' + Z.of_nat n <= pool_left p.
Proof.
  intros Hp Hc H. revert Hp Hc. induction H as [p|n p p1 p2 H _ IH|m n p p1 p2 H Hm _ IH]; intros Hp Hc.
  - split_and!; [done..|lia].
  - destruct (worker_run_step _ _ _ Hp Hc H ltac:(done)) as [Hc1 Hl].
    destruct IH as (? & ? & ?); [by eapply pool_step_ok|done|]. split_and!; [done..|lia].
  - destruct (worker_run_step _ _ _ Hp Hc H ltac:(naive_solver)) as [Hc1 Hl].
    destruct IH as (? & ? & ?); [by eapply pool_step_ok|done|]. split_and!; [done..|]. destruct Hm; subst m; lia.
Qed.

(** ** Workers are not blocked by the client *)

Lemma look_total task f :
  t_state (torrent_at (Task.tid task) (f_torrents f)) <> Paused ->
  exists ps ws f', worker_look task f = Ret (Some (ps, ws), f').
Proof.
  intros Hs. unfold worker_look. cbv [mbind st_bind get modify mret st_ret]. cbn.
  rewrite decide_False by done. by eexists _, _, _.
Qed.

Lemma score_total task j f : 0 <= j -> exists f', worker_score task j f = Ret (tt, f').
Proof.
  intros Hj. unfold worker_score. cbv [mbind st_bind get modify lift].
  set (t := torrent_at _ _). assert (H : exists t', atomic_add_peer_score j t = Ret t').
  { unfold atomic_add_peer_score. destruct (Z.ltb_spec j (zlen (t_peers_score t))); [|by eexists].
    destruct (vget_total (t_peers_score t) j) as (x & -> & _); [lia|]. cbn. unfold vset.
    rewrite bool_decide_true by lia. by eexists. }
  destruct H as [t' ->]. by eexists.
Qed.

Lemma count_total task f :
  0 <= t_pieces_processed (torrent_at (Task.tid task) (f_torrents f)) < int64_max ->
  exists p f', worker_count task f = Ret (p, f').
Proof.
  intros H. unfold worker_count. cbv [mbind st_bind get modify lift]. unfold int64_max in H.
  rewrite i64_ok by lia. by eexists _, _.
Qed.

Lemma complete_total task p f : exists f', worker_complete task p f = Ret (tt, f').
Proof.
  unfold worker_complete. cbv [mbind st_bind get modify mret st_ret].
  destruct (p =? _); by eexists.
Qed.

Lemma held_key s i w k : workers s !! i = Some w -> k ∈ in_hand w -> k ∈ all_keys s.
Proof.
  intros Hi Hk. apply elem_of_app. right. apply elem_of_app. left. unfold held.
  apply list_elem_of_In, in_concat. exists (in_hand w). split; [|by apply list_elem_of_In].
  apply list_elem_of_In, list_elem_of_fmap. exists w. split; [done|]. by eapply list_elem_of_lookup_2.
Qed.

(** The counter of a torrent stays within the number of its pieces. *)
Lemma processed_range s tid :
  sys_ok s -> t_peers (torrent_of tid s) <> [] ->
  0 <= t_pieces_processed (torrent_of tid s) <= pieces_count (t_descriptor (torrent_of tid s)) /\
  pieces_count (t_descriptor (torrent_of tid s)) <= pieces_max_size.
Proof.
  intros Hs Hp. pose proof (ac_processed _ _ _ _ _ Hs tid) as Hn. cbv beta in Hn.
  pose proof (accounted_total _ _ _ _ _ tid Hs Hp) as Ht. cbv beta in Ht.
  pose proof (ac_bound _ _ _ _ _ Hs tid Hp) as Hb. cbv beta in Hb.
  pose proof (ac_fin _ _ _ _ _ Hs) as Hf. apply (submseteq_of_torrent tid), zlen_submseteq in Hf.
  rewrite Hn. zlen_pos. lia.
Qed.

Lemma count_enabled s i task lc :
  sys_ok s -> workers s !! i = Some (WScored task lc) -> exists p f', worker_count task (fur s) = Ret (p, f').
Proof.
  intros Hok Hi. apply count_total.
  destruct (accounted_key _ _ _ _ _ (key_of task) Hok) as [Hp _]; [eapply held_key; [done|by left]|].
  cbn in Hp. destruct (processed_range _ _ Hok Hp) as [Hr Hm]. unfold torrent_of in *.
  change pieces_max_size with 288230376151711743 in Hm. unfold int64_max. lia.
Qed.

Definition attempting (w : worker) : bool := match w with WWorks _ _ _ => true | _ => false end.

Lemma busy_enabled s i w :
  sys_ok s -> workers s !! i = Some w -> w <> WIdle -> attempting w = false ->
  (forall t lc j, w = WSaved t lc j -> 0 <= j) ->
  exists s' w', worker_step i s s' /\ workers s' !! i = Some w' /\ failed w w' = false /\
    forall g, count_piece i w w' g = Ret g.
Proof.
  intros Hok Hi Hne Ha Hj. pose proof (lookup_lt_Some _ _ _ Hi) as Hlt.
  destruct w as [|t|t ps ws|t lc j|t lc|t lc p]; try done.
  - destruct (look_total t (fur s)) as (ps & ws & f' & E); [apply (ac_paused _ _ _ _ _ Hok)|].
    eexists _, _. split; [by eapply w_look|]. cbn. by rewrite list_lookup_insert_eq.
  - destruct (score_total t j (fur s)) as (f' & E); [by eapply Hj|].
    eexists _, _. split; [by eapply w_score|]. cbn. by rewrite list_lookup_insert_eq.
  - destruct (count_enabled _ _ _ _ Hok Hi) as (p & f' & E).
    eexists _, _. split; [by eapply w_count|]. cbn. by rewrite list_lookup_insert_eq.
  - destruct (complete_total t p (fur s)) as (f' & E).
    eexists _, _. split; [by eapply w_complete|]. cbn. by rewrite list_lookup_insert_eq.
Qed.

(** A worker that has not returned can move, or is about to try a peer. *)
Lemma worker_enabled p i c :
  pool_ok p -> ctls p !! i = Some c -> c <> CExit -> c <> CBlocked false ->
  (exists p', pool_step MWorker p p') \/
  exists w, workers (core p) !! i = Some w /\ attempting w = true.
Proof.
  intros Hp Hi Hc Hbl. destruct (pool_worker _ _ _ Hp Hi) as [w Hw].
  pose proof (po_busy _ Hp _ _ _ Hi Hw) as Hb.
  destruct c as [| | |[]| |]; try done; try (left; eexists; by econstructor).
  2:{ left. eexists. by apply (p_wake p i true). }
  - left. assert (w = WIdle) as -> by (destruct w; [done|..]; destruct Hb as [_ Hb]; by discriminate Hb).
    destruct (worker_extract_cases (fur (core p))) as [[_ E]|(t & ts & _ & E)].
    + eexists. by eapply p_none.
    + eexists. by eapply p_found.
  - assert (Hne : w <> WIdle) by (by apply Hb).
    destruct (attempting w) eqn:Ha; [right; by exists w|left].
    destruct (busy_enabled (core p) i w) as (s' & w' & Hst & Hw' & Hf & Hg); try done.
    { apply reaches_ok, Hp. } { intros t lc j ->. by eapply (po_index _ Hp). }
    pose proof (p_work p i w w' s' (group p) Hi Hw Hne Hst Hw' (Hg _)) as H. rewrite Hf in H. by eexists.
Qed.

(** A worker of a closing client was signalled. *)
Lemma closing_signalled p i :
  pool_ok p -> closing p <> POpen -> closing p <> PSkipping -> ctls p !! i <> Some (CBlocked false).
Proof.
  intros Hp Ho Hs Hi. destruct (po_blocked _ Hp _ Hi) as [Hw|[Hw|Hw]]; [|by rewrite (po_pending _ Hp Ho) in Hw|done].
  rewrite (po_skip _ Hp), bool_decide_true, work_ready_skip in Hw by done. done.
Qed.

Lemma pool_ctl p i t : pool_ok p -> g_threads (group p) !! i = Some t -> exists c, ctls p !! i = Some c.
Proof.
  intros Hp Hi%lookup_lt_Some. apply lookup_lt_is_Some. by rewrite (po_ctls _ Hp), <- (po_threads _ Hp).
Qed.

(** The group can be joined exactly when all workers have returned. *)
Lemma join_ready p :
  pool_ok p -> closing p = PJoining -> Forall (eq CExit) (ctls p) ->
  exists p', pool_step MOwner p p' /\ closing p' = PClosed.
Proof.
  intros Hp Hc He. assert (Ht : Forall (eq Finished) (g_threads (group p))).
  { apply Forall_forall. intros t [i Hi]%list_elem_of_lookup.
    destruct (pool_ctl _ _ _ Hp Hi) as [c Hci]. rewrite (po_thread _ Hp _ _ _ Hci Hi) by (by rewrite Hc).
    rewrite Forall_forall in He. rewrite <- (He c) by (by eapply list_elem_of_lookup_2). done. }
  eexists. split; [eapply p_join; [done|]|done]. unfold terminate_join. by rewrite join_all_finished.
Qed.

Lemma join_waits p i c :
  pool_ok p -> closing p = PJoining -> ctls p !! i = Some c -> c <> CExit ->
  terminate_join (group p) = Ret None.
Proof.
  intros Hp Hcl Hi Hc. unfold terminate_join. rewrite join_all_running; [done| |].
  - apply Forall_forall. intros t [j Hj]%list_elem_of_lookup.
    destruct (pool_ctl _ _ _ Hp Hj) as [c' Hcj]. rewrite (po_thread _ Hp _ _ _ Hcj Hj) by (by rewrite Hcl). by destruct (decide _).
  - assert (Hl : is_Some (g_threads (group p) !! i)).
    { apply lookup_lt_is_Some. apply lookup_lt_Some in Hi. rewrite (po_threads _ Hp), <- (po_ctls _ Hp). done. }
    destruct Hl as [t Ht]. pose proof (po_thread _ Hp _ _ _ Hi Ht) as E.
    rewrite decide_False in E by done. rewrite E in Ht by (by rewrite Hcl). by eapply list_elem_of_lookup_2.
Qed.

(** An attempt on a peer that refuses the connection. *)
Definition refused : Socket.net := Socket.mkNet false [Socket.mkCompletion true 111 [] false 0] [] false.

Lemma refused_attempt peer task dk :
  0 <= index (task_piece task) < pieces_count (descriptor task) ->
  exists n', process peer task (refused, dk) = Ret ((false, task), (n', dk)).
Proof.
  intros Hi. unfold process, download, try_download.
  destruct (Z.leb_spec (pieces_count (descriptor task)) 0); [lia|].
  destruct (Z.ltb_spec (index (task_piece task)) 0); [lia|].
  destruct (Z.leb_spec (pieces_count (descriptor task)) (index (task_piece task))); [lia|]. by eexists.
Qed.

(** ** More invariants of the pool *)

(** The counters of the workers are not negative, and no worker leaves its loop
    before it is told to. *)
Lemma pool_reaches_more p :
  pool_reaches p ->
  Forall (fun x => 0 <= x) (g_states (group p)) /\
  (g_should_terminate (group p) = false -> CExit ∉ ctls p).
Proof.
  induction 1 as [d concurrency p Hc H|m p p' _ [IH1 IH2] H].
  { unfold pool_new in H.
    assert (Hn : 0 <= workers_count concurrency) by (unfold workers_count; destruct (Z.ltb_spec 1 concurrency); lia).
    rewrite launch_new in H by done.
    cbn in H. injection H as <-. cbn. split.
    - apply Forall_forall. intros x Hx%elem_of_replicate. lia.
    - intros _ Hx%elem_of_replicate. by destruct Hx. }
  assert (Hins : forall i c, c <> CExit -> CExit ∉ ctls p -> CExit ∉ <[i := c]> (ctls p)).
  { intros i c Hc Hn [j [(_ & E & _)|[_ Hj]]%list_lookup_insert_Some]%list_elem_of_lookup; [done|].
    apply Hn. by eapply list_elem_of_lookup_2. }
  assert (Hwk : CExit ∉ ctls p -> CExit ∉ map wake (ctls p)).
  { intros Hn (c & Hc & Hin)%list_elem_of_fmap. by destruct c. }
  cases_pool H; cbn; auto.
  - destruct (alive (group p)) eqn:Ha; cbn; [by auto|]. split; [done|].
    intros E. unfold alive in Ha. by rewrite E in Ha.
  - pose proof (wait_work_ctl (f_tasks (fur (core p))) (skip p)) as (_ & ? & _). by auto.
  - pose proof (wait_work_ctl (f_tasks (fur (core p))) (skip p)) as (_ & ? & _). by auto.
  - unfold count_piece in Hg. assert (Hb : busy w' <> CExit) by (by destruct w').
    assert (E : g' = group p \/ exists x, x ∈ g_states (group p) /\ g' = set_thread_state i (x + 1) (group p)).
    { destruct w, w'; inv_ret; try (by left). right. exists x. split.
      - unfold thread_state in Hx. destruct (g_states _ !! _) eqn:El; [|done]. destruct (_ <? _); inv_ret.
        by eapply list_elem_of_lookup_2.
      - by apply i64_ret in Hx0 as [-> _]. }
    destruct E as [->|(x & Hx & ->)]; [by auto|]. cbn. split; [|by auto].
    rewrite Forall_forall in IH1. specialize (IH1 x Hx) as H0. apply Forall_insert; [by apply Forall_forall|lia].
  - by split.
  - unfold terminate_join in Hj. inv_ret. destruct x as [ts|]; [|done]. injection Hj as <-. by auto.
Qed.

(** The pieces that were not dropped. *)
Definition work_keys (s : sys) : list key := queued s ++ held s ++ finished s.

(** A worker that tries peers has its piece in hand and did not count it. *)
Lemma held_uncounted ws i w :
  ws !! i = Some w -> attempting w = true ->
  zsum (map uncounted ws) + 1 <= zlen (concat (map in_hand ws)).
Proof.
  intros Hi Hw.
  assert (Hle : forall l, zsum (map uncounted l) <= zlen (concat (map in_hand l))).
  { induction l as [|x l IH]; [done|]. unfold zsum in *. cbn [map foldr concat]. rewrite zlen_app.
    assert (uncounted x <= zlen (in_hand x)) by (by destruct x). lia. }
  revert i Hi. induction ws as [|x ws IH]; intros [|i] Hi; try done; cbn in Hi.
  - injection Hi as ->. specialize (Hle ws). unfold zsum in *. cbn [map foldr concat]. rewrite zlen_app.
    assert (uncounted w + 1 <= zlen (in_hand w)) by (by destruct w). lia.
  - specialize (IH i Hi). unfold zsum in *. cbn [map foldr concat]. rewrite zlen_app.
    assert (uncounted x <= zlen (in_hand x)) by (by destruct x). lia.
Qed.

(** The counter of a worker can be increased while pieces are few enough. *)
Lemma counter_room p i w w' :
  pool_reaches p -> zlen (work_keys (core p)) <= int64_max -> workers (core p) !! i = Some w ->
  attempting w = true -> exists g', count_piece i w w' (group p) = Ret g'.
Proof.
  intros Hr Hk Hi Hw. pose proof (pool_reaches_ok _ Hr) as Hp. destruct (pool_reaches_more _ Hr) as [Hpos _].
  destruct w as [|t|t ps ws|t lc j|t lc|t lc q]; try done. destruct w'; cbn; try by eexists.
  destruct (lookup_lt_is_Some_2 (g_states (group p)) i) as [x Hx].
  { rewrite (po_states _ Hp). by eapply lookup_lt_Some. }
  unfold thread_state. rewrite Nat2Z.id, Hx. destruct (Z.ltb_spec (Z.of_nat i) 0); [lia|]. cbn.
  pose proof (zsum_elem _ _ _ Hpos (list_elem_of_lookup_2 _ _ _ Hx)) as Hle.
  pose proof (held_uncounted _ _ _ Hi Hw) as Hu. pose proof (po_stats _ Hp) as Hs.
  unfold work_keys, held in Hk. rewrite !zlen_app in Hk. unfold int64_max in Hk.
  rewrite Forall_forall in Hpos. pose proof (Hpos x (list_elem_of_lookup_2 _ _ _ Hx)).
  rewrite i64_ok by zlen_lia. by eexists.
Qed.
