(* ===== verification/Scores.v ===== *)
(** * Scores: the peer scores of the torrents and the draws of the workers

    The scores decide which peer a worker draws. An invariant of the system of
    [System]: a score per peer, all positive, that add up to the peers and the
    pieces credited to them; so every index a worker can draw has a peer, and no
    score comes near the end of its range. *)
From S2P Require Import Prelude Hash Descriptor Pieces Peer Torrent Socket Downloader DownloaderSpec Queue Io.
From S2P Require Import Task Furrent System Session Group Pool.
Local Open Scope Z_scope.

(** ** Invariants of reachable states *)

(** A property of the initial state that steps between accounted states keep. *)
Lemma reaches_invariant (P : sys -> Prop) :
  (forall d n, P (sys_new d n)) ->
  (forall s s', sys_ok s -> sys_ok s' -> P s -> step s s' -> P s') ->
  forall s, reaches s -> P s.
Proof.
  intros Hn Hst s H. induction H as [d n|s s' H IH Hs]; [done|].
  pose proof (reaches_ok _ H) as Hok. apply (Hst s); [done|by eapply step_ok|done|done].
Qed.

(** ** The invariant *)

(** The pieces that were credited to a peer. *)
Definition credited (w : worker) : list key := match w with WScored t _ => [key_of t] | _ => [] end.
Definition scored_keys (s : sys) : list key := concat (map credited (workers s)) ++ finished s.

(** The scores of a torrent with [n] credited pieces. *)
Record score_ok (n : Z) (t : Torrent) : Prop := {
  so_length : zlen (t_peers_score t) = zlen (t_peers t);
  so_positive : Forall (fun x => 1 <= x) (t_peers_score t);
  so_sum : zsum (t_peers_score t) = zlen (t_peers t) + n;
}.

(** The variables of a worker that looked at a torrent with the peers [peers_now]. *)
Definition locals_ok (peers_now : list Peer) (lc : locals) : Prop :=
  lc.1 = peers_now /\ zlen lc.2 = zlen lc.1 /\ Forall (fun x => 1 <= x) lc.2.

(** What a worker knows of the peers of its torrent. *)
Definition draws_ok (peers_of : Z -> list Peer) (w : worker) : Prop :=
  match w with
  | WWorks task ps ws => locals_ok (peers_of (Task.tid task)) (ps, ws)
  | WSaved task lc j =>
      locals_ok (peers_of (Task.tid task)) lc /\ 0 <= j < zlen (peers_of (Task.tid task))
  | WScored task lc | WCounted task lc _ => locals_ok (peers_of (Task.tid task)) lc
  | _ => True
  end.

Definition peers_in (s : sys) (tid : Z) : list Peer := t_peers (torrent_of tid s).

Record scored (s : sys) : Prop := {
  sd_torrent tid : score_ok (zlen (of_torrent tid (scored_keys s))) (torrent_of tid s);
  sd_worker i w : workers s !! i = Some w -> draws_ok (peers_in s) w;
}.

Lemma draws_ok_ext f g w : (forall tid, g tid = f tid) -> draws_ok f w -> draws_ok g w.
Proof. intros H. destruct w; cbn; by rewrite ?H. Qed.

(** A torrent changed in something else than its peers and scores. *)
Lemma score_ok_same n t t' :
  t_peers t' = t_peers t -> t_peers_score t' = t_peers_score t -> score_ok n t -> score_ok n t'.
Proof. intros Hp Hs [H1 H2 H3]. split; by rewrite ?Hp, ?Hs. Qed.

Lemma score_ok_new t :
  scores_ok t -> Forall (fun x => x = 1) (t_peers_score t) -> score_ok 0 t.
Proof.
  intros [Hl Hp] H1. split; [done..|]. rewrite <- Hl. clear Hl Hp.
  induction H1 as [|x l -> _ IH]; [done|]. rewrite zlen_cons. unfold zsum in *. cbn [foldr]. lia.
Qed.

Lemma score_ok_empty : score_ok 0 Torrent_empty.
Proof. by split. Qed.

(** A score is at most one more than the credited pieces. *)
Lemma score_bound n t x : score_ok n t -> x ∈ t_peers_score t -> 1 <= x <= 1 + n.
Proof.
  intros [Hl Hp Hs] Hx. pose proof (zsum_elem _ _ _ Hp Hx). rewrite Forall_forall in Hp.
  specialize (Hp _ Hx). lia.
Qed.

(** One more piece is credited to a peer. *)
Lemma score_ok_add n t j t' :
  score_ok n t -> n < int64_max - 1 -> 0 <= j < zlen (t_peers t) ->
  atomic_add_peer_score j t = Ret t' -> score_ok (n + 1) t'.
Proof.
  intros Ht Hn Hj H. pose proof Ht as [Hl Hp Hs]. unfold atomic_add_peer_score in H.
  destruct (Z.ltb_spec j (zlen (t_peers_score t))); [|lia]. inv_ret.
  apply vset_ret in Hx0 as [_ ->]. apply vget_lookup in Hx as [_ Hx].
  pose proof (score_bound _ _ _ Ht (list_elem_of_lookup_2 _ _ _ Hx)) as Hb. unfold int64_max in Hn.
  rewrite wrap64_small by lia. split; cbn; [by rewrite zlen_insert| |].
  - apply Forall_insert; [done|lia].
  - rewrite (zsum_insert _ _ x) by done. lia.
Qed.

(** ** Credited pieces *)

Lemma scored_keys_held s : scored_keys s ⊆+ held s ++ finished s.
Proof.
  unfold scored_keys, held. apply submseteq_app; [|done]. induction (workers s) as [|w ws IH]; [done|].
  cbn. apply submseteq_app; [|done]. destruct w; cbn; try done; apply submseteq_nil_l.
Qed.

(** They are pieces of the torrent. *)
Lemma scored_keys_range s tid :
  sys_ok s -> zlen (of_torrent tid (scored_keys s)) <= pieces_max_size /\
  (t_peers (torrent_of tid s) <> [] ->
   zlen (of_torrent tid (scored_keys s)) <= pieces_count (t_descriptor (torrent_of tid s))) /\
  (t_peers (torrent_of tid s) = [] -> of_torrent tid (scored_keys s) = []).
Proof.
  intros Hok. assert (Hsub : of_torrent tid (scored_keys s) ⊆+ of_torrent tid (all_keys s)).
  { apply submseteq_of_torrent. unfold all_keys. apply submseteq_inserts_l. rewrite app_assoc.
    apply submseteq_inserts_r, scored_keys_held. }
  apply zlen_submseteq in Hsub. pose proof (accounted_total _ _ _ _ _ tid Hok) as Ht.
  pose proof (ac_bound _ _ _ _ _ Hok tid) as Hb. pose proof (accounted_none _ _ _ _ _ tid Hok) as Hn.
  cbv beta in *. destruct (decide (t_peers (torrent_of tid s) = [])) as [E|E].
  - destruct (Hn E) as [H0 _]. rewrite H0 in Hsub. change (zlen []) with 0 in Hsub.
    split_and!; [|done|intros _; apply zlen_0_nil; zlen_pos; lia].
    change pieces_max_size with 288230376151711743. lia.
  - specialize (Ht E). specialize (Hb E). split_and!; [lia|lia|done].
Qed.

Lemma credited_insert ws fin i w0 w tid :
  ws !! i = Some w0 ->
  zlen (of_torrent tid (concat (map credited (<[i := w]> ws)) ++ fin)) =
  zlen (of_torrent tid (concat (map credited ws) ++ fin)) -
    zlen (of_torrent tid (credited w0)) + zlen (of_torrent tid (credited w)).
Proof.
  intros Hi. pose proof (concat_map_insert credited _ _ _ w Hi) as H.
  apply (of_torrent_perm tid) in H. rewrite !of_torrent_app in *. apply Permutation_length in H.
  rewrite !length_app in H. rewrite !zlen_app. unfold zlen. lia.
Qed.

Lemma of_torrent_single tid k : zlen (of_torrent tid [k]) = if decide (k.1 = tid) then 1 else 0.
Proof. rewrite of_torrent_cons. by destruct (decide _). Qed.

(** ** Steps *)

(** A worker moves from [w0] to [w]; the peers do not change, and the scores of
    every torrent follow the credited pieces. *)
Lemma scored_move s f' i w0 w fin pur :
  scored s -> workers s !! i = Some w0 ->
  (forall tid, t_peers (torrent_at tid (f_torrents f')) = t_peers (torrent_of tid s)) ->
  draws_ok (peers_in s) w ->
  (forall tid n, score_ok n (torrent_of tid s) -> n = zlen (of_torrent tid (scored_keys s)) ->
     score_ok (n - zlen (of_torrent tid (credited w0)) + zlen (of_torrent tid (credited w)) +
               (zlen (of_torrent tid fin) - zlen (of_torrent tid (finished s))))
       (torrent_at tid (f_torrents f'))) ->
  scored (mkSys f' (<[i := w]> (workers s)) (owner s) fin pur).
Proof.
  intros [Ht Hw] Hi Hp Hd Hsc. split.
  - intros tid. specialize (Hsc tid _ (Ht tid) eq_refl). unfold torrent_of at 1. cbn [fur].
    replace (zlen (of_torrent tid (scored_keys _))) with
      (zlen (of_torrent tid (scored_keys s)) - zlen (of_torrent tid (credited w0)) +
       zlen (of_torrent tid (credited w)) +
       (zlen (of_torrent tid fin) - zlen (of_torrent tid (finished s)))); [done|].
    unfold scored_keys. cbn [workers finished]. rewrite (credited_insert _ _ _ _ _ _ Hi).
    rewrite !of_torrent_app, !zlen_app. lia.
  - intros j x Hj. apply (draws_ok_ext (peers_in s)); [intros tid; apply Hp|].
    cbn in Hj. apply list_lookup_insert_Some in Hj as [(_ & <- & _)|[_ Hj]]; [done|by eapply Hw].
Qed.

(** The common case: nothing is credited and no score changes. *)
Lemma scored_keep s f' i w0 w :
  scored s -> workers s !! i = Some w0 -> credited w0 = [] -> credited w = [] ->
  (forall tid, t_peers (torrent_at tid (f_torrents f')) = t_peers (torrent_of tid s) /\
     t_peers_score (torrent_at tid (f_torrents f')) = t_peers_score (torrent_of tid s)) ->
  draws_ok (peers_in s) w ->
  scored (mkSys f' (<[i := w]> (workers s)) (owner s) (finished s) (purged s)).
Proof.
  intros Hs Hi H0 H1 Ht Hd. apply (scored_move _ _ _ w0); [done|done|apply Ht|done|].
  intros tid n Hn _. rewrite H0, H1. change (zlen (of_torrent tid [])) with 0.
  replace (_ + _) with n by lia. by apply (score_ok_same _ (torrent_of tid s)); [apply Ht..|].
Qed.

(** The owner does something that leaves peers and scores alone. *)
Lemma scored_owner s f' o pur :
  scored s ->
  (forall tid, t_peers (torrent_at tid (f_torrents f')) = t_peers (torrent_of tid s) /\
     t_peers_score (torrent_at tid (f_torrents f')) = t_peers_score (torrent_of tid s)) ->
  scored (mkSys f' (workers s) o (finished s) pur).
Proof.
  intros [Ht Hw] H. split.
  - intros tid. by apply (score_ok_same _ (torrent_of tid s)); [apply H..|].
  - intros i w Hi. apply (draws_ok_ext (peers_in s)); [intros tid; apply H|by eapply Hw].
Qed.

(** Putting a torrent with the same peers and scores. *)
Lemma torrents_same m tid t :
  t_peers t = t_peers (torrent_at tid m) -> t_peers_score t = t_peers_score (torrent_at tid m) ->
  forall x, t_peers (torrent_at x (<[tid := t]> m)) = t_peers (torrent_at x m) /\
    t_peers_score (torrent_at x (<[tid := t]> m)) = t_peers_score (torrent_at x m).
Proof. intros Hp Hs x. rewrite torrent_at_insert. by destruct (decide (x = tid)) as [->|]. Qed.

Lemma scored_score s i task lc j f' :
  sys_ok s -> scored s -> workers s !! i = Some (WSaved task lc j) ->
  worker_score task j (fur s) = Ret (tt, f') ->
  scored (mkSys f' (<[i := WScored task lc]> (workers s)) (owner s) (finished s) (purged s)).
Proof.
  intros Hok Hs Hi H. pose proof (sd_worker _ Hs _ _ Hi) as [Hlc Hj].
  apply score_spec in H as (t & H & ->). apply (scored_move _ _ _ _ _ _ _ Hs Hi); [|done|].
  - intros tid. cbn. rewrite torrent_at_insert. destruct (decide (tid = Task.tid task)) as [->|]; [|done].
    by apply similar_score in H as [].
  - intros tid n Hn En. cbn [credited f_torrents set_torrents]. rewrite of_torrent_single.
    change (zlen (of_torrent tid [])) with 0. rewrite torrent_at_insert. cbn [key_of fst].
    destruct (decide (Task.tid task = tid)) as [<-|Hne].
    + rewrite decide_True by done. replace (_ + _) with (n + 1) by lia.
      apply (score_ok_add n (torrent_of (Task.tid task) s) j); [done| |done|done].
      destruct (scored_keys_range s (Task.tid task) Hok) as [Hr _].
      change pieces_max_size with 288230376151711743 in Hr. unfold int64_max. lia.
    + rewrite decide_False by congruence. by replace (_ + _) with n by lia.
Qed.

Lemma scored_count s i task lc p f' :
  scored s -> workers s !! i = Some (WScored task lc) -> worker_count task (fur s) = Ret (p, f') ->
  scored (mkSys f' (<[i := WCounted task lc p]> (workers s)) (owner s) (key_of task :: finished s) (purged s)).
Proof.
  intros Hs Hi H. pose proof (sd_worker _ Hs _ _ Hi) as Hlc. apply count_spec in H as (_ & _ & ->).
  assert (Hsame := torrents_same (f_torrents (fur s)) (Task.tid task)).
  apply (scored_move _ _ _ _ _ _ _ Hs Hi); [intros tid; by apply Hsame|done|].
  intros tid n Hn _. cbn [credited]. rewrite (of_torrent_cons tid _ (finished s)), zlen_app.
  rewrite of_torrent_single. change (zlen (of_torrent tid [])) with 0.
  assert (E : zlen (if decide ((key_of task).1 = tid) then [key_of task] else []) =
    if decide ((key_of task).1 = tid) then 1 else 0) by (by destruct (decide _)).
  rewrite E. replace (_ + _) with n by lia.
  by apply (score_ok_same _ (torrent_of tid s)); [apply Hsame..|].
Qed.

Lemma scored_work s s' : sys_ok s -> scored s -> work_step s s' -> scored s'.
Proof.
  intros Hok Hs H. cases_work Hok H.
  - unfold worker_extract in H. destruct (q_extract _ _). injection H as _ <-.
    by apply (scored_keep _ _ _ _ _ Hs Hi).
  - pose proof (sd_torrent _ Hs (Task.tid task)) as [Hl Hp _].
    apply (look_ret _ _ _ _ _ Hok) in H as (-> & -> & ->).
    apply (scored_keep _ _ _ _ _ Hs Hi); [done..|by apply torrents_same|done].
  - pose proof (sd_worker _ Hs _ _ Hi) as (Hps & Hl & Hpos). apply process_key in H.
    assert (Et : Task.tid task' = Task.tid task) by (unfold key_of in H; congruence).
    apply (scored_keep _ _ _ _ _ Hs Hi); [done|by destruct ok|done|].
    destruct ok; cbn; rewrite Et; [|done]. split; [done|]. apply lookup_lt_Some in Hp. rewrite <- Hps. cbn. unfold zlen. lia.
  - by eapply scored_score.
  - by eapply scored_count.
  - apply complete_spec in H. cbv zeta in H. apply (scored_keep _ _ _ _ _ Hs Hi); [done..| |done].
    subst f'. destruct (_ =? _); [|done]. by apply torrents_same.
  - unfold remove_tasks in H. run_ops H. injection H as <-. by apply scored_owner.
  - unfold remove_load in H. run_ops H. injection H as <- <-. apply scored_owner; [done|].
    by apply torrents_same.
  - unfold remove_stop in H. run_ops H. apply scored_owner; [done|].
    destruct (decide _); injection H as <-; [|done]. by apply torrents_same.
Qed.

Lemma scored_add s http filename r f' :
  sys_ok s -> scored s -> add_torrent http filename (fur s) = Ret (r, f') ->
  scored (mkSys f' (workers s) CIdle (finished s) (purged s)).
Proof.
  intros Hok Hs [(_ & [_ Hm] & _)|(d0 & d & g & H & [_ Hm] & _)]%add_spec.
  { apply scored_owner; [done|]. by rewrite Hm. }
  set (uid := f_next_uid (fur s)) in *. pose proof (ac_fresh _ _ _ _ _ Hok uid ltac:(done)) as Hpe.
  cbv beta in Hpe. destruct (scored_keys_range s uid Hok) as (_ & _ & H0). specialize (H0 Hpe).
  apply register_spec in H as (t & Hc & _ & _ & H).
  assert (Ht : score_ok 0 t).
  { destruct Hc as [Hc|(_ & _ & _ & _ & H1 & H2)]; [|by apply score_ok_new].
    pose proof (sd_torrent _ Hs uid) as Hu. rewrite H0 in Hu. rewrite Hm in Hc.
    unfold torrent_of, torrent_at in Hu. by rewrite Hc in Hu. }
  assert (Hcase : exists t', score_ok 0 t' /\ f_torrents f' = <[uid := t']> (f_torrents (fur s))).
  { destruct H as [(_ & _ & _ & Hm')|(_ & _ & ps & _ & _ & Hm')]; rewrite Hm in Hm'.
    all: eexists; split; [|exact Hm']; by apply (score_ok_same _ t). }
  destruct Hcase as (t' & Ht' & Hm'). destruct Hs as [Hst Hsw]. split.
  - intros tid. unfold torrent_of. cbn [fur]. rewrite Hm', torrent_at_insert.
    change (scored_keys (mkSys _ _ _ _ _)) with (scored_keys s).
    destruct (decide (tid = uid)) as [->|]; [by rewrite H0|apply Hst].
  - intros i w Hi. pose proof (Hsw _ _ Hi) as Hd.
    assert (Hne : forall task, key_of task ∈ in_hand w \/ key_of task ∈ finished s -> Task.tid task <> uid).
    { intros task Hin E. destruct (accounted_key _ _ _ _ _ (key_of task) Hok) as [Hne _]; [|by apply Hne; cbn; rewrite E].
      destruct Hin as [Hin|Hin]; [by eapply held_key|].
      by eapply elem_of_submseteq; [|apply (ac_fin _ _ _ _ _ Hok)]. }
    assert (Hp : forall tid, tid <> uid ->
      peers_in (mkSys f' (workers s) CIdle (finished s) (purged s)) tid = peers_in s tid).
    { intros tid E. unfold peers_in, torrent_of. cbn [fur]. by rewrite Hm', torrent_at_insert, decide_False. }
    destruct w as [|t1|t1 ps ws|t1 lc j|t1 lc|t1 lc p]; cbn in Hd |- *; try done.
    1-3: rewrite Hp; [done|]; apply Hne; left; by left.
    rewrite Hp; [done|]. apply Hne. right. by destruct (ac_counted _ _ _ _ _ Hok _ _ _ _ Hi).
Qed.

Lemma scored_new d n : scored (sys_new d n).
Proof.
  split.
  - intros tid. assert (E : torrent_of tid (sys_new d n) = Torrent_empty).
    { unfold torrent_of, torrent_at. cbn. by rewrite lookup_empty. }
    assert (Hk : scored_keys (sys_new d n) = []).
    { unfold scored_keys. cbn. rewrite app_nil_r. clear E. by induction n as [|n IH]. }
    rewrite E, Hk. apply score_ok_empty.
  - intros i w Hi. cbn in Hi. by apply lookup_replicate in Hi as [-> _].
Qed.

Lemma reaches_scored s : reaches s -> scored s.
Proof.
  revert s. apply reaches_invariant; [apply scored_new|].
  intros s s' Hok _ Hs H. destruct H as [s s' H|s http filename r f' Ho H|s folder r f' Ho H].
  - by eapply scored_work.
  - by eapply scored_add.
  - apply set_download_folder_spec in H as [[_ Hm] _]. apply scored_owner; [done|]. by rewrite Hm.
Qed.

(** ** The statistics of a worker *)

(** [ss.width(n)] before a right-aligned string. *)
Definition pad_left (n : nat) (s : bytes) : bytes := replicate (n - length s) x20 ++ s.

(** Counting the draws of the distribution. *)
Fixpoint count_rolls (draws : list Z) (rolls : list Z) : cxx (list Z) :=
  match draws with
  | [] => Ret rolls
  | i :: draws =>
      n ← vget rolls i;
      n ← i64 (n + 1);
      rolls ← vset rolls i n;
      count_rolls draws rolls
  end.

(** [std::string(n, '*')]: a negative count is a size that is too large. *)
Definition stars (n : Z) : cxx bytes :=
  if n <? 0 then Throw (length_error "basic_string::_M_create")
  else Ret (replicate (Z.to_nat n) x2a).

(** The lines, one per peer. *)
Fixpoint stats_lines (size : Z) (peers : list Peer) (rolls : list Z) : cxx bytes :=
  match peers, rolls with
  | [], _ => Ret []
  | _ :: _, [] => Undef OutOfBounds
  | p :: peers, r :: rolls =>
      n ← i64 (r * size);
      bar ← stars (Z.quot n 1000);
      rest ← stats_lines size peers rolls;
      Ret (pad_left 30 (address p) ++ str " : " ++ bar ++ [x0a] ++ rest)
  end.

(** [thread_print_torrent_stats], on what the distribution draws. *)
Definition thread_print_torrent_stats (draws : list Z) (peers : list Peer) : cxx bytes :=
  rolls ← count_rolls draws (replicate (length peers) 0);
  stats_lines (zlen peers) peers rolls.

Definition stats_draws : Z := 10000.

Lemma count_rolls_total draws rolls :
  Forall (fun i => 0 <= i < zlen rolls) draws -> Forall (fun r => 0 <= r) rolls ->
  zsum rolls + zlen draws <= int64_max ->
  exists rolls', count_rolls draws rolls = Ret rolls' /\ zlen rolls' = zlen rolls /\
    Forall (fun r => 0 <= r) rolls' /\ zsum rolls' = zsum rolls + zlen draws.
Proof.
  intros Hd. revert rolls Hd. induction draws as [|i draws IH]; intros rolls Hd Hr Hs; cbn [count_rolls].
  { exists rolls. split_and!; try done. rewrite zlen_nil. lia. }
  inversion_clear Hd as [|? ? Hi Hd']. rewrite zlen_cons in Hs.
  destruct (vget_total rolls i Hi) as (n & -> & Hn). run_bind.
  pose proof (zsum_elem _ _ _ Hr (list_elem_of_lookup_2 _ _ _ Hn)) as Hle.
  assert (H0 : 0 <= n) by (rewrite Forall_forall in Hr; apply Hr; by eapply list_elem_of_lookup_2).
  unfold int64_max in Hs. zlen_pos. rewrite i64_ok by lia. run_bind. unfold vset.
  rewrite bool_decide_true by done. run_bind.
  destruct (IH (<[Z.to_nat i := n + 1]> rolls)) as (rolls' & E & El & Hp & Es).
  - by rewrite zlen_insert.
  - apply Forall_insert; [done|lia].
  - rewrite (zsum_insert _ _ n) by done. unfold int64_max. lia.
  - exists rolls'. rewrite zlen_insert in El. rewrite (zsum_insert _ _ n) in Es by done.
    rewrite zlen_cons. split_and!; [done..|lia].
Qed.

Lemma stats_lines_total size peers rolls :
  0 <= size -> zlen rolls = zlen peers -> Forall (fun r => 0 <= r) rolls -> zsum rolls * size <= int64_max ->
  exists text, stats_lines size peers rolls = Ret text.
Proof.
  intros Hz. revert rolls. induction peers as [|p peers IH]; intros rolls Hl Hr Hs; cbn [stats_lines].
  { by exists []. }
  destruct rolls as [|r rolls]; [zlen_lia|]. inversion_clear Hr as [|? ? H0 Hr']. rewrite !zlen_cons in Hl.
  pose proof (zsum_nonneg _ Hr') as Hp. unfold zsum in Hs. cbn [foldr] in Hs. fold (zsum rolls) in Hs.
  unfold int64_max in *. rewrite i64_ok by nia. run_bind. unfold stars.
  rewrite Z.quot_div_nonneg by nia. pose proof (Z.div_pos (r * size) 1000 ltac:(nia) ltac:(lia)) as Hn.
  destruct (Z.ltb_spec (r * size / 1000) 0); [lia|].
  run_bind. destruct (IH rolls) as (text & ->); [lia|done|nia|]. run_bind. by eexists.
Qed.

(** With draws that are indices of peers, unless the peers are absurdly many. *)
Lemma print_stats_total draws peers :
  Forall (fun i => 0 <= i < zlen peers) draws -> zlen draws = stats_draws -> zlen peers <= int64_max / stats_draws ->
  exists text, thread_print_torrent_stats draws peers = Ret text.
Proof.
  intros Hd Hn Hp. unfold thread_print_torrent_stats, stats_draws in *.
  change (int64_max / 10000) with 922337203685477 in Hp.
  assert (Hz : zsum (replicate (length peers) 0) = 0) by (rewrite zsum_replicate; lia).
  destruct (count_rolls_total draws (replicate (length peers) 0)) as (rolls & -> & Hl & Hr & Hs).
  - rewrite zlen_replicate. exact Hd.
  - apply Forall_forall. intros r Hr%elem_of_replicate. lia.
  - unfold int64_max. lia.
  - run_bind. apply stats_lines_total; [apply zlen_nonneg| |done|].
    + rewrite Hl, zlen_replicate. done.
    + rewrite Hs, Hz, Hn. unfold int64_max. lia.
Qed.

(** ** Failures of a worker *)

(** An evaluation that ends in an exception or in undefined behaviour. *)
Definition fails {A} (m : cxx A) : Prop :=
  match m with Throw _ | Undef _ => True | _ => False end.

Lemma fails_ret {A} (m : cxx A) a : m = Ret a -> ~ fails m.
Proof. intros -> []. Qed.

(** What [discrete_distribution] can draw: an index with a positive weight, and
    zero when there are no weights. *)
Definition drawn (weights : list Z) (j : nat) : Prop :=
  (exists w, weights !! j = Some w /\ 0 < w) \/ (weights = [] /\ j = 0%nat).

(** The ways in which worker [i] can end the program: the operations of
    [thread_main] on a task. *)
Inductive worker_fails (i : nat) (p : pool) : Prop :=
| wf_look task :
    workers (core p) !! i = Some (WTook task) -> fails (worker_look task (fur (core p))) -> worker_fails i p
| wf_draw task ps ws j :
    workers (core p) !! i = Some (WWorks task ps ws) -> drawn ws j -> ps !! j = None -> worker_fails i p
| wf_attempt task ps ws j peer n :
    workers (core p) !! i = Some (WWorks task ps ws) -> drawn ws j -> ps !! j = Some peer ->
    fails (process peer task (n, f_disk (fur (core p)))) -> worker_fails i p
| wf_processed task ps ws j peer n task' n' d' :
    workers (core p) !! i = Some (WWorks task ps ws) -> drawn ws j -> ps !! j = Some peer ->
    process peer task (n, f_disk (fur (core p))) = Ret ((true, task'), (n', d')) ->
    fails (count_piece i (WWorks task ps ws) (WSaved task' (ps, ws) (Z.of_nat j)) (group p)) -> worker_fails i p
| wf_score task lc j :
    workers (core p) !! i = Some (WSaved task lc j) -> fails (worker_score task j (fur (core p))) -> worker_fails i p
| wf_count task lc :
    workers (core p) !! i = Some (WScored task lc) -> fails (worker_count task (fur (core p))) -> worker_fails i p
| wf_stats task lc n draws :
    workers (core p) !! i = Some (WCounted task lc n) -> Z.rem n 100 = 0 ->
    zlen draws = stats_draws -> Forall (fun j => 0 <= j /\ drawn lc.2 (Z.to_nat j)) draws ->
    fails (thread_print_torrent_stats draws lc.1) -> worker_fails i p
| wf_complete task lc n :
    workers (core p) !! i = Some (WCounted task lc n) -> fails (worker_complete task n (fur (core p))) -> worker_fails i p.

(** A worker in the loop over the peers has peers to draw from. *)
Lemma works_peers s i task ps ws :
  sys_ok s -> scored s -> workers s !! i = Some (WWorks task ps ws) ->
  ps = peers_in s (Task.tid task) /\ ps <> [] /\ zlen ws = zlen ps /\
  forall j, (j < length ws)%nat -> exists w peer, ws !! j = Some w /\ 0 < w /\ ps !! j = Some peer.
Proof.
  intros Hok Hs Hi. destruct (sd_worker _ Hs _ _ Hi) as (E & Hl & Hp). cbn [fst snd] in E, Hl, Hp. subst ps.
  split; [done|]. split; [apply (accounted_key _ _ _ _ _ (key_of task) Hok); eapply held_key; [done|by left]|].
  split; [done|]. intros j Hj. destruct (lookup_lt_is_Some_2 ws j Hj) as [w Hw].
  destruct (lookup_lt_is_Some_2 (peers_in s (Task.tid task)) j) as [peer Hpe]; [unfold zlen in Hl; lia|].
  exists w, peer. rewrite Forall_forall in Hp. pose proof (Hp w (list_elem_of_lookup_2 _ _ _ Hw)).
  split_and!; [done|lia|done].
Qed.

Lemma drawn_peer s i task ps ws j :
  sys_ok s -> scored s -> workers s !! i = Some (WWorks task ps ws) -> drawn ws j ->
  exists w peer, ws !! j = Some w /\ 0 < w /\ ps !! j = Some peer.
Proof.
  intros Hok Hs Hi Hd. destruct (works_peers _ _ _ _ _ Hok Hs Hi) as (_ & Hne & Hl & H). apply H.
  destruct Hd as [(w & Hw & _)|[-> ->]]; [by eapply lookup_lt_Some|].
  destruct ps as [|p ps]; [done|]. rewrite zlen_cons in Hl. cbn in Hl. zlen_lia.
Qed.

(** What a worker that counted a piece can draw for the statistics. *)
Lemma counted_draws s i task lc n :
  sys_ok s -> scored s -> workers s !! i = Some (WCounted task lc n) ->
  lc.1 = peers_in s (Task.tid task) /\ forall j, drawn lc.2 j -> (j < length lc.1)%nat.
Proof.
  intros Hok Hs Hi. destruct (sd_worker _ Hs _ _ Hi) as (El & Hl & _). split; [done|].
  assert (Hne : lc.1 <> []).
  { rewrite El. apply (accounted_key _ _ _ _ _ (key_of task) Hok).
    destruct (ac_counted _ _ _ _ _ Hok _ _ _ _ Hi) as [Hf _].
    by eapply elem_of_submseteq; [|apply (ac_fin _ _ _ _ _ Hok)]. }
  unfold zlen in Hl. intros j [(w & Hw%lookup_lt_Some & _)|[E ->]]; [lia|].
  destruct lc.1; [done|cbn; lia].
Qed.

(** Crediting a piece. *)
Lemma score_adds s i task lc j :
  sys_ok s -> scored s -> workers s !! i = Some (WSaved task lc j) ->
  exists x f', t_peers_score (torrent_of (Task.tid task) s) !! Z.to_nat j = Some x /\
    worker_score task j (fur s) = Ret (tt, f') /\
    t_peers_score (torrent_at (Task.tid task) (f_torrents f')) =
      <[Z.to_nat j := x + 1]> (t_peers_score (torrent_of (Task.tid task) s)).
Proof.
  intros Hok Hs Hi. pose proof (sd_worker _ Hs _ _ Hi) as [_ Hj].
  pose proof (sd_torrent _ Hs (Task.tid task)) as Ht. pose proof (so_length _ _ Ht) as Hl.
  destruct (scored_keys_range s (Task.tid task) Hok) as [Hr _].
  change pieces_max_size with 288230376151711743 in Hr. unfold peers_in, torrent_of in *.
  destruct (vget_total (t_peers_score (torrent_at (Task.tid task) (f_torrents (fur s)))) j) as (x & Hg & Hx); [lia|].
  pose proof (score_bound _ _ _ Ht (list_elem_of_lookup_2 _ _ _ Hx)) as Hb.
  unfold worker_score. cbv [mbind st_bind get modify lift].
  unfold atomic_add_peer_score. destruct (Z.ltb_spec j (zlen (t_peers_score (torrent_at (Task.tid task) (f_torrents (fur s)))))); [|lia].
  rewrite Hg. cbn. rewrite wrap64_small by lia. unfold vset. rewrite bool_decide_true by lia. cbn.
  eexists _, _. split; [done|]. split; [done|]. cbn. by rewrite torrent_at_insert, decide_True.
Qed.

(** ** Claims *)

(** C9: the draws of the workers are safe. In every reachable state a torrent has
    one score per peer, the scores add up to the peers and the pieces credited to
    them, and each is between one and one more than the pieces of the torrent, so
    that none wraps around; a worker that tries peers has at least one, every
    index the distribution has is the index of a peer and can be drawn, and the
    statistics of its draws can be printed; crediting a piece adds one to
    the score of that peer only. *)
Theorem draws_in_bounds s :
  reaches s ->
  (forall tid t, f_torrents (fur s) !! tid = Some t -> t_peers t <> [] ->
     zlen (t_peers_score t) = zlen (t_peers t) /\
     zsum (t_peers_score t) = zlen (t_peers t) + zlen (of_torrent tid (scored_keys s)) /\
     forall x, x ∈ t_peers_score t -> 1 <= x <= 1 + pieces_count (t_descriptor t)) /\
  (forall i task ps ws, workers s !! i = Some (WWorks task ps ws) ->
     ps <> [] /\ zlen ws = zlen ps /\
     (forall j, (j < length ws)%nat -> exists w peer, ws !! j = Some w /\ 0 < w /\ ps !! j = Some peer) /\
     forall draws, Forall (fun j => 0 <= j < zlen ws) draws -> zlen draws = stats_draws ->
       zlen ps <= int64_max / stats_draws ->
       exists text, thread_print_torrent_stats draws ps = Ret text) /\
  (forall i task lc j, workers s !! i = Some (WSaved task lc j) ->
     exists x f', t_peers_score (torrent_of (Task.tid task) s) !! Z.to_nat j = Some x /\
       worker_score task j (fur s) = Ret (tt, f') /\
       t_peers_score (torrent_at (Task.tid task) (f_torrents f')) =
         <[Z.to_nat j := x + 1]> (t_peers_score (torrent_of (Task.tid task) s))).
Proof.
  intros Hr. pose proof (reaches_ok _ Hr) as Hok. pose proof (reaches_scored _ Hr) as Hs. split_and!.
  - intros tid t Ht Hp. pose proof (sd_torrent _ Hs tid) as Hsc.
    destruct (scored_keys_range s tid Hok) as (_ & Hk & _).
    assert (E : torrent_of tid s = t) by (unfold torrent_of, torrent_at; by rewrite Ht). rewrite E in *.
    split_and!; [apply Hsc..|]. intros x Hx. pose proof (score_bound _ _ _ Hsc Hx). specialize (Hk Hp). lia.
  - intros i task ps ws Hi. destruct (works_peers _ _ _ _ _ Hok Hs Hi) as (_ & Hne & Hl & Hj).
    split_and!; [done..|]. intros draws Hd. rewrite Hl in Hd. by apply print_stats_total.
  - intros i task lc j Hi. by apply (score_adds s i task lc).
Qed.

(** C10: a worker fails only in a download attempt. In every reachable state of the
    pool the operations of a worker on a task (looking at the torrent, drawing a
    peer, increasing its counter, crediting the peer, counting the piece, printing
    the statistics, completing the torrent) return, as long as there are fewer than
    2^63 pieces in all and fewer than 9 * 10^14 peers in a torrent; an exception
    or undefined behaviour can only come out of [PieceTask::process] with a peer of
    the torrent. *)
Theorem only_attempts_fail i p :
  pool_reaches p -> zlen (work_keys (core p)) <= int64_max ->
  (forall tid, zlen (peers_in (core p) tid) <= int64_max / stats_draws) ->
  worker_fails i p ->
  exists task ps ws j w peer n, workers (core p) !! i = Some (WWorks task ps ws) /\
    ws !! j = Some w /\ 0 < w /\ ps !! j = Some peer /\
    peer ∈ peers_in (core p) (Task.tid task) /\ fails (process peer task (n, f_disk (fur (core p)))).
Proof.
  intros Hr Hk Hps H. pose proof (po_core _ (pool_reaches_ok _ Hr)) as Hc.
  pose proof (reaches_ok _ Hc) as Hok. pose proof (reaches_scored _ Hc) as Hs.
  destruct H as [task Hi H|task ps ws j Hi Hd H|task ps ws j peer n Hi Hd Hp H|task ps ws j peer n task' n' d' Hi _ _ _ H
    |task lc j Hi H|task lc Hi H|task lc n draws Hi Hn Hl Hd H|task lc n Hi H].
  - destruct (look_total task (fur (core p))) as (ps & ws & f' & E); [apply (ac_paused _ _ _ _ _ Hok)|].
    by destruct (fails_ret _ _ E).
  - destruct (drawn_peer _ _ _ _ _ _ Hok Hs Hi Hd) as (w & peer & _ & _ & E). congruence.
  - destruct (drawn_peer _ _ _ _ _ _ Hok Hs Hi Hd) as (w & peer' & Hw & Hpos & E).
    destruct (works_peers _ _ _ _ _ Hok Hs Hi) as (Eps & _).
    exists task, ps, ws, j, w, peer, n. split_and!; try done. rewrite <- Eps. by eapply list_elem_of_lookup_2.
  - destruct (counter_room _ _ _ (WSaved task' (ps, ws) (Z.of_nat j)) Hr Hk Hi eq_refl) as [g' E]. by destruct (fails_ret _ _ E).
  - destruct (score_adds _ _ _ _ _ Hok Hs Hi) as (x & f' & _ & E & _). by destruct (fails_ret _ _ E).
  - destruct (count_enabled _ _ _ _ Hok Hi) as (n & f' & E). by destruct (fails_ret _ _ E).
  - destruct (counted_draws _ _ _ _ _ Hok Hs Hi) as [El Hdr].
    destruct (print_stats_total draws lc.1) as (text & E); [|done|by rewrite El|by destruct (fails_ret _ _ E)].
    eapply Forall_impl; [exact Hd|]. intros j [H0 Hj%Hdr]. unfold zlen. lia.
  - destruct (complete_total task n (fur (core p))) as (f' & E). by destruct (fails_ret _ _ E).
Qed.

(** ** Samples *)

(** The sample session while its worker tries the peer. *)
Lemma hello_working : reaches (hello_at hello_f3 (WWorks hello_piece_task hello_peers [1]) []).
Proof.
  refine (work_steps_reach _ _ hello_start _).
  eapply rtc_l; [exact (ws_worker 0 _ _ (w_extract 0 (hello_at hello_f1 WIdle []) _ _ eq_refl hello_extract))|].
  eapply rtc_l; [exact (ws_worker 0 _ _ (w_look 0 (hello_at hello_f2 (WTook hello_piece_task) []) _ _ _ _
    eq_refl hello_look))|].
  apply rtc_refl.
Qed.

Lemma draws_in_bounds_witness :
  hello_peers <> [] /\ zlen [1] = zlen hello_peers.
Proof.
  destruct (proj1 (proj2 (draws_in_bounds _ hello_working)) 0%nat _ _ _ eq_refl) as (H1 & H2 & _).
  exact (conj H1 H2).
Defined.

(** A peer that announces a piece the torrent does not have. *)
Definition hostile_net : Socket.net :=
  Socket.mkNet false (map done_with
    [[]; []; handshake_message hello_descriptor;
     [x00; x00; x00; x02]; [x05; x80]; []; [];
     [x00; x00; x00; x01]; [x01]; [];
     [x00; x00; x00; x05]; [x04; x00; x00; x00; x09]]) [] false.

Lemma hostile_attempt :
  process (nth 0 hello_peers (mkPeer 0 0)) hello_piece_task (hostile_net, f_disk hello_f3) =
  Throw (invalid_argument "index too large for this bitfield").
Proof. vm_compute. reflexivity. Qed.

(** One worker, with the client of the sample session. *)
Definition hello_pool (f : Furrent) (w : worker) (c : ctl) (pd : bool) : pool :=
  mkPool (hello_at f w []) [c] (mkGroup [Running] [0] false) false pd POpen.

Lemma hello_launched : pool_new (f_disk (fur hello_sys)) 2 = Ret (hello_pool (fur hello_sys) WIdle CHead false).
Proof. reflexivity. Qed.

Lemma hello_works :
  pool_reaches (hello_pool hello_f3 (WWorks hello_piece_task hello_peers [1]) CBusy false).
Proof.
  eapply pr_step; [eapply pr_step; [eapply pr_step; [eapply pr_step; [eapply pr_step;
    [exact (pr_new _ 2 _ ltac:(done) hello_launched)|]|]|]|]|].
  - exact (p_add (hello_pool (fur hello_sys) WIdle CHead false) _ _ _ _ eq_refl eq_refl eq_refl hello_added).
  - exact (p_notify (hello_pool hello_f1 WIdle CHead true) eq_refl).
  - exact (p_head (hello_pool hello_f1 WIdle CHead false) 0 eq_refl).
  - exact (p_found (hello_pool hello_f1 WIdle CTry false) 0 _ _ eq_refl eq_refl hello_extract).
  - exact (p_work (hello_pool hello_f2 (WTook hello_piece_task) CBusy false) 0 _ _ _ _ eq_refl eq_refl
      ltac:(discriminate) (w_look 0 (hello_at hello_f2 (WTook hello_piece_task) []) _ _ _ _ eq_refl hello_look)
      eq_refl eq_refl).
Qed.

(** No torrent of the sample has more peers than its one. *)
Lemma hello_few_peers tid : zlen (t_peers (torrent_at tid (f_torrents hello_f3))) <= int64_max / stats_draws.
Proof.
  assert (H : bool_decide (map_Forall (fun _ t => zlen (t_peers t) <= int64_max / stats_draws)
    (f_torrents hello_f3)) = true) by (vm_compute; reflexivity).
  apply bool_decide_eq_true_1 in H. unfold torrent_at.
  destruct (f_torrents hello_f3 !! tid) as [t|] eqn:E; [by apply (H tid)|]. vm_compute. discriminate.
Qed.

Lemma hostile_fails : worker_fails 0 (hello_pool hello_f3 (WWorks hello_piece_task hello_peers [1]) CBusy false).
Proof.
  apply (wf_attempt 0 _ hello_piece_task hello_peers [1] 0 (nth 0 hello_peers (mkPeer 0 0)) hostile_net).
  - done.
  - left. by exists 1.
  - exact hello_peer_0.
  - pose proof hostile_attempt as E. cbn [core hello_pool fur hello_at]. rewrite E. done.
Qed.

Lemma hello_work_fits :
  zlen (work_keys (core (hello_pool hello_f3 (WWorks hello_piece_task hello_peers [1]) CBusy false))) <= int64_max.
Proof. vm_compute. discriminate. Qed.

Lemma only_attempts_fail_witness :
  exists task ps ws j w peer n,
    [WWorks hello_piece_task hello_peers [1]] !! 0%nat = Some (WWorks task ps ws) /\
    ws !! j = Some w /\ 0 < w /\ ps !! j = Some peer /\
    peer ∈ peers_in (hello_at hello_f3 (WWorks hello_piece_task hello_peers [1]) []) (Task.tid task) /\
    fails (process peer task (n, f_disk hello_f3)).
Proof. exact (only_attempts_fail 0 _ hello_works hello_work_fits hello_few_peers hostile_fails). Defined.
