(* ===== verification/Removal.v ===== *)
(** * Removal: what remove_torrent stops

    Once [remove_torrent] has dropped the tasks of a torrent, in the system of
    [System]: none of them comes back, whatever the workers and the owner of the
    client do later, and only the pieces that workers had in hand are still
    processed. *)
From S2P Require Import Prelude Hash Descriptor Pieces Peer Torrent Socket Downloader Queue Io.
From S2P Require Import Task Furrent System Session Group Pool Scores.
Local Open Scope Z_scope.

Section removal.
Context (tid : Z).

(** The pieces of the torrent that workers have in hand or have finished. *)
Definition begun (s : sys) : list key := of_torrent tid (held s) ++ of_torrent tid (finished s).

(** The torrent has left the queue; [ks] are the pieces that were begun and [hs]
  those that were in hand then. *)
Record removed (ks hs : list key) (s : sys) : Prop := {
rm_known : tid < f_next_uid (fur s);
rm_queue : of_torrent tid (queued s) = [];
rm_begun : begun s ≡ₚ ks;
rm_held : of_torrent tid (held s) ⊆+ hs;
}.

(** A worker goes from [w0] to [w]. *)
Lemma held_of ws i w0 w :
ws !! i = Some w0 ->
of_torrent tid (concat (map in_hand (<[i := w]> ws))) ++ of_torrent tid (in_hand w0) ≡ₚ
of_torrent tid (concat (map in_hand ws)) ++ of_torrent tid (in_hand w).
Proof.
intros Hi. pose proof (held_insert _ _ _ w Hi) as H. apply (of_torrent_perm tid) in H.
by rewrite !of_torrent_app in H.
Qed.

Lemma removed_same ks hs s f' i w0 w :
removed ks hs s -> workers s !! i = Some w0 -> of_torrent tid (in_hand w) = of_torrent tid (in_hand w0) ->
f_next_uid f' = f_next_uid (fur s) -> of_torrent tid (map key_of (f_tasks f')) = [] ->
removed ks hs (mkSys f' (<[i := w]> (workers s)) (owner s) (finished s) (purged s)).
Proof.
intros [H1 H2 H3 H4] Hi Hw Hu Hq. pose proof (held_of _ _ _ w Hi) as Hh. rewrite Hw in Hh.
apply Permutation_app_inv_r in Hh. unfold begun, held in *.
split; unfold begun, held, queued; cbn; rewrite ?Hu, ?Hh; done.
Qed.

Lemma removed_owner ks hs s f' o pur :
removed ks hs s -> f_next_uid (fur s) <= f_next_uid f' -> of_torrent tid (map key_of (f_tasks f')) = [] ->
removed ks hs (mkSys f' (workers s) o (finished s) pur).
Proof. intros [H1 H2 H3 H4] Hu Hq. split; cbn; try done. lia. Qed.

Lemma removed_count ks hs s f' i task lc p :
removed ks hs s -> workers s !! i = Some (WScored task lc) ->
f_next_uid f' = f_next_uid (fur s) -> f_tasks f' = f_tasks (fur s) ->
removed ks hs (mkSys f' (<[i := WCounted task lc p]> (workers s)) (owner s) (key_of task :: finished s) (purged s)).
Proof.
intros [H1 H2 H3 H4] Hi Hu Hq. pose proof (held_of _ _ _ (WCounted task lc p) Hi) as Hh. cbn [in_hand] in Hh.
change (of_torrent tid []) with (@nil key) in Hh. rewrite app_nil_r in Hh.
split; unfold begun, held, queued in *; cbn; rewrite ?Hu, ?Hq; try done.
- rewrite <- H3, <- Hh, <- app_assoc. apply Permutation_app_head. rewrite !of_torrent_cons. by destruct (decide _).
- etransitivity; [|exact H4]. rewrite <- Hh. by apply submseteq_inserts_r.
Qed.

Lemma queue_subset (ts ts' : list PieceTask) :
ts' ⊆+ ts -> of_torrent tid (map key_of ts) = [] -> of_torrent tid (map key_of ts') = [].
Proof.
intros Hs H. apply (fmap_submseteq key_of), (submseteq_of_torrent tid) in Hs. change (key_of <$> ts) with (map key_of ts) in Hs.
rewrite H in Hs. by apply submseteq_nil_r in Hs.
Qed.

Lemma removed_work ks hs s s' : sys_ok s -> removed ks hs s -> work_step s s' -> removed ks hs s'.
Proof.
intros Hok Hs H. pose proof Hs as [H1 H2 _ _]. unfold queued in H2.
cases_work Hok H.
- destruct (worker_extract_cases (fur s)) as [[_ E]|(t & ts & Et & E)]; [congruence|].
  assert (task = t) as -> by congruence. assert (f' = set_tasks ts (fur s)) as -> by congruence.
  rewrite Et in H2. cbn [map] in H2. rewrite of_torrent_cons in H2. apply app_nil in H2 as [Hd Ht].
  apply (removed_same _ _ _ _ _ _ _ Hs Hi); [|done|done]. cbn [in_hand]. rewrite of_torrent_cons, Hd. done.
- apply (look_ret _ _ _ _ _ Hok) in H as (-> & _).
  by apply (removed_same _ _ _ _ _ _ _ Hs Hi).
- apply process_key in H. apply (removed_same _ _ _ _ _ _ _ Hs Hi); [|done|done].
  destruct ok; cbn [in_hand]; by rewrite H.
- apply score_spec in H as (t & _ & ->). by apply (removed_same _ _ _ _ _ _ _ Hs Hi).
- apply count_spec in H as (_ & _ & ->). by eapply removed_count.
- apply complete_spec in H. cbv zeta in H.
  apply (removed_same _ _ _ _ _ _ _ Hs Hi); [done|..]; subst f'; by destruct (_ =? _).
- unfold remove_tasks in H. run_ops H. injection H as <-. apply (removed_owner _ _ _ _ _ _ Hs); [done|].
  apply (queue_subset (f_tasks (fur s))); [|done]. cbn. clear.
  induction (f_tasks (fur s)) as [|x l IH]; [done|]. cbn. destruct (bool_decide _); [by apply submseteq_cons|by apply submseteq_skip].
- unfold remove_load in H. run_ops H. injection H as <- <-. by apply (removed_owner _ _ _ _ _ _ Hs).
- apply stop_spec in H as (t' & _ & ->). apply (removed_owner _ _ _ _ _ _ Hs); by destruct (decide _).
Qed.

Lemma removed_step ks hs s s' : sys_ok s -> removed ks hs s -> step s s' -> removed ks hs s'.
Proof.
intros Hok Hs H. pose proof Hs as [H1 H2 _ _]. unfold queued in H2.
destruct H as [s s' H|s http filename r f' Ho H|s folder r f' Ho H].
- by eapply removed_work.
- apply add_spec in H as [(Hu & [Ht _] & _)|(d0 & d & g & H & [Ht _] & Hu & _)].
  { apply (removed_owner _ _ _ _ _ _ Hs); [lia|by rewrite Ht]. }
  apply register_spec in H as (t & _ & Hu' & _ & [(_ & _ & Ht' & _)|(_ & _ & ps & _ & Ht' & _)]).
  + apply (removed_owner _ _ _ _ _ _ Hs); [lia|by rewrite Ht', Ht].
  + apply (removed_owner _ _ _ _ _ _ Hs); [lia|]. rewrite Ht', Ht, map_app, of_torrent_app, H2, map_map.
    clear - H1. induction ps as [|p ps IH]; [done|]. cbn [map]. rewrite app_nil_l in *.
    rewrite of_torrent_cons, decide_False; [exact IH|]. cbn. lia.
- apply set_download_folder_spec in H as [[Ht _] Hu]. apply (removed_owner _ _ _ _ _ _ Hs); [lia|by rewrite Ht].
Qed.

(** Right after the tasks are dropped. *)
Lemma removed_start s f' :
tid < f_next_uid (fur s) -> remove_tasks tid (fur s) = Ret (tt, f') ->
removed (begun s) (of_torrent tid (held s))
  (mkSys f' (workers s) (CPurged tid) (finished s) (of_torrent tid (queued s) ++ purged s)).
Proof.
intros Ht H. unfold remove_tasks in H. run_ops H. injection H as <-. split; try done.
unfold queued. cbn [fur f_tasks set_tasks]. induction (f_tasks (fur s)) as [|x l IH]; [done|]. cbn [q_mutate].
case_bool_decide; [done|]. cbn [map]. rewrite of_torrent_cons, decide_False by done. exact IH.
Qed.

Lemma held_count s : zlen (of_torrent tid (held s)) <= zlen (workers s).
Proof.
unfold held. induction (workers s) as [|w ws IH]; [done|]. cbn [map concat].
rewrite of_torrent_app, zlen_app, zlen_cons.
assert (zlen (of_torrent tid (in_hand w)) <= 1).
{ destruct w; cbn [in_hand]; try rewrite of_torrent_single; try done; destruct (decide _); lia. }
lia.
Qed.
End removal.

Lemma step_purged s s' : step s s' -> purged s ⊆+ purged s'.
Proof.
  intros H. destruct H as [s s' H|s http fn r f' Ho H|s fo r f' Ho H]; [|done..].
  destruct H as [i s s' H|s s' H]; destruct H; cbn; try done. by apply submseteq_inserts_l.
Qed.

Lemma removed_steps tid ks hs s s' :
  sys_ok s -> removed tid ks hs s -> rtc step s s' ->
  sys_ok s' /\ removed tid ks hs s' /\ purged s ⊆+ purged s'.
Proof.
  intros Hok Hs H. induction H as [s|s s1 s2 Hst _ IH]; [done|].
  destruct IH as (H1 & H2 & H3); [by eapply step_ok|by eapply removed_step|].
  split_and!; [done..|]. etransitivity; [by apply step_purged|done].
Qed.

(** A torrent with a dropped piece does not complete. *)
Lemma purged_not_completed s tid :
  sys_ok s -> of_torrent tid (purged s) <> [] -> t_state (torrent_of tid s) <> Completed.
Proof.
  intros Hok Hp Hc. destruct (ac_completed _ _ _ _ _ Hok tid Hc) as [Hpe Hn].
  pose proof (ac_processed _ _ _ _ _ Hok tid) as Hz. pose proof (accounted_total _ _ _ _ _ tid Hok Hpe) as Ht.
  cbv beta in *. apply Hp, zlen_0_nil. unfold all_keys in Ht. rewrite !of_torrent_app, !zlen_app in Ht. zlen_lia.
Qed.

(** ** Claims *)

(** C7: a removal is final. After [remove_torrent] has dropped the tasks of a
    torrent, then whatever the workers, later removals and later torrents do, no
    piece of it is queued again, workers only finish the pieces they had in
    hand, at most one each, and if a task was dropped the torrent is never
    reported as completed. *)
Theorem removal_is_final s tid f' s' :
  reaches s -> owner s = CIdle -> tid < f_next_uid (fur s) -> remove_tasks tid (fur s) = Ret (tt, f') ->
  rtc step (mkSys f' (workers s) (CPurged tid) (finished s) (of_torrent tid (queued s) ++ purged s)) s' ->
  of_torrent tid (queued s') = [] /\
  of_torrent tid (held s') ⊆+ of_torrent tid (held s) /\
  of_torrent tid (held s') ++ of_torrent tid (finished s') ≡ₚ of_torrent tid (held s) ++ of_torrent tid (finished s) /\
  zlen (of_torrent tid (finished s')) <= zlen (of_torrent tid (finished s)) + zlen (workers s) /\
  (of_torrent tid (queued s) <> [] -> t_state (torrent_of tid s') <> Completed).
Proof.
  intros Hr Ho Ht H Hsteps. pose proof (reaches_ok _ Hr) as Hok.
  destruct (removed_steps tid _ _ _ _ (purge_ok _ _ _ Hok H) (removed_start tid s f' Ht H) Hsteps)
    as (Hok' & [_ H2 H3 H4] & Hp).
  cbn [purged] in Hp. unfold begun in H3. split_and!; [done..| |].
  - pose proof (Permutation_length H3) as Hl. rewrite !length_app in Hl. pose proof (held_count tid s).
    unfold zlen in *. lia.
  - intros Hne. apply purged_not_completed; [done|]. intros E. apply Hne.
    apply (submseteq_of_torrent tid) in Hp. rewrite E, of_torrent_app in Hp. apply submseteq_nil_r in Hp.
    apply app_nil in Hp as [Hp _]. unfold of_torrent in *. by rewrite list_filter_filter_l in Hp.
Qed.

(** ** A sample *)

Definition gone_f1 : Furrent := after (remove_tasks 0 hello_f1) hello_f1.
Definition gone_f2 : Furrent := after (remove_load 0 gone_f1) gone_f1.
Definition gone_f3 : Furrent := after (remove_stop 0 Downloading gone_f2) gone_f2.
Definition gone_at (f : Furrent) (o : client) : sys := mkSys f [WIdle] o [] [(0, 0)].

Lemma gone_tasks : remove_tasks 0 hello_f1 = Ret (tt, gone_f1).
Proof. vm_compute. reflexivity. Qed.
Lemma gone_load : remove_load 0 gone_f1 = Ret (Downloading, gone_f2).
Proof. vm_compute. reflexivity. Qed.
Lemma gone_stop : remove_stop 0 Downloading gone_f2 = Ret (tt, gone_f3).
Proof. vm_compute. reflexivity. Qed.

Lemma gone_steps : rtc step (gone_at gone_f1 (CPurged 0)) (gone_at gone_f3 CIdle).
Proof.
  eapply rtc_l; [exact (s_work _ _ (ws_owner _ _ (c_load (gone_at gone_f1 (CPurged 0)) 0 _ _ eq_refl gone_load)))|].
  apply rtc_once.
  exact (s_work _ _ (ws_owner _ _ (c_stop (gone_at gone_f2 (CLoaded 0 Downloading)) 0 _ _ eq_refl gone_stop))).
Qed.

Lemma removal_is_final_witness :
  of_torrent 0 (queued (gone_at gone_f3 CIdle)) = [] /\
  t_state (torrent_of 0 (gone_at gone_f3 CIdle)) <> Completed.
Proof.
  destruct (removal_is_final (hello_at hello_f1 WIdle []) 0 gone_f1 (gone_at gone_f3 CIdle) hello_start eq_refl eq_refl
    gone_tasks gone_steps) as (H1 & _ & _ & _ & H2).
  split; [exact H1|]. apply H2. vm_compute. discriminate.
Defined.
