(* ===== verification/Shutdown.v ===== *)
(** * Shutdown: the life of the worker threads

    What the pool of [Pool] guarantees: it does what [System] allows, its workers
    do not sleep on work, and the destructor of the client returns unless a
    worker keeps failing on its piece. *)
From S2P Require Import Prelude Descriptor Pieces Peer Torrent Socket Downloader Queue SharedQueue Io Task.
From S2P Require Import Furrent System Session Group Pool Scores.
Local Open Scope Z_scope.

Definition pool_steps : relation pool := rtc (fun p p' => exists m, pool_step m p p').

(** Without workers nothing is processed. *)
Lemma no_workers_idle p p' :
  pool_ok p -> ctls p = [] -> finished (core p) = [] -> pool_steps p p' ->
  ctls p' = [] /\ finished (core p') = [].
Proof.
  intros Hp Hc Hf H. revert Hp Hc Hf. induction H as [p|p p1 p2 [m H] _ IH]; intros Hp Hc Hf; [done|].
  assert (Hp1 : pool_ok p1) by (by eapply pool_step_ok).
  assert (E : ctls p1 = [] /\ finished (core p1) = []); [|destruct E; by apply IH]. clear IH Hp1 Hp.
  cases_pool H; cbn; try (rewrite Hc in *; done).
  apply owner_step_spec in H as (_ & -> & _). done.
Qed.

(** ** Claims *)

(** C11: the pool refines the system. Every reachable state of the threads, with
    their waits, counters and shutdown, has a client that is reachable in
    [System]; the counters of the workers add up to the pieces on disk; and a
    worker that sleeps unsignalled has no work to do, or a signal is on its way. *)
Theorem pool_refines_system p :
  pool_reaches p ->
  reaches (core p) /\
  zsum (g_states (group p)) = zlen (finished (core p)) + zsum (map uncounted (workers (core p))) /\
  forall i, ctls p !! i = Some (CBlocked false) ->
    (f_tasks (fur (core p)) = [] /\ skip p = false) \/ pending p = true \/ closing p = PSkipping.
Proof.
  intros Hp%pool_reaches_ok. split_and!; [apply Hp|apply Hp|].
  intros i [Hi|Hi]%(po_blocked _ Hp); [left|by right]. unfold work_ready, q_size in Hi.
  apply orb_false_iff in Hi as [Hn ->]. apply negb_false_iff, Z.eqb_eq in Hn.
  split; [by apply zlen_0_nil|done].
Qed.

(** C12: the shutdown ends. Once the destructor of the client joins the workers,
    they make at most seven steps each besides failed attempts to download a
    piece; and as long as it waits some worker can make a step, without a
    spurious wake-up, unless a worker is trying a peer. *)
Theorem shutdown_ends p :
  pool_reaches p -> closing p = PJoining ->
  (forall n p', worker_run n p p' -> Z.of_nat n <= 7 * zlen (ctls p)) /\
  ((exists p', pool_step MOwner p p' /\ closing p' = PClosed) \/ (exists p', pool_step MWorker p p') \/
   exists i w, workers (core p) !! i = Some w /\ attempting w = true).
Proof.
  intros Hp%pool_reaches_ok Hc. split.
  - intros n p' Hr. destruct (worker_run_bound _ _ _ Hp Hc Hr) as (_ & _ & Hl).
    pose proof (pool_left_bound p). pose proof (pool_left_bound p'). lia.
  - destruct (decide (Forall (eq CExit) (ctls p))) as [He|He]; [left; by apply join_ready|]. right.
    apply not_Forall_Exists in He; [|apply _]. apply Exists_exists in He as (c & [i Hi]%list_elem_of_lookup & Hne).
    destruct (worker_enabled p i c Hp Hi) as [?|(w & Hw & Ha)]; [by intros ->| |by left|].
    { intros ->. by apply (closing_signalled p i Hp); rewrite ?Hc. }
    right. by exists i, w.
Qed.

(** A worker whose peer refuses the connection is where it was. *)
Lemma refused_stays p i task peer ps x ws :
  pool_ok p -> workers (core p) !! i = Some (WWorks task (peer :: ps) (x :: ws)) -> 0 < x ->
  0 <= index (task_piece task) < pieces_count (descriptor task) ->
  ctls p !! i = Some CBusy /\ pool_step MFailed p p.
Proof.
  intros Hp Hw Hx Hi.
  assert (Hl : exists c, ctls p !! i = Some c).
  { apply lookup_lt_is_Some. rewrite (po_ctls _ Hp). by eapply lookup_lt_Some. }
  destruct Hl as [c Hci]. assert (c = CBusy) as -> by (by apply (po_busy _ Hp _ _ _ Hci Hw)). split; [done|].
  destruct (refused_attempt peer task (f_disk (fur (core p))) Hi) as [n' E].
  pose proof (w_attempt i (core p) task (peer :: ps) (x :: ws) 0 x peer refused false task n' _
    Hw eq_refl Hx eq_refl E) as Hst.
  cbn [fur workers owner finished purged] in Hst. rewrite (list_insert_id _ _ _ Hw) in Hst.
  replace (mkSys _ _ _ _ _) with (core p) in Hst by (by destruct (core p) as [[]]).
  pose proof (p_work p i _ _ _ (group p) Hci Hw ltac:(done) Hst Hw eq_refl) as H. cbn [failed busy] in H.
  rewrite (list_insert_id _ _ _ Hci) in H. by destruct p.
Qed.

(** C38: the shutdown can hang. While the destructor joins, a worker that has a
    piece to download tries its peers again and again: a refused connection
    leaves everything as it was, and the join goes on waiting. *)
Theorem shutdown_hangs p i task peer ps x ws :
  pool_reaches p -> closing p = PJoining ->
  workers (core p) !! i = Some (WWorks task (peer :: ps) (x :: ws)) -> 0 < x ->
  0 <= index (task_piece task) < pieces_count (descriptor task) ->
  pool_step MFailed p p /\ terminate_join (group p) = Ret None.
Proof.
  intros Hp%pool_reaches_ok Hc Hw Hx Hi. destruct (refused_stays p i task peer ps x ws Hp Hw Hx Hi) as [Hci H].
  split; [done|]. by eapply (join_waits p i CBusy).
Qed.

(** The number of workers. The client starts one worker less than the
    hardware runs threads, and at least one; but when the concurrency of the
    hardware is not known it starts none, and then no piece is ever processed. *)
Lemma launch_workers d concurrency p :
  0 <= concurrency -> pool_new d concurrency = Ret p ->
  zlen (ctls p) = (if concurrency =? 0 then 0 else Z.max 1 (concurrency - 1)) /\
  get_worker_count (group p) = zlen (ctls p) /\
  (concurrency = 0 -> forall p', pool_steps p p' -> finished (core p') = []).
Proof.
  intros Hc H. pose proof (pool_ok_new _ _ _ Hc H) as Hp. unfold pool_new in H.
  rewrite launch_new in H; [|done|unfold workers_count; destruct (Z.ltb_spec 1 concurrency); lia].
  cbn in H. injection H as <-. cbn.
  assert (E : launch_size concurrency (workers_count concurrency) =
    if concurrency =? 0 then 0 else Z.max 1 (concurrency - 1)).
  { unfold launch_size, workers_count. destruct (Z.ltb_spec 1 concurrency).
    - destruct (Z.eqb_spec (concurrency - 1) 0); [lia|]. destruct (Z.eqb_spec concurrency 0); lia.
    - cbn. destruct (Z.eqb_spec concurrency 0); lia. }
  rewrite length_replicate in *. rewrite E in *. split_and!.
  - rewrite zlen_replicate. destruct (concurrency =? 0); lia.
  - unfold get_worker_count. cbn. by rewrite !zlen_replicate.
  - intros -> p' Hst. by apply (no_workers_idle _ _ Hp) in Hst as [_ ?].
Qed.

(** ** A sample pool *)

(** The worker has taken the piece, and the destructor joins it. *)
Definition hello_closing : pool :=
  mkPool (hello_at hello_f3 (WWorks hello_piece_task hello_peers [1]) []) [CBusy]
    (mkGroup [Running] [0] true) true false PJoining.

Lemma hello_closing_reached : pool_reaches hello_closing.
Proof.
  eapply pr_step; [eapply pr_step; [eapply pr_step; [exact hello_works|]|]|].
  - by apply p_skip.
  - by apply p_skip_signal.
  - exact (p_terminate (mkPool (hello_at hello_f3 (WWorks hello_piece_task hello_peers [1]) []) [CBusy]
      (mkGroup [Running] [0] false) true false PWoken) eq_refl).
Qed.

Lemma pool_refines_system_witness : reaches (core hello_closing) /\ zsum (g_states (group hello_closing)) = 0.
Proof.
  destruct (pool_refines_system hello_closing hello_closing_reached) as (H1 & H2 & _). split; [exact H1|exact H2].
Defined.

Lemma shutdown_ends_witness :
  closing hello_closing = PJoining /\
  forall n p', worker_run n hello_closing p' -> Z.of_nat n <= 7 * zlen [CBusy].
Proof.
  split; [reflexivity|]. exact (proj1 (shutdown_ends hello_closing hello_closing_reached eq_refl)).
Defined.

Lemma hello_peers_cons : hello_peers = nth 0 hello_peers (mkPeer 0 0) :: [].
Proof. vm_compute. reflexivity. Qed.

Lemma hello_index : 0 <= index (task_piece hello_piece_task) < pieces_count (descriptor hello_piece_task).
Proof. vm_compute. split; [discriminate|reflexivity]. Qed.

Lemma hello_closing_worker : workers (core hello_closing) !! 0%nat =
  Some (WWorks hello_piece_task (nth 0 hello_peers (mkPeer 0 0) :: []) (1 :: [])).
Proof. cbn. by rewrite <- hello_peers_cons. Qed.

Lemma shutdown_hangs_witness :
  pool_step MFailed hello_closing hello_closing /\ terminate_join (group hello_closing) = Ret None.
Proof.
  exact (shutdown_hangs hello_closing 0 hello_piece_task _ _ 1 [] hello_closing_reached eq_refl
    hello_closing_worker (eq_refl : 0 < 1) hello_index).
Defined.

Lemma no_workers_launched :
  exists p, pool_new (f_disk (fur hello_sys)) 0 = Ret p /\ zlen (ctls p) = 0 /\
    forall p', pool_steps p p' -> finished (core p') = [].
Proof.
  eexists. split; [reflexivity|].
  destruct (launch_workers (f_disk (fur hello_sys)) 0 _ ltac:(lia) eq_refl) as (H1 & _ & H2).
  split; [exact H1|exact (H2 eq_refl)].
Qed.
