(* ===== verification/Liveness.v ===== *)
(** * Liveness: every schedule of the workers completes a seeded torrent

    The pool of [Pool] while the client is open, under an arbitrary scheduler.
    Attempts may fail any number of times and threads may wake up for no reason;
    all other steps use up a measure. So as long as attempts can still succeed, the
    work is done after finitely many steps, whatever their order. *)
From S2P Require Import Prelude Bencode Sha1Spec Hash Descriptor Pieces Peer Torrent Message Socket.
From S2P Require Import Downloader DownloaderSpec DownloaderRuns Queue SharedQueue Io Task Furrent.
From S2P Require Import System Session Files Swarm Group Pool Scores Shutdown.
Local Open Scope Z_scope.

(** ** Schedules *)

(** Steps that can be repeated for ever. *)
Definition noise (p p' : pool) : Prop := pool_step MFailed p p' \/ pool_step MSpurious p p'.

(** All other steps of the threads while the owner of the client rests: steps of
    the workers, and the signal the owner is about to give. *)
Inductive due : pool -> pool -> Prop :=
| due_worker p p' : pool_step MWorker p p' -> due p p'
| due_notify p :
    pending p = true ->
    due p (mkPool (core p) (map wake (ctls p)) (group p) (skip p) false (closing p)).

(** However the threads are scheduled, [P] is reached: there is always a step
    that is due, and finitely many of them lead to [P], with any noise between
    them. *)
Inductive inevitably (P : pool -> Prop) (p : pool) : Prop :=
| inev_now : P p -> inevitably P p
| inev_later :
    (forall p1, rtc noise p p1 -> exists p2, due p1 p2) ->
    (forall p1 p2, rtc noise p p1 -> due p1 p2 -> inevitably P p2) -> inevitably P p.

Lemma noise_step p p' :
  noise p p' -> exists m, (m = MFailed \/ m = MSpurious) /\ m <> MOwner /\ pool_step m p p'.
Proof. by intros [H|H]; [exists MFailed|exists MSpurious]; split_and!; auto. Qed.

(** In particular it can be reached. *)
Lemma inevitably_possible P p :
  inevitably P p -> exists p', rtc (fun q q' => noise q q' \/ due q q') p p' /\ P p'.
Proof.
  induction 1 as [p Hp|p He _ IH]; [by exists p|].
  destruct (He p) as [p2 Hd]; [done|]. destruct (IH p p2) as (p' & Hr & HP); [done|done|].
  exists p'. split; [|done]. eapply rtc_l; [by right|done].
Qed.

(** ** The measure *)

(** Steps a worker has left on its task. *)
Definition task_left (w : worker) : Z :=
  match w with
  | WIdle => 0
  | WTook _ => 5
  | WWorks _ _ _ => 4
  | WSaved _ _ _ => 3
  | WScored _ _ => 2
  | WCounted _ _ _ => 1
  end.

Definition work_left (s : sys) : Z := 6 * zlen (f_tasks (fur s)) + zsum (map task_left (workers s)).

(** Steps a worker has left in the outer loop before it takes a task, or before
    it blocks. *)
Definition loop_left (empty : bool) (c : ctl) : Z :=
  match c with
  | CHead => if empty then 3 else 2
  | CTry => if empty then 2 else 1
  | CEmpty => if empty then 1 else 3
  | CBlocked b => if empty then (if b then 1 else 0) else 3
  | CBusy | CExit => 0
  end.

Definition no_tasks (p : pool) : bool := zlen (f_tasks (fur (core p))) =? 0.

Definition control_left (p : pool) : Z :=
  zsum (map (loop_left (no_tasks p)) (ctls p)) + (if pending p then 1 + zlen (ctls p) else 0).

Definition measure_of (p : pool) : Z := work_left (core p) * (4 * zlen (ctls p) + 2) + control_left p.

Lemma task_left_nonneg ws : 0 <= zsum (map task_left ws).
Proof. apply zsum_nonneg, Forall_forall. intros z (w & -> & _)%list_elem_of_fmap. by destruct w. Qed.

Lemma work_left_nonneg s : 0 <= work_left s.
Proof. unfold work_left. pose proof (task_left_nonneg (workers s)). zlen_lia. Qed.

Lemma loop_left_bound e cs : 0 <= zsum (map (loop_left e) cs) <= 3 * zlen cs.
Proof.
  induction cs as [|c cs IH]; [done|]. unfold zsum in *. cbn [map foldr]. rewrite zlen_cons.
  assert (0 <= loop_left e c <= 3) by (destruct c as [| | |[]| |], e; cbn; lia). lia.
Qed.

Lemma control_left_bound p : 0 <= control_left p <= 4 * zlen (ctls p) + 1.
Proof.
  unfold control_left. pose proof (loop_left_bound (no_tasks p) (ctls p)). destruct (pending p); zlen_lia.
Qed.

Lemma measure_nonneg p : 0 <= measure_of p.
Proof.
  unfold measure_of. pose proof (control_left_bound p). pose proof (work_left_nonneg (core p)).
  pose proof (zlen_nonneg (ctls p)). nia.
Qed.

(** A step on a task, and a step of the control flow. *)
Lemma measure_work p p' :
  work_left (core p') < work_left (core p) -> zlen (ctls p') = zlen (ctls p) -> measure_of p' < measure_of p.
Proof.
  intros Hw Hl. unfold measure_of. pose proof (control_left_bound p). pose proof (control_left_bound p').
  pose proof (zlen_nonneg (ctls p)). rewrite Hl in *. nia.
Qed.

Lemma measure_control p p' (n : Z) :
  core p' = core p -> zlen (ctls p') = zlen (ctls p) -> control_left p' + n <= control_left p ->
  measure_of p' + n <= measure_of p.
Proof. intros Hc Hl H. unfold measure_of. rewrite Hc, Hl. lia. Qed.

(** A worker changes its place in the outer loop. *)
Lemma measure_ctl p i c c' (n : Z) :
  ctls p !! i = Some c -> loop_left (no_tasks p) c' + n <= loop_left (no_tasks p) c ->
  measure_of (mkPool (core p) (<[i := c']> (ctls p)) (group p) (skip p) (pending p) (closing p)) + n <=
  measure_of p.
Proof.
  intros Hi Hn. apply measure_control; [done|by cbn; rewrite zlen_insert|].
  unfold control_left. cbn [ctls pending]. rewrite zlen_insert, (zsum_map_insert _ _ _ _ _ Hi).
  change (no_tasks (mkPool _ _ _ _ _ _)) with (no_tasks p). lia.
Qed.

Lemma wait_work_left p c (n : Z) :
  skip p = false -> n = (if no_tasks p then loop_left true c else 1) ->
  c = CEmpty \/ (exists b, c = CBlocked b) ->
  loop_left (no_tasks p) (wait_work (f_tasks (fur (core p))) (skip p)) + n <= loop_left (no_tasks p) c.
Proof.
  intros -> -> Hc. unfold wait_work, work_ready, q_size, no_tasks.
  destruct (zlen (f_tasks (fur (core p))) =? 0); cbn [negb orb]; [cbn; lia|].
  destruct Hc as [->|[b ->]]; cbn; lia.
Qed.

Lemma wake_left e cs : zsum (map (loop_left e) (map wake cs)) <= zsum (map (loop_left e) cs) + zlen cs.
Proof.
  induction cs as [|c cs IH]; [done|]. unfold zsum in *. cbn [map foldr]. rewrite zlen_cons.
  assert (loop_left e (wake c) <= loop_left e c + 1) by (destruct c as [| | |[]| |], e; cbn; lia). lia.
Qed.

Lemma task_left_moves w w' n :
  moves w w' n -> w <> WIdle -> task_left w' + (if failed w w' then 0 else 1) = task_left w.
Proof. by destruct 1. Qed.

(** Every step of a worker other than noise uses up the measure. *)
Lemma worker_measure m p p' :
  pool_ok p -> closing p = POpen -> pool_step m p p' -> m <> MOwner ->
  closing p' = POpen /\ measure_of p' + (match m with MWorker => 1 | _ => 0 end) <= measure_of p.
Proof.
  intros Hp Hcl H Hm. pose proof (po_skip _ Hp) as Hsk. pose proof (po_flag _ Hp) as Hfl.
  rewrite Hcl in Hsk, Hfl. rewrite bool_decide_false in Hsk, Hfl by naive_solver.
  cases_pool H; try done.
  - unfold alive. rewrite Hfl. cbn [negb]. split; [done|]. apply (measure_ctl p i CHead); [done|].
    destruct (no_tasks p); cbn; lia.
  - split; [done|]. apply Z.le_succ_l, measure_work; [|by cbn; rewrite zlen_insert].
    destruct (worker_extract_cases (fur (core p))) as [[_ E]|(t & ts & Et & E)]; [congruence|].
    assert (f' = set_tasks ts (fur (core p))) as -> by congruence.
    unfold work_left. cbn [core fur workers f_tasks set_tasks].
    rewrite Et, (zsum_map_insert _ _ _ _ _ Hw), zlen_cons. cbn [task_left]. lia.
  - destruct (worker_extract_cases (fur (core p))) as [[Et E]|(t & ts & Et & E)]; [|congruence].
    assert (f' = fur (core p)) as -> by congruence. split; [done|].
    replace (mkSys _ _ _ _ _) with (core p) by (by destruct (core p)).
    apply (measure_ctl p i CTry); [done|]. unfold no_tasks. rewrite Et, zlen_nil. cbn. lia.
  - split; [done|]. apply (measure_ctl p i CEmpty); [done|].
    apply wait_work_left; [done|by destruct (no_tasks p)|by left].
  - split; [done|]. apply (measure_ctl p i (CBlocked b)); [done|].
    pose proof (wait_work_left p (CBlocked b) _ Hsk eq_refl ltac:(right; by exists b)).
    destruct (no_tasks p), b; cbn in *; lia.
  - split; [done|].
    destruct (worker_step_moves _ _ _ _ _ (reaches_ok _ (po_core _ Hp)) Hst Hw Hw') as (_ & Ews & Ht & Hmv).
    destruct Ht as [->|Ht]; [done|]. pose proof (task_left_moves _ _ _ Hmv Hni) as Hl.
    assert (E : work_left s' = work_left (core p) - task_left w + task_left w').
    { unfold work_left. rewrite Ht, Ews, (zsum_map_insert _ _ _ _ _ Hw). lia. }
    destruct (failed w w') eqn:Ef.
    + rewrite Z.add_0_r. assert (Hbusy : busy w' = CBusy) by (by destruct w, w').
      unfold measure_of, control_left, no_tasks. cbn [core ctls pending]. rewrite Hbusy, list_insert_id, Ht by done.
      nia.
    + apply Z.le_succ_l, measure_work; [cbn; lia|]. cbn. by rewrite zlen_insert.
Qed.

(** ** Work that is left *)

Lemma held_length ws i w0 w :
  ws !! i = Some w0 ->
  zlen (concat (map in_hand (<[i := w]> ws))) =
  zlen (concat (map in_hand ws)) - zlen (in_hand w0) + zlen (in_hand w).
Proof.
  intros Hi. pose proof (Permutation_length (held_insert _ _ _ w Hi)) as H.
  rewrite !length_app in H. unfold zlen. lia.
Qed.

(** The steps of the workers neither add nor drop pieces. *)
Lemma worker_step_keys i s s' :
  sys_ok s -> worker_step i s s' ->
  zlen (work_keys s') = zlen (work_keys s) /\ purged s' = purged s /\
  length (workers s') = length (workers s).
Proof.
  intros Hok H. unfold work_keys, queued, held. rewrite !zlen_app, !zlen_map.
  cases_worker Hok H.
  all: cbn [fur workers finished purged]; rewrite length_insert, (held_length _ _ _ _ Hi).
  - destruct (worker_extract_cases (fur s)) as [[_ E]|(t & ts & Et & E)]; [congruence|].
    assert (f' = set_tasks ts (fur s)) as -> by congruence. rewrite Et. split_and!; [|done|done].
    cbn [set_tasks f_tasks in_hand]. zlen_lia.
  - apply (look_ret _ _ _ _ _ Hok) in H as (-> & _). cbn. split_and!; [lia|done|done].
  - split_and!; [|done|done]. destruct ok; cbn [set_disk f_tasks in_hand]; zlen_lia.
  - apply score_spec in H as (t & _ & ->). cbn. split_and!; [lia|done|done].
  - apply count_spec in H as (_ & _ & ->). split_and!; [|done|done].
    cbn [set_torrents f_tasks in_hand]. zlen_lia.
  - apply complete_spec in H. cbv zeta in H. split_and!; [|done|done]. subst f'.
    destruct (_ =? _); cbn [set_torrents f_tasks in_hand]; zlen_lia.
Qed.

(** ** Draining the queue *)

(** What the peers promise: an attempt on a task of the session can succeed, whoever
    is drawn and whatever was saved before. *)
Class Seeded (task_ok : PieceTask -> Prop) (disk_ok : Io.disk -> (key -> Prop) -> Prop) : Prop :=
  seeded_attempt peer task dk saved :
    task_ok task -> disk_ok dk saved ->
    exists n task' n' dk', process peer task (n, dk) = Ret ((true, task'), (n', dk')).

(** All work is done. *)
Definition drained (p : pool) : Prop :=
  f_tasks (fur (core p)) = [] /\ Forall (eq WIdle) (workers (core p)).

#[export] Instance worker_idle_dec w : Decision (WIdle = w).
Proof. destruct w; (by left) || (by right). Defined.

Section drain.
Context (task_ok : PieceTask -> Prop) (disk_ok : Io.disk -> (key -> Prop) -> Prop).
Context {HK : KeepsFiles task_ok disk_ok} {HS : Seeded task_ok disk_ok}.
Context (J : sys -> Prop).
Context (HJ : forall i s s', sys_ok s -> worker_step i s s' -> J s -> J s').
Context (HN : forall s, J s -> workers s <> []).

(** An open client whose torrents are seeded; [J] is kept by the workers and says
    that there are some. *)
Record live (p : pool) : Prop := {
lv_reach : pool_reaches p;
lv_open : closing p = POpen;
lv_session : session_ok task_ok disk_ok (core p);
lv_keys : zlen (work_keys (core p)) <= int64_max;
lv_more : J (core p);
}.

Lemma live_worker m p p' : live p -> pool_step m p p' -> m <> MOwner -> live p'.
Proof.
intros [H1 H2 H4 H5 H6] H Hm. pose proof (pool_reaches_ok _ H1) as Hp.
pose proof (reaches_ok _ (po_core _ Hp)) as Hok.
destruct (pool_worker_core _ _ _ Hp H Hm) as ([E|[i E]] & _ & Hc & _).
- split; rewrite ?E, ?Hc; try done. by eapply pr_step.
- destruct (worker_step_keys _ _ _ Hok E) as (Hk & _ & _). split; rewrite ?Hc, ?Hk; try done.
  + by eapply pr_step.
  + eapply session_step; [done|exact Hok|done|by eapply ws_worker].
  + by eapply HJ.
Qed.

Lemma live_due p p' : live p -> due p p' -> live p'.
Proof.
intros Hl Hd. destruct Hd as [q q' H|q Hq]; [by eapply live_worker|].
destruct Hl as [H1 H2 H4 H5 H6]. split; try done. eapply pr_step; [done|by apply p_notify].
Qed.

Lemma live_noise p p' : live p -> rtc noise p p' -> live p' /\ measure_of p' <= measure_of p.
Proof.
intros Hl H. induction H as [p|p p1 p2 H _ IH]; [done|].
destruct (noise_step _ _ H) as (m & _ & Hm & Hst).
pose proof (worker_measure _ _ _ (pool_reaches_ok _ (lv_reach _ Hl)) (lv_open _ Hl) Hst Hm) as [_ Hle].
destruct IH as [Hl' Hle']; [exact (live_worker _ _ _ Hl Hst Hm)|]. split; [done|]. destruct m; lia.
Qed.

Lemma due_measure p p' : live p -> due p p' -> measure_of p' < measure_of p.
Proof.
intros Hl Hd. destruct Hd as [q q' H|q Hq].
- pose proof (worker_measure _ _ _ (pool_reaches_ok _ (lv_reach _ Hl)) (lv_open _ Hl) H ltac:(done)) as [_ Hle]. lia.
- apply Z.le_succ_l, measure_control; [done|by cbn; rewrite zlen_map|].
  unfold control_left. rewrite Hq. cbn [ctls pending]. pose proof (wake_left (no_tasks q) (ctls q)).
  change (no_tasks (mkPool _ _ _ _ _ _)) with (no_tasks q). lia.
Qed.

(** A worker that tries peers can succeed. *)
Lemma live_attempt p i w :
live p -> workers (core p) !! i = Some w -> attempting w = true -> exists p', due p p'.
Proof.
intros Hl Hi Ha. pose proof Hl as [H1 H2 H4 H5 H6]. pose proof (pool_reaches_ok _ H1) as Hp.
pose proof (po_core _ Hp) as Hr. destruct w as [|t|t ps ws|t lc j|t lc|t lc q]; try done.
destruct (works_peers _ _ _ _ _ (reaches_ok _ Hr) (reaches_scored _ Hr) Hi) as (_ & Hne & Hlen & Hdraw).
destruct (Hdraw 0%nat) as (x & peer & Hx & Hpos & Hpe).
{ destruct ps; [done|]. rewrite zlen_cons in Hlen. unfold zlen in Hlen. lia. }
pose proof (se_workers _ _ _ H4 _ _ Hi) as Ht. inversion_clear Ht as [|? ? Ht' _].
destruct (HS peer t _ _ Ht' (se_file _ _ _ H4)) as (n & t' & n' & dk' & E).
pose proof (w_attempt i _ t ps ws 0 x peer n true t' n' dk' Hi Hx Hpos Hpe E) as Hst.
destruct (counter_room p i _ (WSaved t' (ps, ws) (Z.of_nat 0)) H1 H5 Hi eq_refl) as [g' Hg].
destruct (lookup_lt_is_Some_2 (ctls p) i) as [c Hc].
{ rewrite (po_ctls _ Hp). by eapply lookup_lt_Some. }
assert (c = CBusy) as -> by (by apply (po_busy _ Hp _ _ _ Hc Hi)).
eexists. eapply due_worker, (p_work p i _ (WSaved t' (ps, ws) (Z.of_nat 0)) _ g' Hc Hi ltac:(done) Hst); [|done].
cbn. apply list_lookup_insert_eq. by eapply lookup_lt_Some.
Qed.

(** As long as there is work, a step is due. *)
Lemma live_progress p : live p -> ~ drained p -> exists p', due p p'.
Proof.
intros Hl Hd. pose proof Hl as [H1 H2 H4 H5 H6]. pose proof (pool_reaches_ok _ H1) as Hp.
destruct (pool_reaches_more _ H1) as [_ Hex].
rewrite (po_flag _ Hp), H2, bool_decide_false in Hex by naive_solver. specialize (Hex eq_refl).
pose proof (HN _ H6) as H3.
assert (Hmove : forall i c w, ctls p !! i = Some c -> workers (core p) !! i = Some w -> c <> CBlocked false ->
  exists p', due p p').
{ intros i c w Hc Hw Hb. destruct (worker_enabled p i c Hp Hc) as [[p' H]|(w' & Hw' & Ha)]; [|done|..].
  - intros ->. apply Hex. by eapply list_elem_of_lookup_2.
  - eexists. by apply due_worker.
  - by eapply live_attempt. }
destruct (decide (Forall (eq WIdle) (workers (core p)))) as [Hi|Hi].
- destruct (workers (core p)) as [|w ws] eqn:Ew; [done|].
  destruct (lookup_lt_is_Some_2 (ctls p) 0) as [c Hc]; [rewrite (po_ctls _ Hp), Ew; cbn; lia|].
  destruct (decide (c = CBlocked false)) as [->|Hb]; [|by apply (Hmove 0%nat c w)].
  destruct (po_blocked _ Hp _ Hc) as [Hn|[Hn|Hn]]; [exfalso| |congruence].
  + apply Hd. split; [|by rewrite Ew]. unfold work_ready, q_size in Hn. apply orb_false_iff in Hn as [Hn _].
    apply zlen_0_nil, Z.eqb_eq. by apply negb_false_iff in Hn.
  + eexists. by apply due_notify.
- apply not_Forall_Exists in Hi; [|apply _]. apply Exists_exists in Hi as (w & [i Hi]%list_elem_of_lookup & Hne).
  destruct (lookup_lt_is_Some_2 (ctls p) i) as [c Hc]; [rewrite (po_ctls _ Hp); by eapply lookup_lt_Some|].
  apply (Hmove i c w Hc Hi). assert (c = CBusy) as -> by (apply (po_busy _ Hp _ _ _ Hc Hi); congruence). done.
Qed.

Lemma noise_drained p p' : live p -> noise p p' -> drained p' -> drained p.
Proof.
intros Hl H Hd. destruct (noise_step _ _ H) as (m & Hm & _ & Hst). clear H.
destruct Hst; try (by destruct Hm).
match goal with H : worker_step _ _ _ |- _ => rename H into Hst end.
destruct (failed w w') eqn:Ef; [|by destruct Hm]. exfalso. destruct Hd as [_ Hw]. cbn in Hw.
rewrite Forall_forall in Hw. assert (WIdle = w') as <- by (apply Hw; by eapply list_elem_of_lookup_2).
by destruct w.
Qed.

Lemma drained_noise p p' : live p -> rtc noise p p' -> drained p' -> drained p.
Proof.
intros Hl H. induction H as [p|p p1 p2 H Hr IH]; [done|]. intros Hd. apply (noise_drained p p1 Hl H).
apply IH; [|done]. by apply (live_noise p), rtc_once.
Qed.

(** The work is done in the end. *)
Lemma live_drains p : live p -> inevitably (fun q => live q /\ drained q) p.
Proof.
intros Hl. assert (Hn : exists n : nat, measure_of p < Z.of_nat n).
{ exists (Z.to_nat (measure_of p + 1)). pose proof (measure_nonneg p). lia. }
destruct Hn as [n Hn]. revert p Hl Hn. induction n as [|n IH]; intros p Hl Hn.
{ pose proof (measure_nonneg p). lia. }
assert (Hdec : Decision (drained p)).
{ unfold drained. destruct (f_tasks (fur (core p))); [|by right; intros [[=] _]].
  destruct (decide (Forall (eq WIdle) (workers (core p)))); [by left|right; by intros [_ ?]]. }
destruct (decide (drained p)) as [Hd|Hd]; [by apply inev_now|]. apply inev_later.
- intros p1 H. apply live_progress; [by apply (live_noise p)|]. intros Hd1. apply Hd. by apply (drained_noise p p1).
- intros p1 p2 H Hdue. destruct (live_noise p p1 Hl H) as [Hl1 Hle].
  pose proof (due_measure _ _ Hl1 Hdue). apply IH; [by eapply live_due|lia].
Qed.
End drain.

Lemma inevitably_impl (P Q : pool -> Prop) p :
  (forall q, P q -> Q q) -> inevitably P p -> inevitably Q p.
Proof.
  intros HPQ. induction 1 as [p Hp|p He _ IH]; [by apply inev_now, HPQ|]. by apply inev_later.
Qed.

(** ** The outcome of a torrent *)

(** A registered torrent nobody removed: when its last piece was counted, it is
    completed or the worker that counted it is about to complete it. *)
Record outcome (tid : Z) (s : sys) : Prop := {
  oc_peers : t_peers (torrent_of tid s) <> [];
  oc_pieces : 0 < pieces_count (t_descriptor (torrent_of tid s));
  oc_purged : of_torrent tid (purged s) = [];
  oc_done :
    t_pieces_processed (torrent_of tid s) = pieces_count (t_descriptor (torrent_of tid s)) ->
    t_state (torrent_of tid s) = Completed \/
    exists i task lc, workers s !! i = Some (WCounted task lc (pieces_count (t_descriptor (torrent_of tid s)))) /\
      Task.tid task = tid;
}.

(** The torrent and the workers that counted a piece stay. *)
Lemma outcome_keep tid s s' :
  outcome tid s -> torrent_of tid s' = torrent_of tid s ->
  of_torrent tid (purged s') = of_torrent tid (purged s) ->
  (forall i task lc p, Task.tid task = tid -> workers s !! i = Some (WCounted task lc p) ->
     p = pieces_count (t_descriptor (torrent_of tid s)) -> workers s' !! i = Some (WCounted task lc p)) ->
  outcome tid s'.
Proof.
  intros [H1 H2 H3 H4] Ht Hp Hw. split; rewrite ?Ht, ?Hp; try done.
  intros [Hc|(i & task & lc & Hi & E)]%H4; [by left|right]. exists i, task, lc. split; [|done]. by apply Hw.
Qed.

(** A worker that did not count a piece moves. *)
Lemma counted_stays (ws : list worker) (i : nat) w0 w (j : nat) task lc p :
  ws !! i = Some w0 -> (forall t l q, w0 <> WCounted t l q) ->
  ws !! j = Some (WCounted task lc p) -> <[i := w]> ws !! j = Some (WCounted task lc p).
Proof.
  intros Hi Hn Hj. rewrite list_lookup_insert_ne; [done|]. intros ->. rewrite Hi in Hj. injection Hj as ->.
  by destruct (Hn task lc p).
Qed.

Lemma torrent_of_set tid tid' t s ws o fin pur :
  torrent_of tid (mkSys (set_torrents (<[tid' := t]> (f_torrents (fur s))) (fur s)) ws o fin pur) =
  if decide (tid = tid') then t else torrent_of tid s.
Proof. unfold torrent_of. cbn. apply torrent_at_insert. Qed.

Lemma outcome_score tid s i task lc j f' :
  outcome tid s -> workers s !! i = Some (WSaved task lc j) -> worker_score task j (fur s) = Ret (tt, f') ->
  outcome tid (mkSys f' (<[i := WScored task lc]> (workers s)) (owner s) (finished s) (purged s)).
Proof.
  intros [H1 H2 H3 H4] Hi H. apply score_spec in H as (t & H & ->).
  assert (Ht : t_peers t = t_peers (torrent_of (Task.tid task) s) /\
    t_descriptor t = t_descriptor (torrent_of (Task.tid task) s) /\
    t_pieces_processed t = t_pieces_processed (torrent_of (Task.tid task) s) /\
    t_state t = t_state (torrent_of (Task.tid task) s)).
  { unfold atomic_add_peer_score in H. destruct (_ <? _); inv_ret; done. }
  destruct Ht as (E1 & E2 & E3 & E4).
  split; rewrite ?torrent_of_set; destruct (decide (tid = Task.tid task)) as [->|];
    rewrite ?E1, ?E2, ?E3, ?E4; try done.
  all: intros [Hc|(k & x & l & Hk & E)]%H4; [by left|right]; exists k, x, l; split; [|done]; by eapply counted_stays.
Qed.

Lemma outcome_count tid s i task lc p f' :
  outcome tid s -> workers s !! i = Some (WScored task lc) -> worker_count task (fur s) = Ret (p, f') ->
  0 <= p - 1 ->
  outcome tid (mkSys f' (<[i := WCounted task lc p]> (workers s)) (owner s) (key_of task :: finished s) (purged s)).
Proof.
  intros Ho Hi H Hpos. apply count_spec in H as (Hp & Hmax & ->). pose proof (lookup_lt_Some _ _ _ Hi) as Hlt.
  destruct (decide (tid = Task.tid task)) as [->|Hne].
  - destruct Ho as [H1 H2 H3 H4]. unfold int64_max in Hmax.
    split; rewrite ?torrent_of_set, ?decide_True by done; cbn; try done.
    rewrite wrap64_small by lia. intros ->. right. exists i, task, lc. split; [|done]. by apply list_lookup_insert_eq.
  - apply (outcome_keep _ s); [done| |done|].
    + by rewrite torrent_of_set, decide_False.
    + intros j x l q _ Hj _. by eapply counted_stays.
Qed.

Lemma outcome_complete tid s i task lc p f' :
  outcome tid s -> workers s !! i = Some (WCounted task lc p) -> worker_complete task p (fur s) = Ret (tt, f') ->
  outcome tid (mkSys f' (<[i := WIdle]> (workers s)) (owner s) (finished s) (purged s)).
Proof.
  intros Ho Hi H. apply complete_spec in H. cbv zeta in H.
  change (torrent_at (Task.tid task) (f_torrents (fur s))) with (torrent_of (Task.tid task) s) in H.
  destruct (Z.eqb_spec p (pieces_count (t_descriptor (torrent_of (Task.tid task) s)))) as [Hp|Hp]; subst f'.
  - destruct (decide (tid = Task.tid task)) as [->|Hne].
    + destruct Ho as [H1 H2 H3 H4].
      split; rewrite ?torrent_of_set, ?decide_True by done; cbn; try done.
      by left.
    + apply (outcome_keep _ s); [done| |done|].
      * by rewrite torrent_of_set, decide_False.
      * intros j x l q Hx Hj _. cbn. rewrite list_lookup_insert_ne; [done|]. intros ->. congruence.
  - apply (outcome_keep _ s); [done|done|done|].
    intros j x l q Hx Hj Hq. cbn. rewrite list_lookup_insert_ne; [done|]. intros ->. congruence.
Qed.

Lemma outcome_step tid i s s' : sys_ok s -> worker_step i s s' -> outcome tid s -> outcome tid s'.
Proof.
  intros Hok H Ho. cases_worker Hok H.
  - unfold worker_extract in H. destruct (q_extract _ _). injection H as _ <-.
    apply (outcome_keep _ s); [done..|]. intros k t lc' q _ Hk _. by eapply counted_stays.
  - apply (look_ret _ _ _ _ _ Hok) in H as (-> & _). apply (outcome_keep _ s); [done| |done|].
    + rewrite torrent_of_set. by destruct (decide _) as [->|].
    + intros k t lc' q _ Hk _. by eapply counted_stays.
  - apply (outcome_keep _ s); [done..|]. intros k t lc' q _ Hk _. by eapply counted_stays.
  - by eapply outcome_score.
  - eapply outcome_count; [done..|]. apply count_spec in H as (-> & _ & _).
    pose proof (ac_processed _ _ _ _ _ Hok (Task.tid task)) as E. cbv beta in E. unfold torrent_of in E.
    rewrite E. zlen_lia.
  - by eapply outcome_complete.
Qed.

(** It keeps its descriptor, too. *)
Lemma outcome_keeps tid d i s s' :
  sys_ok s -> worker_step i s s' -> outcome tid s /\ t_descriptor (torrent_of tid s) = d ->
  outcome tid s' /\ t_descriptor (torrent_of tid s') = d.
Proof.
  intros Hok Hst [H1 H2]. split; [by eapply outcome_step|].
  assert (Hlk : f_torrents (fur s) !! tid = Some (torrent_of tid s)).
  { pose proof (oc_peers _ _ H1) as Hp. unfold torrent_of, torrent_at in *. by destruct (f_torrents (fur s) !! tid). }
  destruct (work_step_torrent tid s s' _ Hok (ws_worker i _ _ Hst) Hlk) as (t' & Ht' & Hde & _).
  rewrite <- H2, <- Hde. unfold torrent_of, torrent_at. by rewrite Ht'.
Qed.

(** When the work is done, the torrent is completed. *)
Lemma outcome_drained tid p :
  sys_ok (core p) -> outcome tid (core p) -> drained p ->
  exists t, f_torrents (fur (core p)) !! tid = Some t /\ t_state t = Completed.
Proof.
  intros Hok [H1 H2 H3 H4] [Hq Hw].
  assert (Hh : held (core p) = []).
  { unfold held. clear H4. induction Hw as [|w ws <- _ IH]; [done|]. exact IH. }
  pose proof (accounted_total _ _ _ _ _ tid Hok H1) as Ht. unfold all_keys, queued in Ht.
  rewrite Hq, Hh in Ht. cbn [map app] in Ht. rewrite of_torrent_app, H3, app_nil_r in Ht.
  pose proof (ac_processed _ _ _ _ _ Hok tid) as Hn. cbv beta in Hn.
  assert (Hc : t_state (torrent_of tid (core p)) = Completed).
  { destruct H4 as [Hc|(i & task & lc & Hi & _)]; [congruence|done|exfalso].
    rewrite Forall_forall in Hw. by specialize (Hw _ (list_elem_of_lookup_2 _ _ _ Hi)). }
  revert H1 Hc. unfold torrent_of, torrent_at. destruct (_ !! tid) as [t|]; [|done]. intros _ Hc. by exists t.
Qed.
