(* ===== verification/Seeding.v ===== *)
(** * Seeding: several torrents at once

    [Liveness] for a client that works on any number of torrents, which are added
    and removed while the workers run. What the workers do for one torrent keeps
    the files of the others ([files_keeps]), so the sessions of the torrents combine
    into one; if the peers of all of them may answer, every schedule completes
    those that are not removed. If the peers of one do not, it can hold up the
    others for ever. *)
From S2P Require Import Prelude Bencode Sha1Spec Hash Descriptor Pieces Peer Torrent Message Socket.
From S2P Require Import Downloader DownloaderSpec DownloaderRuns Queue SharedQueue Io Task Furrent.
From S2P Require Import System Session Files Swarm Group Pool Scores Shutdown Liveness.
Local Open Scope Z_scope.

(** ** Seeded torrents *)

(** The peers have every piece of the content [whole], and the digests are those of
    the content. *)
Definition seeded_by (d : TorrentFile) (whole bits : bytes) : Prop :=
  forall i p, 0 <= i < pieces_count d -> index p = i ->
    offered d p bits (piece_end d i - i * piece_length d) /\
    8 * (piece_end d i - i * piece_length d) < 2 ^ 32 /\
    piece_hashes d !! Z.to_nat i = Some (sha1_ref (piece_in d whole i)).

Definition seedable (d : TorrentFile) : Prop :=
  exists whole resp bits, zlen whole = tlength d /\ good_response d resp /\ seeded_by d whole bits.

(** An attempt on a piece can succeed: the peer answers and sends the blocks. *)
Lemma own_attempt d id peer task dk :
  layout_wf d -> NoDup (map (fun f => join_path (filepath f)) (files d)) -> seedable d ->
  own_task d id task -> files_there d dk ->
  exists n task' n' dk', process peer task (n, dk) = Ret ((true, task'), (n', dk')).
Proof.
  intros Hd Hnd (whole & resp & bits & Hw & Hresp & Hs) (Et & Ed & i & Hi & Hp) Hth. pose proof (proj1 Hp) as Ei.
  destruct (Hs i (task_piece task) Hi Ei) as (Ho & Hlen & Hh).
  destruct (piece_range d Hd i Hi) as (H1 & H2 & _).
  assert (Hz : zlen (piece_in d whole i) = piece_end d i - i * piece_length d) by (apply zlen_slice; lia).
  destruct (cooperative_run d peer (task_piece task) resp bits (piece_in d whole i) false [] [] false)
    as (d' & E & _); [by rewrite Hz|done|by rewrite Hz|by rewrite Ei|].
  set (task' := mkTask (Some (mkDownloaded (index (task_piece task)) (piece_in d whole i))) (Task.tid task)
    (task_piece task) d).
  destruct (save_own_run d Hd Hnd task' i (mkDownloaded (index (task_piece task)) (piece_in d whole i)) dk)
    as (dk' & Es & _); try done.
  eexists _, task', _, dk'. unfold process, download. rewrite Ed, E. cbn [mbind cxx_bind].
  fold task'. rewrite Es. reflexivity.
Qed.

(** ** Registries *)

(** The torrents a client works on, with their descriptors. *)
Abbreviation registry := (gmap Z TorrentFile).

(** Their files are disjoint. *)
Record reg_wf (reg : registry) : Prop := {
  rg_layout id d : reg !! id = Some d -> layout_wf d;
  rg_paths id d : reg !! id = Some d -> NoDup (map (fun f => join_path (filepath f)) (files d));
  rg_apart id d id' d' f f' :
    reg !! id = Some d -> reg !! id' = Some d' -> id <> id' -> f ∈ files d -> f' ∈ files d' ->
    file_path d f <> file_path d' f';
}.

Definition reg_task (reg : registry) (task : PieceTask) : Prop :=
  exists id d, reg !! id = Some d /\ own_task d id task.
Definition reg_disk (reg : registry) (dk : Io.disk) (saved : key -> Prop) : Prop :=
  forall id d, reg !! id = Some d -> files_ok d id dk saved.

Section registry.
Context (reg : registry) (Hreg : reg_wf reg).

(** The tasks of the others do not touch the files of a torrent. *)
Lemma reg_files_task id d task : reg !! id = Some d -> reg_task reg task -> files_task d id task.
Proof.
intros Hd (id' & d' & Hd' & Ht). destruct (decide (id = id')) as [<-|Hne].
{ left. rewrite Hd in Hd'. by injection Hd' as ->. }
right. destruct Ht as (Et & Ed & i & Hi & _ & Hsp & _). split; [congruence|]. intros f Hf. rewrite Ed.
apply Forall_forall. intros sp Hin. destruct (Hsp sp Hin) as (pre & f' & suf & E & Hw).
destruct (writes_to_file d' (rg_layout _ Hreg _ _ Hd') i sp pre f' suf Hi E Hw) as (Hf' & -> & _).
by apply (rg_apart _ Hreg id' d' id d).
Qed.

#[export] Instance reg_keeps : KeepsFiles (reg_task reg) (reg_disk reg).
Proof.
split.
- intros dk saved saved' H Hw id d Hd. destruct (H id d Hd) as [H1 H2]. split; [done|]. auto.
- intros peer task n dk ok task' n' dk' saved Ht Hk H. split.
  + destruct Ht as (id & d & Hd & Ht). exists id, d. split; [done|].
    apply process_spec in H as (E1 & E2 & E3 & _). unfold own_task. by rewrite E1, E2, E3.
  + intros id d Hd. pose proof (files_keeps d id (rg_layout _ Hreg _ _ Hd) (rg_paths _ Hreg _ _ Hd)) as HK.
    by destruct (kf_process _ _ _ _ _ _ _ _ _ (reg_files_task id d task Hd Ht) (Hk id d Hd) H).
Qed.

Lemma reg_seeded : (forall id d, reg !! id = Some d -> seedable d) -> Seeded (reg_task reg) (reg_disk reg).
Proof.
intros Hs peer task dk saved (id & d & Hd & Ht) Hk.
apply (own_attempt d id); [by eapply rg_layout|by eapply rg_paths|by eapply Hs|done|]. by destruct (Hk id d Hd).
Qed.
End registry.

(** Writing other files keeps those of the registry. *)
Lemma reg_disk_keep reg dk dk' saved :
  Io.refuses dk' = Io.refuses dk ->
  (forall p c, Io.contents dk !! p = Some c -> Io.contents dk' !! p = Some c) ->
  reg_disk reg dk saved -> reg_disk reg dk' saved.
Proof.
  intros Hr Hc H id d Hd. destruct (H id d Hd) as [H1 H2]. split.
  - intros f Hf. destruct (H1 f Hf) as (? & c & ? & ?). rewrite Hr. split; [done|]. exists c. auto.
  - intros i Hi Hs pre f suf E Hst Hin. destruct (H2 i Hi Hs pre f suf E Hst Hin) as (c & ? & ?). exists c. auto.
Qed.

(** ** Clients that serve a registry *)

(** The torrents of the registry are registered with their descriptors and with
    peers. *)
Definition registered (reg : registry) (s : sys) : Prop :=
  forall id d, reg !! id = Some d ->
    exists t, f_torrents (fur s) !! id = Some t /\ t_descriptor t = d /\ t_peers t <> [].

(** Those that nobody removed come to their end. *)
Definition promised (reg : registry) (gone : gset Z) (s : sys) : Prop :=
  registered reg s /\ forall id d, reg !! id = Some d -> id ∉ gone -> outcome id s.

Lemma registered_step reg s s' : sys_ok s -> work_step s s' -> registered reg s -> registered reg s'.
Proof.
  intros Hok Hst H id d Hd. destruct (H id d Hd) as (t & Ht & <- & Hp).
  destruct (work_step_torrent _ _ _ _ Hok Hst Ht) as (t' & Ht' & <- & E). exists t'. by rewrite E.
Qed.

Lemma promised_step reg gone i s s' :
  sys_ok s -> worker_step i s s' -> promised reg gone s -> promised reg gone s'.
Proof.
  intros Hok Hst [H1 H2]. split; [by eapply registered_step; [|apply (ws_worker i)|]|].
  intros id d Hd Hn. eapply outcome_step; [done|done|]. by eapply H2.
Qed.

Lemma of_torrent_others id td ks : id <> td -> of_torrent id (filter (fun k => k.1 = td) ks) = [].
Proof.
  intros Hne. induction ks as [|k ks IH]; [done|]. rewrite filter_cons. destruct (decide (k.1 = td)); [|done].
  unfold of_torrent. rewrite filter_cons, decide_False by congruence. exact IH.
Qed.

(** The torrent whose removal is under way. *)
Definition removing (o : client) : gset Z :=
  match o with CPurged tid | CLoaded tid _ => {[tid]} | CIdle => ∅ end.

Lemma promised_owner reg gone s s' :
  sys_ok s -> owner_step s s' -> removing (owner s) ⊆ gone ->
  promised reg gone s -> promised reg (removing (owner s') ∪ gone) s'.
Proof.
  intros Hok H Hgone [H1 H2]. split; [by eapply registered_step; [|apply ws_owner|]|].
  intros id d Hd Hn. apply not_elem_of_union in Hn as [Hn Hn']. specialize (H2 id d Hd Hn').
  apply (outcome_keep id s s' H2).
  - cases_owner H; cbn in *.
    + unfold remove_tasks in H. run_ops H. by injection H as <-.
    + unfold remove_load in H. run_ops H. injection H as <- <-. rewrite torrent_of_set. rewrite decide_False; [done|].
      set_solver.
    + apply stop_spec in H as (x & _ & ->). destruct (decide (st <> _ /\ _)); [|done].
      rewrite torrent_of_set, decide_False; [done|]. rewrite Ho in Hgone. cbn in Hgone. set_solver.
  - cases_owner H; try done. cbn [purged owner removing] in *. rewrite of_torrent_app.
    by rewrite (of_torrent_others id td) by set_solver.
  - intros i task lc p Ht Hi Hp. by cases_owner H.
Qed.

(** What holds of a client that serves a registry. *)
Record served (reg : registry) (gone : gset Z) (p : pool) : Prop := {
  sv_wf : reg_wf reg;
  sv_live : live (reg_task reg) (reg_disk reg) (promised reg gone) p;
  sv_removing : removing (owner (core p)) ⊆ gone;
}.

(** The runs of such a client: it starts without work; the workers run, and the
    owner adds torrents, removes torrents and changes the folder. An operation that
    fails must not have removed files. *)
Inductive serving : registry -> gset Z -> pool -> Prop :=
| sv_start p :
    pool_reaches p -> closing p = POpen -> drained p -> owner (core p) = CIdle ->
    zlen (finished (core p)) <= int64_max -> serving ∅ ∅ p
| sv_noise reg gone p p' : serving reg gone p -> noise p p' -> serving reg gone p'
| sv_due reg gone p p' : serving reg gone p -> due p p' -> serving reg gone p'
| sv_owner reg gone p s' :
    serving reg gone p -> pending p = false -> owner_step (core p) s' ->
    serving reg (removing (owner s') ∪ gone) (mkPool s' (ctls p) (group p) (skip p)
      (match owner s' with CPurged _ => true | _ => false end) (closing p))
| sv_add reg gone p http filename id f' t0 :
    serving reg gone p -> pending p = false -> owner (core p) = CIdle ->
    add_torrent http filename (fur (core p)) = Ret (OK id, f') -> f_torrents f' !! id = Some t0 ->
    layout_wf (t_descriptor t0) -> Forall plain_name (files (t_descriptor t0)) ->
    0 < pieces_count (t_descriptor t0) ->
    zlen (work_keys (core p)) + pieces_count (t_descriptor t0) <= int64_max ->
    serving (<[id := t_descriptor t0]> reg) gone
      (mkPool (mkSys f' (workers (core p)) CIdle (finished (core p)) (purged (core p)))
         (ctls p) (group p) (skip p) true (closing p))
| sv_fail reg gone p http filename e f' :
    serving reg gone p -> pending p = false -> owner (core p) = CIdle ->
    add_torrent http filename (fur (core p)) = Ret (ERROR e, f') ->
    Io.refuses (f_disk f') = Io.refuses (f_disk (fur (core p))) ->
    (forall path c, Io.contents (f_disk (fur (core p))) !! path = Some c ->
       Io.contents (f_disk f') !! path = Some c) ->
    serving reg gone (mkPool (mkSys f' (workers (core p)) CIdle (finished (core p)) (purged (core p)))
         (ctls p) (group p) (skip p) false (closing p))
| sv_folder reg gone p folder r f' :
    serving reg gone p -> pending p = false -> owner (core p) = CIdle ->
    set_download_folder folder (fur (core p)) = Ret (r, f') ->
    serving reg gone (mkPool (mkSys f' (workers (core p)) CIdle (finished (core p)) (purged (core p)))
         (ctls p) (group p) (skip p) false (closing p)).

Lemma served_start p :
  pool_reaches p -> closing p = POpen -> drained p -> owner (core p) = CIdle ->
  zlen (finished (core p)) <= int64_max -> served ∅ ∅ p.
Proof.
  intros Hr Hc [Hq Hw] Ho Hf. split; [split; intros; simplify_map_eq| |by rewrite Ho].
  assert (Hi : forall j w, workers (core p) !! j = Some w -> w = WIdle).
  { intros j w Hj. rewrite Forall_forall in Hw. symmetry. apply Hw. by eapply list_elem_of_lookup_2. }
  assert (Hh : held (core p) = []).
  { unfold held. clear - Hw. induction Hw as [|w ws <- _ IH]; [done|]. exact IH. }
  split; [done|done| | |split; intros ? ? ?; simplify_map_eq].
  - split; [by rewrite Hq|intros j w Hj; by rewrite (Hi j w Hj)|]. intros id d Hd. simplify_map_eq.
  - unfold work_keys, queued. by rewrite Hh, Hq.
Qed.

Lemma served_owner reg gone p s' :
  served reg gone p -> pending p = false -> owner_step (core p) s' ->
  served reg (removing (owner s') ∪ gone) (mkPool s' (ctls p) (group p) (skip p)
    (match owner s' with CPurged _ => true | _ => false end) (closing p)).
Proof.
  intros [Hwf [L1 L2 L3 L4 L5] Hrm] Hpd Hst. pose proof (reaches_ok _ (po_core _ (pool_reaches_ok _ L1))) as Hok.
  split; [done| |cbn; set_solver]. split; cbn; [by eapply pr_step; [|apply p_owner]|done| | |].
  - eapply session_step; [by apply reg_keeps|exact Hok|done|by apply ws_owner].
  - etransitivity; [|exact L4]. unfold work_keys, queued, held. rewrite !zlen_app, !zlen_map.
    cases_owner Hst; cbn [fur workers finished].
    + unfold remove_tasks in Hst. run_ops Hst. injection Hst as <-. cbn [f_tasks set_tasks].
      match goal with |- zlen (q_mutate ?m ?l) + _ <= _ => pose proof (q_mutate_length m l) end. lia.
    + unfold remove_load in Hst. run_ops Hst. injection Hst as <- <-. cbn. lia.
    + apply stop_spec in Hst as (x & _ & ->). destruct (decide _); cbn; lia.
  - by apply (promised_owner _ _ (core p)).
Qed.

(** The identifiers in use. *)
Lemma registered_old reg s id d :
  sys_ok s -> registered reg s -> reg !! id = Some d -> id <> f_next_uid (fur s).
Proof.
  intros Hok H Hd ->. destruct (H _ _ Hd) as (t & Ht & _ & Hp).
  pose proof (ac_fresh _ _ _ _ _ Hok (f_next_uid (fur s)) ltac:(done)) as E. cbv beta in E.
  unfold torrent_of, torrent_at in E. by rewrite Ht in E.
Qed.

(** An operation of the owner that leaves the queue and the torrents of the
    registry, and adds files at most. *)
Lemma served_client reg gone p f' pd :
  served reg gone p -> owner (core p) = CIdle ->
  f_tasks f' = f_tasks (fur (core p)) ->
  (forall id d, reg !! id = Some d -> f_torrents f' !! id = f_torrents (fur (core p)) !! id) ->
  Io.refuses (f_disk f') = Io.refuses (f_disk (fur (core p))) ->
  (forall path c, Io.contents (f_disk (fur (core p))) !! path = Some c ->
     Io.contents (f_disk f') !! path = Some c) ->
  let p' := mkPool (mkSys f' (workers (core p)) CIdle (finished (core p)) (purged (core p)))
              (ctls p) (group p) (skip p) pd (closing p) in
  pool_reaches p' -> served reg gone p'.
Proof.
  intros [Hwf [L1 L2 [S1 S2 S3] L4 [L5 L6]] Hrm] Ho Hq Ht Hr Hc p' Hp'.
  split; [done| |cbn; set_solver]. split; cbn; [done|done| |by unfold work_keys, queued in *; cbn; rewrite Hq|].
  - split; cbn; [by rewrite Hq|done|]. by apply (reg_disk_keep _ (f_disk (fur (core p)))).
  - split.
    + intros id d Hd. cbn. rewrite (Ht id d Hd). by apply L5.
    + intros id d Hd Hn. apply (outcome_keep id (core p)); try done; [by eapply L6|].
      unfold torrent_of, torrent_at. cbn. by rewrite (Ht id d Hd).
Qed.

Lemma set_folder_keeps folder f r f' :
  set_download_folder folder f = Ret (r, f') ->
  Io.refuses (f_disk f') = Io.refuses (f_disk f) /\ Io.contents (f_disk f') = Io.contents (f_disk f).
Proof.
  unfold set_download_folder. intros H. apply st_bind_ret in H as (f0 & f1 & [= <- <-] & H).
  destruct (Io.exists_ folder (f_disk f)) as [b|]; [|by injection H as <- <-].
  apply st_bind_ret in H as (c & f1 & Hc & H).
  assert (E : Io.refuses (f_disk f1) = Io.refuses (f_disk f) /\ Io.contents (f_disk f1) = Io.contents (f_disk f)).
  { destruct b; [by injection Hc as <- <-|]. apply on_disk_ret in Hc as (_ & _ & Hc).
    by apply create_directories_same in Hc as [-> ->]. }
  destruct c; [|by injection H as <- <-]. run_ops H. by injection H as <- <-.
Qed.

(** ** Adding a torrent *)

Section adding.
Context (reg : registry) (gone : gset Z) (p : pool) (http : bytes -> list (bytes * bytes) -> http_response).
Context (filename : bytes) (id : Z) (f' : Furrent) (t0 : Torrent).
Context (Hserved : served reg gone p) (Hpd : pending p = false) (Ho : owner (core p) = CIdle).
Context (Hadd : add_torrent http filename (fur (core p)) = Ret (OK id, f')) (Ht0 : f_torrents f' !! id = Some t0).

Abbreviation d := (t_descriptor t0).
Context (Hd : layout_wf d) (Hn : Forall plain_name (files d)) (Hpos : 0 < pieces_count d).
Context (Hfit : zlen (work_keys (core p)) + pieces_count d <= int64_max).

Abbreviation added_sys := (mkSys f' (workers (core p)) CIdle (finished (core p)) (purged (core p))).

Lemma adding_ok : sys_ok (core p).
Proof. apply reaches_ok, po_core, pool_reaches_ok. exact (lv_reach _ _ _ _ (sv_live _ _ _ Hserved)). Qed.

(** The files of the torrent are new and the others are kept. *)
Lemma adding_files :
id = f_next_uid (fur (core p)) /\ NoDup (map (fun f => join_path (filepath f)) (files d)) /\
files_there d (f_disk f') /\
Io.refuses (f_disk f') = Io.refuses (f_disk (fur (core p))) /\
(forall path c, Io.contents (f_disk (fur (core p))) !! path = Some c -> Io.contents (f_disk f') !! path = Some c) /\
(forall f, f ∈ files d -> Io.contents (f_disk (fur (core p))) !! file_path d f = None) /\
exists ps, pieces d = Ret ps /\
  f_tasks f' = f_tasks (fur (core p)) ++ map (fun pc => PieceTask_new id pc d) ps.
Proof.
destruct (added_new _ _ _ _ _ _ adding_ok Hadd Ht0) as (E & ps & d0 & Hps & Hq & Hprep).
destruct (prepare_files _ _ _ _ _ Hprep Hn (lw_paths _ Hd)) as [Hnd Hth].
destruct (prepare_keeps _ _ _ _ _ Hprep Hn (lw_paths _ Hd)) as (Hr & Hk & Hnew).
split_and!; try done; [|by exists ps].
intros f Hf. destruct (Hth f Hf) as (? & c & ? & ?). split; [done|]. exists c. split; [done|lia].
Qed.

Lemma adding_wf : reg_wf (<[id := d]> reg).
Proof.
destruct adding_files as (_ & Hnd & _ & _ & _ & Hnew & _). destruct Hserved as [[W1 W2 W3] Hl _].
assert (Hdis : forall id' d' f f'', reg !! id' = Some d' -> f ∈ files d -> f'' ∈ files d' -> file_path d f <> file_path d' f'').
{ intros id' d' f f'' Hd' Hf Hf' E. destruct (se_file _ _ _ (lv_session _ _ _ _ Hl) id' d' Hd') as [Hth _].
  destruct (Hth f'' Hf') as (_ & c & Hc & _). rewrite <- E, (Hnew f Hf) in Hc. done. }
split.
- intros i d' [[_ <-]|[_ Hd']]%lookup_insert_Some; [done|by eapply W1].
- intros i d' [[_ <-]|[_ Hd']]%lookup_insert_Some; [done|by eapply W2].
- intros i1 d1 i2 d2 f1 f2 [[<- <-]|[_ H1]]%lookup_insert_Some [[<- <-]|[_ H2]]%lookup_insert_Some Hne Hf1 Hf2; try done.
  + by eapply Hdis.
  + apply not_eq_sym. by eapply Hdis.
  + by apply (W3 i1 d1 i2 d2).
Qed.

Lemma adding_session : session_ok (reg_task (<[id := d]> reg)) (reg_disk (<[id := d]> reg)) added_sys.
Proof.
destruct adding_files as (Eid & _ & Hth & Hr & Hk & _ & ps & Hps & Hq).
destruct Hserved as [_ [_ _ [S1 S2 S3] _ [Hreg _]] _].
assert (Hold : forall task, reg_task reg task -> reg_task (<[id := d]> reg) task).
{ intros task (i & d' & Hd' & Ht). exists i, d'. split; [|done]. rewrite lookup_insert_ne; [done|].
  intros ->. by apply (registered_old _ _ _ _ adding_ok Hreg) in Hd'. }
split; cbn.
- rewrite Hq. apply Forall_app. split; [by eapply Forall_impl|]. apply Forall_forall.
  intros task (pc & -> & Hpc)%list_elem_of_fmap. exists id, d. rewrite lookup_insert_eq. split; [done|].
  split_and!; [done..|]. by apply (pieces_tasks d ps).
- intros j w Hj. by eapply Forall_impl; [eapply S2|].
- intros i d' [[<- <-]|[_ Hd']]%lookup_insert_Some.
  + split; [done|]. intros j _ Hj. rewrite Eid in Hj. by apply new_not_on_file in Hj; [|apply adding_ok].
  + by apply (reg_disk_keep _ _ _ _ Hr Hk S3).
Qed.

Lemma adding_promised : promised (<[id := d]> reg) gone added_sys.
Proof.
destruct adding_files as (Eid & _). pose proof adding_ok as Hok.
destruct (added_fresh _ _ _ _ _ _ Hok Hadd Ht0) as [Hpe Hpr].
destruct Hserved as [_ [_ _ _ _ [Hreg Hout]] _].
assert (Hsame : forall i d', reg !! i = Some d' -> f_torrents f' !! i = f_torrents (fur (core p)) !! i).
{ intros i d' Hd'. apply (added_others _ _ _ _ _ _ Hadd). by apply (registered_old reg _ _ d'). }
split.
- intros i d' [[<- <-]|[_ Hd']]%lookup_insert_Some; [by exists t0|]. cbn. rewrite (Hsame i d' Hd'). by apply Hreg.
- intros i d' [[<- <-]|[_ Hd']]%lookup_insert_Some Hg.
  + assert (E0 : torrent_of id added_sys = t0) by (unfold torrent_of, torrent_at; cbn; by rewrite Ht0).
    split; rewrite ?E0; [done|done| |rewrite Hpr; lia]. cbn.
    destruct (accounted_none _ _ _ _ _ id Hok) as [Hk _]; [apply (ac_fresh _ _ _ _ _ Hok); by rewrite Eid|].
    unfold all_keys in Hk. rewrite !of_torrent_app in Hk. by apply app_nil in Hk as [_ [_ [_ ?]%app_nil]%app_nil].
  + apply (outcome_keep i (core p)); try done; [by eapply Hout|].
    unfold torrent_of, torrent_at. cbn. by rewrite (Hsame i d' Hd').
Qed.

Lemma served_add :
served (<[id := d]> reg) gone (mkPool added_sys (ctls p) (group p) (skip p) true (closing p)).
Proof.
destruct adding_files as (_ & _ & _ & _ & _ & _ & ps & Hps & Hq).
pose proof Hserved as [_ [L1 L2 _ L4 _] _].
split; [exact adding_wf| |cbn; set_solver]. split; cbn; [|done|exact adding_session| |exact adding_promised].
- eapply pr_step; [exact L1|]. exact (p_add p http filename (OK id) f' Hpd L2 Ho Hadd).
- unfold work_keys, queued, held in *. cbn. rewrite Hq. rewrite !zlen_app, !zlen_map in *. rewrite zlen_app, zlen_map.
  apply pieces_numbered in Hps as [Hps Hb]. apply (f_equal length) in Hps. rewrite length_map, length_seqZ in Hps.
  unfold zlen in *. lia.
Qed.
End adding.

Lemma serving_served reg gone p : serving reg gone p -> served reg gone p.
Proof.
  induction 1 as [p|reg gone p p' _ IH H|reg gone p p' _ IH H|reg gone p s' _ IH Hpd H
    |reg gone p http filename id f' t0 _ IH Hpd Ho Hadd Ht0 Hd Hn Hpos Hfit
    |reg gone p http filename e f' _ IH Hpd Ho H Hr Hc|reg gone p folder r f' _ IH Hpd Ho H].
  - by apply served_start.
  - destruct IH as [Hwf Hl Hrm]. pose proof (reg_keeps reg Hwf) as HK. split; [done| |].
    + by apply (live_noise _ _ _ (promised_step reg gone) p), rtc_once.
    + destruct (noise_step _ _ H) as (m & _ & Hm & Hst).
      by destruct (pool_worker_core _ _ _ (pool_reaches_ok _ (lv_reach _ _ _ _ Hl)) Hst Hm) as (_ & -> & _).
  - destruct IH as [Hwf Hl Hrm]. pose proof (reg_keeps reg Hwf) as HK. split; [done| |].
    + by apply (live_due _ _ _ (promised_step reg gone) p).
    + destruct H as [q q' Hst|q Hq]; [|done].
      by destruct (pool_worker_core _ _ _ (pool_reaches_ok _ (lv_reach _ _ _ _ Hl)) Hst ltac:(done)) as (_ & -> & _).
  - by apply served_owner.
  - by eapply served_add.
  - pose proof (lv_reach _ _ _ _ (sv_live _ _ _ IH)) as Hp. pose proof (lv_open _ _ _ _ (sv_live _ _ _ IH)) as Hcl.
    pose proof (reaches_ok _ (po_core _ (pool_reaches_ok _ Hp))) as Hok.
    apply served_client; try done.
    + by eapply added_failed.
    + intros id d Hd. apply (added_others _ _ _ _ _ _ H). eapply registered_old; [done|by apply (sv_live _ _ _ IH)|done].
    + eapply pr_step; [done|]. by apply (p_add p http filename (ERROR e) f').
  - pose proof (lv_reach _ _ _ _ (sv_live _ _ _ IH)) as Hp. pose proof (lv_open _ _ _ _ (sv_live _ _ _ IH)) as Hcl.
    pose proof (set_download_folder_spec _ _ _ _ H) as ([Ht Hm] & _).
    destruct (set_folder_keeps _ _ _ _ H) as [Hr Hc]. apply served_client; try done.
    + intros id d _. by rewrite Hm.
    + by intros path c; rewrite Hc.
    + eapply pr_step; [done|]. by eapply p_folder.
Qed.

(** ** Waiting for dead peers *)

(** When all workers try peers, the threads can do nothing else. *)
Lemma attempting_only m p p' :
  pool_ok p -> Forall (fun w => attempting w = true) (workers (core p)) -> pool_step m p p' -> m <> MOwner ->
  exists i w w', workers (core p) !! i = Some w /\ attempting w = true /\ w <> WIdle /\
    worker_step i (core p) (core p') /\ workers (core p') !! i = Some w' /\ m = (if failed w w' then MFailed else MWorker).
Proof.
  intros Hp Hall H Hm.
  assert (Hbusy : forall i c, ctls p !! i = Some c -> c = CBusy).
  { intros i c Hc. destruct (lookup_lt_is_Some_2 (workers (core p)) i) as [w Hw].
    { rewrite <- (po_ctls _ Hp). by eapply lookup_lt_Some. }
    apply (po_busy _ Hp _ _ _ Hc Hw). rewrite Forall_forall in Hall.
    specialize (Hall w (list_elem_of_lookup_2 _ _ _ Hw)). by destruct w. }
  cases_pool H; try done; try by apply Hbusy in Hi.
  exists i, w, w'. split_and!; try done. rewrite Forall_forall in Hall. by apply Hall, (list_elem_of_lookup_2 _ i).
Qed.

Lemma attempt_cases i s s' w w' :
  sys_ok s -> worker_step i s s' -> workers s !! i = Some w -> attempting w = true -> workers s' !! i = Some w' ->
  f_tasks (fur s') = f_tasks (fur s) /\ f_torrents (fur s') = f_torrents (fur s) /\ finished s' = finished s /\
  workers s' = <[i := w']> (workers s) /\ (attempting w' = true \/ exists t lc j, w' = WSaved t lc j).
Proof.
  intros Hok H Hw Ha Hw'. pose proof (lookup_lt_Some _ _ _ Hw) as Hlt.
  cases_worker Hok H; rewrite Hi in Hw; injection Hw as <-; try done.
  cbn in Hw'. rewrite list_lookup_insert_eq in Hw' by done. injection Hw' as <-. cbn. split_and!; [done..|].
  destruct ok; [right; by eexists _, _, _|by left].
Qed.

Lemma noise_attempting p p' :
  pool_reaches p -> Forall (fun w => attempting w = true) (workers (core p)) -> noise p p' ->
  pool_reaches p' /\ Forall (fun w => attempting w = true) (workers (core p')) /\
  f_tasks (fur (core p')) = f_tasks (fur (core p)) /\ f_torrents (fur (core p')) = f_torrents (fur (core p)) /\
  finished (core p') = finished (core p).
Proof.
  intros Hr Hall Hn. pose proof (pool_reaches_ok _ Hr) as Hp.
  destruct (noise_step _ _ Hn) as (m & Hm & Hmo & H).
  destruct (attempting_only _ _ _ Hp Hall H Hmo) as (i & w & w' & Hw & Ha & _ & Hst & Hw' & Em).
  destruct (attempt_cases _ _ _ _ _ (reaches_ok _ (po_core _ Hp)) Hst Hw Ha Hw') as (H1 & H2 & H3 & Ews & Hor).
  split_and!; try done; [by eapply pr_step|]. rewrite Ews. apply Forall_insert; [done|].
  destruct Hor as [|(t & lc & j & ->)]; [done|]. destruct w; try done. subst m. by destruct Hm.
Qed.

(** ** Claims *)

(** C3: every schedule completes the torrents that are seeded. Take a client that
    started without work, with at least one worker, to which torrents were added
    and from which torrents were removed at any time while the workers ran; the
    torrents added have pieces, a layout whose lengths fit their pieces, and files
    with plain names, and an add that failed removed no files. If the
    peers of its torrents may at any time answer and send what they are asked for,
    then however the threads are scheduled, however often attempts fail and threads
    wake up for nothing, some step is always due and finitely many of them lead to
    all torrents that were not removed being reported as completed. Then all
    their files are on disk at least in their length; the bytes from the place of a
    piece on have its SHA-1 digest, but for the pieces that start in a file that
    another piece runs into; and if no piece of the torrent spans two files, every
    piece lies inside a file with its digest. In particular no wake-up of a
    waiting worker is lost. *)
Theorem every_schedule_completes reg gone p :
  serving reg gone p -> workers (core p) <> [] ->
  (forall id d, reg !! id = Some d -> seedable d) ->
  inevitably (fun q => forall id d, reg !! id = Some d -> id ∉ gone -> exists t,
      f_torrents (fur (core q)) !! id = Some t /\ t_descriptor t = d /\ t_state t = Completed /\
      files_there d (f_disk (fur (core q))) /\
      (forall i, 0 <= i < pieces_count d -> piece_there d (f_disk (fur (core q))) i) /\
      (unsplit d -> forall i, 0 <= i < pieces_count d -> piece_verified d (f_disk (fur (core q))) i)) p.
Proof.
  intros [Hwf [L1 L2 L3 L4 L5] _]%serving_served Hne Hs.
  pose proof (reg_keeps reg Hwf) as HK. pose proof (reg_seeded reg Hwf Hs) as HS.
  set (J s := promised reg gone s /\ workers s <> []).
  assert (HJ : forall i s s', sys_ok s -> worker_step i s s' -> J s -> J s').
  { intros i s s' Hok Hst [H1 H2]. split; [by eapply promised_step|].
    destruct (worker_step_keys _ _ _ Hok Hst) as (_ & _ & Hl). intros E. rewrite E in Hl. by destruct (workers s). }
  eapply inevitably_impl; [|by apply (live_drains _ _ J HJ ltac:(by intros s [_ ?]) p)].
  intros q [[Q1 Q2 Q3 Q4 [[Q5 Q6] _]] Hq] id d Hd Hg.
  pose proof (reaches_ok _ (po_core _ (pool_reaches_ok _ Q1))) as Hok.
  destruct (outcome_drained id q Hok (Q6 id d Hd Hg) Hq) as (t & Ht & Hc).
  destruct (Q5 id d Hd) as (t' & Ht' & Ed & _). rewrite Ht in Ht'. injection Ht' as <-.
  destruct (se_file _ _ _ Q3 id d Hd) as [Hth Hv]. exists t.
  assert (Hp : forall i, 0 <= i < pieces_count d -> piece_there d (f_disk (fur (core q))) i).
  { intros i Hi. apply Hv; [done|]. apply (completed_on_file id _ t); try done. by rewrite Ed. }
  split_and!; [done..|]. intros Hu i Hi. apply unsplit_verified; [by eapply rg_layout|done..|by apply Hp].
Qed.

(** C4: completed torrents stay verified while the client works on others. In every
    run from a client without work in which torrents are added and removed at any
    time, workers run in any interleaving with any peers and any network, the
    torrents added have pieces, a layout whose lengths fit their pieces and files
    with plain names, and no add that fails removes files: whenever a torrent is
    reported as completed, all its files are on disk at least in their length; the
    bytes from the place of a piece on have its SHA-1 digest, but for the pieces
    that start in a file that another piece runs into; and if no piece of the
    torrent spans two files, every piece lies inside a file with its digest. No
    two torrents share a file. *)
Theorem completed_stay_verified reg gone p id d t :
  serving reg gone p -> reg !! id = Some d ->
  f_torrents (fur (core p)) !! id = Some t -> t_state t = Completed ->
  t_descriptor t = d /\ files_there d (f_disk (fur (core p))) /\
  (forall i, 0 <= i < pieces_count d -> piece_there d (f_disk (fur (core p))) i) /\
  (unsplit d -> forall i, 0 <= i < pieces_count d -> piece_verified d (f_disk (fur (core p))) i) /\
  forall id' d' f f', reg !! id' = Some d' -> id <> id' -> f ∈ files d -> f' ∈ files d' ->
    file_path d f <> file_path d' f'.
Proof.
  intros [Hwf [L1 _ L3 _ [L5 _]] _]%serving_served Hd Ht Hc.
  pose proof (reaches_ok _ (po_core _ (pool_reaches_ok _ L1))) as Hok.
  destruct (L5 id d Hd) as (t' & Ht' & Ed & _). rewrite Ht in Ht'. injection Ht' as <-.
  destruct (se_file _ _ _ L3 id d Hd) as [Hth Hv].
  assert (Hp : forall i, 0 <= i < pieces_count d -> piece_there d (f_disk (fur (core p))) i).
  { intros i Hi. apply Hv; [done|]. apply (completed_on_file id _ t); try done. by rewrite Ed. }
  split_and!; [done..| |].
  - intros Hu i Hi. apply unsplit_verified; [by eapply rg_layout|done..|by apply Hp].
  - intros id' d' f f'. by eapply rg_apart.
Qed.

(** C24: dead peers hold up all torrents. When every worker tries the peers of a
    piece, a refused connection leaves everything as it was, for ever; and
    whatever the threads do until an attempt succeeds, no other piece is taken
    from the queue and no torrent makes progress, however many peers the other
    torrents have. *)
Theorem dead_peers_starve p i task peer ps x ws :
  pool_reaches p -> Forall (fun w => attempting w = true) (workers (core p)) ->
  workers (core p) !! i = Some (WWorks task (peer :: ps) (x :: ws)) -> 0 < x ->
  0 <= index (task_piece task) < pieces_count (descriptor task) ->
  pool_step MFailed p p /\
  forall p', rtc noise p p' ->
    f_tasks (fur (core p')) = f_tasks (fur (core p)) /\
    f_torrents (fur (core p')) = f_torrents (fur (core p)) /\ finished (core p') = finished (core p) /\
    Forall (fun w => attempting w = true) (workers (core p')) /\
    forall p'', pool_step MWorker p' p'' -> exists j t lc k, workers (core p'') !! j = Some (WSaved t lc k).
Proof.
  intros Hr Hall Hw Hx Hi. split.
  { by destruct (refused_stays p i task peer ps x ws (pool_reaches_ok _ Hr) Hw Hx Hi). }
  clear Hw Hx Hi. intros p' H. induction H as [p|p p1 p2 Hn _ IH].
  - split_and!; try done. intros p'' Hst. pose proof (pool_reaches_ok _ Hr) as Hp.
    destruct (attempting_only _ _ _ Hp Hall Hst ltac:(done)) as (j & w & w' & Hw & Ha & _ & Hs & Hw' & Em).
    destruct (attempt_cases _ _ _ _ _ (reaches_ok _ (po_core _ Hp)) Hs Hw Ha Hw') as (_ & _ & _ & _ & [Hb|(t & lc & k & ->)]).
    + exfalso. by destruct w, w'.
    + by exists j, t, lc, k.
  - destruct (noise_attempting _ _ Hr Hall Hn) as (Hr1 & Hall1 & <- & <- & <-). by apply IH.
Qed.

(** ** A sample with two torrents *)

(** The torrents of the sample sessions, in one client; the second has a piece
    in two files. *)
Definition duo_disk : Io.disk :=
  Io.mkDisk (<[str "u.torrent" := split_text]> {[ str "t.torrent" := hello_text ]}) ∅ (fun _ => None).
Definition duo_f0 : Furrent := Furrent_new duo_disk.
Definition duo_f1 : Furrent := after (add_torrent hello_http (str "t.torrent") duo_f0) duo_f0.
Definition duo_f2 : Furrent := after (add_torrent hello_http (str "u.torrent") duo_f1) duo_f1.
Definition duo_t (id : Z) (f : Furrent) : Torrent := torrent_at id (f_torrents f).
Definition duo_d (id : Z) : TorrentFile := t_descriptor (duo_t id duo_f2).

Lemma duo_added1 : add_torrent hello_http (str "t.torrent") duo_f0 = Ret (OK 0, duo_f1).
Proof. vm_compute. reflexivity. Qed.
Lemma duo_added2 : add_torrent hello_http (str "u.torrent") duo_f1 = Ret (OK 1, duo_f2).
Proof. vm_compute. reflexivity. Qed.
Lemma duo_t1 : f_torrents duo_f1 !! 0 = Some (duo_t 0 duo_f1).
Proof. vm_compute. reflexivity. Qed.
Lemma duo_t2 : f_torrents duo_f2 !! 1 = Some (duo_t 1 duo_f2).
Proof. vm_compute. reflexivity. Qed.
Lemma duo_d0 : t_descriptor (duo_t 0 duo_f1) = hello_descriptor.
Proof. vm_compute. reflexivity. Qed.

(** The second torrent gets a folder of its own. *)
Example duo_folders : folder_name (duo_d 0) = str "./n" /\ folder_name (duo_d 1) = str "./n COPY".
Proof. vm_compute. split; reflexivity. Qed.

Lemma duo_layout :
  files (duo_d 1) = split_files /\ tlength (duo_d 1) = 4 /\ piece_length (duo_d 1) = 2 /\
  pieces_count (duo_d 1) = 2 /\ piece_hashes (duo_d 1) = map (fun s => sha1_ref (str s)) ["ab"; "cd"]%string.
Proof. vm_compute. split_and!; reflexivity. Qed.

(** The same layout as that of the sample with a piece in two files. *)
Lemma duo_wf : layout_wf (duo_d 1).
Proof.
  destruct duo_layout as (Ef & Et & Ep & Ec & _). revert Ef Et Ep Ec. generalize (duo_d 1).
  intros d Ef Et Ep Ec. split; rewrite ?Ef, ?Et, ?Ep, ?Ec; try done.
  - by repeat constructor.
  - by repeat constructor.
  - by left.
Qed.

Lemma duo_plain : Forall plain_name (files (duo_d 1)).
Proof.
  destruct duo_layout as (-> & _). repeat constructor.
  - exists (str "a"). split; [done|]. by intros [?|?%not_elem_of_nil]%elem_of_cons.
  - exists (str "b"). split; [done|]. by intros [?|?%not_elem_of_nil]%elem_of_cons.
Qed.

Lemma hello_plain_all : Forall plain_name (files hello_descriptor).
Proof.
  assert (files hello_descriptor = [mkFile [str "n"] 5]) as -> by (vm_compute; reflexivity).
  constructor; [exact hello_plain|constructor].
Qed.

(** The seeds of a single file. *)
Lemma seeds_seeded d f whole bits : seeds d f whole bits -> seeded_by d whole bits.
Proof.
  intros H i p Hi Ep. destruct (H i Hi) as ([O1 O2 O3 O4 O5 O6] & H2 & H3). cbn [index single_piece] in *.
  split; [|done]. split; rewrite ?Ep; done.
Qed.

Lemma hello_seedable : seedable hello_descriptor.
Proof.
  exists (str "hello"), (handshake_message hello_descriptor), [x80]. split_and!.
  - exact hello_size.
  - exact hello_good_response.
  - exact (seeds_seeded _ _ _ _ hello_seeds).
Qed.

Lemma duo_good_response : good_response (duo_d 1) (handshake_message (duo_d 1)).
Proof. split; vm_compute; reflexivity. Qed.

Lemma duo_seedable : seedable (duo_d 1).
Proof.
  pose proof duo_good_response as Hr. pose proof duo_wf as Hd. pose proof duo_layout as (_ & Et & Ep & Ec & Eh).
  revert Hr Hd Et Ep Ec Eh. generalize (duo_d 1). intros d Hr Hd Et Ep Ec Eh.
  exists (str "abcd"), (handshake_message d), [xc0]. split_and!; [by rewrite Et|done|].
  intros i p Hi Ei. assert (Hl : piece_end d i - i * piece_length d = 2).
  { unfold piece_end. rewrite Et, Ep. lia. }
  rewrite Hl, Eh. assert (i = 0 \/ i = 1) as Hi' by lia. split_and!; [|done|].
  - split; rewrite ?Ei, ?Ec; try lia; try done.
    + rewrite (this_piece_length_ok d Hd i Hi). by rewrite Hl.
    + destruct Hi' as [-> | ->]; vm_compute; reflexivity.
  - unfold piece_in. rewrite Ep. replace (piece_end d i) with (i * 2 + 2) by (rewrite Ep in Hl; lia).
    destruct Hi' as [-> | ->]; vm_compute; reflexivity.
Qed.

Abbreviation duo_reg := (<[1 := t_descriptor (duo_t 1 duo_f2)]> (<[0 := t_descriptor (duo_t 0 duo_f1)]> (∅ : registry))).

Lemma duo_launched : pool_new duo_disk 2 = Ret (hello_pool duo_f0 WIdle CHead false).
Proof. reflexivity. Qed.

Lemma duo_serving : serving duo_reg ∅ (hello_pool duo_f2 WIdle CHead true).
Proof.
  refine (sv_add _ _ (hello_pool duo_f1 WIdle CHead false) _ _ 1 duo_f2 (duo_t 1 duo_f2) _ eq_refl eq_refl
    duo_added2 duo_t2 duo_wf duo_plain _ _).
  - refine (sv_due _ _ (hello_pool duo_f1 WIdle CHead true) _ _ (due_notify (hello_pool duo_f1 WIdle CHead true) eq_refl)).
    refine (sv_add _ _ (hello_pool duo_f0 WIdle CHead false) _ _ 0 duo_f1 (duo_t 0 duo_f1) _ eq_refl eq_refl
      duo_added1 duo_t1 _ _ _ _).
    + apply sv_start; [exact (pr_new _ 2 _ ltac:(done) duo_launched)|done|split; [done|by constructor]|done|done].
    + rewrite duo_d0. exact hello_wf.
    + rewrite duo_d0. exact hello_plain_all.
    + rewrite duo_d0. exact hello_count_pos.
    + vm_compute. discriminate.
  - vm_compute. reflexivity.
  - vm_compute. discriminate.
Qed.

Lemma every_schedule_completes_witness :
  inevitably (fun q => forall id d, duo_reg !! id = Some d -> id ∉ (∅ : gset Z) -> exists t,
      f_torrents (fur (core q)) !! id = Some t /\ t_descriptor t = d /\ t_state t = Completed /\
      files_there d (f_disk (fur (core q))) /\
      (forall i, 0 <= i < pieces_count d -> piece_there d (f_disk (fur (core q))) i) /\
      (unsplit d -> forall i, 0 <= i < pieces_count d -> piece_verified d (f_disk (fur (core q))) i))
    (hello_pool duo_f2 WIdle CHead true).
Proof.
  refine (every_schedule_completes duo_reg ∅ (hello_pool duo_f2 WIdle CHead true) duo_serving
    ltac:(discriminate) _).
  intros id d [[_ <-]|[_ [[_ <-]|[_ H]]%lookup_insert_Some]]%lookup_insert_Some.
  - exact duo_seedable.
  - rewrite duo_d0. exact hello_seedable.
  - exfalso. revert H. rewrite lookup_empty. discriminate.
Defined.

(** ** A sample run *)

(** The client of the sample session, from the start to the completion. *)
Definition hello_done_pool : pool :=
  mkPool (hello_at hello_f7 WIdle [(0, 0)]) [CHead] (mkGroup [Running] [1] false) false false POpen.
Definition hello_busy_pool (f : Furrent) (w : worker) (fin : list key) (c : ctl) : pool :=
  mkPool (hello_at f w fin) [c] (mkGroup [Running] [1] false) false false POpen.

Abbreviation hello_reg := (<[0 := t_descriptor (torrent_at 0 (f_torrents hello_f1))]> (∅ : registry)).

Lemma hello_serving : serving hello_reg ∅ (hello_pool hello_f1 WIdle CHead true).
Proof.
  refine (sv_add _ _ (hello_pool (fur hello_sys) WIdle CHead false) _ _ 0 hello_f1 (torrent_at 0 (f_torrents hello_f1))
    _ eq_refl eq_refl hello_added hello_t0 hello_wf hello_plain_all hello_count_pos _).
  - apply sv_start; [exact (pr_new _ 2 _ ltac:(done) hello_launched)|done|split; [done|by constructor]|done|done].
  - vm_compute. discriminate.
Qed.

Lemma hello_served_done : serving hello_reg ∅ hello_done_pool.
Proof.
  eapply sv_due; [eapply sv_due; [eapply sv_due; [eapply sv_due; [eapply sv_due; [eapply sv_due; [eapply sv_due;
    [eapply sv_due; [exact hello_serving|]|]|]|]|]|]|]|].
  - exact (due_notify (hello_pool hello_f1 WIdle CHead true) eq_refl).
  - exact (due_worker _ _ (p_head (hello_pool hello_f1 WIdle CHead false) 0 eq_refl)).
  - exact (due_worker _ _ (p_found (hello_pool hello_f1 WIdle CTry false) 0 _ _ eq_refl eq_refl hello_extract)).
  - exact (due_worker _ _ (p_work (hello_pool hello_f2 (WTook hello_piece_task) CBusy false) 0 _ _ _ _ eq_refl eq_refl
      ltac:(discriminate) (w_look 0 (hello_at hello_f2 (WTook hello_piece_task) []) _ _ _ _ eq_refl hello_look)
      eq_refl eq_refl)).
  - exact (due_worker _ _ (p_work (hello_pool hello_f3 (WWorks hello_piece_task hello_peers [1]) CBusy false) 0
      _ _ _ (mkGroup [Running] [1] false) eq_refl eq_refl ltac:(discriminate)
      (w_attempt 0 (hello_at hello_f3 (WWorks hello_piece_task hello_peers [1]) [])
        _ _ _ 0 1 _ _ _ _ _ _ eq_refl eq_refl (eq_refl : 0 < 1) hello_peer_0 hello_attempt) eq_refl eq_refl)).
  - exact (due_worker _ _ (p_work (hello_busy_pool hello_f4 (WSaved hello_loaded (hello_peers, [1]) 0) [] CBusy) 0 _ _ _ _ eq_refl eq_refl
      ltac:(discriminate) (w_score 0 (hello_at hello_f4 (WSaved hello_loaded (hello_peers, [1]) 0) []) _ _ _ _ eq_refl hello_score)
      eq_refl eq_refl)).
  - exact (due_worker _ _ (p_work (hello_busy_pool hello_f5 (WScored hello_loaded (hello_peers, [1])) [] CBusy) 0 _ _ _ _ eq_refl eq_refl
      ltac:(discriminate) (w_count 0 (hello_at hello_f5 (WScored hello_loaded (hello_peers, [1])) []) _ _ _ _ eq_refl hello_count)
      eq_refl eq_refl)).
  - exact (due_worker _ _ (p_work (hello_busy_pool hello_f6 (WCounted hello_loaded (hello_peers, [1]) 1) [(0, 0)] CBusy) 0 _ _ _ _
      eq_refl eq_refl ltac:(discriminate)
      (w_complete 0 (hello_at hello_f6 (WCounted hello_loaded (hello_peers, [1]) 1) [(0, 0)]) _ _ _ _ eq_refl hello_complete)
      eq_refl eq_refl)).
Qed.

Lemma completed_stay_verified_witness :
  let d := t_descriptor (torrent_at 0 (f_torrents hello_f1)) in
  files_there d (f_disk hello_f7) /\
  forall i, 0 <= i < pieces_count d -> piece_verified d (f_disk hello_f7) i.
Proof.
  destruct (completed_stay_verified hello_reg ∅ hello_done_pool 0 _ _ hello_served_done (lookup_insert_eq _ _ _)
    hello_t1 hello_completed) as (_ & H1 & _ & H2 & _).
  split; [exact H1|exact (H2 (single_unsplit _ _ hello_wf hello_files))].
Defined.

(** ** A sample of a worker that waits *)

(** The worker takes the piece of the first torrent and tries its peer. *)
Definition duo_task : PieceTask := PieceTask_new 0 (mkPiece 0 [mkSubpiece (str "n") 0 5]) (duo_d 0).
Definition duo_f3 : Furrent := (worker_extract duo_f2).2.
Definition duo_f4 : Furrent := after (worker_look duo_task duo_f3) duo_f3.
Definition duo_peer : Peer := nth 0 (t_peers (duo_t 0 duo_f3)) (mkPeer 0 0).
Definition duo_stuck : pool := hello_pool duo_f4 (WWorks duo_task [duo_peer] [1]) CBusy false.

Lemma duo_extract : worker_extract duo_f2 = (OK duo_task, duo_f3).
Proof. vm_compute. reflexivity. Qed.
Lemma duo_look : worker_look duo_task duo_f3 = Ret (Some ([duo_peer], [1]), duo_f4).
Proof. vm_compute. reflexivity. Qed.
(** The pieces of the second torrent are still queued. *)
Example duo_queued : map key_of (f_tasks duo_f4) = [(1, 0); (1, 1)].
Proof. vm_compute. reflexivity. Qed.
Lemma duo_index : 0 <= index (task_piece duo_task) < pieces_count (descriptor duo_task).
Proof. vm_compute. split; [discriminate|reflexivity]. Qed.

Lemma duo_stuck_reached : pool_reaches duo_stuck.
Proof.
  pose proof (lv_reach _ _ _ _ (sv_live _ _ _ (serving_served _ _ _ duo_serving))) as H.
  eapply pr_step; [eapply pr_step; [eapply pr_step; [eapply pr_step; [exact H|]|]|]|].
  - exact (p_notify (hello_pool duo_f2 WIdle CHead true) eq_refl).
  - exact (p_head (hello_pool duo_f2 WIdle CHead false) 0 eq_refl).
  - exact (p_found (hello_pool duo_f2 WIdle CTry false) 0 _ _ eq_refl eq_refl duo_extract).
  - exact (p_work (hello_pool duo_f3 (WTook duo_task) CBusy false) 0 _ _ _ _ eq_refl eq_refl
      ltac:(discriminate) (w_look 0 (hello_at duo_f3 (WTook duo_task) []) _ _ _ _ eq_refl duo_look)
      eq_refl eq_refl).
Qed.

Lemma duo_all_try : Forall (fun w => attempting w = true) (workers (core duo_stuck)).
Proof. by repeat constructor. Qed.

Lemma dead_peers_starve_witness :
  pool_step MFailed duo_stuck duo_stuck /\
  forall p', rtc noise duo_stuck p' -> f_tasks (fur (core p')) = f_tasks duo_f4.
Proof.
  destruct (dead_peers_starve duo_stuck 0 duo_task duo_peer [] 1 [] duo_stuck_reached
    duo_all_try eq_refl (eq_refl : 0 < 1) duo_index) as [H1 H2].
  split; [exact H1|]. intros p' H. exact (proj1 (H2 p' H)).
Defined.
