(* ===== verification/Gui.v ===== *)
(** * Gui: the window (src/gui/gui.hpp, gui.cpp)

    The window shows a row per torrent and asks the program to add, read and
    remove torrents through three callbacks. A frame is a program that stops at
    every callback ([prog]), so that the client it talks to may change between
    two of them. What the drawing library reports (pressed buttons, the value of
    the scroll bar, the file dialog, the answer to the message box) is an input of
    the frame. The places of the rows are computed in [Float32], as in the code. *)
From S2P Require Import Prelude Text Float32 Torrent Furrent.
Local Open Scope Z_scope.

(** ** Programs with callbacks *)

(** [torrent_insert_fn], [torrent_update_fn] and [torrent_remove_fn], and what they
    return. *)
Inductive call : Type :=
| Insert (filepath dirpath : bytes)
| Update (tid : Z)
| Remove (torrent : TorrentGuiData).
Definition reply (c : call) : Type :=
  match c with
  | Insert _ _ => option TorrentGuiData
  | Update _ => TorrentGuiData
  | Remove _ => unit
  end.

(** A computation that ends, or waits for the result of a callback. *)
Inductive prog (A : Type) : Type :=
| Val (m : cxx A)
| Calls (c : call) (k : reply c -> prog A).
Arguments Val {A} m.
Arguments Calls {A} c k.

Fixpoint prog_bind {A B} (f : A -> prog B) (p : prog A) : prog B :=
  match p with
  | Val (Ret a) => f a
  | Val (Throw e) => Val (Throw e)
  | Val (Undef u) => Val (Undef u)
  | Val NoFuel => Val NoFuel
  | Calls c k => Calls c (fun r => prog_bind f (k r))
  end.

#[export] Instance prog_ret_inst : MRet prog := fun A a => Val (Ret a).
#[export] Instance prog_bind_inst : MBind prog := @prog_bind.

Definition invoke (c : call) : prog (reply c) := Calls c (fun r => Val (Ret r)).

(** ** State *)

(** The members of [GuiFileDialogState] the window uses. *)
Record GuiFileDialogState : Type := mkFileDialog {
  fileDialogActive : bool;
  SelectFilePressed : bool;
  fileNameText : bytes;
  dirPathText : bytes;
}.

Record GuiTorrentDialogState : Type := mkTorrentDialog {
  play : bool;
  delete_torrent : bool;
  target : TorrentGuiData;
}.

(** [scroll_y] is the member [y] of [scroll]; [x] is not used. *)
Record GuiScrollTorrentState : Type := mkScroll {
  scroll_y : f32;
  torrents : list TorrentGuiData;
  torrent_dialog_state : GuiTorrentDialogState;
}.

Record Window : Type := mkWindow {
  button_file_dialog : bool;
  file_loader : GuiFileDialogState;
  scroller : GuiScrollTorrentState;
}.

(** [InitGuiFileDialog] with an inactive dialog in the working directory, which
    exists. *)
Definition InitGuiFileDialog (cwd : bytes) : GuiFileDialogState := mkFileDialog false false [] cwd.

(** [Window::Window]. *)
Definition Window_new (cwd : bytes) : Window :=
  mkWindow false (InitGuiFileDialog cwd)
    (mkScroll (f32_of_Z 0) [] (mkTorrentDialog false false (mkGuiData 0 Loading [] 0 0))).

(** ** Inputs of a frame *)

(** What the user does in the file dialog. *)
Record dialog_input : Type := mkDialogInput {
  box_closed : bool;
  select_pressed : bool;
  quit_pressed : bool;
  chosen_name : bytes;
  chosen_dir : bytes;
}.

(** The time since the last update in milliseconds, the buttons (of the window, and
    of each row that is drawn), the value of the scroll bar after [GuiScrollPanel]
    (0 if there is none), which depends on the offset before, the movement of the
    mouse wheel, and the number of the button in the message box. *)
Record frame_input : Type := mkInput {
  clock_elapsed : Z;
  open_pressed : bool;
  in_panel : f32 -> Z;
  wheel_move : f32;
  row_pressed : nat -> bool;
  in_dialog : dialog_input;
  response : Z;
}.

(** The flags of the file dialog after [GuiFileDialog]. *)
Definition GuiFileDialog (i : dialog_input) (s : GuiFileDialogState) : GuiFileDialogState :=
  if fileDialogActive s then
    let active := negb (box_closed i) in
    let active := if select_pressed i then false else active in
    let active := if quit_pressed i then false else active in
    mkFileDialog active (select_pressed i) (chosen_name i) (chosen_dir i)
  else s.

(** ** Drawing *)

Definition DOWNLOADING_COLOR_HEX : Z := to_int 0x0091FFFF.
Definition STOP_COLOR_HEX : Z := to_int 0xFFAF7AFF.
Definition DONE_COLOR_HEX : Z := to_int 0x00FF5EFF.
Definition ERROR_COLOR_HEX : Z := to_int 0xFFA590FF.

Record Rectangle : Type := mkRectangle { rect_x : f32; rect_y : f32; rect_width : f32; rect_height : f32 }.

(** [create_rect]. *)
Definition create_rect (x y w h : Z) : Rectangle :=
  mkRectangle (f32_of_Z x) (f32_of_Z y) (f32_of_Z w) (f32_of_Z h).

(** What [GuiProgressBar] draws for a row, and the row. *)
Record bar : Type := mkBar {
  bar_rect : Rectangle;
  bar_color : Z;
  bar_left : bytes;
  bar_right : bytes;
  bar_value : f32;
}.
Record item : Type := mkItem {
  item_name : bytes;
  name_rect : Rectangle;
  item_bar : option bar;
  end_rect : Rectangle;
}.

(** The [switch] over the state. *)
Definition progress_bar (state : TorrentState) (rect : Rectangle) (progress : Z) : option bar :=
  let draw color label :=
    Some (mkBar rect color (to_string progress ++ str "% ") (str label) (f32_of_Z progress)) in
  match state with
  | Downloading => draw DOWNLOADING_COLOR_HEX "#6#Downloading"%string
  | Completed => draw DONE_COLOR_HEX "#112#Downloaded"%string
  | Stopped => draw STOP_COLOR_HEX "#132#Stopped"%string
  | Error => draw ERROR_COLOR_HEX "#113#Error"%string
  | _ => None
  end.

(** [Window::render_torrent_item]. *)
Definition render_torrent_item (torrent : TorrentGuiData) (pos : f32) : cxx item :=
  let name := str "Name: " ++ g_filename torrent in
  let name := if 20 <? zlen name then take 20 name ++ str "..." else name in
  name_y ← f32_to_i64 (f32_add (f32_of_Z 112) pos);
  scaled ← i64 (g_pieces_processed torrent * 100);
  progress ← i64_div scaled (g_pieces_count torrent);
  bar_y ← f32_to_i64 (f32_add (f32_of_Z 110) pos);
  end_y ← f32_to_i64 (f32_add (f32_of_Z 145) pos);
  Ret (mkItem name (create_rect 20 name_y 0 20)
         (progress_bar (g_state torrent) (create_rect 275 bar_y 300 20) progress)
         (create_rect 5 end_y 790 1)).

(** [Window::render_torrents], from row [k] on: the rows that are drawn, with the
    places of their buttons. *)
Fixpoint render_torrents (i : frame_input) (y : f32) (k : nat) (pos : f32) (rows : list TorrentGuiData)
  (dialog : GuiTorrentDialogState) : cxx (list (item * Rectangle) * GuiTorrentDialogState) :=
  match rows with
  | [] => Ret ([], dialog)
  | row :: rows =>
      let next := f32_add pos (f32_of_Z 50) in
      if f32_lt next (f32_abs y) then render_torrents i y (S k) next rows dialog
      else
        it ← render_torrent_item row (f32_add pos y);
        button_y ← f32_to_i64 (f32_add (f32_add (f32_of_Z 110) pos) y);
        let dialog := if row_pressed i k then mkTorrentDialog (play dialog) true row else dialog in
        '(items, dialog) ← render_torrents i y (S k) next rows dialog;
        Ret ((it, create_rect 760 button_y 20 20) :: items, dialog)
  end.

(** The mouse wheel, at the end of [Window::render_base]. *)
Definition scroll_wheel (i : frame_input) (y : f32) : f32 :=
  if negb (f32_eq (wheel_move i) (f32_of_Z 0)) then f32_add y (f32_mul (wheel_move i) (f32_of_Z 20)) else y.

(** [Window::render_base]: the button, the scroll panel, the rows and the wheel; the
    logo, the title and the two rectangles around the panel are decoration. *)
Definition render_base (i : frame_input) (w : Window) : cxx (list (item * Rectangle) * Window) :=
  let s := scroller w in
  let y := f32_of_Z (- in_panel i (scroll_y s)) in
  '(items, dialog) ← render_torrents i y 0 (f32_of_Z 5) (torrents s) (torrent_dialog_state s);
  Ret (items, mkWindow (open_pressed i) (file_loader w) (mkScroll (scroll_wheel i y) (torrents s) dialog)).

(** ** Dialogs *)

Section window.
(** [IsFileExtension(name, ".torrent")] of the drawing library. *)
Context (is_torrent_file : bytes -> bool).

Definition set_torrents_of (rows : list TorrentGuiData) (w : Window) : Window :=
mkWindow (button_file_dialog w) (file_loader w)
  (mkScroll (scroll_y (scroller w)) rows (torrent_dialog_state (scroller w))).

(** [Window::render_file_dialog]. *)
Definition render_file_dialog (i : frame_input) (w : Window) : prog Window :=
let l := GuiFileDialog (in_dialog i) (file_loader w) in
let l := if button_file_dialog w
         then mkFileDialog true (SelectFilePressed l) (fileNameText l) (dirPathText l) else l in
let flags select active := mkFileDialog active select (fileNameText l) (dirPathText l) in
if SelectFilePressed l then
  if negb (is_torrent_file (fileNameText l)) then
    mret (mkWindow (button_file_dialog w) (flags false true) (scroller w))
  else
    new ← invoke (Insert (fileNameText l) (dirPathText l));
    let rows := torrents (scroller w) ++ match new with Some g => [g] | None => [] end in
    mret (mkWindow (button_file_dialog w) (flags false false)
            (mkScroll (scroll_y (scroller w)) rows (torrent_dialog_state (scroller w))))
else mret (mkWindow (button_file_dialog w) l (scroller w)).

(** [Window::render_confirm_dialog]. *)
Definition render_confirm_dialog (i : frame_input) (w : Window) : prog Window :=
let s := scroller w in
let dialog := torrent_dialog_state s in
if negb (delete_torrent dialog) then mret w
else if bool_decide (response i = 0 \/ response i = 1 \/ response i = 2) then
  let dialog := mkTorrentDialog (play dialog) false (target dialog) in
  if response i =? 1 then
    let torrent := target dialog in
    _ ← invoke (Remove torrent);
    let rows := filter (fun t => g_tid t <> g_tid torrent) (torrents s) in
    mret (mkWindow (button_file_dialog w) (file_loader w) (mkScroll (scroll_y s) rows dialog))
  else mret (mkWindow (button_file_dialog w) (file_loader w) (mkScroll (scroll_y s) (torrents s) dialog))
else mret w.

(** The loop of [Window::run] that reads the rows again. *)
Fixpoint update_rows (rows : list TorrentGuiData) : prog (list TorrentGuiData) :=
match rows with
| [] => mret []
| row :: rows =>
    row ← invoke (Update (g_tid row));
    rows ← update_rows rows;
    mret (row :: rows)
end.

(** An iteration of the loop of [Window::run]: the items drawn and the window. *)
Definition frame (i : frame_input) (w : Window) : prog (list (item * Rectangle) * Window) :=
rows ← (if 30 <=? clock_elapsed i then update_rows (torrents (scroller w))
        else mret (torrents (scroller w)));
let w := set_torrents_of rows w in
'(items, w) ← Val (render_base i w);
w ← render_file_dialog i w;
w ← render_confirm_dialog i w;
mret (items, w).
End window.

(** ** What a frame may ask *)

(** A row whose counter is within its pieces, and complete when it says so. *)
Definition row_ok (g : TorrentGuiData) : Prop :=
  0 <= g_pieces_processed g <= g_pieces_count g /\
  (g_state g = Completed -> g_pieces_processed g = g_pieces_count g).

(** Knowledge of torrents: the identifiers that may be read, with the numbers of
    their pieces. It grows. *)
Abbreviation known := (Z -> Z -> Prop).
Definition knows (K : known) (tid : Z) : Prop := exists n, K tid n.
Definition grows (K K' : known) : Prop := forall tid n, K tid n -> K' tid n.

#[export] Instance grows_preorder : PreOrder grows.
Proof. split; [by intros K tid n|intros K1 K2 K3 H1 H2 tid n H; auto]. Qed.

Lemma grows_knows K K' tid : grows K K' -> knows K tid -> knows K' tid.
Proof. intros HK [n Hn]. exists n. by apply HK. Qed.

(** A row of a known torrent, with its number of pieces. *)
Definition row_of (K : known) (g : TorrentGuiData) : Prop := K (g_tid g) (g_pieces_count g) /\ row_ok g.

Lemma row_of_knows K g : row_of K g -> knows K (g_tid g).
Proof. intros [Hg _]. by exists (g_pieces_count g). Qed.

(** A program that reads and removes only what is known and ends in [post],
    whatever the callbacks return within their contract: a new torrent was not
    known before, a read torrent has the identifier that was asked for, and both have
    the number of pieces that is known. It may have undefined behaviour, but throws nothing itself. *)
Fixpoint prog_ok {A} (post : known -> A -> Prop) (K : known) (p : prog A) : Prop :=
  match p with
  | Val (Ret a) => post K a
  | Val (Undef _) => True
  | Val _ => False
  | Calls c k =>
      match c return (reply c -> known -> Prop) -> Prop with
      | Insert _ _ => fun ok =>
          (forall K', grows K K' -> ok None K') /\
          (forall g K', grows K K' -> row_of K' g -> ~ knows K (g_tid g) -> ok (Some g) K')
      | Update tid => fun ok =>
          knows K tid /\ forall g K', grows K K' -> g_tid g = tid -> row_of K' g -> ok g K'
      | Remove g => fun ok => knows K (g_tid g) /\ forall K', grows K K' -> ok tt K'
      end (fun r K' => prog_ok post K' (k r))
  end.

Lemma prog_ok_bind {A B} (P : known -> A -> Prop) (Q : known -> B -> Prop) K p (f : A -> prog B) :
  prog_ok P K p -> (forall K' a, grows K K' -> P K' a -> prog_ok Q K' (f a)) ->
  prog_ok Q K (x ← p; f x).
Proof.
  change (x ← p; f x) with (prog_bind f p). revert K.
  induction p as [m|c k IH]; intros K Hp Hf.
  - destruct m; cbn in *; try done. by apply Hf.
  - destruct c; cbn in *.
    + destruct Hp as [H1 H2]. split.
      * intros K' HK. apply IH; [by apply H1|]. intros K2 a HK2. apply Hf. by transitivity K'.
      * intros g K' HK HKg Hg. apply IH; [by apply H2|]. intros K2 a HK2. apply Hf. by transitivity K'.
    + destruct Hp as [H1 H2]. split; [done|]. intros g K' HK Hg Hr.
      apply IH; [by apply H2|]. intros K2 a HK2. apply Hf. by transitivity K'.
    + destruct Hp as [H1 H2]. split; [done|]. intros K' HK.
      apply IH; [by apply H2|]. intros K2 a HK2. apply Hf. by transitivity K'.
Qed.

(** The rows of the window have distinct known identifiers, none of them in [gone],
    a part of what is known, and the torrent of an open delete dialog is one of
    them. *)
Record window_ok (gone : Z -> Prop) (K : known) (w : Window) : Prop := {
  wo_sub tid : gone tid -> knows K tid;
  wo_gone g : g ∈ torrents (scroller w) -> ~ gone (g_tid g);
  wo_nodup : NoDup (map g_tid (torrents (scroller w)));
  wo_rows : Forall (row_of K) (torrents (scroller w));
  wo_target : delete_torrent (torrent_dialog_state (scroller w)) = true ->
    g_tid (target (torrent_dialog_state (scroller w))) ∈ map g_tid (torrents (scroller w));
}.

Lemma window_ok_grows gone K K' w : grows K K' -> window_ok gone K w -> window_ok gone K' w.
Proof.
  intros HK [Hs Hg H1 H2 H3]. split; [intros tid Ht; by eapply grows_knows, Hs|done|done| |done].
  eapply Forall_impl; [exact H2|]. intros g [Hk Hr]. split; [by apply HK|done].
Qed.

Lemma window_ok_new (gone : Z -> Prop) (K : known) cwd :
  (forall tid, gone tid -> knows K tid) -> window_ok gone K (Window_new cwd).
Proof. intros Hs. split; [done|by intros g Hg%not_elem_of_nil|constructor|constructor|done]. Qed.

Lemma update_rows_ok K rows :
  Forall (row_of K) rows ->
  prog_ok (fun K' rows' => map g_tid rows' = map g_tid rows /\
    Forall (row_of K') rows') K (update_rows rows).
Proof.
  revert K. induction rows as [|row rows IH]; intros K Hr; [by split|].
  inversion_clear Hr as [|? ? Hk Hr']. cbn. split; [by apply row_of_knows|]. intros g K' HK Hg Hok.
  assert (Hr1 : Forall (row_of K') rows).
  { eapply Forall_impl; [exact Hr'|]. intros x [Hx ?]. split; [by apply HK|done]. }
  eapply prog_ok_bind; [by apply IH|]. intros K2 rows' HK2 [E Hf]. cbn. split; [by rewrite Hg, E|].
  constructor; [|done]. destruct Hok as [Hn Hok]. split; [by apply HK2|done].
Qed.

(** Drawing throws nothing. *)
Definition draws {A} (m : cxx A) (post : A -> Prop) : Prop :=
  match m with Ret a => post a | Undef _ => True | _ => False end.

Lemma draws_bind {A B} (m : cxx A) (f : A -> cxx B) (post : B -> Prop) :
  draws m (fun a => draws (f a) post) -> draws (x ← m; f x) post.
Proof. by destruct m. Qed.

Lemma draws_i64 z (post : Z -> Prop) : (forall x, post x) -> draws (i64 z) post.
Proof. intros H. unfold i64. destruct (in_i64 z); cbn; auto. Qed.

Lemma draws_to_i64 x (post : Z -> Prop) : (forall z, post z) -> draws (f32_to_i64 x) post.
Proof. intros H. destruct x; cbn; auto. by apply draws_i64. Qed.

Lemma draws_item g pos (post : item -> Prop) : (forall it, post it) -> draws (render_torrent_item g pos) post.
Proof.
  intros H. unfold render_torrent_item. cbv zeta.
  apply draws_bind, draws_to_i64. intros y1. apply draws_bind, draws_i64. intros z.
  apply draws_bind. unfold i64_div. case_bool_decide; [done|]. apply draws_i64. intros q.
  apply draws_bind, draws_to_i64. intros y2. apply draws_bind, draws_to_i64. intros y3. apply H.
Qed.

Lemma render_torrents_ok i y k pos rows dialog all :
  (forall g, g ∈ rows -> g_tid g ∈ map g_tid all) ->
  (delete_torrent dialog = true -> g_tid (target dialog) ∈ map g_tid all) ->
  draws (render_torrents i y k pos rows dialog)
    (fun r => delete_torrent r.2 = true -> g_tid (target r.2) ∈ map g_tid all).
Proof.
  revert k pos dialog. induction rows as [|row rows IH]; intros k pos dialog Hr Hd; [done|].
  cbn [render_torrents]. assert (Hr' : forall g, g ∈ rows -> g_tid g ∈ map g_tid all) by (intros; apply Hr; by right).
  destruct (f32_lt _ _); [by apply IH|]. apply draws_bind, draws_item. intros it.
  apply draws_bind, draws_to_i64. intros z. cbv zeta. set (d' := if row_pressed i k then _ else _).
  apply draws_bind. specialize (IH (S k) (f32_add pos (f32_of_Z 50)) d' Hr').
  destruct (render_torrents i y (S k) _ rows d') as [[items d2]| | |]; cbn in *; try done; apply IH.
  all: unfold d'; destruct (row_pressed i k); [intros _; apply Hr; by left|exact Hd].
Qed.

Lemma file_dialog_ok is_torrent_file i gone K w :
  window_ok gone K w -> prog_ok (window_ok gone) K (render_file_dialog is_torrent_file i w).
Proof.
  intros Hw. unfold render_file_dialog. cbv zeta.
  set (l := if button_file_dialog w then _ else _).
  assert (Hl : forall K' x y, window_ok gone K' w -> window_ok gone K' (mkWindow x y (scroller w))).
  { by intros K' x y [Hs Hg H1 H2 H3]. }
  destruct (SelectFilePressed l); [|by apply Hl]. destruct (negb _); [by apply Hl|].
  cbn. split.
  - intros K' HK. pose proof (window_ok_grows _ _ _ _ HK Hw) as [Hs Hgo H1 H2 H3].
    split; cbn; rewrite ?app_nil_r; done.
  - intros g K' HK Hg Hn. pose proof (window_ok_grows _ _ _ _ HK Hw) as [Hs Hgo H1 H2 H3].
    split; cbn; rewrite ?map_app; [done|..].
    + intros x [Hx|Hx%list_elem_of_singleton]%elem_of_app; [by apply Hgo|]. subst x. intros Hx. apply Hn.
      by apply (wo_sub _ _ _ Hw).
    + apply NoDup_app. split_and!; [done| |apply NoDup_singleton].
      intros tid Hin ->%list_elem_of_singleton. apply Hn. apply list_elem_of_fmap in Hin as (x & -> & Hx).
      pose proof (wo_rows _ _ _ Hw) as Hall. rewrite Forall_forall in Hall. by apply row_of_knows, Hall.
    + apply Forall_app. split; [done|]. by constructor.
    + intros Hd%H3. apply elem_of_app. by left.
Qed.

Lemma confirm_dialog_ok i gone K w :
  window_ok gone K w -> prog_ok (window_ok gone) K (render_confirm_dialog i w).
Proof.
  intros Hw. unfold render_confirm_dialog. cbv zeta.
  destruct (delete_torrent _) eqn:Ed; [|done]. cbn [negb].
  case_bool_decide; [|done]. destruct (response i =? 1); cbn.
  - split.
    + pose proof (wo_target _ _ _ Hw Ed) as (x & E & Hx)%list_elem_of_fmap. rewrite E.
      pose proof (wo_rows _ _ _ Hw) as Hall. rewrite Forall_forall in Hall. by apply row_of_knows, Hall.
    + intros K' HK. pose proof (window_ok_grows _ _ _ _ HK Hw) as [Hs Hgo H1 H2 H3]. split; cbn; [done| | | |done].
      * intros x [_ Hx]%list_elem_of_filter. by apply Hgo.
      * eapply sublist_NoDup; [exact H1|]. apply fmap_sublist, sublist_filter.
      * apply Forall_forall. intros x [_ Hx]%list_elem_of_filter. rewrite Forall_forall in H2. by apply H2.
  - destruct Hw as [Hs Hg H1 H2 H3]. by split.
Qed.

(** A frame keeps the window in order. *)
Lemma frame_ok is_torrent_file i gone K w :
  window_ok gone K w -> prog_ok (fun K' r => window_ok gone K' r.2) K (frame is_torrent_file i w).
Proof.
  intros Hw. unfold frame.
  apply (prog_ok_bind (fun K' rows => map g_tid rows = map g_tid (torrents (scroller w)) /\
    Forall (row_of K') rows)).
  { destruct (30 <=? _); [apply update_rows_ok, Hw|]. by split; [|apply Hw]. }
  intros K1 rows HK1 [Et Hrows]. cbv zeta.
  assert (Hd : delete_torrent (torrent_dialog_state (scroller w)) = true ->
    g_tid (target (torrent_dialog_state (scroller w))) ∈ map g_tid rows) by (rewrite Et; apply Hw).
  apply (prog_ok_bind (fun K' r => window_ok gone K' r.2)).
  - unfold render_base, set_torrents_of. cbn [scroller torrents torrent_dialog_state scroll_y file_loader]. cbv zeta.
    generalize (f32_of_Z (- in_panel i (scroll_y (scroller w)))) (f32_of_Z 5). intros y pos.
    pose proof (render_torrents_ok i y 0 pos rows (torrent_dialog_state (scroller w)) rows
      ltac:(intros g Hg; by apply list_elem_of_fmap_2) Hd) as Hr.
    destruct (render_torrents _ _ _ _ _ _) as [[items d']| | |]; cbn [draws snd] in Hr; [|done..].
    cbn [mbind cxx_bind prog_ok snd]. split; cbn [scroller torrents torrent_dialog_state]; [| | |done|exact Hr].
    + intros tid Ht. by eapply grows_knows, (wo_sub _ _ _ Hw).
    + intros g Hg. apply (list_elem_of_fmap_2 g_tid) in Hg. change (g_tid <$> rows) with (map g_tid rows) in Hg.
      rewrite Et in Hg. apply list_elem_of_fmap in Hg as (x & -> & Hx). by apply (wo_gone _ _ _ Hw).
    + rewrite Et. apply Hw.
  - intros K2 [items w2] _ Hw2. apply (prog_ok_bind (window_ok gone)); [by apply file_dialog_ok|].
    intros K3 w3 _ Hw3. apply (prog_ok_bind (window_ok gone)); [by apply confirm_dialog_ok|].
    by intros K4 w4 _ Hw4.
Qed.

(** ** Drawing a row *)

(** The progress of a torrent, in percent. *)
Definition percent (g : TorrentGuiData) : Z := g_pieces_processed g * 100 / g_pieces_count g.

Lemma percent_range g :
  row_ok g -> 0 < g_pieces_count g ->
  0 <= percent g <= 100 /\ (percent g = 100 <-> g_pieces_processed g = g_pieces_count g).
Proof.
  intros [Hr _] Hc. unfold percent. set (p := g_pieces_processed g) in *. set (c := g_pieces_count g) in *.
  split; [split; [apply Z.div_pos; lia|apply Z.div_le_upper_bound; lia]|]. split.
  - intros E. destruct (decide (p = c)) as [|Hne]; [done|].
    pose proof (Z.div_lt_upper_bound (p * 100) c 100 ltac:(lia) ltac:(lia)). lia.
  - intros ->. rewrite Z.mul_comm. apply Z.div_mul. lia.
Qed.

(** ** Places *)

(** A row at the integer coordinate [top], computed without rounding. *)
Definition item_at (torrent : TorrentGuiData) (top : Z) : cxx item :=
  let name := str "Name: " ++ g_filename torrent in
  scaled ← i64 (g_pieces_processed torrent * 100);
  progress ← i64_div scaled (g_pieces_count torrent);
  Ret (mkItem (if 20 <? zlen name then take 20 name ++ str "..." else name) (create_rect 20 (112 + top) 0 20)
         (progress_bar (g_state torrent) (create_rect 275 (110 + top) 300 20) progress)
         (create_rect 5 (145 + top) 790 1)).

(** The rows from [k] on, all drawn, with the scroll bar at [v]. *)
Fixpoint rows_at (i : frame_input) (v : Z) (k : nat) (rows : list TorrentGuiData)
  (dialog : GuiTorrentDialogState) : cxx (list (item * Rectangle) * GuiTorrentDialogState) :=
  match rows with
  | [] => Ret ([], dialog)
  | row :: rows =>
      let top := 5 + 50 * Z.of_nat k - v in
      it ← item_at row top;
      let dialog := if row_pressed i k then mkTorrentDialog (play dialog) true row else dialog in
      '(items, dialog) ← rows_at i v (S k) rows dialog;
      Ret ((it, create_rect 760 (110 + top) 20 20) :: items, dialog)
  end.

(** The rectangle ends at [y] or above. *)
Definition ends_above (r : Rectangle) (y : Z) : Prop :=
  exists top h, rect_y r = f32_of_Z top /\ rect_height r = f32_of_Z h /\ top + h <= y.

(** What a row is drawn with: the name, the line, the button to delete it and the
    bar. *)
Definition item_rects (it : item) (button : Rectangle) : list Rectangle :=
  [name_rect it; end_rect it; button] ++ match item_bar it with Some b => [bar_rect b] | None => [] end.

Lemma item_at_above g top it y :
  item_at g top = Ret it -> top + 146 <= y ->
  Forall (fun r => ends_above r y) (item_rects it (create_rect 760 (110 + top) 20 20)).
Proof.
  intros H Hy. unfold item_at in H. cbv zeta in H.
  apply bind_ret in H as (scaled & _ & H). apply bind_ret in H as (progress & _ & H). injection H as <-.
  unfold item_rects. cbn [name_rect end_rect item_bar]. apply Forall_app. split.
  - repeat constructor; eexists _, _; (split; [done|]); (split; [done|]); lia.
  - destruct (g_state g); cbn [progress_bar]; repeat constructor.
    all: eexists _, _; (split; [done|]); (split; [done|]); lia.
Qed.

(** The rows above the panel. *)
Definition rows_above (v : Z) : nat := Z.to_nat ((v - 6) / 50).

Lemma rows_above_spec v k : (k < rows_above v)%nat <-> 55 + 50 * Z.of_nat k < v.
Proof.
  unfold rows_above. pose proof (Z.div_mod (v - 6) 50 ltac:(lia)). pose proof (Z.mod_pos_bound (v - 6) 50 ltac:(lia)).
  lia.
Qed.

Lemma render_item_exact g top :
  Z.abs top <= 2 ^ 23 -> render_torrent_item g (f32_of_Z top) = item_at g top.
Proof.
  intros Ht. unfold render_torrent_item, item_at. cbv zeta.
  rewrite !f32_add_exact, !f32_to_i64_exact by lia. done.
Qed.

(** The loop over the rows, with the scroll bar at [v]. *)
Lemma render_torrents_exact i v k rows dialog :
  0 <= v <= 2 ^ 23 -> 50 * (Z.of_nat k + zlen rows) <= 2 ^ 22 ->
  render_torrents i (f32_of_Z (- v)) k (f32_of_Z (5 + 50 * Z.of_nat k)) rows dialog =
  rows_at i v (k + (rows_above v - k)) (drop (rows_above v - k) rows) dialog.
Proof.
  revert k dialog. induction rows as [|row rows IH]; intros k dialog Hv Hk; [by rewrite drop_nil|].
  rewrite zlen_cons in Hk. pose proof (zlen_nonneg rows). cbn [render_torrents].
  rewrite f32_abs_exact, Z.abs_opp, (Z.abs_eq v) by lia.
  rewrite (f32_add_exact (5 + 50 * Z.of_nat k) 50) by lia. rewrite f32_lt_exact by lia.
  replace (5 + 50 * Z.of_nat k + 50) with (5 + 50 * Z.of_nat (S k)) by lia.
  pose proof (rows_above_spec v k) as Ha. destruct (Z.ltb_spec (5 + 50 * Z.of_nat (S k)) v) as [Hlt|Hge].
  - rewrite IH by lia. replace (rows_above v - k)%nat with (S (rows_above v - S k)) by lia.
    replace (S k + (rows_above v - S k))%nat with (k + S (rows_above v - S k))%nat by lia. done.
  - replace (rows_above v - k)%nat with 0%nat by lia. rewrite Nat.add_0_r, drop_0. cbn [rows_at].
    rewrite (f32_add_exact (5 + 50 * Z.of_nat k) (- v)), render_item_exact by lia.
    replace (5 + 50 * Z.of_nat k + - v) with (5 + 50 * Z.of_nat k - v) by lia.
    destruct (item_at row (5 + 50 * Z.of_nat k - v)) as [it| | |]; [|done..]. cbn [mbind cxx_bind].
    rewrite (f32_add_exact 110 (5 + 50 * Z.of_nat k)), f32_add_exact, f32_to_i64_exact by lia. cbn [mbind cxx_bind].
    rewrite IH by lia. replace (rows_above v - S k)%nat with 0%nat by lia. rewrite Nat.add_0_r, drop_0.
    replace (110 + (5 + 50 * Z.of_nat k) + - v) with (110 + (5 + 50 * Z.of_nat k - v)) by lia. done.
Qed.

Lemma item_at_run g top :
  row_ok g -> 0 < g_pieces_count g <= int64_max / 100 ->
  exists it, item_at g top = Ret it /\ zlen (item_name it) <= 23 /\
    forall b, item_bar it = Some b ->
      bar_value b = f32_of_Z (percent g) /\ bar_left b = to_string (percent g) ++ str "% ".
Proof.
  intros Hg [Hc Hm]. destruct (percent_range g Hg Hc) as [Hp _]. destruct Hg as [Hr _].
  assert (Hmax : g_pieces_count g * 100 <= int64_max).
  { pose proof (Z.mul_div_le int64_max 100 ltac:(lia)). lia. }
  unfold int64_max in Hmax. unfold item_at. cbv zeta.
  rewrite i64_ok by lia. cbn [mbind cxx_bind]. unfold i64_div. rewrite bool_decide_false by lia.
  rewrite Z.quot_div_nonneg by lia. fold (percent g). rewrite i64_ok by lia. cbn [mbind cxx_bind].
  eexists. split; [done|]. cbn [item_name item_bar]. split.
  - destruct (Z.ltb_spec 20 (zlen (str "Name: " ++ g_filename g))) as [Hl|Hl]; [|lia].
    rewrite zlen_app, zlen_take. change (zlen (str "...")) with 3. lia.
  - intros b Hb. destruct (g_state g); try discriminate Hb; injection Hb as <-; done.
Qed.

Lemma item_at_zero g top :
  g_pieces_count g = 0 -> g_pieces_processed g = 0 -> item_at g top = Undef DivisionByZero.
Proof. intros Hc Hp. unfold item_at. rewrite Hc, Hp. done. Qed.

(** A row that cannot be drawn stops the loop over the rows. *)
Lemma rows_at_stops i v k j rows dialog g u :
  rows !! j = Some g -> (forall top, item_at g top = Undef u) ->
  (forall j' g' top, (j' < j)%nat -> rows !! j' = Some g' -> exists it, item_at g' top = Ret it) ->
  rows_at i v k rows dialog = Undef u.
Proof.
  revert k j dialog. induction rows as [|row rows IH]; intros k j dialog Hj Hu Hb; [done|].
  cbn [rows_at]. destruct j as [|j].
  - injection Hj as ->. by rewrite Hu.
  - destruct (Hb 0%nat row (5 + 50 * Z.of_nat k - v) ltac:(lia) eq_refl) as [it ->]. cbn [mbind cxx_bind].
    rewrite (IH (S k) j); [done..|]. intros j' g' top Hlt. apply (Hb (S j')). lia.
Qed.

(** A window in which a row that is not above the panel cannot be drawn. *)
Lemma render_base_stops i w k g u :
  50 * zlen (torrents (scroller w)) <= 2 ^ 22 ->
  0 <= in_panel i (scroll_y (scroller w)) <= 55 + 50 * Z.of_nat k ->
  torrents (scroller w) !! k = Some g -> (forall top, item_at g top = Undef u) ->
  (forall j g' top, (j < k)%nat -> torrents (scroller w) !! j = Some g' -> exists it, item_at g' top = Ret it) ->
  render_base i w = Undef u.
Proof.
  intros Hn Hv Hk Hu Hb. unfold render_base. cbv zeta.
  set (v := in_panel i (scroll_y (scroller w))) in *. pose proof (lookup_lt_Some _ _ _ Hk) as Hlt.
  pose proof (render_torrents_exact i v 0 (torrents (scroller w)) (torrent_dialog_state (scroller w))) as E.
  rewrite Nat.sub_0_r, Nat.add_0_l in E. change (5 + 50 * Z.of_nat 0) with 5 in E.
  rewrite E by (unfold zlen in *; lia). pose proof (rows_above_spec v k) as Ha.
  rewrite (rows_at_stops i v _ (k - rows_above v) _ _ g u); [done| |done|].
  - rewrite lookup_drop. by replace (rows_above v + (k - rows_above v))%nat with k by lia.
  - intros j g' top Hj Hg'. rewrite lookup_drop in Hg'. apply (Hb (rows_above v + j)%nat); [lia|done].
Qed.

(** A program that only reads known torrents and ends in [post], whatever it reads. *)
Fixpoint prog_reads {A} (post : cxx A -> Prop) (K : known) (p : prog A) : Prop :=
  match p with
  | Val m => post m
  | Calls c k =>
      match c return (reply c -> Prop) -> Prop with
      | Update tid => fun ok => knows K tid /\ forall g, g_tid g = tid -> row_of K g -> ok g
      | _ => fun _ => False
      end (fun r => prog_reads post K (k r))
  end.

Lemma prog_reads_bind {A B} (P : A -> Prop) (Q : cxx B -> Prop) K p (f : A -> prog B) :
  prog_reads (fun m => exists a, m = Ret a /\ P a) K p -> (forall a, P a -> prog_reads Q K (f a)) ->
  prog_reads Q K (x ← p; f x).
Proof.
  change (x ← p; f x) with (prog_bind f p). intros Hp Hf. induction p as [m|c k IH].
  - destruct Hp as (a & -> & Ha). by apply Hf.
  - destruct c; try done. cbn in *. destruct Hp as [H1 H2]. split; [done|]. auto.
Qed.

(** The rows that are read again have their numbers of pieces. *)
Lemma update_rows_reads K rows :
  (forall tid n n', K tid n -> K tid n' -> n = n') -> Forall (row_of K) rows ->
  prog_reads (fun m => exists rows', m = Ret rows' /\
    map g_pieces_count rows' = map g_pieces_count rows /\ Forall row_ok rows') K (update_rows rows).
Proof.
  intros HK. induction 1 as [|row rows Hr _ IH]; [by exists []|].
  cbn. split; [by apply row_of_knows|]. intros g Hg [Hn Hok].
  eapply prog_reads_bind; [exact IH|]. intros rows' [E Hf]. cbn. exists (g :: rows').
  split; [done|]. split; [|by constructor]. cbn. f_equal; [|done]. rewrite Hg in Hn. by apply (HK _ _ _ Hn), Hr.
Qed.

Lemma counts_lookup (rows rows' : list TorrentGuiData) (j : nat) g' :
  map g_pieces_count rows' = map g_pieces_count rows -> rows' !! j = Some g' ->
  exists g, rows !! j = Some g /\ g_pieces_count g = g_pieces_count g'.
Proof.
  intros E Hj. pose proof (list_lookup_fmap g_pieces_count rows' j) as H.
  change (g_pieces_count <$> rows') with (map g_pieces_count rows') in H.
  rewrite E, Hj in H. cbn in H. by apply list_lookup_fmap_Some in H as (g & -> & Hg); eauto.
Qed.

(** A frame that draws a row without pieces, also if it reads the rows again. *)
Lemma frame_stops is_torrent_file i K w k g :
  (forall tid n n', K tid n -> K tid n' -> n = n') -> Forall (row_of K) (torrents (scroller w)) ->
  50 * zlen (torrents (scroller w)) <= 2 ^ 22 ->
  0 <= in_panel i (scroll_y (scroller w)) <= 55 + 50 * Z.of_nat k ->
  torrents (scroller w) !! k = Some g -> g_pieces_count g = 0 ->
  (forall j g', (j < k)%nat -> torrents (scroller w) !! j = Some g' -> 0 < g_pieces_count g' <= int64_max / 100) ->
  prog_reads (fun m => m = Undef DivisionByZero) K (frame is_torrent_file i w).
Proof.
  intros HK Hr Hn Hv Hk Hz Hb. unfold frame.
  apply (prog_reads_bind (fun rows' => map g_pieces_count rows' = map g_pieces_count (torrents (scroller w)) /\
    Forall row_ok rows')).
  { destruct (30 <=? clock_elapsed i); [by apply update_rows_reads|]. eexists. split; [done|]. split; [done|].
    eapply Forall_impl; [exact Hr|]. by intros x [_ ?]. }
  intros rows [Ec Hrow]. cbv zeta.
  assert (E : render_base i (set_torrents_of rows w) = Undef DivisionByZero); [|by rewrite E].
  rewrite Forall_lookup in Hrow. assert (El : length rows = length (torrents (scroller w))).
  { apply (f_equal length) in Ec. by rewrite !length_map in Ec. }
  destruct (counts_lookup rows _ k g (eq_sym Ec) Hk) as (g1 & Hk1 & E1).
  apply (render_base_stops i _ k g1); cbn [set_torrents_of scroller torrents scroll_y]; try done.
  - unfold zlen in *. by rewrite El.
  - intros top. apply item_at_zero; [congruence|]. destruct (Hrow _ _ Hk1) as [? _]. lia.
  - intros j g' top Hj Hg'. destruct (counts_lookup _ _ _ _ Ec Hg') as (g2 & Hg2 & E2).
    destruct (item_at_run g' top) as (it & E & _); [by eapply Hrow|rewrite <- E2; by eapply Hb|]. by exists it.
Qed.

(** ** Claims *)

(** C36: scrolling. With the scroll bar at [v], within the height of the rows, the
    loop over the rows computes in floating point what the exact reference does: the
    rows above the panel are skipped, and all others are drawn at their integer
    coordinates. Nothing of a row that is skipped would be in the panel: its
    name, bar, line and button would all end at or above y = 61 + 40, the lower
    edge of the panel's head, below which the rows show. *)
Theorem scrolling_exact i v rows dialog :
  0 <= v <= 50 * zlen rows -> 50 * zlen rows <= 2 ^ 22 ->
  render_torrents i (f32_of_Z (- v)) 0 (f32_of_Z 5) rows dialog =
    rows_at i v (rows_above v) (drop (rows_above v) rows) dialog /\
  (rows <> [] -> (rows_above v < length rows)%nat) /\
  forall k g it, (k < rows_above v)%nat -> rows !! k = Some g ->
    let top := 5 + 50 * Z.of_nat k - v in
    item_at g top = Ret it ->
    Forall (fun r => ends_above r (61 + 40)) (item_rects it (create_rect 760 (110 + top) 20 20)).
Proof.
  intros Hv Hn. split_and!.
  - pose proof (render_torrents_exact i v 0 rows dialog ltac:(lia) ltac:(lia)) as E.
    by rewrite Nat.sub_0_r, Nat.add_0_l in E.
  - intros Hne. assert (0 < zlen rows) by (destruct rows; [done|rewrite zlen_cons; pose proof (zlen_nonneg rows); lia]).
    apply Nat.nle_gt. intros Hle. pose proof (rows_above_spec v (length rows - 1)). unfold zlen in *. lia.
  - intros k g it Hk%rows_above_spec _ top Hit. apply (item_at_above g); [done|]. unfold top. lia.
Qed.

Definition scrolled_rows : list TorrentGuiData :=
  map (fun t => mkGuiData t Downloading (str "n") 1 4) (seqZ 0 12).
Definition idle_input (v : Z) : frame_input :=
  mkInput 0 false (fun _ => v) (f32_of_Z 0) (fun _ => false) (mkDialogInput false false false [] []) (-1).

Lemma scrolled_item : exists it, item_at (mkGuiData 1 Downloading (str "n") 1 4) (5 + 50 * Z.of_nat 1 - 106) = Ret it.
Proof. by eexists. Qed.

Lemma scrolling_exact_witness :
  render_torrents (idle_input 106) (f32_of_Z (- 106)) 0 (f32_of_Z 5) scrolled_rows
    (mkTorrentDialog false false (mkGuiData 0 Loading [] 0 0)) =
  rows_at (idle_input 106) 106 2 (drop 2 scrolled_rows) (mkTorrentDialog false false (mkGuiData 0 Loading [] 0 0)) /\
  exists it, ends_above (end_rect it) (61 + 40).
Proof.
  destruct (scrolling_exact (idle_input 106) 106 scrolled_rows (mkTorrentDialog false false (mkGuiData 0 Loading [] 0 0)))
    as (H1 & _ & H2).
  - vm_compute. split; discriminate.
  - vm_compute. discriminate.
  - split; [exact H1|]. destruct scrolled_item as [it Hit]. exists it.
    pose proof (H2 1%nat _ it ltac:(vm_compute; reflexivity) eq_refl Hit) as H.
    exact (Forall_inv (Forall_inv_tail H)).
Defined.
