(* ===== verification/App.v ===== *)
(** * App: the program (src/main.cpp)

    The main thread prepares the download folder, runs the window of [Gui] with
    the client behind its callbacks, and closes the client; the workers of [Pool]
    run at the same time. Between two callbacks, and between the steps of one,
    the workers move. *)
From S2P Require Import Prelude Text Bencode Hash Descriptor Pieces Peer Torrent Message Socket Downloader.
From S2P Require Import DownloaderSpec DownloaderRuns Queue SharedQueue Io Task Furrent System Session Group.
From S2P Require Import Pool Scores Float32 Gui.
Local Open Scope Z_scope.

(** ** The main thread *)

(** [fur::config::DOWNLOAD_FOLDER]. *)
Definition DOWNLOAD_FOLDER : bytes := str "output".

(** The download folder, next to the program. *)
Definition main_folder (argv_0 : bytes) : bytes :=
  let path_base := match Io.before_last_slash argv_0 with
                   | Some dir => dir ++ str "/"
                   | None => []
                   end in
  path_base ++ DOWNLOAD_FOLDER.

(** Where the main thread is: before the window, at the head of the loop of
    [Window::run], in a frame, in [get_gui_data] (before it loads the state of the
    torrent and after), in [remove_torrent], after the loop, or ended by an
    exception or undefined behaviour. *)
Abbreviation drawing := (prog (list (item * Rectangle) * Window)).
Inductive main_thread : Type :=
| MStart
| MIdle (w : Window)
| MRun (p : drawing)
| MRead (tid : Z) (k : TorrentGuiData -> drawing)
| MReading (tid : Z) (state : TorrentState) (k : TorrentGuiData -> drawing)
| MRemoving (p : drawing)
| MExit
| MCrash.

Record app : Type := mkApp {
  a_pool : pool;
  a_main : main_thread;
}.

(** The pool after an operation of its owner. *)
Definition with_sys (s : sys) (pd : bool) (p : pool) : pool :=
  mkPool s (ctls p) (group p) (skip p) pd (closing p).
Definition with_client (f : Furrent) (pd : bool) (p : pool) : pool :=
  with_sys (mkSys f (workers (core p)) (owner (core p)) (finished (core p)) (purged (core p))) pd p.

Definition returns {A} (m : cxx A) : Prop := exists a, m = Ret a.

Section app.
Context (argv_0 cwd : bytes) (is_torrent_file : bytes -> bool).

(** Steps of the program. The callbacks of main.cpp: insert is [add_torrent]
  and, if it succeeds, [get_gui_data]; update is [get_gui_data]; remove is
  [remove_torrent]. *)
Inductive app_step : app -> app -> Prop :=
| a_worker p m p' th :
    pool_step m p p' -> m <> MOwner -> th <> MCrash -> app_step (mkApp p th) (mkApp p' th)
| a_notify p th :
    pending p = true -> th <> MCrash ->
    app_step (mkApp p th) (mkApp (mkPool (core p) (map wake (ctls p)) (group p) (skip p) false (closing p)) th)
| a_worker_fails p th i :
    ctls p !! i = Some CBusy -> worker_fails i p -> th <> MCrash ->
    app_step (mkApp p th) (mkApp p MCrash)
| a_folder p r f' :
    set_download_folder (main_folder argv_0) (fur (core p)) = Ret (r, f') ->
    app_step (mkApp p MStart)
      (mkApp (with_client f' false p) (if valid r then MIdle (Window_new cwd) else MCrash))
| a_folder_fails p :
    ~ returns (set_download_folder (main_folder argv_0) (fur (core p))) ->
    app_step (mkApp p MStart) (mkApp p MCrash)
| a_frame p w i :
    app_step (mkApp p (MIdle w)) (mkApp p (MRun (frame is_torrent_file i w)))
| a_drawn p items w :
    app_step (mkApp p (MRun (Val (Ret (items, w))))) (mkApp p (MIdle w))
| a_fails p m :
    ~ returns m -> app_step (mkApp p (MRun (Val m))) (mkApp p MCrash)
| a_insert p http filepath dirpath k r f' :
    pending p = false -> add_torrent http filepath (fur (core p)) = Ret (r, f') ->
    app_step (mkApp p (MRun (Calls (Insert filepath dirpath) k)))
      (mkApp (with_client f' (valid r) p)
         (match r with OK tid => MRead tid (fun g => k (Some g)) | ERROR _ => MRun (k None) end))
| a_insert_fails p http filepath dirpath k :
    pending p = false -> ~ returns (add_torrent http filepath (fur (core p))) ->
    app_step (mkApp p (MRun (Calls (Insert filepath dirpath) k))) (mkApp p MCrash)
| a_update p tid k :
    app_step (mkApp p (MRun (Calls (Update tid) k))) (mkApp p (MRead tid k))
| a_load p tid k t :
    pending p = false -> f_torrents (fur (core p)) !! tid = Some t ->
    app_step (mkApp p (MRead tid k)) (mkApp p (MReading tid (t_state t) k))
| a_absent p tid k :
    pending p = false -> f_torrents (fur (core p)) !! tid = None ->
    app_step (mkApp p (MRead tid k)) (mkApp p MCrash)
| a_read p tid st k g :
    get_gui_data tid (fur (core p)) = Ret g ->
    app_step (mkApp p (MReading tid st k))
      (mkApp p (MRun (k (mkGuiData tid st (g_filename g) (g_pieces_processed g) (g_pieces_count g)))))
| a_remove p g k s' :
    pending p = false -> owner_step (core p) s' -> owner s' = CPurged (g_tid g) ->
    app_step (mkApp p (MRun (Calls (Remove g) k))) (mkApp (with_sys s' true p) (MRemoving (k tt)))
| a_removing p q s' :
    pending p = false -> owner (core p) <> CIdle -> owner_step (core p) s' ->
    app_step (mkApp p (MRemoving q)) (mkApp (with_sys s' false p) (MRemoving q))
| a_removed p q :
    pending p = false -> owner (core p) = CIdle -> app_step (mkApp p (MRemoving q)) (mkApp p (MRun q))
| a_close p w :
    app_step (mkApp p (MIdle w)) (mkApp p MExit)
| a_exit p p' :
    pool_step MOwner p p' -> closing p' <> POpen -> app_step (mkApp p MExit) (mkApp p' MExit).

Inductive app_reaches : app -> Prop :=
| ar_new d concurrency p :
    0 <= concurrency -> pool_new d concurrency = Ret p -> app_reaches (mkApp p MStart)
| ar_step a a' : app_reaches a -> app_step a a' -> app_reaches a'.

(** ** What is known of torrents *)

(** A registered torrent: the tracker gave it peers. *)
Definition registered (s : sys) (tid : Z) : Prop := t_peers (torrent_of tid s) <> [].

Lemma registered_lookup s tid :
registered s tid -> exists t, f_torrents (fur s) !! tid = Some t /\ torrent_of tid s = t.
Proof.
unfold registered, torrent_of, torrent_at. destruct (_ !! tid) as [t|]; [by exists t|done].
Qed.

(** The registered torrents with the numbers of their pieces. *)
Definition counted (s : sys) : known :=
fun tid n => registered s tid /\ n = pieces_count (t_descriptor (torrent_of tid s)).

Lemma knows_registered s tid : knows (counted s) tid <-> registered s tid.
Proof. split; [by intros (n & H & _)|]. intros H. by eexists. Qed.

Lemma counted_functional s tid n n' : counted s tid n -> counted s tid n' -> n = n'.
Proof. by intros [_ ->] [_ ->]. Qed.

(** All pieces were processed. *)
Definition all_processed (s : sys) (tid : Z) : Prop :=
t_pieces_processed (torrent_of tid s) = pieces_count (t_descriptor (torrent_of tid s)).

(** A registered torrent stays, with its descriptor. *)
Lemma step_torrent s s' tid :
sys_ok s -> step s s' -> registered s tid ->
registered s' tid /\ t_descriptor (torrent_of tid s') = t_descriptor (torrent_of tid s).
Proof.
intros Hok H Hr. destruct (registered_lookup _ _ Hr) as (t & Ht & E).
assert (Hcase : exists t', f_torrents (fur s') !! tid = Some t' /\ t_descriptor t' = t_descriptor t /\
  t_peers t' = t_peers t).
{ destruct H as [s s' H|s http fn r f' Ho H|s fo r f' Ho H]; cbn.
  - by eapply work_step_torrent.
  - apply add_spec in H as [(_ & [_ Hm] & _)|(d0 & d & g & H & [_ Hm] & _)].
    { rewrite Hm. by exists t. }
    assert (Hne : f_next_uid (fur s) <> tid).
    { intros <-. apply Hr. by apply (ac_fresh _ _ _ _ _ Hok). }
    apply register_spec in H as (x & _ & _ & _ & [(_ & _ & _ & Hm')|(_ & _ & ps & _ & _ & Hm')]).
    all: rewrite Hm', Hm, lookup_insert_ne by done; by exists t.
  - apply set_download_folder_spec in H as [[_ Hm] _]. rewrite Hm. by exists t. }
destruct Hcase as (t' & Ht' & Hd & Hp). unfold registered in *. rewrite E in *.
unfold torrent_of, torrent_at. rewrite Ht'. cbn. by rewrite Hd, Hp.
Qed.

Lemma step_grows s s' : sys_ok s -> step s s' -> grows (counted s) (counted s').
Proof.
intros Hok H tid n [Hr ->]. destruct (step_torrent s s' tid Hok H Hr) as [Hr' E]. split; [done|]. by rewrite E.
Qed.

Lemma grows_registered s s' tid : grows (counted s) (counted s') -> registered s tid -> registered s' tid.
Proof. rewrite <- !knows_registered. apply grows_knows. Qed.

Lemma step_finished s s' : step s s' -> finished s ⊆+ finished s'.
Proof.
intros H. destruct H as [s s' H|s http fn r f' Ho H|s fo r f' Ho H]; [|done..].
destruct H as [i s s' H|s s' H]; destruct H; cbn; try done.
apply submseteq_cons. done.
Qed.

Lemma registered_range s tid :
sys_ok s -> registered s tid ->
0 <= t_pieces_processed (torrent_of tid s) <= pieces_count (t_descriptor (torrent_of tid s)).
Proof. intros Hok Hr. by apply processed_range. Qed.

Lemma step_all_processed s s' tid :
sys_ok s -> step s s' -> registered s tid -> all_processed s tid -> all_processed s' tid.
Proof.
intros Hok H Hr Ha. pose proof (step_ok _ _ Hok H) as Hok'.
destruct (step_torrent _ _ _ Hok H Hr) as [Hr' Hd].
pose proof (registered_range _ _ Hok' Hr') as Hrange. unfold all_processed in *. rewrite Hd in *.
pose proof (ac_processed _ _ _ _ _ Hok tid) as E. pose proof (ac_processed _ _ _ _ _ Hok' tid) as E'.
cbv beta in E, E'.
pose proof (zlen_submseteq _ _ (submseteq_of_torrent tid _ _ (step_finished _ _ H))). lia.
Qed.

(** ** The invariant *)

(** Registered torrents that have no row any more. *)
Context (gone : Z -> Prop).

(** A frame that keeps to its contract. *)
Definition drawing_ok (s : sys) (p : drawing) : Prop :=
prog_ok (fun K r => window_ok gone K r.2) (counted s) p.

Lemma prog_ok_grows {A} (post : known -> A -> Prop) K K' p :
(forall K K' a, grows K K' -> post K a -> post K' a) ->
grows K K' -> prog_ok post K p -> prog_ok post K' p.
Proof.
intros Hpost. revert K K'. induction p as [m|c k IH]; intros K K' HK Hp.
- destruct m; cbn in *; try done. by eapply Hpost.
- destruct c; cbn in *; destruct Hp as [H1 H2].
  + split; [intros K2 H; apply H1; by transitivity K'|].
    intros g K2 H Hg Hn. apply H2; [by transitivity K'|done|]. intros Hg'. apply Hn. by eapply grows_knows.
  + split; [by eapply grows_knows|]. intros g K2 H. apply H2. by transitivity K'.
  + split; [by eapply grows_knows|]. intros K2 H. apply H2. by transitivity K'.
Qed.

Lemma drawing_ok_grows s s' p :
grows (counted s) (counted s') -> drawing_ok s p -> drawing_ok s' p.
Proof. apply prog_ok_grows. intros K K' [items w]. apply window_ok_grows. Qed.

(** The data that answers a read, in any later state. *)
Definition answers_ok (s : sys) (tid : Z) (k : TorrentGuiData -> drawing) : Prop :=
forall g K, grows (counted s) K -> g_tid g = tid -> row_of K g ->
  prog_ok (fun K r => window_ok gone K r.2) K (k g).

Definition main_ok (s : sys) (th : main_thread) : Prop :=
match th with
| MIdle w => window_ok gone (counted s) w
| MRun p | MRemoving p => drawing_ok s p
| MRead tid k => registered s tid /\ answers_ok s tid k
| MReading tid st k =>
    registered s tid /\ answers_ok s tid k /\ (st = Completed -> all_processed s tid)
| MStart | MExit | MCrash => True
end.

Lemma main_ok_step s s' th : sys_ok s -> step s s' -> main_ok s th -> main_ok s' th.
Proof.
intros Hok H Hth.
pose proof (step_grows _ _ Hok H) as Hg.
destruct th as [|w|p|tid k|tid st k|p| |]; cbn in *; try done.
- by eapply window_ok_grows.
- by eapply drawing_ok_grows.
- destruct Hth as [Hr Ha]. split; [by eapply grows_registered|]. intros g K HK. apply Ha. by etransitivity.
- destruct Hth as (Hr & Ha & Hc). split_and!; [by eapply grows_registered| |].
  + intros g K HK. apply Ha. by etransitivity.
  + intros E. by eapply step_all_processed; [..|apply Hc].
- by eapply drawing_ok_grows.
Qed.

Record app_ok (a : app) : Prop := {
ao_pool : pool_reaches (a_pool a);
ao_main : main_ok (core (a_pool a)) (a_main a);
ao_open : a_main a <> MExit -> a_main a <> MCrash -> closing (a_pool a) = POpen;
ao_owner : (forall q, a_main a <> MRemoving q) -> a_main a <> MCrash -> owner (core (a_pool a)) = CIdle;
ao_start : a_main a = MStart -> pending (a_pool a) = false;
ao_gone tid : gone tid -> registered (core (a_pool a)) tid;
}.

(** The client is in order under a pool that is reached. *)
Lemma pool_sys_ok p : pool_reaches p -> sys_ok (core p).
Proof. intros H. apply reaches_ok, po_core, pool_reaches_ok, H. Qed.

(** An operation of the main thread that is a step of the pool. *)
Lemma app_ok_owner p s' pd th th' :
app_ok (mkApp p th) -> th <> MExit -> th <> MCrash ->
pool_step MOwner p (with_sys s' pd p) -> grows (counted (core p)) (counted s') -> main_ok s' th' ->
((forall q, th' <> MRemoving q) -> th' <> MCrash -> owner s' = CIdle) -> th' <> MStart ->
app_ok (mkApp (with_sys s' pd p) th').
Proof.
intros [H1 H2 H3 H4 H5 H6] He Hc Hst Hg Hm Ho Hs. split; cbn in *; try done; [by eapply pr_step|..].
- intros _ _. by apply H3.
- intros tid Ht. by eapply grows_registered, H6.
Qed.

Lemma added_known s http fn tid f' :
sys_ok s -> add_torrent http fn (fur s) = Ret (OK tid, f') ->
~ registered s tid /\ registered (mkSys f' (workers s) CIdle (finished s) (purged s)) tid.
Proof.
intros Hok [(_ & _ & [=])|(d0 & d & g & H & [_ Hm] & _)]%add_spec.
apply register_spec in H as (x & _ & _ & _ & [(_ & [=] & _)|(Hp & [= ->] & ps & _ & _ & Hm')]).
split; [intros Hr; apply Hr; by apply (ac_fresh _ _ _ _ _ Hok)|].
unfold registered, torrent_of, torrent_at. cbn. by rewrite Hm', lookup_insert_eq.
Qed.

Lemma insert_ok p http fn dir k r f' :
app_ok (mkApp p (MRun (Calls (Insert fn dir) k))) -> pending p = false ->
add_torrent http fn (fur (core p)) = Ret (r, f') ->
app_ok (mkApp (with_client f' (valid r) p)
  (match r with OK tid => MRead tid (fun g => k (Some g)) | ERROR _ => MRun (k None) end)).
Proof.
intros Ha Hpd H. pose proof (ao_open _ Ha ltac:(done) ltac:(done)) as Hop.
pose proof (ao_owner _ Ha ltac:(done) ltac:(done)) as Hown. cbn in Hop, Hown.
pose proof (pool_sys_ok _ (ao_pool _ Ha)) as Hok. cbn in Hok.
unfold with_client. rewrite Hown.
assert (Hst : step (core p) (mkSys f' (workers (core p)) CIdle (finished (core p)) (purged (core p))))
  by (by eapply s_add).
pose proof (step_grows _ _ Hok Hst) as Hg.
pose proof (ao_main _ Ha) as [Hn Hs]. cbn in Hn, Hs.
apply (app_ok_owner _ _ _ _ _ Ha); try done; [by eapply p_add| |].
- destruct r as [tid|e]; cbn; [|by apply Hn].
  destruct (added_known _ _ _ _ _ Hok H) as [Hold Hnew]. split; [done|].
  intros g K HK Hgt Hr. apply Hs; [by etransitivity|done|]. by rewrite Hgt, knows_registered.
- by destruct r.
Qed.

(** The row that [get_gui_data] makes. *)
Lemma read_row p tid st k g :
app_ok (mkApp p (MReading tid st k)) -> get_gui_data tid (fur (core p)) = Ret g ->
row_of (counted (core p)) (mkGuiData tid st (g_filename g) (g_pieces_processed g) (g_pieces_count g)).
Proof.
intros [H1 (Hr & Ha & Hc) H3 H4 H5 H6] H. cbn in *.
destruct (registered_lookup _ _ Hr) as (t & Ht & E). unfold get_gui_data in H. rewrite Ht in H. injection H as <-.
split; cbn; [split; [done|by rewrite E]|]. unfold row_ok, all_processed in *. cbn. rewrite E in Hc.
pose proof (registered_range _ _ (pool_sys_ok _ H1) Hr) as Hrange. rewrite E in Hrange. split; [lia|exact Hc].
Qed.

Lemma read_ok p tid st k g :
app_ok (mkApp p (MReading tid st k)) -> get_gui_data tid (fur (core p)) = Ret g ->
app_ok (mkApp p (MRun (k (mkGuiData tid st (g_filename g) (g_pieces_processed g) (g_pieces_count g))))).
Proof.
intros Hok H. pose proof (read_row _ _ _ _ _ Hok H) as Hrow. destruct Hok as [H1 (Hr & Ha & Hc) H3 H4 H5 H6].
cbn in *. split; cbn; try done; [|by intros _ _; apply H3|by intros _ _; apply H4]. by apply Ha.
Qed.

Lemma remove_ok p g k s' :
app_ok (mkApp p (MRun (Calls (Remove g) k))) -> pending p = false ->
owner_step (core p) s' -> owner s' = CPurged (g_tid g) ->
app_ok (mkApp (with_sys s' true p) (MRemoving (k tt))).
Proof.
intros Ha Hpd H Ho. pose proof (ao_open _ Ha ltac:(done) ltac:(done)) as Hop. cbn in Hop.
pose proof (pool_sys_ok _ (ao_pool _ Ha)) as Hok. cbn in Hok.
pose proof (ao_main _ Ha) as [_ Hs]. cbn in Hs.
apply (app_ok_owner _ _ _ _ _ Ha); try done.
- pose proof (p_owner p s' Hpd Hop H) as Hst. by rewrite Ho in Hst.
- apply step_grows; [done|]. by apply s_work, ws_owner.
- apply Hs, step_grows; [done|]. by apply s_work, ws_owner.
- intros Hq. by destruct (Hq (k tt)).
Qed.

Lemma removing_ok p q s' :
app_ok (mkApp p (MRemoving q)) -> pending p = false -> owner (core p) <> CIdle ->
owner_step (core p) s' -> app_ok (mkApp (with_sys s' false p) (MRemoving q)).
Proof.
intros Ha Hpd Hi H. pose proof (ao_open _ Ha ltac:(done) ltac:(done)) as Hop. cbn in Hop.
pose proof (pool_sys_ok _ (ao_pool _ Ha)) as Hok. cbn in Hok.
apply (app_ok_owner _ _ _ _ _ Ha); try done.
- pose proof (p_owner p s' Hpd Hop H) as Hst. destruct H; done.
- apply step_grows; [done|]. by apply s_work, ws_owner.
- apply (main_ok_step (core p) s' (MRemoving q)); [done|by apply s_work, ws_owner|apply Ha].
- intros Hq. by destruct (Hq q).
Qed.

(** The destructor of the client does not touch its data. *)
Lemma exit_core m p p' : pool_step m p p' -> m = MOwner -> closing p' <> POpen -> core p' = core p.
Proof.
intros H Em Hc. destruct H; try discriminate Em; try done; by destruct b || by destruct (failed w w').
Qed.

Lemma exit_ok p p' :
app_ok (mkApp p MExit) -> pool_step MOwner p p' -> closing p' <> POpen -> app_ok (mkApp p' MExit).
Proof.
intros [H1 H2 H3 H4 H5 H6] H Hc. cbn in *. pose proof (exit_core _ _ _ H eq_refl Hc) as E.
split; cbn; rewrite ?E; try done. by eapply pr_step.
Qed.

Lemma app_step_ok a a' : app_ok a -> app_step a a' -> app_ok a'.
Proof.
intros Ha H. pose proof (ao_pool _ Ha) as Q1. pose proof (ao_main _ Ha) as Q2. pose proof (ao_open _ Ha) as Q3.
pose proof (ao_owner _ Ha) as Q4. pose proof (ao_start _ Ha) as Q5.
pose proof (ao_gone _ Ha) as Q6.
destruct H as [p m p' th Hst Hm Hth|p th Hpd Hth|p th i Hi Hf Hth|p r f' H|p H|p w i|p items w|p m Hm|p http fn dir k r f' Hpd H
  |p http fn dir k Hpd H|p tid k|p tid k t Hpd Ht|p tid k Hpd Ht|p tid st k g H|p g k s' Hpd H Ho|p q s' Hpd Ho H
  |p q Hpd Ho|p w|p p' H Hc]; cbn in Q1, Q2, Q3, Q4, Q5, Q6.
- destruct (pool_worker_core _ _ _ (pool_reaches_ok _ Q1) Hst Hm) as (Hs & Ho & Hc & Hp).
  assert (Hs' : core p' = core p \/ step (core p) (core p')).
  { destruct Hs as [|[i Hs]]; [by left|right]. by apply s_work, (ws_worker i). }
  split; cbn; rewrite ?Ho, ?Hc, ?Hp; try done; [by eapply pr_step|..]; destruct Hs' as [->|Hs']; try done.
  + by apply (main_ok_step (core p)); [apply pool_sys_ok|..].
  + intros tid Ht. eapply grows_registered, Q6, Ht. apply step_grows; [by apply pool_sys_ok|done].
- split; try done. cbn. eapply pr_step; [exact Q1|]. by apply p_notify.
- by split.
- assert (Hown : owner (core p) = CIdle) by (by apply Q4).
  unfold with_client. rewrite Hown. apply (app_ok_owner _ _ _ _ _ Ha); try done.
  + eapply p_folder; [by apply Q5|by apply Q3|done|done].
  + apply step_grows; [by apply pool_sys_ok|]. by eapply s_folder.
  + destruct (valid r); [apply window_ok_new|done]. intros tid Ht.
    apply knows_registered. eapply grows_registered, Q6, Ht.
    apply step_grows; [by apply pool_sys_ok|by eapply s_folder].
  + by destruct (valid r).
- by split.
- split; cbn; try done; [by apply frame_ok|by intros _ _; apply Q3|by intros _ _; apply Q4].
- split; cbn; try done; [by intros _ _; apply Q3|by intros _ _; apply Q4].
- by split.
- by eapply insert_ok.
- by split.
- destruct Q2 as [Qr%knows_registered Qa]. split; cbn; try done; [by intros _ _; apply Q3|by intros _ _; apply Q4].
- destruct Q2 as [Qr Qa]. split; cbn; try done; [|by intros _ _; apply Q3|by intros _ _; apply Q4].
  split_and!; [done..|]. intros Hc. destruct (registered_lookup _ _ Qr) as (t' & Ht' & E).
  rewrite Ht in Ht'. injection Ht' as <-.
  apply (ac_completed _ _ _ _ _ (pool_sys_ok _ Q1) tid). by rewrite E.
- by split.
- by apply read_ok.
- by apply (remove_ok p g).
- by apply removing_ok.
- split; cbn; try done. by intros _ _; apply Q3.
- split; cbn; try done. by intros _ _; apply Q4.
- by eapply exit_ok.
Qed.

End app.

(** Nothing is gone at first. *)
Abbreviation nothing := (fun _ : Z => False).

Lemma app_reaches_ok argv_0 cwd is_torrent_file a :
  app_reaches argv_0 cwd is_torrent_file a -> app_ok nothing a.
Proof.
  induction 1 as [d concurrency p Hc H|a a' _ IH H]; [|by eapply app_step_ok].
  split; cbn; try done; [by eapply pr_new|..].
  all: unfold pool_new in H; inv_ret; done.
Qed.

(** Registered torrents without a row stay without one. *)
Lemma app_steps_gone argv_0 cwd is_torrent_file p w a' w' tid :
  app_ok nothing (mkApp p (MIdle w)) -> registered (core p) tid ->
  tid ∉ map g_tid (torrents (scroller w)) ->
  rtc (app_step argv_0 cwd is_torrent_file) (mkApp p (MIdle w)) a' -> a_main a' = MIdle w' ->
  tid ∉ map g_tid (torrents (scroller w')).
Proof.
  intros [H1 H2 H3 H4 H5 _] Hr Hn Hsteps Ew.
  assert (Hok : app_ok (fun t => t = tid) (mkApp p (MIdle w))).
  { split; try done; [|by intros t ->]. destruct H2 as [_ _ W1 W2 W3]. split; try done; [by intros t ->; apply knows_registered|].
    intros g Hg E. apply Hn. rewrite <- E. by apply (list_elem_of_fmap_2 g_tid). }
  assert (Hok' : app_ok (fun t => t = tid) a').
  { clear - Hok Hsteps. induction Hsteps as [a|a a1 a2 Hst _ IH]; [done|]. apply IH. by eapply app_step_ok. }
  pose proof (ao_main _ _ Hok') as Hw. rewrite Ew in Hw.
  intros (g & -> & Hg)%list_elem_of_fmap. by apply (wo_gone _ _ _ Hw g Hg).
Qed.

(** ** A frame that cannot end *)

Section stopping.
Context (argv_0 cwd : bytes) (is_torrent_file : bytes -> bool).
Context (K : known).

Abbreviation stops := (prog_reads (fun m => m = Undef DivisionByZero) K).

(** The main thread reads torrents and then divides by zero. *)
Definition main_stops (th : main_thread) : Prop :=
match th with
| MRun p => stops p
| MRead tid k | MReading tid _ k => knows K tid /\ forall g, g_tid g = tid -> row_of K g -> stops (k g)
| MCrash => True
| _ => False
end.

Record stopping (a : app) : Prop := {
sp_ok : app_ok nothing a;
sp_grows : grows K (counted (core (a_pool a)));
sp_main : main_stops (a_main a);
}.

(** What is read has the number of pieces that was known. *)
Lemma stopping_row s g : grows K (counted s) -> knows K (g_tid g) -> row_of (counted s) g -> row_of K g.
Proof.
intros Hg [n Hn] [Hc Hok]. split; [|done]. by rewrite (counted_functional _ _ _ _ Hc (Hg _ _ Hn)).
Qed.

Lemma stopping_step a a' : stopping a -> app_step argv_0 cwd is_torrent_file a a' -> stopping a'.
Proof.
intros [H1 H2 H3] H. pose proof (app_step_ok _ _ _ _ _ _ H1 H) as Hok'. split; [done| |].
- pose proof (pool_sys_ok _ (ao_pool _ _ H1)) as Hs. destruct H; cbn in *; try done.
  destruct (pool_worker_core _ _ _ (pool_reaches_ok _ (ao_pool _ _ H1)) H ltac:(done)) as [[E|[j E]] _].
  + by rewrite E.
  + etransitivity; [exact H2|]. apply step_grows; [done|]. by apply s_work, (ws_worker j).
- destruct H; cbn in *; try done.
  + destruct H3 as [Hk Hc]. apply Hc; [done|]. by apply (stopping_row (core p)), (read_row _ _ _ _ _ _ H1).
Qed.

Abbreviation crashes a := (exists p', rtc (app_step argv_0 cwd is_torrent_file) a (mkApp p' MCrash)).

Lemma crashes_step a a' : app_step argv_0 cwd is_torrent_file a a' -> crashes a' -> crashes a.
Proof. intros H [p' Hp]. exists p'. by eapply rtc_l. Qed.

(** Reading a torrent can be finished. *)
Lemma reading_crashes p tid st k :
stopping (mkApp p (MReading tid st k)) ->
(forall g p', g_tid g = tid -> row_of K g -> stopping (mkApp p' (MRun (k g))) -> crashes (mkApp p' (MRun (k g)))) ->
crashes (mkApp p (MReading tid st k)).
Proof.
intros H IH. pose proof H as [H1 H2 [Hk _]]. cbn in H2.
assert (Hr : registered (core p) tid) by (apply knows_registered; by eapply grows_knows).
destruct (registered_lookup _ _ Hr) as (t & Ht & _).
assert (Hg : exists g, get_gui_data tid (fur (core p)) = Ret g) by (unfold get_gui_data; rewrite Ht; by eexists).
destruct Hg as [g Hg]. pose proof (a_read argv_0 cwd is_torrent_file p tid st k g Hg) as Hst.
eapply crashes_step; [exact Hst|]. apply IH; [done| |by eapply stopping_step].
by apply (stopping_row (core p)), (read_row _ _ _ _ _ _ H1).
Qed.

Lemma read_crashes p tid k :
stopping (mkApp p (MRead tid k)) ->
(forall g p', g_tid g = tid -> row_of K g -> stopping (mkApp p' (MRun (k g))) -> crashes (mkApp p' (MRun (k g)))) ->
crashes (mkApp p (MRead tid k)).
Proof.
intros H IH.
assert (Hnow : forall q, pending q = false -> stopping (mkApp q (MRead tid k)) -> crashes (mkApp q (MRead tid k))).
{ intros q Hq Hs. pose proof Hs as [_ H2 [Hk _]]. cbn in H2.
  assert (Hr : registered (core q) tid) by (apply knows_registered; by eapply grows_knows).
  destruct (registered_lookup _ _ Hr) as (t & Ht & _).
  pose proof (a_load argv_0 cwd is_torrent_file q tid k t Hq Ht) as Hst.
  eapply crashes_step; [exact Hst|]. apply reading_crashes; [by eapply stopping_step|done]. }
destruct (pending p) eqn:E; [|by apply Hnow].
pose proof (a_notify argv_0 cwd is_torrent_file p (MRead tid k) E ltac:(done)) as Hst.
eapply crashes_step; [exact Hst|]. apply Hnow; [done|by eapply stopping_step].
Qed.

Lemma run_crashes q p : stopping (mkApp p (MRun q)) -> crashes (mkApp p (MRun q)).
Proof.
revert p. induction q as [m|c k IH]; intros p H.
- exists p. apply rtc_once, a_fails. pose proof (sp_main _ H) as E. cbn in E. rewrite E. by intros [x [=]].
- destruct c as [| tid |]; try by destruct (sp_main _ H).
  pose proof (a_update argv_0 cwd is_torrent_file p tid k) as Hst.
  eapply crashes_step; [exact Hst|]. apply read_crashes; [by eapply stopping_step|]. intros g p' _ _. apply IH.
Qed.

Lemma stopping_crashes a : stopping a -> crashes a.
Proof.
destruct a as [p th]. intros H. pose proof (sp_main _ H) as Hm.
destruct th as [|w|q|tid k|tid st k|q| |]; try done; cbn in Hm.
- by apply run_crashes.
- apply read_crashes; [done|]. intros g p' _ _. apply run_crashes.
- apply reading_crashes; [done|]. intros g p' _ _. apply run_crashes.
- by exists p.
Qed.
End stopping.

(** ** Claims *)


(** C35: the progress of a torrent. In every reachable state, every row of the window
    with at least one piece (and so few that a hundredfold of them fits an
    [int64_t]) can be drawn, at any integer coordinate up to 2^23: the name is cut
    to 23 bytes, the progress that the bar and its label show lies between 0 and 100
    percent, it is 100 exactly when all pieces are processed, and it is 100 for a
    torrent shown as downloaded. *)
Theorem progress_bounds argv_0 cwd is_torrent_file a w g top :
  app_reaches argv_0 cwd is_torrent_file a -> a_main a = MIdle w -> g ∈ torrents (scroller w) ->
  0 < g_pieces_count g <= int64_max / 100 -> Z.abs top <= 2 ^ 23 ->
  exists it, render_torrent_item g (f32_of_Z top) = Ret it /\ zlen (item_name it) <= 23 /\
    forall b, item_bar it = Some b -> exists n, bar_value b = f32_of_Z n /\ bar_left b = to_string n ++ str "% " /\
      0 <= n <= 100 /\ (n = 100 <-> g_pieces_processed g = g_pieces_count g) /\ (g_state g = Completed -> n = 100).
Proof.
  intros [_ H2 _ _ _ _]%app_reaches_ok Ew Hg Hc Htop. rewrite Ew in H2.
  pose proof (wo_rows _ _ _ H2) as Hr. rewrite Forall_forall in Hr. destruct (Hr g Hg) as [_ Hrow].
  destruct (item_at_run g top Hrow Hc) as (it & E & Hn & Hb). exists it.
  rewrite render_item_exact by done. split_and!; [done..|].
  intros b [Ev El]%Hb. destruct (percent_range g Hrow) as [Hp Hi]; [lia|]. exists (percent g).
  split_and!; [done|done|apply Hp..|done|].
  intros Hs. by apply Hi, Hrow.
Qed.

(** C37: a torrent without pieces ends the program. When a row has no pieces, a
    frame that draws it divides by zero, also when it reads the rows again first
    and whatever the workers do meanwhile; a frame draws it unless it is
    scrolled away. Once such a frame began the program is only ever in that frame,
    at its end has divided by zero, can always come there, and is never back
    in the loop of the window or after it. *)
Theorem zero_pieces_crash argv_0 cwd is_torrent_file p w i k g :
  app_reaches argv_0 cwd is_torrent_file (mkApp p (MIdle w)) ->
  torrents (scroller w) !! k = Some g -> g_pieces_count g = 0 ->
  (forall j g', (j < k)%nat -> torrents (scroller w) !! j = Some g' -> 0 < g_pieces_count g' <= int64_max / 100) ->
  50 * zlen (torrents (scroller w)) <= 2 ^ 22 ->
  0 <= in_panel i (scroll_y (scroller w)) <= 55 + 50 * Z.of_nat k ->
  app_step argv_0 cwd is_torrent_file (mkApp p (MIdle w)) (mkApp p (MRun (frame is_torrent_file i w))) /\
  forall a, rtc (app_step argv_0 cwd is_torrent_file) (mkApp p (MRun (frame is_torrent_file i w))) a ->
    (forall w', a_main a <> MIdle w') /\ a_main a <> MExit /\
    (forall m, a_main a = MRun (Val m) -> m = Undef DivisionByZero) /\
    exists p', rtc (app_step argv_0 cwd is_torrent_file) a (mkApp p' MCrash).
Proof.
  intros Ha%app_reaches_ok Hk Hz Hb Hn Hs. split; [apply a_frame|]. intros a Hsteps.
  assert (Hstop : stopping (counted (core p)) (mkApp p (MRun (frame is_torrent_file i w)))).
  { split; [|done|].
    - eapply app_step_ok; [exact Ha|]. apply (a_frame argv_0 cwd).
    - apply (frame_stops _ _ _ _ k g); try done; [apply counted_functional|]. exact (wo_rows _ _ _ (ao_main _ _ Ha)). }
  assert (Hst : stopping (counted (core p)) a).
  { clear - Hsteps Hstop. induction Hsteps as [a|a a1 a2 H _ IH]; [done|]. apply IH.
    by eapply stopping_step. }
  split_and!.
  - intros w' E. apply sp_main in Hst. by rewrite E in Hst.
  - intros E. apply sp_main in Hst. by rewrite E in Hst.
  - intros m E. apply sp_main in Hst. by rewrite E in Hst.
  - by apply (stopping_crashes _ _ _ (counted (core p))).
Qed.

(** A peer that sends such a message makes the attempt fail. *)
Lemma hostile_process peer task resp bits plen m o es tr cf dk :
  offered (descriptor task) (task_piece task) bits plen -> good_response (descriptor task) resp ->
  sendable (descriptor task) m ->
  (exists i b bl, m = PieceMessage i b bl /\ plen < b + zlen bl) \/
  (exists i, m = HaveMessage i /\ pieces_count (descriptor task) <= i) ->
  let n := Z.to_nat (Z.min (Z.quot (plen + BLOCK_SIZE - 1) BLOCK_SIZE) 5) in
  fails (process peer task (Socket.mkNet o
    (welcome (descriptor task) resp bits ++ replicate n (done_with []) ++ answer m ++ es) tr cf, dk)).
Proof.
  intros Ho Hr Hm Hbad n.
  destruct (hostile_message (descriptor task) peer (task_piece task) resp bits plen m o es tr cf Ho Hr Hm)
    as [Hp Hh]. fold n in Hp, Hh. unfold process, download.
  destruct Hbad as [(i & b & bl & E & Hb)|(i & E & Hb)].
  - rewrite (Hp _ _ _ E Hb). done.
  - rewrite (Hh _ E Hb). done.
Qed.

(** C17: one peer can end the program. In any reachable state of the program, while
    a worker tries a peer of its torrent, the peer can answer the handshake, offer
    the piece and then send a block that ends beyond the piece, or announce a
    piece beyond the last one: the first is written out of bounds, the second is
    an exception that no caller catches, and it ends every thread, whatever
    the window and the other workers are doing. *)
Theorem hostile_peer_ends_program argv_0 cwd is_torrent_file p th i task ps ws j w peer resp bits plen m :
  app_reaches argv_0 cwd is_torrent_file (mkApp p th) -> th <> MCrash ->
  workers (core p) !! i = Some (WWorks task ps ws) -> ws !! j = Some w -> ps !! j = Some peer ->
  offered (descriptor task) (task_piece task) bits plen -> good_response (descriptor task) resp ->
  sendable (descriptor task) m ->
  (exists i b bl, m = PieceMessage i b bl /\ plen < b + zlen bl) \/
  (exists i, m = HaveMessage i /\ pieces_count (descriptor task) <= i) ->
  app_step argv_0 cwd is_torrent_file (mkApp p th) (mkApp p MCrash) /\
  forall a, ~ app_step argv_0 cwd is_torrent_file (mkApp p MCrash) a.
Proof.
  intros Ha%app_reaches_ok Hth Hi Hw Hp Ho Hr Hm Hbad.
  pose proof (pool_reaches_ok _ (ao_pool _ _ Ha)) as Hpool. cbn in Hpool.
  pose proof (po_core _ Hpool) as Hc.
  destruct (works_peers _ _ _ _ _ (reaches_ok _ Hc) (reaches_scored _ Hc) Hi) as (_ & _ & _ & Hpos).
  destruct (Hpos j) as (w' & peer' & Hw' & Hpw & _); [by eapply lookup_lt_Some|].
  split; [|intros a H; by inversion H].
  apply (a_worker_fails _ _ _ p th i); [| |done].
  - destruct (lookup_lt_is_Some_2 (ctls p) i) as [c Hci].
    { rewrite (po_ctls _ Hpool). by eapply lookup_lt_Some. }
    rewrite Hci. f_equal. by apply (po_busy _ Hpool _ _ _ Hci Hi).
  - eapply (wf_attempt i _ task ps ws j peer); [done|left; by exists w'|done|].
    by eapply (hostile_process peer task resp bits plen m false [] [] false).
Qed.

(** ** Sample runs *)

(** A worker, the program in bin/furrent, and a user who opens the dialog and
    chooses t.torrent. *)
Definition sample_pool (f : Furrent) (pd : bool) : pool :=
  mkPool (hello_at f WIdle []) [CHead] (mkGroup [Running] [0] false) false pd POpen.
Definition sample_input (opens selects : bool) : frame_input :=
  mkInput 0 opens (fun _ => 0) (f32_of_Z 0) (fun _ => false) (mkDialogInput false selects false (str "t.torrent") (str ".")) (-1).
Definition sample_window (opened : bool) (rows : list TorrentGuiData) : Window :=
  mkWindow opened (mkFileDialog opened false (if opened then [] else str "t.torrent") (str "."))
    (mkScroll (f32_of_Z 0) rows (mkTorrentDialog false false (mkGuiData 0 Loading [] 0 0))).

Abbreviation sample_reaches := (app_reaches (str "bin/furrent") (str ".") (fun _ => true)).

(** After the dialog, the torrent has its row. *)
Lemma sample_run d f1 f2 t g :
  set_download_folder (str "bin/output") (Furrent_new d) = Ret (OK tt, f1) ->
  add_torrent hello_http (str "t.torrent") f1 = Ret (OK 0, f2) ->
  f_torrents f2 !! 0 = Some t -> get_gui_data 0 f2 = Ret g ->
  sample_reaches (mkApp (sample_pool f2 false) (MIdle (sample_window false [g]))).
Proof.
  intros Hf Ha Ht Hg.
  assert (Eg : g = mkGuiData 0 (t_state t) (g_filename g) (g_pieces_processed g) (g_pieces_count g)).
  { unfold get_gui_data in Hg. rewrite Ht in Hg. by injection Hg as <-. }
  eapply ar_step; [eapply ar_step; [eapply ar_step; [eapply ar_step; [eapply ar_step; [eapply ar_step;
    [eapply ar_step; [eapply ar_step; [eapply ar_step;
      [exact (ar_new _ _ _ d 2 (sample_pool (Furrent_new d) false) ltac:(done) eq_refl)|]|]|]|]|]|]|]|]|].
  - exact (a_folder (str "bin/furrent") (str ".") _ (sample_pool (Furrent_new d) false) _ _ Hf).
  - exact (a_frame _ _ _ (sample_pool f1 false) (Window_new (str ".")) (sample_input true false)).
  - exact (a_drawn _ _ _ (sample_pool f1 false) [] (sample_window true [])).
  - exact (a_frame _ _ _ (sample_pool f1 false) (sample_window true []) (sample_input false true)).
  - exact (a_insert _ _ _ (sample_pool f1 false) hello_http _ _ _ _ _ eq_refl Ha).
  - by apply a_notify.
  - by apply (a_load _ _ _ (sample_pool f2 false) 0 _ t).
  - apply (a_read _ _ _ (sample_pool f2 false) 0 _ _ g Hg).
  - rewrite <- Eg. exact (a_drawn _ _ _ (sample_pool f2 false) [] (sample_window false [g])).
Qed.

(** The torrent of the sample session, and one of two bytes with a piece length of
    minus one: it has no pieces. *)
Definition zero_text : bytes := encode (metainfo (str "http://t") (single_layout 2) (str "n") (-1) []).
Definition sample_disk (text : bytes) : Io.disk := Io.mkDisk {[ str "t.torrent" := text ]} ∅ (fun _ => None).
Definition sample_f1 (text : bytes) : Furrent :=
  after (set_download_folder (str "bin/output") (Furrent_new (sample_disk text))) (Furrent_new (sample_disk text)).
Definition sample_f2 (text : bytes) : Furrent :=
  after (add_torrent hello_http (str "t.torrent") (sample_f1 text)) (sample_f1 text).
Definition sample_row (n : Z) : TorrentGuiData := mkGuiData 0 Downloading (str "n") 0 n.

Lemma sample_hello :
  sample_reaches (mkApp (sample_pool (sample_f2 hello_text) false) (MIdle (sample_window false [sample_row 1]))).
Proof.
  apply (sample_run (sample_disk hello_text) (sample_f1 hello_text) (sample_f2 hello_text)
    (torrent_at 0 (f_torrents (sample_f2 hello_text)))); vm_compute; reflexivity.
Qed.

Lemma sample_zero :
  sample_reaches (mkApp (sample_pool (sample_f2 zero_text) false) (MIdle (sample_window false [sample_row 0]))).
Proof.
  apply (sample_run (sample_disk zero_text) (sample_f1 zero_text) (sample_f2 zero_text)
    (torrent_at 0 (f_torrents (sample_f2 zero_text)))); vm_compute; reflexivity.
Qed.


Lemma progress_bounds_witness :
  exists it, render_torrent_item (sample_row 1) (f32_of_Z 5) = Ret it /\ zlen (item_name it) <= 23 /\
    forall b, item_bar it = Some b -> exists n, bar_value b = f32_of_Z n /\ bar_left b = to_string n ++ str "% " /\
      0 <= n <= 100 /\ (n = 100 <-> 0 = 1) /\ (Downloading = Completed -> n = 100).
Proof.
  refine (progress_bounds (str "bin/furrent") (str ".") (fun _ => true) _ _ (sample_row 1) 5 sample_hello eq_refl _ _ _).
  - by left.
  - vm_compute. split; [reflexivity|discriminate].
  - lia.
Defined.

(** A frame that reads the rows again first. *)
Definition late_input (elapsed : Z) : frame_input :=
  mkInput elapsed false (fun _ => 0) (f32_of_Z 0) (fun _ => false) (mkDialogInput false false false [] []) (-1).

Lemma zero_pieces_crash_witness :
  let a := mkApp (sample_pool (sample_f2 zero_text) false) (MIdle (sample_window false [sample_row 0])) in
  sample_reaches a /\
  exists p', rtc (app_step (str "bin/furrent") (str ".") (fun _ => true)) a (mkApp p' MCrash).
Proof.
  split; [exact sample_zero|].
  destruct (zero_pieces_crash (str "bin/furrent") (str ".") (fun _ => true) _ _ (late_input 30) 0
    (sample_row 0) sample_zero eq_refl eq_refl) as [H1 H2].
  - intros j g' Hj. lia.
  - vm_compute. discriminate.
  - vm_compute. split; discriminate.
  - destruct (H2 _ (rtc_refl _ _)) as (_ & _ & _ & p' & Hp). exists p'. exact (rtc_l _ _ _ _ H1 Hp).
Defined.

(** The worker of the sample takes the piece and looks at the torrent. *)
Definition sample_f3 : Furrent := (worker_extract (sample_f2 hello_text)).2.
Definition sample_task : PieceTask :=
  PieceTask_new 0 (mkPiece 0 [mkSubpiece (str "n") 0 5]) (t_descriptor (torrent_at 0 (f_torrents sample_f3))).
Definition sample_peers : list Peer := t_peers (torrent_at 0 (f_torrents sample_f3)).
Definition sample_f4 : Furrent := after (worker_look sample_task sample_f3) sample_f3.
Definition sample_pool_at (f : Furrent) (w : worker) (c : ctl) : pool :=
  mkPool (hello_at f w []) [c] (mkGroup [Running] [0] false) false false POpen.
Definition sample_works : pool := sample_pool_at sample_f4 (WWorks sample_task sample_peers [1]) CBusy.

Lemma sample_extract : worker_extract (sample_f2 hello_text) = (OK sample_task, sample_f3).
Proof. vm_compute. reflexivity. Qed.
Lemma sample_look : worker_look sample_task sample_f3 = Ret (Some (sample_peers, [1]), sample_f4).
Proof. vm_compute. reflexivity. Qed.

Lemma sample_working : sample_reaches (mkApp sample_works (MIdle (sample_window false [sample_row 1]))).
Proof.
  eapply ar_step; [eapply ar_step; [eapply ar_step; [exact sample_hello|]|]|].
  - exact (a_worker _ _ _ _ _ _ (MIdle _) (p_head (sample_pool (sample_f2 hello_text) false) 0 eq_refl)
      ltac:(discriminate) ltac:(discriminate)).
  - exact (a_worker _ _ _ _ _ _ (MIdle _) (p_found (sample_pool_at (sample_f2 hello_text) WIdle CTry) 0 _ _ eq_refl
      eq_refl sample_extract) ltac:(discriminate) ltac:(discriminate)).
  - exact (a_worker _ _ _ _ _ _ (MIdle _) (p_work (sample_pool_at sample_f3 (WTook sample_task) CBusy) 0 _ _ _ _
      eq_refl eq_refl ltac:(discriminate)
      (w_look 0 (hello_at sample_f3 (WTook sample_task) []) _ _ _ _ eq_refl sample_look) eq_refl eq_refl)
      ltac:(discriminate) ltac:(discriminate)).
Qed.

Lemma sample_offered : offered (descriptor sample_task) (task_piece sample_task) [x80] 5.
Proof. split; vm_compute; try reflexivity; try discriminate; split; (discriminate || reflexivity). Qed.
Lemma sample_response : good_response (descriptor sample_task) (handshake_message (descriptor sample_task)).
Proof. split; vm_compute; reflexivity. Qed.
Lemma sample_sendable : sendable (descriptor sample_task) (HaveMessage 9).
Proof. vm_compute. repeat split; discriminate. Qed.
Lemma sample_beyond : pieces_count (descriptor sample_task) <= 9.
Proof. vm_compute. discriminate. Qed.
Lemma sample_peer_0 : sample_peers !! 0%nat = Some (nth 0 sample_peers (mkPeer 0 0)).
Proof. vm_compute. reflexivity. Qed.

Lemma hostile_peer_ends_program_witness :
  app_step (str "bin/furrent") (str ".") (fun _ => true)
    (mkApp sample_works (MIdle (sample_window false [sample_row 1]))) (mkApp sample_works MCrash) /\
  forall a, ~ app_step (str "bin/furrent") (str ".") (fun _ => true) (mkApp sample_works MCrash) a.
Proof.
  exact (hostile_peer_ends_program (str "bin/furrent") (str ".") (fun _ => true) sample_works _ 0 sample_task
    sample_peers [1] 0 1 _ (handshake_message (descriptor sample_task)) [x80] 5 (HaveMessage 9)
    sample_working ltac:(discriminate) eq_refl eq_refl sample_peer_0 sample_offered sample_response sample_sendable
    (or_intror (ex_intro _ 9 (conj eq_refl sample_beyond)))).
Defined.
